(* ===== verification/_CoqProject ===== *)
-Q . S2P
Prelude.v
Redis.v
RedisProg.v
Json.v
JsonValue.v
Errors.v
FinalityTypes.v
RecoveryLedger.v
RecoveryChecks.v
EngineProg.v
RecoveryJournal.v
RecoveryOps.v
RecoveryOffline.v
RecoverySpec.v
RecoveryKeeps.v
RecoveryTxns.v
RecoveryGate.v
RecoveryOpSpecs.v
RecoveryOfflineSpecs.v
RecoveryLife.v
RecoveryClaims.v
RecoveryLiveness.v
RecoveryWitness.v
Finality.v
FinalityClaims.v
Fairness.v
QueueTypes.v
Webhook.v
EoaTypes.v
EoaErrors.v
ExecRecovery.v
EoaKeys.v
EoaAtomic.v
EoaStore.v
EoaStoreProps.v
EoaPending.v
EoaBorrowed.v
EoaSubmitted.v
EoaOps.v
EoaInvariant.v
EoaClaims.v
EoaOpsClaims.v
EoaFormats.v
Concrete.v
ExecWitness.v
EoaWitness.v
Queue.v
QueueInv.v
QueueSteps.v
QueuePop.v
QueueClaims.v
QueueWitness.v
Fees.v
WorkerProg.v
WorkerBuild.v
WorkerSend.v
WorkerGap.v
WorkerConfirm.v
WorkerCycle.v
WorkerLogic.v
WorkerQuiet.v
WorkerPrepare.v
WorkerDispatch.v
WorkerSafety.v
WorkerClaims.v
WorkerWitness.v
Multilane.v
MultilaneInv.v
MultilanePoll.v
MultilaneLoop.v
MultilaneSteps.v
MultilaneClaims.v
SolanaStore.v
SolanaProg.v
SolanaWorker.v
SolanaLogic.v
SolanaSafety.v
SolanaClaims.v
SolanaWitness.v
