(* ===== verification/Prelude.v ===== *)
(** * Engine Core: store, job queues, recovery journal, finality, EOA and Solana executors

    Engine Core sends blockchain transactions for its users.  What must never go wrong is
    kept in two places: one Redis server that many processes share (the store of the EOA
    executor, which binds signed transactions to nonces, and the job queues on which every
    executor runs) and one SQLite ledger per process (the recovery journal, which every
    broadcast passes).  Correctness is about atomic scripts, optimistic transactions
    (WATCH/EXEC), crashes between any two steps, and what others may do in between.

    ** The program's parts

    - twmq (src/twmq/src): job queues.  Jobs are pushed, polled under leases, completed,
      retried, cancelled and pruned; lib.rs has one list per queue, multilane.rs one per
      lane.
    - EOA store (src/executors/src/eoa/store): per account (chain id and address) a pending
      queue, borrowed (signed) transactions, submitted hashes by nonce, recycled nonces and
      two counters.  A worker takes the account's lock; each change is a transaction that
      checks the lock owner.
    - Recovery journal (src/core/src/recovery.rs, recovery/): admissions, signed attempts,
      terminal evidence, chain checkpoints and halts, mirrored to Redis as a token that
      detects a ledger that was rolled back.
    - Finality (src/core/src/finality.rs, src/executors/src/finality.rs): when a receipt may
      settle its transaction.
    - Broadcast boundary (src/executors/src/recovery.rs): checks of signed bytes against the
      admitted request before the journal authorises them.
    - EOA worker (src/executors/src/eoa/worker): the queue job that drives all of these:
      recover borrowed transactions, confirm, send.
    - Solana executor (src/executors/src/solana_executor, src/solana-core): one job per
      transaction, with one signed attempt in Redis under a lock and its signature reserved
      in the journal.
    - Webhooks (src/executors/src/webhook): notifications queued by store transactions and
      by the completion hooks of jobs.

    ** Files

    Foundations.  [Prelude]: results, machine integers, decimal text, strings, list lemmas,
    tactics.  [Redis]: the keyspace (one map per value type), write commands, pipelines,
    sorted reads, frames.  [RedisProg]: client programs as trees of commands, run against a
    schedule that lets other clients act before every command and may break a command
    before or after the server applied it.  [Json]: the codec interface with the round trip
    that the code relies on, and a concrete codec.  [JsonValue]: JSON documents and their
    canonical form.  [Errors]: core/src/error.rs.

    Recovery journal.  [RecoveryLedger]: the SQLite tables and statements; [RecoveryChecks]:
    validation and the Solana budget; [EngineProg]: programs over disk, Redis, RPC and
    clock, with lost calls and crashes; [RecoveryJournal]: the transactions; [RecoveryOps],
    [RecoveryOffline]: the operations of recovery.rs.  Proofs: [RecoverySpec] (invariant and
    history), [RecoveryKeeps], [RecoveryTxns], [RecoveryGate], [RecoveryOpSpecs],
    [RecoveryOfflineSpecs] (each transaction, then each operation as a triple),
    [RecoveryLife] (any operations, crashes and server faults), [RecoveryClaims],
    [RecoveryLiveness] (the guarantees), [RecoveryWitness].  [Fairness]: the lanes in front
    of the journal's mutex (recovery/fairness.rs).

    Finality.  [FinalityTypes], [Finality]: policies, evidence, assessment and settlement;
    [FinalityClaims].

    Queues.  [QueueTypes]: job.rs, queue.rs, diagnostics.rs, hooks.rs and the key names of
    lib.rs.  [Queue]: the scripts of lib.rs as atomic functions, the lease-protected commit
    of transaction.rs, completion pipelines and the public operations.  [QueueInv],
    [QueueSteps], [QueuePop]: distinct keys and the invariant, the step relation of a queue
    with all its clients, a poll stage by stage.  [QueueClaims], [QueueWitness].
    [Multilane]: multilane.rs in the same way.  [MultilaneInv] (key names, what one job's
    commands touch, the invariant), [MultilanePoll] (the steps of a poll), [MultilaneLoop]
    (the loop over the lanes: it ends, its turns, what it hands out), [MultilaneSteps] (the
    other operations and the step relation), [MultilaneClaims].  [Webhook]:
    webhook/envelope.rs, queue_webhook_envelopes of webhook/mod.rs and
    transaction_registry.rs.

    EOA store.  [EoaTypes], [EoaKeys]: records, errors, events and key names of store/mod.rs,
    submitted.rs, borrowed.rs and events.rs.  [EoaErrors]: worker/error.rs and how the queue
    treats a worker's errors.  [ExecRecovery]: the broadcast boundary; [ExecWitness]: it and
    finality on concrete data.
    [EoaAtomic]: execute_with_watch_and_retry and with_lock_check of atomic.rs, the atomic
    step they refine and the refinement proof.  [EoaStore]: the reads and the admission of
    mod.rs and hydrate.rs.  [EoaPending], [EoaBorrowed], [EoaSubmitted], [EoaOps]: the
    transactions of pending.rs, borrowed.rs, submitted.rs and atomic.rs.  [EoaInvariant]:
    what each validation reads, and the nonce invariant, operation by operation.  [EoaStoreProps], [EoaClaims], [EoaOpsClaims], [EoaFormats]: the guarantees.
    [Concrete], [EoaWitness]: concrete data and the guarantees there.

    EOA worker.  [Fees]: core/src/transaction.rs (fee requests), worker/fee_math.rs and the
    fee bump of worker/transaction.rs.  [WorkerProg]: programs over store, journal and
    outside calls; [WorkerBuild] (transaction.rs), [WorkerSend] (send.rs), [WorkerGap]
    (gap_replay.rs), [WorkerConfirm] (confirm.rs), [WorkerCycle] (mod.rs).  Proofs:
    [WorkerLogic] (the program logic), [WorkerQuiet], [WorkerPrepare], [WorkerDispatch] (the
    dispatch stream call by call), [WorkerSafety], [WorkerClaims], [WorkerWitness].

    Solana executor.  [SolanaStore]: solana-core/src/transaction.rs,
    core/src/execution_options/solana.rs and solana_executor/storage.rs.  [SolanaProg]:
    programs over the attempt storage, the journal and outside calls, and the deadline that
    may drop them anywhere.  [SolanaWorker]: solana_executor/worker.rs, the job
    ([sol_process]) and its hooks ([sol_completion]).  Proofs: [SolanaLogic] (what the
    journal operations establish, the program logic), [SolanaSafety] (the rules and each
    function), [SolanaClaims], [SolanaWitness].

    ** How the code is translated

    A Rust function that talks to Redis is a [prog]: a tree of commands whose results
    decide the rest.  A Lua script, a single command or a MULTI/EXEC block is one atomic
    step; a plain pipeline is one step per command.  An empty MULTI/EXEC block, which writes
    nothing, still compares the watched keys in the model; a client library may answer it
    without asking the server.  The [?] operator is [let!] on programs
    and [let?] on results.  A journal operation is a program over ledger file, Redis and
    process; one mutex and one file lock serialise them, so only the Redis server and the
    chain move between the calls of one.  A flow of several operations (assess a receipt,
    authorise a broadcast) gives up the mutex between them: there [EOthers] lets the other
    tasks of the process do anything to the world, of which the theorems assume only that
    they use the journal ([fair_turn]: the ledger stays well formed and keeps its history).
    So a flow meets checkpoints, halts and bindings of others half-way, and its own commit
    may be refused.  A worker is a program over store calls, journal flows and outside
    calls: before each of them the other workers of the process may have acted, and a
    store call still runs against every schedule of other Redis clients and lost replies.
    Futures polled together are interleaved call by call ([interleave]; the dispatch
    stream of [WorkerSend], where authorizations and sends take turns at each call); limits
    on how many run at once only remove interleavings.
    u64 and u128 values are [N] with saturation, checks or wrap-around written where the
    code has them.  Fresh values (uuids, nanoids) and the clock are inputs.  Logging,
    metrics and sleeps are left out: they change no state.  Types and functions of other
    crates (signed transactions, receipts, credentials, SHA-256, signing) are parameters;
    serde codecs are instances of [Json]; a handler's hooks are the commands they add.

    ** What is proved

    - Fencing ([EoaClaims]): a fenced transaction among arbitrary clients and faults is
      linearizable: Ok means exactly one atomic step, other errors mean no effect; a
      worker that lost the lock writes nothing; validations read watched keys.
    - Nonces ([EoaClaims], [EoaOpsClaims]): no reachable state binds a nonce twice;
      allocations hand out exactly the next (or listed recycled) nonces; dispatch results,
      settlement, trimming and resets act only on what their evidence allows and do all
      of it.  The step relation takes from the callers what they guarantee: results belong
      to the borrowed records, a bump replaces a submitted nonce, a NOOP uses a recycled one.  The cached count is written by a transaction whose
      value was computed from earlier, unwatched reads; [cached_count_linearizable] shows
      that for the owner of the account this is the single step of the relation.  A batch
      of NOOPs is recorded whole, by the owner, or not at all.
    - Reads and admission ([EoaStoreProps]): bounded complete paging, budget limits,
      immutable and bounded admission.  Formats ([EoaFormats]): record round trips, the loss
      of records whose id contains a colon, distinct keys.
    - Journal ([RecoveryClaims], [RecoveryLiveness]): over any life of a ledger, with crashes,
      lost calls and Redis restarts, failovers and rollbacks, the ledger stays well formed
      and append-only and refines the life cycle of a transaction; a broadcast is authorised
      only for an admitted transaction that owns its replay key; after the end of a
      transaction there is no further authorisation; rollbacks are refused; interrupted
      work is repaired by the next check; admission is exact; fingerprints of all kinds
      ignore the order of keys (numbers are texts, compared as texts).
    - Finality ([FinalityClaims]): final means canonical, confirmed and checkpointed durably,
      in every later life of the ledger too; a reorganisation below a checkpoint settles nothing; terminal outcomes name recorded
      attempts.  Lanes ([Fairness]): one contender per chain.
    - Queues ([QueueClaims], [MultilaneClaims]): one place per job in every reachable state;
      commits only under an existing lease; at most one completion per lease; polls are
      exclusive and respect cancellations and delays; pruning deletes only unreferenced
      records; bounded error history.  A multilane poll ends and serves lanes in turns;
      within a lane it serves the newest job first.  Job ids are colon-free where they enter
      a queue (otherwise the key names of different jobs could coincide), a job queued from
      another transaction (for which the code has no duplicate check) is not live, lease
      tokens are new, and hooks write no key of the queue itself.  Operators may edit the
      dedupe set of a queue ([empty_dedupe_set], [remove_from_dedupe_set]) at any moment;
      the single-lane invariant then holds as long as nobody pushes a live job again that
      the set forgot, and the same theorem shows that this would queue it twice.
    - Worker ([WorkerClaims]): in every run of the job, whatever store, chain and other
      workers do: nothing is sent that was not reserved in the store and authorised in the
      journal; replayed bytes are the authorised ones of a submitted record, not a NOOP, of
      their nonce; what is removed as confirmed is in a canonical block that the chain's
      policy makes final, checkpointed at or above it and terminal in the ledger; nonces
      are taken in order; dispatch ends with one result per transaction; the job ends with
      the release of the wallet's lock, which frees the account unless a command is lost or
      another client writes the lock.  Signed bytes are the
      client's request ([ExecRecovery], [WorkerPrepare]); fee arithmetic is exact and
      replacements outbid within the caps ([Fees]); errors are given up or retried as
      documented ([EoaErrors]).
    - Solana ([SolanaClaims]): in every run of the job, whatever storage, cluster, signer,
      deadline and other workers do: only validated, stored, counted and authorised bytes are
      sent; two sends of one transaction, by any workers at any time, carry the same
      signature; signing needs that none was reserved before; an outcome is reported only
      when finalized on the cluster and terminal in the ledger; completion hooks never drop
      an unsettled attempt.  The journal is configured in these theorems.

    ** Bounds and fuel

    Retries are the code's own counters: ten attempts of a fenced transaction and of a lease
    commit, twenty sends and five hundred checks of a Solana attempt; running out is the
    code's error value.  Two loops take fuel, with theorems that
    it is enough: the dispatch stream of [WorkerSend] (per transaction three calls of
    its authorization, two of its send and three more actions, [dispatch_complete]) and the loop of a multilane poll ([poll_fuel], lanes times batch
    plus lanes, [multilane_poll_fair]).  Sorted-set scores are natural numbers; the program
    keeps them in the range where Redis doubles are exact.  A lease of zero seconds would
    expire at once; expiry is always the step of the server that deletes the key, and the
    theorems allow it at any time.

    ** Not modelled

    - The polling loops of the queues ([work], shutdown.rs) and their metrics: they spawn
      tasks that call the modelled operations and keep no queue state.
    - Webhook delivery: HTTP, HMAC signing and the destination policy of other crates' URL
      and address types.
    - Bundler and EIP-7702 executors: their jobs run on the modelled queue; their own flows
      are mostly calls of RPC clients and contract encodings of other crates.
    - rpc_cache.rs and status_batcher.rs of the Solana executor: the job sees only their
      answers, which the model leaves arbitrary.
    - HTTP server, chain and signer clients, configuration, credentials: I/O around other
      crates, without state of their own.
    - Export and metrics of the journal: read-only output.
    - error_classifier.rs: no other code calls it. *)

From Stdlib Require Import String Ascii NArith Lia DecimalString DecimalN.
From stdpp Require Import base gmap strings list fin_maps sorting.

(* ------------------------------------------------------------------ *)
(** * Results *)

Declare Scope engine_scope.
Delimit Scope engine_scope with engine.
Open Scope engine_scope.

(** Rust's [Result<A, E>]. *)
Inductive result (E A : Type) : Type :=
| Ok (a : A)
| Err (e : E).
Arguments Ok {E A} _.
Arguments Err {E A} _.

(** The [?] operator on results. *)
Notation "'let?' x ':=' c 'in' k" :=
  (match c with Ok x => k | Err e => Err e end)
  (at level 10, x pattern, c at level 100, k at level 200)
  : engine_scope.

Definition ok_or {E A} (e : E) (o : option A) : result E A :=
  match o with Some a => Ok a | None => Err e end.

(** [iter().map(f).collect::<Result<Vec<_>, _>>()]. *)
Fixpoint collect_results {E A B} (f : A -> result E B) (l : list A) : result E (list B) :=
  match l with
  | [] => Ok []
  | x :: l' =>
      let? y := f x in
      let? ys := collect_results f l' in
      Ok (y :: ys)
  end.

(* ------------------------------------------------------------------ *)
(** * Machine integers *)

Definition U64_MAX : N := 18446744073709551615.
Definition U128_MAX : N := 340282366920938463463374607431768211455.

Definition is_u64 (n : N) : Prop := (n <= U64_MAX)%N.
Definition is_u128 (n : N) : Prop := (n <= U128_MAX)%N.

Definition u64_saturating_add (a b : N) : N := N.min (a + b) U64_MAX.
(** [N.sub] truncates at zero, which is what [saturating_sub] does. *)
Definition saturating_sub (a b : N) : N := (a - b)%N.
Definition u64_checked_add (a b : N) : option N :=
  if (a + b <=? U64_MAX)%N then Some (a + b)%N else None.
Definition checked_sub (a b : N) : option N :=
  if (b <=? a)%N then Some (a - b)%N else None.

Definition u128_saturating_add (a b : N) : N := N.min (a + b) U128_MAX.
Definition u128_saturating_mul (a b : N) : N := N.min (a * b) U128_MAX.

(** [Option<u64>]'s derived ordering puts [None] below every [Some]. *)
Definition option_max (a b : option N) : option N :=
  match a, b with
  | Some x, Some y => Some (N.max x y)
  | Some x, None => Some x
  | None, o => o
  end.

(** [Iterator::max] on a list of [u64]. *)
Definition list_max (l : list N) : option N :=
  foldr (fun x acc => option_max (Some x) acc) None l.

Lemma list_max_None l : list_max l = None <-> l = [].
Proof. destruct l as [|x l]; [done|]. simpl. fold (list_max l). destruct (list_max l); naive_solver. Qed.

Lemma list_max_ge l m x : list_max l = Some m -> x ∈ l -> (x <= m)%N.
Proof.
  revert m. induction l as [|y l IH]; intros m; simpl; [by intros ? ?%elem_of_nil|].
  fold (list_max l). intros Hm [->|Hx]%elem_of_cons.
  - destruct (list_max l); simplify_eq/=; lia.
  - destruct (list_max l) as [m'|] eqn:E; simplify_eq/=.
    + specialize (IH m' eq_refl Hx). lia.
    + apply list_max_None in E. subst. by apply elem_of_nil in Hx.
Qed.

Lemma list_max_elem l m : list_max l = Some m -> m ∈ l.
Proof.
  revert m. induction l as [|y l IH]; intros m; simpl; [done|].
  fold (list_max l). destruct (list_max l) as [m'|] eqn:E; simpl; intros [= <-].
  - specialize (IH m' eq_refl). destruct (N.max_spec y m') as [[_ ->]|[_ ->]]; set_solver.
  - set_solver.
Qed.

(* ------------------------------------------------------------------ *)
(** * Decimal text *)

(** [u64]'s [Display]. *)
Definition u64_to_string (n : N) : string := NilZero.string_of_uint (N.to_uint n).

(** [str::parse::<u64>]: an optional plus sign, at least one digit, no overflow. *)
Definition parse_digits (s : string) : option N :=
  match NilZero.uint_of_string s with
  | Some d => let n := N.of_uint d in if (n <=? U64_MAX)%N then Some n else None
  | None => None
  end.

Definition parse_u64 (s : string) : option N :=
  match s with
  | String "+"%char s' => parse_digits s'
  | _ => parse_digits s
  end.

(* ------------------------------------------------------------------ *)
(** * Strings *)

Fixpoint has_char (c : ascii) (s : string) : bool :=
  match s with
  | EmptyString => false
  | String d s' => if Ascii.eqb d c then true else has_char c s'
  end.

(** [str::split(c)]: always at least one piece. *)
Fixpoint split_on (c : ascii) (s : string) : list string :=
  match s with
  | EmptyString => [EmptyString]
  | String d s' =>
      if Ascii.eqb d c then EmptyString :: split_on c s'
      else match split_on c s' with
           | [] => [String d EmptyString]
           | p :: ps => String d p :: ps
           end
  end.

Lemma string_app_nil_r (s : string) : s +:+ EmptyString = s.
Proof. induction s as [|c s IH]; [done|]. change (String c (s +:+ EmptyString) = String c s). by rewrite IH. Qed.

Lemma string_app_inj_l (p a b : string) : p +:+ a = p +:+ b -> a = b.
Proof. induction p as [|c p IH]; simpl; [done|]. intros [= H]. auto. Qed.

Lemma string_length_app (a b : string) :
  String.length (a +:+ b) = String.length a + String.length b.
Proof. induction a as [|c a IH]; simpl; [done|]. by rewrite IH. Qed.

Lemma string_app_inj_len (a b x y : string) :
  String.length a = String.length b -> a +:+ x = b +:+ y -> a = b /\ x = y.
Proof.
  revert b. induction a as [|c a IH]; intros [|d b]; simpl; try done.
  intros [= Hl] [= -> H]. by destruct (IH b Hl H) as [-> ->].
Qed.

Lemma string_app_inj_r (p a b : string) : a +:+ p = b +:+ p -> a = b.
Proof.
  intros H. apply (string_app_inj_len a b p p); [|done].
  apply (f_equal String.length) in H. rewrite !string_length_app in H. lia.
Qed.

Lemma has_char_app c (a b : string) : has_char c (a +:+ b) = has_char c a || has_char c b.
Proof. induction a as [|d a IH]; simpl; [done|]. by destruct (Ascii.eqb d c). Qed.

Lemma split_on_no_char c s : has_char c s = false -> split_on c s = [s].
Proof.
  induction s as [|d s IH]; simpl; [done|].
  destruct (Ascii.eqb d c); [done|]. intros H. by rewrite IH.
Qed.

Lemma split_on_app c a b :
  has_char c a = false -> split_on c (a +:+ String c b) = a :: split_on c b.
Proof.
  induction a as [|d a IH]; simpl.
  - by rewrite Ascii.eqb_refl.
  - destruct (Ascii.eqb d c) eqn:E; [done|]. intros H. by rewrite IH.
Qed.

Lemma split_on_sep c a b :
  has_char c a = false -> split_on c (a +:+ String c EmptyString +:+ b) = a :: split_on c b.
Proof. apply split_on_app. Qed.

(** Every occurrence of the separator adds a piece. *)
Fixpoint count_char (c : ascii) (s : string) : nat :=
  match s with
  | EmptyString => 0
  | String d s' => if Ascii.eqb d c then S (count_char c s') else count_char c s'
  end.

Lemma count_char_app c (a b : string) : count_char c (a +:+ b) = count_char c a + count_char c b.
Proof. induction a as [|d a IH]; simpl; [done|]. destruct (Ascii.eqb d c); simpl; lia. Qed.

Lemma count_char_has c s : has_char c s = true -> 1 <= count_char c s.
Proof. induction s as [|d s IH]; simpl; [done|]. destruct (Ascii.eqb d c); [lia|auto]. Qed.

Lemma count_char_not_has c s : has_char c s = false -> count_char c s = 0.
Proof. induction s as [|d s IH]; simpl; [done|]. destruct (Ascii.eqb d c); [done|auto]. Qed.

Lemma split_on_length c s : length (split_on c s) = S (count_char c s).
Proof.
  induction s as [|d s IH]; simpl; [done|].
  destruct (Ascii.eqb d c); simpl; [by rewrite IH|].
  destruct (split_on c s) eqn:E; simpl in *; lia.
Qed.

Definition no_colon (s : string) : Prop := has_char ":"%char s = false.

Lemma split_first_colon a x b y :
  no_colon a -> no_colon b -> a +:+ String ":"%char x = b +:+ String ":"%char y -> a = b /\ x = y.
Proof.
  unfold no_colon. revert b. induction a as [|c a IH]; intros [|d b] Ha Hb H; cbn in *.
  - by simplify_eq.
  - by simplify_eq.
  - by simplify_eq.
  - injection H as -> H. destruct (Ascii.eqb d ":"%char); [done|].
    by destruct (IH b Ha Hb H) as [-> ->].
Qed.

(** ** Decimal round trip *)

Lemma N_to_uint_nonnil n : N.to_uint n <> Decimal.Nil.
Proof. destruct n as [|p]; [done|]. apply DecimalPos.Unsigned.to_uint_nonnil. Qed.

Lemma u64_to_string_parse_digits n : is_u64 n -> parse_digits (u64_to_string n) = Some n.
Proof.
  intros Hn. unfold parse_digits, u64_to_string.
  rewrite NilZero.usu by apply N_to_uint_nonnil.
  rewrite DecimalN.Unsigned.of_to. simpl. unfold is_u64 in Hn.
  destruct (N.leb_spec n U64_MAX); [done|lia].
Qed.

Definition is_digit (c : ascii) : bool := has_char c "0123456789".

Lemma string_of_uint_no_char c d :
  is_digit c = false -> has_char c (NilEmpty.string_of_uint d) = false.
Proof.
  intros Hc. assert (∀ a, has_char c (String a EmptyString) = true -> is_digit a = false) as Hd.
  { intros a. simpl. destruct (Ascii.eqb_spec a c); naive_solver. }
  induction d as [| d IH| d IH| d IH| d IH| d IH| d IH| d IH| d IH| d IH| d IH];
    cbn [NilEmpty.string_of_uint has_char]; [done|..];
    match goal with |- context [Ascii.eqb ?a c] =>
      specialize (Hd a); cbn [has_char] in Hd; destruct (Ascii.eqb a c) end;
    solve [by rewrite IH | by specialize (Hd eq_refl)].
Qed.

Lemma u64_to_string_no_char c n : is_digit c = false -> has_char c (u64_to_string n) = false.
Proof.
  intros Hc. unfold u64_to_string, NilZero.string_of_uint.
  pose proof (N_to_uint_nonnil n).
  destruct (N.to_uint n) eqn:E; [done|..]; rewrite <- E; by apply string_of_uint_no_char.
Qed.

Lemma parse_u64_to_string n : is_u64 n -> parse_u64 (u64_to_string n) = Some n.
Proof.
  intros Hn. pose proof (u64_to_string_parse_digits n Hn) as Hp.
  pose proof (u64_to_string_no_char "+"%char n eq_refl) as Hc.
  unfold parse_u64. destruct (u64_to_string n) as [|a s]; [done|].
  simpl in Hc. destruct (Ascii.eqb_spec a "+"%char) as [|Hne]; [done|].
  destruct a as [[] [] [] [] [] [] [] []]; try done; by destruct Hne.
Qed.

Lemma bind_parse_u64 n : is_u64 n -> Some (u64_to_string n) ≫= parse_u64 = Some n.
Proof. apply parse_u64_to_string. Qed.

Lemma u64_to_string_inj m n : u64_to_string m = u64_to_string n -> m = n.
Proof.
  unfold u64_to_string. intros H.
  apply (f_equal NilZero.uint_of_string) in H.
  rewrite !NilZero.usu in H by apply N_to_uint_nonnil. simplify_eq.
  apply (f_equal N.of_uint) in H. by rewrite !DecimalN.Unsigned.of_to in H.
Qed.

Lemma parse_u64_bound s n : parse_u64 s = Some n -> is_u64 n.
Proof.
  assert (∀ s, parse_digits s = Some n -> is_u64 n) as Hd.
  { intros s'. unfold parse_digits. destruct (NilZero.uint_of_string s'); [|done].
    simpl. destruct (N.leb_spec (N.of_uint u) U64_MAX); naive_solver. }
  unfold parse_u64. intros H. repeat case_match; eauto.
Qed.

(* ------------------------------------------------------------------ *)
(** * Lists *)

(** First-occurrence de-duplication of a list by [HashSet::insert]. *)
Fixpoint hash_set_unique `{EqDecision A} (seen : list A) (l : list A) : bool :=
  match l with
  | [] => true
  | x :: l' => if decide (x ∈ seen) then false else hash_set_unique (x :: seen) l'
  end.

Lemma hash_set_unique_spec `{EqDecision A} (l seen : list A) :
  hash_set_unique seen l = true <-> NoDup l /\ (∀ x, x ∈ l -> x ∉ seen).
Proof.
  revert seen. induction l as [|x l IH]; intros seen; simpl.
  - split; [|done]. intros _. split; [constructor|]. set_solver.
  - case_decide as Hx.
    + split; [done|]. intros [_ Hs]. destruct (Hs x); set_solver.
    + rewrite IH, NoDup_cons. split.
      * intros [Hnd Hs]. split_and!; [|done|]; set_solver.
      * intros [[Hx' Hnd] Hs]. split; [done|]. set_solver.
Qed.

Lemma foldl_invariant {A B} (P : A -> Prop) (f : A -> B -> A) l a :
  P a -> (∀ a b, b ∈ l -> P a -> P (f a b)) -> P (foldl f a l).
Proof.
  revert a. induction l as [|b l IH]; intros a Ha Hf; simpl; [done|].
  apply IH; [apply Hf; set_solver|]. intros a' b' Hb. apply Hf. set_solver.
Qed.

(** A list without repeated images identifies elements by their image. *)
Lemma NoDup_map_inj {A B} (f : A -> B) (l : list A) x y :
  NoDup (map f l) -> x ∈ l -> y ∈ l -> f x = f y -> x = y.
Proof.
  intros Hn (i & Hi)%list_elem_of_lookup (j & Hj)%list_elem_of_lookup Heq.
  assert (i = j) as ->; [|congruence].
  apply (NoDup_lookup (map f l) i j (f x)); [done|..]; rewrite list_lookup_fmap.
  - by rewrite Hi.
  - by rewrite Hj, Heq.
Qed.

Lemma collect_results_Ok {E A B} (f : A -> result E B) l ys :
  collect_results f l = Ok ys <-> Forall2 (fun x y => f x = Ok y) l ys.
Proof.
  revert ys. induction l as [|x l IH]; intros ys; simpl.
  - split; [by intros [= <-]|]. by inversion_clear 1.
  - split.
    + intros H. repeat case_match; simplify_eq. constructor; [done|]. by apply IH.
    + inversion_clear 1 as [|? y ? ys' Hx Hl]. rewrite Hx.
      apply IH in Hl. by rewrite Hl.
Qed.

(* ------------------------------------------------------------------ *)
(** * Automation *)

(** Facts about numbers, options and sets the component proofs close goals with. *)
Create HintDb engine.
#[export] Hint Resolve parse_u64_bound parse_u64_to_string : engine.

(** Case analysis on every [if]/[match] in sight, closing impossible branches. *)
Ltac inv_cases := repeat (case_match; simplify_eq/=; try done).

(** Turn boolean arithmetic tests into propositions. *)
Ltac b2p :=
  repeat match goal with
  | H : (_ && _) = true |- _ => apply andb_true_iff in H as [? ?]
  | H : (_ || _) = false |- _ => apply orb_false_iff in H as [? ?]
  | H : negb _ = true |- _ => apply negb_true_iff in H
  | H : negb _ = false |- _ => apply negb_false_iff in H
  | H : (_ <=? _)%N = true |- _ => apply N.leb_le in H
  | H : (_ <=? _)%N = false |- _ => apply N.leb_gt in H
  | H : (_ <? _)%N = true |- _ => apply N.ltb_lt in H
  | H : (_ <? _)%N = false |- _ => apply N.ltb_ge in H
  | H : (_ =? _)%N = true |- _ => apply N.eqb_eq in H
  | H : (_ =? _)%N = false |- _ => apply N.eqb_neq in H
  | H : bool_decide _ = true |- _ => apply bool_decide_eq_true in H
  | H : bool_decide _ = false |- _ => apply bool_decide_eq_false in H
  end.
