(* ===== verification/Redis.v ===== *)
(** The Redis server as the program uses it: a keyspace with one map per value
    type, the write commands that pipelines carry, the reads that validations
    issue, and the frame facts that every component proof rests on.

    Every key name of the program is used with one value type only, so a keyspace
    split by type has no WRONGTYPE replies.  Sorted-set scores are IEEE doubles in
    Redis; nonces, millisecond and second timestamps stay in the exact range
    [0, 2^53], and scores are natural numbers here. *)

From Stdlib Require Import String Ascii NArith Lia.
From stdpp Require Import base gmap strings list fin_maps sorting.
From S2P Require Import Prelude.

Record redis := mkRedis {
  r_str : gmap string string;
  r_hash : gmap string (gmap string string);
  r_zset : gmap string (gmap string N);
  r_list : gmap string (list string);
  r_set : gmap string (gset string);
  r_ttl : gmap string N
}.

Definition redis_empty : redis := mkRedis ∅ ∅ ∅ ∅ ∅ ∅.

(** A missing container reads as an empty one. *)
Definition str (σ : redis) (k : string) : option string := r_str σ !! k.
Definition hash (σ : redis) (k : string) : gmap string string := default ∅ (r_hash σ !! k).
Definition zset (σ : redis) (k : string) : gmap string N := default ∅ (r_zset σ !! k).
Definition lst (σ : redis) (k : string) : list string := default [] (r_list σ !! k).
Definition sett (σ : redis) (k : string) : gset string := default ∅ (r_set σ !! k).
Definition ttl (σ : redis) (k : string) : option N := r_ttl σ !! k.

(** ** Updates *)

Definition clear_ttl_if (b : bool) (k : string) (t : gmap string N) : gmap string N :=
  if b then delete k t else t.

Definition put_str k (v : string) σ :=
  mkRedis (<[k:=v]> (r_str σ)) (r_hash σ) (r_zset σ) (r_list σ) (r_set σ) (delete k (r_ttl σ)).
(** Removing the last element of a container deletes its key and its expiry. *)
Definition put_hash k (h : gmap string string) σ :=
  mkRedis (r_str σ) (<[k:=h]> (r_hash σ)) (r_zset σ) (r_list σ) (r_set σ)
    (clear_ttl_if (bool_decide (h = ∅)) k (r_ttl σ)).
Definition put_zset k (z : gmap string N) σ :=
  mkRedis (r_str σ) (r_hash σ) (<[k:=z]> (r_zset σ)) (r_list σ) (r_set σ)
    (clear_ttl_if (bool_decide (z = ∅)) k (r_ttl σ)).
Definition put_list k (l : list string) σ :=
  mkRedis (r_str σ) (r_hash σ) (r_zset σ) (<[k:=l]> (r_list σ)) (r_set σ)
    (clear_ttl_if (bool_decide (l = [])) k (r_ttl σ)).
Definition put_set k (s : gset string) σ :=
  mkRedis (r_str σ) (r_hash σ) (r_zset σ) (r_list σ) (<[k:=s]> (r_set σ))
    (clear_ttl_if (bool_decide (s = ∅)) k (r_ttl σ)).
Definition put_ttl k (n : N) σ :=
  mkRedis (r_str σ) (r_hash σ) (r_zset σ) (r_list σ) (r_set σ) (<[k:=n]> (r_ttl σ)).
Definition del_key k σ :=
  mkRedis (delete k (r_str σ)) (delete k (r_hash σ)) (delete k (r_zset σ))
    (delete k (r_list σ)) (delete k (r_set σ)) (delete k (r_ttl σ)).

(** [EXISTS]: containers exist while they are non-empty. *)
Definition exists_key (σ : redis) (k : string) : bool :=
  bool_decide (is_Some (str σ k)) || negb (bool_decide (hash σ k = ∅))
  || negb (bool_decide (zset σ k = ∅)) || negb (bool_decide (lst σ k = []))
  || negb (bool_decide (sett σ k = ∅)).

(** ** Write commands *)

Inductive wcmd :=
| SET (k v : string)
| DEL (k : string)
| HSET (k f v : string)
| HDEL (k f : string)
| ZADD (k : string) (items : list (N * string))      (* (score, member) *)
| ZREM (k : string) (members : list string)
| ZREMRANGEBYSCORE (k : string) (lo : N)             (* from [lo] to [+inf] *)
| LPUSH (k v : string)
| RPUSH (k v : string)
| LTRIM (k : string) (stop : nat)                    (* start is always 0 *)
| LREM (k v : string)                                (* every occurrence *)
| LPOP (k : string)
| RPOP (k : string)
| SADD (k m : string)
| SREM (k m : string)
| EXPIRE (k : string) (secs : N).

Definition wkey (c : wcmd) : string :=
  match c with
  | SET k _ | DEL k | HSET k _ _ | HDEL k _ | ZADD k _ | ZREM k _ | ZREMRANGEBYSCORE k _
  | LPUSH k _ | RPUSH k _ | LTRIM k _ | LREM k _ | LPOP k | RPOP k | SADD k _ | SREM k _ | EXPIRE k _ => k
  end.

(** ZADD and ZREM without a member are arity errors: the server refuses to queue
    the command and EXEC discards the whole transaction. *)
Definition wcmd_ok (c : wcmd) : bool :=
  match c with
  | ZADD _ [] | ZREM _ [] => false
  | _ => true
  end.

Definition zadd_items (items : list (N * string)) (z : gmap string N) : gmap string N :=
  foldl (fun z '(s, m) => <[m := s]> z) z items.
Definition zrem_members (ms : list string) (z : gmap string N) : gmap string N :=
  foldl (fun z m => delete m z) z ms.
Definition zrem_from (lo : N) (z : gmap string N) : gmap string N :=
  filter (fun '(_, s) => (s < lo)%N) z.

Definition wrun (c : wcmd) (σ : redis) : redis :=
  match c with
  | SET k v => put_str k v σ
  | DEL k => del_key k σ
  | HSET k f v => put_hash k (<[f:=v]> (hash σ k)) σ
  | HDEL k f => put_hash k (delete f (hash σ k)) σ
  | ZADD k items => put_zset k (zadd_items items (zset σ k)) σ
  | ZREM k ms => put_zset k (zrem_members ms (zset σ k)) σ
  | ZREMRANGEBYSCORE k lo => put_zset k (zrem_from lo (zset σ k)) σ
  | LPUSH k v => put_list k (v :: lst σ k) σ
  | RPUSH k v => put_list k (lst σ k ++ [v]) σ
  | LTRIM k stop => put_list k (take (S stop) (lst σ k)) σ
  | LREM k v => put_list k (filter (fun x => x <> v) (lst σ k)) σ
  | LPOP k => put_list k (tail (lst σ k)) σ
  | RPOP k => put_list k (removelast (lst σ k)) σ
  | SADD k m => put_set k ({[m]} ∪ sett σ k) σ
  | SREM k m => put_set k (sett σ k ∖ {[m]}) σ
  | EXPIRE k n => if exists_key σ k then put_ttl k n σ else σ
  end.

Definition pipeline := list wcmd.
Definition pipe_ok (p : pipeline) : bool := forallb wcmd_ok p.
Definition prun (p : pipeline) (σ : redis) : redis := foldl (fun σ c => wrun c σ) σ p.

Lemma prun_app p q σ : prun (p ++ q) σ = prun q (prun p σ).
Proof. apply foldl_app. Qed.

Lemma pipe_ok_app p q : pipe_ok (p ++ q) = pipe_ok p && pipe_ok q.
Proof. apply forallb_app. Qed.

(** ** View lemmas *)

Lemma str_put_str k v σ k' :
  str (put_str k v σ) k' = if decide (k = k') then Some v else str σ k'.
Proof. unfold str; simpl. apply lookup_insert. Qed.
Lemma hash_put_hash k h σ k' :
  hash (put_hash k h σ) k' = if decide (k = k') then h else hash σ k'.
Proof. unfold hash; simpl. rewrite lookup_insert. by case_decide. Qed.
Lemma zset_put_zset k z σ k' :
  zset (put_zset k z σ) k' = if decide (k = k') then z else zset σ k'.
Proof. unfold zset; simpl. rewrite lookup_insert. by case_decide. Qed.
Lemma lst_put_list k l σ k' :
  lst (put_list k l σ) k' = if decide (k = k') then l else lst σ k'.
Proof. unfold lst; simpl. rewrite lookup_insert. by case_decide. Qed.
Lemma sett_put_set k s σ k' :
  sett (put_set k s σ) k' = if decide (k = k') then s else sett σ k'.
Proof. unfold sett; simpl. rewrite lookup_insert. by case_decide. Qed.

Lemma str_del_key k σ k' : str (del_key k σ) k' = if decide (k = k') then None else str σ k'.
Proof. unfold str; simpl. apply lookup_delete. Qed.
Lemma hash_del_key k σ k' : hash (del_key k σ) k' = if decide (k = k') then ∅ else hash σ k'.
Proof. unfold hash; simpl. rewrite lookup_delete. by case_decide. Qed.
Lemma zset_del_key k σ k' : zset (del_key k σ) k' = if decide (k = k') then ∅ else zset σ k'.
Proof. unfold zset; simpl. rewrite lookup_delete. by case_decide. Qed.
Lemma lst_del_key k σ k' : lst (del_key k σ) k' = if decide (k = k') then [] else lst σ k'.
Proof. unfold lst; simpl. rewrite lookup_delete. by case_decide. Qed.
Lemma sett_del_key k σ k' : sett (del_key k σ) k' = if decide (k = k') then ∅ else sett σ k'.
Proof. unfold sett; simpl. rewrite lookup_delete. by case_decide. Qed.

(** Effect of one command on each view. *)
Lemma str_wrun c σ k :
  str (wrun c σ) k =
    match c with
    | SET k' v => if decide (k' = k) then Some v else str σ k
    | DEL k' => if decide (k' = k) then None else str σ k
    | _ => str σ k
    end.
Proof. destruct c; simpl; rewrite ?str_put_str, ?str_del_key; try done. by case_match. Qed.

Lemma hash_wrun c σ k :
  hash (wrun c σ) k =
    match c with
    | HSET k' f v => if decide (k' = k) then <[f:=v]> (hash σ k) else hash σ k
    | HDEL k' f => if decide (k' = k) then delete f (hash σ k) else hash σ k
    | DEL k' => if decide (k' = k) then ∅ else hash σ k
    | _ => hash σ k
    end.
Proof.
  destruct c; simpl; rewrite ?hash_put_hash, ?hash_del_key; try done;
    repeat case_decide; simplify_eq; try done; by case_match.
Qed.

Lemma zset_wrun c σ k :
  zset (wrun c σ) k =
    match c with
    | ZADD k' items => if decide (k' = k) then zadd_items items (zset σ k) else zset σ k
    | ZREM k' ms => if decide (k' = k) then zrem_members ms (zset σ k) else zset σ k
    | ZREMRANGEBYSCORE k' lo => if decide (k' = k) then zrem_from lo (zset σ k) else zset σ k
    | DEL k' => if decide (k' = k) then ∅ else zset σ k
    | _ => zset σ k
    end.
Proof.
  destruct c; simpl; rewrite ?zset_put_zset, ?zset_del_key; try done;
    repeat case_decide; simplify_eq; try done; by case_match.
Qed.

Lemma lst_wrun c σ k :
  lst (wrun c σ) k =
    match c with
    | LPUSH k' v => if decide (k' = k) then v :: lst σ k else lst σ k
    | RPUSH k' v => if decide (k' = k) then lst σ k ++ [v] else lst σ k
    | LTRIM k' stop => if decide (k' = k) then take (S stop) (lst σ k) else lst σ k
    | LREM k' v => if decide (k' = k) then filter (fun x => x <> v) (lst σ k) else lst σ k
    | LPOP k' => if decide (k' = k) then tail (lst σ k) else lst σ k
    | RPOP k' => if decide (k' = k) then removelast (lst σ k) else lst σ k
    | DEL k' => if decide (k' = k) then [] else lst σ k
    | _ => lst σ k
    end.
Proof.
  destruct c; simpl; rewrite ?lst_put_list, ?lst_del_key; try done;
    repeat case_decide; simplify_eq; try done; by case_match.
Qed.

Lemma sett_wrun c σ k :
  sett (wrun c σ) k =
    match c with
    | SADD k' m => if decide (k' = k) then {[m]} ∪ sett σ k else sett σ k
    | SREM k' m => if decide (k' = k) then sett σ k ∖ {[m]} else sett σ k
    | DEL k' => if decide (k' = k) then ∅ else sett σ k
    | _ => sett σ k
    end.
Proof.
  destruct c; simpl; rewrite ?sett_put_set, ?sett_del_key; try done;
    repeat case_decide; simplify_eq; try done; by case_match.
Qed.

(** ** Frames *)

(** Two keyspaces agree on a key when every read of that key gives the same value. *)
Record same_at (k : string) (σ1 σ2 : redis) : Prop := {
  sa_str : str σ1 k = str σ2 k;
  sa_hash : hash σ1 k = hash σ2 k;
  sa_zset : zset σ1 k = zset σ2 k;
  sa_list : lst σ1 k = lst σ2 k;
  sa_set : sett σ1 k = sett σ2 k
}.

#[export] Instance same_at_equiv k : Equivalence (same_at k).
Proof.
  split; [by constructor| by intros ?? []; constructor|].
  intros ??? [] []; constructor; congruence.
Qed.

Definition agree_on (F : string -> Prop) (σ1 σ2 : redis) : Prop :=
  ∀ k, F k -> same_at k σ1 σ2.

#[export] Instance agree_on_equiv F : Equivalence (agree_on F).
Proof.
  split; [done| by intros ?? H k Hk; symmetry; apply H|].
  intros ??? H1 H2 k Hk. etrans; [by apply H1|by apply H2].
Qed.

Lemma wrun_frame c σ k : k <> wkey c -> same_at k σ (wrun c σ).
Proof.
  intros Hk. constructor;
    rewrite ?str_wrun, ?hash_wrun, ?zset_wrun, ?lst_wrun, ?sett_wrun;
    destruct c; simpl in Hk; repeat case_decide; congruence.
Qed.

Lemma prun_frame p σ k : k ∉ map wkey p -> same_at k σ (prun p σ).
Proof.
  revert σ. induction p as [|c p IH]; intros σ Hk; simpl; [done|].
  simpl in Hk. rewrite not_elem_of_cons in Hk. destruct Hk as [Hc Hp].
  etrans; [by apply wrun_frame|]. by apply IH.
Qed.

Lemma exists_key_same σ1 σ2 k : same_at k σ1 σ2 -> exists_key σ1 k = exists_key σ2 k.
Proof. intros [H1 H2 H3 H4 H5]. unfold exists_key. by rewrite H1, H2, H3, H4, H5. Qed.

(** ** Sorted-set reads *)

(** Redis orders members by score, then by bytes. *)
Definition zset_le (a b : string * N) : Prop :=
  (a.2 < b.2)%N \/ (a.2 = b.2 /\ String.leb a.1 b.1 = true).
#[export] Instance zset_le_dec : RelDecision zset_le.
Proof. intros a b. unfold zset_le. apply _. Defined.
#[export] Instance zset_le_total : Total zset_le.
Proof.
  intros [m1 s1] [m2 s2]. unfold zset_le; simpl.
  destruct (N.lt_trichotomy s1 s2) as [?|[->|?]]; [naive_solver| |naive_solver].
  destruct (String.leb_total m1 m2); naive_solver.
Qed.

(** [ZRANGE key 0 -1 WITHSCORES]. *)
Definition zrange (z : gmap string N) : list (string * N) := merge_sort zset_le (map_to_list z).
(** [ZRANGE key -1 -1 WITHSCORES]. *)
Definition zrange_last (z : gmap string N) : list (string * N) :=
  match last (zrange z) with Some x => [x] | None => [] end.
(** [ZRANGE key start stop] with non-negative ranks. *)
Definition zrange_slice (z : gmap string N) (start stop : N) : list (string * N) :=
  take (N.to_nat (stop + 1 - start)) (drop (N.to_nat start) (zrange z)).
(** [ZRANGEBYSCORE key lo hi WITHSCORES]. *)
Definition zrangebyscore (z : gmap string N) (lo hi : N) : list (string * N) :=
  filter (fun '(_, s) => (lo <= s <= hi)%N) (zrange z).

Lemma elem_of_zrange z m s : (m, s) ∈ zrange z <-> z !! m = Some s.
Proof. unfold zrange. rewrite merge_sort_Permutation. apply elem_of_map_to_list. Qed.

Lemma zrange_NoDup_fst z : NoDup (zrange z).*1.
Proof. unfold zrange. rewrite merge_sort_Permutation. apply NoDup_fst_map_to_list. Qed.

Lemma length_zrange z : length (zrange z) = size z.
Proof. unfold zrange. rewrite merge_sort_Permutation. by rewrite length_map_to_list. Qed.

Lemma zrange_nil z : zrange z = [] <-> z = ∅.
Proof.
  rewrite <- map_size_empty_iff, <- length_zrange.
  by destruct (zrange z).
Qed.

Definition score_le (a b : string * N) : Prop := (a.2 <= b.2)%N.
#[export] Instance score_le_trans : Transitive score_le.
Proof. intros [] [] []. unfold score_le. simpl. lia. Qed.

Lemma zrange_sorted z : StronglySorted score_le (zrange z).
Proof.
  apply Sorted_StronglySorted; [apply _|].
  assert (Sorted zset_le (zrange z)) as Hs by apply Sorted_merge_sort, _.
  induction Hs as [|x l Hl IH Hh]; constructor; [done|].
  destruct Hh as [|y l Hxy]; constructor. unfold zset_le, score_le in *. lia.
Qed.

Lemma StronglySorted_last {A} (R : relation A) l x y :
  StronglySorted R l -> last l = Some y -> x ∈ l -> x = y \/ R x y.
Proof.
  induction 1 as [|a l Hl IH Hf]; [done|].
  rewrite elem_of_cons. destruct l as [|b l].
  - simpl. intros [= <-] [->|Hx]; [by left|]. by apply elem_of_nil in Hx.
  - rewrite last_cons_cons. intros Hlast [->|Hx]; [|by apply IH].
    right. rewrite Forall_forall in Hf. apply Hf. by apply last_Some_elem_of.
Qed.

(** The last rank carries the greatest score. *)
Lemma zrange_last_max z m s m' s' :
  zrange_last z = [(m, s)] -> z !! m' = Some s' -> (s' <= s)%N.
Proof.
  unfold zrange_last. intros Hl Hm. apply elem_of_zrange in Hm.
  destruct (last (zrange z)) as [[a b]|] eqn:E; simplify_eq.
  destruct (StronglySorted_last score_le (zrange z) (m', s') (m, s)) as [?|?];
    [apply zrange_sorted|done|done|by simplify_eq|done].
Qed.

Lemma zrange_last_elem z m s : zrange_last z = [(m, s)] -> z !! m = Some s.
Proof.
  unfold zrange_last. destruct (last (zrange z)) as [x|] eqn:E; intros [= ->].
  apply elem_of_zrange. by apply last_Some_elem_of.
Qed.

Lemma zrange_last_nil z : zrange_last z = [] -> z = ∅.
Proof.
  unfold zrange_last. destruct (last (zrange z)) eqn:E; [done|].
  intros _. apply last_None in E. by apply zrange_nil.
Qed.

(** ** Member updates *)

Lemma lookup_zrem_members ms z m :
  zrem_members ms z !! m = if decide (m ∈ ms) then None else z !! m.
Proof.
  revert z. induction ms as [|a ms IH]; intros z; simpl.
  { destruct (decide (m ∈ [])) as [[]%elem_of_nil|]; done. }
  rewrite IH. destruct (decide (m ∈ ms)), (decide (m ∈ a :: ms)); try done; try set_solver.
  - assert (m = a) as -> by set_solver. by rewrite lookup_delete_eq.
  - rewrite lookup_delete_ne; [done|]. set_solver.
Qed.

Lemma zadd_items_lookup_ne items z m :
  m ∉ items.*2 -> zadd_items items z !! m = z !! m.
Proof.
  revert z. induction items as [|[s a] items IH]; intros z; simpl; [done|].
  rewrite not_elem_of_cons. intros [Ha Hm]. rewrite IH by done. by rewrite lookup_insert_ne.
Qed.

Lemma zadd_items_inv items z m s :
  zadd_items items z !! m = Some s -> (s, m) ∈ items \/ z !! m = Some s.
Proof.
  revert z. induction items as [|[s' a] items IH]; intros z; simpl; [by right|].
  intros [H|H]%IH; [left; set_solver|].
  rewrite lookup_insert in H. case_decide; simplify_eq; [left; set_solver|by right].
Qed.

Lemma zadd_items_is_Some items z m :
  is_Some (zadd_items items z !! m) <-> m ∈ items.*2 \/ is_Some (z !! m).
Proof.
  revert z. induction items as [|[s a] items IH]; intros z; simpl; [set_solver|].
  rewrite IH. rewrite lookup_insert_is_Some', elem_of_cons. naive_solver.
Qed.

Lemma zadd_items_added items z m :
  m ∈ items.*2 -> ∃ s, (s, m) ∈ items /\ zadd_items items z !! m = Some s.
Proof.
  revert z. induction items as [|[s' a] items IH]; intros z; simpl; [by intros ?%elem_of_nil|].
  rewrite elem_of_cons. intros Hm. destruct (decide (m ∈ items.*2)) as [Hin|Hin].
  - destruct (IH (<[a := s']> z) Hin) as (s & Hs & Hz). exists s. split; [set_solver|done].
  - destruct Hm as [->|Hm]; [|done]. exists s'. rewrite zadd_items_lookup_ne by done.
    split; [by left|by rewrite lookup_insert_eq].
Qed.

Lemma lookup_zrem_from lo z m s :
  zrem_from lo z !! m = Some s <-> z !! m = Some s /\ (s < lo)%N.
Proof. unfold zrem_from. apply map_lookup_filter_Some. Qed.

(** ** Whole pipelines *)

(** Where the entries found after a pipeline come from. *)
Lemma hash_prun_inv p σ k f v :
  hash (prun p σ) k !! f = Some v -> HSET k f v ∈ p \/ hash σ k !! f = Some v.
Proof.
  revert σ. induction p as [|c p IH]; intros σ; simpl; [by right|].
  intros [Hin|Hv]%IH; [left; set_solver|]. rewrite hash_wrun in Hv.
  destruct c; repeat case_decide; simplify_eq; try (by right).
  - rewrite lookup_insert in Hv. case_decide; simplify_eq; [left; set_solver|by right].
  - rewrite lookup_delete in Hv. case_decide; [done|by right].
Qed.

Lemma zset_prun_inv p σ k m s :
  zset (prun p σ) k !! m = Some s ->
  (∃ items, ZADD k items ∈ p /\ (s, m) ∈ items) \/ zset σ k !! m = Some s.
Proof.
  revert σ. induction p as [|c p IH]; intros σ; simpl; [by right|].
  intros [(items & Hin & Hm)|Hv]%IH; [left; set_solver|]. rewrite zset_wrun in Hv.
  destruct c; repeat case_decide; simplify_eq; try (by right).
  - apply zadd_items_inv in Hv as [Hv|Hv]; [left; set_solver|by right].
  - rewrite lookup_zrem_members in Hv. case_decide; [done|by right].
  - apply lookup_zrem_from in Hv as [Hv _]. by right.
Qed.

(** Nothing writes the key: its value stays. *)
Lemma prun_same p σ k : Forall (fun c => wkey c <> k) p -> same_at k σ (prun p σ).
Proof.
  intros Hp. apply prun_frame. intros (c & -> & Hc)%list_elem_of_fmap.
  rewrite Forall_forall in Hp. by apply (Hp c).
Qed.

(** A removal that no later command of the pipeline can undo. *)
Lemma hash_prun_removed p σ k f :
  HDEL k f ∈ p -> (∀ v, HSET k f v ∉ p) -> hash (prun p σ) k !! f = None.
Proof.
  intros Hin Hno. apply list_elem_of_split in Hin as (p1 & p2 & ->).
  rewrite prun_app. destruct (hash (prun (HDEL k f :: p2) (prun p1 σ)) k !! f) as [v|] eqn:E; [|done].
  change (hash (prun p2 (wrun (HDEL k f) (prun p1 σ))) k !! f = Some v) in E.
  apply hash_prun_inv in E as [E|E]; [set_solver|].
  rewrite hash_wrun, decide_True in E by done. by rewrite lookup_delete_eq in E.
Qed.

Lemma zset_prun_removed p σ k ms m :
  ZREM k ms ∈ p -> m ∈ ms -> (∀ items, ZADD k items ∈ p -> m ∉ items.*2) ->
  zset (prun p σ) k !! m = None.
Proof.
  intros Hin Hm Hno. apply list_elem_of_split in Hin as (p1 & p2 & ->).
  rewrite prun_app. destruct (zset (prun (ZREM k ms :: p2) (prun p1 σ)) k !! m) as [s|] eqn:E; [|done].
  change (zset (prun p2 (wrun (ZREM k ms) (prun p1 σ))) k !! m = Some s) in E.
  apply zset_prun_inv in E as [(items & Hin & Hs)|E].
  - exfalso. apply (Hno items); [set_solver|]. by apply (list_elem_of_fmap_2 snd) in Hs.
  - rewrite zset_wrun, decide_True in E by done. by rewrite lookup_zrem_members, decide_True in E.
Qed.

(** The last write of a string key wins. *)
Lemma str_prun_last p q σ k v :
  Forall (fun c => wkey c <> k) q -> str (prun (p ++ SET k v :: q) σ) k = Some v.
Proof.
  intros Hq. rewrite prun_app. simpl. rewrite <- (sa_str _ _ _ (prun_same _ _ _ Hq)).
  by rewrite str_put_str, decide_True.
Qed.

(** Fields and members that no command of the pipeline names. *)
Definition leaves_field (k f : string) (c : wcmd) : Prop :=
  match c with
  | HSET k' f' _ | HDEL k' f' => k' <> k \/ f' <> f
  | DEL k' => k' <> k
  | _ => True
  end.
Definition leaves_member (k m : string) (c : wcmd) : Prop :=
  match c with
  | ZADD k' items => k' <> k \/ m ∉ items.*2
  | ZREM k' ms => k' <> k \/ m ∉ ms
  | ZREMRANGEBYSCORE k' _ | DEL k' => k' <> k
  | _ => True
  end.

#[export] Instance leaves_field_dec k f c : Decision (leaves_field k f c).
Proof. destruct c; cbn; apply _. Defined.

Lemma hash_prun_leaves p σ k f :
  Forall (leaves_field k f) p -> hash (prun p σ) k !! f = hash σ k !! f.
Proof.
  intros Hp. revert σ. induction Hp as [|c p Hc Hp IH]; intros σ; [done|].
  change (prun (c :: p) σ) with (prun p (wrun c σ)). rewrite IH, hash_wrun. destruct c; cbn in Hc; repeat case_decide; simplify_eq; try done.
  - destruct Hc as [?|?]; [done|]. by rewrite lookup_insert_ne.
  - destruct Hc as [?|?]; [done|]. by rewrite lookup_delete_ne.
Qed.

Lemma zset_prun_leaves p σ k m :
  Forall (leaves_member k m) p -> zset (prun p σ) k !! m = zset σ k !! m.
Proof.
  intros Hp. revert σ. induction Hp as [|c p Hc Hp IH]; intros σ; [done|].
  change (prun (c :: p) σ) with (prun p (wrun c σ)). rewrite IH, zset_wrun. destruct c; cbn in Hc; repeat case_decide; simplify_eq; try done.
  - destruct Hc as [?|?]; [done|]. by rewrite zadd_items_lookup_ne.
  - destruct Hc as [?|?]; [done|]. by rewrite lookup_zrem_members, decide_False.
Qed.

(** A field that the pipeline sets to one value only. *)
Lemma hash_prun_set p σ k f v :
  HSET k f v ∈ p -> (∀ c, c ∈ p -> leaves_field k f c \/ c = HSET k f v) ->
  hash (prun p σ) k !! f = Some v.
Proof.
  revert σ. induction p as [|c p IH]; intros σ Hin Hall; [by apply elem_of_nil in Hin|].
  change (prun (c :: p) σ) with (prun p (wrun c σ)).
  destruct (decide (Forall (leaves_field k f) p)) as [Hl|Hl].
  - rewrite hash_prun_leaves by done. apply elem_of_cons in Hin as [<-|Hin].
    + by rewrite hash_wrun, decide_True, lookup_insert_eq.
    + rewrite Forall_forall in Hl. destruct (Hl _ Hin); done.
  - apply not_Forall_Exists, Exists_exists in Hl as (c' & Hc' & Hn); [|apply _].
    destruct (Hall c') as [?| ->]; [set_solver|done|]. apply IH; [done|set_solver].
Qed.

Lemma leaves_field_key k f c : wkey c <> k -> leaves_field k f c.
Proof. destruct c; cbn; auto. Qed.
Lemma leaves_member_key k m c : wkey c <> k -> leaves_member k m c.
Proof. destruct c; cbn; auto. Qed.
#[export] Instance leaves_member_dec k m c : Decision (leaves_member k m c).
Proof. destruct c; cbn; apply _. Defined.

(** A member whose entry changed was named by some command. *)
Lemma zset_prun_changed p σ k m :
  zset (prun p σ) k !! m <> zset σ k !! m -> ∃ c, c ∈ p /\ wkey c = k /\ ¬ leaves_member k m c.
Proof.
  intros Hne. destruct (decide (Forall (leaves_member k m) p)) as [Hl|Hl].
  - by rewrite zset_prun_leaves in Hne.
  - apply not_Forall_Exists, Exists_exists in Hl as (c & Hc & Hn); [|apply _].
    exists c. split_and!; [done| |done].
    destruct (decide (wkey c = k)); [done|]. destruct Hn. by apply leaves_member_key.
Qed.

Lemma hash_prun_changed p σ k :
  hash (prun p σ) k <> hash σ k -> ∃ c, c ∈ p /\ wkey c = k.
Proof.
  intros Hne. destruct (decide (Forall (fun c => wkey c <> k) p)) as [Hl|Hl].
  - by rewrite <- (sa_hash _ _ _ (prun_same _ σ _ Hl)) in Hne.
  - apply not_Forall_Exists, Exists_exists in Hl as (c & Hc & Hn); [|apply _].
    exists c. split; [done|]. by destruct (decide (wkey c = k)).
Qed.

(** A member that is added and never removed. *)
Lemma zset_prun_added p σ k items m :
  ZADD k items ∈ p -> m ∈ items.*2 ->
  (∀ c, c ∈ p -> wkey c = k -> ∃ items, c = ZADD k items) ->
  is_Some (zset (prun p σ) k !! m).
Proof.
  intros Hin Hm Hk.
  assert (∀ p σ, (∀ c, c ∈ p -> wkey c = k -> ∃ items, c = ZADD k items) ->
    is_Some (zset σ k !! m) -> is_Some (zset (prun p σ) k !! m)) as Hkeep.
  { clear. intros p. induction p as [|c p IH]; intros σ Hk Hs; [done|].
    apply (IH (wrun c σ)); [set_solver|]. destruct (decide (wkey c = k)) as [Hc|Hc].
    - destruct (Hk c) as [it ->]; [set_solver|done|].
      rewrite zset_wrun, decide_True by done. apply zadd_items_is_Some. by right.
    - by rewrite <- (sa_zset _ _ _ (wrun_frame c σ k (not_eq_sym Hc))). }
  apply list_elem_of_split in Hin as (p1 & p2 & ->). rewrite prun_app.
  apply (Hkeep p2); [set_solver|]. rewrite zset_wrun, decide_True by done.
  apply zadd_items_is_Some. by left.
Qed.
