(* ===== verification/RedisProg.v ===== *)
(** Client programs against a shared Redis server.

    A program is a tree of commands.  It runs on one connection while other
    clients act: before each command of the program the schedule lets any list of
    foreign steps happen, and may break the command itself, either before the
    server saw it or after the server applied it.  WATCH/EXEC follow Redis: a key
    touched by a foreign step after WATCH makes EXEC reply nil. *)

From Stdlib Require Import String Ascii NArith Lia.
From stdpp Require Import base gmap strings list fin_maps.
From S2P Require Import Prelude Redis.

(** What the client library can report: a broken transport, a reply of the wrong
    type, an error reply of a script, or a transaction the server discarded while
    queueing it. *)
Inductive redis_error := TransportError | TypeError | ReplyError | ExecAbort.

(** [impl From<redis::RedisError>] of an error type. *)
Class FromRedis (E : Type) := from_redis : redis_error -> E.

(** ** Other clients *)

(** One atomic step of another client (a command, a script, an EXEC) or of the
    server itself (an expiry), with the keys it touches. *)
Record env_step := mkStep {
  es_touch : gset string;
  es_run : redis -> redis
}.
Definition env_step_ok (s : env_step) : Prop :=
  ∀ σ k, k ∉ es_touch s -> same_at k σ (es_run s σ).

Definition run_steps (es : list env_step) (σ : redis) : redis :=
  foldl (fun σ s => es_run s σ) σ es.
Definition touches (es : list env_step) (W : gset string) : bool :=
  existsb (fun s => negb (bool_decide (es_touch s ∩ W = ∅))) es.

Inductive fault := DropBefore | LoseReply.

Record slot := mkSlot {
  sl_steps : list env_step;
  sl_fault : option fault;
  sl_now : N
}.
Definition schedule := list slot.

(** When the schedule runs out the program is alone with a stopped clock. *)
Definition next_slot (sch : schedule) : slot * schedule :=
  match sch with
  | [] => (mkSlot [] None 0, [])
  | s :: sch' => (s, sch')
  end.

Definition sched_steps (sch : schedule) : list env_step := sch ≫= sl_steps.
Definition sched_ok (sch : schedule) : Prop := ∀ s, s ∈ sched_steps sch -> env_step_ok s.

(** ** Connections and programs *)

Record conn := mkConn {
  watched : gset string;
  dirty : bool
}.
Definition idle : conn := mkConn ∅ false.

Definition conn_env (es : list env_step) (c : conn) : conn :=
  mkConn (watched c) (dirty c || touches es (watched c)).

Inductive prog (A : Type) : Type :=
| Ret (a : A)
| Now (k : N -> prog A)
| Atomic {B : Type} (f : redis -> redis * B) (k : result redis_error B -> prog A)
| Watch (ks : list string) (k : result redis_error unit -> prog A)
| Unwatch (k : result redis_error unit -> prog A)
| Exec (p : pipeline) (k : result redis_error bool -> prog A).
Arguments Ret {A} _.
Arguments Now {A} _.
Arguments Atomic {A B} _ _.
Arguments Watch {A} _ _.
Arguments Unwatch {A} _.
Arguments Exec {A} _ _.

Fixpoint bind {A B} (p : prog A) (g : A -> prog B) : prog B :=
  match p with
  | Ret a => g a
  | Now k => Now (fun n => bind (k n) g)
  | Atomic f k => Atomic f (fun r => bind (k r) g)
  | Watch ks k => Watch ks (fun r => bind (k r) g)
  | Unwatch k => Unwatch (fun r => bind (k r) g)
  | Exec p k => Exec p (fun r => bind (k r) g)
  end.

Notation "'let*' x ':=' p 'in' q" := (bind p (fun x => q))
  (at level 10, x pattern, p at level 100, q at level 200) : engine_scope.

(** The [?] operator on a program that yields a result. *)
Notation "'let!' x ':=' p 'in' q" :=
  (bind p (fun r => match r with Ok x => q | Err e => Ret (Err e) end))
  (at level 10, x pattern, p at level 100, q at level 200) : engine_scope.

(** Outcome of a server-side effect [f] under a possible fault. *)
Definition with_fault {B} (ft : option fault) (f : redis -> redis * result redis_error B)
    (σ : redis) : redis * result redis_error B :=
  match ft with
  | None => f σ
  | Some DropBefore => (σ, Err TransportError)
  | Some LoseReply => ((f σ).1, Err TransportError)
  end.

(** EXEC on a connection: a malformed pipeline is discarded, a dirty connection
    replies nil, otherwise the whole pipeline is applied. *)
Definition exec_effect (c : conn) (p : pipeline) (σ : redis) : redis * result redis_error bool :=
  if negb (pipe_ok p) then (σ, Err ExecAbort)
  else if dirty c then (σ, Ok false)
  else (prun p σ, Ok true).

Fixpoint run {A} (p : prog A) (sch : schedule) (c : conn) (σ : redis)
    : A * (schedule * conn * redis) :=
  let '(sl, sch') := next_slot sch in
  let σ1 := run_steps (sl_steps sl) σ in
  let c1 := conn_env (sl_steps sl) c in
  match p with
  | Ret a => (a, (sch, c, σ))
  | Now k => run (k (sl_now sl)) sch' c1 σ1
  | Atomic f k =>
      let '(σ2, r) := with_fault (sl_fault sl) (fun s => let '(s', b) := f s in (s', Ok b)) σ1 in
      run (k r) sch' c1 σ2
  | Watch ks k =>
      match sl_fault sl with
      | None => run (k (Ok tt)) sch' (mkConn (watched c1 ∪ list_to_set ks) (dirty c1)) σ1
      | Some DropBefore => run (k (Err TransportError)) sch' c1 σ1
      | Some LoseReply =>
          run (k (Err TransportError)) sch' (mkConn (watched c1 ∪ list_to_set ks) (dirty c1)) σ1
      end
  | Unwatch k =>
      match sl_fault sl with
      | None => run (k (Ok tt)) sch' idle σ1
      | Some DropBefore => run (k (Err TransportError)) sch' c1 σ1
      | Some LoseReply => run (k (Err TransportError)) sch' idle σ1
      end
  | Exec q k =>
      let '(σ2, r) := with_fault (sl_fault sl) (exec_effect c1 q) σ1 in
      run (k r) sch' (match sl_fault sl with Some DropBefore => c1 | _ => idle end) σ2
  end.

(** A program with the server to itself. *)
Definition run_alone {A} (p : prog A) (σ : redis) : A * redis :=
  let '(a, (_, _, σ')) := run p [] idle σ in (a, σ').

(** ** Building blocks *)

Section Blocks.
Context {E : Type} `{FromRedis E}.

Definition lift_redis {A} (r : result redis_error A) : result E A :=
  match r with Ok a => Ok a | Err e => Err (from_redis e) end.

(** One read round trip; the reply may fail to convert to the expected type. *)
Definition read {A} (q : redis -> result redis_error A) : prog (result E A) :=
  Atomic (fun σ => (σ, q σ))
    (fun r => Ret (lift_redis (match r with Ok x => x | Err e => Err e end))).

(** A non-transactional pipeline of reads: one command after the other, and other
    clients may act in between. *)
Fixpoint read_all {A} (qs : list (redis -> result redis_error A)) : prog (result E (list A)) :=
  match qs with
  | [] => Ret (Ok [])
  | q :: qs' => let! x := read q in let! xs := read_all qs' in Ret (Ok (x :: xs))
  end.

(** One atomic read-modify-write round trip (a script, or an unconditional pipeline). *)
Definition atomically {A} (f : redis -> redis * A) : prog (result E A) :=
  Atomic f (fun r => Ret (lift_redis r)).

(** Programs that only read, only keys in [F], and stop at the first failed read. *)
Inductive reads_only {A} (F : string -> Prop) : prog (result E A) -> Prop :=
| RO_ret r : reads_only F (Ret r)
| RO_read B (q : redis -> B) k :
    (∀ σ1 σ2, agree_on F σ1 σ2 -> q σ1 = q σ2) ->
    (∀ e, k (Err e) = Ret (Err (from_redis e))) ->
    (∀ b, reads_only F (k (Ok b))) ->
    reads_only F (Atomic (fun σ => (σ, q σ)) k).

Lemma reads_only_read {A} F (q : redis -> result redis_error A) :
  (∀ σ1 σ2, agree_on F σ1 σ2 -> q σ1 = q σ2) -> reads_only F (read q).
Proof. intros Hq. apply RO_read; [done|done|]. intros b. apply RO_ret. Qed.

Lemma reads_only_ret {A} F (r : result E A) : reads_only F (Ret r).
Proof. apply RO_ret. Qed.

Lemma reads_only_mono {A} (F G : string -> Prop) (p : prog (result E A)) :
  (∀ k, F k -> G k) -> reads_only F p -> reads_only G p.
Proof.
  intros HFG Hp. induction Hp as [r|C q k Hq He Hk IH]; [apply RO_ret|].
  apply RO_read; [|done|done]. intros σ1 σ2 Ha. apply Hq. intros x Hx. auto.
Qed.

Lemma reads_only_bind {A B} F (p : prog (result E A)) (g : A -> prog (result E B)) :
  reads_only F p -> (∀ a, reads_only F (g a)) -> reads_only F (let! x := p in g x).
Proof.
  intros Hp Hg. induction Hp as [r|C q k Hq He Hk IH]; simpl.
  - destruct r; [apply Hg|apply RO_ret].
  - apply RO_read; [done| |done]. intros e. by rewrite He.
Qed.

Lemma reads_only_read_all {A} F (qs : list (redis -> result redis_error A)) :
  (∀ q, q ∈ qs -> ∀ σ1 σ2, agree_on F σ1 σ2 -> q σ1 = q σ2) -> reads_only F (read_all qs).
Proof.
  induction qs as [|q qs IH]; intros Hq; [apply RO_ret|].
  apply reads_only_bind; [apply reads_only_read, Hq; set_solver|]. intros x.
  apply reads_only_bind; [apply IH; set_solver|]. intros xs. apply RO_ret.
Qed.
End Blocks.

(** A non-transactional pipeline of writes. *)
Fixpoint write_all {E} `{FromRedis E} (p : pipeline) : prog (result E unit) :=
  match p with
  | [] => Ret (Ok tt)
  | c :: p' => let! _ := atomically (fun σ => (wrun c σ, tt)) in write_all p'
  end.

(** ** Foreign steps *)

Lemma run_steps_app es fs σ : run_steps (es ++ fs) σ = run_steps fs (run_steps es σ).
Proof. apply foldl_app. Qed.

Lemma touches_app es fs W : touches (es ++ fs) W = touches es W || touches fs W.
Proof. apply existsb_app. Qed.

Lemma conn_env_app es fs c : conn_env (es ++ fs) c = conn_env fs (conn_env es c).
Proof. unfold conn_env; simpl. by rewrite touches_app, orb_assoc. Qed.

Lemma conn_env_nil c : conn_env [] c = c.
Proof. destruct c. unfold conn_env; simpl. by rewrite orb_false_r. Qed.

Lemma sched_steps_app s1 s2 : sched_steps (s1 ++ s2) = sched_steps s1 ++ sched_steps s2.
Proof. unfold sched_steps. by rewrite bind_app. Qed.

(** No step of [es] touches a key of [F]. *)
Definition untouched (F : string -> Prop) (es : list env_step) : Prop :=
  ∀ s k, s ∈ es -> F k -> k ∉ es_touch s.

Lemma untouched_app F es fs : untouched F (es ++ fs) <-> untouched F es /\ untouched F fs.
Proof. unfold untouched. setoid_rewrite elem_of_app. naive_solver. Qed.

Lemma touches_false_untouched es W :
  touches es W = false <-> untouched (fun k => k ∈ W) es.
Proof.
  unfold touches, untouched. induction es as [|s es IH]; simpl.
  - split; [|done]. by intros _ s k ?%elem_of_nil.
  - rewrite orb_false_iff, negb_false_iff, bool_decide_eq_true, IH.
    setoid_rewrite elem_of_cons. set_solver.
Qed.

Lemma untouched_agree F es σ :
  (∀ s, s ∈ es -> env_step_ok s) -> untouched F es -> agree_on F σ (run_steps es σ).
Proof.
  revert σ. induction es as [|s es IH]; intros σ Hok Hu; simpl; [done|].
  intros k Hk. etrans.
  - apply (Hok s ltac:(set_solver)). apply (Hu s k ltac:(set_solver) Hk).
  - apply IH; [set_solver| |done]. intros s' k' Hs'. apply Hu. set_solver.
Qed.

(** The steps one command consumes are a prefix of the schedule. *)
Lemma next_slot_split sch sl sch' :
  next_slot sch = (sl, sch') ->
  ∃ pre, sch = pre ++ sch' /\ sched_steps pre = sl_steps sl.
Proof.
  destruct sch as [|s sch]; intros [= <- <-]; [by exists []|].
  exists [s]. split; [done|]. unfold sched_steps; simpl. apply app_nil_r.
Qed.

(** ** Running programs *)

Lemma run_ret {A} (a : A) sch c σ : run (Ret a) sch c σ = (a, (sch, c, σ)).
Proof. simpl. by destruct (next_slot sch). Qed.

Lemma run_bind {A B} (p : prog A) (g : A -> prog B) sch c σ :
  run (bind p g) sch c σ =
    let '(a, (sch', c', σ')) := run p sch c σ in run (g a) sch' c' σ'.
Proof.
  revert sch c σ.
  induction p as [a|k IH|C f k IH|ks k IH|k IH|q k IH]; intros sch c σ.
  { by rewrite run_ret. }
  all: simpl; destruct (next_slot sch) as [sl sch'].
  - apply IH.
  - destruct (with_fault _ _ _) as [σ2 r]. apply IH.
  - destruct (sl_fault sl) as [[]|]; apply IH.
  - destruct (sl_fault sl) as [[]|]; apply IH.
  - destruct (with_fault _ _ _) as [σ2 r]. apply IH.
Qed.

Section Reads.
Context {E : Type} `{FromRedis E}.

(** A read-only program leaves the server to the other clients. *)
Lemma run_reads_only {A} F (p : prog (result E A)) sch c σ a sch' c' σ' :
  reads_only F p -> run p sch c σ = (a, (sch', c', σ')) ->
  ∃ pre, sch = pre ++ sch' /\ σ' = run_steps (sched_steps pre) σ /\
         c' = conn_env (sched_steps pre) c.
Proof.
  intros Hp. revert sch c σ. induction Hp as [r|C q k Hq He Hk IH]; intros sch c σ Hrun.
  - rewrite run_ret in Hrun. simplify_eq. exists []. by rewrite conn_env_nil.
  - simpl in Hrun. destruct (next_slot sch) as [sl sch1] eqn:Hs.
    destruct (next_slot_split _ _ _ Hs) as (pre & -> & Hpre).
    set (σ1 := run_steps (sl_steps sl) σ) in *. set (c1 := conn_env (sl_steps sl) c) in *.
    assert (∀ r, run (k r) sch1 c1 σ1 = (a, (sch', c', σ')) ->
      ∃ pre', sch1 = pre' ++ sch' /\ σ' = run_steps (sched_steps pre') σ1 /\
              c' = conn_env (sched_steps pre') c1) as Hrest.
    { intros [b|e]; [apply IH|]. rewrite He, run_ret. intros; simplify_eq.
      exists []. by rewrite conn_env_nil. }
    assert (∃ pre', sch1 = pre' ++ sch' /\ σ' = run_steps (sched_steps pre') σ1 /\
              c' = conn_env (sched_steps pre') c1) as (pre' & -> & -> & ->).
    { destruct (sl_fault sl) as [[]|]; simpl in Hrun; eauto. }
    exists (pre ++ pre'). subst σ1 c1.
    by rewrite app_assoc, sched_steps_app, run_steps_app, conn_env_app, Hpre.
Qed.

Lemma run_alone_read {A B} (q : redis -> B) (k : result redis_error B -> prog A) σ :
  run_alone (Atomic (fun σ => (σ, q σ)) k) σ = run_alone (k (Ok (q σ))) σ.
Proof.
  unfold run_alone; simpl.
  replace (conn_env [] idle) with idle by (by rewrite conn_env_nil). done.
Qed.

Lemma run_alone_ret {A} (a : A) σ : run_alone (Ret a) σ = (a, σ).
Proof. done. Qed.

Lemma run_alone_agree {A} F (p : prog (result E A)) σ1 σ2 :
  reads_only F p -> agree_on F σ1 σ2 -> (run_alone p σ1).1 = (run_alone p σ2).1.
Proof.
  intros Hp Hag. induction Hp as [r|C q k Hq He Hk IH]; [done|].
  rewrite !run_alone_read. rewrite (Hq _ _ Hag). apply IH.
Qed.

Lemma run_alone_bind_reads {A B} F (p : prog (result E A)) (g : result E A -> prog B) σ :
  reads_only F p -> run_alone (bind p g) σ = run_alone (g (run_alone p σ).1) σ.
Proof.
  intros Hp. induction Hp as [r|C q k Hq He Hk IH]; [done|].
  cbn [bind]. rewrite !run_alone_read. apply IH.
Qed.

(** A sequence of reads that succeeded, split at its first bind. *)
Lemma run_alone_let_Ok {A B} F (p : prog (result E A)) (g : A -> prog (result E B)) σ v :
  reads_only F p -> (run_alone (let! x := p in g x) σ).1 = Ok v ->
  ∃ x, (run_alone p σ).1 = Ok x /\ (run_alone (g x) σ).1 = Ok v.
Proof.
  intros Hp. rewrite (run_alone_bind_reads F) by done.
  destruct (run_alone p σ).1 as [x|e]; [eauto|done].
Qed.

Lemma run_alone_read_fst {A} (q : redis -> result redis_error A) σ :
  (run_alone (read (E:=E) q) σ).1 = lift_redis (q σ).
Proof. done. Qed.

Lemma run_read_alone {A} (q : redis -> result redis_error A) c σ :
  run (read q) [] c σ = (lift_redis (E:=E) (q σ), ([], c, σ)).
Proof. cbn. by rewrite conn_env_nil. Qed.

Lemma run_read_all_alone {A} (qs : list (redis -> result redis_error A)) c σ :
  run (read_all qs) [] c σ = (lift_redis (collect_results (fun q => q σ) qs), ([], c, σ)).
Proof.
  induction qs as [|q qs IH]; [done|]. cbn [read_all collect_results].
  rewrite run_bind, run_read_alone. destruct (q σ) as [x|e]; [|done]. cbn [lift_redis].
  rewrite run_bind, IH. by destruct (collect_results _ qs).
Qed.

(** While the keys it reads stay untouched, an interleaved read-only program
    computes what it would compute alone in its final state, unless a round
    trip failed. *)
Lemma run_reads_only_stable {A} F (p : prog (result E A)) sch c σ a sch' c' σ' :
  reads_only F p -> sched_ok sch -> run p sch c σ = (a, (sch', c', σ')) ->
  (∀ pre, sch = pre ++ sch' -> untouched F (sched_steps pre)) ->
  a = (run_alone p σ').1 \/ ∃ e, a = Err (from_redis e).
Proof.
  intros Hp. revert sch c σ. induction Hp as [r|C q k Hq He Hk IH];
    intros sch c σ Hok Hrun Hun.
  - rewrite run_ret in Hrun. simplify_eq. by left.
  - simpl in Hrun. destruct (next_slot sch) as [sl sch1] eqn:Hs.
    destruct (next_slot_split _ _ _ Hs) as (pre & -> & Hpre).
    set (σ1 := run_steps (sl_steps sl) σ) in *. set (c1 := conn_env (sl_steps sl) c) in *.
    destruct (sl_fault sl) as [[]|] eqn:Hf; simpl in Hrun.
    + right. rewrite He, run_ret in Hrun. simplify_eq. eauto.
    + right. rewrite He, run_ret in Hrun. simplify_eq. eauto.
    + destruct (run_reads_only F _ _ _ _ _ _ _ _ (Hk (q σ1)) Hrun)
        as (pre' & -> & Hσ' & Hc').
      assert (untouched F (sched_steps pre')) as Hu'.
      { specialize (Hun (pre ++ pre')). rewrite app_assoc, sched_steps_app in Hun.
        by apply untouched_app in Hun as [_ ?]. }
      rewrite run_alone_read.
      replace (q σ') with (q σ1); [|].
      * eapply IH; [|done|].
        { intros s Hin. apply Hok. rewrite sched_steps_app. set_solver. }
        intros pre2 Heq. apply app_inv_tail in Heq as <-. done.
      * apply Hq. subst σ'. apply untouched_agree; [|done].
        intros s Hin. apply Hok. rewrite !sched_steps_app. set_solver.
Qed.
End Reads.

(** ** Connection commands and their outcomes *)

Section ConnCommands.
Context {E : Type} `{FromRedis E}.

Definition watch (ks : list string) : prog (result E unit) :=
  Watch ks (fun r => Ret (lift_redis r)).
Definition unwatch : prog (result E unit) := Unwatch (fun r => Ret (lift_redis r)).
Definition exec (p : pipeline) : prog (result E bool) := Exec p (fun r => Ret (lift_redis r)).

Lemma run_watch ks sch c σ r sch' c' σ' :
  run (watch ks) sch c σ = (r, (sch', c', σ')) ->
  ∃ pre, sch = pre ++ sch' /\ σ' = run_steps (sched_steps pre) σ /\
    ((r = Ok tt /\ watched c' = watched c ∪ list_to_set ks) \/ ∃ e, r = Err (from_redis e)).
Proof.
  unfold watch; simpl. destruct (next_slot sch) as [sl sch1] eqn:Hs.
  destruct (next_slot_split _ _ _ Hs) as (pre & -> & Hpre).
  intros Hrun. exists pre. rewrite Hpre.
  destruct (sl_fault sl) as [[]|]; simpl in Hrun;
    destruct (next_slot sch1); simplify_eq/=; eauto 10.
Qed.

Lemma run_unwatch sch c σ r sch' c' σ' :
  run unwatch sch c σ = (r, (sch', c', σ')) ->
  ∃ pre, sch = pre ++ sch' /\ σ' = run_steps (sched_steps pre) σ /\
    (r = Ok tt \/ ∃ e, r = Err (from_redis e)).
Proof.
  unfold unwatch; simpl. destruct (next_slot sch) as [sl sch1] eqn:Hs.
  destruct (next_slot_split _ _ _ Hs) as (pre & -> & Hpre).
  intros Hrun. exists pre. rewrite Hpre.
  destruct (sl_fault sl) as [[]|]; simpl in Hrun;
    destruct (next_slot sch1); simplify_eq/=; eauto 10.
Qed.

(** EXEC either applies the pipeline at once on a clean connection or does nothing. *)
Lemma run_exec p sch c σ r sch' c' σ' :
  run (exec p) sch c σ = (r, (sch', c', σ')) ->
  ∃ pre, sch = pre ++ sch' /\
    let σe := run_steps (sched_steps pre) σ in
    let applied := dirty (conn_env (sched_steps pre) c) = false /\ pipe_ok p = true /\
                   σ' = prun p σe in
    (r = Ok true /\ applied) \/ (r = Ok false /\ σ' = σe) \/
    (∃ e, r = Err (from_redis e) /\ (σ' = σe \/ applied)).
Proof.
  unfold exec; simpl. destruct (next_slot sch) as [sl sch1] eqn:Hs.
  destruct (next_slot_split _ _ _ Hs) as (pre & -> & Hpre).
  intros Hrun. exists pre. rewrite Hpre. simpl.
  destruct (sl_fault sl) as [[]|]; simpl in Hrun; unfold exec_effect in Hrun; simpl in Hrun.
  all: destruct (pipe_ok p) eqn:Hok; simpl in Hrun.
  all: try (destruct (dirty c || touches (sl_steps sl) (watched c)) eqn:Hd).
  all: simpl in Hrun; destruct (next_slot sch1); simplify_eq/=; eauto 12.
Qed.
End ConnCommands.

(** ** Quiet schedules: no other client acts and nothing breaks *)

Definition quiet (sch : schedule) : Prop :=
  ∀ sl, sl ∈ sch -> sl_steps sl = [] /\ sl_fault sl = None.

Lemma quiet_next sch sl sch' :
  quiet sch -> next_slot sch = (sl, sch') ->
  sl_steps sl = [] /\ sl_fault sl = None /\ quiet sch'.
Proof.
  intros Hq. destruct sch as [|s sch]; intros [= <- <-]; [done|].
  destruct (Hq s) as [? ?]; [set_solver|]. split_and!; [done..|].
  intros s' Hs'. apply Hq. set_solver.
Qed.

Lemma conn_env_clean c : dirty c = false -> conn_env [] c = mkConn (watched c) false.
Proof. intros H. unfold conn_env. simpl. by rewrite H. Qed.

Lemma run_reads_only_quiet {E A} `{FromRedis E} F (p : prog (result E A)) sch c σ :
  reads_only F p -> quiet sch ->
  ∃ sch', quiet sch' /\ run p sch c σ = ((run_alone p σ).1, (sch', c, σ)).
Proof.
  intros Hp. revert sch. induction Hp as [r|C q k Hq He Hk IH]; intros sch Hs.
  - exists sch. by rewrite run_ret.
  - cbn [run]. destruct (next_slot sch) as [sl sch1] eqn:Hn.
    destruct (quiet_next _ _ _ Hs Hn) as (-> & -> & Hs1). cbn [with_fault].
    rewrite run_alone_read, conn_env_nil. cbn. apply IH. done.
Qed.

Section QuietCommands.
Context {E : Type} `{FromRedis E}.

Lemma run_watch_quiet ks sch c σ :
  quiet sch -> ∃ sch', quiet sch' /\
    run (watch ks) sch c σ =
      (Ok (E:=E) tt, (sch', mkConn (watched c ∪ list_to_set ks) (dirty c), σ)).
Proof.
  intros Hq. unfold watch. cbn [run]. destruct (next_slot sch) as [sl sch1] eqn:Hs.
  destruct (quiet_next _ _ _ Hq Hs) as (-> & -> & Hq1). exists sch1. split; [done|].
  rewrite conn_env_nil. by destruct (next_slot sch1).
Qed.

Lemma run_unwatch_quiet sch c σ :
  quiet sch -> ∃ sch', quiet sch' /\ run unwatch sch c σ = (Ok (E:=E) tt, (sch', idle, σ)).
Proof.
  intros Hq. unfold unwatch. cbn [run]. destruct (next_slot sch) as [sl sch1] eqn:Hs.
  destruct (quiet_next _ _ _ Hq Hs) as (-> & -> & Hq1). exists sch1. split; [done|].
  by destruct (next_slot sch1).
Qed.

Lemma run_exec_quiet p sch c σ :
  quiet sch -> dirty c = false -> ∃ sch', quiet sch' /\
    run (exec p) sch c σ =
      (if pipe_ok p then (Ok (E:=E) true, (sch', idle, prun p σ))
       else (Err (from_redis ExecAbort), (sch', idle, σ))).
Proof.
  intros Hq Hd. unfold exec. cbn [run]. destruct (next_slot sch) as [sl sch1] eqn:Hs.
  destruct (quiet_next _ _ _ Hq Hs) as (-> & -> & Hq1). exists sch1. split; [done|].
  rewrite conn_env_nil. cbn [with_fault]. unfold exec_effect. rewrite Hd.
  destruct (pipe_ok p); cbn; by destruct (next_slot sch1).
Qed.
End QuietCommands.
