(* ===== verification/Json.v ===== *)
(** Serialisation as the program relies on it.  [serde_json] is a library; a value
    type that the program stores as JSON has an encoder that may fail, a decoder,
    and the documented law that a successful encoding decodes to the value. *)

From Stdlib Require Import String Ascii NArith.
From stdpp Require Import base strings option countable.
From S2P Require Import Prelude.

Class Json (A : Type) := {
  to_json : A -> option string;
  from_json : string -> option A;
  json_round_trip : ∀ a s, to_json a = Some s -> from_json s = Some a
}.

(** ** A concrete codec

    Any countable type has one: the binary digits of its code.  Concrete examples
    instantiate the abstract codec with it. *)

Fixpoint pos_to_bits (p : positive) : string :=
  match p with
  | xH => EmptyString
  | xO p' => String "0"%char (pos_to_bits p')
  | xI p' => String "1"%char (pos_to_bits p')
  end.

Fixpoint pos_of_bits (s : string) : option positive :=
  match s with
  | EmptyString => Some xH
  | String "0"%char s' => xO <$> pos_of_bits s'
  | String "1"%char s' => xI <$> pos_of_bits s'
  | _ => None
  end.

Lemma pos_of_to_bits p : pos_of_bits (pos_to_bits p) = Some p.
Proof. induction p as [p IH|p IH|]; simpl; rewrite ?IH; done. Qed.

Section CountableJson.
Context {A : Type} `{Countable A}.

Definition countable_json : Json A.
Proof.
  refine {| to_json a := Some (pos_to_bits (encode a));
            from_json s := pos_of_bits s ≫= decode |}.
  intros a s [= <-]. rewrite pos_of_to_bits. simpl. apply decode_encode.
Defined.
End CountableJson.
