(* ===== verification/JsonValue.v ===== *)
(** JSON values ([serde_json::Value] with preserved key order) and the canonical
    encoding of core/src/recovery.rs: keys sorted at every level, one text per value,
    at most sixteen mebibytes.  Printing and parsing JSON is the library's; a codec
    with its round trip is the instance of [Json] the definitions take. *)

From Stdlib Require Import String Ascii NArith ZArith Lia.
From stdpp Require Import base gmap strings list sorting.
From S2P Require Import Prelude Json.

(** A number is its text (the workspace builds serde_json with arbitrary precision): an
    integer is determined by its value, any other number is kept as written. *)
Inductive Number := PosInt (n : N) | NegInt (z : Z) | Float (text : string).
#[export] Instance number_eq_dec : EqDecision Number.
Proof. solve_decision. Defined.

(** An object is its entries in order; the library's map keeps keys distinct. *)
Inductive Value :=
| VNull
| VBool (b : bool)
| VNumber (n : Number)
| VString (s : string)
| VArray (l : list Value)
| VObject (m : list (string * Value)).

(** Induction that reaches the elements of arrays and objects. *)
Section ValueInd.
Context (P : Value -> Prop).
Context (Hnull : P VNull) (Hbool : ∀ b, P (VBool b)) (Hnum : ∀ n, P (VNumber n))
  (Hstr : ∀ s, P (VString s)) (Harr : ∀ l, Forall P l -> P (VArray l))
  (Hobj : ∀ m, Forall (fun e => P e.2) m -> P (VObject m)).

Fixpoint Value_deep_ind (v : Value) : P v :=
  match v with
  | VNull => Hnull
  | VBool b => Hbool b
  | VNumber n => Hnum n
  | VString s => Hstr s
  | VArray l =>
      Harr l ((fix go l : Forall P l :=
                 match l with
                 | [] => Forall_nil_2 _
                 | x :: l' => Forall_cons_2 _ _ _ (Value_deep_ind x) (go l')
                 end) l)
  | VObject m =>
      Hobj m ((fix go m : Forall (fun e => P e.2) m :=
                 match m with
                 | [] => Forall_nil_2 _
                 | e :: m' => Forall_cons_2 (fun e => P e.2) _ _ (Value_deep_ind e.2) (go m')
                 end) m)
  end.
End ValueInd.

(** ** Access *)

Definition entry (m : list (string * Value)) (name : string) : option Value :=
  snd <$> find (fun e => bool_decide (e.1 = name)) m.

(** [Value::get(name)]: only objects have fields. *)
Definition get_field (v : Value) (name : string) : option Value :=
  match v with VObject m => entry m name | _ => None end.
Definition as_str (v : Value) : option string :=
  match v with VString s => Some s | _ => None end.
Definition as_u64 (v : Value) : option N :=
  match v with VNumber (PosInt n) => if (n <=? U64_MAX)%N then Some n else None | _ => None end.

(** [Map::remove] on an order-preserving map: the last entry takes the freed place. *)
Definition swap_remove (name : string) (m : list (string * Value)) : list (string * Value) :=
  match list_find (fun e => e.1 = name) m, last m with
  | Some (i, _), Some e => take (pred (length m)) (<[i := e]> m)
  | _, _ => m
  end.
Definition remove_field (name : string) (v : Value) : Value :=
  match v with VObject m => VObject (swap_remove name m) | _ => v end.

(** ** Canonical text *)

Definition key_le (a b : string * Value) : Prop := String.leb a.1 b.1 = true.
#[export] Instance key_le_dec a b : Decision (key_le a b).
Proof. unfold key_le. apply _. Defined.

Fixpoint sort_value (v : Value) : Value :=
  match v with
  | VObject m =>
      VObject (merge_sort key_le
        ((fix go m := match m with [] => [] | (k, x) :: m' => (k, sort_value x) :: go m' end) m))
  | VArray l => VArray ((fix go l := match l with [] => [] | x :: l' => sort_value x :: go l' end) l)
  | _ => v
  end.

Lemma sort_value_array l : sort_value (VArray l) = VArray (map sort_value l).
Proof. reflexivity. Qed.
Lemma sort_value_object m :
  sort_value (VObject m) = VObject (merge_sort key_le (map (prod_map id sort_value) m)).
Proof. cbn. do 2 f_equal. induction m as [|[k x] m IH]; cbn; congruence. Qed.

(** Keys are distinct at every level: the invariant of the library's map type. *)
Fixpoint wf_value (v : Value) : Prop :=
  match v with
  | VArray l => (fix go l := match l with [] => True | x :: l' => wf_value x /\ go l' end) l
  | VObject m =>
      NoDup m.*1 /\
      (fix go m := match m with [] => True | (_, x) :: m' => wf_value x /\ go m' end) m
  | _ => True
  end.

Lemma wf_value_array l : wf_value (VArray l) <-> Forall wf_value l.
Proof. cbn. induction l as [|x l IH]; [done|]. rewrite Forall_cons, IH. done. Qed.
Lemma wf_value_object m :
  wf_value (VObject m) <-> NoDup m.*1 /\ Forall (fun e => wf_value e.2) m.
Proof.
  cbn. apply and_iff_compat_l. induction m as [|[k x] m IH]; [done|].
  rewrite Forall_cons, IH. done.
Qed.

(** [==] on documents: arrays in order, objects by key, numbers as texts. *)
Definition number_eqb (a b : Number) : bool := bool_decide (a = b).
Fixpoint value_eqb (v w : Value) : bool :=
  match v, w with
  | VNull, VNull => true
  | VBool a, VBool b => Bool.eqb a b
  | VNumber a, VNumber b => number_eqb a b
  | VString a, VString b => bool_decide (a = b)
  | VArray l, VArray l' =>
      (fix go l l' := match l, l' with
         | [], [] => true
         | x :: l, y :: l' => value_eqb x y && go l l'
         | _, _ => false
         end) l l'
  | VObject m, VObject m' =>
      (length m =? length m')%nat &&
      (fix go m := match m with
         | [] => true
         | (k, x) :: rest => match entry m' k with Some y => value_eqb x y | None => false end && go rest
         end) m
  | _, _ => false
  end.

(** The same document up to the order of object keys. *)
Inductive same_doc : Value -> Value -> Prop :=
| SD_refl v : same_doc v v
| SD_array l l' : Forall2 same_doc l l' -> same_doc (VArray l) (VArray l')
| SD_object m m' m2 :
    Forall2 (fun e e' => e.1 = e'.1 /\ same_doc e.2 e'.2) m m2 -> m2 ≡ₚ m' ->
    same_doc (VObject m) (VObject m').

Definition MAX_RECORD_BYTES : N := 16 * 1024 * 1024.

(** ** Sorting decides documents *)

Lemma string_leb_trans a b c :
  String.leb a b = true -> String.leb b c = true -> String.leb a c = true.
Proof.
  revert b c. induction a as [|x a IH]; intros [|y b] [|z c]; try done.
  unfold String.leb. cbn. unfold Ascii.compare.
  destruct (N.compare_spec (N_of_ascii x) (N_of_ascii y)) as [Hxy|Hxy|Hxy]; [| |done];
    destruct (N.compare_spec (N_of_ascii y) (N_of_ascii z)) as [Hyz|Hyz|Hyz]; try done;
    destruct (N.compare_spec (N_of_ascii x) (N_of_ascii z)) as [Hxz|Hxz|Hxz]; try lia; try done.
  apply (IH b c).
Qed.

#[export] Instance key_le_trans : Transitive key_le.
Proof. intros x y z. unfold key_le. apply string_leb_trans. Qed.
#[export] Instance key_le_total : Total key_le.
Proof. intros x y. unfold key_le. apply String.leb_total. Qed.

Lemma key_le_antisymm m x y :
  NoDup m.*1 -> x ∈ m -> y ∈ m -> key_le x y -> key_le y x -> x = y.
Proof.
  intros Hn Hx Hy H1 H2. apply (NoDup_map_inj fst m); [done..|]. by apply String.leb_antisym.
Qed.

(** Entries in any order sort to the same list. *)
Lemma merge_sort_keys m m' :
  NoDup m.*1 -> m ≡ₚ m' -> merge_sort key_le m = merge_sort key_le m'.
Proof.
  intros Hn Hp. apply (Sorted_unique_strong key_le).
  - intros x y. rewrite !merge_sort_Permutation, <- Hp. by apply key_le_antisymm.
  - apply (Sorted_merge_sort key_le).
  - apply (Sorted_merge_sort key_le).
  - by rewrite !merge_sort_Permutation.
Qed.

Lemma same_doc_sorted v w : same_doc v w -> wf_value v -> sort_value v = sort_value w.
Proof.
  revert w. induction v as [|b|n|s|l IH|m IH] using Value_deep_ind; intros w Hd Hwf;
    inversion Hd as [|? l' Hl|? m' m2 Hm Hp]; subst; try done.
  - rewrite !sort_value_array. f_equal. apply wf_value_array in Hwf.
    clear Hd. revert l' Hl. induction IH as [|x l Hx IH IHl]; inversion 1; subst; [done|].
    apply Forall_cons in Hwf as [Hwx Hwl]. cbn. f_equal; [by apply Hx|by apply IHl].
  - rewrite !sort_value_object. f_equal. apply wf_value_object in Hwf as [Hn Hwf].
    assert (map (prod_map id sort_value) m = map (prod_map id sort_value) m2) as Hmap.
    { clear Hd Hp Hn. revert m2 Hm. induction IH as [|x m Hx IH IHm]; inversion 1; subst; [done|].
      apply Forall_cons in Hwf as [Hwx Hwm]. destruct x as [k x], y as [k' x']. cbn in *.
      destruct_and!. subst. f_equal; [|by apply IHm]. unfold prod_map. cbn. f_equal. by apply Hx. }
    rewrite Hmap. apply merge_sort_keys.
    + rewrite <- Hmap. rewrite <- list_fmap_compose. cbn. by rewrite (list_fmap_ext _ fst).
    + by apply fmap_Permutation.
Qed.

(** ** Removing a field *)

Lemma swap_out_perm {A} (m : list A) i x e :
  m !! i = Some x -> last m = Some e -> x :: take (pred (length m)) (<[i := e]> m) ≡ₚ m.
Proof.
  intros Hi [m' ->]%last_Some. rewrite length_app, Nat.add_1_r. cbn [pred].
  destruct (decide (i < length m')) as [Hlt|Hge].
  - rewrite insert_app_l, take_app_length' by (rewrite ?length_insert; lia || done).
    rewrite lookup_app_l in Hi by lia. rewrite insert_take_drop by done.
    rewrite <- (take_drop_middle m' i x Hi) at 3. rewrite <- app_assoc. cbn.
    rewrite <- !Permutation_middle. by rewrite (assoc_L (++)), app_nil_r.
  - rewrite lookup_app_r in Hi by lia. rewrite insert_app_r_alt, take_app_length by lia.
    apply list_lookup_singleton_Some in Hi as [_ ->]. apply Permutation_cons_append.
Qed.

Lemma filter_all {A} (P : A -> Prop) `{!∀ x, Decision (P x)} (l : list A) : (∀ x, x ∈ l -> P x) -> filter P l = l.
Proof.
  induction l as [|x l IH]; intros Hl; [done|]. rewrite filter_cons_True by set_solver. rewrite IH; [done|set_solver].
Qed.
(** Removal leaves the other entries, in some order. *)
Lemma swap_remove_perm name m :
  NoDup m.*1 -> swap_remove name m ≡ₚ filter (fun e => e.1 <> name) m.
Proof.
  intros Hn. unfold swap_remove. destruct (list_find _ m) as [[i x]|] eqn:Hf.
  - apply list_find_Some in Hf as (Hi & Hx & _). destruct (last m) as [e|] eqn:He.
    + pose proof (swap_out_perm m i x e Hi He) as Hp. set (rest := take _ _) in *.
      assert (∀ y, y ∈ rest -> y.1 <> name) as Hrest.
      { intros y Hy <-. rewrite <- Hp in Hn. cbn in Hn. apply NoDup_cons in Hn as [Hnot _].
        apply Hnot. rewrite Hx. by apply list_elem_of_fmap_2. }
      rewrite <- Hp. rewrite filter_cons_False by (intros Hne; by apply Hne).
      symmetry. by rewrite filter_all.
    + by apply last_None in He as ->.
  - apply list_find_None in Hf. by rewrite filter_all by by apply Forall_forall.
Qed.

Lemma wf_remove_field name v : wf_value v -> wf_value (remove_field name v).
Proof.
  destruct v as [| | | | |m]; try done. cbn [remove_field]. rewrite !wf_value_object. intros [Hn Hwf].
  rewrite (swap_remove_perm name m Hn). rewrite Forall_forall in Hwf. split; [|by apply Forall_forall; intros x [_ Hx]%list_elem_of_filter; apply Hwf].
  eapply sublist_NoDup; [exact Hn|]. apply fmap_sublist, sublist_filter.
Qed.

Lemma same_doc_remove_field name v w :
  same_doc v w -> wf_value v -> same_doc (remove_field name v) (remove_field name w).
Proof.
  intros Hd Hwf. inversion Hd as [| |m m' m2 Hm Hp]; subst; [constructor|by constructor|].
  apply wf_value_object in Hwf as [Hn _]. assert (m.*1 = m2.*1) as Hk.
  { clear Hd Hp Hn. induction Hm as [|x y l k [? _] _ IH]; cbn; congruence. }
  assert (NoDup m'.*1) as Hn' by by rewrite <- Hp, <- Hk. cbn [remove_field].
  eassert (Forall2 _ (filter (fun e => e.1 <> name) m) (filter (fun e => e.1 <> name) m2)) as Hf
    by (apply Forall2_filter; [|exact Hm]; intros x y [-> _]; done).
  destruct (Permutation_Forall2 (symmetry (swap_remove_perm name m Hn)) Hf) as (l & Hl & Hall).
  eapply SD_object; [exact Hall|]. by rewrite <- Hl, Hp, swap_remove_perm.
Qed.

Section Canonical.
Context `{!Json Value}.

(** The text of [canonical], before its length is checked. *)
Definition canonical_text (v : Value) : option string := to_json (sort_value v).

Lemma canonical_text_same_doc v w :
  same_doc v w -> wf_value v -> canonical_text v = canonical_text w.
Proof. intros Hd Hwf. unfold canonical_text. by rewrite (same_doc_sorted v w). Qed.

(** Equal canonical texts are the same sorted value. *)
Lemma canonical_text_inj v w t :
  canonical_text v = Some t -> canonical_text w = Some t -> sort_value v = sort_value w.
Proof.
  unfold canonical_text. intros Hv%json_round_trip Hw%json_round_trip. congruence.
Qed.
End Canonical.
