(* ===== verification/Errors.v ===== *)
(** Engine errors (core/src/error.rs): the kinds an RPC failure can have, the engine's
    error type, and the conversions that withhold provider text.  The error types of
    the RPC client libraries are written with the constructors the conversions match
    on; what the libraries print is carried by the values. *)

From Stdlib Require Import String Ascii NArith ZArith Lia.
From stdpp Require Import base strings list option.
From S2P Require Import Prelude JsonValue.

(** ** EVM *)

Record RpcErrorResponse := mkRpcErrorResponse {
  rer_code : Z;
  rer_message : string;
  rer_data : option string
}.

Inductive RpcErrorKind :=
| RkErrorResp (resp : RpcErrorResponse)
| RkNullResp
| RkUnsupportedFeature (message : string)
| RkInternalError (message : string)
| RkSerError (message : string)
| RkDeserError (message text : string)
| RkTransportHttpError (status : N) (body : string)
| RkOtherTransportError (message : string).

(** [alloy]'s [RpcError<TransportErrorKind>]: the payload of each variant the code
    looks at, and the text of the others. *)
Inductive TransportErrorKind :=
| TkHttpError (status : N) (body : string)
| TkCustom (text : string)
| TkOther (text : string).
Inductive AlloyRpcError :=
| AlloyErrorResp (code : Z) (message : string) (data : option string)
| AlloyNullResp
| AlloyUnsupportedFeature (feature : string)
| AlloyLocalUsageError (text : string)
| AlloySerError (text : string)
| AlloyDeserError (text response : string)
| AlloyTransport (err : TransportErrorKind).

(** ** Solana *)

Inductive SolanaRpcResponseErrorData :=
| SdEmpty
| SdSendTransactionPreflightFailure (err : option string) (logs : option (list string))
    (accounts : option Value) (units_consumed : option N) (return_data : option Value)
| SdNodeUnhealthy (num_slots_behind : option N).

Inductive SolanaRpcErrorKind :=
| SkIo (message : string) (kind : option string)
| SkReqwest (message : string) (url : option string) (status : option N)
| SkRpcError (code : Z) (message : string) (data : SolanaRpcResponseErrorData)
| SkSerdeJson (message : string) (line column : option nat)
| SkTransactionError (error_type message : string)
| SkSigningError (message : string)
| SkCustom (message : string)
| SkUnknown (message : string).

(** The client library's errors. *)
Inductive SolanaResponseData :=
| RespEmpty
| RespPreflightFailure (err : option string) (logs : option (list string)) (accounts : option Value)
    (units_consumed : option N) (return_data : option Value)
| RespNodeUnhealthy (num_slots_behind : option N).
Inductive SolanaRequestError :=
| RpcResponseError (code : Z) (message : string) (data : SolanaResponseData)
| RpcRequestError (text : string)
| RpcParseError (text : string)
| RpcForUser (text : string).
Inductive SolanaClientError :=
| CeIo (kind text : string)
| CeReqwest (status : option N) (url_scheme : option string) (is_timeout is_connect : bool) (text : string)
| CeRpcError (err : SolanaRequestError)
| CeSerdeJson (line column : nat) (text : string)
| CeSigningError (text : string)
| CeTransactionError (debug text : string)
| CeCustom (text : string)
| CeOther (text : string).

(** ** Signing services *)

Inductive SerialisableAwsSdkError :=
| AwsConstructionFailure (message : string)
| AwsTimeoutError (message : string)
| AwsDispatchFailure (message : string)
| AwsResponseError (message : string)
| AwsServiceError (message : string)
| AwsOther (message : string).
Inductive SerialisableAwsSignerError :=
| AwsSign (aws_sdk_error : SerialisableAwsSdkError)
| AwsGetPublicKey (aws_sdk_error : SerialisableAwsSdkError)
| AwsK256 (message : string)
| AwsSpki (message : string)
| AwsHex (message : string)
| AwsSignatureNotFound
| AwsPublicKeyNotFound
| AwsUnknown (message : string)
| AwsSignatureRecoveryFailed.

(** The wallet service's errors: [IawNetworkError] is the one class the program treats
    apart; the others carry their text. *)
Inductive IAWError :=
| IawApiError (message : string)
| IawSerializationError (message : string)
| IawNetworkError (error : string)
| IawAuthError (message : string)
| IawThirdwebError (error : string)
| IawUnexpectedError (message : string)
| IawUserOpError (error : string).

(** ** Contracts *)

Inductive ContractInteractionErrorKind :=
| CkUnknownFunction (function_name : string)
| CkUnknownSelector (function_selector : string)
| CkNotADeploymentTransaction
| CkContractNotDeployed
| CkZeroData (function message : string)
| CkAbiError (message : string)
| CkTransportError (message : string)
| CkPendingTransactionError (message : string)
| CkPreparationFailed (message : string)
| CkMulticallExecutionFailed (message : string)
| CkResultDecodingFailed (message : string)
| CkParameterValidationFailed (message : string)
| CkFunctionResolutionFailed (message : string).

Inductive EngineError :=
| EngRpcError (chain_id : N) (rpc_url message : string) (kind : RpcErrorKind)
| EngPaymasterError (chain_id : N) (rpc_url message : string) (kind : RpcErrorKind)
| EngBundlerError (chain_id : N) (rpc_url message : string) (kind : RpcErrorKind)
| EngSolanaRpcError (chain_id message : string) (kind : SolanaRpcErrorKind)
| EngIawError (error : IAWError)
| EngRpcConfigError (message : string)
| EngContractInteractionError (contract_address : option string) (chain_id : N) (message : string)
    (kind : ContractInteractionErrorKind)
| EngValidationError (message : string)
| EngThirdwebError (message : string)
| EngAwsKmsSignerError (error : SerialisableAwsSignerError)
| EngInternalError (message : string)
| EngOverloaded (message : string)
| EngRecoveryRequired (message : string)
| EngRecoveryPending (message : string).

(** ** Conversions *)

(** [diagnostic_url]: only the scheme survives. *)
Definition diagnostic_url (scheme : string) : string := scheme +:+ "://[redacted]".

Section AlloyConversion.
(** [Display] of the client's error, used for every variant but [DeserError]. *)
Context (alloy_to_string : AlloyRpcError -> string).

Definition rpc_error_diagnostic (err : AlloyRpcError) : string :=
  match err with
  | AlloyDeserError _ _ => "Invalid RPC result; response details withheld"
  | _ => alloy_to_string err
  end.

Definition to_engine_rpc_error_kind (err : AlloyRpcError) : RpcErrorKind :=
  match err with
  | AlloyErrorResp code message data => RkErrorResp (mkRpcErrorResponse code message data)
  | AlloyNullResp => RkNullResp
  | AlloyUnsupportedFeature feature => RkUnsupportedFeature feature
  | AlloyLocalUsageError text => RkInternalError text
  | AlloySerError text => RkSerError text
  | AlloyDeserError _ _ => RkDeserError "Invalid RPC result" "RPC response body withheld"
  | AlloyTransport (TkHttpError status body) => RkTransportHttpError status body
  | AlloyTransport (TkCustom text) => RkOtherTransportError text
  | AlloyTransport (TkOther text) => RkOtherTransportError text
  end.

Definition to_engine_error (chain_id : N) (rpc_scheme : string) (err : AlloyRpcError) : EngineError :=
  EngRpcError chain_id (diagnostic_url rpc_scheme) (rpc_error_diagnostic err)
    (to_engine_rpc_error_kind err).
Definition to_engine_bundler_error (chain_id : N) (scheme : string) (err : AlloyRpcError) : EngineError :=
  EngBundlerError chain_id (diagnostic_url scheme) (rpc_error_diagnostic err)
    (to_engine_rpc_error_kind err).
Definition to_engine_paymaster_error (chain_id : N) (scheme : string) (err : AlloyRpcError) : EngineError :=
  EngPaymasterError chain_id (diagnostic_url scheme) (rpc_error_diagnostic err)
    (to_engine_rpc_error_kind err).
End AlloyConversion.

(** [format!("{e:?}").split('(').next()]: the variant's name. *)
Definition variant_name (debug : string) : string :=
  default "Unknown" (head (split_on "("%char debug)).

Definition solana_response_data (data : SolanaResponseData) : SolanaRpcResponseErrorData :=
  match data with
  | RespEmpty => SdEmpty
  | RespPreflightFailure err _ _ units_consumed _ =>
      SdSendTransactionPreflightFailure (variant_name <$> err) None None units_consumed None
  | RespNodeUnhealthy num_slots_behind => SdNodeUnhealthy num_slots_behind
  end.

Definition to_engine_solana_error (chain_id : string) (err : SolanaClientError) : EngineError :=
  let kind :=
    match err with
    | CeIo kind _ => SkIo "RPC client error details withheld" (Some kind)
    | CeReqwest status url_scheme is_timeout is_connect _ =>
        SkReqwest
          (if is_timeout then "RPC HTTP request timed out"
           else if is_connect then "RPC HTTP connection failed" else "RPC HTTP request failed")
          (diagnostic_url <$> url_scheme) status
    | CeRpcError (RpcResponseError code _ data) =>
        SkRpcError code "RPC provider error details withheld" (solana_response_data data)
    | CeRpcError (RpcRequestError _) =>
        SkRpcError (-32600) "RPC provider error details withheld" SdEmpty
    | CeRpcError (RpcParseError _) => SkSerdeJson "RPC provider error details withheld" None None
    | CeRpcError (RpcForUser _) => SkCustom "RPC provider error details withheld"
    | CeSerdeJson line column _ =>
        SkSerdeJson "RPC client error details withheld" (Some line) (Some column)
    | CeSigningError _ => SkSigningError "RPC client error details withheld"
    | CeTransactionError debug _ =>
        SkTransactionError (variant_name debug) "RPC client error details withheld"
    | CeCustom _ => SkCustom "RPC provider error details withheld"
    | CeOther _ => SkUnknown "RPC client error details withheld"
    end in
  EngSolanaRpcError chain_id "RPC client error details withheld" kind.

(** ** What a provider can put into an error

    Two client errors look alike when they differ only in text the provider chose:
    messages, logs, accounts, return data and everything after a variant's name. *)

Definition alike_data (a b : SolanaResponseData) : Prop :=
  match a, b with
  | RespEmpty, RespEmpty => True
  | RespPreflightFailure e _ _ u _, RespPreflightFailure e' _ _ u' _ =>
      variant_name <$> e = variant_name <$> e' /\ u = u'
  | RespNodeUnhealthy n, RespNodeUnhealthy n' => n = n'
  | _, _ => False
  end.
Definition alike (a b : SolanaClientError) : Prop :=
  match a, b with
  | CeIo k _, CeIo k' _ => k = k'
  | CeReqwest s u t c _, CeReqwest s' u' t' c' _ => s = s' /\ u = u' /\ t = t' /\ c = c'
  | CeRpcError (RpcResponseError code _ d), CeRpcError (RpcResponseError code' _ d') =>
      code = code' /\ alike_data d d'
  | CeRpcError (RpcRequestError _), CeRpcError (RpcRequestError _)
  | CeRpcError (RpcParseError _), CeRpcError (RpcParseError _)
  | CeRpcError (RpcForUser _), CeRpcError (RpcForUser _)
  | CeSigningError _, CeSigningError _ | CeCustom _, CeCustom _ | CeOther _, CeOther _ => True
  | CeSerdeJson l c _, CeSerdeJson l' c' _ => l = l' /\ c = c'
  | CeTransactionError d _, CeTransactionError d' _ => variant_name d = variant_name d'
  | _, _ => False
  end.

(** Provider text does not reach a converted Solana error.  Client errors that
    differ only in messages, logs, accounts, return data or the details after a variant
    name become the same engine error. *)
Theorem solana_error_redacted chain_id a b :
  alike a b -> to_engine_solana_error chain_id a = to_engine_solana_error chain_id b.
Proof.
  destruct a as [| | [? ? []| | |]| | | | |], b as [| | [? ? []| | |]| | | | |]; cbn;
    intros; destruct_and?; try done; subst; unfold to_engine_solana_error; cbn; congruence.
Qed.

Lemma solana_error_redacted_witness :
  to_engine_solana_error "solana:devnet"
    (CeRpcError (RpcResponseError (-32002) "provider-key" (RespPreflightFailure (Some "BlockhashNotFound") None None None None))) =
  to_engine_solana_error "solana:devnet"
    (CeRpcError (RpcResponseError (-32002) "other" (RespPreflightFailure (Some "BlockhashNotFound") (Some ["log"]) None None None))).
Proof. apply solana_error_redacted. cbn. done. Defined.
