(* ===== verification/FinalityTypes.v ===== *)
(** Finality policies and evidence (core/src/finality.rs): the data, its validation and
    the accepted configuration forms of a policy. *)

From Stdlib Require Import String Ascii NArith Lia.
From stdpp Require Import base strings list option.
From S2P Require Import Prelude JsonValue Errors.

Inductive FinalityPolicy := Finalized | Depth (confirmations : N).
#[export] Instance finality_policy_eq_dec : EqDecision FinalityPolicy.
Proof. solve_decision. Defined.

(** Block and transaction hashes are their canonical text. *)
Record FinalityEvidence := mkFinality {
  fe_block_number : N;
  fe_block_hash : string;
  fe_checkpoint_number : N;
  fe_checkpoint_hash : string;
  fe_policy : FinalityPolicy
}.
#[export] Instance finality_evidence_eq_dec : EqDecision FinalityEvidence.
Proof. solve_decision. Defined.

Inductive FinalityAssessment :=
| FaPending (canonical : bool)
| FaOrphaned
| FaFinalized (evidence : FinalityEvidence).

Inductive CheckpointContinuity := CcConsistent | CcUnavailable | CcConflict.

Definition LOCAL_CHAIN_ID : N := 31337.

Definition validate_policy (policy : FinalityPolicy) (chain_id : N) : result EngineError unit :=
  match policy with
  | Depth 0 =>
      if (chain_id =? LOCAL_CHAIN_ID)%N then Ok tt
      else Err (EngRpcConfigError
        "Finality depth must be positive; zero is restricted to local chain 31337")
  | _ => Ok tt
  end.

(** ** Configuration forms *)

(** A number, or a non-empty text of decimal digits: no sign, no fraction. *)
Definition deserialize_confirmations (v : Value) : option N :=
  match v with
  | VNumber (PosInt n) => if (n <=? U64_MAX)%N then Some n else None
  | VString s => parse_digits s
  | _ => None
  end.

(** The tagged forms, every other field refused. *)
Definition policy_from_value (v : Value) : option FinalityPolicy :=
  match v with
  | VObject m =>
      let only names := forallb (fun e => bool_decide (e.1 ∈ (names : list string))) m in
      match entry m "mode" with
      | Some (VString mode) =>
          if decide (mode = "finalized") then
            if only ["mode"] then Some Finalized else None
          else if decide (mode = "depth") then
            if only ["mode"; "confirmations"] then
              c ← entry m "confirmations"; Depth <$> deserialize_confirmations c
            else None
          else None
      | _ => None
      end
  | _ => None
  end.

Definition policy_to_value (p : FinalityPolicy) : Value :=
  match p with
  | Finalized => VObject [("mode", VString "finalized")]
  | Depth c => VObject [("mode", VString "depth"); ("confirmations", VNumber (PosInt c))]
  end.

Lemma policy_round_trip p :
  (∀ c, p = Depth c -> is_u64 c) -> policy_from_value (policy_to_value p) = Some p.
Proof.
  destruct p as [|c]; [done|]. intros Hc. specialize (Hc c eq_refl). unfold is_u64 in Hc.
  replace (policy_from_value _) with (Depth <$> deserialize_confirmations (VNumber (PosInt c)))
    by reflexivity.
  cbn. destruct (N.leb_spec c U64_MAX); [done|lia].
Qed.
