(* ===== verification/RecoveryLedger.v ===== *)
(** The recovery ledger (core/src/recovery.rs, recovery/projection.rs,
    recovery/solana_projection.rs): the tables of the SQLite file, the statements the
    journal runs on them and the checks it makes inside its transactions.

    A table is a record field: a map by primary key, or a list in insertion order
    where the key is an autoincremented sequence.  A statement that violates a
    constraint of the schema (primary key, UNIQUE, foreign key, CHECK) or names a
    table that does not exist is a [Storage] error.  Text columns hold what the code
    stored; JSON columns hold text and are parsed when read. *)

From Stdlib Require Import String Ascii NArith Lia.
From stdpp Require Import base gmap strings option list fin_maps.
From S2P Require Import Prelude Json JsonValue FinalityTypes.

(** ** Errors and states *)

Inductive RecoveryError :=
| PublicationPending
| Busy
| Storage
| Locked
| Missing
| RecoveryRequired (reason : string)
| Conflict
| Invalid (reason : string).
#[export] Instance recovery_error_eq_dec : EqDecision RecoveryError.
Proof. solve_decision. Defined.
Notation recovery_result A := (result RecoveryError A).

(** [AdmissionState]: admitted, terminal, quarantined. *)
Inductive AdmissionState := StAdmitted | StTerminal | StQuarantined.
#[export] Instance admission_state_eq_dec : EqDecision AdmissionState.
Proof. solve_decision. Defined.

Definition SCHEMA : N := 3.
Definition I64_MAX : N := 9223372036854775807.

(** The singleton row of the control table.  Schema, epoch and checkpoint are i64
    columns that start at 3, 1 and 0 and only grow. *)
Record Control := mkControl {
  c_schema : N;
  c_deployment : string;
  c_epoch : N;
  c_checkpoint : N;
  c_namespace : option string;
  c_run_id : string;
  c_halted : bool;
  c_reason : option string
}.
#[export] Instance control_eq_dec : EqDecision Control.
Proof. solve_decision. Defined.

Definition marker_key (namespace : option string) : string :=
  default "engine" namespace +:+ ":recovery:checkpoint".

Definition token_text (schema : N) (deployment : string) (epoch checkpoint : N) : string :=
  "v" +:+ u64_to_string schema +:+ ":" +:+ deployment +:+ ":" +:+
  u64_to_string epoch +:+ ":" +:+ u64_to_string checkpoint.
Definition token (c : Control) : string :=
  token_text (c_schema c) (c_deployment c) (c_epoch c) (c_checkpoint c).
Definition control_key (c : Control) : string := marker_key (c_namespace c).

(** ** Pending publication (projection.rs) *)

Record PendingUpdate := mkPending {
  previous_token : string;
  target_token : string;
  redis_key : string;
  pending_run_id : string
}.
#[export] Instance pending_update_eq_dec : EqDecision PendingUpdate.
Proof. solve_decision. Defined.

Definition between (previous target : Control) : PendingUpdate :=
  mkPending (token previous) (token target) (control_key target) (c_run_id target).

Definition with_checkpoint (n : N) (c : Control) : Control :=
  mkControl (c_schema c) (c_deployment c) (c_epoch c) n (c_namespace c) (c_run_id c)
    (c_halted c) (c_reason c).
Definition with_schema (n : N) (c : Control) : Control :=
  mkControl n (c_deployment c) (c_epoch c) (c_checkpoint c) (c_namespace c) (c_run_id c)
    (c_halted c) (c_reason c).
Definition with_halt (halted : bool) (reason : option string) (c : Control) : Control :=
  mkControl (c_schema c) (c_deployment c) (c_epoch c) (c_checkpoint c) (c_namespace c)
    (c_run_id c) halted reason.

Definition validate_pending (p : PendingUpdate) (current : Control) : recovery_result unit :=
  let sequential :=
    (0 <? c_checkpoint current)%N &&
    bool_decide (previous_token p = token (with_checkpoint (c_checkpoint current - 1) current)) in
  let migration :=
    existsb (fun schema => bool_decide (previous_token p = token (with_schema schema current)))
      (filter (fun schema => (schema < c_schema current)%N) [1; 2; 3]%N) in
  if negb ((2 <=? c_schema current)%N && (c_schema current <=? SCHEMA)%N)
     || bool_decide (target_token p <> token current)
     || bool_decide (redis_key p <> control_key current)
     || bool_decide (pending_run_id p <> c_run_id current)
     || negb (sequential || migration)
  then Err Storage else Ok tt.

(** ** Tables *)

Record Admission := mkAdmission {
  ad_kind : string;
  ad_fingerprint : string;
  ad_payload : string;
  ad_state : AdmissionState;
  ad_replay_key : option string
}.
Record Attempt := mkAttempt {
  at_id : string;
  at_replay_key : string;
  at_digest : string;
  at_payload : string
}.
Record SolanaRow := mkSolanaRow {
  so_attempt_digest : string;
  so_broadcasts : N;
  so_last_broadcast_at : N
}.

(** [projection_pending] exists from schema 2 on, [solana_recovery] from schema 3 on;
    a missing table is [None]. *)
Record Ledger := mkLedger {
  l_control : Control;
  l_admissions : gmap string Admission;
  l_attempts : list Attempt;
  l_terminal : list (string * string);
  l_chain_checkpoints : gmap string string;
  l_chain_halts : gmap string string;
  l_events : list string;
  l_projection : option (option PendingUpdate);
  l_solana : option (gmap string SolanaRow)
}.

Definition set_control (c : Control) (l : Ledger) : Ledger :=
  mkLedger c (l_admissions l) (l_attempts l) (l_terminal l) (l_chain_checkpoints l)
    (l_chain_halts l) (l_events l) (l_projection l) (l_solana l).
Definition set_admissions (m : gmap string Admission) (l : Ledger) : Ledger :=
  mkLedger (l_control l) m (l_attempts l) (l_terminal l) (l_chain_checkpoints l)
    (l_chain_halts l) (l_events l) (l_projection l) (l_solana l).
Definition set_attempts (a : list Attempt) (l : Ledger) : Ledger :=
  mkLedger (l_control l) (l_admissions l) a (l_terminal l) (l_chain_checkpoints l)
    (l_chain_halts l) (l_events l) (l_projection l) (l_solana l).
Definition set_terminal (t : list (string * string)) (l : Ledger) : Ledger :=
  mkLedger (l_control l) (l_admissions l) (l_attempts l) t (l_chain_checkpoints l)
    (l_chain_halts l) (l_events l) (l_projection l) (l_solana l).
Definition set_chain_checkpoints (m : gmap string string) (l : Ledger) : Ledger :=
  mkLedger (l_control l) (l_admissions l) (l_attempts l) (l_terminal l) m
    (l_chain_halts l) (l_events l) (l_projection l) (l_solana l).
Definition set_chain_halts (m : gmap string string) (l : Ledger) : Ledger :=
  mkLedger (l_control l) (l_admissions l) (l_attempts l) (l_terminal l) (l_chain_checkpoints l)
    m (l_events l) (l_projection l) (l_solana l).
Definition set_events (e : list string) (l : Ledger) : Ledger :=
  mkLedger (l_control l) (l_admissions l) (l_attempts l) (l_terminal l) (l_chain_checkpoints l)
    (l_chain_halts l) e (l_projection l) (l_solana l).
Definition set_projection (p : option (option PendingUpdate)) (l : Ledger) : Ledger :=
  mkLedger (l_control l) (l_admissions l) (l_attempts l) (l_terminal l) (l_chain_checkpoints l)
    (l_chain_halts l) (l_events l) p (l_solana l).
Definition set_solana (m : option (gmap string SolanaRow)) (l : Ledger) : Ledger :=
  mkLedger (l_control l) (l_admissions l) (l_attempts l) (l_terminal l) (l_chain_checkpoints l)
    (l_chain_halts l) (l_events l) (l_projection l) m.

(** ** Statements *)

Definition control (l : Ledger) : recovery_result Control :=
  if bool_decide (c_schema (l_control l) ∈ [1; 2; SCHEMA]%N) then Ok (l_control l)
  else Err (Invalid "unknown ledger schema").

(** [INSERT INTO admissions ... 'admitted'] *)
Definition insert_admission (id kind fingerprint encoded : string) (l : Ledger)
    : recovery_result Ledger :=
  match l_admissions l !! id with
  | Some _ => Err Storage
  | None =>
      Ok (set_admissions
            (<[id := mkAdmission kind fingerprint encoded StAdmitted None]> (l_admissions l)) l)
  end.

(** [SELECT id FROM admissions WHERE replay_key=?] *)
Definition replay_owner (key : string) (l : Ledger) : option string :=
  fst <$> find (fun e => bool_decide (ad_replay_key e.2 = Some key)) (map_to_list (l_admissions l)).

(** [UPDATE admissions SET replay_key=? WHERE id=?], the column being UNIQUE *)
Definition update_replay_key (id key : string) (l : Ledger) : recovery_result Ledger :=
  match l_admissions l !! id with
  | None => Ok l
  | Some a =>
      match replay_owner key l with
      | Some owner =>
          if decide (owner = id) then Ok l else Err Storage
      | None =>
          Ok (set_admissions
                (<[id := mkAdmission (ad_kind a) (ad_fingerprint a) (ad_payload a) (ad_state a)
                           (Some key)]> (l_admissions l)) l)
      end
  end.

(** [UPDATE admissions SET state=? WHERE id=?] *)
Definition with_state (s : AdmissionState) (a : Admission) : Admission :=
  mkAdmission (ad_kind a) (ad_fingerprint a) (ad_payload a) s (ad_replay_key a).
Definition update_state (id : string) (s : AdmissionState) (l : Ledger) : Ledger :=
  set_admissions (alter (with_state s) id (l_admissions l)) l.

(** [INSERT INTO attempts(...)], with the foreign key and UNIQUE(id,digest) *)
Definition insert_attempt (a : Attempt) (l : Ledger) : recovery_result Ledger :=
  if bool_decide (is_Some (l_admissions l !! at_id a)) &&
     negb (existsb (fun b => bool_decide (at_id b = at_id a /\ at_digest b = at_digest a))
             (l_attempts l))
  then Ok (set_attempts (l_attempts l ++ [a]) l) else Err Storage.

(** [SELECT replay_key,payload FROM attempts WHERE id=? AND digest=?] *)
Definition attempt_by_digest (id digest : string) (l : Ledger) : option Attempt :=
  find (fun a => bool_decide (at_id a = id /\ at_digest a = digest)) (l_attempts l).
(** [SELECT ... FROM attempts WHERE id=? ORDER BY sequence] *)
Definition attempts_of (id : string) (l : Ledger) : list Attempt :=
  filter (fun a => at_id a = id) (l_attempts l).

(** [INSERT INTO terminal_evidence(id,evidence)] *)
Definition insert_terminal (id evidence : string) (l : Ledger) : recovery_result Ledger :=
  if bool_decide (is_Some (l_admissions l !! id))
  then Ok (set_terminal (l_terminal l ++ [(id, evidence)]) l) else Err Storage.
(** [SELECT evidence FROM terminal_evidence WHERE id=? ORDER BY sequence] *)
Definition evidence_of (id : string) (l : Ledger) : list string :=
  (filter (fun e => e.1 = id) (l_terminal l)).*2.

(** [INSERT OR IGNORE INTO chain_halts] *)
Definition insert_chain_halt (chain reason : string) (l : Ledger) : Ledger :=
  match l_chain_halts l !! chain with
  | Some _ => l
  | None => set_chain_halts (<[chain := reason]> (l_chain_halts l)) l
  end.
Definition chain_halted (chain : string) (l : Ledger) : bool :=
  bool_decide (is_Some (l_chain_halts l !! chain)).
Definition chain_conflict : RecoveryError :=
  RecoveryRequired "chain finality conflict requires reconciliation".
Definition ensure_chain_not_halted (chain : string) (l : Ledger) : recovery_result unit :=
  if chain_halted chain l then Err chain_conflict else Ok tt.

(** ** The pending row *)

Definition load_pending (l : Ledger) (current : Control) : recovery_result (option PendingUpdate) :=
  if (c_schema current =? 1)%N then Ok None
  else
    match l_projection l with
    | None => Err Storage
    | Some None => Ok None
    | Some (Some p) => let? _ := validate_pending p current in Ok (Some p)
    end.

(** [projection::record]: the row is a singleton, so a second insert fails. *)
Definition record_pending (previous target : Control) (l : Ledger) : recovery_result Ledger :=
  let p := between previous target in
  let? _ := validate_pending p target in
  match l_projection l with
  | Some None => Ok (set_projection (Some (Some p)) l)
  | _ => Err Storage
  end.

Definition remove_exact (expected : PendingUpdate) (l : Ledger) : recovery_result Ledger :=
  match l_projection l with
  | Some (Some p) =>
      if decide (p = expected) then Ok (set_projection (Some None) l) else Err Storage
  | _ => Err Storage
  end.

Definition acknowledge (expected : PendingUpdate) (l : Ledger) : recovery_result Ledger :=
  let? current := control l in
  let? _ := validate_pending expected current in
  let changed := Err (RecoveryRequired "pending checkpoint changed before acknowledgement") in
  if c_halted current then changed
  else
    let? p := load_pending l current in
    if decide (p = Some expected) then remove_exact expected l else changed.

(** [advance]: the checkpoint moves on and the transition is recorded with it. *)
Definition advance (l : Ledger) : recovery_result (Control * Ledger) :=
  let? old := control l in
  if (c_checkpoint old =? I64_MAX)%N then Err (Invalid "checkpoint exhausted")
  else
    let l1 := set_control (with_checkpoint (c_checkpoint old + 1) (l_control l)) l in
    let? target := control l1 in
    let? l2 := record_pending old target l1 in
    Ok (old, l2).

(** [UPDATE control SET halted=1,reason=COALESCE(reason,?)] *)
Definition latch_halt (reason : string) (l : Ledger) : Ledger :=
  let c := l_control l in
  set_control (with_halt true (Some (default reason (c_reason c))) c) l.

Definition create_table {A} (t : option A) (empty : A) : recovery_result (option A) :=
  match t with None => Ok (Some empty) | Some _ => Err Storage end.

(** [projection::migrate] *)
Definition migrate (l : Ledger) : recovery_result Ledger :=
  let? old := control l in
  if (c_schema old =? SCHEMA)%N then Ok l
  else
    let unhealthy := Err (RecoveryRequired "legacy journal is not healthy") in
    if c_halted old then unhealthy
    else
      let? pending := load_pending l old in
      match pending with
      | Some _ => unhealthy
      | None =>
          let? projection :=
            (if (c_schema old =? 1)%N then create_table (l_projection l) None
             else Ok (l_projection l)) in
          let? solana := create_table (l_solana l) ∅ in
          let l1 := set_solana solana (set_projection projection
                      (set_control (with_schema SCHEMA (l_control l)) l)) in
          let? new := control l1 in
          record_pending old new l1
      end.

(** [validate_schema]: from schema 3 on the budget table must be there. *)
Definition validate_schema (l : Ledger) : recovery_result unit :=
  let? c := control l in
  if (3 <=? c_schema c)%N then
    match l_solana l with Some _ => Ok tt | None => Err Storage end
  else Ok tt.
Definition solana_rows (l : Ledger) : recovery_result (gmap string SolanaRow) :=
  ok_or Storage (l_solana l).
Definition recovery_mode (id : string) (l : Ledger) : recovery_result bool :=
  let? rows := solana_rows l in Ok (bool_decide (is_Some (rows !! id))).
