(* ===== verification/RecoveryChecks.v ===== *)
(** What the recovery journal checks before it lets a request, an attempt or a terminal
    observation into the ledger (core/src/recovery.rs, recovery/solana_projection.rs):
    canonical records and fingerprints, identities, replay keys, attempt identities
    and the Solana recovery budget. *)

From Stdlib Require Import String Ascii NArith Lia.
From stdpp Require Import base gmap strings option list fin_maps.
From S2P Require Import Prelude Json JsonValue FinalityTypes RecoveryLedger.

(** Functions of the cryptography, codec and SDK crates the checks call: the SHA-256
    digest in hexadecimal, decoding of hashes, addresses and 256-bit integers from
    JSON (hashes and addresses in their canonical lower-case text), Solana signatures
    in base58, and the hash of a user operation. *)
Class Primitives := {
  sha256_hex : string -> string;
  value_b256 : Value -> option string;
  value_address : Value -> option string;
  value_u256 : Value -> option N;
  Signature : Type;
  signature_eq_dec :: EqDecision Signature;
  parse_signature : string -> option Signature;
  signature_to_string : Signature -> string;
  VersionedUserOp : Type;
  value_user_op : Value -> option VersionedUserOp;
  hash_with_custom_entrypoint : VersionedUserOp -> N -> string -> option string
}.

(** A NUL byte separates the kind from the record in the fingerprint's input. *)
Definition NUL : string := String "000"%char EmptyString.

Definition identity (kind id : string) : recovery_result unit :=
  if bool_decide (kind ∉ ["eoa"; "eoa_noop"; "solana"; "erc4337"; "eip7702"])
     || bool_decide (id = "") || (1024 <? String.length id)
  then Err (Invalid "unsupported kind or invalid transaction ID")
  else Ok tt.

(** ASCII letters, digits, hyphens and underscores. *)
Definition code_in (lo hi : N) (c : ascii) : bool :=
  (lo <=? N_of_ascii c)%N && (N_of_ascii c <=? hi)%N.
Definition is_namespace_char (c : ascii) : bool :=
  code_in 48 57 c || code_in 65 90 c || code_in 97 122 c
  || Ascii.eqb c "-"%char || Ascii.eqb c "_"%char.
Fixpoint all_chars (p : ascii -> bool) (s : string) : bool :=
  match s with EmptyString => true | String c s' => p c && all_chars p s' end.
Definition namespace_valid (namespace : option string) : recovery_result unit :=
  match namespace with
  | None => Ok tt
  | Some ns =>
      if bool_decide (ns = "") || (128 <? String.length ns) || negb (all_chars is_namespace_char ns)
      then Err (Invalid "namespace must use ASCII letters, digits, hyphens or underscores")
      else Ok tt
  end.

(** ** Replay keys *)

Definition is_lower_hex (c : ascii) : bool := code_in 48 57 c || code_in 97 102 c.
Definition is_address_text (a : string) : bool :=
  (String.length a =? 42) &&
  match a with
  | String "0"%char (String "x"%char rest) => all_chars is_lower_hex rest
  | _ => false
  end.

Definition eoa_replay_key (chain nonce : N) (address : string) : string :=
  "evm:" +:+ u64_to_string chain +:+ ":" +:+ address +:+ ":" +:+ u64_to_string nonce.

Definition validate_replay_key (kind key : string) : recovery_result unit :=
  if bool_decide (key = "") || (2048 <? String.length key) then Err (Invalid "invalid replay key")
  else if bool_decide (kind ∈ ["eoa"; "eoa_noop"]) then
    match split_on ":"%char key with
    | [f0; f1; f2; f3] =>
        if decide (f0 = "evm") then
          let? chain := ok_or (Invalid "invalid replay chain") (parse_u64 f1) in
          let? nonce := ok_or (Invalid "invalid replay nonce") (parse_u64 f3) in
          if bool_decide (f1 <> u64_to_string chain) || bool_decide (f3 <> u64_to_string nonce)
             || negb (is_address_text f2)
          then Err (Invalid "EOA replay key is not canonical") else Ok tt
        else Err (Invalid "EOA replay key must be evm:chain:lowercase-address:nonce")
    | _ => Err (Invalid "EOA replay key must be evm:chain:lowercase-address:nonce")
    end
  else if String.prefix (kind +:+ ":") key then Ok tt
  else Err (Invalid "replay key kind mismatch").

(** [key.split(':').nth(1)] *)
Definition replay_chain (key : string) : option string := split_on ":"%char key !! 1.

(** ** Records *)

Section Records.
Context `{Primitives} `{!Json Value, !Json FinalityEvidence}.

Definition canonical (v : Value) : recovery_result string :=
  let? encoded := ok_or (Invalid "cannot encode record") (canonical_text v) in
  if (MAX_RECORD_BYTES <? N.of_nat (String.length encoded))%N then Err (Invalid "record exceeds 16 MiB")
  else Ok encoded.

Definition admission_fingerprint (kind : string) (payload : Value) : recovery_result string :=
  let intent := if decide (kind = "erc4337") then remove_field "pregeneratedNonce" payload else payload in
  let intent := if decide (kind = "eip7702") then remove_field "nonce" intent else intent in
  let? text := canonical intent in
  Ok (sha256_hex (kind +:+ NUL +:+ text)).

Definition terminal_identity (evidence : Value) : recovery_result string :=
  let strip m :=
    match entry m "finality" with
    | Some (VObject f) =>
        map (fun e => if decide (e.1 = "finality")
                      then (e.1, VObject (swap_remove "checkpointHash"
                                            (swap_remove "checkpointNumber" f)))
                      else e) m
    | _ => m
    end in
  canonical (match evidence with VObject m => VObject (strip m) | v => v end).

(** [AdmissionRecord]: a row with its payload parsed. *)
Record AdmissionRecord := mkRecord {
  rec_id : string;
  rec_kind : string;
  rec_fingerprint : string;
  rec_payload : Value;
  rec_state : AdmissionState;
  rec_replay_key : option string
}.

Definition lookup_admission (l : Ledger) (id : string) : recovery_result (option AdmissionRecord) :=
  match l_admissions l !! id with
  | None => Ok None
  | Some a =>
      let? payload := ok_or Storage (from_json (ad_payload a)) in
      Ok (Some (mkRecord id (ad_kind a) (ad_fingerprint a) payload (ad_state a) (ad_replay_key a)))
  end.

Definition load_chain_checkpoint (l : Ledger) (chain_id : N)
    : recovery_result (option FinalityEvidence) :=
  match l_chain_checkpoints l !! u64_to_string chain_id with
  | None => Ok None
  | Some body => let? e := ok_or Storage (from_json body) in Ok (Some e)
  end.

(** ** Attempt identity *)

(** [field::<T>(value, name)]: a missing or ill-typed field is a conflict. *)
Definition field {T} (decode : Value -> option T) (v : Value) (name : string) : recovery_result T :=
  let? x := ok_or Conflict (get_field v name) in ok_or Conflict (decode x).
Definition field_ok {T} (decode : Value -> option T) (v : Value) (name : string) : option T :=
  get_field v name ≫= decode.

Definition get_str (v : Value) (name : string) : option string := get_field v name ≫= as_str.
Definition get_signature (v : Value) : option Signature :=
  get_str v "signature" ≫= parse_signature.

Definition eoa_attempt_matches (identity attempt : Value) : recovery_result bool :=
  let? wanted := field value_b256 identity "transactionHash" in
  Ok (bool_decide (field_ok value_b256 attempt "transactionHash" = Some wanted)).

Definition solana_attempt_matches (key : string) (identity attempt : Value) : recovery_result bool :=
  let? signature_text := field as_str identity "signature" in
  let? signature := ok_or Conflict (parse_signature signature_text) in
  let? supplied_chain := field as_str identity "chainId" in
  Ok (bool_decide (key = "solana:" +:+ supplied_chain +:+ ":" +:+ signature_to_string signature)
      && bool_decide (get_signature attempt = Some signature)).

Definition erc4337_replay_key (chain_id : N) (entrypoint sender : string) (nonce : N) : string :=
  "erc4337:" +:+ u64_to_string chain_id +:+ ":" +:+ entrypoint +:+ ":" +:+ sender +:+ ":" +:+
  u64_to_string nonce.

Definition erc4337_attempt_matches (key : string) (identity attempt : Value) : recovery_result bool :=
  let? chain_id := field as_u64 identity "chainId" in
  let? sender := field value_address identity "sender" in
  let? entrypoint := field value_address identity "entrypoint" in
  let? nonce := field value_u256 identity "nonce" in
  let? wanted := field value_b256 identity "userOperationHash" in
  if bool_decide (key <> erc4337_replay_key chain_id entrypoint sender nonce) then Err Conflict
  else
    let? operation := field value_user_op attempt "userOperation" in
    Ok (bool_decide (field_ok as_u64 attempt "chainId" = Some chain_id)
        && bool_decide (field_ok value_address attempt "sender" = Some sender)
        && bool_decide (field_ok value_address attempt "entrypoint" = Some entrypoint)
        && bool_decide (field_ok value_u256 attempt "nonce" = Some nonce)
        && bool_decide (hash_with_custom_entrypoint operation chain_id entrypoint = Some wanted)).

Definition attempt_matches (kind key : string) (identity attempt : Value) : recovery_result bool :=
  if bool_decide (kind ∈ ["eoa"; "eoa_noop"]) then eoa_attempt_matches identity attempt
  else if decide (kind = "solana") then solana_attempt_matches key identity attempt
  else if decide (kind = "erc4337") then erc4337_attempt_matches key identity attempt
  else Err (Invalid "unsupported confirmation kind").

(** The loop over the recorded attempts, in order. *)
Fixpoint find_attempt (kind key : string) (identity : Value) (attempts : list Attempt)
    : recovery_result unit :=
  match attempts with
  | [] => Err (RecoveryRequired "confirmation identity is not a recorded broadcast attempt")
  | a :: rest =>
      let? attempt := ok_or Storage (from_json (at_payload a)) in
      let? matched := attempt_matches kind key identity attempt in
      if (matched : bool) then Ok tt else find_attempt kind key identity rest
  end.

Definition validate_attempt_identity_in_db (l : Ledger) (record : AdmissionRecord) (identity : Value)
    : recovery_result unit :=
  if decide (rec_state record = StQuarantined) then Err (RecoveryRequired "transaction is quarantined")
  else
    let? key := ok_or (RecoveryRequired "confirmation has no recorded broadcast attempt")
                  (rec_replay_key record) in
    let? chain := ok_or Storage (replay_chain key) in
    let? _ :=
      (if decide (rec_kind record = "solana") then Ok tt
       else
         let? supplied_chain := field as_u64 identity "chainId" in
         if bool_decide (parse_u64 chain <> Some supplied_chain) then Err Conflict
         else ensure_chain_not_halted chain l) in
    if decide (rec_kind record = "eip7702") then
      Err (RecoveryRequired "bundled EIP-7702 lacks a qualified canonical UID witness")
    else find_attempt (rec_kind record) key identity (attempts_of (rec_id record) l).

(** ** Retained Solana attempts *)

Definition MAX_SOLANA_RECOVERY_BROADCASTS : N := 20.
Definition RECOVERY_BROADCAST_INTERVAL_MS : N := 2000.

Record RetainedSolanaAttempt := mkRetained {
  ret_replay_key : string;
  ret_payload : Value;
  ret_state : AdmissionState;
  ret_broadcasts : N;
  ret_last_at : N
}.
Record Retained := mkRetainedRow {
  ret_public : RetainedSolanaAttempt;
  ret_digest : string;
  ret_recovery_mode : bool
}.

Inductive SolanaRecoveryBroadcast :=
| Granted (broadcasts at_ms : N)
| Wait (retry_after_ms : N)
| Exhausted.

(** The stored attempt is the exact signed wire its key and digest name. *)
Definition retained_payload (key digest encoded : string) : recovery_result Value :=
  let? payload := ok_or Storage (from_json encoded) in
  let? text := canonical payload in
  if bool_decide (text <> encoded) || bool_decide (sha256_hex encoded <> digest) then Err Storage
  else
    let? signature := ok_or Storage (get_signature payload) in
    let? chain := ok_or Storage (get_str payload "chainId") in
    if bool_decide (key <> "solana:" +:+ chain +:+ ":" +:+ signature_to_string signature)
    then Err Storage
    else
      let? attempt := ok_or Storage (get_field payload "attempt") in
      if bool_decide (get_str attempt "signature" <> Some (signature_to_string signature))
      then Err Storage
      else
        match get_str attempt "signed_transaction" with
        | None | Some "" =>
            Err (RecoveryRequired "retained Solana attempt has no signed wire")
        | Some _ => Ok payload
        end.

Definition retained_budget (digest : string) (mode : option SolanaRow) : recovery_result (N * N) :=
  match mode with
  | None => Ok (0%N, 0%N)
  | Some r =>
      if bool_decide (so_attempt_digest r <> digest)
         || (MAX_SOLANA_RECOVERY_BROADCASTS <? so_broadcasts r)%N
         || negb (Bool.eqb (so_broadcasts r =? 0)%N (so_last_broadcast_at r =? 0)%N)
      then Err Storage else Ok (so_broadcasts r, so_last_broadcast_at r)
  end.

Definition retained (l : Ledger) (id : string) (expected_payload : Value)
    : recovery_result (option Retained) :=
  let? found := lookup_admission l id in
  let? admission := ok_or (RecoveryRequired "untracked Solana projection recovery") found in
  let? same :=
    (if bool_decide (rec_kind admission <> "solana") then Ok false
     else
       let? fingerprint := admission_fingerprint "solana" expected_payload in
       if bool_decide (rec_fingerprint admission <> fingerprint) then Ok false
       else
         let? stored := canonical (rec_payload admission) in
         let? expected := canonical expected_payload in
         Ok (bool_decide (stored = expected))) in
  if negb same then Err Conflict
  else if decide (rec_state admission = StQuarantined)
  then Err (RecoveryRequired "transaction is quarantined")
  else
    let? rows := solana_rows l in
    let mode := rows !! id in
    match attempts_of id l with
    | [] =>
        if bool_decide (is_Some (rec_replay_key admission)) || bool_decide (is_Some mode)
           || bool_decide (rec_state admission <> StAdmitted)
        then Err Storage else Ok None
    | a :: rest =>
        if negb (bool_decide (rest = [])) || bool_decide (rec_replay_key admission <> Some (at_replay_key a))
        then Err Storage
        else
          let? payload := retained_payload (at_replay_key a) (at_digest a) (at_payload a) in
          let? (broadcasts, last_at) := retained_budget (at_digest a) mode in
          Ok (Some (mkRetainedRow
                      (mkRetained (at_replay_key a) payload (rec_state admission) broadcasts last_at)
                      (at_digest a) (bool_decide (is_Some mode))))
    end.

(** [claim]: at most twenty grants, at least two seconds apart, each one counted in
    the row it was computed from. *)
Definition claim (id : string) (stored : RetainedSolanaAttempt) (now : N) (l : Ledger)
    : recovery_result (SolanaRecoveryBroadcast * Ledger) :=
  if (MAX_SOLANA_RECOVERY_BROADCASTS <=? ret_broadcasts stored)%N then Ok (Exhausted, l)
  else
    let elapsed := saturating_sub now (ret_last_at stored) in
    if negb (ret_last_at stored =? 0)%N && (elapsed <? RECOVERY_BROADCAST_INTERVAL_MS)%N
    then Ok (Wait (RECOVERY_BROADCAST_INTERVAL_MS - elapsed), l)
    else if (now =? 0)%N || (I64_MAX <? now)%N then Err Storage
    else
      let broadcasts := (ret_broadcasts stored + 1)%N in
      let? rows := solana_rows l in
      match rows !! id with
      | Some r =>
          if (so_broadcasts r =? ret_broadcasts stored)%N
             && (so_last_broadcast_at r =? ret_last_at stored)%N
          then Ok (Granted broadcasts now,
                   set_solana (Some (<[id := mkSolanaRow (so_attempt_digest r) broadcasts now]> rows)) l)
          else Err Storage
      | None => Err Storage
      end.
End Records.
