(* ===== verification/EngineProg.v ===== *)
(** Programs of the engine process around the recovery ledger.

    The process runs statements on its ledger file, calls on the Redis server, reads
    of the chain's RPC, reads of the clock, and keeps one in-memory latch.  A program
    is a tree of such calls.  It runs against slots that say what the world does next:
    before a Redis call anything may have happened to the server (writes of others, a
    restart, a failover, a rollback to an older data set), any call may be lost before
    or after it took effect, capacity may be missing, and the chain may answer
    anything.  An operation of the journal holds the process's mutex from its first call
    to its last; between two operations, at [EOthers], the other tasks of the process
    may run theirs.  A crash is a run that stops between two calls; the ledger file and the
    server survive it. *)

From Stdlib Require Import String Ascii NArith Lia.
From stdpp Require Import base gmap strings option list fin_maps.
From S2P Require Import Prelude Redis RedisProg Errors RecoveryLedger.

(** ** The world *)

(** The ledger's file: absent, created but without its tables, or complete. *)
Inductive disk := NoFile | EmptyFile | LedgerFile (l : Ledger).

Record server := mkServer {
  sv_data : redis;
  sv_run_id : string;
  sv_role : string
}.

Record world := mkWorld {
  w_disk : disk;
  w_failed : bool;
  w_server : server
}.

Record Block := mkBlock { b_number : N; b_hash : string }.
Inductive BlockTag := TagNumber (n : N) | TagFinalized | TagLatest.

Record turn := mkTurn {
  t_env : server -> server;
  t_fault : option fault;
  t_permit : bool;
  t_now : N;
  t_others : world -> world;
  t_block : BlockTag -> result AlloyRpcError (option Block)
}.
Definition quiet_turn : turn := mkTurn id None true 0 id (fun _ => Ok None).

(** ** Programs *)

Inductive eprog (A : Type) : Type :=
| ERet (a : A)
| EDisk {B : Type} (f : disk -> recovery_result (B * disk)) (k : recovery_result B -> eprog A)
| EServer {B : Type} (f : server -> server * B) (k : result redis_error B -> eprog A)
| ELatched (k : bool -> eprog A)
| ELatch (k : eprog A)
| EPermit (k : bool -> eprog A)
| ENow (k : N -> eprog A)
| EOthers (k : eprog A)
| EBlock (tag : BlockTag) (k : result AlloyRpcError (option Block) -> eprog A).
Arguments ERet {A} _.
Arguments EDisk {A B} _ _.
Arguments EServer {A B} _ _.
Arguments ELatched {A} _.
Arguments ELatch {A} _.
Arguments EPermit {A} _.
Arguments ENow {A} _.
Arguments EOthers {A} _.
Arguments EBlock {A} _ _.

Fixpoint ebind {A B} (p : eprog A) (g : A -> eprog B) : eprog B :=
  match p with
  | ERet a => g a
  | EDisk f k => EDisk f (fun r => ebind (k r) g)
  | EServer f k => EServer f (fun r => ebind (k r) g)
  | ELatched k => ELatched (fun b => ebind (k b) g)
  | ELatch k => ELatch (ebind k g)
  | EPermit k => EPermit (fun b => ebind (k b) g)
  | ENow k => ENow (fun n => ebind (k n) g)
  | EOthers k => EOthers (ebind k g)
  | EBlock tag k => EBlock tag (fun r => ebind (k r) g)
  end.

Notation "'do*' x ':=' p 'in' q" := (ebind p (fun x => q))
  (at level 10, x pattern, p at level 100, q at level 200) : engine_scope.
(** The [?] operator. *)
Notation "'do!' x ':=' p 'in' q" :=
  (ebind p (fun r => match r with Ok x => q | Err e => ERet (Err e) end))
  (at level 10, x pattern, p at level 100, q at level 200) : engine_scope.

(** A statement that fails leaves the file as it was; a lost statement is a [Storage]
    error whether or not it was applied. *)
Definition disk_effect {B} (ft : option fault) (f : disk -> recovery_result (B * disk)) (d : disk)
    : disk * recovery_result B :=
  match ft with
  | Some DropBefore => (d, Err Storage)
  | None => match f d with Ok (b, d') => (d', Ok b) | Err e => (d, Err e) end
  | Some LoseReply => (match f d with Ok (_, d') => d' | Err _ => d end, Err Storage)
  end.
Definition server_effect {B} (ft : option fault) (f : server -> server * B) (s : server)
    : server * result redis_error B :=
  match ft with
  | Some DropBefore => (s, Err TransportError)
  | None => let '(s', b) := f s in (s', Ok b)
  | Some LoseReply => ((f s).1, Err TransportError)
  end.

Definition next_turn (ts : list turn) : turn * list turn :=
  match ts with [] => (quiet_turn, []) | t :: ts' => (t, ts') end.

(** One run, with the worlds it went through. *)
Fixpoint erun {A} (p : eprog A) (ts : list turn) (w : world) : A * world * list world :=
  let '(t, ts') := next_turn ts in
  match p with
  | ERet a => (a, w, [])
  | EDisk f k =>
      let '(d, r) := disk_effect (t_fault t) f (w_disk w) in
      let w' := mkWorld d (w_failed w) (w_server w) in
      let '(a, w2, tr) := erun (k r) ts' w' in (a, w2, w' :: tr)
  | EServer f k =>
      let '(s, r) := server_effect (t_fault t) f (t_env t (w_server w)) in
      let w' := mkWorld (w_disk w) (w_failed w) s in
      let '(a, w2, tr) := erun (k r) ts' w' in (a, w2, w' :: tr)
  | ELatched k => erun (k (w_failed w)) ts' w
  | ELatch k =>
      let w' := mkWorld (w_disk w) true (w_server w) in
      let '(a, w2, tr) := erun k ts' w' in (a, w2, w' :: tr)
  | EPermit k => erun (k (t_permit t)) ts' w
  | ENow k => erun (k (t_now t)) ts' w
  | EOthers k =>
      let w' := t_others t w in
      let '(a, w2, tr) := erun k ts' w' in (a, w2, w' :: tr)
  | EBlock tag k => erun (k (t_block t tag)) ts' w
  end.

(** A crash keeps the file and the server and forgets the process. *)
Definition restart (w : world) : world := mkWorld (w_disk w) false (w_server w).

(** ** What holds of every run

    [wp T R p w Q]: as long as the world only takes turns in [T], every step that [p]
    makes from [w] on is in [R], and [p] ends with a value and a world in [Q]. *)
Fixpoint wp {A} (T : turn -> Prop) (R : world -> world -> Prop) (p : eprog A) (w : world)
    (Q : A -> world -> Prop) : Prop :=
  match p with
  | ERet a => Q a w
  | EDisk f k =>
      ∀ t, T t -> let '(d, r) := disk_effect (t_fault t) f (w_disk w) in
        let w' := mkWorld d (w_failed w) (w_server w) in R w w' /\ wp T R (k r) w' Q
  | EServer f k =>
      ∀ t, T t -> let '(s, r) := server_effect (t_fault t) f (t_env t (w_server w)) in
        let w' := mkWorld (w_disk w) (w_failed w) s in R w w' /\ wp T R (k r) w' Q
  | ELatched k => wp T R (k (w_failed w)) w Q
  | ELatch k => let w' := mkWorld (w_disk w) true (w_server w) in R w w' /\ wp T R k w' Q
  | EPermit k => ∀ t, T t -> wp T R (k (t_permit t)) w Q
  | ENow k => ∀ t, T t -> wp T R (k (t_now t)) w Q
  | EOthers k => ∀ t, T t -> R w (t_others t w) /\ wp T R k (t_others t w) Q
  | EBlock tag k => ∀ t, T t -> wp T R (k (t_block t tag)) w Q
  end.

Lemma wp_mono {A} T (R R' : world -> world -> Prop) (p : eprog A) w (Q Q' : A -> world -> Prop) :
  (∀ w w', R w w' -> R' w w') -> (∀ a w, Q a w -> Q' a w) -> wp T R p w Q -> wp T R' p w Q'.
Proof.
  intros HR HQ. revert w.
  induction p as [a|B f k IH|B f k IH|k IH|k IH|k IH|k IH|k IH|tag k IH]; intros w; cbn; eauto.
  - intros Hw t Ht. specialize (Hw t Ht). destruct (disk_effect _ f (w_disk w)) as [d r].
    destruct Hw. eauto.
  - intros Hw t Ht. specialize (Hw t Ht). destruct (server_effect _ f _). destruct Hw. eauto.
  - intros [? ?]. eauto.
  - intros Hw t Ht. destruct (Hw t Ht). eauto.
Qed.

Lemma wp_bind {A B} T R (p : eprog A) (g : A -> eprog B) w Q :
  wp T R p w (fun a w' => wp T R (g a) w' Q) -> wp T R (ebind p g) w Q.
Proof.
  revert w. induction p as [a|C f k IH|C f k IH|k IH|k IH|k IH|k IH|k IH|tag k IH]; intros w; cbn; eauto.
  - intros Hw t Ht. specialize (Hw t Ht). destruct (disk_effect _ f (w_disk w)) as [d r].
    destruct Hw. eauto.
  - intros Hw t Ht. specialize (Hw t Ht). destruct (server_effect _ f _). destruct Hw. eauto.
  - intros [? ?]. eauto.
  - intros Hw t Ht. destruct (Hw t Ht). eauto.
Qed.

(** Fewer turns, fewer runs. *)
Lemma wp_turns {A} (T T' : turn -> Prop) R (p : eprog A) w Q :
  (∀ t, T' t -> T t) -> wp T R p w Q -> wp T' R p w Q.
Proof.
  intros HT. revert w.
  induction p as [a|C f k IH|C f k IH|k IH|k IH|k IH|k IH|k IH|tag k IH]; intros w; cbn; eauto.
  - intros Hw t Ht. specialize (Hw t (HT t Ht)). destruct (disk_effect _ f (w_disk w)) as [d r].
    destruct Hw. eauto.
  - intros Hw t Ht. specialize (Hw t (HT t Ht)). destruct (server_effect _ f _). destruct Hw. eauto.
  - intros [? ?]. eauto.
  - intros Hw t Ht. destruct (Hw t (HT t Ht)). eauto.
Qed.

(** A run follows its [wp]: its worlds chain through [R]. *)
Lemma wp_run {A} (T : turn -> Prop) (R : world -> world -> Prop) (p : eprog A) ts w Q a w' tr :
  T quiet_turn -> Forall T ts -> wp T R p w Q -> erun p ts w = (a, w', tr) ->
  Q a w' /\ Forall (rtc R w) tr /\ rtc R w w'.
Proof.
  intros Hq. revert ts w a w' tr.
  induction p as [a|C f k IH|C f k IH|k IH|k IH|k IH|k IH|k IH|tag k IH]; intros ts w r w' tr Hts;
    cbn [wp erun]; (assert (T (next_turn ts).1 /\ Forall T (next_turn ts).2) as [Ht Hts']
      by (destruct ts; [done|by inversion Hts])); destruct (next_turn ts) as [t ts']; cbn in Ht, Hts'.
  - intros HQ [= <- <- <-]. done.
  - intros Hw. specialize (Hw t Ht). destruct (disk_effect _ _ _) as [d x].
    destruct Hw as [HR Hw]. destruct (erun (k x) _ _) as [[a2 w2] tr2] eqn:Hrun. intros [= <- <- <-].
    destruct (IH _ _ _ _ _ _ Hts' Hw Hrun) as (HQ & Htr & Hend).
    split_and!; [done| |by eapply rtc_l].
    constructor; [by apply rtc_once|]. eapply Forall_impl; [exact Htr|]. intros w1 Hw1. by eapply rtc_l.
  - intros Hw. specialize (Hw t Ht). destruct (server_effect _ _ _) as [s x].
    destruct Hw as [HR Hw]. destruct (erun (k x) _ _) as [[a2 w2] tr2] eqn:Hrun. intros [= <- <- <-].
    destruct (IH _ _ _ _ _ _ Hts' Hw Hrun) as (HQ & Htr & Hend).
    split_and!; [done| |by eapply rtc_l].
    constructor; [by apply rtc_once|]. eapply Forall_impl; [exact Htr|]. intros w1 Hw1. by eapply rtc_l.
  - intros Hw Hrun. by eapply IH.
  - intros [HR Hw]. destruct (erun k _ _) as [[a2 w2] tr2] eqn:Hrun. intros [= <- <- <-].
    destruct (IH _ _ _ _ _ Hts' Hw Hrun) as (HQ & Htr & Hend).
    split_and!; [done| |by eapply rtc_l].
    constructor; [by apply rtc_once|]. eapply Forall_impl; [exact Htr|]. intros w1 Hw1. by eapply rtc_l.
  - intros Hw Hrun. eapply IH; eauto.
  - intros Hw Hrun. eapply IH; eauto.
  - intros Hw. destruct (Hw t Ht) as [HR Hk]. destruct (erun k _ _) as [[a2 w2] tr2] eqn:Hrun. intros [= <- <- <-].
    destruct (IH _ _ _ _ _ Hts' Hk Hrun) as (HQ & Htr & Hend).
    split_and!; [done| |by eapply rtc_l].
    constructor; [by apply rtc_once|]. eapply Forall_impl; [exact Htr|]. intros w1 Hw1. by eapply rtc_l.
  - intros Hw Hrun. eapply IH; eauto.
Qed.
