(* ===== verification/RecoveryJournal.v ===== *)
(** The recovery journal (core/src/recovery.rs, recovery/solana_projection.rs): the
    transactions it runs on its ledger, and its operations as programs of the process.

    One mutex serialises the operations of a process and one file lock serialises
    processes, so between the calls of an operation only the Redis server and the chain
    move.  Each [_txn] below is the closure the code hands to its database thread: one
    SQLite transaction, rolled back when it fails. *)

From Stdlib Require Import String Ascii NArith Lia.
From stdpp Require Import base gmap strings option list fin_maps.
From S2P Require Import Prelude Json JsonValue Redis RedisProg Errors FinalityTypes.
From S2P Require Import RecoveryLedger RecoveryChecks EngineProg.

Section Transactions.
Context `{Primitives} `{!Json Value, !Json FinalityEvidence}.

Definition not_admitted : RecoveryError :=
  RecoveryRequired "transaction is terminal or quarantined".

(** [reserve_admission]: an id is reserved once; a retry gets the stored payload. *)
Definition reserve_txn (kind id fingerprint encoded : string) (payload : Value) (l : Ledger)
    : recovery_result ((Value * bool * option Control) * Ledger) :=
  let? found := lookup_admission l id in
  match found with
  | Some old =>
      if bool_decide (rec_kind old <> kind) || bool_decide (rec_fingerprint old <> fingerprint)
      then Err Conflict
      else if decide (rec_state old = StQuarantined)
      then Err (RecoveryRequired "transaction is quarantined")
      else Ok ((rec_payload old, bool_decide (rec_state old = StTerminal), None), l)
  | None =>
      let? l1 := insert_admission id kind fingerprint encoded l in
      let? (old, l2) := advance l1 in
      Ok ((payload, false, Some old), l2)
  end.

(** The chain of an EVM replay key must not be halted; Solana keys carry none. *)
Definition chain_gate (kind key : string) (missing : RecoveryError) (l : Ledger) : recovery_result unit :=
  if decide (kind = "solana") then Ok tt
  else
    let? chain := ok_or missing (replay_chain key) in
    ensure_chain_not_halted chain l.

(** [validate_replay_binding] *)
Definition binding_check (kind id key : string) (l : Ledger) : recovery_result unit :=
  let? found := lookup_admission l id in
  let? record := ok_or (RecoveryRequired "untracked signing intent") found in
  if bool_decide (rec_kind record <> kind)
     || from_option (fun k => bool_decide (k <> key)) false (rec_replay_key record)
  then Err Conflict
  else if bool_decide (rec_state record <> StAdmitted) then Err not_admitted
  else if from_option (fun owner => bool_decide (owner <> id)) false (replay_owner key l)
  then Err Conflict
  else chain_gate kind key (Invalid "missing replay chain") l.

(** [before_broadcast]: nothing for an attempt that is already recorded. *)
Definition broadcast_txn (kind id key encoded digest : string) (l : Ledger)
    : recovery_result (option Control * Ledger) :=
  let? found := lookup_admission l id in
  let? record := ok_or (RecoveryRequired "untracked broadcast") found in
  if bool_decide (rec_kind record <> kind) then Err Conflict
  else if bool_decide (rec_state record <> StAdmitted) then Err not_admitted
  else
    let? restored := (if decide (kind = "solana") then recovery_mode id l else Ok false) in
    if (restored : bool)
    then Err (RecoveryRequired "restored Solana intent requires a durable recovery broadcast claim")
    else
      let? _ := chain_gate kind key (Invalid "replay key has no chain identity") l in
      if from_option (fun k => bool_decide (k <> key)) false (rec_replay_key record) then Err Conflict
      else if from_option (fun owner => bool_decide (owner <> id)) false (replay_owner key l)
      then Err Conflict
      else
        match attempt_by_digest id digest l with
        | Some a =>
            if bool_decide (at_replay_key a <> key) || bool_decide (at_payload a <> encoded)
               || bool_decide (rec_replay_key record <> Some key)
            then Err Storage else Ok (None, l)
        | None =>
            let? l1 := update_replay_key id key l in
            let? l2 := insert_attempt (mkAttempt id key digest encoded) l1 in
            let? (old, l3) := advance l2 in
            Ok (Some old, l3)
        end.

(** [latest_eoa_attempt] *)
Definition latest_attempt (id expected : string) (l : Ledger) : recovery_result (option Value) :=
  let? found := lookup_admission l id in
  let? record := ok_or (RecoveryRequired "untracked gap recovery") found in
  if bool_decide (rec_kind record <> "eoa") || bool_decide (rec_replay_key record <> Some expected)
  then Err Conflict
  else if bool_decide (rec_state record <> StAdmitted)
  then Err (RecoveryRequired "gap recovery is terminal or quarantined")
  else
    let? chain := ok_or Storage (replay_chain expected) in
    let? _ := ensure_chain_not_halted chain l in
    match last (attempts_of id l) with
    | None => Ok None
    | Some a =>
        if bool_decide (at_replay_key a <> expected) then Err Storage
        else let? v := ok_or Storage (from_json (at_payload a)) in Ok (Some v)
    end.

(** [record_terminal]: the first witness stays; a different one halts the ledger. *)
Definition terminal_txn (kind id encoded normalized : string) (evidence : Value) (l : Ledger)
    : recovery_result ((option Control * bool) * Ledger) :=
  let? found := lookup_admission l id in
  let? record := ok_or (RecoveryRequired "untracked terminal observation") found in
  if bool_decide (rec_kind record <> kind) then Err Conflict
  else
    let? _ := validate_attempt_identity_in_db l record evidence in
    if decide (rec_state record = StTerminal) then
      let? body := ok_or Storage (head (evidence_of id l)) in
      let? previous := ok_or Storage (from_json body) in
      let? before := terminal_identity previous in
      if decide (before = normalized) then Ok ((None, false), l)
      else
        let? l1 := insert_terminal id encoded l in
        Ok ((None, true),
            set_control (with_halt true (Some "terminal evidence conflict") (l_control l1)) l1)
    else
      let? l1 := insert_terminal id encoded l in
      let? (old, l2) := advance (update_state id StTerminal l1) in
      Ok ((Some old, false), l2).

(** [terminal_evidence]: the first committed witness. *)
Definition terminal_evidence_of (kind id : string) (l : Ledger) : recovery_result (option Value) :=
  let? found := lookup_admission l id in
  match found with
  | None => Ok None
  | Some record =>
      if bool_decide (rec_kind record <> kind) then Err Conflict
      else if bool_decide (rec_state record <> StTerminal) then Ok None
      else
        let? body := ok_or Storage (head (evidence_of id l)) in
        let? v := ok_or Storage (from_json body) in
        Ok (Some v)
  end.

Definition checkpoint_conflict_reason : string := "finality checkpoint conflict".

(** [commit_checkpoint]: accepted?, the control row to mirror, conflict? *)
Definition checkpoint_txn (chain_id : N) (expected : option FinalityEvidence)
    (evidence : FinalityEvidence) (l : Ledger)
    : recovery_result ((bool * option Control * bool) * Ledger) :=
  let? _ := ensure_chain_not_halted (u64_to_string chain_id) l in
  let? current := load_chain_checkpoint l chain_id in
  let store :=
    let? encoded := ok_or Storage (to_json evidence) in
    let l1 := set_chain_checkpoints
                (<[u64_to_string chain_id := encoded]> (l_chain_checkpoints l)) l in
    let? (old, l2) := advance l1 in
    Ok ((true, Some old, false), l2) in
  if bool_decide (current <> expected) then Ok ((false, None, false), l)
  else
    match current with
    | None => store
    | Some previous =>
        if bool_decide (fe_policy previous <> fe_policy evidence)
           || ((fe_checkpoint_number previous =? fe_checkpoint_number evidence)%N
               && bool_decide (fe_checkpoint_hash previous <> fe_checkpoint_hash evidence))
        then
          let? (old, l2) :=
            advance (insert_chain_halt (u64_to_string chain_id) checkpoint_conflict_reason l) in
          Ok ((false, Some old, true), l2)
        else if (fe_checkpoint_number evidence <? fe_checkpoint_number previous)%N
        then Ok ((false, None, false), l)
        else if (fe_checkpoint_number evidence =? fe_checkpoint_number previous)%N
        then Ok ((true, None, false), l)
        else store
    end.

Definition halt_chain_txn (chain_id : N) (l : Ledger) : recovery_result (Control * Ledger) :=
  advance (insert_chain_halt (u64_to_string chain_id) checkpoint_conflict_reason l).

(** [prepare_solana_restore] *)
Definition restore_txn (id : string) (payload : Value) (l : Ledger)
    : recovery_result ((option RetainedSolanaAttempt * option Control) * Ledger) :=
  let? stored := retained l id payload in
  match stored with
  | None => Ok ((None, None), l)
  | Some stored =>
      if ret_recovery_mode stored then Ok ((Some (ret_public stored), None), l)
      else
        let? rows := solana_rows l in
        let l1 := set_solana (Some (<[id := mkSolanaRow (ret_digest stored) 0 0]> rows)) l in
        let? (old, l2) := advance l1 in
        Ok ((Some (ret_public stored), Some old), l2)
  end.

(** [before_solana_recovery_broadcast] *)
Definition recovery_broadcast_txn (id : string) (payload attempt : Value) (now : N) (l : Ledger)
    : recovery_result ((SolanaRecoveryBroadcast * option Control) * Ledger) :=
  let? found := retained l id payload in
  let? stored := ok_or (RecoveryRequired "missing retained Solana attempt") found in
  if negb (ret_recovery_mode stored) || bool_decide (ret_state (ret_public stored) <> StAdmitted)
  then Err (RecoveryRequired "Solana recovery broadcast is not allowed")
  else
    let? kept := canonical (ret_payload (ret_public stored)) in
    let? wanted := canonical attempt in
    if bool_decide (kept <> wanted) then Err Conflict
    else
      let? (permission, l1) := claim id (ret_public stored) now l in
      match permission with
      | Granted _ _ =>
          let? (old, l2) := advance l1 in
          Ok ((permission, Some old), l2)
      | _ => Ok ((permission, None), l)
      end.
End Transactions.
