(* ===== verification/RecoveryOps.v ===== *)
(** The operations of the recovery journal as programs (core/src/recovery.rs,
    recovery/solana_projection.rs): the health gate, the publication of a checkpoint to
    Redis, every public operation of a running process, and the offline commands that
    create, reattach, recover and stop a ledger.

    Waiting for a lane or the mutex changes no state and is left out; a missing permit
    ([try_acquire], a closed registration, an owned file lock) is a turn's answer.
    File metadata checks and [PRAGMA quick_check] are among the faults of a statement. *)

From Stdlib Require Import String Ascii NArith Lia.
From stdpp Require Import base gmap strings option list fin_maps.
From S2P Require Import Prelude Json JsonValue Redis RedisProg Errors FinalityTypes.
From S2P Require Import RecoveryLedger RecoveryChecks EngineProg RecoveryJournal.

(** ** Statements and server calls *)

Definition on_ledger {B} (f : Ledger -> recovery_result (B * Ledger)) (d : disk)
    : recovery_result (B * disk) :=
  match d with
  | NoFile => Err Missing
  | EmptyFile => Err Storage
  | LedgerFile l => let? (b, l') := f l in Ok (b, LedgerFile l')
  end.
Definition db {B} (f : Ledger -> recovery_result (B * Ledger)) : eprog (recovery_result B) :=
  EDisk (on_ledger f) ERet.
Definition reading {B} (f : Ledger -> recovery_result B) (l : Ledger) : recovery_result (B * Ledger) :=
  let? b := f l in Ok (b, l).
Definition db_read {B} (f : Ledger -> recovery_result B) : eprog (recovery_result B) := db (reading f).

(** A Redis failure is a [Storage] error where the code uses [?] on it. *)
Definition call {B} (f : server -> server * B) : eprog (recovery_result B) :=
  EServer f (fun r => ERet (match r with Ok b => Ok b | Err _ => Err Storage end)).
Definition redis_connection : eprog (recovery_result unit) := call (fun s => (s, tt)).

(** INFO server, INFO replication and GET in one MULTI block. *)
Definition observe (key : string) (s : server) : server * (string * string * option string) :=
  (s, (sv_run_id s, sv_role s, str (sv_data s) key)).
Definition observation (key : string) : eprog (recovery_result (string * string * option string)) :=
  call (observe key).

Definition put_marker (key value : string) (s : server) : server :=
  mkServer (put_str key value (sv_data s)) (sv_run_id s) (sv_role s).
(** The PUBLISH_CHECKPOINT script. *)
Definition publish_script (key previous target : string) (s : server) : server * N :=
  let current := str (sv_data s) key in
  if decide (current = Some target) then (s, 1%N)
  else if decide (current = Some previous) then (put_marker key target s, 1%N)
  else (s, 0%N).
(** [SET key value NX] *)
Definition set_nx (key value : string) (s : server) : server * bool :=
  if exists_key (sv_data s) key then (s, false) else (put_marker key value s, true).

Definition redis_keys (σ : redis) : list string :=
  filter (fun k => exists_key σ k = true)
    (elements (dom (r_str σ) ∪ dom (r_hash σ) ∪ dom (r_zset σ) ∪ dom (r_list σ) ∪ dom (r_set σ))).
(** The full SCAN for one pattern, as the set of keys it would list. *)
Definition scan_prefix (prefix : string) (s : server) : server * list string :=
  (s, filter (fun k => String.prefix prefix k = true) (redis_keys (sv_data s))).

Section Operations.
Context `{Primitives} `{!Json Value, !Json FinalityEvidence}.

(** ** The safety gate *)

Definition halt (reason : string) : eprog RecoveryError :=
  ELatch (do* _ := db (fun l => Ok (tt, latch_halt reason l)) in ERet (RecoveryRequired reason)).
Definition halt_err {A} (reason : string) : eprog (recovery_result A) :=
  do* e := halt reason in ERet (Err e).

Definition storage_result {A} (r : recovery_result A) : eprog (recovery_result A) :=
  match r with Err Storage => halt_err "ledger unavailable" | _ => ERet r end.

Definition observe_checkpoint (current : Control) (pending : option PendingUpdate)
    : eprog (recovery_result unit) :=
  do* seen := observation (control_key current) in
  match seen with
  | Err _ =>
      match pending with
      | Some _ => ERet (Err PublicationPending)
      | None => halt_err "Redis continuity unavailable"
      end
  | Ok (run, role, marker) =>
      let matches_target := bool_decide (marker = Some (token current)) in
      let matches_previous :=
        from_option (fun p => bool_decide (marker = Some (previous_token p))) false pending in
      if negb matches_target && negb matches_previous then halt_err "Redis checkpoint mismatch"
      else if bool_decide (role <> "master") then halt_err "Redis primary role changed"
      else if bool_decide (run <> c_run_id current) then halt_err "Redis process changed"
      else ERet (Ok tt)
  end.

Definition complete_pending (current : Control) (pending : PendingUpdate)
    : eprog (recovery_result unit) :=
  do* published := call (publish_script (redis_key pending) (previous_token pending) (target_token pending)) in
  match published with
  | Err _ => ERet (Err PublicationPending)
  | Ok n =>
      if negb (n =? 1)%N then halt_err "Redis checkpoint mismatch"
      else
        do* seen := observation (control_key current) in
        match seen with
        | Err _ => ERet (Err PublicationPending)
        | Ok (run, role, marker) =>
            if bool_decide (marker <> Some (target_token pending)) then halt_err "Redis checkpoint mismatch"
            else if bool_decide (role <> "master") then halt_err "Redis primary role changed"
            else if bool_decide (run <> pending_run_id pending) then halt_err "Redis process changed"
            else
              do* acked := db (fun l => let? l' := acknowledge pending l in Ok (tt, l')) in
              do! _ := storage_result acked in
              observe_checkpoint current None
        end
  end.

Definition load_state (l : Ledger) : recovery_result (Control * option PendingUpdate) :=
  let? current := control l in
  let? pending := load_pending l current in
  Ok (current, pending).

Definition healthy_locked : eprog (recovery_result Control) :=
  ELatched (fun failed =>
    if failed then ERet (Err (RecoveryRequired "process safety gate is latched"))
    else
      do* state := db_read load_state in
      match state with
      | Err _ => halt_err "ledger unavailable"
      | Ok (current, pending) =>
          if c_halted current then ELatch (ERet (Err (RecoveryRequired "durable safety gate is halted")))
          else
            do! _ := observe_checkpoint current pending in
            match pending with
            | None => ERet (Ok current)
            | Some pending => do! _ := complete_pending current pending in ERet (Ok current)
            end
      end).

Definition mirror_state (old : Control) (l : Ledger) : recovery_result (Control * PendingUpdate) :=
  let? current := control l in
  let? loaded := load_pending l current in
  let? pending := ok_or Storage loaded in
  if bool_decide (previous_token pending <> token old) then Err Storage else Ok (current, pending).

Definition mirror (old : Control) : eprog (recovery_result unit) :=
  do* state := db_read (mirror_state old) in
  do! (current, pending) := storage_result state in
  do! _ := observe_checkpoint current (Some pending) in
  complete_pending current pending.

Definition mirror_some (old : option Control) : eprog (recovery_result unit) :=
  match old with Some old => mirror old | None => ERet (Ok tt) end.

(** [run_owned]: refused once registration is closed or while a drain waits. *)
Definition run_owned {A} (op : eprog (recovery_result A)) : eprog (recovery_result A) :=
  EPermit (fun open => if open then op else ERet (Err Busy)).

(** ** Operations of a running process *)

Definition ensure_healthy : eprog (recovery_result unit) :=
  run_owned (do! _ := healthy_locked in ERet (Ok tt)).

Definition reserve_admission (kind id fingerprint : string) (payload : Value)
    : eprog (recovery_result (Value * bool)) :=
  EPermit (fun slot =>
    if negb slot then ERet (Err Busy)
    else
      do! _ := ERet (identity kind id) in
      do! expected := ERet (admission_fingerprint kind payload) in
      if bool_decide (expected <> fingerprint) then ERet (Err Conflict)
      else
        do! encoded := ERet (canonical payload) in
        run_owned
          (do! _ := healthy_locked in
           do* outcome := db (reserve_txn kind id fingerprint encoded payload) in
           do! (stored, terminal, old) := storage_result outcome in
           do! _ := mirror_some old in
           ERet (Ok (stored, terminal)))).

Definition admission_of (kind id : string) (l : Ledger) : recovery_result (option AdmissionRecord) :=
  let? found := lookup_admission l id in
  if from_option (fun r => bool_decide (rec_kind r <> kind)) false found then Err Conflict
  else Ok found.
Definition journal_admission (kind id : string) : eprog (recovery_result (option AdmissionRecord)) :=
  db_read (admission_of kind id).
Definition admission_state (kind id : string) : eprog (recovery_result (option AdmissionState)) :=
  do! r := journal_admission kind id in ERet (Ok (rec_state <$> r)).
Definition terminal_evidence (kind id : string) : eprog (recovery_result (option Value)) :=
  db_read (terminal_evidence_of kind id).

Definition untracked : RecoveryError := RecoveryRequired "untracked transaction".

Definition validate_admission (kind id fingerprint : string) : eprog (recovery_result unit) :=
  do! _ := ensure_healthy in
  do! found := journal_admission kind id in
  do! record := ERet (ok_or untracked found) in
  if bool_decide (rec_fingerprint record <> fingerprint) then ERet (Err Conflict)
  else if bool_decide (rec_state record <> StAdmitted) then ERet (Err not_admitted)
  else ERet (Ok tt).

Definition validate_payload (kind id : string) (payload : Value) : eprog (recovery_result unit) :=
  do! fingerprint := ERet (admission_fingerprint kind payload) in
  do! _ := validate_admission kind id fingerprint in
  do! found := journal_admission kind id in
  do! record := ERet (ok_or untracked found) in
  do! stored := ERet (canonical (rec_payload record)) in
  do! wanted := ERet (canonical payload) in
  if bool_decide (stored <> wanted) then ERet (Err Conflict) else ERet (Ok tt).

Definition validate_replay_binding (kind id key : string) : eprog (recovery_result unit) :=
  do! _ := ERet (identity kind id) in
  do! _ := ERet (validate_replay_key kind key) in
  run_owned (do! _ := healthy_locked in db_read (binding_check kind id key)).

Definition before_broadcast (kind id key : string) (attempt : Value) : eprog (recovery_result unit) :=
  do! _ := ERet (identity kind id) in
  do! _ := ERet (validate_replay_key kind key) in
  do! encoded := ERet (canonical attempt) in
  run_owned
    (do! _ := healthy_locked in
     do* outcome := db (broadcast_txn kind id key encoded (sha256_hex encoded)) in
     do! old := storage_result outcome in
     mirror_some old).

Definition latest_eoa_attempt (id expected : string) : eprog (recovery_result (option Value)) :=
  do! _ := ERet (identity "eoa" id) in
  do! _ := ERet (validate_replay_key "eoa" expected) in
  do! _ := ensure_healthy in
  db_read (latest_attempt id expected).

Definition attempt_identity_check (kind id : string) (witness : Value) (l : Ledger) : recovery_result unit :=
  let? found := lookup_admission l id in
  let? record := ok_or (RecoveryRequired "untracked confirmation") found in
  if bool_decide (rec_kind record <> kind) then Err Conflict
  else validate_attempt_identity_in_db l record witness.
Definition validate_attempt_identity (kind id : string) (witness : Value) : eprog (recovery_result unit) :=
  do! _ := ensure_healthy in
  db_read (attempt_identity_check kind id witness).

Definition record_terminal (kind id : string) (evidence : Value) : eprog (recovery_result unit) :=
  do! _ := ERet (identity kind id) in
  do! normalized := ERet (terminal_identity evidence) in
  do! encoded := ERet (canonical evidence) in
  run_owned
    (do! _ := healthy_locked in
     do* outcome := db (terminal_txn kind id encoded normalized evidence) in
     do! (old, conflict) := storage_result outcome in
     if (conflict : bool)
     then ELatch (ERet (Err (RecoveryRequired "terminal evidence conflict")))
     else mirror_some old).

Definition check_chain_healthy (chain_id : N) : eprog (recovery_result unit) :=
  do! _ := ensure_healthy in
  db_read (ensure_chain_not_halted (u64_to_string chain_id)).
Definition load_checkpoint (chain_id : N) : eprog (recovery_result (option FinalityEvidence)) :=
  do! _ := check_chain_healthy chain_id in
  db_read (fun l => load_chain_checkpoint l chain_id).

Definition commit_checkpoint (chain_id : N) (expected : option FinalityEvidence)
    (evidence : FinalityEvidence) : eprog (recovery_result bool) :=
  run_owned
    (do! _ := healthy_locked in
     do* outcome := db (checkpoint_txn chain_id expected evidence) in
     do! (accepted, old, conflict) := storage_result outcome in
     do! _ := mirror_some old in
     if (conflict : bool) then ERet (Err (RecoveryRequired "chain finality checkpoint conflicts"))
     else ERet (Ok accepted)).

Definition halt_chain (chain_id : N) : eprog (recovery_result unit) :=
  run_owned
    (do! _ := healthy_locked in
     do* outcome := db (halt_chain_txn chain_id) in
     do! old := storage_result outcome in
     mirror old).

Definition prepare_solana_restore (id : string) (payload : Value)
    : eprog (recovery_result (option RetainedSolanaAttempt)) :=
  do! _ := ERet (identity "solana" id) in
  run_owned
    (do! _ := healthy_locked in
     do* outcome := db (restore_txn id payload) in
     do! (stored, old) := storage_result outcome in
     do! _ := mirror_some old in
     ERet (Ok stored)).

Definition before_solana_recovery_broadcast (id : string) (payload attempt : Value)
    : eprog (recovery_result SolanaRecoveryBroadcast) :=
  do! _ := ERet (identity "solana" id) in
  run_owned
    (do! _ := healthy_locked in
     ENow (fun now =>
       do* outcome := db (recovery_broadcast_txn id payload attempt now) in
       do! (permission, old) := storage_result outcome in
       do! _ := mirror_some old in
       ERet (Ok permission))).
End Operations.
