(* ===== verification/RecoveryOffline.v ===== *)
(** Commands on a ledger that no server is using (core/src/recovery.rs): creation,
    startup with migration, the durable stop, reattachment after a Redis restart and
    recovery into a new namespace; and the inventory that status and export report. *)

From Stdlib Require Import String Ascii NArith Lia.
From stdpp Require Import base gmap strings option list fin_maps.
From S2P Require Import Prelude Json JsonValue Redis RedisProg Errors FinalityTypes.
From S2P Require Import RecoveryLedger RecoveryChecks EngineProg RecoveryJournal RecoveryOps.

(** ** Inventory *)

Record RecoveryStatus := mkStatus {
  rs_schema : N;
  rs_deployment : string;
  rs_epoch : N;
  rs_checkpoint : N;
  rs_projection_pending : bool;
  rs_namespace : option string;
  rs_halted : bool;
  rs_halt_reason : option string;
  rs_admissions : nat;
  rs_attempts : nat;
  rs_terminal : nat;
  rs_quarantined : nat;
  rs_solana_intents : nat;
  rs_solana_broadcasts : N
}.

Definition count_state (s : AdmissionState) (l : Ledger) : nat :=
  length (filter (fun e => ad_state e.2 = s) (map_to_list (l_admissions l))).

(** [solana_projection::counts] *)
Definition solana_counts (schema : N) (l : Ledger) : recovery_result (nat * N) :=
  if (schema <? 3)%N then Ok (0, 0%N)
  else
    let? rows := solana_rows l in
    Ok (size rows, foldr (fun e acc => (so_broadcasts e.2 + acc)%N) 0%N (map_to_list rows)).

Definition status (l : Ledger) : recovery_result RecoveryStatus :=
  let? c := control l in
  let? pending := load_pending l c in
  let? (intents, broadcasts) := solana_counts (c_schema c) l in
  Ok (mkStatus (c_schema c) (c_deployment c) (c_epoch c) (c_checkpoint c)
        (bool_decide (is_Some pending)) (c_namespace c) (c_halted c) (c_reason c)
        (size (l_admissions l)) (length (l_attempts l))
        (count_state StTerminal l) (count_state StQuarantined l) intents broadcasts).

(** ** Helpers *)

(** The exclusive file lock. *)
Definition owner_lock : eprog (recovery_result unit) :=
  EPermit (fun free => ERet (if free then Ok tt else Err Locked)).
Definition path_exists : eprog (recovery_result bool) :=
  EDisk (fun d => Ok (match d with NoFile => false | _ => true end, d)) ERet.
Definition connection : eprog (recovery_result unit) :=
  EDisk (fun d => match d with NoFile => Err Missing | _ => Ok (tt, d) end) ERet.

Definition not_empty : RecoveryError := Invalid "destination Redis namespace is not empty".
Definition scan_empty (prefix : string) : eprog (recovery_result unit) :=
  do! keys := call (scan_prefix prefix) in
  ERet (if bool_decide (keys = []) then Ok tt else Err not_empty).
Definition empty_namespace (namespace : option string) : eprog (recovery_result unit) :=
  do! _ := ERet (namespace_valid namespace) in
  match namespace with
  | Some ns =>
      do! _ := scan_empty (ns +:+ ":") in
      scan_empty ("twmq:" +:+ ns +:+ "_")
  | None => scan_empty ""
  end.

Definition not_primary : RecoveryError := Invalid "Redis must be a writable primary".

Section Offline.
Context `{Primitives} `{!Json Value, !Json FinalityEvidence}.

(** ** Creation *)

Definition fresh_ledger (deployment run_id : string) (namespace : option string) : Ledger :=
  mkLedger (mkControl SCHEMA deployment 1 0 namespace run_id true (Some "initializing"))
    ∅ [] [] ∅ ∅ [] (Some None) (Some ∅).

Definition clear_halt (l : Ledger) : recovery_result (unit * Ledger) :=
  Ok (tt, set_control (with_halt false None (l_control l)) l).

(** [initialize]; [deployment] is the fresh uuid. *)
Definition initialize (deployment : string) (namespace : option string) : eprog (recovery_result unit) :=
  do! _ := ERet (namespace_valid namespace) in
  do! exists_ := path_exists in
  if (exists_ : bool) then ERet (Err (Invalid "ledger already exists"))
  else
    do! _ := owner_lock in
    do! _ := redis_connection in
    do! _ := empty_namespace namespace in
    do! (run_id, role, _) := observation (marker_key namespace) in
    if bool_decide (role <> "master") then ERet (Err not_primary)
    else
      do! _ := EDisk (fun d => match d with NoFile => Ok (tt, EmptyFile) | _ => Err Storage end) ERet in
      do! _ := EDisk (fun d => match d with
                               | EmptyFile => Ok (tt, LedgerFile (fresh_ledger deployment run_id namespace))
                               | _ => Err Storage end) ERet in
      do! c := db_read control in
      do! set := call (set_nx (control_key c) (token c)) in
      if negb set then ERet (Err (RecoveryRequired "initialization collision"))
      else db clear_halt.

(** ** Startup *)

(** [prepare_owned_startup]; creating the history indexes changes no row. *)
Definition prepare_owned_startup : eprog (recovery_result Control) :=
  do* checked := db_read validate_schema in
  do! _ := storage_result checked in
  do! _ := healthy_locked in
  do! _ := db_read (fun _ => Ok tt) in
  do! current := healthy_locked in
  if (c_schema current <? SCHEMA)%N then
    do* migrated := db (fun l => let? l' := migrate l in Ok (tt, l')) in
    do! _ := storage_result migrated in
    healthy_locked
  else ERet (Ok current).

Definition namespace_mismatch : RecoveryError := Invalid "configured namespace does not match ledger".

Definition open_journal (namespace : option string) : eprog (recovery_result unit) :=
  do! exists_ := path_exists in
  if negb exists_ then ERet (Err Missing)
  else
    do! _ := ERet (namespace_valid namespace) in
    do! _ := owner_lock in
    do! _ := connection in
    do! c := db_read control in
    if bool_decide (c_namespace c <> namespace) then ERet (Err namespace_mismatch)
    else
      do! _ := redis_connection in
      do! _ := prepare_owned_startup in
      ERet (Ok tt).

(** ** Durable stop *)

Definition quarantine : eprog (recovery_result unit) :=
  do! _ := owner_lock in
  do! _ := connection in
  do! _ := db_read control in
  db (fun l => Ok (tt, latch_halt "operator quarantine" l)).

(** ** Reattachment *)

Definition clearable (reason : option string) : bool :=
  bool_decide (reason ∈ [Some "Redis process changed"; Some "Redis continuity unavailable";
                         Some "Redis primary role changed"]).

Definition pending_value (p : option PendingUpdate) : Value :=
  match p with
  | None => VNull
  | Some p => VObject [("previous_token", VString (previous_token p)); ("target_token", VString (target_token p));
                       ("redis_key", VString (redis_key p)); ("run_id", VString (pending_run_id p))]
  end.
Definition namespace_value (ns : option string) : Value := from_option VString VNull ns.
Definition event_text (v : Value) : string := default "" (to_json v).

Definition with_run (run : string) (c : Control) : Control :=
  mkControl (c_schema c) (c_deployment c) (c_epoch c) (c_checkpoint c) (c_namespace c) run
    (c_halted c) (c_reason c).

Definition reattach_txn (c : Control) (pending : option PendingUpdate) (run : string) (l : Ledger)
    : recovery_result (unit * Ledger) :=
  let? now_control := control l in
  let changed := Err (RecoveryRequired "journal changed during reattach") in
  if bool_decide (now_control <> c) then changed
  else
    let? now_pending := load_pending l c in
    if bool_decide (now_pending <> pending) then changed
    else
      let? l1 := match pending with Some p => remove_exact p l | None => Ok l end in
      let l2 := set_control (with_halt false None (with_run run (l_control l1))) l1 in
      let event :=
        VObject [("action", VString "reattach"); ("previous_run_id", VString (c_run_id c));
                 ("run_id", VString run); ("acknowledged_pending", pending_value pending)] in
      Ok (tt, set_events (l_events l2 ++ [event_text event]) l2).

Definition reattach_failure (c : Control) (run : string)
    (seen : recovery_result (string * string * option string)) : option string :=
  match seen with
  | Err _ => Some "Redis continuity unavailable"
  | Ok (observed_run, role, marker) =>
      if bool_decide (marker <> Some (token c)) then Some "Redis checkpoint mismatch"
      else if bool_decide (role <> "master") then Some "Redis primary role changed"
      else if bool_decide (observed_run <> run) then Some "Redis process changed"
      else None
  end.

Definition reattach (namespace : option string) : eprog (recovery_result RecoveryStatus) :=
  do! _ := owner_lock in
  do! _ := connection in
  do! c := db_read control in
  do! _ := db_read validate_schema in
  do! pending := db_read (fun l => load_pending l c) in
  if bool_decide (c_namespace c <> namespace) then ERet (Err namespace_mismatch)
  else if c_halted c && negb (clearable (c_reason c))
  then ERet (Err (RecoveryRequired "halt cannot be cleared by reattach"))
  else
    do! _ := redis_connection in
    do! (run, role, marker) := observation (control_key c) in
    if bool_decide (role <> "master") || bool_decide (marker <> Some (token c))
    then ERet (Err (RecoveryRequired "reattach requires exact Redis checkpoint and primary role"))
    else
      do! _ := db (reattach_txn c pending run) in
      do* seen := observation (control_key c) in
      match reattach_failure c run seen with
      | Some reason =>
          do! _ := db (fun l => Ok (tt, latch_halt reason l)) in
          ERet (Err (RecoveryRequired reason))
      | None => db_read status
      end.

(** ** Recovery into a new namespace *)

(** [SELECT id FROM terminal_evidence GROUP BY id HAVING count( * )>1] *)
Definition terminal_conflict (l : Ledger) : bool :=
  existsb (fun e => 1 <? length (evidence_of e.1 l)) (l_terminal l).

(** [UPDATE admissions SET state='quarantined' WHERE state!='terminal' AND EXISTS(attempt)] *)
Definition quarantine_attempted (l : Ledger) : gmap string Admission :=
  map_imap (fun id a =>
    Some (if bool_decide (ad_state a <> StTerminal) && negb (bool_decide (attempts_of id l = []))
          then with_state StQuarantined a else a)) (l_admissions l).

Definition recovered_control (namespace : option string) (run : string) (c : Control) : Control :=
  mkControl SCHEMA (c_deployment c) (c_epoch c + 1) 0 namespace run true (Some "recovery incomplete").

Definition recover_txn (old : Control) (discarded : option PendingUpdate)
    (new_namespace : option string) (run : string) (l : Ledger) : recovery_result (unit * Ledger) :=
  let? projection :=
    (if (c_schema old =? 1)%N then create_table (l_projection l) None else Ok (l_projection l)) in
  let? solana :=
    (if (c_schema old <? SCHEMA)%N then create_table (l_solana l) ∅
     else let? _ := validate_schema l in Ok (l_solana l)) in
  let? _ := ok_or Storage projection in
  let event :=
    VObject [("action", VString "recover"); ("previous_namespace", namespace_value (c_namespace old));
             ("new_namespace", namespace_value new_namespace);
             ("previous_epoch", VNumber (PosInt (c_epoch old)));
             ("discarded_pending", pending_value discarded)] in
  Ok (tt,
      set_events (l_events l ++ [event_text event])
        (set_solana solana (set_projection (Some None)
          (set_admissions (quarantine_attempted l)
            (set_control (recovered_control new_namespace run (l_control l)) l))))).

Definition recover_load (l : Ledger) : recovery_result (Control * option PendingUpdate * bool) :=
  let? old := control l in
  let? pending := load_pending l old in
  Ok (old, pending, terminal_conflict l).

Definition recover (new_namespace : option string) : eprog (recovery_result RecoveryStatus) :=
  do! _ := ERet (namespace_valid new_namespace) in
  if bool_decide (new_namespace = None)
  then ERet (Err (Invalid "recovery requires a new explicit namespace"))
  else
    do! _ := owner_lock in
    do! _ := connection in
    do! (old, discarded, conflict) := db_read recover_load in
    if (conflict : bool)
    then ERet (Err (RecoveryRequired "conflicting terminal evidence requires dedicated reconciliation"))
    else if bool_decide (c_namespace old = new_namespace)
    then ERet (Err (Invalid "recovery must use a different empty namespace"))
    else if (c_epoch old =? I64_MAX)%N then ERet (Err (Invalid "deployment epoch exhausted"))
    else
      do! _ := redis_connection in
      do! _ := empty_namespace new_namespace in
      do! (run, role, _) := observation (marker_key new_namespace) in
      if bool_decide (role <> "master") then ERet (Err not_primary)
      else
        do! _ := db (recover_txn old discarded new_namespace run) in
        do! c := db_read control in
        do! set := call (set_nx (control_key c) (token c)) in
        if negb set then ERet (Err (RecoveryRequired "recovery namespace collision"))
        else
          do! (current_run, current_role, current_marker) := observation (control_key c) in
          if bool_decide (current_run <> c_run_id c) || bool_decide (current_role <> "master")
             || bool_decide (current_marker <> Some (token c))
          then ERet (Err (RecoveryRequired "Redis changed during recovery"))
          else
            do! _ := db clear_halt in
            db_read status.
End Offline.
