(* ===== verification/RecoverySpec.v ===== *)
(** What the recovery ledger promises: an invariant of every ledger, and how a ledger
    may change over its whole life, whichever operations run, fail or crash. *)

From Stdlib Require Import String Ascii NArith Lia.
From stdpp Require Import base gmap strings option list fin_maps relations.
From S2P Require Import Prelude Json JsonValue Redis RedisProg Errors FinalityTypes.
From S2P Require Import RecoveryLedger RecoveryChecks EngineProg RecoveryJournal RecoveryOps.
From S2P Require Import RecoveryOffline.

(** ** The invariant *)

Record ledger_ok (l : Ledger) : Prop := {
  (** the schema is known and its tables are there, no others *)
  ok_schema : c_schema (l_control l) ∈ [1; 2; SCHEMA]%N;
  ok_projection : is_Some (l_projection l) <-> (2 <= c_schema (l_control l))%N;
  ok_solana_table : is_Some (l_solana l) <-> (3 <= c_schema (l_control l))%N;
  (** a pending publication leads exactly to the current checkpoint *)
  ok_pending p : l_projection l = Some (Some p) -> validate_pending p (l_control l) = Ok tt;
  (** every attempt carries the replay key its admission is bound to *)
  ok_attempt a : a ∈ l_attempts l ->
    ∃ ad, l_admissions l !! at_id a = Some ad /\ ad_replay_key ad = Some (at_replay_key a);
  (** an admission is bound to a key only with an attempt *)
  ok_bound i ad k : l_admissions l !! i = Some ad -> ad_replay_key ad = Some k ->
    attempts_of i l <> [];
  (** a replay key has one owner *)
  ok_owner i j ad ad' k : l_admissions l !! i = Some ad -> l_admissions l !! j = Some ad' ->
    ad_replay_key ad = Some k -> ad_replay_key ad' = Some k -> i = j;
  ok_digest : NoDup (map (fun a => (at_id a, at_digest a)) (l_attempts l));
  (** terminal means evidence, an end means an attempt, evidence means an admission *)
  ok_terminal i ad : l_admissions l !! i = Some ad ->
    (ad_state ad = StTerminal <-> evidence_of i l <> []);
  ok_ended i ad : l_admissions l !! i = Some ad -> ad_state ad <> StAdmitted -> is_Some (ad_replay_key ad);
  ok_evidence e : e ∈ l_terminal l -> is_Some (l_admissions l !! e.1);
  (** contradicting evidence stops everything *)
  ok_conflict : terminal_conflict l = true ->
    c_halted (l_control l) = true /\ c_reason (l_control l) = Some "terminal evidence conflict";
  (** recovery budgets *)
  ok_budget rows i r : l_solana l = Some rows -> rows !! i = Some r ->
    (so_broadcasts r <= MAX_SOLANA_RECOVERY_BROADCASTS)%N /\
    (so_broadcasts r = 0%N <-> so_last_broadcast_at r = 0%N) /\
    ∃ ad, l_admissions l !! i = Some ad /\ ad_kind ad = "solana"
}.

(** ** History *)

Definition admission_kept (a a' : Admission) : Prop :=
  ad_kind a' = ad_kind a /\ ad_fingerprint a' = ad_fingerprint a /\ ad_payload a' = ad_payload a /\
  (∀ k, ad_replay_key a = Some k -> ad_replay_key a' = Some k) /\
  (ad_state a = StTerminal -> ad_state a' = StTerminal) /\
  (ad_state a = StQuarantined -> ad_state a' = StQuarantined).

(** Grants only add up, and a later grant is at least an interval after each earlier
    one. *)
Definition budget_kept (r r' : SolanaRow) : Prop :=
  so_attempt_digest r' = so_attempt_digest r /\ (so_broadcasts r <= so_broadcasts r')%N /\
  ((0 < so_broadcasts r)%N ->
   (so_last_broadcast_at r + RECOVERY_BROADCAST_INTERVAL_MS * (so_broadcasts r' - so_broadcasts r)
      <= so_last_broadcast_at r')%N).

Definition checkpoint_kept (e e' : FinalityEvidence) : Prop :=
  fe_policy e' = fe_policy e /\ (fe_checkpoint_number e <= fe_checkpoint_number e')%N /\
  (fe_checkpoint_number e' = fe_checkpoint_number e -> fe_checkpoint_hash e' = fe_checkpoint_hash e).

(** Tokens of a deployment move forward: first the epoch, then the checkpoint. *)
Definition version_le (c c' : Control) : Prop :=
  c_deployment c' = c_deployment c /\ (c_schema c <= c_schema c')%N /\
  ((c_epoch c < c_epoch c')%N \/
   (c_epoch c = c_epoch c' /\ (c_checkpoint c <= c_checkpoint c')%N /\ c_namespace c' = c_namespace c)).

Section History.
Context `{!Json FinalityEvidence}.

Record evolves (l l' : Ledger) : Prop := {
  ev_version : version_le (l_control l) (l_control l');
  ev_admissions i a : l_admissions l !! i = Some a ->
    ∃ a', l_admissions l' !! i = Some a' /\ admission_kept a a';
  ev_attempts : l_attempts l `prefix_of` l_attempts l';
  ev_terminal : l_terminal l `prefix_of` l_terminal l';
  ev_events : l_events l `prefix_of` l_events l';
  ev_chain_halts : l_chain_halts l ⊆ l_chain_halts l';
  ev_checkpoints chain e : load_chain_checkpoint l chain = Ok (Some e) ->
    ∃ e', load_chain_checkpoint l' chain = Ok (Some e') /\ checkpoint_kept e e';
  ev_budgets rows i r : l_solana l = Some rows -> rows !! i = Some r ->
    ∃ rows' r', l_solana l' = Some rows' /\ rows' !! i = Some r' /\ budget_kept r r'
}.

Lemma version_le_refl c : version_le c c.
Proof. unfold version_le. split_and!; [done|lia|right]. split_and!; [done|lia|done]. Qed.
Lemma admission_kept_refl a : admission_kept a a.
Proof. by split_and!. Qed.
Lemma budget_kept_refl r : budget_kept r r.
Proof. split_and!; [done|lia|]. intros _. lia. Qed.
Lemma checkpoint_kept_refl e : checkpoint_kept e e.
Proof. by split_and!. Qed.

#[export] Instance evolves_preorder : PreOrder evolves.
Proof.
  split.
  - intros l. split; eauto using version_le_refl, admission_kept_refl, budget_kept_refl, checkpoint_kept_refl.
  - intros l1 l2 l3 H1 H2. split.
    + destruct (ev_version _ _ H1) as (?&?&Ho1), (ev_version _ _ H2) as (?&?&Ho2).
      split_and!; [congruence|lia|]. destruct Ho1 as [|(?&?&?)], Ho2 as [|(?&?&?)];
        [left; lia|left; lia|left; lia|right]. split_and!; [lia|lia|congruence].
    + intros i a Ha. destruct (ev_admissions _ _ H1 _ _ Ha) as (a2 & Ha2 & Hk1).
      destruct (ev_admissions _ _ H2 _ _ Ha2) as (a3 & Ha3 & Hk2). exists a3. split; [done|].
      destruct Hk1 as (?&?&?&?&?&?), Hk2 as (?&?&?&?&?&?). split_and!; try congruence; eauto.
    + etrans; [apply H1|apply H2].
    + etrans; [apply H1|apply H2].
    + etrans; [apply H1|apply H2].
    + etrans; [apply H1|apply H2].
    + intros chain e He. destruct (ev_checkpoints _ _ H1 _ _ He) as (e2 & He2 & Hk1).
      destruct (ev_checkpoints _ _ H2 _ _ He2) as (e3 & He3 & Hk2). exists e3. split; [done|].
      destruct Hk1 as (?&?&Hh1), Hk2 as (?&?&Hh2). split_and!; [congruence|lia|].
      intros Heq. rewrite Hh2, Hh1 by lia. done.
    + intros rows i r Hrows Hr. destruct (ev_budgets _ _ H1 _ _ _ Hrows Hr) as (rows2&r2&Hrows2&Hr2&Hk1).
      destruct (ev_budgets _ _ H2 _ _ _ Hrows2 Hr2) as (rows3&r3&Hrows3&Hr3&Hk2).
      exists rows3, r3. split_and!; [done..|].
      destruct Hk1 as (?&?&Ht1), Hk2 as (?&?&Ht2). split_and!; [congruence|lia|].
      intros Hpos. specialize (Ht1 Hpos). specialize (Ht2 ltac:(lia)).
      unfold RECOVERY_BROADCAST_INTERVAL_MS in *. lia.
Qed.
End History.

(** ** Tokens *)

Lemma u64_to_string_no_colon n : no_colon (u64_to_string n).
Proof. by apply u64_to_string_no_char. Qed.

(** Tokens of one deployment determine schema, epoch and checkpoint. *)
Lemma token_text_inj d s e c s' e' c' :
  token_text s d e c = token_text s' d e' c' -> s = s' /\ e = e' /\ c = c'.
Proof.
  unfold token_text. intros Heq. apply (string_app_inj_l "v") in Heq.
  destruct (split_first_colon (u64_to_string s) (d +:+ ":" +:+ u64_to_string e +:+ ":" +:+ u64_to_string c)
              (u64_to_string s') (d +:+ ":" +:+ u64_to_string e' +:+ ":" +:+ u64_to_string c'))
    as [Hs Hrest]; [apply u64_to_string_no_colon..|exact Heq|].
  apply string_app_inj_l in Hrest. apply (string_app_inj_l ":") in Hrest.
  destruct (split_first_colon (u64_to_string e) (u64_to_string c) (u64_to_string e') (u64_to_string c'))
    as [He Hc]; [apply u64_to_string_no_colon..|exact Hrest|].
  apply u64_to_string_inj in Hs, He, Hc. done.
Qed.

Lemma validate_pending_Ok p c :
  validate_pending p c = Ok tt ->
  (2 <= c_schema c)%N /\ (c_schema c <= SCHEMA)%N /\ target_token p = token c /\
  redis_key p = control_key c /\ pending_run_id p = c_run_id c /\
  ((0 < c_checkpoint c)%N /\ previous_token p = token (with_checkpoint (c_checkpoint c - 1) c) \/
   ∃ s, (s < c_schema c)%N /\ previous_token p = token (with_schema s c)).
Proof.
  unfold validate_pending. destruct (_ || _) eqn:E; [done|]. intros _.
  apply orb_false_iff in E as [E Hprev]. apply negb_false_iff, orb_true_iff in Hprev.
  apply orb_false_iff in E as [E Hrun]. apply orb_false_iff in E as [E Hkey].
  apply orb_false_iff in E as [E Htarget]. b2p.
  apply dec_stable in Htarget, Hkey, Hrun. split_and!; [done|done|done|done|done|].
  destruct Hprev as [Hs|Hm]; [left; b2p; done|right].
  apply existsb_exists in Hm as (s & Hs & Hp). apply list_elem_of_In, list_elem_of_filter in Hs as [? _].
  b2p. eauto.
Qed.

(** What [record_pending] writes is always valid. *)
Lemma validate_pending_next c c' :
  (2 <= c_schema c)%N -> (c_schema c <= SCHEMA)%N -> c' = with_checkpoint (c_checkpoint c + 1) c ->
  validate_pending (between c c') c' = Ok tt.
Proof.
  intros H1 H2 ->. unfold validate_pending, between. cbn [target_token redis_key pending_run_id previous_token].
  rewrite !bool_decide_false by (intros Hne; by apply Hne).
  cbn [c_schema with_checkpoint c_checkpoint].
  rewrite (proj2 (N.leb_le _ _) H1), (proj2 (N.leb_le _ _) H2). cbn [negb andb orb].
  rewrite (proj2 (N.ltb_lt _ _)) by lia.
  rewrite bool_decide_true; [done|]. unfold token. cbn. do 2 f_equal. lia.
Qed.
