(* ===== verification/RecoveryKeeps.v ===== *)
(** Every transaction of the journal keeps the ledger's invariant and its history. *)

From Stdlib Require Import String Ascii NArith Lia.
From stdpp Require Import base gmap strings option list fin_maps relations.
From S2P Require Import Prelude Json JsonValue Redis RedisProg Errors FinalityTypes.
From S2P Require Import RecoveryLedger RecoveryChecks EngineProg RecoveryJournal RecoveryOps.
From S2P Require Import RecoveryOffline RecoverySpec.

(** ** Statements *)

Lemma filter_empty {A} (P : A -> Prop) `{∀ x, Decision (P x)} (l : list A) :
  filter P l = [] <-> ∀ x, x ∈ l -> ~ P x.
Proof.
  split.
  - intros Hf x Hx Hp. by apply (filter_nil_not_elem_of P l x Hf).
  - intros Hn. destruct (filter P l) as [|x l'] eqn:E; [done|].
    assert (x ∈ filter P l) as [Hp Hx]%list_elem_of_filter by (rewrite E; set_solver).
    by destruct (Hn x Hx).
Qed.

Lemma replay_owner_None key l :
  replay_owner key l = None -> ∀ i ad, l_admissions l !! i = Some ad -> ad_replay_key ad <> Some key.
Proof.
  unfold replay_owner. intros Hf i ad Hi Hk.
  destruct (find _ _) eqn:E; [done|].
  eapply find_none in E; [|apply list_elem_of_In, elem_of_map_to_list, Hi].
  cbn in E. by rewrite bool_decide_true in E.
Qed.

Lemma replay_owner_Some key l i :
  replay_owner key l = Some i -> ∃ ad, l_admissions l !! i = Some ad /\ ad_replay_key ad = Some key.
Proof.
  unfold replay_owner. destruct (find _ _) as [[j ad]|] eqn:E; [|done]. intros [= <-].
  apply find_some in E as [Hin Hk]. cbn in Hk. b2p. exists ad. split; [|done].
  by apply elem_of_map_to_list, list_elem_of_In.
Qed.

Lemma attempts_of_nil i l : attempts_of i l = [] <-> ∀ a, a ∈ l_attempts l -> at_id a <> i.
Proof. apply filter_empty. Qed.

Lemma evidence_of_nil i l : evidence_of i l = [] <-> ∀ e, e ∈ l_terminal l -> e.1 <> i.
Proof.
  unfold evidence_of. rewrite <- (filter_empty (fun e => e.1 = i) (l_terminal l)).
  split; [apply fmap_nil_inv|]. by intros ->.
Qed.

Lemma advance_Ok l old l' :
  advance l = Ok (old, l') ->
  old = l_control l /\ (2 <= c_schema old)%N /\ (c_schema old <= SCHEMA)%N /\
  (c_checkpoint old <> I64_MAX) /\ l_projection l = Some None /\
  let c' := with_checkpoint (c_checkpoint old + 1) old in
  l' = set_projection (Some (Some (between old c'))) (set_control c' l).
Proof.
  unfold advance, control. case_bool_decide as Hs; [|done].
  destruct (N.eqb_spec (c_checkpoint (l_control l)) I64_MAX); [done|].
  cbn [l_control set_control c_schema with_checkpoint]. rewrite bool_decide_true by done.
  unfold record_pending. destruct (validate_pending _ _) as [[]|] eqn:Hv; [|done].
  cbn [l_projection set_control]. destruct (l_projection l) as [[]|]; [done| |done].
  intros [= <- <-]. apply validate_pending_Ok in Hv as (?&?&_). by split_and!.
Qed.

Section Keeps.
Context `{Primitives} `{!Json Value, !Json FinalityEvidence}.

Definition kept (l l' : Ledger) : Prop := ledger_ok l' /\ evolves l l'.
Definition keeps {B} (f : Ledger -> recovery_result (B * Ledger)) : Prop :=
  ∀ l b l', ledger_ok l -> f l = Ok (b, l') -> kept l l'.

Lemma kept_refl l : ledger_ok l -> kept l l.
Proof. by split. Qed.
Lemma kept_trans l1 l2 l3 : kept l1 l2 -> kept l2 l3 -> kept l1 l3.
Proof. intros [? ?] [? ?]. split; [done|]. by etrans. Qed.

(** A change that leaves a table alone keeps what the table promised. *)
Local Hint Resolve version_le_refl admission_kept_refl budget_kept_refl checkpoint_kept_refl : core.
Ltac same_version := apply version_le_refl ||
  (unfold version_le; cbn; split_and!; [done|lia|right; split_and!; [done|lia|done]]).
Ltac same_history := split; cbn; try same_version; eauto.

Lemma keeps_reading {B} (f : Ledger -> recovery_result B) : keeps (reading f).
Proof.
  intros l b l' Hok. unfold reading. destruct (f l); [|done]. intros [= <- <-]. by apply kept_refl.
Qed.

Lemma kept_advance l old l' : ledger_ok l -> advance l = Ok (old, l') -> kept l l'.
Proof.
  intros Hok (-> & H1 & H2 & _ & Hp & ->)%advance_Ok. split.
  - destruct Hok. split; cbn; try done.
    intros p [= <-]. by apply validate_pending_next.
  - same_history.
Qed.

Lemma kept_insert_admission i kind fp enc l l' :
  ledger_ok l -> insert_admission i kind fp enc l = Ok l' -> kept l l'.
Proof.
  unfold insert_admission. destruct (l_admissions l !! i) as [|] eqn:Hi; [done|].
  intros Hok [= <-]. 
  assert (attempts_of i l = []) as Hno.
  { apply attempts_of_nil. intros a Ha <-. destruct ((ok_attempt _ Hok) a Ha) as (?&?&_). congruence. }
  assert (evidence_of i l = []) as Hne.
  { apply evidence_of_nil. intros e He <-. destruct ((ok_evidence _ Hok) e He). congruence. }
  split.
  - split; cbn [l_control l_admissions l_attempts l_terminal l_projection l_solana set_admissions]; try (by destruct Hok).
    + intros a Ha. destruct ((ok_attempt _ Hok) a Ha) as (ad & Had & Hk). exists ad. split; [|done].
      rewrite lookup_insert_ne; [done|]. intros ->. congruence.
    + intros j ad k. destruct (decide (i = j)) as [<-|Hij].
      * rewrite lookup_insert_eq. by intros [= <-].
      * rewrite lookup_insert_ne by done. apply (ok_bound _ Hok).
    + intros j j' ad ad' k. destruct (decide (i = j)) as [<-|Hij].
      { rewrite lookup_insert_eq. by intros [= <-]. }
      destruct (decide (i = j')) as [<-|Hij'].
      { rewrite lookup_insert_eq. intros _ [= <-]. done. }
      rewrite !lookup_insert_ne by done. apply (ok_owner _ Hok).
    + intros j ad. destruct (decide (i = j)) as [<-|Hij].
      * rewrite lookup_insert_eq. intros [= <-]. cbn. unfold evidence_of in Hne |- *. cbn.
        rewrite Hne. naive_solver.
      * rewrite lookup_insert_ne by done. apply (ok_terminal _ Hok).
    + intros j ad. rewrite lookup_insert. case_decide; [by intros [= <-]|]. apply (ok_ended _ Hok).
    + intros e He. destruct (decide (i = e.1)) as [<-|]; [rewrite lookup_insert_eq; eauto|].
      rewrite lookup_insert_ne by done. by apply (ok_evidence _ Hok).
    + intros rows j r Hrows Hr. destruct ((ok_budget _ Hok) rows j r Hrows Hr) as (?&?&ad&Had&?).
      split_and!; [done|done|]. exists ad. rewrite lookup_insert_ne; [done|].
      intros ->. congruence.
  - same_history. intros j a Ha. exists a. rewrite lookup_insert_ne; [done|]. intros ->. congruence.
Qed.

(** ** Attempts *)

(** The UPDATE binds the key, and nobody else holds it. *)
Lemma update_replay_key_Ok i key ad l l1 :
  ledger_ok l -> l_admissions l !! i = Some ad ->
  ad_replay_key ad = None \/ ad_replay_key ad = Some key ->
  update_replay_key i key l = Ok l1 ->
  l1 = set_admissions (<[i := mkAdmission (ad_kind ad) (ad_fingerprint ad) (ad_payload ad) (ad_state ad)
                                (Some key)]> (l_admissions l)) l /\
  (∀ j a, l_admissions l !! j = Some a -> ad_replay_key a = Some key -> j = i).
Proof.
  intros Hok Hi Hkey Hu. unfold update_replay_key in Hu. rewrite Hi in Hu.
  destruct (replay_owner key l) as [o|] eqn:Ho.
  - apply replay_owner_Some in Ho as (a & Ha & Hk). case_decide; [|done]. injection Hu as <-. subst o.
    split; [|intros j b Hb Hkb; by eapply (ok_owner _ Hok)]. rewrite Hi in Ha. injection Ha as <-.
    replace (mkAdmission _ _ _ _ _) with ad by (destruct ad; cbn in *; congruence).
    rewrite insert_id by done. by destruct l.
  - injection Hu as <-. split; [done|]. intros j a Ha Hk. by destruct (replay_owner_None _ _ Ho _ _ Ha).
Qed.

(** Binding a key and recording the attempt, as [before_broadcast] does once its
    checks passed. *)
Lemma kept_bind_attempt i key digest enc ad l l1 l2 :
  ledger_ok l -> l_admissions l !! i = Some ad ->
  ad_replay_key ad = None \/ ad_replay_key ad = Some key ->
  update_replay_key i key l = Ok l1 -> insert_attempt (mkAttempt i key digest enc) l1 = Ok l2 ->
  kept l l2 /\
  l_attempts l2 = l_attempts l ++ [mkAttempt i key digest enc] /\
  l_admissions l2 = <[i := mkAdmission (ad_kind ad) (ad_fingerprint ad) (ad_payload ad) (ad_state ad)
                          (Some key)]> (l_admissions l) /\
  l_chain_halts l2 = l_chain_halts l /\ l_solana l2 = l_solana l.
Proof.
  intros Hok Hi Hkey Hu Hins.
  set (ad' := mkAdmission (ad_kind ad) (ad_fingerprint ad) (ad_payload ad) (ad_state ad) (Some key)).
  destruct (update_replay_key_Ok i key ad l l1 Hok Hi Hkey Hu) as [-> Hown].
  unfold insert_attempt in Hins. destruct (_ && _) eqn:Hc; [|done]. injection Hins as <-.
  apply andb_true_iff in Hc as [_ Hfresh]. apply negb_true_iff in Hfresh.
  cbn [l_attempts set_admissions] in Hfresh.
  split_and!; [|done..]. split.
  - split; cbn [l_control l_admissions l_attempts l_terminal l_projection l_solana set_admissions set_attempts];
      try (by destruct Hok).
    + intros a [Ha| ->%list_elem_of_singleton]%elem_of_app; [|exists ad'; by rewrite lookup_insert_eq].
      destruct (ok_attempt _ Hok a Ha) as (b & Hb & Hk). destruct (decide (at_id a = i)) as [<-|].
      * exists ad'. rewrite lookup_insert_eq. split; [done|]. cbn. rewrite Hi in Hb. injection Hb as ->.
        destruct Hkey; congruence.
      * exists b. by rewrite lookup_insert_ne.
    + intros j a k Ha Hk. unfold attempts_of. cbn. rewrite filter_app, filter_cons. cbn.
      destruct (decide (i = j)); [by intros [_ ?]%app_nil|].
      rewrite lookup_insert_ne in Ha by done. rewrite app_nil_r.
      by apply (ok_bound _ Hok _ _ _ Ha Hk).
    + intros j j' a a' k Ha Ha' Hk Hk'.
      destruct (decide (i = j)) as [<-|Hj], (decide (i = j')) as [<-|Hj']; [done|..].
      * rewrite lookup_insert_eq in Ha. rewrite lookup_insert_ne in Ha' by done. simplify_eq/=.
        symmetry. by eapply Hown.
      * rewrite lookup_insert_eq in Ha'. rewrite lookup_insert_ne in Ha by done. simplify_eq/=.
        by eapply Hown.
      * rewrite !lookup_insert_ne in Ha, Ha' by done. by eapply (ok_owner _ Hok).
    + rewrite map_app. apply NoDup_app. split_and!; [apply Hok| |apply NoDup_singleton].
      intros p Hp ->%list_elem_of_singleton. apply list_elem_of_fmap in Hp as (b & Hb & Hin).
      rewrite <- not_true_iff_false in Hfresh. apply Hfresh, existsb_exists. exists b.
      split; [by apply list_elem_of_In|]. apply bool_decide_eq_true. cbn in *. by injection Hb as <- <-.
    + intros j a. destruct (decide (i = j)) as [<-|].
      * rewrite lookup_insert_eq. intros [= <-]. apply (ok_terminal _ Hok i ad Hi).
      * rewrite lookup_insert_ne by done. apply (ok_terminal _ Hok).
    + intros j a. rewrite lookup_insert. case_decide; [by intros [= <-]|]. apply (ok_ended _ Hok).
    + intros e He. destruct (decide (i = e.1)) as [<-|]; [rewrite lookup_insert_eq; eauto|].
      rewrite lookup_insert_ne by done. by apply (ok_evidence _ Hok).
    + intros rows j r Hrows Hr. destruct (ok_budget _ Hok rows j r Hrows Hr) as (?&?&a&Ha&?).
      split_and!; [done|done|]. destruct (decide (i = j)) as [<-|].
      * exists ad'. rewrite lookup_insert_eq. split; [done|]. cbn. congruence.
      * exists a. by rewrite lookup_insert_ne.
  - same_history.
    + intros j a Ha. destruct (decide (i = j)) as [<-|]; [|exists a; by rewrite lookup_insert_ne].
      exists ad'. rewrite lookup_insert_eq. split; [done|]. rewrite Hi in Ha. injection Ha as <-.
      unfold admission_kept. cbn. split_and!; try done. intros k Hk. destruct Hkey; congruence.
    + by apply prefix_app_r.
Qed.

(** ** Terminal evidence *)

Lemma terminal_conflict_iff l : terminal_conflict l = true <-> ∃ i, 1 < length (evidence_of i l).
Proof.
  unfold terminal_conflict. rewrite existsb_exists. split.
  - intros (e & _ & He%Nat.ltb_lt). eauto.
  - intros [i Hi]. destruct (evidence_of i l) as [|v vs] eqn:E; [cbn in Hi; lia|].
    assert (v ∈ evidence_of i l) as Hv by (rewrite E; set_solver).
    unfold evidence_of in Hv. apply list_elem_of_fmap in Hv as (e & -> & He).
    apply list_elem_of_filter in He as [<- He]. exists e. split; [by apply list_elem_of_In|].
    apply Nat.ltb_lt. by rewrite E.
Qed.

Lemma evidence_of_snoc i j v l :
  evidence_of i (set_terminal (l_terminal l ++ [(j, v)]) l) =
  evidence_of i l ++ (if decide (j = i) then [v] else []).
Proof.
  unfold evidence_of. cbn. rewrite filter_app, fmap_app, filter_cons. cbn. by case_decide.
Qed.

Lemma evidence_of_terminal l l' i : l_terminal l = l_terminal l' -> evidence_of i l = evidence_of i l'.
Proof. unfold evidence_of. by intros ->. Qed.

Lemma insert_terminal_Ok i v l l1 :
  insert_terminal i v l = Ok l1 ->
  is_Some (l_admissions l !! i) /\ l1 = set_terminal (l_terminal l ++ [(i, v)]) l.
Proof. unfold insert_terminal. case_bool_decide; [|done]. by intros [= <-]. Qed.

Lemma lookup_update_state i st l j :
  l_admissions (update_state i st l) !! j =
  (fun a => if decide (i = j) then with_state st a else a) <$> l_admissions l !! j.
Proof.
  cbn. rewrite lookup_alter. case_decide; subst; [done|]. by destruct (l_admissions l !! j).
Qed.

(** The first witness of an admission makes it terminal. *)
Lemma kept_conclude i ad v l l1 :
  ledger_ok l -> l_admissions l !! i = Some ad -> ad_state ad = StAdmitted -> is_Some (ad_replay_key ad) ->
  insert_terminal i v l = Ok l1 -> kept l (update_state i StTerminal l1).
Proof.
  intros Hok Hi Hst Hbound (_ & ->)%insert_terminal_Ok.
  assert (evidence_of i l = []) as Hnone.
  { destruct (evidence_of i l) eqn:E; [done|]. destruct (ok_terminal _ Hok i ad Hi) as [_ Ht].
    rewrite E in Ht. rewrite Hst in Ht. by specialize (Ht ltac:(done)). }
  assert (∀ j, evidence_of j (update_state i StTerminal (set_terminal (l_terminal l ++ [(i, v)]) l)) =
    evidence_of j l ++ (if decide (i = j) then [v] else [])) as Hev.
  { intros j. rewrite <- evidence_of_snoc. by apply evidence_of_terminal. }
  assert (∀ j a', l_admissions (update_state i StTerminal (set_terminal (l_terminal l ++ [(i, v)]) l)) !! j = Some a' ->
    ∃ a, l_admissions l !! j = Some a /\ a' = if decide (i = j) then with_state StTerminal a else a) as Hadm.
  { intros j a'. rewrite lookup_update_state. intros (a & Ha & ->)%fmap_Some. eauto. }
  split.
  - split; try (by destruct Hok).
    + intros a Ha. destruct (ok_attempt _ Hok a Ha) as (b & Hb & Hk).
      rewrite lookup_update_state. cbn. rewrite Hb. eexists. split; [done|]. rewrite <- Hk. by case_decide.
    + intros j a' k (a & Ha & ->)%Hadm Hk. apply (ok_bound _ Hok j a k Ha). by case_decide.
    + intros j j' a a' k (b & Hb & ->)%Hadm (b' & Hb' & ->)%Hadm Hk Hk'.
      apply (ok_owner _ Hok j j' b b' k Hb Hb'); repeat case_decide; done.
    + intros j a' (a & Ha & ->)%Hadm. rewrite Hev. case_decide as Hj.
      * split; [|done]. intros _ [_ ?]%app_nil. done.
      * rewrite app_nil_r. by apply (ok_terminal _ Hok).
    + intros j a' (a & Ha & ->)%Hadm. case_decide as Hj; [|by apply (ok_ended _ Hok j)].
      subst j. rewrite Hi in Ha. by injection Ha as <-.
    + intros e He. rewrite lookup_update_state, fmap_is_Some. cbn in *.
      apply elem_of_app in He as [He| ->%list_elem_of_singleton]; [by apply (ok_evidence _ Hok)|cbn; eauto].
    + rewrite terminal_conflict_iff. intros [j Hj]. rewrite Hev in Hj.
      apply (ok_conflict _ Hok), terminal_conflict_iff. case_decide; [subst; rewrite Hnone in Hj; cbn in Hj; lia|].
      rewrite app_nil_r in Hj. eauto.
    + intros rows j r Hrows Hr. destruct (ok_budget _ Hok rows j r Hrows Hr) as (?&?&a&Ha&?).
      split_and!; [done|done|]. rewrite lookup_update_state. cbn. rewrite Ha. eexists. split; [done|]. by case_decide.
  - split; try by (cbn; eauto).
    + intros j a Ha. rewrite lookup_update_state. cbn. rewrite Ha. eexists. split; [done|].
      case_decide; [|done]. subst j. rewrite Hi in Ha. injection Ha as <-.
      unfold admission_kept. cbn. split_and!; try done. congruence.
    + cbn. by apply prefix_app_r.
Qed.

(** A different witness for a terminal admission is kept and stops the ledger. *)
Lemma kept_contradict i ad v l l1 :
  ledger_ok l -> l_admissions l !! i = Some ad -> ad_state ad = StTerminal ->
  insert_terminal i v l = Ok l1 ->
  kept l (set_control (with_halt true (Some "terminal evidence conflict") (l_control l1)) l1).
Proof.
  intros Hok Hi Hst (_ & ->)%insert_terminal_Ok. split.
  - split; try (by destruct Hok).
    + intros j a Ha. cbn in Ha. rewrite (evidence_of_terminal _ (set_terminal (l_terminal l ++ [(i, v)]) l)), evidence_of_snoc by done.
      case_decide; [subst j; rewrite Hi in Ha; injection Ha as <-|rewrite app_nil_r; by apply (ok_terminal _ Hok)].
      split; [|done]. intros _ [_ ?]%app_nil. done.
    + intros e He. cbn in *. apply elem_of_app in He as [He| ->%list_elem_of_singleton]; [by apply (ok_evidence _ Hok)|cbn; eauto].
  - same_history. by apply prefix_app_r.
Qed.

(** ** Control, chains and budgets *)

(** Changing the control row only: the tokens may not move back, and a halt for
    contradicting evidence stays. *)
Lemma kept_control c l :
  ledger_ok l -> c_schema c = c_schema (l_control l) -> version_le (l_control l) c ->
  (∀ p, l_projection l = Some (Some p) -> validate_pending p c = Ok tt) ->
  (terminal_conflict l = true -> c_halted c = true /\ c_reason c = Some "terminal evidence conflict") ->
  kept l (set_control c l).
Proof.
  intros Hok Hs Hv Hp Hc. split.
  - destruct Hok. split; cbn; rewrite ?Hs; done.
  - same_history.
Qed.

Lemma validate_pending_halt p h r c : validate_pending p (with_halt h r c) = validate_pending p c.
Proof. reflexivity. Qed.

Lemma kept_latch_halt reason l : ledger_ok l -> kept l (latch_halt reason l).
Proof.
  intros Hok. apply kept_control; [done|done|same_version| |].
  - intros p Hp. rewrite validate_pending_halt. by apply (ok_pending _ Hok).
  - intros Hc. destruct (ok_conflict _ Hok Hc) as [_ Hr]. cbn. by rewrite Hr.
Qed.

Lemma kept_clear_halt l :
  ledger_ok l -> terminal_conflict l = false ->
  kept l (set_control (with_halt false None (l_control l)) l).
Proof.
  intros Hok Hc. apply kept_control; [done|done|same_version| |congruence].
  intros p Hp. rewrite validate_pending_halt. by apply (ok_pending _ Hok).
Qed.

Lemma kept_projection l :
  ledger_ok l -> is_Some (l_projection l) -> kept l (set_projection (Some None) l).
Proof.
  intros Hok Hp. split; [|same_history]. pose proof (ok_projection _ Hok).
  destruct Hok. split; cbn; try done. split; [tauto|eauto].
Qed.

Lemma kept_remove_exact p l l' : ledger_ok l -> remove_exact p l = Ok l' -> kept l l'.
Proof.
  unfold remove_exact. destruct (l_projection l) as [[q|]|] eqn:E; [|done..].
  case_decide; [|done]. intros Hok [= <-]. apply kept_projection; [done|]. by rewrite E.
Qed.

Lemma kept_acknowledge p l l' : ledger_ok l -> acknowledge p l = Ok l' -> kept l l'.
Proof.
  intros Hok. unfold acknowledge. destruct (control l); [|done]. destruct (validate_pending _ _); [|done].
  destruct (c_halted a); [done|]. destruct (load_pending l a); [|done]. case_decide; [|done].
  by apply kept_remove_exact.
Qed.

Lemma kept_chain_halt chain reason l : ledger_ok l -> kept l (insert_chain_halt chain reason l).
Proof.
  intros Hok. unfold insert_chain_halt. destruct (l_chain_halts l !! chain) eqn:E; [by apply kept_refl|].
  split; [by destruct Hok; split|]. same_history. by apply insert_subseteq.
Qed.

(** A stored checkpoint replaces one it extends. *)
Lemma kept_store_checkpoint chain e enc l :
  ledger_ok l -> to_json e = Some enc ->
  (∀ e0, load_chain_checkpoint l chain = Ok (Some e0) -> checkpoint_kept e0 e) ->
  kept l (set_chain_checkpoints (<[u64_to_string chain := enc]> (l_chain_checkpoints l)) l).
Proof.
  intros Hok Henc Hext. split; [by destruct Hok; split|]. same_history.
  - intros c e0. unfold load_chain_checkpoint. cbn. rewrite lookup_insert.
    case_decide as Hc; [|by eauto]. apply u64_to_string_inj in Hc as <-.
    intros He0. exists e. split; [by rewrite (json_round_trip e enc Henc)|by apply Hext].
Qed.

Lemma kept_budget i r rows l :
  ledger_ok l -> l_solana l = Some rows ->
  (∀ r0, rows !! i = Some r0 -> budget_kept r0 r) ->
  (so_broadcasts r <= MAX_SOLANA_RECOVERY_BROADCASTS)%N ->
  (so_broadcasts r = 0%N <-> so_last_broadcast_at r = 0%N) ->
  (∃ ad, l_admissions l !! i = Some ad /\ ad_kind ad = "solana") ->
  kept l (set_solana (Some (<[i := r]> rows)) l).
Proof.
  intros Hok Hrows Hk Hmax Hz Hsol. pose proof (ok_solana_table _ Hok) as Ht. split.
  - split; cbn; try (by destruct Hok).
    + rewrite <- Ht, Hrows. split; eauto.
    + intros rows' j r' [= <-]. rewrite lookup_insert. case_decide; [subst; by intros [= <-]|].
      by apply (ok_budget _ Hok).
  - same_history. intros rows' j r0. rewrite Hrows. intros [= <-] Hr0.
    destruct (decide (i = j)) as [<-|Hij]; [eexists _, r|eexists _, r0]; (split; [done|]).
    + rewrite lookup_insert_eq. split; [done|by apply Hk].
    + rewrite lookup_insert_ne by done. eauto.
Qed.

(** ** Schema changes *)

Lemma create_table_Ok {A} (t : option A) e t' : create_table t e = Ok t' -> t = None /\ t' = Some e.
Proof. unfold create_table. destruct t; [done|]. by intros [= <-]. Qed.

Lemma control_Ok l c : control l = Ok c -> c = l_control l /\ c_schema c ∈ [1; 2; SCHEMA]%N.
Proof. unfold control. case_bool_decide; [|done]. by intros [= <-]. Qed.

(** New empty tables and a schema that owns them, the pending row recorded last. *)
Lemma kept_tables c l l' :
  ledger_ok l -> c_schema c = SCHEMA -> version_le (l_control l) c ->
  l' = set_solana (Some (default ∅ (l_solana l))) (set_projection (Some None) (set_control c l)) ->
  (terminal_conflict l = true -> c_halted c = true /\ c_reason c = Some "terminal evidence conflict") ->
  kept l l'.
Proof.
  intros Hok Hs Hv -> Hc. split.
  - split; cbn; rewrite ?Hs; try (by destruct Hok).
    + unfold SCHEMA. set_solver.
    + intros rows i r [= <-] Hr. destruct (l_solana l) as [rows|] eqn:E; [|done].
      by apply (ok_budget _ Hok rows).
  - same_history. intros rows i r Hr Hi. rewrite Hr. cbn. eauto.
Qed.

Lemma kept_migrate l l' : ledger_ok l -> migrate l = Ok l' -> kept l l'.
Proof.
  intros Hok. unfold migrate. destruct (control l) as [old|] eqn:Hctl; [|done].
  apply control_Ok in Hctl as [-> Hin]. set (c := l_control l) in *.
  destruct (N.eqb_spec (c_schema c) SCHEMA) as [|Hne]; [intros [= <-]; by apply kept_refl|].
  destruct (c_halted c) eqn:Hh; [done|]. destruct (load_pending l c) as [[|]|] eqn:Hlp; [done| |done].
  destruct (if (c_schema c =? 1)%N then _ else _) as [pr|] eqn:Hpr; [|done].
  destruct (create_table (l_solana l) _) as [so|] eqn:Hso; [|done].
  apply create_table_Ok in Hso as [Hnone ->].
  assert (pr = Some None) as ->.
  { destruct (N.eqb_spec (c_schema c) 1); [by apply create_table_Ok in Hpr as [_ ->]|].
    injection Hpr as <-. unfold load_pending in Hlp. rewrite (proj2 (N.eqb_neq _ _)) in Hlp by done.
    destruct (l_projection l) as [[p|]|]; [|done..]. by destruct (validate_pending p c). }
  set (l1 := set_solana _ _).
  assert (kept l l1) as [Hok1 Hev1].
  { apply (kept_tables (with_schema SCHEMA c)); [done|done| | |].
    - unfold version_le. cbn. split_and!; [done| |right; split_and!; [done|apply N.le_refl|done]].
      rewrite !elem_of_cons, elem_of_nil in Hin. unfold SCHEMA in *. fold c. lia.
    - subst l1. by rewrite Hnone.
    - intros Hc. destruct (ok_conflict _ Hok Hc). fold c in H0. congruence. }
  destruct (control l1) as [new|] eqn:Hnew; [|done]. apply control_Ok in Hnew as [-> _].
  unfold record_pending. destruct (validate_pending _ _) as [[]|] eqn:Hvp; [|done].
  cbn [l_projection l1 set_solana set_projection]. intros [= <-]. split; [|etrans; [exact Hev1|same_history]].
  destruct Hok1. split; cbn; try done.
  intros p [= <-]. exact Hvp.
Qed.
End Keeps.
