(* ===== verification/RecoveryTxns.v ===== *)
(** The journal's transactions, one by one: each keeps the invariant and the history,
    and what a successful one establishes. *)

From Stdlib Require Import String Ascii NArith Lia.
From stdpp Require Import base gmap strings option list fin_maps relations.
From S2P Require Import Prelude Json JsonValue Redis RedisProg Errors FinalityTypes.
From S2P Require Import RecoveryLedger RecoveryChecks EngineProg RecoveryJournal RecoveryOps.
From S2P Require Import RecoveryOffline RecoverySpec RecoveryKeeps.

(** Walk through the checks of a transaction that succeeded. *)
Ltac txn_step H :=
  match type of H with
  | (match ?x with _ => _ end) = Ok _ =>
      let E := fresh "E" in destruct x eqn:E; try discriminate H
  end.

Section Txns.
Context `{Primitives} `{!Json Value, !Json FinalityEvidence}.

Lemma lookup_admission_Some l i r :
  lookup_admission l i = Ok (Some r) ->
  ∃ a, l_admissions l !! i = Some a /\ rec_id r = i /\ rec_kind r = ad_kind a /\
    rec_fingerprint r = ad_fingerprint a /\ from_json (ad_payload a) = Some (rec_payload r) /\
    rec_state r = ad_state a /\ rec_replay_key r = ad_replay_key a.
Proof.
  unfold lookup_admission. destruct (l_admissions l !! i) as [a|]; [|done].
  destruct (from_json (ad_payload a)) as [v|] eqn:Hv; [|done]. cbn. intros [= <-]. by exists a.
Qed.
Lemma lookup_admission_None l i :
  lookup_admission l i = Ok None -> l_admissions l !! i = None.
Proof.
  unfold lookup_admission. destruct (l_admissions l !! i) as [a|]; [|done].
  by destruct (from_json (ad_payload a)).
Qed.

Lemma ok_or_Ok {E A} (e : E) o (a : A) : ok_or e o = Ok a -> o = Some a.
Proof. destruct o; [|done]. by intros [= <-]. Qed.

(** ** Admission *)

Lemma reserve_txn_Ok kind i fp enc payload l stored terminal old l' :
  reserve_txn kind i fp enc payload l = Ok ((stored, terminal, old), l') ->
  (∃ a, l_admissions l !! i = Some a /\ ad_kind a = kind /\ ad_fingerprint a = fp /\
     from_json (ad_payload a) = Some stored /\ ad_state a <> StQuarantined /\
     terminal = bool_decide (ad_state a = StTerminal) /\ old = None /\ l' = l) \/
  (∃ l1 c, l_admissions l !! i = None /\ insert_admission i kind fp enc l = Ok l1 /\
     advance l1 = Ok (c, l') /\ stored = payload /\ terminal = false /\ old = Some c).
Proof.
  unfold reserve_txn. intros Ht. txn_step Ht. destruct a as [r|].
  - apply lookup_admission_Some in E as (a & Ha & _ & Hk & Hf & Hp & Hs & _).
    txn_step Ht. apply orb_false_iff in E as [E1 E2]. b2p. apply dec_stable in E1, E2.
    txn_step Ht. injection Ht as <- <- <- <-. left. exists a. rewrite <- Hk, <- Hf, <- Hs. done.
  - apply lookup_admission_None in E. txn_step Ht. txn_step Ht. destruct a0 as [c l2].
    injection Ht as <- <- <- <-. right. by exists a, c.
Qed.

Lemma keeps_reserve kind i fp enc payload : keeps (reserve_txn kind i fp enc payload).
Proof.
  intros l [[stored terminal] old] l' Hok Ht.
  destruct (reserve_txn_Ok _ _ _ _ _ _ _ _ _ _ Ht) as [(a&_&_&_&_&_&_&_&->)|(l1&c&_&Hi&Ha&_)].
  - by apply kept_refl.
  - eapply kept_insert_admission in Hi; [|done]. eapply kept_trans; [done|]. eapply kept_advance; [apply Hi|done].
Qed.

(** ** Broadcast *)

Lemma chain_gate_Ok kind key e l :
  chain_gate kind key e l = Ok tt ->
  kind = "solana" \/ ∃ chain, replay_chain key = Some chain /\ l_chain_halts l !! chain = None.
Proof.
  unfold chain_gate, ensure_chain_not_halted, chain_halted. case_decide; [by left|].
  destruct (replay_chain key) as [chain|]; [|done]. cbn. case_bool_decide as Hc; [done|].
  intros _. right. exists chain. split; [done|]. by apply eq_None_not_Some.
Qed.

(** What a granted broadcast has established. *)
Lemma broadcast_txn_Ok kind i key enc digest l old l' :
  ledger_ok l -> broadcast_txn kind i key enc digest l = Ok (old, l') ->
  ∃ a, l_admissions l !! i = Some a /\ ad_kind a = kind /\ ad_state a = StAdmitted /\
    (ad_replay_key a = None \/ ad_replay_key a = Some key) /\
    (kind = "solana" \/ ∃ chain, replay_chain key = Some chain /\ l_chain_halts l !! chain = None) /\
    (kind = "solana" -> ∃ rows, l_solana l = Some rows /\ rows !! i = None) /\
    ((∃ at0, at0 ∈ l_attempts l /\ at_id at0 = i /\ at_replay_key at0 = key /\ at_payload at0 = enc /\
        at_digest at0 = digest /\ ad_replay_key a = Some key /\ old = None /\ l' = l) \/
     (∃ l1 l2 c, update_replay_key i key l = Ok l1 /\
        insert_attempt (mkAttempt i key digest enc) l1 = Ok l2 /\ advance l2 = Ok (c, l') /\
        old = Some c)).
Proof.
  intros Hok. unfold broadcast_txn. intros Ht.
  txn_step Ht. txn_step Ht. apply ok_or_Ok in E0. subst a.
  apply lookup_admission_Some in E as (a & Ha & _ & Hk & _ & _ & Hs & Hr).
  rewrite Hk, Hs, Hr in Ht. txn_step Ht. txn_step Ht. b2p. apply dec_stable in E, E0.
  destruct (if decide _ then _ else _) as [[]|] eqn:Hmode in Ht; try discriminate Ht.
  txn_step Ht. destruct a1. apply chain_gate_Ok in E1.
  destruct (from_option _ false (ad_replay_key a)) eqn:Hkey in Ht; try discriminate Ht. txn_step Ht.
  exists a. split_and!; [done..| |done| |].
  - destruct (ad_replay_key a) as [k|]; [right|by left]. cbn in Hkey. b2p. apply dec_stable in Hkey.
    by rewrite Hkey.
  - intros ->. rewrite decide_True in Hmode by done. unfold recovery_mode, solana_rows in Hmode.
    destruct (l_solana l) as [rows|]; [|done]. cbn in Hmode. exists rows. split; [done|].
    injection Hmode as Hm. b2p. by apply eq_None_not_Some.
  - destruct (attempt_by_digest i digest l) as [at0|] eqn:Hat in Ht.
    + txn_step Ht. injection Ht as <- <-. left. exists at0.
      apply orb_false_iff in E3 as [E3 E5]. apply orb_false_iff in E3 as [E3 E4]. b2p.
      apply dec_stable in E3, E4, E5.
      unfold attempt_by_digest in Hat. apply find_some in Hat as [Hin Hd]. b2p. destruct Hd.
      apply list_elem_of_In in Hin. split_and!; done.
    + txn_step Ht. txn_step Ht. txn_step Ht. destruct a3 as [c l3]. injection Ht as <- <-.
      right. by eexists _, _, _.
Qed.

Lemma keeps_broadcast kind i key enc digest : keeps (broadcast_txn kind i key enc digest).
Proof.
  intros l old l' Hok Ht.
  destruct (broadcast_txn_Ok _ _ _ _ _ _ _ _ Hok Ht)
    as (a&Ha&_&_&Hk&_&_&[(at0&_&_&_&_&_&_&_&->)|(l1&l2&c&Hu&Hi&Hadv&_)]); [by apply kept_refl|].
  destruct (kept_bind_attempt i key digest enc a l l1 l2) as [Hkept _]; [done..|].
  eapply kept_trans; [done|]. eapply kept_advance; [apply Hkept|done].
Qed.

(** ** Terminal evidence *)

Lemma terminal_txn_Ok kind i enc normalized ev l old conflict l' :
  terminal_txn kind i enc normalized ev l = Ok ((old, conflict), l') ->
  ∃ a r, l_admissions l !! i = Some a /\ ad_kind a = kind /\ lookup_admission l i = Ok (Some r) /\
    validate_attempt_identity_in_db l r ev = Ok tt /\ ad_state a <> StQuarantined /\
    is_Some (ad_replay_key a) /\
    ((ad_state a = StTerminal /\ conflict = false /\ old = None /\ l' = l) \/
     (ad_state a = StTerminal /\ conflict = true /\ old = None /\ ∃ l1, insert_terminal i enc l = Ok l1 /\
        l' = set_control (with_halt true (Some "terminal evidence conflict") (l_control l1)) l1) \/
     (ad_state a = StAdmitted /\ conflict = false /\ ∃ l1 c, insert_terminal i enc l = Ok l1 /\
        advance (update_state i StTerminal l1) = Ok (c, l') /\ old = Some c)).
Proof.
  unfold terminal_txn. intros Ht. txn_step Ht. txn_step Ht. apply ok_or_Ok in E0. subst a.
  pose proof (lookup_admission_Some _ _ _ E) as (a & Ha & _ & Hk & _ & _ & Hs & Hr).
  rewrite Hk, Hs in Ht. txn_step Ht. b2p. apply dec_stable in E0.
  txn_step Ht. destruct a1. rename E1 into Hv.
  assert (ad_state a <> StQuarantined) as Hq.
  { intros Hq. unfold validate_attempt_identity_in_db in Hv. rewrite Hs, Hq in Hv. by rewrite decide_True in Hv. }
  assert (is_Some (ad_replay_key a)) as Hbound.
  { unfold validate_attempt_identity_in_db in Hv. rewrite <- Hr. destruct (decide _) in Hv; [done|].
    by destruct (rec_replay_key a0). }
  exists a, a0. split_and!; [done..|]. destruct (decide (ad_state a = StTerminal)) as [Hst|Hst].
  - txn_step Ht. txn_step Ht. txn_step Ht. destruct (decide _) in Ht.
    + injection Ht as <- <- <-. by left.
    + txn_step Ht. injection Ht as <- <- <-. right. left. eauto 8.
  - txn_step Ht. txn_step Ht. destruct a2 as [c l2]. injection Ht as <- <- <-. right. right.
    split_and!; [by destruct (ad_state a)|done|]. by eexists _, _.
Qed.

Lemma keeps_terminal kind i enc normalized ev : keeps (terminal_txn kind i enc normalized ev).
Proof.
  intros l [old conflict] l' Hok Ht.
  destruct (terminal_txn_Ok _ _ _ _ _ _ _ _ _ Ht)
    as (a&r&Ha&_&_&_&_&Hb&[(_&_&_&->)|[(Hs&_&_&l1&Hi&->)|(Hs&_&l1&c&Hi&Hadv&_)]]).
  - by apply kept_refl.
  - by eapply kept_contradict.
  - assert (kept l (update_state i StTerminal l1)) as Hk by by eapply kept_conclude.
    eapply kept_trans; [done|]. eapply kept_advance; [apply Hk|done].
Qed.

(** ** Chain checkpoints *)

Lemma keeps_halt_chain chain : keeps (halt_chain_txn chain).
Proof.
  intros l c l' Hok Ha. unfold halt_chain_txn in Ha.
  assert (kept l (insert_chain_halt (u64_to_string chain) checkpoint_conflict_reason l)) as Hk
    by by apply kept_chain_halt.
  eapply kept_trans; [done|]. eapply kept_advance; [apply Hk|done].
Qed.

Lemma keeps_checkpoint chain expected ev : keeps (checkpoint_txn chain expected ev).
Proof.
  intros l [[accepted old] conflict] l' Hok Ht. unfold checkpoint_txn in Ht.
  txn_step Ht. txn_step Ht. rename E0 into Hcur. clear E a.
  assert (∀ enc l2 c, to_json ev = Some enc ->
    (∀ e0, load_chain_checkpoint l chain = Ok (Some e0) -> checkpoint_kept e0 ev) ->
    advance (set_chain_checkpoints (<[u64_to_string chain := enc]> (l_chain_checkpoints l)) l) = Ok (c, l2) ->
    kept l l2) as Hstore.
  { intros enc l2 c Henc Hext Hadv. assert (kept l _) as Hk by by apply (kept_store_checkpoint chain ev enc).
    eapply kept_trans; [done|]. eapply kept_advance; [apply Hk|done]. }
  destruct (bool_decide (a0 <> expected)); [injection Ht as <- <- <- <-; by apply kept_refl|].
  destruct a0 as [e0|].
  - destruct (_ || _) eqn:Hconf in Ht.
    + txn_step Ht. destruct a as [c l2]. injection Ht as <- <- <- <-. by eapply (keeps_halt_chain chain).
    + destruct (N.ltb_spec (fe_checkpoint_number ev) (fe_checkpoint_number e0));
        [injection Ht as <- <- <- <-; by apply kept_refl|].
      destruct (N.eqb_spec (fe_checkpoint_number ev) (fe_checkpoint_number e0));
        [injection Ht as <- <- <- <-; by apply kept_refl|].
      txn_step Ht. txn_step Ht. destruct a0 as [c l2]. injection Ht as <- <- <- <-.
      apply ok_or_Ok in E. eapply Hstore; [exact E| |exact E0].
      intros e1. rewrite Hcur. intros [= <-]. apply orb_false_iff in Hconf as [Hpol _]. b2p.
      apply dec_stable in Hpol. split_and!; [done|lia|lia].
  - txn_step Ht. txn_step Ht. destruct a0 as [c l2]. injection Ht as <- <- <- <-.
    apply ok_or_Ok in E. eapply Hstore; [exact E| |exact E0]. intros e1. by rewrite Hcur.
Qed.

(** ** Solana recovery *)

Lemma retained_Ok l i payload st :
  retained l i payload = Ok (Some st) ->
  ∃ a at0 rows, l_admissions l !! i = Some a /\ ad_kind a = "solana" /\
    attempts_of i l = [at0] /\ l_solana l = Some rows /\
    ret_state (ret_public st) = ad_state a /\ ret_digest st = at_digest at0 /\
    ret_recovery_mode st = bool_decide (is_Some (rows !! i)) /\
    (∀ r, rows !! i = Some r ->
       ret_broadcasts (ret_public st) = so_broadcasts r /\
       ret_last_at (ret_public st) = so_last_broadcast_at r).
Proof.
  unfold retained. intros Ht. txn_step Ht. txn_step Ht. apply ok_or_Ok in E0. subst a.
  apply lookup_admission_Some in E as (a & Ha & _ & Hk & _ & _ & Hs & Hr).
  txn_step Ht. destruct (negb a1) eqn:Hsame in Ht; [discriminate Ht|]. apply negb_false_iff in Hsame. subst a1.
  assert (rec_kind a0 = "solana") as Hsol.
  { destruct (bool_decide (rec_kind a0 <> "solana")) eqn:Hkd; [done|]. b2p. by apply dec_stable in Hkd. }
  txn_step Ht. txn_step Ht. rename a1 into rows. unfold solana_rows in E1. apply ok_or_Ok in E1.
  destruct (attempts_of i l) as [|at0 rest] eqn:Hat in Ht; [by destruct (_ || _)|].
  txn_step Ht. apply orb_false_iff in E2 as [E2 E3]. apply negb_false_iff in E2. b2p. subst rest.
  txn_step Ht. txn_step Ht. destruct a2 as [b t]. injection Ht as <-. cbn.
  exists a, at0, rows. split_and!; [done|congruence|done|done|done|done|done|].
  intros r Hrow. unfold retained_budget in E4. rewrite Hrow in E4. txn_step E4. by injection E4 as <- <-.
Qed.

Lemma keeps_restore i payload : keeps (restore_txn i payload).
Proof.
  intros l [stored old] l' Hok Ht. unfold restore_txn in Ht. txn_step Ht.
  destruct a as [st|]; [|injection Ht as <- <- <-; by apply kept_refl].
  destruct (ret_recovery_mode st) eqn:Hm in Ht; [injection Ht as <- <- <-; by apply kept_refl|].
  apply retained_Ok in E as (a & at0 & rows & Ha & Hk & _ & Hrows & _ & _ & Hmode & _).
  unfold solana_rows in Ht. rewrite Hrows in Ht. cbn in Ht. txn_step Ht. destruct a0 as [c l2].
  injection Ht as <- <- <-. rewrite Hm in Hmode. symmetry in Hmode. b2p.
  assert (kept l (set_solana (Some (<[i:=mkSolanaRow (ret_digest st) 0 0]> rows)) l)) as Hkept.
  { apply kept_budget; [done|done| |done|done|eauto]. intros r0 Hr0. destruct Hmode. eauto. }
  eapply kept_trans; [done|]. eapply kept_advance; [apply Hkept|done].
Qed.

(** A grant counts one more broadcast, at least an interval after the last. *)
Lemma claim_Granted i st now l n t l' rows r :
  l_solana l = Some rows -> rows !! i = Some r ->
  ret_broadcasts st = so_broadcasts r -> ret_last_at st = so_last_broadcast_at r ->
  claim i st now l = Ok (Granted n t, l') ->
  n = (so_broadcasts r + 1)%N /\ t = now /\ (n <= MAX_SOLANA_RECOVERY_BROADCASTS)%N /\ (0 < now)%N /\
  (so_last_broadcast_at r = 0%N \/
   (so_last_broadcast_at r + RECOVERY_BROADCAST_INTERVAL_MS <= now)%N) /\
  l' = set_solana (Some (<[i := mkSolanaRow (so_attempt_digest r) n now]> rows)) l.
Proof.
  intros Hrows Hr Hb Hl. unfold claim. rewrite Hb, Hl.
  destruct (N.leb_spec MAX_SOLANA_RECOVERY_BROADCASTS (so_broadcasts r)); [done|].
  destruct (_ && _) eqn:Hw; [done|]. destruct (_ || _) eqn:Hnow; [done|].
  unfold solana_rows. rewrite Hrows. cbn. rewrite Hr, !N.eqb_refl. cbn. intros [= <- <- <-].
  apply orb_false_iff in Hnow as [Hnow _]. b2p. split_and!; [done|done|lia|lia| |done].
  apply andb_false_iff in Hw as [Hw|Hw]; b2p; [by left|right].
  unfold saturating_sub in Hw. unfold RECOVERY_BROADCAST_INTERVAL_MS in *. lia.
Qed.

Lemma keeps_recovery_broadcast i payload attempt now :
  keeps (recovery_broadcast_txn i payload attempt now).
Proof.
  intros l [perm old] l' Hok Ht. unfold recovery_broadcast_txn in Ht. txn_step Ht. txn_step Ht.
  apply ok_or_Ok in E0. subst a. txn_step Ht. txn_step Ht. txn_step Ht. txn_step Ht. txn_step Ht.
  destruct a2 as [p l1]. apply orb_false_iff in E0 as [Hm _]. apply negb_false_iff in Hm.
  destruct p as [n t| |]; [|injection Ht as <- <- <-; by apply kept_refl..].
  txn_step Ht. destruct a2 as [c l2]. injection Ht as <- <- <-.
  apply retained_Ok in E as (a' & at0 & rows & Ha & Hk & _ & Hrows & _ & _ & Hmode & Hbud).
  rewrite Hm in Hmode. symmetry in Hmode. b2p. destruct Hmode as [r Hr].
  destruct (Hbud r Hr) as [Hb Hl].
  destruct (claim_Granted _ _ _ _ _ _ _ _ _ Hrows Hr Hb Hl E4) as (Hn & _ & Hmax & Hpos & Hgap & ->).
  assert (kept l (set_solana (Some (<[i:=mkSolanaRow (so_attempt_digest r) n now]> rows)) l)) as Hkept.
  { destruct (ok_budget _ Hok rows i r Hrows Hr) as (_ & Hz & _).
    apply kept_budget; [done|done| |done| |eauto].
    - intros r0 Hr0. rewrite Hr in Hr0. injection Hr0 as <-. split_and!; cbn; [done|lia|].
      intros Hp. destruct Hgap as [H0|]; [apply Hz in H0; lia|].
      unfold RECOVERY_BROADCAST_INTERVAL_MS in *. lia.
    - cbn. lia. }
  eapply kept_trans; [done|]. eapply kept_advance; [apply Hkept|done].
Qed.

(** ** Offline commands *)

Lemma kept_events e l : ledger_ok l -> kept l (set_events (l_events l ++ [e]) l).
Proof.
  intros Hok. split; [by destruct Hok; split|].
  split; cbn; eauto using version_le_refl, admission_kept_refl, budget_kept_refl, checkpoint_kept_refl.
  by apply prefix_app_r.
Qed.

Lemma load_pending_None l :
  ledger_ok l -> load_pending l (l_control l) = Ok None -> ∀ p, l_projection l <> Some (Some p).
Proof.
  intros Hok Hl p Hp. unfold load_pending in Hl. rewrite Hp in Hl.
  assert (2 <= c_schema (l_control l))%N by (apply (ok_projection _ Hok); rewrite Hp; eauto).
  rewrite (proj2 (N.eqb_neq _ _)) in Hl by lia. by destruct (validate_pending p (l_control l)).
Qed.

Lemma keeps_reattach c pending run :
  (c_halted c = true -> clearable (c_reason c) = true) -> keeps (reattach_txn c pending run).
Proof.
  intros Hcl l b l' Hok Ht. unfold reattach_txn in Ht. txn_step Ht. apply control_Ok in E as [-> _].
  txn_step Ht. b2p. apply dec_stable in E. txn_step Ht. rename E0 into Hlp. txn_step Ht. b2p.
  apply dec_stable in E0.
  subst. txn_step Ht. rename a into l1, E into Hl1.
  injection Ht as <- <-.
  assert (terminal_conflict l = false) as Hnc.
  { destruct (terminal_conflict l) eqn:Hc; [|done]. destruct (ok_conflict _ Hok Hc) as [Hh Hr].
    specialize (Hcl Hh). unfold clearable in Hcl. rewrite Hr in Hcl. b2p. set_solver. }
  assert (kept l l1 /\ terminal_conflict l1 = false /\ (∀ p, l_projection l1 <> Some (Some p)))
    as (Hk1 & Hc1 & Hp1).
  { destruct pending as [p|].
    - split; [by eapply kept_remove_exact|]. unfold remove_exact in Hl1.
      destruct (l_projection l) as [[q|]|]; [|done..]. case_decide; [|done]. by injection Hl1 as <-.
    - injection Hl1 as <-. split_and!; [by apply kept_refl|done|by apply load_pending_None]. }
  eapply kept_trans; [exact Hk1|].
  assert (kept l1 (set_control (with_halt false None (with_run run (l_control l1))) l1)) as Hk2.
  { apply kept_control; [apply Hk1|done| |by intros p Hp%Hp1|by rewrite Hc1].
    unfold version_le. cbn. split_and!; [done|lia|right]. split_and!; [done|lia|done]. }
  eapply kept_trans; [exact Hk2|]. destruct Hk2 as [Hok2 _]. exact (kept_events _ _ Hok2).
Qed.

Lemma lookup_quarantine l i :
  quarantine_attempted l !! i =
  (fun a => if decide (ad_state a <> StTerminal /\ attempts_of i l <> []) then with_state StQuarantined a
            else a) <$> l_admissions l !! i.
Proof.
  unfold quarantine_attempted. rewrite map_lookup_imap. destruct (l_admissions l !! i) as [a|]; [|done].
  cbn. f_equal. repeat case_bool_decide; repeat case_decide; cbn; tauto.
Qed.

(** Quarantining keeps identities, keys and terminal states. *)
Lemma kept_quarantine l : ledger_ok l -> kept l (set_admissions (quarantine_attempted l) l).
Proof.
  intros Hok.
  assert (∀ j a', quarantine_attempted l !! j = Some a' -> ∃ a, l_admissions l !! j = Some a /\
    ad_kind a' = ad_kind a /\ ad_replay_key a' = ad_replay_key a /\
    (ad_state a' = StTerminal <-> ad_state a = StTerminal) /\
    (ad_state a' = ad_state a \/ attempts_of j l <> [])) as Hadm.
  { intros j a'. rewrite lookup_quarantine. intros (a & Ha & ->)%fmap_Some. exists a.
    case_decide; cbn; naive_solver. }
  assert (∀ j a, l_admissions l !! j = Some a -> ∃ a', quarantine_attempted l !! j = Some a' /\
    admission_kept a a') as Hfwd.
  { intros j a Ha. rewrite lookup_quarantine, Ha. eexists. split; [done|]. cbn.
    case_decide; [|apply admission_kept_refl]. unfold admission_kept. cbn. split_and!; naive_solver. }
  split; split; cbn; try (by destruct Hok);
    eauto using version_le_refl, admission_kept_refl, budget_kept_refl, checkpoint_kept_refl.
  - intros a Ha. destruct (ok_attempt _ Hok a Ha) as (b & Hb & Hk).
    destruct (Hfwd _ _ Hb) as (b' & Hb' & Hkept). exists b'. split; [done|]. by apply Hkept.
  - intros j a' k (a & Ha & _ & Hk & _)%Hadm Hk'. apply (ok_bound _ Hok j a k Ha). congruence.
  - intros j j' a a' k (b&Hb&_&Hk&_)%Hadm (b'&Hb'&_&Hk'&_)%Hadm H1 H2.
    apply (ok_owner _ Hok j j' b b' k Hb Hb'); congruence.
  - intros j a' (a & Ha & _ & _ & Hs & _)%Hadm. rewrite Hs. by apply (ok_terminal _ Hok).
  - intros j a' (a & Ha & _ & -> & _ & [Hs|Hne])%Hadm Hend.
    + apply (ok_ended _ Hok j a Ha). congruence.
    + destruct (attempts_of j l) as [|b bs] eqn:Hb; [done|].
      assert (b ∈ attempts_of j l) as [<- Hin]%list_elem_of_filter by (rewrite Hb; set_solver).
      destruct (ok_attempt _ Hok b Hin) as (a2 & Ha2 & Hk). rewrite Ha in Ha2. injection Ha2 as <-. eauto.
  - intros e He. destruct (ok_evidence _ Hok e He) as [a Ha]. destruct (Hfwd _ _ Ha) as (a' & -> & _). eauto.
  - intros rows j r Hrows Hr. destruct (ok_budget _ Hok rows j r Hrows Hr) as (?&?&a&Ha&Hk).
    split_and!; [done|done|]. destruct (Hfwd _ _ Ha) as (a' & Ha' & Hkept). exists a'. split; [done|].
    destruct Hkept as (-> & _). done.
Qed.

(** What a committed recovery leaves behind. *)
Lemma recover_txn_Ok disc ns run l l' :
  ledger_ok l -> terminal_conflict l = false ->
  recover_txn (l_control l) disc ns run l = Ok (tt, l') ->
  kept l l' /\ terminal_conflict l' = false /\ l_admissions l' = quarantine_attempted l /\
  l_control l' = recovered_control ns run (l_control l) /\ l_attempts l' = l_attempts l /\
  l_projection l' = Some None.
Proof.
  intros Hok Hnc Ht. unfold recover_txn in Ht.
  destruct (if (c_schema (l_control l) =? 1)%N then _ else _) as [pr|] eqn:Hpr; [|done].
  destruct (if (c_schema (l_control l) <? SCHEMA)%N then _ else _) as [so|] eqn:Hso; [|done].
  txn_step Ht. injection Ht as <-.
  assert (so = Some (default ∅ (l_solana l))) as ->.
  { destruct (N.ltb_spec (c_schema (l_control l)) SCHEMA).
    - apply create_table_Ok in Hso as [-> ->]. done.
    - txn_step Hso. injection Hso as <-. destruct (l_solana l) eqn:Es; [done|].
      destruct (proj2 (ok_solana_table _ Hok)) as [? Hx]; [done|congruence]. }
  set (l1 := set_admissions (quarantine_attempted l) l).
  assert (kept l l1) as Hk1 by by apply kept_quarantine.
  assert (terminal_conflict l1 = false) as Hc1 by done.
  set (c := recovered_control ns run (l_control l)).
  set (l2 := set_solana (Some (default ∅ (l_solana l1))) (set_projection (Some None) (set_control c l1))).
  assert (kept l1 l2) as Hk2.
  { apply (kept_tables c); [apply Hk1|done| |done|by rewrite Hc1].
    unfold version_le, c. cbn. split_and!; [done| |left; lia].
    pose proof (ok_schema _ Hok) as Hs. rewrite !elem_of_cons, elem_of_nil in Hs. unfold SCHEMA in *. lia. }
  split_and!; try done. eapply kept_trans; [exact Hk1|]. eapply kept_trans; [exact Hk2|].
  exact (kept_events _ _ (proj1 Hk2)).
Qed.
End Txns.
