(* ===== verification/RecoveryGate.v ===== *)
(** The journal's gate as program triples: what [healthy_locked] and [mirror] establish
    when they succeed, and that no step of theirs, failed or lost, breaks the ledger's
    invariant or leaves a gap between ledger and Redis that startup could not close. *)

From Stdlib Require Import String Ascii NArith Lia.
From stdpp Require Import base gmap strings option list fin_maps relations.
From S2P Require Import Prelude Json JsonValue Redis RedisProg Errors FinalityTypes.
From S2P Require Import RecoveryLedger RecoveryChecks EngineProg RecoveryJournal RecoveryOps.
From S2P Require Import RecoveryOffline RecoverySpec RecoveryKeeps RecoveryTxns.

(** ** Worlds *)

Definition marker_of (key : string) (s : server) : option string := str (sv_data s) key.

(** Redis follows the ledger: it is the primary the ledger was attached to, and holds
    the current token, or, while a publication is pending, the token before it. *)
Definition in_step (l : Ledger) (s : server) : Prop :=
  let c := l_control l in
  sv_role s = "master" /\ sv_run_id s = c_run_id c /\
  match l_projection l with
  | Some (Some p) => marker_of (control_key c) s ∈ [Some (previous_token p); Some (token c)]
  | _ => marker_of (control_key c) s = Some (token c)
  end.

(** The ledger with its pending publication acknowledged. *)
Definition settled (l : Ledger) : Ledger :=
  match l_projection l with Some (Some _) => set_projection (Some None) l | _ => l end.

(** A healthy world: what an operation needs to go ahead, and leaves behind. *)
Definition synced (l : Ledger) (w : world) : Prop :=
  w_disk w = LedgerFile l /\ w_failed w = false /\ c_halted (l_control l) = false /\
  (∀ p, l_projection l <> Some (Some p)) /\ in_step l (w_server w).

(** Nothing is lost between ledger and Redis, unless the ledger is halted. *)
Definition consistent (w : world) : Prop :=
  match w_disk w with
  | LedgerFile l => ledger_ok l /\ (c_halted (l_control l) = false -> in_step l (w_server w))
  | _ => True
  end.

(** A turn in which the server keeps its data and answers, and the disk works. *)
Definition steady (t : turn) : Prop := t_fault t = None /\ ∀ s, t_env t s = s.

(** ** Triples *)

Definition triple {A} (T : turn -> Prop) (R : world -> world -> Prop) (P : world -> Prop)
    (p : eprog A) (Q : A -> world -> Prop) : Prop := ∀ w, P w -> wp T R p w Q.
(** Nothing is promised of a failed call. *)
Definition on_ok {E A} (Q : A -> world -> Prop) (r : result E A) (w : world) : Prop :=
  match r with Ok a => Q a w | Err _ => True end.

Section Rules.
Context (T : turn -> Prop) (R : world -> world -> Prop).

Lemma triple_conseq {A} (P P' : world -> Prop) (p : eprog A) (Q Q' : A -> world -> Prop) :
  (∀ w, P' w -> P w) -> (∀ a w, Q a w -> Q' a w) -> triple T R P p Q -> triple T R P' p Q'.
Proof. intros HP HQ Hp w Hw. eapply wp_mono; [done|exact HQ|]. auto. Qed.

Lemma triple_post {A} (P : world -> Prop) (p : eprog A) (Q Q' : A -> world -> Prop) :
  triple T R P p Q -> (∀ a w, Q a w -> Q' a w) -> triple T R P p Q'.
Proof. intros Hp HQ. by eapply triple_conseq. Qed.

Lemma triple_ret {A} (P : world -> Prop) (a : A) (Q : A -> world -> Prop) :
  (∀ w, P w -> Q a w) -> triple T R P (ERet a) Q.
Proof. intros HP w Hw. by apply HP. Qed.

Lemma triple_bind {A B} P (p : eprog A) (g : A -> eprog B) Q S :
  triple T R P p Q -> (∀ a, triple T R (Q a) (g a) S) -> triple T R P (ebind p g) S.
Proof.
  intros Hp Hg w Hw. apply wp_bind. eapply wp_mono; [done| |by apply Hp].
  intros a w' HQ. by apply Hg.
Qed.

(** The [?] operator. *)
Lemma triple_try {E A B} P (p : eprog (result E A)) (g : A -> eprog (result E B)) Q S :
  triple T R P p (on_ok Q) -> (∀ a, triple T R (Q a) (g a) (on_ok S)) ->
  triple T R P (ebind p (fun r => match r with Ok a => g a | Err e => ERet (Err e) end)) (on_ok S).
Proof.
  intros Hp Hg. eapply triple_bind; [exact Hp|]. intros [a|e]; [apply Hg|by apply triple_ret].
Qed.

Lemma triple_ex {A X} (φ : X -> Prop) (P : X -> world -> Prop) (p : eprog A) Q :
  (∀ x, φ x -> triple T R (P x) p Q) -> triple T R (fun w => ∃ x, φ x /\ P x w) p Q.
Proof. intros Hp w (x & Hx & Hw). by apply (Hp x). Qed.

Lemma triple_and {A} (φ : Prop) (P : world -> Prop) (p : eprog A) Q :
  (φ -> triple T R P p Q) -> triple T R (fun w => P w /\ φ) p Q.
Proof. intros Hp w [Hw Hφ]. by apply Hp. Qed.

(** A pure check. *)
Lemma triple_pure {E A B} P (r : result E A) (g : A -> eprog (result E B)) S :
  (∀ a, r = Ok a -> triple T R P (g a) (on_ok S)) ->
  triple T R P (ebind (ERet r) (fun r => match r with Ok a => g a | Err e => ERet (Err e) end)) (on_ok S).
Proof. intros Hg w Hw. destruct r as [a|e]; cbn; [by apply (Hg a)|done]. Qed.

Lemma triple_permit {A} P (k : bool -> eprog A) Q :
  (∀ b, triple T R P (k b) Q) -> triple T R P (EPermit k) Q.
Proof. intros Hk w Hw t Ht. by apply Hk. Qed.
Lemma triple_now {A} P (k : N -> eprog A) Q :
  (∀ n, triple T R P (k n) Q) -> triple T R P (ENow k) Q.
Proof. intros Hk w Hw t Ht. by apply Hk. Qed.
Lemma triple_block {A} P tag (k : result AlloyRpcError (option Block) -> eprog A) Q :
  (∀ t, T t -> triple T R P (k (t_block t tag)) Q) -> triple T R P (EBlock tag k) Q.
Proof. intros Hk w Hw t Ht. by apply Hk. Qed.
Lemma triple_others {A} (P : world -> Prop) (k : eprog A) Q :
  (∀ t w, T t -> P w -> R w (t_others t w) /\ P (t_others t w)) ->
  triple T R P k Q -> triple T R P (EOthers k) Q.
Proof. intros Hot Hk w Hw t Ht. destruct (Hot t w Ht Hw). split; [done|]. by apply Hk. Qed.
Lemma triple_latched {A} P (k : bool -> eprog A) Q :
  (∀ b, triple T R (fun w => P w /\ w_failed w = b) (k b) Q) -> triple T R P (ELatched k) Q.
Proof. intros Hk w Hw. by apply (Hk (w_failed w)). Qed.
Lemma triple_run_owned {A} P (p : eprog (recovery_result A)) Q :
  triple T R P p (on_ok Q) -> triple T R P (run_owned p) (on_ok Q).
Proof. intros Hp. apply triple_permit. intros []; [done|by apply triple_ret]. Qed.
End Rules.

(** Case analysis on the program's next condition. *)
Ltac branch E :=
  cbv zeta; match goal with |- triple _ _ _ (if ?b then _ else _) _ => destruct b eqn:E end.

Section Gate.
Context `{Primitives} `{!Json Value, !Json FinalityEvidence}.
Context (T : turn -> Prop).

(** ** Steps *)

Definition disk_ok (d : disk) : Prop :=
  match d with LedgerFile l => ledger_ok l | _ => True end.
Definition disk_evolves (d d' : disk) : Prop :=
  match d, d' with
  | LedgerFile l, LedgerFile l' => evolves l l'
  | LedgerFile _, _ | EmptyFile, NoFile => False
  | _, _ => True
  end.

(** Every step keeps the invariant and the history of the file; and steps of a world
    that stays steady keep it consistent. *)
Definition step (w w' : world) : Prop :=
  (disk_ok (w_disk w) -> disk_ok (w_disk w') /\ disk_evolves (w_disk w) (w_disk w')) /\
  ((∀ t, T t -> steady t) -> consistent w -> consistent w').

#[export] Instance disk_evolves_preorder : PreOrder disk_evolves.
Proof.
  split; [by intros [| |l]; cbn|].
  intros [| |l1] [| |l2] [| |l3]; cbn; try done. intros H1 H2. by etrans.
Qed.

#[local] Notation spec P p Q := (triple T step P p Q).

Definition is_steady : Prop := ∀ t, T t -> steady t.
(** Nobody else writes to the server, though calls may be lost. *)
Definition undisturbed : Prop := ∀ t, T t -> ∀ s, t_env t s = s.
Lemma steady_undisturbed : is_steady -> undisturbed.
Proof. intros Hst t Ht. by apply Hst. Qed.

(** A step on the file that is applied, lost before, or lost after. *)
Lemma disk_spec {B} (f : disk -> recovery_result (B * disk)) (P : world -> Prop) Q :
  (∀ w b d', P w -> f (w_disk w) = Ok (b, d') -> step w (mkWorld d' (w_failed w) (w_server w))) ->
  (∀ w b d', P w -> f (w_disk w) = Ok (b, d') -> Q b (mkWorld d' (w_failed w) (w_server w))) ->
  spec P (EDisk f ERet) (on_ok Q).
Proof.
  intros Hstep HQ w Hw t Ht. unfold disk_effect.
  assert (step w (mkWorld (w_disk w) (w_failed w) (w_server w))) as Hid by by destruct w.
  destruct (f (w_disk w)) as [[b d']|e] eqn:Hf.
  - destruct (t_fault t) as [[]|]; (split; [by first [apply Hid|eapply Hstep]|cbn; try done]). by eapply HQ.
  - destruct (t_fault t) as [[]|]; (split; [apply Hid|done]).
Qed.

(** The same for a statement, which fails where there is no ledger. *)
Lemma db_spec_at {B} (f : Ledger -> recovery_result (B * Ledger)) (P : world -> Prop) Q :
  (∀ w l b l', P w -> w_disk w = LedgerFile l -> ledger_ok l -> f l = Ok (b, l') -> kept l l') ->
  (∀ w l b l', P w -> w_disk w = LedgerFile l -> f l = Ok (b, l') -> ledger_ok l -> is_steady ->
     consistent w -> consistent (mkWorld (LedgerFile l') (w_failed w) (w_server w))) ->
  (∀ w l b l', P w -> w_disk w = LedgerFile l -> f l = Ok (b, l') ->
     Q b (mkWorld (LedgerFile l') (w_failed w) (w_server w))) ->
  spec P (db f) (on_ok Q).
Proof.
  intros Hkeeps Hcons HQ.
  assert (∀ w b d', on_ledger f (w_disk w) = Ok (b, d') ->
    ∃ l l', w_disk w = LedgerFile l /\ f l = Ok (b, l') /\ d' = LedgerFile l') as Hinv.
  { intros w b d' Ht. unfold on_ledger in Ht. destruct (w_disk w) as [| |l]; [done..|].
    txn_step Ht. destruct a as [b0 l']. injection Ht as <- <-. by exists l, l'. }
  apply disk_spec.
  - intros w b d' Hw (l & l' & Hd & Hf & ->)%Hinv. unfold step. rewrite Hd. cbn. split.
    + intros Hok. by destruct (Hkeeps w l b l' Hw Hd Hok Hf).
    + intros Hst Hc. eapply (Hcons w l b l' Hw Hd Hf); [|done|done].
      unfold consistent in Hc. rewrite Hd in Hc. apply Hc.
  - intros w b d' Hw (l & l' & Hd & Hf & ->)%Hinv. by apply (HQ w l b l').
Qed.

Lemma db_spec {B} (f : Ledger -> recovery_result (B * Ledger)) (P : world -> Prop) Q :
  keeps f ->
  (∀ w l b l', P w -> w_disk w = LedgerFile l -> f l = Ok (b, l') -> ledger_ok l -> is_steady ->
     consistent w -> consistent (mkWorld (LedgerFile l') (w_failed w) (w_server w))) ->
  (∀ w l b l', P w -> w_disk w = LedgerFile l -> f l = Ok (b, l') ->
     Q b (mkWorld (LedgerFile l') (w_failed w) (w_server w))) ->
  spec P (db f) (on_ok Q).
Proof. intros Hkeeps. apply db_spec_at. intros w l b l' _ _. apply Hkeeps. Qed.

Lemma db_read_spec {B} (f : Ledger -> recovery_result B) (P : world -> Prop) Q :
  (∀ w l b, P w -> w_disk w = LedgerFile l -> f l = Ok b -> Q b w) -> spec P (db_read f) (on_ok Q).
Proof.
  intros HQ. apply db_spec; [apply keeps_reading| |]; intros w l b l' Hw Hd; unfold reading;
    destruct (f l) as [a|] eqn:Hf; [|done| |done]; intros [= <- <-].
  - unfold consistent. by rewrite Hd.
  - rewrite <- Hd. destruct w. by apply (HQ _ l).
Qed.

(** A server call; what it finds is what the process last saw if nobody else writes. *)
Lemma steady_call_spec {B} (f : server -> server * B) (P : world -> Prop) Q :
  (∀ w, P w -> consistent w -> consistent (mkWorld (w_disk w) (w_failed w) (f (w_server w)).1)) ->
  (∀ w s, P w -> (undisturbed -> s = w_server w) -> Q (f s).2 (mkWorld (w_disk w) (w_failed w) (f s).1)) ->
  spec P (call f) (on_ok Q).
Proof.
  intros Hc HQ w Hw t Ht. unfold server_effect.
  assert (∀ s, (t_fault t = None /\ t_env t (w_server w) = w_server w -> s = (f (w_server w)).1) ->
    step w (mkWorld (w_disk w) (w_failed w) s)) as Hstep.
  { intros s Hs. split; cbn; [by intros ?|]. intros Hst Hcons.
    destruct (Hst t Ht) as [Hn He]. rewrite Hs by (split; [done|apply He]). auto. }
  destruct (t_fault t) as [[]|] eqn:Hft.
  - split; [apply Hstep; by intros [? _]|done].
  - split; [apply Hstep; by intros [? _]|done].
  - destruct (f (t_env t (w_server w))) as [s b] eqn:Hf. split.
    + apply Hstep. intros [_ He]. rewrite He in Hf. by rewrite Hf.
    + specialize (HQ w (t_env t (w_server w)) Hw). rewrite Hf in HQ. apply HQ.
      intros Hst. apply (Hst t Ht).
Qed.

Lemma call_spec {B} (f : server -> server * B) (P : world -> Prop) Q :
  (∀ w, P w -> consistent w -> consistent (mkWorld (w_disk w) (w_failed w) (f (w_server w)).1)) ->
  (∀ w s, P w -> Q (f s).2 (mkWorld (w_disk w) (w_failed w) (f s).1)) ->
  spec P (call f) (on_ok Q).
Proof. intros Hc HQ. apply steady_call_spec; [done|]. intros w s Hw _. by apply HQ. Qed.

Lemma observation_spec key (P : world -> Prop) Q :
  (∀ w s, P w -> Q (sv_run_id s, sv_role s, marker_of key s) (mkWorld (w_disk w) (w_failed w) s)) ->
  spec P (observation key) (on_ok Q).
Proof. intros HQ. apply call_spec; [by intros [] |]. intros w s Hw. by apply HQ. Qed.

Lemma halt_err_spec {A} reason P (Q : A -> world -> Prop) : spec P (halt_err reason) (on_ok Q).
Proof.
  intros w _. unfold halt_err, halt. cbn [ebind]. split; [by split|].
  intros t Ht. unfold disk_effect, on_ledger. cbn [w_disk w_failed w_server].
  assert (∀ d', d' = w_disk w \/ (∃ l, w_disk w = LedgerFile l /\ d' = LedgerFile (latch_halt reason l)) ->
    step (mkWorld (w_disk w) true (w_server w)) (mkWorld d' true (w_server w))) as Hstep.
  { intros d' [->|(l & Hd & ->)]; [by split|]. rewrite Hd. split; cbn.
    - intros Hok. by destruct (kept_latch_halt reason l Hok).
    - intros _ [Hok _]. by split; [destruct (kept_latch_halt reason l Hok)|]. }
  destruct (w_disk w) as [| |l], (t_fault t) as [[]|]; (split; [apply Hstep; eauto|done]).
Qed.

Lemma storage_result_spec {A} (r : recovery_result A) P Q :
  (∀ a w, r = Ok a -> P w -> Q a w) -> spec P (storage_result r) (on_ok Q).
Proof.
  intros HQ. destruct r as [a|e].
  - apply triple_ret. intros w Hw. by apply HQ.
  - destruct e; cbn; try by apply triple_ret. apply halt_err_spec.
Qed.

Lemma storage_try {A B} P (p : eprog (recovery_result A)) (k : A -> eprog (recovery_result B)) Q S :
  spec P p (on_ok Q) -> (∀ a, spec (Q a) (k a) (on_ok S)) ->
  spec P (ebind p (fun o => ebind (storage_result o)
            (fun r => match r with Ok a => k a | Err e => ERet (Err e) end))) (on_ok S).
Proof.
  intros Hp Hk. eapply triple_bind; [exact Hp|]. intros o. eapply triple_try; [|exact Hk].
  apply storage_result_spec. by intros a w ->.
Qed.

(** ** The gate *)

Definition here (l : Ledger) (w : world) : Prop := w_disk w = LedgerFile l /\ w_failed w = false.

Lemma observe_checkpoint_spec l pending :
  spec (here l) (observe_checkpoint (l_control l) pending)
    (on_ok (fun _ w => here l w /\ sv_role (w_server w) = "master" /\
       sv_run_id (w_server w) = c_run_id (l_control l) /\
       (marker_of (control_key (l_control l)) (w_server w) = Some (token (l_control l)) \/
        ∃ p, pending = Some p /\
          marker_of (control_key (l_control l)) (w_server w) = Some (previous_token p)))).
Proof.
  eapply triple_bind.
  { eapply (observation_spec _ _ (fun o w => here l w /\ o =
      (sv_run_id (w_server w), sv_role (w_server w), marker_of (control_key (l_control l)) (w_server w)))).
    intros w s [Hd Hf]. by split. }
  intros [[[run role] marker]|e]; [|by destruct pending; [apply triple_ret|apply halt_err_spec]].
  branch Hm; [apply halt_err_spec|]. branch Hrole; [apply halt_err_spec|]. branch Hrun; [apply halt_err_spec|].
  apply triple_ret. intros w [Hh [= -> -> ->]]. apply bool_decide_eq_false in Hrole, Hrun. apply dec_stable in Hrole, Hrun.
  split; [done|]; split_and!; [done|done|].
  apply andb_false_iff in Hm as [Hm|Hm]; apply negb_false_iff in Hm; [left|right]; [by b2p|].
  destruct pending as [p|]; cbn in Hm; [|done]. b2p. eauto.
Qed.

Lemma acknowledge_Ok p l l' :
  acknowledge p l = Ok l' ->
  l_projection l = Some (Some p) /\ target_token p = token (l_control l) /\
  pending_run_id p = c_run_id (l_control l) /\ redis_key p = control_key (l_control l) /\
  c_halted (l_control l) = false /\ l' = set_projection (Some None) l.
Proof.
  unfold acknowledge. intros Ha. destruct (control l) as [c|] eqn:E in Ha; [|done].
  apply control_Ok in E as [-> _]. destruct (validate_pending _ _) as [[]|] eqn:E in Ha; [|done]. apply validate_pending_Ok in E as (_ & _ & Ht & Hk & Hr & _). txn_step Ha. txn_step Ha. txn_step Ha.
  unfold remove_exact in Ha. destruct (l_projection l) as [[q|]|]; [|done..].
  destruct (decide (q = p)); [|done]. subst q. by injection Ha as <-.
Qed.

Lemma settled_pending l p : l_projection l = Some (Some p) -> settled l = set_projection (Some None) l.
Proof. unfold settled. by intros ->. Qed.
Lemma settled_id l : (∀ p, l_projection l <> Some (Some p)) -> settled l = l.
Proof. unfold settled. destruct (l_projection l) as [[p|]|]; [|done..]. intros Hp. by destruct (Hp p). Qed.
Lemma settled_control l : l_control (settled l) = l_control l.
Proof. unfold settled. by destruct (l_projection l) as [[p|]|]. Qed.

(** Publishing a pending update keeps Redis in step with the ledger. *)
Lemma publish_in_step l p s :
  l_projection l = Some (Some p) -> target_token p = token (l_control l) ->
  redis_key p = control_key (l_control l) -> in_step l s ->
  in_step l (publish_script (redis_key p) (previous_token p) (target_token p) s).1.
Proof.
  intros Hp Ht Hk (Hrole & Hrun & Hm). unfold publish_script. rewrite Ht, Hk.
  case_decide; [done|]. case_decide; [|done]. unfold in_step, marker_of. rewrite Hp. cbn.
  split_and!; [done|done|]. rewrite str_put_str, decide_True by done. set_solver.
Qed.

Lemma synced_intro l w :
  here l w -> c_halted (l_control l) = false -> (∀ p, l_projection l <> Some (Some p)) ->
  sv_role (w_server w) = "master" -> sv_run_id (w_server w) = c_run_id (l_control l) ->
  marker_of (control_key (l_control l)) (w_server w) = Some (token (l_control l)) -> synced l w.
Proof.
  intros [Hd Hf] Hh Hp Hrole Hrun Hm. unfold synced, in_step. rewrite Hd, Hf. split_and!; try done.
  destruct (l_projection l) as [[p|]|]; [by destruct (Hp p)|done..].
Qed.

(** A successful observation of an acknowledged ledger. *)
Lemma observe_settled_spec l :
  c_halted (l_control l) = false -> (∀ p, l_projection l <> Some (Some p)) ->
  spec (here l) (observe_checkpoint (l_control l) None) (on_ok (fun _ => synced l)).
Proof.
  intros Hh Hp. eapply triple_conseq; [done| |apply (observe_checkpoint_spec l None)].
  intros [[]|] w; [|done]. cbn. intros (Hw & Hrole & Hrun & [Hm|(p & [=] & _)]).
  by apply synced_intro.
Qed.

Lemma complete_pending_spec l p :
  l_projection l = Some (Some p) -> c_halted (l_control l) = false ->
  validate_pending p (l_control l) = Ok tt ->
  spec (here l) (complete_pending (l_control l) p) (on_ok (fun _ => synced (settled l))).
Proof.
  intros Hp Hh Hv. pose proof (validate_pending_Ok _ _ Hv) as (_ & _ & Ht & Hk & Hr & _).
  set (c := l_control l) in *.
  eapply triple_bind.
  { apply (call_spec _ _ (fun _ => here l)); [|done].
    intros w [Hd Hf]. unfold consistent. cbn. rewrite Hd. intros [Hok Hc]. split; [done|].
    intros Hn. apply publish_in_step; auto. }
  intros [n|]; [|by apply triple_ret]. branch E; [apply halt_err_spec|].
  eapply triple_bind.
  { apply (observation_spec _ _ (fun o w => here l w /\ o =
      (sv_run_id (w_server w), sv_role (w_server w), marker_of (control_key c) (w_server w)))).
    by intros w s [Hd Hf]. }
  intros [[[run role] marker]|]; [|by apply triple_ret].
  branch Hm; [apply halt_err_spec|]. branch Hrole; [apply halt_err_spec|]. branch Hrun; [apply halt_err_spec|].
  apply bool_decide_eq_false, dec_stable in Hm, Hrole, Hrun.
  assert (settled l = set_projection (Some None) l) as Hset by by eapply settled_pending.
  assert (∀ l', acknowledge p l = Ok l' -> l' = settled l) as Hack.
  { intros l' (_ & _ & _ & _ & _ & ->)%acknowledge_Ok. by rewrite Hset. }
  eapply (storage_try _ _ _ (fun _ => here (settled l))).
  2: { intros []. unfold c. rewrite <- (settled_control l). apply observe_settled_spec; by rewrite Hset. }
  apply db_spec.
  - intros l1 [] l1' Hok. destruct (acknowledge p l1) eqn:Ha; [|done]. intros [= <-].
    by eapply kept_acknowledge.
  - intros w l1 [] l' [[Hd Hf] Ho]. rewrite Hd. intros [= <-]. destruct (acknowledge p l) eqn:Ha; [|done].
    intros [= <-] Hok _ _. split; [by eapply kept_acknowledge|]. intros _. rewrite (Hack _ eq_refl), Hset.
    injection Ho as -> -> ->. unfold in_step. cbn [l_control l_projection set_projection w_server]. fold c.
    split_and!; [done|by rewrite Hrun|by rewrite Hm, Ht].
  - intros w l1 [] l' [[Hd Hf] _]. rewrite Hd. intros [= <-]. destruct (acknowledge p l) eqn:Ha; [|done].
    intros [= <-]. by rewrite (Hack _ eq_refl).
Qed.

Lemma load_pending_Some l p :
  load_pending l (l_control l) = Ok (Some p) ->
  l_projection l = Some (Some p) /\ validate_pending p (l_control l) = Ok tt.
Proof.
  unfold load_pending. destruct (_ =? _)%N; [done|]. destruct (l_projection l) as [[q|]|]; [|done..].
  destruct (validate_pending q _) as [[]|] eqn:Hv; [|done]. by intros [= ->].
Qed.

(** The gate: from any file, success means a complete ledger that is not halted, whose
    pending publication is now acknowledged, and a server that holds its token. *)
Lemma healthy_locked_spec d :
  disk_ok d ->
  spec (fun w => w_disk w = d) healthy_locked
    (on_ok (fun c w => ∃ l, d = LedgerFile l /\ c = l_control l /\ synced (settled l) w)).
Proof.
  intros Hok. apply triple_latched. intros []; [by apply triple_ret|].
  eapply triple_bind.
  { apply (db_read_spec _ _ (fun st w => ∃ l, (d = LedgerFile l /\ load_state l = Ok st) /\ here l w)).
    intros w l st [Hd Hf] Hl Hst. exists l. by rewrite <- Hd. }
  intros [[c pending]|]; [|apply halt_err_spec].
  apply triple_ex. intros l [-> Hst].
  unfold load_state in Hst. txn_step Hst. txn_step Hst. injection Hst as -> ->.
  apply control_Ok in E as [-> _]. branch Hh.
  { intros w Hw. split; [by split|done]. }
  eapply triple_try; [apply observe_checkpoint_spec|]. intros [].
  destruct pending as [p|].
  - assert (l_projection l = Some (Some p) /\ validate_pending p (l_control l) = Ok tt) as [Hp Hv].
    { by apply load_pending_Some. }
    eapply triple_try.
    + eapply triple_conseq; [|done|by apply complete_pending_spec]. by intros w [Hw _].
    + intros []. apply triple_ret. intros w Hw. by exists l.
  - apply triple_ret. cbn. intros w (Hw & Hrole & Hrun & [Hm|(p & [=] & _)]). exists l.
    assert (∀ p, l_projection l <> Some (Some p)) as Hnp by by apply load_pending_None.
    rewrite (settled_id l Hnp). split_and!; [done|done|by apply synced_intro].
Qed.

(** Mirroring publishes what a transaction just recorded. *)
Lemma mirror_spec l old :
  c_halted (l_control l) = false ->
  spec (here l) (mirror old) (on_ok (fun _ => synced (settled l))).
Proof.
  intros Hh.
  eapply (storage_try _ _ _ (fun st w => here l w /\ mirror_state old l = Ok st)).
  { apply db_read_spec. intros w l1 st [Hd Hf]. rewrite Hd. by intros [= <-]. }
  intros [c p]. apply triple_and. intros Hst.
  unfold mirror_state in Hst. txn_step Hst. apply control_Ok in E as [-> _]. txn_step Hst. txn_step Hst.
  apply ok_or_Ok in E0. subst. txn_step Hst. injection Hst as <- ->.
  assert (l_projection l = Some (Some p) /\ validate_pending p (l_control l) = Ok tt) as [Hp Hv]
    by by apply load_pending_Some.
  eapply triple_try; [apply observe_checkpoint_spec|]. intros [].
  eapply triple_conseq; [|done|by apply complete_pending_spec]. by intros w [Hw _].
Qed.

(** ** Transactions behind the gate *)

(** What a transaction does to the version: a halt, or nothing, or one step forward
    recorded as pending; [old] is what it asks to be mirrored. *)
Definition moves (l l' : Ledger) (old : option Control) (halts : bool) : Prop :=
  if halts then c_halted (l_control l') = true
  else
    match old with
    | None => l_control l' = l_control l /\ l_projection l' = l_projection l
    | Some c => c = l_control l /\ control_key (l_control l') = control_key c /\
        c_run_id (l_control l') = c_run_id c /\ c_halted (l_control l') = c_halted c /\
        ∃ p, l_projection l' = Some (Some p) /\ previous_token p = token c
    end.

(** The world right after the transaction. *)
Definition committed (l : Ledger) (old : option Control) (halts : bool) (w : world) : Prop :=
  here l w /\
  (halts = false -> match old with None => synced l w | Some _ => c_halted (l_control l) = false end).

Lemma moves_consistent l l' old halts w :
  synced l w -> ledger_ok l' -> moves l l' old halts ->
  consistent (mkWorld (LedgerFile l') (w_failed w) (w_server w)).
Proof.
  intros (_ & _ & Hh & Hp & Hrole & Hrun & Hm) Hok Hmv. split; [done|]. cbn. intros Hn.
  destruct halts; cbn in Hmv; [congruence|]. destruct old as [c|].
  - destruct Hmv as (-> & Hkey & Hr & _ & p & Hpr & Hprev). unfold in_step. rewrite Hpr, Hkey, Hr, Hprev.
    split_and!; [done|done|]. destruct (l_projection l) as [[q|]|]; [by destruct (Hp q)|..]; rewrite Hm; set_solver.
  - destruct Hmv as [Hc Hpr]. unfold in_step. rewrite Hc, Hpr. done.
Qed.

Lemma moves_committed l l' old halts w :
  synced l w -> moves l l' old halts ->
  committed l' old halts (mkWorld (LedgerFile l') (w_failed w) (w_server w)).
Proof.
  intros (_ & Hf & Hh & Hp & Hs) Hmv. split; [by split|]. intros ->. cbn in Hmv. destruct old as [c|].
  - destruct Hmv as (-> & _ & _ & Hc & _). by rewrite Hc.
  - destruct Hmv as [Hc Hpr]. unfold synced, in_step in *. cbn [w_server w_disk w_failed]. rewrite Hc, Hpr. done.
Qed.

Lemma settled_ok l : ledger_ok l -> ledger_ok (settled l).
Proof.
  intros Hok. unfold settled. destruct (l_projection l) as [[p|]|] eqn:E; [|done..].
  apply kept_projection; [done|]. by rewrite E.
Qed.

(** A transaction once the gate has been passed, and behind the gate. *)
Definition passed (d : disk) (c : Control) (w : world) : Prop :=
  ∃ l, d = LedgerFile l /\ c = l_control l /\ synced (settled l) w.

Lemma commit_spec {B C} d c (txn : Ledger -> recovery_result (B * Ledger)) (old_of : B -> option Control)
    (halts : B -> bool) (k : B -> eprog (recovery_result C)) S :
  disk_ok d -> keeps txn ->
  (∀ l b l', d = LedgerFile l -> ledger_ok (settled l) -> txn (settled l) = Ok (b, l') ->
     moves (settled l) l' (old_of b) (halts b)) ->
  (∀ l b l', d = LedgerFile l -> ledger_ok (settled l) -> txn (settled l) = Ok (b, l') ->
     spec (committed l' (old_of b) (halts b)) (k b) (on_ok S)) ->
  spec (passed d c)
    (ebind (db txn) (fun o => ebind (storage_result o)
       (fun r => match r with Ok b => k b | Err e => ERet (Err e) end))) (on_ok S).
Proof.
  intros Hok Hkeeps Hmv Hk.
  eapply (storage_try _ _ _ (fun b w => ∃ l', (∃ l, d = LedgerFile l /\ ledger_ok (settled l) /\
     txn (settled l) = Ok (b, l')) /\ committed l' (old_of b) (halts b) w)).
  - apply db_spec; [done|..].
    + intros w l b l' (l0 & -> & _ & Hs) Hd Ht Hokl _ _.
      pose proof Hs as (Hd' & _). rewrite Hd in Hd'. injection Hd' as ->.
      eapply moves_consistent; [done|by eapply Hkeeps|by apply (Hmv l0 b l')].
    + intros w l b l' (l0 & -> & _ & Hs) Hd Ht.
      pose proof Hs as (Hd' & _). rewrite Hd in Hd'. injection Hd' as ->.
      assert (ledger_ok (settled l0)) as Hokl by by apply settled_ok.
      exists l'. split; [by exists l0|]. eapply moves_committed; [done|by apply (Hmv l0 b l')].
  - intros b. apply triple_ex. intros l' (l & -> & Hokl & Ht). by apply (Hk l b l').
Qed.

Lemma transact_spec {B C} d (txn : Ledger -> recovery_result (B * Ledger)) (old_of : B -> option Control)
    (halts : B -> bool) (k : B -> eprog (recovery_result C)) S :
  disk_ok d -> keeps txn ->
  (∀ l b l', ledger_ok l -> txn l = Ok (b, l') -> moves l l' (old_of b) (halts b)) ->
  (∀ l b l', d = LedgerFile l -> ledger_ok (settled l) -> txn (settled l) = Ok (b, l') ->
     spec (committed l' (old_of b) (halts b)) (k b) (on_ok S)) ->
  spec (fun w => w_disk w = d)
    (ebind healthy_locked (fun r => match r with
       | Ok _ => ebind (db txn) (fun o => ebind (storage_result o)
                   (fun r => match r with Ok b => k b | Err e => ERet (Err e) end))
       | Err e => ERet (Err e) end)) (on_ok S).
Proof.
  intros Hok Hkeeps Hmv Hk. eapply triple_try; [by apply healthy_locked_spec|].
  intros c. eapply commit_spec; [done|done| |done]. intros l b l' -> Hokl Ht. by apply Hmv.
Qed.

Lemma mirror_some_spec l old :
  spec (committed l old false) (mirror_some old) (on_ok (fun _ => synced (settled l))).
Proof.
  destruct old as [c|]; cbn.
  - intros w [Hw Hh]. specialize (Hh eq_refl). cbn in Hh. by apply mirror_spec.
  - apply triple_ret. intros w [Hw Hs]. specialize (Hs eq_refl). cbn in Hs.
    rewrite settled_id; [done|]. apply Hs.
Qed.
End Gate.
