(* ===== verification/RecoveryOpSpecs.v ===== *)
(** Every operation of a running process, as a triple: a success is exactly its
    transaction on the settled ledger, published to Redis; a failure keeps the
    invariant, the history and the way back into step. *)

From Stdlib Require Import String Ascii NArith Lia.
From stdpp Require Import base gmap strings option list fin_maps relations.
From S2P Require Import Prelude Json JsonValue Redis RedisProg Errors FinalityTypes.
From S2P Require Import RecoveryLedger RecoveryChecks EngineProg RecoveryJournal RecoveryOps.
From S2P Require Import RecoveryOffline RecoverySpec RecoveryKeeps RecoveryTxns RecoveryGate.

Section OpSpecs.
Context `{Primitives} `{!Json Value, !Json FinalityEvidence}.
Context (T : turn -> Prop).
#[local] Notation spec P p Q := (triple T (step T) P p Q).

(** [d] was a ledger on which the transaction succeeds with [b]; its outcome is now
    published. *)
Definition effect {B} (d : disk) (txn : Ledger -> recovery_result (B * Ledger)) (b : B) (w : world) : Prop :=
  ∃ l l', d = LedgerFile l /\ txn (settled l) = Ok (b, l') /\ synced (settled l') w.

(** ** Versions *)

Lemma advance_moves l l1 c l' :
  l_control l1 = l_control l -> l_projection l1 = l_projection l -> advance l1 = Ok (c, l') ->
  moves l l' (Some c) false.
Proof.
  intros Hc Hp (-> & _ & _ & _ & Hpr & ->)%advance_Ok. unfold moves. cbn. rewrite Hc, Hp in *.
  split_and!; [done..|]. by eexists.
Qed.
Lemma moves_refl l : moves l l None false.
Proof. done. Qed.

Lemma insert_admission_same i k f e l l1 :
  insert_admission i k f e l = Ok l1 -> l_control l1 = l_control l /\ l_projection l1 = l_projection l.
Proof. unfold insert_admission. destruct (_ !! _); [done|]. by intros [= <-]. Qed.
Lemma update_replay_key_same i k l l1 :
  update_replay_key i k l = Ok l1 -> l_control l1 = l_control l /\ l_projection l1 = l_projection l.
Proof.
  unfold update_replay_key. destruct (_ !! _); [|by intros [= <-]].
  destruct (replay_owner k l); [case_decide; [|done]|]; by intros [= <-].
Qed.
Lemma insert_attempt_same a l l1 :
  insert_attempt a l = Ok l1 -> l_control l1 = l_control l /\ l_projection l1 = l_projection l.
Proof. unfold insert_attempt. destruct (_ && _); [|done]. by intros [= <-]. Qed.
Lemma insert_chain_halt_same c r l :
  l_control (insert_chain_halt c r l) = l_control l /\ l_projection (insert_chain_halt c r l) = l_projection l.
Proof. unfold insert_chain_halt. by destruct (_ !! _). Qed.

Lemma reserve_moves kind i fp enc payload l b l' :
  reserve_txn kind i fp enc payload l = Ok (b, l') -> moves l l' b.2 false.
Proof.
  destruct b as [[stored terminal] old]. intros [(a&_&_&_&_&_&_&->&->)|(l1&c&_&Hi&Ha&_&_&->)]%reserve_txn_Ok.
  - apply moves_refl.
  - apply insert_admission_same in Hi as [? ?]. by eapply advance_moves.
Qed.

Lemma broadcast_moves kind i key enc digest l old l' :
  ledger_ok l -> broadcast_txn kind i key enc digest l = Ok (old, l') -> moves l l' old false.
Proof.
  intros Hok Ht.
  apply broadcast_txn_Ok in Ht as (a&_&_&_&_&_&_&[(at0&_&_&_&_&_&_&->&->)|(l1&l2&c&Hu&Hi&Hadv&->)]); [done| |done].
  apply update_replay_key_same in Hu as [Hc1 Hp1]. apply insert_attempt_same in Hi as [Hc2 Hp2].
  eapply advance_moves; [| |done]; congruence.
Qed.

Lemma terminal_moves kind i enc normalized ev l b l' :
  terminal_txn kind i enc normalized ev l = Ok (b, l') -> moves l l' b.1 b.2.
Proof.
  destruct b as [old conflict].
  intros (a&r&_&_&_&_&_&_&[(_&->&->&->)|[(_&->&->&l1&_&->)|(_&->&l1&c&Hi&Hadv&->)]])%terminal_txn_Ok; [done|done|].
  apply insert_terminal_Ok in Hi as [_ ->]. by eapply advance_moves; [..|done].
Qed.

Lemma halt_chain_moves chain l c l' : halt_chain_txn chain l = Ok (c, l') -> moves l l' (Some c) false.
Proof.
  unfold halt_chain_txn. intros Ha. destruct (insert_chain_halt_same (u64_to_string chain) checkpoint_conflict_reason l).
  by eapply advance_moves.
Qed.

Lemma checkpoint_moves chain expected ev l b l' :
  checkpoint_txn chain expected ev l = Ok (b, l') -> moves l l' b.1.2 false.
Proof.
  destruct b as [[accepted old] conflict]. unfold checkpoint_txn. intros Ht. txn_step Ht. txn_step Ht.
  cbn [fst snd].
  assert (∀ enc l2 c, advance (set_chain_checkpoints (<[u64_to_string chain := enc]> (l_chain_checkpoints l)) l)
    = Ok (c, l2) -> moves l l2 (Some c) false) as Hadv by (intros; eapply advance_moves; [..|eassumption]; done).
  destruct (bool_decide (a0 <> expected)); [by injection Ht as <- <- <- <-|].
  destruct a0 as [e0|].
  - destruct (_ || _) in Ht.
    { txn_step Ht. destruct a0 as [c l2]. injection Ht as <- <- <- <-. by eapply (halt_chain_moves chain). }
    destruct (_ <? _)%N; [by injection Ht as <- <- <- <-|].
    destruct (_ =? _)%N; [by injection Ht as <- <- <- <-|].
    txn_step Ht. txn_step Ht. destruct a1 as [c l2]. injection Ht as <- <- <- <-. eauto.
  - txn_step Ht. txn_step Ht. destruct a1 as [c l2]. injection Ht as <- <- <- <-. eauto.
Qed.

Lemma restore_moves i payload l b l' : restore_txn i payload l = Ok (b, l') -> moves l l' b.2 false.
Proof.
  destruct b as [stored old]. unfold restore_txn. intros Ht. txn_step Ht.
  destruct a as [st|]; [|by injection Ht as <- <- <-].
  destruct (ret_recovery_mode st); [by injection Ht as <- <- <-|].
  txn_step Ht. txn_step Ht. destruct a0 as [c l2]. injection Ht as <- <- <-.
  eapply advance_moves; [..|eassumption]; done.
Qed.

Lemma recovery_broadcast_moves i payload attempt now l b l' :
  recovery_broadcast_txn i payload attempt now l = Ok (b, l') -> moves l l' b.2 false.
Proof.
  destruct b as [perm old]. unfold recovery_broadcast_txn. intros Ht. txn_step Ht. txn_step Ht.
  txn_step Ht. txn_step Ht. txn_step Ht. txn_step Ht. txn_step Ht. destruct a3 as [p l1].
  destruct p as [n t| |]; [|by injection Ht as <- <- <-..].
  txn_step Ht. destruct a3 as [c l2]. injection Ht as <- <- <-.
  assert (l_control l1 = l_control l /\ l_projection l1 = l_projection l) as [? ?].
  { unfold claim in E5. txn_step E5. txn_step E5. txn_step E5. txn_step E5. txn_step E5. txn_step E5.
    by injection E5 as <- <- <-. }
  by eapply advance_moves.
Qed.

(** ** Operations *)

Lemma ensure_healthy_spec d :
  disk_ok d ->
  spec (fun w => w_disk w = d) ensure_healthy
    (on_ok (fun _ w => ∃ l, d = LedgerFile l /\ synced (settled l) w)).
Proof.
  intros Hok. apply triple_run_owned. eapply triple_try; [by apply healthy_locked_spec|].
  intros c. apply triple_ret. intros w (l & -> & _ & Hs). by exists l.
Qed.

(** Publication, then the answer. *)
Lemma mirror_return {C} l old (r : recovery_result C) Q :
  (∀ c w, r = Ok c -> synced (settled l) w -> Q c w) ->
  spec (committed l old false)
    (ebind (mirror_some old) (fun x => match x with Ok _ => ERet r | Err e => ERet (Err e) end)) (on_ok Q).
Proof.
  intros HQ. eapply triple_try; [apply mirror_some_spec|]. intros []. apply triple_ret.
  intros w Hw. destruct r as [c|]; [|done]. by apply HQ.
Qed.

Lemma reserve_admission_spec d kind id fingerprint payload :
  disk_ok d ->
  spec (fun w => w_disk w = d) (reserve_admission kind id fingerprint payload)
    (on_ok (fun a w => identity kind id = Ok tt /\ admission_fingerprint kind payload = Ok fingerprint /\
       ∃ encoded old, canonical payload = Ok encoded /\
         effect d (reserve_txn kind id fingerprint encoded payload) (a, old) w)).
Proof.
  intros Hok. apply triple_permit. intros []; [|by apply triple_ret].
  cbn [negb]. apply triple_pure. intros [] Hid. apply triple_pure. intros fp Hfp.
  branch Hne; [by apply triple_ret|]. apply bool_decide_eq_false, dec_stable in Hne. subst fp.
  apply triple_pure. intros encoded Hc. apply triple_run_owned.
  apply (transact_spec T d _ snd (fun _ => false)); [done|apply keeps_reserve|intros; by eapply reserve_moves|].
  intros l [[stored terminal] old] l' -> _ Ht. apply mirror_return.
  intros c w [= <-] Hw. split_and!; [done|done|]. exists encoded, old. split; [done|]. by exists l, l'.
Qed.

Lemma before_broadcast_spec d kind i key attempt :
  disk_ok d ->
  spec (fun w => w_disk w = d) (before_broadcast kind i key attempt)
    (on_ok (fun _ w => identity kind i = Ok tt /\ validate_replay_key kind key = Ok tt /\
       ∃ encoded old, canonical attempt = Ok encoded /\
         effect d (broadcast_txn kind i key encoded (sha256_hex encoded)) old w)).
Proof.
  intros Hok. apply triple_pure. intros [] Hid. apply triple_pure. intros [] Hkey.
  apply triple_pure. intros encoded Hc. apply triple_run_owned.
  apply (transact_spec T d _ id (fun _ => false));
    [done|apply keeps_broadcast|intros; by eapply broadcast_moves|].
  intros l old l' -> _ Ht. eapply triple_conseq; [done| |apply mirror_some_spec].
  intros [[]|] w Hw; [|done]. split_and!; [done|done|]. exists encoded, old. split; [done|]. by exists l, l'.
Qed.

Lemma record_terminal_spec d kind i evidence :
  disk_ok d ->
  spec (fun w => w_disk w = d) (record_terminal kind i evidence)
    (on_ok (fun _ w => identity kind i = Ok tt /\
       ∃ normalized encoded old, terminal_identity evidence = Ok normalized /\ canonical evidence = Ok encoded /\
         effect d (terminal_txn kind i encoded normalized evidence) (old, false) w)).
Proof.
  intros Hok. apply triple_pure. intros [] Hid. apply triple_pure. intros normalized Hn.
  apply triple_pure. intros encoded Hc. apply triple_run_owned.
  apply (transact_spec T d _ fst snd); [done|apply keeps_terminal|intros; by eapply terminal_moves|].
  intros l [old []] l' -> _ Ht; cbn [fst snd].
  - intros w Hw. split; [by split|done].
  - eapply triple_conseq; [done| |apply mirror_some_spec]. intros [[]|] w Hw; [|done].
    split; [done|]. exists normalized, encoded, old. split_and!; [done|done|]. by exists l, l'.
Qed.

Lemma commit_checkpoint_spec d chain expected evidence :
  disk_ok d ->
  spec (fun w => w_disk w = d) (commit_checkpoint chain expected evidence)
    (on_ok (fun accepted w => ∃ old, effect d (checkpoint_txn chain expected evidence) (accepted, old, false) w)).
Proof.
  intros Hok. apply triple_run_owned.
  apply (transact_spec T d _ (fun b => b.1.2) (fun _ => false));
    [done|apply keeps_checkpoint|intros; by eapply checkpoint_moves|].
  intros l [[accepted old] conflict] l' -> _ Ht. cbn [fst snd].
  eapply triple_try; [apply mirror_some_spec|]. intros []. destruct conflict; [by apply triple_ret|].
  apply triple_ret. intros w Hw. exists old. by exists l, l'.
Qed.

Lemma halt_chain_spec d chain :
  disk_ok d ->
  spec (fun w => w_disk w = d) (halt_chain chain) (on_ok (fun _ w => ∃ old, effect d (halt_chain_txn chain) old w)).
Proof.
  intros Hok. apply triple_run_owned.
  apply (transact_spec T d _ Some (fun _ => false));
    [done|apply keeps_halt_chain|intros; by eapply halt_chain_moves|].
  intros l old l' -> _ Ht. eapply triple_conseq; [done| |apply (mirror_some_spec T l' (Some old))].
  intros [[]|] w Hw; [|done]. exists old. by exists l, l'.
Qed.

Lemma prepare_solana_restore_spec d i payload :
  disk_ok d ->
  spec (fun w => w_disk w = d) (prepare_solana_restore i payload)
    (on_ok (fun stored w => ∃ old, effect d (restore_txn i payload) (stored, old) w)).
Proof.
  intros Hok. apply triple_pure. intros [] Hid. apply triple_run_owned.
  apply (transact_spec T d _ snd (fun _ => false)); [done|apply keeps_restore|intros; by eapply restore_moves|].
  intros l [stored old] l' -> _ Ht. apply mirror_return. intros c w [= <-] Hw. exists old. by exists l, l'.
Qed.

Lemma before_solana_recovery_broadcast_spec d i payload attempt :
  disk_ok d ->
  spec (fun w => w_disk w = d) (before_solana_recovery_broadcast i payload attempt)
    (on_ok (fun permission w => ∃ now old,
       effect d (recovery_broadcast_txn i payload attempt now) (permission, old) w)).
Proof.
  intros Hok. apply triple_pure. intros [] Hid. apply triple_run_owned.
  eapply triple_try; [by apply healthy_locked_spec|]. intros c. apply triple_now. intros now.
  apply (commit_spec T d c _ snd (fun _ => false));
    [done|apply keeps_recovery_broadcast|intros; by eapply recovery_broadcast_moves|].
  intros l [permission old] l' -> _ Ht. apply mirror_return.
  intros b w [= <-] Hw. exists now, old. by exists l, l'.
Qed.

(** ** Read-only operations *)

(** Reads after the gate see the settled ledger. *)
Lemma gated_read_spec {B} d (f : Ledger -> recovery_result B) :
  disk_ok d ->
  spec (fun w => ∃ l, d = LedgerFile l /\ synced (settled l) w) (db_read f)
    (on_ok (fun b w => ∃ l, d = LedgerFile l /\ f (settled l) = Ok b /\ synced (settled l) w)).
Proof.
  intros Hok. apply db_read_spec. intros w l b (l0 & -> & Hs) Hd Hf. exists l0.
  pose proof Hs as (Hd' & _). rewrite Hd in Hd'. injection Hd' as ->. done.
Qed.

(** A read-only operation leaves the settled ledger. *)
Definition reads {B} (d : disk) (f : Ledger -> recovery_result B) (b : B) (w : world) : Prop :=
  ∃ l, d = LedgerFile l /\ f (settled l) = Ok b /\ synced (settled l) w.

Lemma validate_replay_binding_spec d kind i key :
  disk_ok d ->
  spec (fun w => w_disk w = d) (validate_replay_binding kind i key)
    (on_ok (fun _ => reads d (binding_check kind i key) tt)).
Proof.
  intros Hok. apply triple_pure. intros [] Hid. apply triple_pure. intros [] Hkey. apply triple_run_owned.
  eapply triple_try; [by apply healthy_locked_spec|]. intros c.
  eapply triple_conseq; [| |by apply (gated_read_spec d)].
  - intros w (l & -> & _ & Hs). by exists l.
  - by intros [[]|] w.
Qed.

Lemma latest_eoa_attempt_spec d i expected :
  disk_ok d ->
  spec (fun w => w_disk w = d) (latest_eoa_attempt i expected)
    (on_ok (fun v => reads d (latest_attempt i expected) v)).
Proof.
  intros Hok. apply triple_pure. intros [] Hid. apply triple_pure. intros [] Hkey.
  eapply triple_try; [by apply ensure_healthy_spec|]. intros []. by apply gated_read_spec.
Qed.

Lemma validate_attempt_identity_spec d kind i witness :
  disk_ok d ->
  spec (fun w => w_disk w = d) (validate_attempt_identity kind i witness)
    (on_ok (fun _ => reads d (attempt_identity_check kind i witness) tt)).
Proof.
  intros Hok. eapply triple_try; [by apply ensure_healthy_spec|]. intros [].
  eapply triple_post; [by apply gated_read_spec|]. by intros [[]|] w.
Qed.

Lemma check_chain_healthy_spec d chain :
  disk_ok d ->
  spec (fun w => w_disk w = d) (check_chain_healthy chain)
    (on_ok (fun _ => reads d (ensure_chain_not_halted (u64_to_string chain)) tt)).
Proof.
  intros Hok. eapply triple_try; [by apply ensure_healthy_spec|]. intros [].
  eapply triple_post; [by apply gated_read_spec|]. by intros [[]|] w.
Qed.

Lemma load_checkpoint_spec d chain :
  disk_ok d ->
  spec (fun w => w_disk w = d) (load_checkpoint chain)
    (on_ok (fun e => reads d (fun l => load_chain_checkpoint l chain) e)).
Proof.
  intros Hok. eapply triple_try; [by apply check_chain_healthy_spec|]. intros [].
  eapply triple_conseq; [|done|by apply (gated_read_spec d)]. intros w (l & -> & _ & Hs). by exists l.
Qed.

Lemma validate_admission_spec d kind i fingerprint :
  disk_ok d ->
  spec (fun w => w_disk w = d) (validate_admission kind i fingerprint)
    (on_ok (fun _ w => ∃ r, (rec_fingerprint r = fingerprint /\ rec_state r = StAdmitted) /\
       reads d (admission_of kind i) (Some r) w)).
Proof.
  intros Hok. eapply triple_try; [by apply ensure_healthy_spec|]. intros [].
  eapply triple_try; [by apply gated_read_spec|]. intros found. apply triple_pure.
  intros r ->%ok_or_Ok. branch Hf; [by apply triple_ret|]. branch Hs; [by apply triple_ret|].
  apply bool_decide_eq_false, dec_stable in Hf, Hs. apply triple_ret. intros w Hw. exists r. by split_and!.
Qed.

Lemma validate_payload_spec d kind i payload :
  disk_ok d ->
  spec (fun w => w_disk w = d) (validate_payload kind i payload)
    (on_ok (fun _ w => ∃ r text, reads d (admission_of kind i) (Some r) w /\ rec_state r = StAdmitted /\
       admission_fingerprint kind payload = Ok (rec_fingerprint r) /\
       canonical (rec_payload r) = Ok text /\ canonical payload = Ok text)).
Proof.
  intros Hok. apply triple_pure. intros fp Hfp.
  eapply triple_try; [by apply validate_admission_spec|]. intros [].
  apply triple_ex. intros r [<- Hs].
  eapply (triple_try _ _ _ _ _ (fun found w => reads d (admission_of kind i) (Some r) w /\ found = Some r)).
  { apply db_read_spec. intros w l found Hr Hd Hf. split; [done|]. destruct Hr as (l0 & -> & Hf0 & Hd0 & _).
    rewrite Hd in Hd0. injection Hd0 as ->. congruence. }
  intros found. apply triple_and. intros ->. apply triple_pure. intros r' [= <-].
  apply triple_pure. intros stored Hst. apply triple_pure. intros wanted Hw.
  branch Hne; [by apply triple_ret|]. apply bool_decide_eq_false, dec_stable in Hne. subst wanted.
  apply triple_ret. intros w Hr. by exists r, stored.
Qed.
End OpSpecs.
