(* ===== verification/RecoveryOfflineSpecs.v ===== *)
(** Startup and the offline commands as triples. *)

From Stdlib Require Import String Ascii NArith Lia.
From stdpp Require Import base gmap strings option list fin_maps relations.
From S2P Require Import Prelude Json JsonValue Redis RedisProg Errors FinalityTypes.
From S2P Require Import RecoveryLedger RecoveryChecks EngineProg RecoveryJournal RecoveryOps.
From S2P Require Import RecoveryOffline RecoverySpec RecoveryKeeps RecoveryTxns RecoveryGate.
From S2P Require Import RecoveryOpSpecs.

Section OfflineSpecs.
Context `{Primitives} `{!Json Value, !Json FinalityEvidence}.
Context (T : turn -> Prop).
#[local] Notation spec P p Q := (triple T (step T) P p Q).

(** ** Calls that leave the file alone *)

Lemma owner_lock_spec P : spec P owner_lock (on_ok (fun _ => P)).
Proof. apply triple_permit. intros []; by apply triple_ret. Qed.

Lemma disk_query_spec {B} (f : disk -> recovery_result (B * disk)) (P : world -> Prop) Q :
  (∀ d b d', f d = Ok (b, d') -> d' = d) ->
  (∀ w b, P w -> f (w_disk w) = Ok (b, w_disk w) -> Q b w) -> spec P (EDisk f ERet) (on_ok Q).
Proof.
  intros Hf HQ. apply disk_spec; intros [d failed s] b d' Hw Hd; pose proof (Hf _ _ _ Hd) as ->;
    [by split|by apply HQ].
Qed.
Lemma path_exists_spec P :
  spec P path_exists (on_ok (fun b w => P w /\ (b = false -> w_disk w = NoFile))).
Proof.
  apply disk_query_spec; [by intros d b d' [= _ <-]|]. intros w b Hw [= <-]. split; [done|].
  by destruct (w_disk w).
Qed.
Lemma connection_spec P : spec P connection (on_ok (fun _ => P)).
Proof. apply disk_query_spec; [|done]. intros [] b d'; [done|by intros [= _ <-]..]. Qed.

(** Reading the server changes nothing of it. *)
Lemma server_read_spec {B} (f : server -> B) (P : disk -> Prop) :
  spec (fun w => P (w_disk w)) (call (fun s => (s, f s))) (on_ok (fun _ w => P (w_disk w))).
Proof. apply call_spec; [by intros [] |done]. Qed.
Lemma empty_namespace_spec ns (P : disk -> Prop) :
  spec (fun w => P (w_disk w)) (empty_namespace ns) (on_ok (fun _ w => P (w_disk w))).
Proof.
  assert (∀ pre, spec (fun w => P (w_disk w)) (scan_empty pre) (on_ok (fun _ w => P (w_disk w)))) as Hscan.
  { intros pre. eapply triple_try; [apply server_read_spec|]. intros keys. case_bool_decide; by apply triple_ret. }
  apply triple_pure. intros [] _. destruct ns; [|apply Hscan].
  eapply triple_try; [apply Hscan|]. intros []. apply Hscan.
Qed.

(** ** Startup *)

Lemma migrate_moves l l' :
  (c_schema (l_control l) < SCHEMA)%N -> migrate l = Ok l' ->
  c_schema (l_control l') = SCHEMA /\ moves l l' (Some (l_control l)) false.
Proof.
  intros Hs. unfold migrate. destruct (control l) eqn:E; [|done]. apply control_Ok in E as [-> _].
  destruct (N.eqb_spec (c_schema (l_control l)) SCHEMA); [lia|].
  destruct (c_halted _); [done|]. destruct (load_pending _ _) as [[p|]|]; [done| |done].
  destruct (if _ : bool then _ else _) as [projection|]; [|done].
  destruct (create_table _ _) as [solana|]; [|done].
  destruct (control _) as [new|] eqn:E; [|done]. apply control_Ok in E as [-> _].
  unfold record_pending. destruct (validate_pending _ _); [|done].
  destruct (l_projection _) as [[q|]|]; [done| |done]. intros [= <-]. split; [done|].
  unfold moves. cbn. split_and!; [done..|]. by eexists.
Qed.

Lemma synced_disk l w : synced l w -> w_disk w = LedgerFile l.
Proof. by intros [? _]. Qed.

Lemma passed_control {A} d c (p : eprog A) Q :
  (∀ l, d = LedgerFile l -> c = l_control l -> spec (passed d c) p Q) -> spec (passed d c) p Q.
Proof. intros Hp w Hw. pose proof Hw as (l & Hd & Hc & _). by apply (Hp l). Qed.

Lemma prepare_owned_startup_spec d :
  disk_ok d ->
  spec (fun w => w_disk w = d) prepare_owned_startup
    (on_ok (fun c w => ∃ l, c = l_control l /\ synced l w /\ c_schema (l_control l) = SCHEMA)).
Proof.
  intros Hok. eapply (storage_try T _ _ _ (fun _ w => w_disk w = d)); [by apply db_read_spec|].
  intros []. eapply triple_try; [by apply healthy_locked_spec|]. intros c0.
  eapply (triple_try _ _ _ _ _ (fun _ w => ∃ l, d = LedgerFile l /\ w_disk w = LedgerFile (settled l))).
  { apply db_read_spec. intros w l [] (l0 & -> & _ & Hs%synced_disk) _ _. by exists l0. }
  intros []. apply triple_ex. intros l ->. apply settled_ok in Hok. revert Hok. generalize (settled l).
  clear l c0. intros l Hok. eapply triple_try; [by apply healthy_locked_spec|]. intros c.
  apply passed_control. intros l0 [= <-] ->. branch Hold.
  - apply N.ltb_lt in Hold. rewrite <- (settled_control l) in Hold.
    apply (commit_spec T (LedgerFile l) _ _ (fun _ => Some (l_control (settled l))) (fun _ => false)); [done|..].
    + intros l1 [] l1' Hok1 Hm. destruct (migrate l1) eqn:E; [|done]. injection Hm as <-. by eapply kept_migrate.
    + intros l1 [] l1' [= <-] _ Hm. destruct (migrate (settled l)) eqn:E; [|done]. injection Hm as <-.
      by apply migrate_moves.
    + intros l1 [] l1' [= <-] Hokl Hm. destruct (migrate (settled l)) eqn:E; [|done]. injection Hm as <-.
      assert (ledger_ok a) by by eapply kept_migrate. apply migrate_moves in E as [E _]; [|done].
      eapply triple_conseq; [| |by apply (healthy_locked_spec T (LedgerFile a))].
      * by intros w [[Hd _] _].
      * intros [c|] w; [|done]. intros (l1 & [= <-] & -> & Hs). exists (settled a). by rewrite settled_control.
  - apply N.ltb_ge in Hold. apply triple_ret. intros w (l0 & [= <-] & _ & Hs). exists (settled l).
    rewrite settled_control. split_and!; [done..|]. pose proof (ok_schema _ Hok) as Hsc.
    rewrite !elem_of_cons, elem_of_nil in Hsc. unfold SCHEMA in *. lia.
Qed.

Lemma open_journal_spec d ns :
  disk_ok d ->
  spec (fun w => w_disk w = d) (open_journal ns)
    (on_ok (fun _ w => ∃ l, synced l w /\ c_schema (l_control l) = SCHEMA)).
Proof.
  intros Hok. eapply triple_try; [apply path_exists_spec|]. intros ex. branch Hex; [by apply triple_ret|].
  eapply triple_conseq; [by intros w [Hw _]; exact Hw|done|].
  apply triple_pure. intros [] _. eapply triple_try; [apply owner_lock_spec|]. intros [].
  eapply triple_try; [apply connection_spec|]. intros [].
  eapply (triple_try _ _ _ _ _ (fun _ w => w_disk w = d)); [by apply db_read_spec|]. intros c.
  branch Hns; [by apply triple_ret|]. eapply triple_try; [apply (server_read_spec _ (fun d' => d' = d))|]. intros [].
  eapply triple_try; [by apply prepare_owned_startup_spec|]. intros c'. apply triple_ret.
  intros w (l & _ & Hs & Hsc). by exists l.
Qed.

(** ** Durable stop *)

Lemma quarantine_spec d :
  spec (fun w => w_disk w = d) quarantine
    (on_ok (fun _ w => ∃ l, d = LedgerFile l /\ w_disk w = LedgerFile (latch_halt "operator quarantine" l))).
Proof.
  eapply triple_try; [apply owner_lock_spec|]. intros []. eapply triple_try; [apply connection_spec|]. intros [].
  eapply (triple_try _ _ _ _ _ (fun _ w => w_disk w = d)); [by apply db_read_spec|]. intros c.
  apply db_spec.
  - intros l [] l' Hok [= <-]. by apply kept_latch_halt.
  - intros w l [] l' _ _ [= <-] Hok _ _. split; [by apply kept_latch_halt|]. done.
  - intros w l [] l' -> Hd [= <-]. by exists l.
Qed.

(** ** Reattachment *)

(** A ledger that Redis holds exactly: attached, not halted, nothing pending. *)
Definition attached (l : Ledger) (w : world) : Prop :=
  w_disk w = LedgerFile l /\ c_halted (l_control l) = false /\
  (∀ p, l_projection l <> Some (Some p)) /\ in_step l (w_server w).

Lemma in_step_intro l s :
  (∀ p, l_projection l <> Some (Some p)) -> sv_role s = "master" -> sv_run_id s = c_run_id (l_control l) ->
  marker_of (control_key (l_control l)) s = Some (token (l_control l)) -> in_step l s.
Proof.
  intros Hp Hrole Hrun Hm. unfold in_step. destruct (l_projection l) as [[p|]|]; [by destruct (Hp p)|done..].
Qed.

Lemma reattach_txn_Ok l pending run b l' :
  ledger_ok l -> reattach_txn (l_control l) pending run l = Ok (b, l') ->
  c_halted (l_control l') = false /\ (∀ p, l_projection l' <> Some (Some p)) /\
  token (l_control l') = token (l_control l) /\ control_key (l_control l') = control_key (l_control l) /\
  c_run_id (l_control l') = run.
Proof.
  intros Hok Ht. unfold reattach_txn in Ht. destruct (control l) eqn:E in Ht; [|done].
  apply control_Ok in E as [-> _]. rewrite bool_decide_false in Ht by (intros Hn; by apply Hn).
  destruct (load_pending _ _) as [now|] eqn:Hnow in Ht; [|done].
  destruct (bool_decide (now <> pending)) eqn:Hne in Ht; [done|].
  apply bool_decide_eq_false, dec_stable in Hne. subst now.
  destruct (match pending with Some _ => _ | None => _ end) as [l1|] eqn:Hl1 in Ht; [|done].
  injection Ht as <- <-. cbn.
  assert (l_control l1 = l_control l /\ ∀ p, l_projection l1 <> Some (Some p)) as [-> Hp]; [|by split_and!].
  destruct pending as [p|].
  - unfold remove_exact in Hl1. destruct (l_projection l) as [[q|]|]; [|done..]. case_decide; [|done].
    by injection Hl1 as <-.
  - injection Hl1 as <-. split; [done|]. by apply load_pending_None.
Qed.

(** The ledger as the transaction left it: attached to [run] at [l]'s token. *)
Definition reattached (l : Ledger) (run : string) (l' : Ledger) : Prop :=
  c_halted (l_control l') = false /\ (∀ p, l_projection l' <> Some (Some p)) /\
  token (l_control l') = token (l_control l) /\ control_key (l_control l') = control_key (l_control l) /\
  c_run_id (l_control l') = run.

Lemma reattach_commit_spec l pending run :
  ledger_ok l -> (c_halted (l_control l) = true -> clearable (c_reason (l_control l)) = true) ->
  spec (fun w => w_disk w = LedgerFile l /\ sv_run_id (w_server w) = run /\ sv_role (w_server w) = "master" /\
          marker_of (control_key (l_control l)) (w_server w) = Some (token (l_control l)))
    (db (reattach_txn (l_control l) pending run))
    (on_ok (fun _ w => ∃ l', reattached l run l' /\ w_disk w = LedgerFile l')).
Proof.
  intros Hok Hclear. apply db_spec; [by apply keeps_reattach|..].
  - intros w l1 [] l' (Hd & Hr & Hrole & Hm) Hl Ht _ _ _. rewrite Hd in Hl. injection Hl as <-.
    split; [by eapply (keeps_reattach _ _ _ Hclear)|]. intros _.
    destruct (reattach_txn_Ok _ _ _ _ _ Hok Ht) as (_ & Hp & Htok & Hk & Hrun).
    apply in_step_intro; cbn; [done|done|by rewrite Hrun|by rewrite Hk, Htok].
  - intros w l1 [] l' (Hd & _) Hl Ht. rewrite Hd in Hl. injection Hl as <-. exists l'. split; [|done].
    by eapply reattach_txn_Ok.
Qed.

Lemma reattach_confirm_spec l run l' :
  reattached l run l' ->
  spec (fun w => w_disk w = LedgerFile l')
    (ebind (observation (control_key (l_control l))) (fun seen =>
       match reattach_failure (l_control l) run seen with
       | Some reason => ebind (db (fun l => Ok (tt, latch_halt reason l)))
           (fun r => match r with Ok _ => ERet (Err (RecoveryRequired reason)) | Err e => ERet (Err e) end)
       | None => db_read status
       end)) (on_ok (fun _ => attached l')).
Proof.
  intros (Hh & Hp & Htok & Hk & Hrun). eapply triple_bind.
  { apply (observation_spec _ _ _ (fun o w => w_disk w = LedgerFile l' /\ o =
      (sv_run_id (w_server w), sv_role (w_server w), marker_of (control_key (l_control l)) (w_server w)))).
    by intros w s Hd. }
  intros seen. destruct (reattach_failure _ _ _) as [reason|] eqn:Hf.
  - eapply (triple_try _ _ _ _ _ (fun _ _ => True)); [|intros []; by apply triple_ret].
    apply db_spec; [| |done].
    + intros l1 [] l2 Hok1 [= <-]. by apply kept_latch_halt.
    + intros w l1 [] l2 _ _ [= <-] Hok1 _ _. split; [by apply kept_latch_halt|done].
  - destruct seen as [[[run' role'] marker']|]; [|done]. cbn in Hf.
    destruct (bool_decide _) eqn:Hm in Hf; [done|]. destruct (bool_decide _) eqn:Hrole in Hf; [done|].
    destruct (bool_decide _) eqn:Hr in Hf; [done|].
    apply bool_decide_eq_false, dec_stable in Hm, Hrole, Hr. apply db_read_spec.
    intros w l1 st [Hd Ho] _ _. unfold attached. injection Ho as -> -> ->. split_and!; [done..|].
    apply in_step_intro; [done|done|by rewrite Hrun|by rewrite Hk, Htok].
Qed.

Lemma reattach_spec d ns :
  disk_ok d ->
  spec (fun w => w_disk w = d) (reattach ns) (on_ok (fun _ w => ∃ l, attached l w)).
Proof.
  intros Hok. eapply triple_try; [apply owner_lock_spec|]. intros [].
  eapply triple_try; [apply connection_spec|]. intros [].
  eapply (triple_try _ _ _ _ _ (fun c w => ∃ l, (d = LedgerFile l /\ c = l_control l) /\ w_disk w = d)).
  { apply db_read_spec. intros w l c Hd Hl [-> _]%control_Ok. exists l. by rewrite <- Hd. }
  intros c. apply triple_ex. intros l [-> ->]. cbn in Hok.
  eapply (triple_try _ _ _ _ _ (fun _ w => w_disk w = LedgerFile l)); [by apply db_read_spec|]. intros [].
  eapply (triple_try _ _ _ _ _ (fun _ w => w_disk w = LedgerFile l)); [by apply db_read_spec|]. intros pending.
  branch Hns; [by apply triple_ret|]. branch Hcl; [by apply triple_ret|].
  eapply triple_try; [apply (server_read_spec _ (fun d' => d' = LedgerFile l))|]. intros [].
  eapply (triple_try _ _ _ _ _ (fun o w => w_disk w = LedgerFile l /\
    o = (sv_run_id (w_server w), sv_role (w_server w), marker_of (control_key (l_control l)) (w_server w)))).
  { by apply observation_spec. }
  intros [[run role] marker]. branch Hg; [by apply triple_ret|].
  apply orb_false_iff in Hg as [Hrole Hm]. apply bool_decide_eq_false, dec_stable in Hrole, Hm.
  eapply triple_try.
  - eapply triple_conseq; [|done|apply (reattach_commit_spec l pending run Hok)].
    + intros w [Hd Ho]. injection Ho as -> -> ->. done.
    + intros Hh. rewrite Hh in Hcl. by apply negb_false_iff in Hcl.
  - intros []. apply triple_ex. intros l' Hl'. eapply triple_post; [by apply reattach_confirm_spec|].
    intros [st|] w Hw; [by exists l'|done].
Qed.

(** ** Clearing the halt of a new checkpoint *)

(** The tail of [recover] and [initialize]: a ledger without contradictions whose token
    Redis holds becomes live. *)
Lemma clear_halt_spec l (P : world -> Prop) :
  terminal_conflict l = false -> (∀ p, l_projection l <> Some (Some p)) ->
  (∀ w, P w -> w_disk w = LedgerFile l /\ (is_steady T -> in_step l (w_server w))) ->
  spec P (db clear_halt)
    (on_ok (fun _ w => w_disk w = LedgerFile (set_control (with_halt false None (l_control l)) l) /\
       P (mkWorld (LedgerFile l) (w_failed w) (w_server w)))).
Proof.
  intros Hnc Hp HP. apply db_spec_at.
  - intros w l1 [] l' Hw Hd Hok [= <-]. destruct (HP w Hw) as [Hd' _]. rewrite Hd in Hd'. injection Hd' as ->.
    by apply kept_clear_halt.
  - intros w l1 [] l' Hw Hd [= <-] Hok Hst _. destruct (HP w Hw) as [Hd' Hin]. rewrite Hd in Hd'.
    injection Hd' as ->. split; [by apply kept_clear_halt|]. intros _. destruct (Hin Hst) as (Hrole & Hrun & Hm).
    apply in_step_intro; [done..|]. cbn. destruct (l_projection l) as [[p|]|]; [by destruct (Hp p)|done..].
  - intros w l1 [] l' Hw Hd [= <-]. destruct (HP w Hw) as [Hd' _]. rewrite Hd in Hd'. injection Hd' as ->.
    split; [done|]. rewrite <- Hd. by destruct w.
Qed.

(** [SET NX] on a halted ledger. *)
Lemma set_nx_spec l (P : server -> Prop) key value :
  c_halted (l_control l) = true ->
  spec (fun w => w_disk w = LedgerFile l /\ (is_steady T -> P (w_server w))) (call (set_nx key value))
    (on_ok (fun ok w => w_disk w = LedgerFile l /\
       (ok = true -> marker_of key (w_server w) = Some value /\
          (is_steady T -> ∃ s, P s /\ w_server w = put_marker key value s)))).
Proof.
  intros Hh. apply steady_call_spec.
  - intros w [Hd _]. unfold consistent. cbn. rewrite Hd. intros [Hok _]. split; [done|]. congruence.
  - intros w s [Hd HP] Hs. split; [done|]. unfold set_nx. destruct (exists_key _ _); [done|]. cbn.
    intros _. split; [unfold marker_of, put_marker; cbn; by rewrite str_put_str, decide_True|].
    intros Hst. exists s. split; [|done]. rewrite Hs by by apply steady_undisturbed. auto.
Qed.

(** ** Recovery *)

Definition recovered (l : Ledger) (ns : option string) (run : string) (l' : Ledger) : Prop :=
  terminal_conflict l' = false /\ l_admissions l' = quarantine_attempted l /\
  l_control l' = recovered_control ns run (l_control l) /\ l_attempts l' = l_attempts l /\
  l_projection l' = Some None.

Lemma recover_commit_spec l disc ns run :
  ledger_ok l -> terminal_conflict l = false ->
  spec (fun w => w_disk w = LedgerFile l) (db (recover_txn (l_control l) disc ns run))
    (on_ok (fun _ w => ∃ l', recovered l ns run l' /\ w_disk w = LedgerFile l')).
Proof.
  intros Hok Hnc. apply db_spec_at.
  - intros w l1 [] l' Hd Hl _ Ht. rewrite Hd in Hl. injection Hl as <-. by eapply recover_txn_Ok.
  - intros w l1 [] l' Hd Hl Ht _ _ _. rewrite Hd in Hl. injection Hl as <-.
    destruct (recover_txn_Ok _ _ _ _ _ Hok Hnc Ht) as ([Hok' _] & _ & _ & Hc & _). split; [done|].
    rewrite Hc. done.
  - intros w l1 [] l' Hd Hl Ht. rewrite Hd in Hl. injection Hl as <-. exists l'. split; [|done].
    by eapply recover_txn_Ok.
Qed.

Lemma recover_confirm_spec l ns run l' :
  recovered l ns run l' ->
  spec (fun w => w_disk w = LedgerFile l')
    (ebind (observation (control_key (l_control l'))) (fun r => match r with
       | Ok (current_run, current_role, current_marker) =>
          if bool_decide (current_run <> c_run_id (l_control l')) || bool_decide (current_role <> "master")
             || bool_decide (current_marker <> Some (token (l_control l')))
          then ERet (Err (RecoveryRequired "Redis changed during recovery"))
          else ebind (db clear_halt) (fun r => match r with Ok _ => db_read status | Err e => ERet (Err e) end)
       | Err e => ERet (Err e) end))
    (on_ok (fun _ w => attached (set_control (with_halt false None (l_control l')) l') w)).
Proof.
  intros (Hnc & _ & Hc & _ & Hp).
  eapply (triple_try _ _ _ _ (fun o => let '(r, ro, m) := o in _) (fun o w => w_disk w = LedgerFile l' /\ o =
      (sv_run_id (w_server w), sv_role (w_server w), marker_of (control_key (l_control l')) (w_server w)))).
  { by apply observation_spec. }
  intros [[r ro] m]. branch Hg; [by apply triple_ret|].
  apply orb_false_iff in Hg as [Hg Hm]. apply orb_false_iff in Hg as [Hrun Hrole].
  apply bool_decide_eq_false, dec_stable in Hm, Hrole, Hrun. subst r ro m.
  eapply triple_try.
  - apply (clear_halt_spec l'); [done|by rewrite Hp|]. intros w [Hd [= Hrun Hrole Hm]]. split; [done|].
    intros _. apply in_step_intro; [by rewrite Hp|done..].
  - intros []. apply db_read_spec. intros w l1 st (Hd & _ & [= Hrun Hrole Hm]) _ _.
    split_and!; [done|done|cbn; by rewrite Hp|]. apply in_step_intro; [cbn; by rewrite Hp|done..].
Qed.

Lemma recover_spec d ns :
  disk_ok d ->
  spec (fun w => w_disk w = d) (recover ns)
    (on_ok (fun _ w => ∃ l l' run, d = LedgerFile l /\ terminal_conflict l = false /\ recovered l ns run l' /\
       attached (set_control (with_halt false None (l_control l')) l') w)).
Proof.
  intros Hok. apply triple_pure. intros [] _. branch Hns; [by apply triple_ret|].
  eapply triple_try; [apply owner_lock_spec|]. intros []. eapply triple_try; [apply connection_spec|]. intros [].
  eapply (triple_try _ _ _ _ (fun o => let '(old, discarded, conflict) := o in _)
    (fun o w => ∃ l, (d = LedgerFile l /\ o = (l_control l, o.1.2, terminal_conflict l)) /\ w_disk w = d)).
  { apply db_read_spec. intros w l o Hd Hl Ho. exists l. rewrite <- Hd. split; [|done]. split; [done|].
    unfold recover_load in Ho. txn_step Ho. apply control_Ok in E as [-> _]. txn_step Ho. by injection Ho as <-. }
  intros [[old disc] conflict]. apply triple_ex. intros l [-> [= -> ->]]. cbn in Hok.
  branch Hnc; [by apply triple_ret|]. branch Hsame; [by apply triple_ret|]. branch Hep; [by apply triple_ret|].
  eapply triple_try; [apply (server_read_spec _ (fun d' => d' = LedgerFile l))|]. intros [].
  eapply triple_try; [apply (empty_namespace_spec _ (fun d' => d' = LedgerFile l))|]. intros [].
  eapply (triple_try _ _ _ _ (fun o => let '(run, role, m) := o in _) (fun _ w => w_disk w = LedgerFile l)).
  { by apply observation_spec. }
  intros [[run role] m]. branch Hrole; [by apply triple_ret|].
  eapply triple_try; [by apply recover_commit_spec|]. intros []. apply triple_ex. intros l' Hl'.
  eapply (triple_try _ _ _ _ _ (fun c w => (w_disk w = LedgerFile l' /\ (is_steady T -> True)) /\ c = l_control l')).
  { apply db_read_spec. intros w l1 c Hd Hl1 [-> _]%control_Ok. rewrite Hd in Hl1. by injection Hl1 as ->. }
  intros c. apply triple_and. intros ->.
  eapply triple_try; [apply (set_nx_spec l' (fun _ => True)); by destruct Hl' as (_ & _ & -> & _)|].
  intros [] ; [|by apply triple_ret]. cbn [negb].
  eapply triple_conseq; [| |by apply (recover_confirm_spec l ns run l')].
  - by intros w [Hd _].
  - intros [st|] w Hw; [by exists l, l', run|done].
Qed.

(** ** Creation *)

Lemma fresh_ledger_ok deployment run ns : ledger_ok (fresh_ledger deployment run ns).
Proof.
  split; cbn; try done.
  - unfold SCHEMA. set_solver.
  - intros a Ha. set_solver.
  - apply NoDup_nil_2.
  - intros e He. set_solver.
  - by intros rows i r [= <-].
Qed.

Lemma create_spec deployment run ns (P : server -> Prop) (k : unit -> eprog (recovery_result unit)) Q :
  spec (fun w => w_disk w = LedgerFile (fresh_ledger deployment run ns) /\ (is_steady T -> P (w_server w)))
    (k tt) (on_ok Q) ->
  spec (fun w => is_steady T -> P (w_server w))
    (ebind (EDisk (fun d => match d with NoFile => Ok (tt, EmptyFile) | _ => Err Storage end) ERet)
       (fun r => match r with
        | Ok _ => ebind (EDisk (fun d => match d with
            | EmptyFile => Ok (tt, LedgerFile (fresh_ledger deployment run ns)) | _ => Err Storage end) ERet)
            (fun r => match r with Ok u => k u | Err e => ERet (Err e) end)
        | Err e => ERet (Err e) end)) (on_ok Q).
Proof.
  intros Hk. eapply (triple_try _ _ _ _ (fun _ => _) (fun _ w => is_steady T -> P (w_server w))).
  { apply disk_spec; intros [[| |l] f s] [] d' Hw [= <-]; [|done]. by split. }
  intros []. eapply (triple_try _ _ _ _ _ (fun _ w => w_disk w = LedgerFile (fresh_ledger deployment run ns) /\
    (is_steady T -> P (w_server w)))); [|by intros []].
  apply disk_spec; intros [[| |l] f s] [] d' Hw [= <-]; [|done].
  split; [|intros _ _; split; [|done]]; [intros _; split; [|done]|]; apply fresh_ledger_ok.
Qed.

Lemma initialize_spec deployment ns :
  spec (fun _ => True) (initialize deployment ns)
    (on_ok (fun _ w => ∃ run, let c := mkControl SCHEMA deployment 1 0 ns run false None in
       w_disk w = LedgerFile (set_control c (fresh_ledger deployment run ns)) /\
       marker_of (control_key c) (w_server w) = Some (token c))).
Proof.
  apply triple_pure. intros [] _. eapply triple_try; [apply path_exists_spec|]. intros ex.
  branch Hex; [by apply triple_ret|]. eapply triple_try; [apply owner_lock_spec|]. intros [].
  eapply (triple_conseq _ _ (fun w => (fun _ : disk => True) (w_disk w)) _ _ _ _); [done|intros a w Hw; exact Hw|].
  eapply triple_try; [apply (server_read_spec _ (fun _ => True))|]. intros [].
  eapply triple_try; [apply (empty_namespace_spec _ (fun _ => True))|]. intros [].
  eapply (triple_try _ _ _ _ (fun o => let '(run, role, m) := o in _)
    (fun o w => o.1 = (sv_run_id (w_server w), sv_role (w_server w)))); [by apply observation_spec|].
  intros [[run role] m]. branch Hrole; [by apply triple_ret|]. apply bool_decide_eq_false, dec_stable in Hrole. subst role.
  set (l := fresh_ledger deployment run ns).
  eapply (triple_conseq _ _ (fun w => is_steady T -> sv_run_id (w_server w) = run /\ sv_role (w_server w) = "master"));
    [by intros w [= -> ->]|intros a w Hw; exact Hw|].
  apply (create_spec _ _ _ (fun s => sv_run_id s = run /\ sv_role s = "master") (fun _ => _)). fold l.
  eapply (triple_try _ _ _ _ _ (fun c w => (w_disk w = LedgerFile l /\
    (is_steady T -> sv_run_id (w_server w) = run /\ sv_role (w_server w) = "master")) /\ c = l_control l)).
  { apply db_read_spec. intros w l1 c [Hd Hs] Hl1 [-> _]%control_Ok. rewrite Hd in Hl1. by injection Hl1 as <-. }
  intros c. apply triple_and. intros ->.
  eapply triple_try; [by apply (set_nx_spec l (fun s => sv_run_id s = run /\ sv_role s = "master"))|].
  intros [] ; [|by apply triple_ret]. cbn [negb].
  eapply triple_post.
  { apply (clear_halt_spec l); [done|done|]. intros w [Hd Hs]. split; [done|]. intros Hst.
    destruct (Hs eq_refl) as [Hm Hin]. destruct (Hin Hst) as (s & [Hrun Hrole] & Hsv).
    apply in_step_intro; [done|by rewrite Hsv..|done]. }
  intros [[]|] w; [|done]. intros (Hd & _ & Hs). exists run. split; [done|]. by destruct (Hs eq_refl).
Qed.
End OfflineSpecs.
