(* ===== verification/RecoveryLife.v ===== *)
(** The life of a ledger: any operations of the journal in any order, each run to its
    end or cut off by a crash between two calls, while the Redis server does what it
    likes in between. *)

From Stdlib Require Import String Ascii NArith Lia.
From stdpp Require Import base gmap strings option list fin_maps relations.
From S2P Require Import Prelude Json JsonValue Redis RedisProg Errors FinalityTypes.
From S2P Require Import RecoveryLedger RecoveryChecks EngineProg RecoveryJournal RecoveryOps.
From S2P Require Import RecoveryOffline RecoverySpec RecoveryKeeps RecoveryTxns RecoveryGate.
From S2P Require Import RecoveryOpSpecs RecoveryOfflineSpecs.

Section Life.
Context `{Primitives} `{!Json Value, !Json FinalityEvidence}.

Inductive journal_op :=
| OpInitialize (deployment : string) (ns : option string)
| OpOpen (ns : option string)
| OpQuarantine
| OpReattach (ns : option string)
| OpRecover (ns : option string)
| OpEnsureHealthy
| OpReserve (kind id fingerprint : string) (payload : Value)
| OpValidatePayload (kind id : string) (payload : Value)
| OpValidateBinding (kind id key : string)
| OpBroadcast (kind id key : string) (attempt : Value)
| OpLatestAttempt (id key : string)
| OpValidateAttempt (kind id : string) (witness : Value)
| OpTerminal (kind id : string) (evidence : Value)
| OpLoadCheckpoint (chain : N)
| OpCommitCheckpoint (chain : N) (expected : option FinalityEvidence) (evidence : FinalityEvidence)
| OpHaltChain (chain : N)
| OpRestoreSolana (id : string) (payload : Value)
| OpRebroadcastSolana (id : string) (payload attempt : Value).

Definition ended {A} (p : eprog (recovery_result A)) : eprog unit := ebind p (fun _ => ERet tt).
Definition op_prog (o : journal_op) : eprog unit :=
  match o with
  | OpInitialize deployment ns => ended (initialize deployment ns)
  | OpOpen ns => ended (open_journal ns)
  | OpQuarantine => ended quarantine
  | OpReattach ns => ended (reattach ns)
  | OpRecover ns => ended (recover ns)
  | OpEnsureHealthy => ended ensure_healthy
  | OpReserve kind id fp payload => ended (reserve_admission kind id fp payload)
  | OpValidatePayload kind id payload => ended (validate_payload kind id payload)
  | OpValidateBinding kind id key => ended (validate_replay_binding kind id key)
  | OpBroadcast kind id key attempt => ended (before_broadcast kind id key attempt)
  | OpLatestAttempt id key => ended (latest_eoa_attempt id key)
  | OpValidateAttempt kind id witness => ended (validate_attempt_identity kind id witness)
  | OpTerminal kind id evidence => ended (record_terminal kind id evidence)
  | OpLoadCheckpoint chain => ended (load_checkpoint chain)
  | OpCommitCheckpoint chain expected evidence => ended (commit_checkpoint chain expected evidence)
  | OpHaltChain chain => ended (halt_chain chain)
  | OpRestoreSolana id payload => ended (prepare_solana_restore id payload)
  | OpRebroadcastSolana id payload attempt => ended (before_solana_recovery_broadcast id payload attempt)
  end.

(** One event, with turns in [T] while an operation runs. *)
Inductive event (T : turn -> Prop) : world -> world -> Prop :=
| EvRun o ts w w' tr : Forall T ts -> erun (op_prog o) ts w = (tt, w', tr) -> event T w w'
| EvCrash o ts w w' tr w1 :
    Forall T ts -> erun (op_prog o) ts w = (tt, w', tr) -> w1 ∈ tr -> event T w (restart w1)
| EvRestart w : event T w (restart w).

Definition any_turn (t : turn) : Prop := True.
(** Between events the server may change at will. *)
Inductive life : world -> world -> Prop :=
| LfEvent w w' : event any_turn w w' -> life w w'
| LfServer w f : life w (mkWorld (w_disk w) (w_failed w) (f (w_server w))).

(** ** Every event is made of steps *)

Lemma ended_spec {A} T P (p : eprog (recovery_result A)) Q :
  triple T (step T) P p (on_ok Q) -> triple T (step T) P (ended p) (fun _ _ => True).
Proof. intros Hp. eapply triple_bind; [exact Hp|]. intros r. by apply triple_ret. Qed.

Lemma op_spec T o d : disk_ok d -> triple T (step T) (fun w => w_disk w = d) (op_prog o) (fun _ _ => True).
Proof.
  intros Hok. destruct o; cbn [op_prog]; eapply ended_spec.
  - eapply triple_conseq; [|intros a w Hw; exact Hw|apply initialize_spec]. done.
  - by apply open_journal_spec.
  - by apply quarantine_spec.
  - by apply reattach_spec.
  - by apply recover_spec.
  - by apply ensure_healthy_spec.
  - by apply reserve_admission_spec.
  - by apply validate_payload_spec.
  - by apply validate_replay_binding_spec.
  - by apply before_broadcast_spec.
  - by apply latest_eoa_attempt_spec.
  - by apply validate_attempt_identity_spec.
  - by apply record_terminal_spec.
  - by apply load_checkpoint_spec.
  - by apply commit_checkpoint_spec.
  - by apply halt_chain_spec.
  - by apply prepare_solana_restore_spec.
  - by apply before_solana_recovery_broadcast_spec.
Qed.

Lemma event_steps T w w' :
  T quiet_turn -> disk_ok (w_disk w) -> event T w w' ->
  ∃ w1, rtc (step T) w w1 /\ (w' = w1 \/ w' = restart w1).
Proof.
  intros Hq Hok Hev. destruct Hev as [o ts w w' tr Hts Hrun|o ts w w' tr w1 Hts Hrun Hin|w].
  - destruct (wp_run _ _ _ _ _ _ _ _ _ Hq Hts (op_spec T o _ Hok w eq_refl) Hrun) as (_ & _ & Hend). eauto.
  - destruct (wp_run _ _ _ _ _ _ _ _ _ Hq Hts (op_spec T o _ Hok w eq_refl) Hrun) as (_ & Htr & _).
    rewrite Forall_forall in Htr. eauto.
  - exists w. eauto using rtc_refl.
Qed.

Lemma steps_kept T w w' :
  rtc (step T) w w' -> disk_ok (w_disk w) ->
  disk_ok (w_disk w') /\ disk_evolves (w_disk w) (w_disk w').
Proof.
  induction 1 as [w|w w1 w2 [Hstep _] _ IH]; intros Hok; [done|].
  destruct (Hstep Hok) as [Hok1 He1]. destruct (IH Hok1) as [Hok2 He2]. split; [done|]. by etrans.
Qed.

Lemma life_kept w w' :
  rtc life w w' -> disk_ok (w_disk w) ->
  disk_ok (w_disk w') /\ disk_evolves (w_disk w) (w_disk w').
Proof.
  induction 1 as [w|w w1 w2 Hl _ IH]; intros Hok; [done|].
  assert (disk_ok (w_disk w1) /\ disk_evolves (w_disk w) (w_disk w1)) as [Hok1 He1].
  { destruct Hl as [w w1 Hev|w f]; [|done].
    destruct (event_steps any_turn w w1 I Hok Hev) as (w3 & Hst & Hw). apply steps_kept in Hst; [|done].
    by destruct Hw as [->| ->]. }
  destruct (IH Hok1) as [Hok2 He2]. split; [done|]. by etrans.
Qed.

(** The same for ledgers. *)
Lemma life_ledger w w' l :
  rtc life w w' -> w_disk w = LedgerFile l -> ledger_ok l ->
  ∃ l', w_disk w' = LedgerFile l' /\ ledger_ok l' /\ evolves l l'.
Proof.
  intros Hl Hd Hok. destruct (life_kept w w' Hl) as [Hok' He]; [by rewrite Hd|].
  rewrite Hd in He. destruct (w_disk w') as [| |l'] eqn:E; [done..|]. by exists l'.
Qed.

Lemma steady_quiet : steady quiet_turn.
Proof. by split. Qed.

(** In a steady world Redis and the ledger stay in step. *)
Lemma steady_consistent w w' :
  rtc (event steady) w w' -> consistent w -> consistent w'.
Proof.
  induction 1 as [w|w w1 w2 Hev _ IH]; [done|]. intros Hc. apply IH.
  assert (disk_ok (w_disk w)) as Hok.
  { unfold consistent in Hc. destruct (w_disk w); [done..|apply Hc]. }
  destruct (event_steps steady w w1 steady_quiet Hok Hev) as (w3 & Hst & Hw).
  assert (consistent w3) as Hc3 by (clear -Hc Hst; induction Hst as [|? ? ? [_ Hs] _ IH]; eauto).
  by destruct Hw as [->| ->].
Qed.

(** ** Other tasks of the process *)

(** The ledger keeps its invariant and its history. *)
Definition later (w w' : world) : Prop :=
  disk_ok (w_disk w) -> disk_ok (w_disk w') /\ disk_evolves (w_disk w) (w_disk w').

#[export] Instance later_preorder : PreOrder later.
Proof.
  split.
  - intros w Hok. split; [done|]. done.
  - intros w1 w2 w3 H12 H23 Hok. destruct (H12 Hok) as [Hok2 He12]. destruct (H23 Hok2) as [Hok3 He23].
    split; [done|]. by etrans.
Qed.

Lemma later_same_disk w w' : w_disk w' = w_disk w -> later w w'.
Proof. intros Hd Hok. by rewrite Hd. Qed.
Lemma later_ledger w w' l :
  later w w' -> w_disk w = LedgerFile l -> ledger_ok l ->
  ∃ l', w_disk w' = LedgerFile l' /\ ledger_ok l' /\ evolves l l'.
Proof.
  intros Hl Hd Hok. unfold later in Hl. rewrite Hd in Hl. destruct (Hl Hok) as [Hok' He].
  destruct (w_disk w') as [| |l'] eqn:E; [done..|]. by exists l'.
Qed.
Lemma life_later w w' : rtc life w w' -> later w w'.
Proof. intros Hl Hok. by apply life_kept. Qed.

(** Whatever the other tasks of the process do between two operations of a flow, they
    use the journal: the ledger keeps its invariant and its history.  A class of turns
    may say more, for instance of the chain's provider. *)
Definition fair_turn (t : turn) : Prop := ∀ w, later w (t_others t w).
Class FairTurns := {
  ok_turn : turn -> Prop;
  ok_quiet : ok_turn quiet_turn;
  ok_fair : ∀ t, ok_turn t -> fair_turn t
}.
Lemma fair_quiet : fair_turn quiet_turn.
Proof. by intros w. Qed.
Definition fair_turns : FairTurns := Build_FairTurns fair_turn fair_quiet (fun t Ht => Ht).

(** What holds of an operation by itself holds of it inside a flow. *)
Lemma triple_flow `{!FairTurns} {A} P (p : eprog A) Q :
  triple ok_turn (step ok_turn) P p Q -> triple ok_turn later P p Q.
Proof. intros Hp w Hw. eapply wp_mono; [|done|by apply Hp]. by intros w1 w2 [Hs _]. Qed.

(** Steps carry the invariant and the history along. *)
Lemma wp_later {A} T (p : eprog A) w Q :
  wp T later p w Q -> wp T later p w (fun a w' => Q a w' /\ later w w').
Proof.
  assert (∀ (p : eprog A) w0 w, later w0 w -> wp T later p w Q ->
    wp T later p w (fun a w' => Q a w' /\ later w0 w')) as Hgen; [|by apply Hgen].
  clear p w. intros p w0. induction p as [a|C f k IH|C f k IH|k IH|k IH|k IH|k IH|k IH|tag k IH]; intros w Hw; cbn; eauto.
  - intros Hp t Ht. specialize (Hp t Ht). destruct (disk_effect _ _ _) as [d r]. destruct Hp as [Hs Hp].
    split; [done|]. apply IH; [|done]. by etrans.
  - intros Hp t Ht. specialize (Hp t Ht). destruct (server_effect _ _ _) as [s r]. destruct Hp as [Hs Hp].
    split; [done|]. apply IH; [|done]. by etrans.
  - intros [Hs Hp]. split; [done|]. apply IH; [|done]. by etrans.
  - intros Hp t Ht. destruct (Hp t Ht) as [Hs Hk]. split; [done|]. apply IH; [|done]. by etrans.
Qed.
Lemma wp_ledger {A} T (p : eprog A) w Q l :
  w_disk w = LedgerFile l -> ledger_ok l -> wp T later p w Q ->
  wp T later p w (fun a w' => Q a w' /\ ∃ l', w_disk w' = LedgerFile l' /\ ledger_ok l' /\ evolves l l').
Proof.
  intros Hd Hok Hp. eapply wp_mono; [done| |by apply wp_later]. intros a w' [HQ Hl]. split; [done|].
  by eapply later_ledger.
Qed.

(** A successful run, from its triple. *)
Lemma run_Ok {A} (p : eprog (recovery_result A)) ts w a w' tr l Q :
  triple any_turn (step any_turn) (fun w => w_disk w = LedgerFile l) p (on_ok Q) ->
  w_disk w = LedgerFile l -> ledger_ok l -> erun p ts w = (Ok a, w', tr) ->
  Q a w' /\ ∃ l', w_disk w' = LedgerFile l' /\ ledger_ok l' /\ evolves l l'.
Proof.
  intros Hp Hd Hok Hrun.
  destruct (wp_run any_turn _ _ _ _ _ _ _ _ I (Forall_true _ _ (fun _ => I)) (Hp w Hd) Hrun) as (HQ & _ & Hend).
  split; [done|]. apply steps_kept in Hend as [Hok' He]; [|by rewrite Hd]. rewrite Hd in He.
  destruct (w_disk w') as [| |l'] eqn:E; [done..|]. by exists l'.
Qed.
End Life.
