(* ===== verification/RecoveryClaims.v ===== *)
(** What the recovery journal guarantees over the whole life of a ledger. *)

From Stdlib Require Import String Ascii NArith Lia.
From stdpp Require Import base gmap strings option list fin_maps relations.
From S2P Require Import Prelude Json JsonValue Redis RedisProg Errors FinalityTypes.
From S2P Require Import RecoveryLedger RecoveryChecks EngineProg RecoveryJournal RecoveryOps.
From S2P Require Import RecoveryOffline RecoverySpec RecoveryKeeps RecoveryTxns RecoveryGate.
From S2P Require Import RecoveryOpSpecs RecoveryOfflineSpecs RecoveryLife.

Section Claims.
Context `{Primitives} `{!Json Value, !Json FinalityEvidence}.

(** ** Invariant and history *)

(** C9: Start from no ledger file at all and let anything happen: journal operations in
    any order, lost statements, lost Redis calls, crashes between any two calls, Redis
    restarts, failovers and rollbacks.  Whatever ledger is then on disk satisfies the
    journal's invariant: a known schema with exactly its tables, a pending publication
    that leads to the current checkpoint, every attempt under the replay key its
    admission is bound to, one owner per replay key, terminal exactly with evidence,
    contradicting evidence only in a halted ledger, recovery budgets within bounds. *)
Theorem journal_reachable_ok (w w' : world) (l : Ledger) :
  w_disk w = NoFile -> rtc life w w' -> w_disk w' = LedgerFile l -> ledger_ok l.
Proof.
  intros Hd Hl Hd'. destruct (life_kept w w' Hl) as [Hok _]; [by rewrite Hd|]. by rewrite Hd' in Hok.
Qed.

(** The ledger's history is append-only over the same lives: admissions keep their
    kind, fingerprint, payload, replay key and terminal or quarantined state; attempts,
    terminal evidence, events and chain halts are only added to; chain checkpoints never
    move back or change hash; recovery budgets only count up; tokens never move back. *)
Theorem journal_history (w w' : world) (l : Ledger) :
  w_disk w = LedgerFile l -> ledger_ok l -> rtc life w w' ->
  ∃ l', w_disk w' = LedgerFile l' /\ evolves l l'.
Proof.
  intros Hd Hok Hl. destruct (life_ledger w w' l Hl Hd Hok) as (l' & Hd' & _ & He). by exists l'.
Qed.

(** ** Broadcast *)

(** A granted broadcast: what is then on disk and on Redis. *)
Definition authorized (kind i key encoded : string) (l : Ledger) : Prop :=
  ∃ a, l_admissions l !! i = Some a /\ ad_kind a = kind /\ ad_state a = StAdmitted /\
    ad_replay_key a = Some key /\
    (∃ at0, at0 ∈ l_attempts l /\ at_id at0 = i /\ at_replay_key at0 = key /\ at_payload at0 = encoded /\
       at_digest at0 = sha256_hex encoded) /\
    (∀ j b, l_admissions l !! j = Some b -> ad_replay_key b = Some key -> j = i) /\
    (kind = "solana" \/ ∃ chain, replay_chain key = Some chain /\ l_chain_halts l !! chain = None).

Lemma settled_tables l :
  l_admissions (settled l) = l_admissions l /\ l_attempts (settled l) = l_attempts l /\
  l_chain_halts (settled l) = l_chain_halts l /\ l_terminal (settled l) = l_terminal l /\
  l_solana (settled l) = l_solana l /\ l_chain_checkpoints (settled l) = l_chain_checkpoints l.
Proof. unfold settled. by destruct (l_projection l) as [[]|]. Qed.

Lemma advance_tables l c l' :
  advance l = Ok (c, l') ->
  l_admissions l' = l_admissions l /\ l_attempts l' = l_attempts l /\ l_chain_halts l' = l_chain_halts l /\
  l_terminal l' = l_terminal l /\ l_solana l' = l_solana l /\ l_chain_checkpoints l' = l_chain_checkpoints l.
Proof. by intros (_ & _ & _ & _ & _ & ->)%advance_Ok. Qed.

Lemma update_replay_key_tables i key l l1 : update_replay_key i key l = Ok l1 -> l_attempts l1 = l_attempts l.
Proof.
  unfold update_replay_key. destruct (_ !! _); [|by intros [= <-]].
  destruct (replay_owner key l); [case_decide; [|done]|]; by intros [= <-].
Qed.

Lemma broadcast_txn_authorized kind i key encoded l old l' :
  ledger_ok l -> broadcast_txn kind i key encoded (sha256_hex encoded) l = Ok (old, l') ->
  authorized kind i key encoded (settled l').
Proof.
  intros Hok Ht. assert (ledger_ok l') as Hok' by by eapply keeps_broadcast.
  destruct (broadcast_txn_Ok _ _ _ _ _ _ _ _ Hok Ht) as (a&Ha&Hk&Hst&Hkey&Hch&_&Hcase).
  destruct (settled_tables l') as (Htab1 & Htab2 & Htab3 & _). unfold authorized. rewrite Htab1, Htab2, Htab3.
  destruct Hcase as [(at0&Hin&Hid&Hrk&Hp&Hdg&Hb&_&->)|(l1&l2&c&Hu&Hi&Hadv&_)].
  - exists a. split_and!; [done..|by exists at0| |done]. intros j b Hj Hjk. by eapply (ok_owner _ Hok j i b a).
  - destruct (kept_bind_attempt i key _ _ a l l1 l2 Hok Ha Hkey Hu Hi) as (_ & Hats & Hads & Hhalts & _).
    destruct (advance_tables _ _ _ Hadv) as (Ht1 & Ht2 & Ht3 & _). rewrite Ht2, Hats, Ht3, Hhalts.
    eexists. split; [by rewrite Ht1, Hads, lookup_insert_eq|]. split_and!; [done..| | |done].
    + eexists. split; [apply elem_of_app; right; by apply list_elem_of_singleton|]. done.
    + intros j b Hj Hjk. eapply (ok_owner _ Hok' j i); [done| |done|].
      * by rewrite Ht1, Hads, lookup_insert_eq.
      * done.
Qed.

(** C3: A broadcast is only ever authorised when, at the last look at both stores, the
    ledger holds the exact attempt under an admitted transaction of that kind which is
    the only owner of the replay key, the chain of the key is not halted, the ledger is
    not halted and has nothing left to publish, and Redis, still the primary process the
    ledger was attached to, holds the ledger's current checkpoint. *)
Theorem broadcast_authorized kind i key attempt ts w w' tr l :
  w_disk w = LedgerFile l -> ledger_ok l ->
  erun (before_broadcast kind i key attempt) ts w = (Ok tt, w', tr) ->
  ∃ encoded l', canonical attempt = Ok encoded /\ synced l' w' /\ authorized kind i key encoded l'.
Proof.
  intros Hd Hok Hrun.
  destruct (run_Ok _ _ _ _ _ _ _ _ (before_broadcast_spec _ (LedgerFile l) kind i key attempt Hok) Hd Hok Hrun)
    as [(_ & _ & encoded & old & Hc & l0 & l' & [= <-] & Ht & Hs) _].
  exists encoded, (settled l'). split_and!; [done|done|].
  eapply broadcast_txn_authorized; [by apply settled_ok|done].
Qed.

(** C13: Once a transaction is terminal or quarantined, no later broadcast of it is ever
    authorised, whatever happens in between. *)
Theorem no_broadcast_after_end kind i key attempt ts w w1 w2 tr l a :
  w_disk w = LedgerFile l -> ledger_ok l ->
  l_admissions l !! i = Some a -> ad_state a ∈ [StTerminal; StQuarantined] -> rtc life w w1 ->
  erun (before_broadcast kind i key attempt) ts w1 <> (Ok tt, w2, tr).
Proof.
  intros Hd Hok Ha Hst Hl Hrun. destruct (life_ledger _ _ _ Hl Hd Hok) as (l1 & Hd1 & Hok1 & He).
  destruct (run_Ok _ _ _ _ _ _ _ _ (before_broadcast_spec _ (LedgerFile l1) kind i key attempt Hok1) Hd1 Hok1 Hrun)
    as [(_ & _ & encoded & old & Hc & l0 & l' & [= <-] & Ht & Hs) _].
  destruct (broadcast_txn_Ok _ _ _ _ _ _ _ _ (settled_ok _ Hok1) Ht) as (b&Hb&_&Hadm&_).
  destruct (settled_tables l1) as (Htab & _). rewrite Htab in Hb.
  destruct (ev_admissions _ _ He i a Ha) as (b' & Hb' & _ & _ & _ & _ & Hterm & Hq).
  rewrite Hb in Hb'. injection Hb' as <-. rewrite !elem_of_cons, elem_of_nil in Hst. 
  destruct Hst as [Hst|[Hst|[]]]; [specialize (Hterm Hst)|specialize (Hq Hst)]; congruence.
Qed.

(** Asking again for an attempt that is already recorded records nothing: after a
    success the ledger is the one before, its pending publication acknowledged. *)
Theorem broadcast_retry_exact kind i key attempt encoded at0 ts w w' tr l :
  w_disk w = LedgerFile l -> ledger_ok l -> canonical attempt = Ok encoded ->
  at0 ∈ l_attempts l -> at_id at0 = i -> at_digest at0 = sha256_hex encoded ->
  erun (before_broadcast kind i key attempt) ts w = (Ok tt, w', tr) ->
  w_disk w' = LedgerFile (settled l).
Proof.
  intros Hd Hok Henc Hin Hid Hdg Hrun.
  destruct (run_Ok _ _ _ _ _ _ _ _ (before_broadcast_spec _ (LedgerFile l) kind i key attempt Hok) Hd Hok Hrun)
    as [(_ & _ & encoded' & old & Hc & l0 & l' & [= <-] & Ht & Hs) _].
  rewrite Henc in Hc. injection Hc as <-. pose proof Hs as (Hd' & _ & _ & Hnp & _). rewrite Hd'.
  destruct (broadcast_txn_Ok _ _ _ _ _ _ _ _ (settled_ok _ Hok) Ht)
    as (a&Ha&_&_&_&_&_&[(_&_&_&_&_&_&_&_&->)|(l1&l2&c&Hu&Hi&_)]).
  - f_equal. apply settled_id. destruct (l_projection l) as [[p|]|] eqn:E; unfold settled; rewrite E; cbn; try done; by rewrite E.
  - exfalso. assert (at0 ∈ l_attempts l1) as Hin1.
    { apply update_replay_key_tables in Hu as ->. by destruct (settled_tables l) as (_ & -> & _). }
    unfold insert_attempt in Hi. destruct (_ && _) eqn:Hc in Hi; [|done].
    apply andb_true_iff in Hc as [_ Hf]. apply negb_true_iff in Hf. rewrite <- not_true_iff_false in Hf.
    apply Hf, existsb_exists. exists at0. split; [by apply list_elem_of_In|]. by apply bool_decide_eq_true.
Qed.

(** ** Contradicting evidence *)

Lemma terminal_conflict_evolves l l' : evolves l l' -> terminal_conflict l = true -> terminal_conflict l' = true.
Proof.
  intros He (i & Hi)%terminal_conflict_iff. apply terminal_conflict_iff. exists i.
  destruct (ev_terminal _ _ He) as [more Hmore]. unfold evidence_of in *. rewrite Hmore, filter_app, fmap_app, length_app. lia.
Qed.

(** Contradicting terminal evidence is final.  A ledger that ever held two different
    witnesses for one transaction never again passes the safety gate, so it admits and
    broadcasts nothing, and neither reattaching nor recovering clears it. *)
Theorem conflict_is_final w w1 w2 l ts tr r c ns :
  w_disk w = LedgerFile l -> ledger_ok l -> terminal_conflict l = true -> rtc life w w1 ->
  (erun healthy_locked ts w1 = (r, w2, tr) -> r <> Ok c) /\
  (∀ st, erun (recover ns) ts w1 <> (Ok st, w2, tr)).
Proof.
  intros Hd Hok Hc Hl. destruct (life_ledger _ _ _ Hl Hd Hok) as (l1 & Hd1 & Hok1 & He).
  apply (terminal_conflict_evolves _ _ He) in Hc. destruct (ok_conflict _ Hok1 Hc) as [Hh _]. split.
  - intros Hrun ->. 
    destruct (run_Ok _ _ _ _ _ _ _ _ (healthy_locked_spec any_turn (LedgerFile l1) Hok1) Hd1 Hok1 Hrun)
      as [(l2 & [= <-] & _ & _ & _ & Hn & _) _]. rewrite settled_control in Hn. congruence.
  - intros st Hrun.
    destruct (run_Ok _ _ _ _ _ _ _ _ (recover_spec any_turn (LedgerFile l1) ns Hok1) Hd1 Hok1 Hrun)
      as [(l2 & l3 & run & [= <-] & Hn & _) _]. congruence.
Qed.

(** ** Recovery *)

(** A completed recovery leaves nothing that could be sent twice: every transaction
    with a recorded attempt is terminal or quarantined in the new epoch, the others keep
    their record untouched, all attempts are kept, and Redis holds the new epoch's first
    token under the new namespace. *)
Theorem recover_quarantines ns st ts w w' tr l :
  w_disk w = LedgerFile l -> ledger_ok l -> erun (recover ns) ts w = (Ok st, w', tr) ->
  ∃ l', w_disk w' = LedgerFile l' /\ in_step l' (w_server w') /\
    c_epoch (l_control l') = (c_epoch (l_control l) + 1)%N /\ c_checkpoint (l_control l') = 0%N /\
    c_namespace (l_control l') = ns /\ c_halted (l_control l') = false /\ l_attempts l' = l_attempts l /\
    (∀ at0, at0 ∈ l_attempts l -> ∃ a', l_admissions l' !! at_id at0 = Some a' /\
       ad_state a' ∈ [StTerminal; StQuarantined]) /\
    (∀ i, attempts_of i l = [] -> l_admissions l' !! i = l_admissions l !! i).
Proof.
  intros Hd Hok Hrun.
  destruct (run_Ok _ _ _ _ _ _ _ _ (recover_spec any_turn (LedgerFile l) ns Hok) Hd Hok Hrun)
    as [(l2 & l3 & run & [= <-] & _ & (_ & Hads & Hc & Hats & _) & Hd' & _ & _ & Hin) _].
  eexists. split; [exact Hd'|]. split; [exact Hin|]. cbn. rewrite Hc, Hads, Hats. split_and!; try done.
  - intros at0 Hat. destruct (ok_attempt _ Hok at0 Hat) as (a & Ha & _).
    rewrite lookup_quarantine, Ha. eexists. split; [done|]. cbn. case_decide as Hq; [set_solver|].
    destruct (ad_state a) eqn:Hst; [|set_solver..]. exfalso. apply Hq. split; [done|].
    rewrite attempts_of_nil. intros Hn. by apply (Hn at0).
  - intros i Hi. rewrite lookup_quarantine. destruct (l_admissions l !! i) as [a|]; [|done]. cbn.
    rewrite decide_False; [done|]. by intros [_ ?].
Qed.

(** ** Solana recovery budget *)

Lemma recovery_broadcast_Granted i payload attempt now l n t old l' :
  recovery_broadcast_txn i payload attempt now l = Ok ((Granted n t, old), l') ->
  ∃ rows r, l_solana l = Some rows /\ rows !! i = Some r /\ n = (so_broadcasts r + 1)%N /\
    (n <= MAX_SOLANA_RECOVERY_BROADCASTS)%N /\ (0 < t)%N /\
    (so_last_broadcast_at r = 0%N \/ (so_last_broadcast_at r + RECOVERY_BROADCAST_INTERVAL_MS <= t)%N) /\
    l_solana l' = Some (<[i := mkSolanaRow (so_attempt_digest r) n t]> rows).
Proof.
  unfold recovery_broadcast_txn. intros Ht. destruct (retained l i payload) as [[st|]|] eqn:E; [|done..].
  cbn [ok_or] in Ht. txn_step Ht. txn_step Ht. txn_step Ht. txn_step Ht. txn_step Ht. destruct a1 as [p l1].
  destruct p as [n0 t0| |]; [|by injection Ht..]. txn_step Ht. destruct a1 as [c l2]. injection Ht as <- <- _ <-.
  apply orb_false_iff in E0 as [Hm _]. apply negb_false_iff in Hm.
  apply retained_Ok in E as (a' & at0 & rows & Ha & Hk & _ & Hrows & _ & _ & Hmode & Hbud).
  rewrite Hm in Hmode. symmetry in Hmode. b2p. destruct Hmode as [r Hr]. destruct (Hbud r Hr) as [Hb Hl].
  destruct (claim_Granted _ _ _ _ _ _ _ _ _ Hrows Hr Hb Hl E4) as (Hn & -> & Hmax & Hpos & Hgap & ->).
  destruct (advance_tables _ _ _ E5) as (_ & _ & _ & _ & Hso & _). rewrite Hso. by exists rows, r.
Qed.

(** C33: The budget of durable Solana rebroadcasts holds over whole lives, crashes and
    restarts included: of two grants for one transaction the later has a higher count,
    counts stop at twenty, and each grant is at least two seconds after the one before. *)
Theorem solana_grants_bounded i payload attempt payload' attempt' n t n' t' ts ts' w w1 w2 w3 tr tr' l :
  w_disk w = LedgerFile l -> ledger_ok l ->
  erun (before_solana_recovery_broadcast i payload attempt) ts w = (Ok (Granted n t), w1, tr) ->
  rtc life w1 w2 ->
  erun (before_solana_recovery_broadcast i payload' attempt') ts' w2 = (Ok (Granted n' t'), w3, tr') ->
  (n < n')%N /\ (n' <= 20)%N /\ (t + 2000 * (n' - n) <= t')%N.
Proof.
  intros Hd Hok Hrun Hl Hrun'.
  destruct (run_Ok _ _ _ _ _ _ _ _ (before_solana_recovery_broadcast_spec any_turn (LedgerFile l) i payload attempt Hok)
    Hd Hok Hrun) as [(now & old & l0 & l' & [= <-] & Ht & Hs) (l1 & Hd1 & Hok1 & _)].
  destruct Hs as (Hd1' & _). rewrite Hd1 in Hd1'. injection Hd1' as ->.
  destruct (life_ledger _ _ _ Hl Hd1 Hok1) as (l2 & Hd2 & Hok2 & He).
  destruct (run_Ok _ _ _ _ _ _ _ _ (before_solana_recovery_broadcast_spec any_turn (LedgerFile l2) i payload' attempt' Hok2)
    Hd2 Hok2 Hrun') as [(now' & old' & l0 & l'' & [= <-] & Ht' & _) _].
  destruct (recovery_broadcast_Granted _ _ _ _ _ _ _ _ _ Ht) as (rows&r&_&_&Hn&_&Hpos&_&Hrow).
  destruct (recovery_broadcast_Granted _ _ _ _ _ _ _ _ _ Ht') as (rows'&r'&Hrows'&Hr'&Hn'&Hmax'&_&Hgap'&_).
  destruct (settled_tables l') as (_&_&_&_&Hso&_), (settled_tables l2) as (_&_&_&_&Hso2&_).
  rewrite Hrow in Hso. rewrite Hso2 in Hrows'.
  destruct (ev_budgets _ _ He _ i _ Hso (lookup_insert_eq _ _ _)) as (rows2&r2&Hrows2&Hr2&_&Hle&Hlast).
  rewrite Hrows' in Hrows2. injection Hrows2 as <-. rewrite Hr' in Hr2. injection Hr2 as <-.
  cbn in Hle, Hlast. specialize (Hlast ltac:(lia)).
  unfold MAX_SOLANA_RECOVERY_BROADCASTS, RECOVERY_BROADCAST_INTERVAL_MS in *. lia.
Qed.

(** ** Chain checkpoints *)

Lemma checkpoint_txn_accepted chain expected ev l old l' :
  checkpoint_txn chain expected ev l = Ok ((true, old, false), l') ->
  ∃ e, load_chain_checkpoint l' chain = Ok (Some e) /\ fe_policy e = fe_policy ev /\
    fe_checkpoint_number e = fe_checkpoint_number ev /\ fe_checkpoint_hash e = fe_checkpoint_hash ev.
Proof.
  unfold checkpoint_txn. intros Ht. txn_step Ht. destruct (load_chain_checkpoint l chain) as [cur|] eqn:Hcur; [|done].
  assert (∀ enc l2 c, ok_or Storage (to_json ev) = Ok enc ->
    advance (set_chain_checkpoints (<[u64_to_string chain := enc]> (l_chain_checkpoints l)) l) = Ok (c, l2) ->
    load_chain_checkpoint l2 chain = Ok (Some ev)) as Hstore.
  { intros enc l2 c Henc%ok_or_Ok Hadv. destruct (advance_tables _ _ _ Hadv) as (_&_&_&_&_&Hcc).
    unfold load_chain_checkpoint. rewrite Hcc. cbn. rewrite lookup_insert_eq. by rewrite (json_round_trip ev enc Henc). }
  destruct (bool_decide (cur <> expected)); [by injection Ht|]. destruct cur as [e0|].
  - destruct (_ || _) eqn:Hconf in Ht; [txn_step Ht; destruct a0; by injection Ht|].
    destruct (_ <? _)%N; [by injection Ht|]. destruct (N.eqb_spec (fe_checkpoint_number ev) (fe_checkpoint_number e0)).
    + injection Ht as <- <-. exists e0. split; [done|]. apply orb_false_iff in Hconf as [Hp Hh].
      apply bool_decide_eq_false, dec_stable in Hp. apply andb_false_iff in Hh as [Hh|Hh].
      * apply N.eqb_neq in Hh. congruence.
      * apply bool_decide_eq_false, dec_stable in Hh. done.
    + txn_step Ht. txn_step Ht. destruct a1. injection Ht as <- <-. exists ev. split; [by eapply Hstore|done].
  - txn_step Ht. txn_step Ht. destruct a1. injection Ht as <- <-. exists ev. split; [by eapply Hstore|done].
Qed.

(** An accepted chain checkpoint is never rolled back: any later load on that chain
    finds a checkpoint of the same policy, at least as high, and of the same hash if it
    is the same block. *)
Theorem checkpoint_never_rolls_back chain expected ev found ts ts' w w1 w2 w3 tr tr' l :
  w_disk w = LedgerFile l -> ledger_ok l ->
  erun (commit_checkpoint chain expected ev) ts w = (Ok true, w1, tr) -> rtc life w1 w2 ->
  erun (load_checkpoint chain) ts' w2 = (Ok found, w3, tr') ->
  ∃ e, found = Some e /\ fe_policy e = fe_policy ev /\
    (fe_checkpoint_number ev <= fe_checkpoint_number e)%N /\
    (fe_checkpoint_number e = fe_checkpoint_number ev -> fe_checkpoint_hash e = fe_checkpoint_hash ev).
Proof.
  intros Hd Hok Hrun Hl Hrun'.
  destruct (run_Ok _ _ _ _ _ _ _ _ (commit_checkpoint_spec any_turn (LedgerFile l) chain expected ev Hok) Hd Hok Hrun)
    as [(old & l0 & l' & [= <-] & Ht & Hs) (l1 & Hd1 & Hok1 & _)].
  destruct Hs as (Hd1' & _). rewrite Hd1 in Hd1'. injection Hd1' as ->.
  destruct (life_ledger _ _ _ Hl Hd1 Hok1) as (l2 & Hd2 & Hok2 & He).
  destruct (run_Ok _ _ _ _ _ _ _ _ (load_checkpoint_spec any_turn (LedgerFile l2) chain Hok2) Hd2 Hok2 Hrun')
    as [(l3 & [= <-] & Hload & _) _].
  destruct (checkpoint_txn_accepted _ _ _ _ _ _ Ht) as (e0 & He0 & Hp & Hn & Hh).
  assert (∀ x, load_chain_checkpoint (settled x) chain = load_chain_checkpoint x chain) as Hset.
  { intros x. unfold load_chain_checkpoint. by destruct (settled_tables x) as (_&_&_&_&_&->). }
  rewrite Hset in Hload.
  destruct (ev_checkpoints _ _ He chain e0) as (e & He' & Hpol & Hle & Heq); [by rewrite Hset|].
  rewrite He' in Hload. injection Hload as <-. exists e. split_and!; [done|congruence|lia|].
  intros Hsame. rewrite <- Hh. apply Heq. congruence.
Qed.
End Claims.
