(* ===== verification/RecoveryLiveness.v ===== *)
(** Progress and meaning of the journal: crashes repair themselves in a steady world,
    every transaction follows its life cycle, admission is exact. *)

From Stdlib Require Import String Ascii NArith Lia.
From stdpp Require Import base gmap strings option list fin_maps relations.
From S2P Require Import Prelude Json JsonValue Redis RedisProg Errors FinalityTypes.
From S2P Require Import RecoveryLedger RecoveryChecks EngineProg RecoveryJournal RecoveryOps.
From S2P Require Import RecoveryOffline RecoverySpec RecoveryKeeps RecoveryTxns RecoveryGate.
From S2P Require Import RecoveryOpSpecs RecoveryOfflineSpecs RecoveryLife RecoveryClaims.

(** ** Runs without disturbance *)

Definition quiet_run {A} (p : eprog A) (w : world) : A * world := (erun p [] w).1.

Lemma quiet_run_bind {A B} (p : eprog A) (g : A -> eprog B) w :
  quiet_run (ebind p g) w = let '(a, w1) := quiet_run p w in quiet_run (g a) w1.
Proof.
  unfold quiet_run. revert w.
  induction p as [a|C f k IH|C f k IH|k IH|k IH|k IH|k IH|k IH|tag k IH]; intros w; cbn [ebind erun next_turn]; [done|..].
  - destruct (disk_effect _ _ _) as [d r]. specialize (IH r (mkWorld d (w_failed w) (w_server w))).
    destruct (erun (k r) [] _) as [[a w1] tr]. cbn in *. by destruct (erun (ebind _ _) [] _) as [[b w2] tr2].
  - destruct (server_effect _ _ _) as [s r]. specialize (IH r (mkWorld (w_disk w) (w_failed w) s)).
    destruct (erun (k r) [] _) as [[a w1] tr]. cbn in *. by destruct (erun (ebind _ _) [] _) as [[b w2] tr2].
  - apply IH.
  - specialize (IH (mkWorld (w_disk w) true (w_server w))).
    destruct (erun k [] _) as [[a w1] tr]. cbn in *. by destruct (erun (ebind _ _) [] _) as [[b w2] tr2].
  - apply IH.
  - apply IH.
  - specialize (IH w). destruct (erun k [] _) as [[a w1] tr]. cbn in *. by destruct (erun (ebind _ _) [] _) as [[b w2] tr2].
  - apply IH.
Qed.

Lemma quiet_run_db {B} (f : Ledger -> recovery_result (B * Ledger)) w l b l' :
  w_disk w = LedgerFile l -> f l = Ok (b, l') ->
  quiet_run (db f) w = (Ok b, mkWorld (LedgerFile l') (w_failed w) (w_server w)).
Proof. intros Hd Hf. unfold quiet_run, db. cbn. rewrite Hd. cbn. by rewrite Hf. Qed.

Lemma quiet_run_db_read {B} (f : Ledger -> recovery_result B) w l b :
  w_disk w = LedgerFile l -> f l = Ok b -> quiet_run (db_read f) w = (Ok b, w).
Proof.
  intros Hd Hf. unfold db_read. rewrite (quiet_run_db _ _ l b l Hd); [|unfold reading; by rewrite Hf].
  destruct w as [d f0 s]. cbn in *. by rewrite Hd.
Qed.

Lemma quiet_run_call {B} (f : server -> server * B) w s b :
  f (w_server w) = (s, b) -> quiet_run (call f) w = (Ok b, mkWorld (w_disk w) (w_failed w) s).
Proof. intros Hf. unfold quiet_run, call. cbn. by rewrite Hf. Qed.

Lemma quiet_run_observation key w :
  quiet_run (observation key) w =
  (Ok (sv_run_id (w_server w), sv_role (w_server w), marker_of key (w_server w)), w).
Proof. unfold observation. rewrite (quiet_run_call (observe key) w _ _ eq_refl). by destruct w. Qed.

Section Liveness.
Context `{Primitives} `{!Json Value, !Json FinalityEvidence}.

(** ** Repair *)

Lemma quiet_observe c pending w :
  sv_role (w_server w) = "master" -> sv_run_id (w_server w) = c_run_id c ->
  (marker_of (control_key c) (w_server w) = Some (token c) \/
   ∃ p, pending = Some p /\ marker_of (control_key c) (w_server w) = Some (previous_token p)) ->
  quiet_run (observe_checkpoint c pending) w = (Ok tt, w).
Proof.
  intros Hrole Hrun Hm. unfold observe_checkpoint. rewrite quiet_run_bind, quiet_run_observation.
  cbv zeta. rewrite Hrole, Hrun.
  assert (negb (bool_decide (marker_of (control_key c) (w_server w) = Some (token c))) &&
    negb (from_option (fun p => bool_decide (marker_of (control_key c) (w_server w) = Some (previous_token p)))
      false pending) = false) as ->.
  { destruct Hm as [Hm|(p & -> & Hm)]; rewrite Hm; cbn; rewrite (bool_decide_true _ eq_refl); [done|apply andb_false_r]. }
  rewrite !bool_decide_false by (intros Hne; by apply Hne). done.
Qed.

Lemma quiet_complete l p w :
  ledger_ok l -> here l w -> c_halted (l_control l) = false -> l_projection l = Some (Some p) ->
  in_step l (w_server w) ->
  ∃ w', quiet_run (complete_pending (l_control l) p) w = (Ok tt, w') /\ synced (settled l) w'.
Proof.
  intros Hok [Hd Hf] Hh Hp (Hrole & Hrun & Hm). rewrite Hp in Hm. set (c := l_control l) in *.
  pose proof (ok_pending _ Hok p Hp) as Hv. pose proof (validate_pending_Ok _ _ Hv) as (_ & _ & Ht & Hk & Hr & _).
  fold c in Ht, Hk, Hr, Hv.
  assert (∃ s, publish_script (redis_key p) (previous_token p) (target_token p) (w_server w) = (s, 1%N) /\
    sv_role s = "master" /\ sv_run_id s = c_run_id c /\ marker_of (control_key c) s = Some (token c))
    as (s & Hpub & Hrole' & Hrun' & Hm').
  { unfold publish_script. rewrite Hk, Ht. fold (marker_of (control_key c) (w_server w)).
    case_decide; [by eexists|]. rewrite decide_True by set_solver. eexists. split_and!; [done|done|done|].
    unfold marker_of, put_marker. cbn. by rewrite str_put_str, decide_True. }
  assert (acknowledge p l = Ok (settled l)) as Hack.
  { unfold acknowledge, control. rewrite bool_decide_true by apply (ok_schema _ Hok). fold c. rewrite Hv, Hh.
    unfold load_pending. destruct (N.eqb_spec (c_schema c) 1) as [Hs|_].
    { apply validate_pending_Ok in Hv as (? & _). lia. }
    rewrite Hp. fold c. rewrite Hv, decide_True by done. unfold remove_exact. rewrite Hp, decide_True by done.
    by rewrite (settled_pending l p Hp). }
  exists (mkWorld (LedgerFile (settled l)) (w_failed w) s). split.
  - unfold complete_pending. rewrite quiet_run_bind, (quiet_run_call _ _ s 1%N Hpub). cbn [N.eqb Pos.eqb negb].
    rewrite quiet_run_bind, quiet_run_observation. cbn [w_server].
    rewrite Hrole', Hrun', Hm', Ht, Hr, !bool_decide_false by (intros Hne; by apply Hne).
    rewrite quiet_run_bind, (quiet_run_db _ _ l tt (settled l)); [|done|by rewrite Hack].
    cbn [storage_result]. rewrite quiet_run_bind. change (quiet_run (ERet (Ok tt)) ?w) with (Ok tt : recovery_result unit, w).
    apply quiet_observe; cbn; auto.
  - apply synced_intro; [by split|by rewrite settled_control| |done|by rewrite settled_control..].
    rewrite (settled_pending l p Hp). done.
Qed.

Lemma quiet_repair w l :
  consistent w -> w_disk w = LedgerFile l -> w_failed w = false -> c_halted (l_control l) = false ->
  ∃ w', quiet_run ensure_healthy w = (Ok tt, w') /\ synced (settled l) w'.
Proof.
  unfold consistent. intros Hc Hd Hf Hh. rewrite Hd in Hc. destruct Hc as [Hok Hin]. specialize (Hin Hh).
  assert (∃ pending, load_state l = Ok (l_control l, pending) /\ load_pending l (l_control l) = Ok pending)
    as (pending & Hst & Hlp).
  { unfold load_state, control. rewrite bool_decide_true by apply (ok_schema _ Hok).
    destruct (load_pending l (l_control l)) as [pending|e] eqn:E; [by exists pending|]. exfalso.
    unfold load_pending in E. destruct (N.eqb_spec (c_schema (l_control l)) 1); [done|].
    pose proof (ok_schema _ Hok) as Hs. rewrite !elem_of_cons, elem_of_nil in Hs.
    destruct (proj2 (ok_projection _ Hok)) as [pr Hpr]; [unfold SCHEMA in *; lia|]. rewrite Hpr in E.
    destruct pr as [p|]; [|done]. by rewrite (ok_pending _ Hok p Hpr) in E. }
  unfold ensure_healthy, run_owned. change (quiet_run (EPermit ?k) w) with (quiet_run (k true) w). cbv beta iota.
  rewrite quiet_run_bind. unfold healthy_locked.
  change (quiet_run (ELatched ?k) w) with (quiet_run (k (w_failed w)) w). rewrite Hf. cbv beta iota.
  rewrite quiet_run_bind, (quiet_run_db_read _ _ l _ Hd Hst), Hh, quiet_run_bind.
  pose proof Hin as (Hrole & Hrun & Hm).
  destruct pending as [p|].
  - apply load_pending_Some in Hlp as [Hp Hv]. rewrite Hp in Hm.
    rewrite quiet_observe; [|done|done|]; [|set_solver].
    rewrite quiet_run_bind. destruct (quiet_complete l p w) as (w' & -> & Hs); [done..|]. by exists w'.
  - assert (∀ p, l_projection l <> Some (Some p)) as Hnp by by apply load_pending_None.
    assert (marker_of (control_key (l_control l)) (w_server w) = Some (token (l_control l))) as Hm'
      by (destruct (l_projection l) as [[p|]|]; [by destruct (Hnp p)|done..]).
    rewrite quiet_observe by auto. exists w. split; [done|]. rewrite (settled_id l Hnp). by apply synced_intro.
Qed.

(** C24: Crashes repair themselves.  From a ledger in step with Redis, run any
    operations and cut any of them off between any two of its calls, as often as you
    like, while Redis keeps its data: unless the ledger was halted on purpose, the next
    health check of a fresh process succeeds by itself, completing whatever publication
    was cut off, and leaves ledger and Redis in agreement. *)
Theorem crash_repaired w w' l :
  consistent w -> rtc (event steady) w w' -> w_disk w' = LedgerFile l -> c_halted (l_control l) = false ->
  ∃ w2 tr, erun ensure_healthy [] (restart w') = (Ok tt, w2, tr) /\ synced (settled l) w2.
Proof.
  intros Hc Hev Hd Hh. apply (steady_consistent _ _ Hev) in Hc.
  destruct (quiet_repair (restart w') l) as (w2 & Hrun & Hs); [done..|]. unfold quiet_run in Hrun.
  destruct (erun ensure_healthy [] (restart w')) as [[r w3] tr]. cbn in Hrun. injection Hrun as -> ->.
  by exists w2, tr.
Qed.

(** ** Rollback of the ledger *)

Definition undisturbed_turn (t : turn) : Prop := ∀ s, t_env t s = s.

#[local] Notation spec P p Q := (triple undisturbed_turn (step undisturbed_turn) P p Q).

Lemma observe_foreign_spec c pending m :
  m <> Some (token c) -> (∀ p, pending = Some p -> m <> Some (previous_token p)) ->
  spec (fun w => marker_of (control_key c) (w_server w) = m)
    (observe_checkpoint c pending) (on_ok (fun _ _ => False)).
Proof.
  intros Hm Hp. eapply triple_bind.
  { apply (steady_call_spec _ (observe (control_key c)) _ (fun o _ => o.2 = m)); [by intros []|].
    intros w s Hw Hs. cbn. rewrite Hs; [done|]. by intros t Ht. }
  intros [[[run role] marker]|e]; [|by destruct pending; [apply triple_ret|apply halt_err_spec]].
  branch E; [apply halt_err_spec|]. intros w Hw. cbn in Hw. subst marker. exfalso.
  apply andb_false_iff in E as [E|E]; apply negb_false_iff in E; [by b2p|].
  destruct pending as [p|]; cbn in E; [|done]. b2p. by apply (Hp p).
Qed.

(** An older version of a ledger is not one of the two tokens a newer one publishes. *)
Lemma older_token l l' :
  ledger_ok l -> evolves l l' -> c_epoch (l_control l') = c_epoch (l_control l) ->
  token (l_control l') <> token (l_control l) ->
  ∀ p, l_projection l = Some (Some p) -> token (l_control l') <> previous_token p.
Proof.
  intros Hok He Hep Hne p Hp. destruct (ev_version _ _ He) as (Hdep & Hsch & Hord).
  pose proof (validate_pending_Ok _ _ (ok_pending _ Hok p Hp)) as (_ & _ & _ & _ & _ & Hprev).
  unfold token in *. rewrite Hdep in *. intros Heq.
  destruct Hprev as [(Hpos & Hprev)|(s & Hs & Hprev)]; rewrite Hprev in Heq; cbn in Heq;
    apply token_text_inj in Heq as (? & ? & ?).
  - destruct Hord as [|(_ & ? & _)]; lia.
  - lia.
Qed.

(** C25: An old copy of the ledger is never accepted.  Suppose Redis holds the token of
    some later version of the ledger, of the same epoch, and an older copy is put back
    on disk: however often calls are lost, the gate refuses it, so nothing that the
    later version had recorded can be broadcast again. *)
Theorem rollback_detected l l' ts w r w' tr c :
  ledger_ok l -> evolves l l' -> c_epoch (l_control l') = c_epoch (l_control l) ->
  token (l_control l') <> token (l_control l) ->
  w_disk w = LedgerFile l ->
  marker_of (control_key (l_control l')) (w_server w) = Some (token (l_control l')) ->
  Forall undisturbed_turn ts -> erun healthy_locked ts w = (r, w', tr) -> r <> Ok c.
Proof.
  intros Hok He Hep Hne Hd Hm Hts Hrun Hr. subst r.
  assert (control_key (l_control l') = control_key (l_control l)) as Hkey.
  { destruct (ev_version _ _ He) as (_ & _ & [|(_ & _ & Hns)]); [lia|]. unfold control_key. by rewrite Hns. }
  rewrite Hkey in Hm.
  assert (spec (fun w => w_disk w = LedgerFile l /\
    marker_of (control_key (l_control l)) (w_server w) = Some (token (l_control l')))
    healthy_locked (on_ok (fun _ _ => False))) as Hg.
  { apply triple_latched. intros []; [by apply triple_ret|]. eapply triple_bind.
    { apply (db_read_spec _ _ _ (fun st w => marker_of (control_key (l_control l)) (w_server w) =
        Some (token (l_control l')) /\ load_state l = Ok st)).
      intros w1 l1 st [[Hd1 Hm1] _] Hl1 Hst. rewrite Hd1 in Hl1. by injection Hl1 as <-. }
    intros [[c1 pending]|]; [|apply halt_err_spec]. apply triple_and. intros Hst.
    unfold load_state in Hst. txn_step Hst. apply control_Ok in E as [-> _]. txn_step Hst. injection Hst as <- ->.
    branch Hh; [by intros w1 _; split; [split|]|]. 
    eapply triple_try; [apply observe_foreign_spec|by intros [] w1 []]; [by intros Hx%(inj Some)|].
    intros p ->. apply load_pending_Some in E as [Hp _].
    intros Heq%(inj Some). by apply (older_token l l' Hok He Hep Hne p Hp). }
  assert (undisturbed_turn quiet_turn) as Hq by done.
  by destruct (wp_run _ _ _ _ _ _ _ _ _ Hq Hts (Hg w (conj Hd Hm)) Hrun).
Qed.

(** ** The life cycle of a transaction *)

(** What a client of the journal sees of one transaction. *)
Inductive phase :=
| PUnknown
| PAdmitted
| PAttempted (replay_key : string)
| PTerminal (replay_key : string)
| PQuarantined (replay_key : string).

(** The contract: a transaction is admitted once, attempted under one replay key, and
    ends once, as terminal or as quarantined; only an attempted one ends. *)
Inductive phase_step : phase -> phase -> Prop :=
| PsAdmit : phase_step PUnknown PAdmitted
| PsAttempt k : phase_step PAdmitted (PAttempted k)
| PsEnd k : phase_step (PAttempted k) (PTerminal k)
| PsQuarantine k : phase_step (PAttempted k) (PQuarantined k).

Definition phase_of (i : string) (l : Ledger) : phase :=
  match l_admissions l !! i with
  | None => PUnknown
  | Some a =>
      match ad_state a, ad_replay_key a with
      | StAdmitted, None => PAdmitted
      | StAdmitted, Some k => PAttempted k
      | StTerminal, k => PTerminal (default "" k)
      | StQuarantined, k => PQuarantined (default "" k)
      end
  end.

Lemma phase_reach k p :
  p ∈ [PAttempted k; PTerminal k; PQuarantined k] ->
  rtc phase_step (PAttempted k) p /\ rtc phase_step PAdmitted p /\ rtc phase_step PUnknown p.
Proof.
  intros Hp. assert (rtc phase_step (PAttempted k) p) as Ha.
  { rewrite !elem_of_cons, elem_of_nil in Hp. destruct Hp as [->|[->|[->|[]]]]; [done|..]; apply rtc_once; constructor. }
  split_and!; [done|by eapply rtc_l; [constructor|]|]. eapply rtc_l; [constructor|]. by eapply rtc_l; [constructor|].
Qed.

(** An admission that has a key, or has ended, is at or after its attempt. *)
Lemma phase_of_bound i l a :
  ledger_ok l -> l_admissions l !! i = Some a ->
  (phase_of i l = PAdmitted /\ ad_replay_key a = None) \/
  ∃ k, ad_replay_key a = Some k /\ phase_of i l ∈ [PAttempted k; PTerminal k; PQuarantined k].
Proof.
  intros Hok Ha. unfold phase_of. rewrite Ha. pose proof (ok_ended _ Hok i a Ha) as Hend.
  destruct (ad_replay_key a) as [k|]; [right; exists k; split; [done|]; destruct (ad_state a); set_solver|].
  destruct (ad_state a); [by left|destruct (Hend ltac:(done)); done..].
Qed.

(** C7: Refinement.  Seen through [phase_of], any life of the ledger is a life of the
    contract: no transaction is ever un-admitted, moved to another replay key, ended
    without an attempt, revived after its end, or ended both ways. *)
Theorem journal_refines_lifecycle i w w' l l' :
  w_disk w = LedgerFile l -> ledger_ok l -> rtc life w w' -> w_disk w' = LedgerFile l' ->
  rtc phase_step (phase_of i l) (phase_of i l').
Proof.
  intros Hd Hok Hl Hd'. destruct (life_ledger _ _ _ Hl Hd Hok) as (l2 & Hd2 & Hok' & He).
  rewrite Hd' in Hd2. injection Hd2 as <-.
  destruct (l_admissions l !! i) as [a|] eqn:Ha.
  - destruct (ev_admissions _ _ He i a Ha) as (a' & Ha' & _ & _ & _ & Hkey & Hterm & Hq).
    destruct (phase_of_bound i l' a' Hok' Ha') as [[Hp' Hk']|(k & Hk' & Hp')].
    + destruct (phase_of_bound i l a Hok Ha) as [[-> _]|(k & Hk & _)]; [by rewrite Hp'|].
      rewrite (Hkey k Hk) in Hk'. done.
    + destruct (phase_of_bound i l a Hok Ha) as [[-> _]|(k0 & Hk & Hp)]; [by apply (phase_reach k)|].
      rewrite (Hkey k0 Hk) in Hk'. injection Hk' as ->.
      unfold phase_of at 1. rewrite Ha, Hk. destruct (ad_state a) eqn:Hst; [by apply phase_reach|..];
        unfold phase_of; rewrite Ha', (Hkey k Hk); [by rewrite (Hterm eq_refl)|by rewrite (Hq eq_refl)].
  - unfold phase_of at 1. rewrite Ha. destruct (l_admissions l' !! i) as [a'|] eqn:Ha'.
    + destruct (phase_of_bound i l' a' Hok' Ha') as [[-> _]|(k & Hk' & Hp')]; [|by apply (phase_reach k)].
      apply rtc_once. constructor.
    + unfold phase_of. by rewrite Ha'.
Qed.

(** ** Admission *)

Lemma canonical_Ok v t : canonical v = Ok t -> canonical_text v = Some t.
Proof. unfold canonical. intros Hc. txn_step Hc. txn_step Hc. injection Hc as <-. by apply ok_or_Ok in E. Qed.

Lemma canonical_same_doc v v' : same_doc v v' -> wf_value v -> canonical v = canonical v'.
Proof. intros Hs Hwf. unfold canonical. by rewrite (canonical_text_same_doc v v'). Qed.

(** The stored row behind a successful reservation. *)
Lemma reserve_txn_row kind i fp enc payload l v term old l' :
  canonical payload = Ok enc -> reserve_txn kind i fp enc payload l = Ok ((v, term, old), l') ->
  ∃ a, l_admissions l' !! i = Some a /\ ad_kind a = kind /\ ad_fingerprint a = fp /\
    (from_json (ad_payload a) = Some v \/ from_json (ad_payload a) = Some (sort_value v)) /\
    (l_admissions l !! i = Some a -> from_json (ad_payload a) = Some v /\
       term = bool_decide (ad_state a = StTerminal)).
Proof.
  intros Hc [(a&Ha&Hk&Hf&Hp&_&->&_&->)|(l1&c&Hn&Hi&Hadv&->&->&_)]%reserve_txn_Ok.
  - exists a. split_and!; [done..|by left|done].
  - destruct (advance_tables _ _ _ Hadv) as (Htab & _). unfold insert_admission in Hi. rewrite Hn in Hi.
    injection Hi as <-. eexists. split; [by rewrite Htab; cbn; rewrite lookup_insert_eq|].
    split_and!; [done|done| |by rewrite Hn]. right. cbn. apply json_round_trip. by apply canonical_Ok.
Qed.

(** C35: Admission is exact.  After a reservation succeeded, any later successful
    reservation of the same id, over any life in between, is for the same kind and the
    same fingerprint and returns the payload reserved first, up to the order of its
    keys; and it reports the transaction terminal exactly if it is. *)
Theorem admission_exact kind kind' i fp fp' payload payload' v v' term term' ts ts' w w1 w2 w3 tr tr' l :
  w_disk w = LedgerFile l -> ledger_ok l ->
  erun (reserve_admission kind i fp payload) ts w = (Ok (v, term), w1, tr) -> rtc life w1 w2 ->
  erun (reserve_admission kind' i fp' payload') ts' w2 = (Ok (v', term'), w3, tr') ->
  kind' = kind /\ fp' = fp /\ (v' = v \/ v' = sort_value v) /\
  ∃ l3 a, w_disk w3 = LedgerFile l3 /\ l_admissions l3 !! i = Some a /\
    term' = bool_decide (ad_state a = StTerminal).
Proof.
  intros Hd Hok Hrun Hl Hrun'.
  destruct (run_Ok _ _ _ _ _ _ _ _ (reserve_admission_spec any_turn (LedgerFile l) kind i fp payload Hok) Hd Hok Hrun)
    as [(_ & _ & enc & old & Hc & l0 & l' & [= <-] & Ht & Hs) (l1 & Hd1 & Hok1 & _)].
  destruct Hs as (Hd1' & _). rewrite Hd1 in Hd1'. injection Hd1' as ->.
  destruct (life_ledger _ _ _ Hl Hd1 Hok1) as (l2 & Hd2 & Hok2 & He).
  destruct (run_Ok _ _ _ _ _ _ _ _ (reserve_admission_spec any_turn (LedgerFile l2) kind' i fp' payload' Hok2)
    Hd2 Hok2 Hrun') as [(_ & _ & enc' & old' & Hc' & l0 & l'' & [= <-] & Ht' & Hs') _].
  destruct (reserve_txn_row _ _ _ _ _ _ _ _ _ _ Hc Ht) as (a & Ha & Hk & Hf & Hp & _).
  destruct (settled_tables l') as (Htab & _). rewrite <- Htab in Ha.
  destruct (ev_admissions _ _ He i a Ha) as (a2 & Ha2 & Hk2 & Hf2 & Hp2 & _).
  destruct (settled_tables l2) as (Htab2 & _). rewrite <- Htab2 in Ha2.
  destruct (reserve_txn_Ok _ _ _ _ _ _ _ _ _ _ Ht') as [(a3&Ha3&Hk3&Hf3&Hp3&_&Hterm&_&->)|(?&?&Hnone&_)]; [|congruence].
  rewrite Ha2 in Ha3. injection Ha3 as <-. split_and!; [congruence|congruence| |].
  - rewrite Hp2 in Hp3. destruct Hp as [Hp|Hp]; rewrite Hp in Hp3; injection Hp3 as <-; auto.
  - exists (settled (settled l2)), a2. destruct Hs' as (Hd3 & _). split_and!; [done| |done].
    by destruct (settled_tables (settled l2)) as (-> & _).
Qed.

(** C38: Fingerprints and stored records do not depend on the order of object keys: two
    documents equal up to key order, at any depth, have the same canonical record and, for
    every kind of admission, also those whose fingerprint leaves a field out, the same
    fingerprint; and different canonical documents never share a record. *)
Theorem canonical_ignores_key_order kind v v' :
  same_doc v v' -> wf_value v ->
  canonical v = canonical v' /\ admission_fingerprint kind v = admission_fingerprint kind v' /\
  (∀ u t, canonical v = Ok t -> canonical u = Ok t -> sort_value u = sort_value v).
Proof.
  intros Hs Hwf. split_and!; [by apply canonical_same_doc| |].
  - unfold admission_fingerprint. cbv zeta. erewrite canonical_same_doc; [done|..];
      repeat case_decide; eauto using same_doc_remove_field, wf_remove_field.
  - intros u t Hv%canonical_Ok Hu%canonical_Ok. by eapply canonical_text_inj.
Qed.
End Liveness.
