(* ===== verification/RecoveryWitness.v ===== *)
(** The recovery journal on concrete inputs. *)

From Stdlib Require Import String Ascii NArith Lia.
From stdpp Require Import base gmap strings option list fin_maps relations countable.
From S2P Require Import Prelude Json JsonValue Redis RedisProg Errors FinalityTypes.
From S2P Require Import RecoveryLedger RecoveryChecks EngineProg RecoveryJournal RecoveryOps.
From S2P Require Import RecoveryOffline RecoverySpec RecoveryKeeps RecoveryTxns RecoveryGate.
From S2P Require Import RecoveryOpSpecs RecoveryOfflineSpecs RecoveryLife RecoveryClaims RecoveryLiveness.

(** ** A codec for documents *)

Definition leaf : Type := bool + (N + Z + string) + string.
Fixpoint value_to_tree (v : Value) : gen_tree leaf :=
  match v with
  | VNull => GenNode 0 []
  | VBool b => GenLeaf (inl (inl b))
  | VNumber (PosInt n) => GenLeaf (inl (inr (inl (inl n))))
  | VNumber (NegInt z) => GenLeaf (inl (inr (inl (inr z))))
  | VNumber (Float n) => GenLeaf (inl (inr (inr n)))
  | VString s => GenLeaf (inr s)
  | VArray l => GenNode 1 (map value_to_tree l)
  | VObject m => GenNode 2 (map (fun e => GenNode 3 [GenLeaf (inr e.1); value_to_tree e.2]) m)
  end.
Fixpoint value_of_tree (t : gen_tree leaf) : Value :=
  match t with
  | GenLeaf (inl (inl b)) => VBool b
  | GenLeaf (inl (inr (inl (inl n)))) => VNumber (PosInt n)
  | GenLeaf (inl (inr (inl (inr z)))) => VNumber (NegInt z)
  | GenLeaf (inl (inr (inr n))) => VNumber (Float n)
  | GenLeaf (inr s) => VString s
  | GenNode 1 l => VArray (map value_of_tree l)
  | GenNode 2 l =>
      VObject (map (fun t => match t with
        | GenNode _ [GenLeaf (inr k); x] => (k, value_of_tree x)
        | _ => ("", VNull)
        end) l)
  | GenNode _ _ => VNull
  end.
Lemma value_of_to_tree v : value_of_tree (value_to_tree v) = v.
Proof.
  induction v as [|b|[]|s|l IH|m IH] using Value_deep_ind; try done; cbn; f_equal; rewrite map_map.
  - induction IH as [|x l Hx _ IH]; cbn; congruence.
  - induction IH as [|[k x] m Hx _ IH]; cbn in *; congruence.
Qed.
#[export] Instance concrete_value_json : Json Value.
Proof.
  refine {| to_json v := Some (pos_to_bits (encode (value_to_tree v)));
            from_json s := pos_of_bits s ≫= fun p => value_of_tree <$> decode p |}.
  intros v s [= <-]. rewrite pos_of_to_bits. cbn. rewrite decode_encode. cbn. by rewrite value_of_to_tree.
Defined.
#[export] Instance concrete_evidence_json : Json FinalityEvidence.
Proof.
  pose (out (e : FinalityEvidence) := (fe_block_number e, fe_block_hash e, fe_checkpoint_number e, fe_checkpoint_hash e,
    match fe_policy e with Finalized => None | Depth n => Some n end)).
  pose (into (t : N * string * N * string * option N) := let '(a, b, c, d, p) := t in
    mkFinality a b c d (match p with None => Finalized | Some n => Depth n end)).
  refine {| to_json e := Some (pos_to_bits (encode (out e)));
            from_json s := pos_of_bits s ≫= fun p => into <$> decode p |}.
  intros e s [= <-]. rewrite pos_of_to_bits. cbn -[out into encode decode]. rewrite decode_encode.
  destruct e as [a b c d [|n]]; done.
Defined.

(** Digests and hashes are the text itself; a signature is its text. *)
#[export] Instance concrete_primitives : Primitives := {|
  sha256_hex s := s;
  value_b256 := as_str;
  value_address := as_str;
  value_u256 := as_u64;
  Signature := string;
  parse_signature s := if decide (s = "") then None else Some s;
  signature_to_string s := s;
  VersionedUserOp := string;
  value_user_op := as_str;
  hash_with_custom_entrypoint op _ _ := Some op
|}.

(** ** A small history *)

Definition empty_server : server := mkServer redis_empty "run1" "master".
Definition w_start : world := mkWorld NoFile false empty_server.
Definition after {A} (p : eprog A) (w : world) : world := (erun p [] w).1.2.
Definition ledger_of (w : world) : Ledger :=
  match w_disk w with LedgerFile l => l | _ => fresh_ledger "" "" None end.

Definition key1 : string := "evm:1:0x00000000000000000000000000000000000000aa:5".
Definition payload1 : Value := VObject [("value", VNumber (PosInt 1)); ("to", VString "b")].
Definition fp1 : string := match admission_fingerprint "eoa" payload1 with Ok f => f | Err _ => "" end.
Definition attempt1 : Value := VObject [("transactionHash", VString "h1")].
Definition evidence1 : Value := VObject [("transactionHash", VString "h1"); ("chainId", VNumber (PosInt 1))].

(** A quiet run of one operation. *)
Definition next (o : journal_op) (w : world) : world := after (op_prog o) w.
Definition w_init : world := next (OpInitialize "dep" (Some "ns")) w_start.
Definition w_admitted : world := next (OpReserve "eoa" "tx1" fp1 payload1) w_init.
Definition w_attempted : world := next (OpBroadcast "eoa" "tx1" key1 attempt1) w_admitted.
Definition w_terminal : world := next (OpTerminal "eoa" "tx1" evidence1) w_attempted.

Lemma next_life o w : rtc life w (next o w).
Proof.
  apply rtc_once, LfEvent. apply (EvRun _ o [] w _ (erun (op_prog o) [] w).2); [constructor|].
  unfold next, after. by destruct (erun (op_prog o) [] w) as [[[] ?] ?].
Qed.
Lemma after_ended {A} (p : eprog (recovery_result A)) w : after (ended p) w = after p w.
Proof.
  change (after ?q w) with (quiet_run q w).2. unfold ended. rewrite quiet_run_bind.
  by destruct (quiet_run p w).
Qed.
(** Only the answer of a quiet run needs to be evaluated. *)
Lemma run_answer {A} (p : eprog A) w a :
  (erun p [] w).1.1 = a -> erun p [] w = (a, after p w, (erun p [] w).2).
Proof. intros <-. unfold after. by destruct (erun p [] w) as [[? ?] ?]. Qed.
Lemma start_init : rtc life w_start w_init.
Proof. apply next_life. Qed.
Lemma start_admitted : rtc life w_start w_admitted.
Proof. etrans; [apply start_init|apply next_life]. Qed.
Lemma start_attempted : rtc life w_start w_attempted.
Proof. etrans; [apply start_admitted|apply next_life]. Qed.
Lemma start_terminal : rtc life w_start w_terminal.
Proof. etrans; [apply start_attempted|apply next_life]. Qed.

Lemma reached_ok w : rtc life w_start w -> w_disk w = LedgerFile (ledger_of w) -> ledger_ok (ledger_of w).
Proof. intros Hl Hd. destruct (life_kept _ _ Hl I) as [Hok _]. by rewrite Hd in Hok. Qed.

(** ** Witnesses *)

Lemma journal_reachable_ok_witness : ledger_ok (ledger_of w_attempted).
Proof.
  apply (journal_reachable_ok w_start w_attempted (ledger_of w_attempted));
    [reflexivity|exact start_attempted|by vm_compute].
Defined.

Lemma journal_history_witness :
  ∃ l', w_disk w_terminal = LedgerFile l' /\ evolves (ledger_of w_admitted) l'.
Proof.
  apply (journal_history w_admitted w_terminal (ledger_of w_admitted)).
  - by vm_compute.
  - apply reached_ok; [exact start_admitted|by vm_compute].
  - etrans; apply next_life.
Defined.

Lemma broadcast_authorized_witness :
  ∃ encoded l', canonical attempt1 = Ok encoded /\ synced l' w_attempted /\
    authorized "eoa" "tx1" key1 encoded l'.
Proof.
  apply (broadcast_authorized "eoa" "tx1" key1 attempt1 [] w_admitted w_attempted
    (erun (before_broadcast "eoa" "tx1" key1 attempt1) [] w_admitted).2 (ledger_of w_admitted)).
  - by vm_compute.
  - apply reached_ok; [exact start_admitted|by vm_compute].
  - unfold w_attempted, next. cbn [op_prog]. rewrite after_ended. apply run_answer. by vm_compute.
Defined.

Lemma no_broadcast_after_end_witness :
  (erun (before_broadcast "eoa" "tx1" key1 attempt1) [] w_terminal).1.1 <> Ok tt.
Proof.
  destruct (erun (before_broadcast "eoa" "tx1" key1 attempt1) [] w_terminal) as [[r w2] tr] eqn:E. cbn.
  intros ->. revert E.
  apply (no_broadcast_after_end "eoa" "tx1" key1 attempt1 [] w_terminal w_terminal w2 tr (ledger_of w_terminal)
    (default (mkAdmission "" "" "" StAdmitted None) (l_admissions (ledger_of w_terminal) !! "tx1"))).
  - by vm_compute.
  - apply reached_ok; [exact start_terminal|by vm_compute].
  - by vm_compute.
  - vm_compute. left.
  - apply rtc_refl.
Defined.

Definition evidence2 : Value :=
  VObject [("transactionHash", VString "h1"); ("chainId", VNumber (PosInt 1)); ("status", VString "reverted")].
Definition w_conflict : world := next (OpTerminal "eoa" "tx1" evidence2) w_terminal.
Definition w_recovered : world := next (OpRecover (Some "ns2")) w_attempted.
Lemma start_conflict : rtc life w_start w_conflict.
Proof. etrans; [apply start_terminal|apply next_life]. Qed.

Lemma broadcast_retry_exact_witness :
  w_disk (next (OpBroadcast "eoa" "tx1" key1 attempt1) w_attempted) = LedgerFile (settled (ledger_of w_attempted)).
Proof.
  apply (broadcast_retry_exact "eoa" "tx1" key1 attempt1
    (match canonical attempt1 with Ok e => e | Err _ => "" end)
    (default (mkAttempt "" "" "" "") (head (l_attempts (ledger_of w_attempted)))) [] w_attempted _
    (erun (before_broadcast "eoa" "tx1" key1 attempt1) [] w_attempted).2 (ledger_of w_attempted)).
  - by vm_compute.
  - apply reached_ok; [exact start_attempted|by vm_compute].
  - by vm_compute.
  - vm_compute. left.
  - by vm_compute.
  - by vm_compute.
  - unfold next. cbn [op_prog]. rewrite after_ended. apply run_answer. by vm_compute.
Defined.

Lemma conflict_is_final_witness :
  terminal_conflict (ledger_of w_conflict) = true /\
  ∀ st tr, erun (recover (Some "ns3")) [] w_conflict <> (Ok st, w_conflict, tr).
Proof.
  split; [by vm_compute|]. intros st tr.
  apply (conflict_is_final w_conflict w_conflict w_conflict (ledger_of w_conflict) [] tr (Err Busy)
    (l_control (ledger_of w_conflict)) (Some "ns3")).
  - by vm_compute.
  - apply reached_ok; [exact start_conflict|by vm_compute].
  - by vm_compute.
  - apply rtc_refl.
Defined.

Lemma recover_quarantines_witness :
  ∃ l', w_disk w_recovered = LedgerFile l' /\ c_epoch (l_control l') = 2%N /\
    (∀ at0, at0 ∈ l_attempts (ledger_of w_attempted) -> ∃ a', l_admissions l' !! at_id at0 = Some a' /\
       ad_state a' ∈ [StTerminal; StQuarantined]).
Proof.
  destruct (recover_quarantines (Some "ns2")
    (match (erun (recover (Some "ns2")) [] w_attempted).1.1 with
     | Ok st => st | Err _ => mkStatus 0 "" 0 0 false None false None 0 0 0 0 0 0 end)
    [] w_attempted w_recovered (erun (recover (Some "ns2")) [] w_attempted).2 (ledger_of w_attempted))
    as (l' & Hd & _ & Hep & _ & _ & _ & _ & Hq & _).
  - by vm_compute.
  - apply reached_ok; [exact start_attempted|by vm_compute].
  - unfold w_recovered, next. cbn [op_prog]. rewrite after_ended. apply run_answer. by vm_compute.
  - exists l'. split_and!; [exact Hd| |exact Hq]. rewrite Hep. by vm_compute.
Defined.

(** A Solana intent restored after a crash, and two durable rebroadcasts. *)
Definition payload_s : Value := VObject [("program", VString "p")].
Definition fp_s : string := match admission_fingerprint "solana" payload_s with Ok f => f | Err _ => "" end.
Definition attempt_s : Value :=
  VObject [("signature", VString "sig"); ("chainId", VString "mainnet");
           ("attempt", VObject [("signature", VString "sig"); ("signed_transaction", VString "wire")])].
Definition w_solana : world :=
  next (OpRestoreSolana "s1" payload_s)
    (next (OpBroadcast "solana" "s1" "solana:mainnet:sig" attempt_s)
      (next (OpReserve "solana" "s1" fp_s payload_s) w_init)).
Lemma start_solana : rtc life w_start w_solana.
Proof. etrans; [apply start_init|]. etrans; [apply next_life|]. etrans; apply next_life. Qed.

Definition at_time (n : N) : list turn := repeat (mkTurn id None true n id (fun _ => Ok None)) 40.
Definition rebroadcast : eprog (recovery_result SolanaRecoveryBroadcast) :=
  before_solana_recovery_broadcast "s1" payload_s attempt_s.
Lemma timed_answer {A} (p : eprog A) ts w a :
  (erun p ts w).1.1 = a -> erun p ts w = (a, (erun p ts w).1.2, (erun p ts w).2).
Proof. intros <-. by destruct (erun p ts w) as [[? ?] ?]. Qed.

Lemma solana_grants_bounded_witness : (1 < 2 /\ 2 <= 20 /\ 5000 + 2000 * (2 - 1) <= 7000)%N.
Proof.
  apply (solana_grants_bounded "s1" payload_s attempt_s payload_s attempt_s 1 5000 2 7000 (at_time 5000) (at_time 7000)
    w_solana (erun rebroadcast (at_time 5000) w_solana).1.2 (erun rebroadcast (at_time 5000) w_solana).1.2
    (erun rebroadcast (at_time 7000) (erun rebroadcast (at_time 5000) w_solana).1.2).1.2
    (erun rebroadcast (at_time 5000) w_solana).2
    (erun rebroadcast (at_time 7000) (erun rebroadcast (at_time 5000) w_solana).1.2).2 (ledger_of w_solana)).
  - by vm_compute.
  - apply reached_ok; [exact start_solana|by vm_compute].
  - apply timed_answer. by vm_compute.
  - apply rtc_refl.
  - apply timed_answer. by vm_compute.
Defined.

Definition final (n : N) (hash : string) : FinalityEvidence := mkFinality n "b" n hash Finalized.
Definition w_checkpoint : world := next (OpCommitCheckpoint 1 None (final 10 "x")) w_init.
Lemma checkpoint_never_rolls_back_witness :
  ∃ e, Some (final 12 "y") = Some e /\ fe_policy e = Finalized /\ (10 <= fe_checkpoint_number e)%N /\
    (fe_checkpoint_number e = 10%N -> fe_checkpoint_hash e = "x").
Proof.
  apply (checkpoint_never_rolls_back 1 None (final 10 "x") (Some (final 12 "y")) [] [] w_init w_checkpoint
    (next (OpCommitCheckpoint 1 (Some (final 10 "x")) (final 12 "y")) w_checkpoint)
    (after (load_checkpoint 1) (next (OpCommitCheckpoint 1 (Some (final 10 "x")) (final 12 "y")) w_checkpoint))
    (erun (commit_checkpoint 1 None (final 10 "x")) [] w_init).2
    (erun (load_checkpoint 1) [] (next (OpCommitCheckpoint 1 (Some (final 10 "x")) (final 12 "y")) w_checkpoint)).2
    (ledger_of w_init)).
  - by vm_compute.
  - apply reached_ok; [exact start_init|by vm_compute].
  - unfold w_checkpoint, next. cbn [op_prog]. rewrite after_ended. apply run_answer. by vm_compute.
  - apply next_life.
  - apply run_answer. by vm_compute.
Defined.

(** A crash right after the attempt was recorded and before it was published. *)
Definition crash_trace : list world := (erun (op_prog (OpBroadcast "eoa" "tx1" key1 attempt1)) [] w_admitted).2.
Definition w_crashed : world := restart (default w_start (crash_trace !! 2)).
Lemma crash_repaired_witness :
  l_projection (ledger_of w_crashed) <> Some None /\
  ∃ w2 tr, erun ensure_healthy [] (restart w_crashed) = (Ok tt, w2, tr) /\ synced (settled (ledger_of w_crashed)) w2.
Proof.
  split; [by vm_compute|]. apply (crash_repaired w_admitted w_crashed (ledger_of w_crashed)).
  - assert (w_disk w_admitted = LedgerFile (ledger_of w_admitted)) as Hd by by vm_compute.
    unfold consistent. rewrite Hd. split; [by apply reached_ok; [exact start_admitted|]|].
    intros _. apply in_step_intro; [|by vm_compute..].
    assert (l_projection (ledger_of w_admitted) = Some None) as -> by by vm_compute. done.
  - apply rtc_once. apply (EvCrash _ (OpBroadcast "eoa" "tx1" key1 attempt1) [] w_admitted w_attempted crash_trace).
    + constructor.
    + unfold w_attempted, next, after, crash_trace. by destruct (erun _ [] w_admitted) as [[[] ?] ?].
    + apply (list_elem_of_lookup_2 _ 2). destruct (crash_trace !! 2) eqn:E; [done|]. exfalso. revert E. by vm_compute.
  - by vm_compute.
  - by vm_compute.
Defined.

(** The ledger as it was before the attempt, put back under a Redis that has seen it. *)
Lemma rollback_detected_witness :
  (erun healthy_locked [] (mkWorld (LedgerFile (ledger_of w_admitted)) false (w_server w_attempted))).1.1
    <> Ok (l_control (ledger_of w_admitted)).
Proof.
  set (w := mkWorld _ _ _).
  apply (rollback_detected (ledger_of w_admitted) (ledger_of w_attempted) [] w _ (after healthy_locked w)
    (erun healthy_locked [] w).2).
  - apply reached_ok; [exact start_admitted|by vm_compute].
  - assert (w_disk w_admitted = LedgerFile (ledger_of w_admitted)) as Hd by by vm_compute.
    destruct (life_ledger _ _ _ (next_life (OpBroadcast "eoa" "tx1" key1 attempt1) w_admitted) Hd) as (l' & Hl' & _ & He).
    { by apply reached_ok; [exact start_admitted|]. }
    unfold w_attempted, ledger_of at 2. by rewrite Hl'.
  - by vm_compute.
  - by vm_compute.
  - by vm_compute.
  - by vm_compute.
  - constructor.
  - by apply run_answer.
Defined.

Lemma journal_refines_lifecycle_witness :
  rtc phase_step PAdmitted (PTerminal key1).
Proof.
  apply (journal_refines_lifecycle "tx1" w_admitted w_terminal (ledger_of w_admitted) (ledger_of w_terminal)).
  - by vm_compute.
  - apply reached_ok; [exact start_admitted|by vm_compute].
  - etrans; apply next_life.
  - by vm_compute.
Defined.

Lemma admission_exact_witness :
  "eoa" = "eoa" /\ fp1 = fp1 /\ (sort_value payload1 = payload1 \/ sort_value payload1 = sort_value payload1) /\
  ∃ l3 a, w_disk (after (reserve_admission "eoa" "tx1" fp1 payload1) w_terminal) = LedgerFile l3 /\
    l_admissions l3 !! "tx1" = Some a /\ true = bool_decide (ad_state a = StTerminal).
Proof.
  apply (admission_exact "eoa" "eoa" "tx1" fp1 fp1 payload1 payload1 payload1 (sort_value payload1) false true [] []
    w_init w_admitted w_terminal _ (erun (reserve_admission "eoa" "tx1" fp1 payload1) [] w_init).2
    (erun (reserve_admission "eoa" "tx1" fp1 payload1) [] w_terminal).2 (ledger_of w_init)).
  - by vm_compute.
  - apply reached_ok; [exact start_init|by vm_compute].
  - unfold w_admitted, next. cbn [op_prog]. rewrite after_ended. apply run_answer. by vm_compute.
  - etrans; apply next_life.
  - apply run_answer. by vm_compute.
Defined.

Definition userop1 : Value := VObject [("sender", VString "a"); ("pregeneratedNonce", VNumber (PosInt 7)); ("data", VString "b")].
Definition userop2 : Value := VObject [("data", VString "b"); ("sender", VString "a"); ("pregeneratedNonce", VNumber (PosInt 7))].

Lemma canonical_ignores_key_order_witness :
  admission_fingerprint "erc4337" userop1 = admission_fingerprint "erc4337" userop2 /\ userop1 <> userop2.
Proof.
  split; [|done].
  refine (proj1 (proj2 (canonical_ignores_key_order "erc4337" userop1 userop2 _ _))).
  - apply (SD_object _ _ [("sender", VString "a"); ("pregeneratedNonce", VNumber (PosInt 7)); ("data", VString "b")]).
    + repeat constructor.
    + symmetry. apply (Permutation_cons_append [_; _]).
  - cbn. split; [|done]. apply (bool_decide_unpack _). by vm_compute.
Defined.
