(* ===== verification/Finality.v ===== *)
(** Finality of EVM receipts (core/src/finality.rs, executors/src/finality.rs): reading
    block identities from a provider, the continuity of accepted checkpoints, and the
    settlement steps that go through the recovery journal. *)

From Stdlib Require Import String Ascii NArith Lia.
From stdpp Require Import base gmap strings option list fin_maps.
From S2P Require Import Prelude Json JsonValue Redis RedisProg Errors FinalityTypes.
From S2P Require Import RecoveryLedger RecoveryChecks EngineProg RecoveryJournal RecoveryOps.

(** ** The chain and its receipts *)

(** What the code reads of a chain: its id, its configured policy, and the scheme of
    its RPC URL for diagnostics. *)
Record ChainView := mkChain {
  ch_chain_id : N;
  ch_finality_policy : FinalityPolicy;
  ch_rpc_scheme : string
}.
(** What the code reads of a receipt; [rc_eip658] is absent for pre-EIP-658 receipts. *)
Record ReceiptView := mkReceipt {
  rc_transaction_hash : string;
  rc_eip658 : option bool;
  rc_block_number : option N;
  rc_block_hash : option string
}.

Definition inconsistent (message : string) : EngineError := EngInternalError message.
Definition unavailable (message : string) : EngineError := EngInternalError message.

(** [Display] of the journal's errors. *)
Definition recovery_error_to_string (e : RecoveryError) : string :=
  match e with
  | PublicationPending => "Redis checkpoint publication is pending; retry the same transaction ID"
  | Busy => "Recovery admission is busy; retry the same transaction ID after capacity is available"
  | Storage => "Recovery ledger storage is unavailable or invalid; transaction execution is blocked"
  | Locked => "Recovery ledger is already owned by an active process"
  | Missing => "Recovery ledger is missing; initialize a fresh deployment explicitly"
  | RecoveryRequired reason => "Recovery required: " +:+ reason
  | Conflict => "Recovery request conflicts with immutable admitted intent or replay identity"
  | Invalid reason => "Invalid recovery configuration: " +:+ reason
  end.
Definition from_journal_error (e : RecoveryError) : EngineError :=
  match e with
  | PublicationPending => EngRecoveryPending (recovery_error_to_string e)
  | _ => EngInternalError (recovery_error_to_string e)
  end.
(** An operation of the journal with [.map_err(from_journal_error)]; other tasks of the
    process may have used the journal just before it. *)
Definition journal_call {A} (p : eprog (recovery_result A)) : eprog (result EngineError A) :=
  EOthers (do* r := p in ERet (match r with Ok a => Ok a | Err e => Err (from_journal_error e) end)).

Section Finality.
(** [Display] of the RPC client's errors. *)
Context (alloy_to_string : AlloyRpcError -> string).

Definition get_block_by_number (chain : ChainView) (tag : BlockTag) : eprog (result EngineError (option Block)) :=
  EBlock tag (fun r => ERet (match r with
    | Ok b => Ok b
    | Err e => Err (to_engine_error alloy_to_string (ch_chain_id chain) (ch_rpc_scheme chain) e)
    end)).

Definition assess_checkpoint_continuity (chain : ChainView) (previous : FinalityEvidence)
    : eprog (result EngineError CheckpointContinuity) :=
  do! found := get_block_by_number chain (TagNumber (fe_checkpoint_number previous)) in
  match found with
  | None => ERet (Ok CcUnavailable)
  | Some block =>
      if negb (b_number block =? fe_checkpoint_number previous)%N
      then ERet (Err (inconsistent "RPC returned the wrong checkpoint block number"))
      else if decide (b_hash block = fe_checkpoint_hash previous) then ERet (Ok CcConsistent)
      else ERet (Ok CcConflict)
  end.

(** The checkpoint a policy qualifies from an observed head: the head itself, or the
    block [confirmations] below it, read back by number. *)
Definition qualified_checkpoint (chain : ChainView) (observed_head : Block)
    : eprog (result EngineError (option Block)) :=
  match ch_finality_policy chain with
  | Finalized | Depth 0 => ERet (Ok (Some observed_head))
  | Depth confirmations =>
      if (b_number observed_head <? confirmations)%N then ERet (Ok None)
      else
        let boundary := (b_number observed_head - confirmations)%N in
        do! found := get_block_by_number chain (TagNumber boundary) in
        match found with
        | None => ERet (Ok None)
        | Some qualified =>
            if negb (b_number qualified =? boundary)%N
            then ERet (Err (inconsistent "RPC returned the wrong depth boundary block number"))
            else ERet (Ok (Some qualified))
        end
  end.

(** [checked_add] on the receipt's height. *)
Definition required_height (policy : FinalityPolicy) (block_number : N) : option N :=
  match policy with
  | Finalized => Some block_number
  | Depth confirmations =>
      if (block_number + confirmations <=? U64_MAX)%N then Some (block_number + confirmations)%N else None
  end.

Definition wrong_canonical : EngineError := inconsistent "RPC returned the wrong canonical block number".

(** The three reads after the checkpoint was chosen. *)
Definition recheck (chain : ChainView) (block_number : N) (block_hash : string)
    (observed_head checkpoint : Block) : eprog (result EngineError FinalityAssessment) :=
  do! again := get_block_by_number chain (TagNumber block_number) in
  match again with
  | None => ERet (Ok (FaPending false))
  | Some rechecked_block =>
      if negb (b_number rechecked_block =? block_number)%N then ERet (Err wrong_canonical)
      else if bool_decide (b_hash rechecked_block <> block_hash) then ERet (Ok FaOrphaned)
      else
        do! found := get_block_by_number chain (TagNumber (b_number checkpoint)) in
        match found with
        | None => ERet (Ok (FaPending true))
        | Some rechecked =>
            if negb (b_number rechecked =? b_number checkpoint)%N
               || bool_decide (b_hash rechecked <> b_hash checkpoint)
               || ((b_number checkpoint =? block_number)%N && bool_decide (b_hash checkpoint <> block_hash))
            then ERet (Err (inconsistent "Finality checkpoint changed during receipt reconciliation"))
            else
              let finalized :=
                Ok (FaFinalized (mkFinality block_number block_hash (b_number checkpoint)
                                   (b_hash checkpoint) (ch_finality_policy chain))) in
              if negb (b_number observed_head =? b_number checkpoint)%N then
                do! head := get_block_by_number chain (TagNumber (b_number observed_head)) in
                match head with
                | None => ERet (Ok (FaPending true))
                | Some rechecked_head =>
                    if negb (b_number rechecked_head =? b_number observed_head)%N
                       || bool_decide (b_hash rechecked_head <> b_hash observed_head)
                    then ERet (Err (inconsistent "Observed head changed during depth reconciliation"))
                    else ERet finalized
                end
              else ERet finalized
        end
  end.

Definition assess_receipt_finality (chain : ChainView) (expected_hash : string) (receipt : ReceiptView)
    : eprog (result EngineError FinalityAssessment) :=
  let policy := ch_finality_policy chain in
  do! _ := ERet (validate_policy policy (ch_chain_id chain)) in
  if bool_decide (rc_transaction_hash receipt <> expected_hash)
  then ERet (Err (inconsistent "Receipt transaction hash does not match stored attempt"))
  else if bool_decide (rc_eip658 receipt = None)
  then ERet (Err (inconsistent "Receipt does not contain an execution status"))
  else
    match rc_block_number receipt, rc_block_hash receipt with
    | Some block_number, Some block_hash =>
        do! found := get_block_by_number chain (TagNumber block_number) in
        match found with
        | None => ERet (Ok (FaPending false))
        | Some block =>
            if negb (b_number block =? block_number)%N then ERet (Err wrong_canonical)
            else if bool_decide (b_hash block <> block_hash) then ERet (Ok FaOrphaned)
            else
              do! head := get_block_by_number chain
                            (match policy with Finalized => TagFinalized | Depth _ => TagLatest end) in
              match head with
              | None => ERet (Ok (FaPending true))
              | Some observed_head =>
                  match required_height policy block_number with
                  | None => ERet (Err (inconsistent "Finality depth exceeds representable block height"))
                  | Some required =>
                      if (b_number observed_head <? required)%N then ERet (Ok (FaPending true))
                      else
                        do! qualified := qualified_checkpoint chain observed_head in
                        match qualified with
                        | None => ERet (Ok (FaPending true))
                        | Some checkpoint => recheck chain block_number block_hash observed_head checkpoint
                        end
                  end
              end
        end
    | _, _ => ERet (Ok (FaPending false))
    end.

(** ** Settlement through the journal (executors/src/finality.rs)

    [journal] says whether the process runs with a recovery journal. *)

Context `{Primitives} `{!Json Value, !Json FinalityEvidence} (journal : bool).

Definition check_continuity (chain : ChainView) : eprog (result EngineError (option FinalityEvidence)) :=
  if negb journal then ERet (Ok None)
  else
    do! previous := journal_call (load_checkpoint (ch_chain_id chain)) in
    match previous with
    | None => ERet (Ok None)
    | Some prev =>
        if bool_decide (fe_policy prev <> ch_finality_policy chain) then
          do! _ := journal_call (halt_chain (ch_chain_id chain)) in
          ERet (Err (unavailable "Finality policy changed after accepted checkpoint; chain halted"))
        else
          do! continuity := assess_checkpoint_continuity chain prev in
          match continuity with
          | CcUnavailable => ERet (Err (unavailable "Prior finality checkpoint is unavailable"))
          | CcConflict =>
              do! _ := journal_call (halt_chain (ch_chain_id chain)) in
              ERet (Err (unavailable "Previously settled checkpoint changed; chain halted"))
          | CcConsistent => ERet (Ok (Some prev))
          end
    end.

(** The body of [for retry in 0..3]; [None] goes round again. *)
Definition settle_once (chain : ChainView) (previous : option FinalityEvidence) (evidence : FinalityEvidence)
    : eprog (result EngineError (option FinalityAssessment)) :=
  if from_option (fun old => (fe_checkpoint_number evidence <? fe_checkpoint_number old)%N) false previous
  then ERet (Ok (Some (FaPending true)))
  else
    do! accepted := journal_call (commit_checkpoint (ch_chain_id chain) previous evidence) in
    ERet (Ok (if (accepted : bool) then Some (FaFinalized evidence) else None)).

Fixpoint settle (retries : nat) (chain : ChainView) (previous : option FinalityEvidence)
    (evidence : FinalityEvidence) : eprog (result EngineError FinalityAssessment) :=
  do! outcome := settle_once chain previous evidence in
  match outcome, retries with
  | Some assessment, _ => ERet (Ok assessment)
  | None, O => ERet (Ok (FaPending true))
  | None, S n =>
      do! again := check_continuity chain in
      settle n chain again evidence
  end.

Definition assess (chain : ChainView) (hash : string) (receipt : ReceiptView)
    : eprog (result EngineError FinalityAssessment) :=
  do! previous := check_continuity chain in
  do! assessment := assess_receipt_finality chain hash receipt in
  match assessment with
  | FaFinalized evidence =>
      if negb journal then ERet (Ok assessment) else settle 2 chain previous evidence
  | _ => ERet (Ok assessment)
  end.

Definition validate_eoa_confirmation_with_journal (kind id : string) (chain_id : N) (sender : string)
    (nonce : N) (hash : string) : eprog (result EngineError unit) :=
  do! found := journal_call (journal_admission kind id) in
  match found with
  | None => ERet (Err (unavailable "Missing durable confirmation admission"))
  | Some record =>
      if bool_decide (rec_replay_key record <> Some (eoa_replay_key chain_id nonce sender))
      then ERet (Err (unavailable "Confirmation wallet or nonce differs from durable reservation"))
      else
        journal_call (validate_attempt_identity kind id
          (VObject [("chainId", VNumber (PosInt chain_id)); ("transactionHash", VString hash)]))
  end.
Definition validate_eoa_confirmation (kind id : string) (chain_id : N) (sender : string) (nonce : N)
    (hash : string) : eprog (result EngineError unit) :=
  if negb journal then ERet (Ok tt)
  else validate_eoa_confirmation_with_journal kind id chain_id sender nonce hash.

(** The JSON forms the settlement records. *)
Definition evidence_value (e : FinalityEvidence) : Value :=
  VObject [("blockNumber", VNumber (PosInt (fe_block_number e))); ("blockHash", VString (fe_block_hash e));
           ("checkpointNumber", VNumber (PosInt (fe_checkpoint_number e)));
           ("checkpointHash", VString (fe_checkpoint_hash e)); ("policy", policy_to_value (fe_policy e))].
Definition outcome_value (succeeded : bool) : Value := VString (if succeeded then "success" else "reverted").
Definition evm_terminal_value (chain_id : N) (hash : string) (succeeded : bool) (e : FinalityEvidence) : Value :=
  VObject [("chainId", VNumber (PosInt chain_id)); ("transactionHash", VString hash);
           ("outcome", outcome_value succeeded); ("finality", evidence_value e)].
Definition solana_terminal_value (chain_id signature : string) (slot : N) (succeeded : bool) : Value :=
  VObject [("chainId", VString chain_id); ("signature", VString signature); ("slot", VNumber (PosInt slot));
           ("commitment", VString "finalized"); ("outcome", outcome_value succeeded)].

Definition record_evm_terminal (kind id : string) (chain_id : N) (hash : string) (succeeded : bool)
    (evidence : FinalityEvidence) : eprog (result EngineError unit) :=
  if negb journal then ERet (Ok tt)
  else
    do! _ := journal_call (check_chain_healthy chain_id) in
    journal_call (record_terminal kind id (evm_terminal_value chain_id hash succeeded evidence)).

Definition record_solana_terminal (id chain_id signature : string) (slot : N) (succeeded : bool)
    : eprog (result EngineError unit) :=
  if negb journal then ERet (Ok tt)
  else journal_call (record_terminal "solana" id (solana_terminal_value chain_id signature slot succeeded)).

Definition validate_reconciliation_payload (kind id : string) (payload : Value)
    : eprog (result EngineError unit) :=
  do! _ := journal_call ensure_healthy in
  do! found := journal_call (journal_admission kind id) in
  match found with
  | None => ERet (Err (unavailable "Missing durable admission"))
  | Some admission =>
      if negb (value_eqb (rec_payload admission) payload) || bool_decide (rec_state admission = StQuarantined)
      then ERet (Err (unavailable "Reconciliation payload is changed or quarantined"))
      else ERet (Ok tt)
  end.

(** [parse_b256] is the hash parser; [payload] the encoded request, or the encoder's
    error text. *)
Definition terminal_eoa_projection (parse_b256 : string -> option string) (payload : result string Value)
    (transaction_id : string) (chain_id : N) (from : string) (nonce : N)
    : eprog (result EngineError (option string)) :=
  do! payload := ERet (match payload with Ok v => Ok v | Err text => Err (unavailable text) end) in
  do! _ := validate_reconciliation_payload "eoa" transaction_id payload in
  do! found := journal_call (journal_admission "eoa" transaction_id) in
  match found with
  | None => ERet (Err (unavailable "Missing durable admission"))
  | Some admission =>
      if bool_decide (rec_state admission <> StTerminal) then ERet (Ok None)
      else if bool_decide (rec_replay_key admission <> Some (eoa_replay_key chain_id nonce from))
      then ERet (Err (unavailable "Terminal intent has a different nonce reservation"))
      else
        do! found := journal_call (terminal_evidence "eoa" transaction_id) in
        match found with
        | None => ERet (Err (unavailable "Terminal intent has no durable proof"))
        | Some proof =>
            if bool_decide ((get_field proof "chainId" ≫= as_u64) <> Some chain_id)
            then ERet (Err (unavailable "Terminal proof belongs to another chain"))
            else
              match get_field proof "transactionHash" ≫= as_str with
              | None => ERet (Err (unavailable "Missing terminal transaction hash"))
              | Some text =>
                  match parse_b256 text with
                  | None => ERet (Err (unavailable "Invalid terminal transaction hash"))
                  | Some hash => ERet (Ok (Some hash))
                  end
              end
        end
  end.
End Finality.
