(* ===== verification/FinalityClaims.v ===== *)
(** What a finality assessment means, and what settlement leaves in the journal. *)

From Stdlib Require Import String Ascii NArith Lia.
From stdpp Require Import base gmap strings option list fin_maps relations.
From S2P Require Import Prelude Json JsonValue Redis RedisProg Errors FinalityTypes.
From S2P Require Import RecoveryLedger RecoveryChecks EngineProg RecoveryJournal RecoveryOps.
From S2P Require Import RecoveryOffline RecoverySpec RecoveryKeeps RecoveryTxns RecoveryGate.
From S2P Require Import RecoveryOpSpecs RecoveryOfflineSpecs RecoveryLife RecoveryClaims Finality.

(** ** Reading blocks *)

Section Assess.
Context (alloy_to_string : AlloyRpcError -> string).
Context (T : turn -> Prop) (R : world -> world -> Prop).
#[local] Notation spec P p Q := (triple T R P p Q).

(** A block the provider gave for [tag] in one of its turns. *)
Definition answered (tag : BlockTag) (b : Block) : Prop := ∃ t, T t /\ t_block t tag = Ok (Some b).

Lemma get_block_spec P chain tag :
  spec P (get_block_by_number alloy_to_string chain tag)
    (on_ok (fun b w => P w /\ ∀ x, b = Some x -> answered tag x)).
Proof.
  apply triple_block. intros t Ht. apply triple_ret. intros w Hw. destruct (t_block t tag) as [b|e] eqn:E; [|done].
  split; [done|]. intros x ->. by exists t.
Qed.

(** What the provider must have answered before a receipt is called final. *)
Record supported (chain : ChainView) (receipt : ReceiptView) (e : FinalityEvidence) (head : Block) : Prop := {
  sp_block : rc_block_number receipt = Some (fe_block_number e) /\ rc_block_hash receipt = Some (fe_block_hash e);
  sp_policy : fe_policy e = ch_finality_policy chain;
  sp_canonical : answered (TagNumber (fe_block_number e)) (mkBlock (fe_block_number e) (fe_block_hash e));
  sp_checkpoint : answered (TagNumber (fe_checkpoint_number e))
    (mkBlock (fe_checkpoint_number e) (fe_checkpoint_hash e));
  sp_head : answered (match ch_finality_policy chain with Finalized => TagFinalized | Depth _ => TagLatest end) head;
  sp_covers : (fe_block_number e <= fe_checkpoint_number e)%N;
  sp_same : fe_checkpoint_number e = fe_block_number e -> fe_checkpoint_hash e = fe_block_hash e;
  sp_depth : match ch_finality_policy chain with
             | Finalized => head = mkBlock (fe_checkpoint_number e) (fe_checkpoint_hash e)
             | Depth c => (fe_checkpoint_number e + c = b_number head)%N /\ (fe_block_number e + c <= U64_MAX)%N
             end
}.

Lemma block_eta b n : (b_number b =? n)%N = true -> b = mkBlock n (b_hash b).
Proof. intros Hn%N.eqb_eq. rewrite <- Hn. by destruct b. Qed.

Lemma qualified_checkpoint_spec P chain head :
  spec P (qualified_checkpoint alloy_to_string chain head)
    (on_ok (fun q w => P w /\ ∀ b, q = Some b ->
       match ch_finality_policy chain with
       | Finalized => b = head
       | Depth c => (b_number b + c = b_number head)%N
       end)).
Proof.
  unfold qualified_checkpoint.
  destruct (ch_finality_policy chain) as [|[|c]]; [apply triple_ret; naive_solver lia..|].
  branch E; [by apply triple_ret|]. apply N.ltb_ge in E.
  eapply triple_try; [apply get_block_spec|]. intros [b|]; [|apply triple_ret; by intros w [Hw _]].
  branch Hb; [by apply triple_ret|]. apply negb_false_iff, N.eqb_eq in Hb. apply triple_ret. intros w [Hw _].
  split; [done|]. intros x [= <-]. lia.
Qed.

Lemma recheck_spec P chain receipt bn bh head cp :
  rc_block_number receipt = Some bn -> rc_block_hash receipt = Some bh ->
  answered (match ch_finality_policy chain with Finalized => TagFinalized | Depth _ => TagLatest end) head ->
  (bn <= b_number cp)%N ->
  (match ch_finality_policy chain with
   | Finalized => cp = head
   | Depth c => (b_number cp + c = b_number head)%N /\ (bn + c <= U64_MAX)%N end) ->
  spec P (recheck alloy_to_string chain bn bh head cp)
    (on_ok (fun a w => P w /\ match a with
       | FaFinalized e => supported chain receipt e head
       | FaOrphaned => ∃ b, answered (TagNumber bn) b /\ b_hash b <> bh
       | _ => True end)).
Proof.
  intros Hbn Hbh Hhead Hcov Hq. eapply triple_try; [apply get_block_spec|].
  intros [b|]; [|apply triple_ret; by intros w [Hw _]]. branch Hb; [by apply triple_ret|].
  apply negb_false_iff in Hb. apply triple_and. intros Hans. specialize (Hans b eq_refl).
  branch Hh.
  { apply triple_ret. intros w Hw. split; [done|]. apply bool_decide_eq_true in Hh. by exists b. }
  apply bool_decide_eq_false, dec_stable in Hh. subst bh. rewrite (block_eta _ _ Hb) in Hans.
  eapply triple_try; [apply get_block_spec|]. intros [c|]; [|apply triple_ret; by intros w [Hw _]].
  branch Hc; [by apply triple_ret|]. apply orb_false_iff in Hc as [Hc Hsame]. apply orb_false_iff in Hc as [Hcn Hch].
  apply negb_false_iff in Hcn. apply bool_decide_eq_false, dec_stable in Hch.
  apply triple_and. intros Hansc. specialize (Hansc c eq_refl). rewrite (block_eta _ _ Hcn), Hch in Hansc.
  assert (supported chain receipt (mkFinality bn (b_hash b) (b_number cp) (b_hash cp) (ch_finality_policy chain)) head)
    as Hsup.
  { split; cbn; try done.
    - intros Heq. apply andb_false_iff in Hsame as [Hs|Hs]; [apply N.eqb_neq in Hs; congruence|].
      by apply bool_decide_eq_false, dec_stable in Hs.
    - destruct (ch_finality_policy chain); [|done]. subst cp. by destruct head. }
  branch Hne; [|by apply triple_ret].
  eapply triple_try; [apply get_block_spec|]. intros [h|]; [|apply triple_ret; by intros w [Hw _]].
  branch Hhd; [by apply triple_ret|]. apply triple_ret. by intros w [Hw _].
Qed.

Lemma assess_receipt_spec P chain expected receipt :
  spec P (assess_receipt_finality alloy_to_string chain expected receipt)
    (on_ok (fun a w => P w /\ match a with
       | FaFinalized e => rc_transaction_hash receipt = expected /\ is_Some (rc_eip658 receipt) /\
           validate_policy (ch_finality_policy chain) (ch_chain_id chain) = Ok tt /\
           ∃ head, supported chain receipt e head
       | FaOrphaned => ∃ bn bh b, rc_block_number receipt = Some bn /\ rc_block_hash receipt = Some bh /\
           answered (TagNumber bn) b /\ b_hash b <> bh
       | FaPending _ => True end)).
Proof.
  apply triple_pure. intros [] Hpol. branch Hhash; [by apply triple_ret|].
  apply bool_decide_eq_false, dec_stable in Hhash. branch Hst; [by apply triple_ret|].
  apply bool_decide_eq_false in Hst.
  destruct (rc_block_number receipt) as [bn|] eqn:Hbn; [|by apply triple_ret].
  destruct (rc_block_hash receipt) as [bh|] eqn:Hbh; [|by apply triple_ret].
  eapply triple_try; [apply get_block_spec|]. intros [b|]; [|apply triple_ret; by intros w [Hw _]].
  branch Hb; [by apply triple_ret|]. apply triple_and. intros Hans. branch Hh.
  { apply triple_ret. intros w Hw. split; [done|]. exists bn, bh, b. split_and!; [done|done|by apply Hans|].
    by apply bool_decide_eq_true in Hh. }
  eapply triple_try; [apply get_block_spec|]. intros [head|]; [|apply triple_ret; by intros w [Hw _]].
  destruct (required_height _ bn) as [req|] eqn:Hreq; [|by apply triple_ret].
  branch Hlt; [apply triple_ret; by intros w [Hw _]|]. apply N.ltb_ge in Hlt.
  apply triple_and. intros Hhead. specialize (Hhead head eq_refl).
  eapply triple_try; [apply qualified_checkpoint_spec|]. intros [cp|]; [|apply triple_ret; by intros w [Hw _]].
  apply triple_and. intros Hq. specialize (Hq cp eq_refl).
  assert ((bn <= b_number cp)%N /\ match ch_finality_policy chain with
    | Finalized => cp = head | Depth c => (b_number cp + c = b_number head)%N /\ (bn + c <= U64_MAX)%N end) as [Hcov Hd].
  { unfold required_height in Hreq. destruct (ch_finality_policy chain) as [|c].
    - injection Hreq as <-. by subst cp.
    - destruct (N.leb_spec (bn + c) U64_MAX); [|done]. injection Hreq as <-. split; [lia|done]. }
  eapply triple_post; [by apply (recheck_spec P chain receipt bn bh head cp)|].
  intros [a|] w; [|done]. intros [Hw Ha]. split; [done|]. destruct a as [c| |e]; [done| |].
  - destruct Ha as (b' & ? & ?). by exists bn, bh, b'.
  - split_and!; [done|by destruct (rc_eip658 receipt)|done|by exists head].
Qed.
End Assess.

(** ** An honest provider *)

(** A provider that follows one chain: [canon] gives the block hashes, [final] the
    finalized height, [tip] the latest one.  It may fail or know nothing at any time. *)
Record honest (canon : N -> string) (final tip : N) (t : turn) : Prop := {
  hn_number n b : t_block t (TagNumber n) = Ok (Some b) -> b_hash b = canon n;
  hn_finalized b : t_block t TagFinalized = Ok (Some b) -> (b_number b <= final)%N;
  hn_latest b : t_block t TagLatest = Ok (Some b) -> (b_number b <= tip)%N
}.

Lemma honest_quiet canon final tip : honest canon final tip quiet_turn.
Proof. by split. Qed.

(** Turns of an honest provider, with other tasks that only use the journal. *)
Definition honest_turns `{Primitives} `{!Json Value, !Json FinalityEvidence} canon final tip : FairTurns :=
  Build_FairTurns (fun t => honest canon final tip t /\ fair_turn t)
    (conj (honest_quiet canon final tip) fair_quiet) (fun t Ht => proj2 Ht).

(** What an honest provider's answers mean: the receipt's block is canonical, so is the
    checkpoint, which is not below it and within the final part of the chain. *)
Definition final_on (canon : N -> string) (final tip : N) (policy : FinalityPolicy) (e : FinalityEvidence) : Prop :=
  fe_block_hash e = canon (fe_block_number e) /\ fe_checkpoint_hash e = canon (fe_checkpoint_number e) /\
  (fe_block_number e <= fe_checkpoint_number e)%N /\
  match policy with
  | Finalized => (fe_checkpoint_number e <= final)%N
  | Depth c => (fe_checkpoint_number e + c <= tip)%N
  end.

Lemma supported_final (T : turn -> Prop) canon final tip chain receipt e head :
  (∀ t, T t -> honest canon final tip t) -> supported T chain receipt e head ->
  final_on canon final tip (ch_finality_policy chain) e.
Proof.
  intros HT [_ _ (t1 & H1 & Hb1) (t2 & H2 & Hb2) (t3 & H3 & Hb3) Hcov _ Hd].
  apply HT in H1, H2, H3. apply (hn_number _ _ _ _ H1) in Hb1. apply (hn_number _ _ _ _ H2) in Hb2.
  split_and!; [done..|]. destruct (ch_finality_policy chain).
  - subst head. by apply (hn_finalized _ _ _ _ H3) in Hb3.
  - destruct Hd as [-> _]. by apply (hn_latest _ _ _ _ H3) in Hb3.
Qed.

Section Claims.
Context (alloy_to_string : AlloyRpcError -> string).

(** C22: Soundness of finality.  Against a provider that follows one chain, with calls
    failing or unanswered at any point, an assessment calls a receipt final only if its
    transaction is the expected one with an execution status, its block is the canonical
    block of its height, and that height is finalized, or under a depth policy buried by
    at least that many blocks below the tip; the checkpoint it names is canonical too,
    not below the receipt's block, and itself within the finalized or buried part of the
    chain.  It calls a receipt orphaned only if its block is not canonical. *)
Theorem finality_sound canon final tip chain expected receipt ts w a w' tr :
  honest canon final tip quiet_turn -> Forall (honest canon final tip) ts ->
  erun (assess_receipt_finality alloy_to_string chain expected receipt) ts w = (Ok a, w', tr) ->
  match a with
  | FaFinalized e =>
      rc_transaction_hash receipt = expected /\ is_Some (rc_eip658 receipt) /\
      rc_block_number receipt = Some (fe_block_number e) /\ rc_block_hash receipt = Some (fe_block_hash e) /\
      fe_block_hash e = canon (fe_block_number e) /\ fe_checkpoint_hash e = canon (fe_checkpoint_number e) /\
      (fe_block_number e <= fe_checkpoint_number e)%N /\ fe_policy e = ch_finality_policy chain /\
      match ch_finality_policy chain with
      | Finalized => (fe_checkpoint_number e <= final)%N
      | Depth c => (fe_checkpoint_number e + c <= tip)%N
      end
  | FaOrphaned => ∃ bn bh, rc_block_number receipt = Some bn /\ rc_block_hash receipt = Some bh /\ bh <> canon bn
  | FaPending _ => True
  end.
Proof.
  intros Hq Hts Hrun.
  destruct (wp_run (honest canon final tip) (fun _ _ => True) _ _ _ _ _ _ _ Hq Hts
    (assess_receipt_spec alloy_to_string _ _ (fun _ => True) chain expected receipt w I) Hrun) as [[_ Ha] _].
  destruct a as [c| |e]; [done| |].
  - destruct Ha as (bn & bh & b & Hn & Hh & (t & Ht & Hb) & Hne). exists bn, bh. split_and!; [done|done|].
    rewrite <- (hn_number _ _ _ _ Ht _ _ Hb). done.
  - destruct Ha as (Htx & Hst & _ & head & Hsup).
    destruct (supported_final _ canon final tip _ _ _ _ (fun t Ht => Ht) Hsup) as (Hb & Hc & Hle & Hfin).
    split_and!; try done; apply Hsup.
Qed.

End Claims.

(** ** Settlement *)

Section Settlement.
Context (alloy_to_string : AlloyRpcError -> string).
Context `{Primitives} `{!Json Value, !Json FinalityEvidence} `{!FairTurns}.
#[local] Notation spec P p Q := (triple ok_turn later P p Q).

(** The file is a ledger in good order, and has grown out of [l0]. *)
Definition grown (l0 : Ledger) (w : world) : Prop := ∃ l, w_disk w = LedgerFile l /\ ledger_ok l /\ evolves l0 l.
Lemma grown_later l0 w w' : grown l0 w -> later w w' -> grown l0 w'.
Proof.
  intros (l & Hd & Hok & He) Hl. destruct (later_ledger _ _ _ Hl Hd Hok) as (l' & Hd' & Hok' & He').
  exists l'. split_and!; [done|done|by etrans].
Qed.

(** Others act before the operation. *)
Lemma journal_call_kept {A} (P : world -> Prop) (p : eprog (recovery_result A)) Q :
  (∀ w w', P w -> later w w' -> P w') -> spec P p (on_ok Q) -> spec P (journal_call p) (on_ok Q).
Proof.
  intros HP Hp. apply triple_others.
  - intros t w Ht Hw. pose proof (ok_fair t Ht w) as Hl. eauto.
  - eapply triple_bind; [exact Hp|]. intros [a|e]; by apply triple_ret.
Qed.
Lemma journal_call_spec {A} l0 (p : eprog (recovery_result A)) Q :
  spec (grown l0) p (on_ok Q) -> spec (grown l0) (journal_call p) (on_ok Q).
Proof. apply journal_call_kept. apply grown_later. Qed.

(** A journal call in the middle of a longer program. *)
Lemma journal_spec {A} l0 (p : eprog (recovery_result A)) (Q : Ledger -> A -> world -> Prop) :
  (∀ l, ledger_ok l -> triple ok_turn (step ok_turn) (fun w => w_disk w = LedgerFile l) p (on_ok (Q l))) ->
  spec (grown l0) (journal_call p) (on_ok (fun a w => ∃ l, evolves l0 l /\ (grown l0 w /\ Q l a w))).
Proof.
  intros Hp. apply journal_call_spec. intros w (l & Hd & Hok & He).
  eapply wp_mono; [done| |apply (wp_ledger _ _ _ _ l Hd Hok (triple_flow _ _ _ (Hp l Hok) w Hd))].
  intros [a|e] w' [Ha (l' & Hd' & Hok' & He')]; [|done]. exists l. split_and!; [done| |done].
  exists l'. split_and!; [done|done|]. by etrans.
Qed.

(** A checkpoint [e] is durably the one of its chain, or a later one agrees with it. *)
Definition checkpoint_kept_in (chain : N) (e : FinalityEvidence) (w : world) : Prop :=
  ∃ l e', synced l w /\ load_chain_checkpoint l chain = Ok (Some e') /\ fe_policy e' = fe_policy e /\
    fe_checkpoint_number e' = fe_checkpoint_number e /\ fe_checkpoint_hash e' = fe_checkpoint_hash e.

(** Halting the chain and failing is never a success. *)
Lemma halt_and_fail_spec {A} l0 chain message (Q : A -> world -> Prop) :
  spec (grown l0) (ebind (journal_call (halt_chain chain))
    (fun r => match r with Ok _ => ERet (Err (unavailable message)) | Err e => ERet (Err e) end)) (on_ok Q).
Proof.
  eapply triple_try; [|intros []; by apply triple_ret].
  apply (journal_spec l0 _ (fun _ _ _ => True)). intros l Hok.
  eapply triple_post; [by apply halt_chain_spec|]. by intros [[]|] w.
Qed.

Lemma check_continuity_spec l0 chain :
  spec (grown l0) (check_continuity alloy_to_string true chain)
    (on_ok (fun prev w => grown l0 w /\ ∀ e, prev = Some e -> fe_policy e = ch_finality_policy chain)).
Proof.
  unfold check_continuity. cbn [negb].
  eapply triple_try; [apply (journal_spec l0 _ (fun l => reads (LedgerFile l)
    (fun l => load_chain_checkpoint l (ch_chain_id chain)))); intros l Hok; by apply load_checkpoint_spec|].
  intros [prev|]; [|apply triple_ret; by intros w (l & _ & Hg & _)].
  eapply triple_conseq; [by intros w (l & _ & Hg & _); exact Hg|intros a w Ha; exact Ha|].
  branch Hpol; [apply halt_and_fail_spec|]. apply bool_decide_eq_false, dec_stable in Hpol.
  eapply (triple_try _ _ _ _ _ (fun _ => grown l0)).
  - eapply triple_try; [apply get_block_spec|]. intros [b|]; [|apply triple_ret; by intros w [Hw _]].
    branch Hb; [by apply triple_ret|]. case_decide; apply triple_ret; by intros w [Hw _].
  - intros []; [apply triple_ret|by apply triple_ret|apply halt_and_fail_spec]. intros w Hw. split; [done|]. by intros e [= <-].
Qed.

Lemma settle_once_spec l0 chain previous evidence :
  spec (grown l0) (settle_once chain previous evidence)
    (on_ok (fun o w => grown l0 w /\ ∀ e, o = Some (FaFinalized e) ->
       e = evidence /\ checkpoint_kept_in (ch_chain_id chain) e w)).
Proof.
  unfold settle_once. branch Hlow; [apply triple_ret; by intros w Hw|].
  eapply triple_try.
  { apply (journal_spec l0 _ (fun l accepted w => accepted = true -> checkpoint_kept_in (ch_chain_id chain) evidence w)).
    intros l Hok. eapply triple_post; [by apply commit_checkpoint_spec|]. intros [acc|] w; [|done].
    intros (old & l1 & l' & [= <-] & Ht & Hs) ->. destruct (checkpoint_txn_accepted _ _ _ _ _ _ Ht) as (e & He & ? & ? & ?).
    exists (settled l'), e. split_and!; [done| |done..].
    unfold load_chain_checkpoint. by destruct (settled_tables l') as (_&_&_&_&_&->). }
  intros []; apply triple_ret; intros w (l & _ & Hg & Hc); (split; [done|]); [|done].
  intros e [= <-]. split; [done|]. by apply Hc.
Qed.

Lemma settle_spec l0 n chain previous evidence :
  spec (grown l0) (settle alloy_to_string true n chain previous evidence)
    (on_ok (fun a w => grown l0 w /\ ∀ e, a = FaFinalized e ->
       e = evidence /\ checkpoint_kept_in (ch_chain_id chain) e w)).
Proof.
  revert previous. induction n as [|n IH]; intros previous; cbn [settle];
    (eapply triple_try; [apply settle_once_spec|]); (intros [a|];
    [apply triple_ret; intros w [Hg Ha]; split; [done|]; intros e ->; by apply Ha|]).
  - apply triple_ret. by intros w [Hg _].
  - eapply triple_conseq; [by intros w [Hg _]; exact Hg|intros a w Ha; exact Ha|].
    eapply triple_try; [apply check_continuity_spec|]. intros again. apply triple_and. intros _. apply IH.
Qed.

Lemma assess_spec l0 chain hash receipt :
  spec (grown l0) (assess alloy_to_string true chain hash receipt)
    (on_ok (fun a w => grown l0 w /\ ∀ e, a = FaFinalized e ->
       checkpoint_kept_in (ch_chain_id chain) e w /\ rc_transaction_hash receipt = hash /\
       is_Some (rc_eip658 receipt) /\ ∃ head, supported ok_turn chain receipt e head)).
Proof.
  eapply triple_try; [apply check_continuity_spec|]. intros prev. apply triple_and. intros _.
  eapply triple_try; [apply (assess_receipt_spec alloy_to_string)|].
  intros [c| |ev]; [apply triple_ret; by intros w [Hw _]..|]. cbn [negb]. apply triple_and.
  intros (Htx & Hst & _ & head & Hsup). eapply triple_post; [apply settle_spec|].
  intros [a|] w; [|done]. intros [Hg Ha]. split; [done|]. intros e ->. destruct (Ha e eq_refl) as [-> Hk].
  split_and!; [done..|]. by exists head.
Qed.
End Settlement.

Section Durable.
Context (alloy_to_string : AlloyRpcError -> string).
Context `{Primitives} `{!Json Value, !Json FinalityEvidence}.

(** C5: No receipt is reported final before its checkpoint is durable.  With a journal,
    whatever the provider, the disk and Redis do, and whatever the other tasks of the
    process do to the ledger between the operations of the assessment, one that says
    final leaves that checkpoint committed in the ledger under the chain's policy,
    published to Redis, and not yet overtaken, at or above the receipt's block; and over
    any later life of the ledger (operations, crashes, restarts, any change of Redis) the
    chain's checkpoint stays at or above it, under the same policy and with the same block
    at the same height. *)
Theorem final_means_durable chain hash receipt ts w e w' tr l :
  w_disk w = LedgerFile l -> ledger_ok l -> Forall fair_turn ts ->
  erun (assess alloy_to_string true chain hash receipt) ts w = (Ok (FaFinalized e), w', tr) ->
  checkpoint_kept_in (ch_chain_id chain) e w' /\ fe_policy e = ch_finality_policy chain /\
  rc_block_number receipt = Some (fe_block_number e) /\ rc_block_hash receipt = Some (fe_block_hash e) /\
  (fe_block_number e <= fe_checkpoint_number e)%N /\
  ∀ w'', rtc life w' w'' -> ∃ l'' e'', w_disk w'' = LedgerFile l'' /\
    load_chain_checkpoint l'' (ch_chain_id chain) = Ok (Some e'') /\ checkpoint_kept e e''.
Proof.
  intros Hd Hok Hts Hrun. assert (grown l w) as Hg by by exists l.
  destruct (wp_run fair_turn _ _ _ _ _ _ _ _ fair_quiet Hts
    (assess_spec alloy_to_string (H0 := fair_turns) l chain hash receipt w Hg) Hrun) as [[Hg' Ha] _].
  destruct (Ha e eq_refl) as (Hk & _ & _ & head & Hsup). split_and!; [done|apply Hsup..|].
  intros w'' Hlife. destruct Hk as (l1 & e1 & (Hd1 & _) & Hc & Hp & Hn & Hh). destruct Hg' as (l2 & Hd2 & Hok2 & _).
  rewrite Hd1 in Hd2. injection Hd2 as <-. destruct (life_ledger _ _ _ Hlife Hd1 Hok2) as (l'' & Hd'' & _ & He).
  destruct (ev_checkpoints _ _ He _ _ Hc) as (e2 & Hc2 & Hp2 & Hn2 & Hh2). exists l'', e2.
  split_and!; [done|done|]. split_and!; [congruence|lia|]. intros Heq. rewrite Hh2 by lia. done.
Qed.
End Durable.

(** ** Terminal evidence *)

Section Terminal.
Context `{Primitives} `{!Json Value, !Json FinalityEvidence} `{!FairTurns}.
#[local] Notation spec P p Q := (triple ok_turn later P p Q).

Lemma find_attempt_Ok kind key witness attempts :
  find_attempt kind key witness attempts = Ok tt ->
  ∃ a v, a ∈ attempts /\ from_json (at_payload a) = Some v /\ attempt_matches kind key witness v = Ok true.
Proof.
  induction attempts as [|a rest IH]; cbn; [done|]. intros Hf.
  destruct (ok_or Storage (from_json (at_payload a))) as [v|] eqn:Hv; [|done]. apply ok_or_Ok in Hv.
  destruct (attempt_matches kind key witness v) as [[]|] eqn:Hm; [| |done].
  - exists a, v. set_solver.
  - destruct (IH Hf) as (a' & v' & ? & ? & ?). exists a', v'. set_solver.
Qed.

(** What identified the attempt of an EOA settlement. *)
Lemma eoa_identity_Ok l r chain hash succeeded ev :
  rec_kind r = "eoa" \/ rec_kind r = "eoa_noop" ->
  validate_attempt_identity_in_db l r (evm_terminal_value chain hash succeeded ev) = Ok tt ->
  ∃ k at0 v, rec_replay_key r = Some k /\ (replay_chain k ≫= parse_u64) = Some chain /\
    at0 ∈ l_attempts l /\ at_id at0 = rec_id r /\ from_json (at_payload at0) = Some v /\
    field_ok value_b256 v "transactionHash" = value_b256 (VString hash) /\ is_Some (value_b256 (VString hash)).
Proof.
  intros Hkind Hv. unfold validate_attempt_identity_in_db in Hv. destruct (decide _) in Hv; [done|].
  destruct (rec_replay_key r) as [k|]; [|done]. cbn [ok_or] in Hv.
  destruct (replay_chain k) as [ch|] eqn:Hch; [|done]. cbn [ok_or] in Hv.
  rewrite !decide_False in Hv by (destruct Hkind as [-> | ->]; done). cbn in Hv.
  replace (field as_u64 _ "chainId") with (ok_or Conflict (as_u64 (VNumber (PosInt chain)))) in Hv by reflexivity.
  cbn [as_u64] in Hv. destruct (chain <=? U64_MAX)%N in Hv; [|done]. cbn [ok_or] in Hv.
  destruct (bool_decide (parse_u64 ch <> Some chain)) eqn:Hc in Hv; [done|]. apply bool_decide_eq_false, dec_stable in Hc.
  destruct (ensure_chain_not_halted ch l) in Hv; [|done].
  destruct (find_attempt_Ok _ _ _ _ Hv) as (at0 & v & Hin & Hpay & Hm).
  apply list_elem_of_filter in Hin as [Hid Hin]. exists k, at0, v. rewrite Hch.
  unfold attempt_matches, eoa_attempt_matches in Hm. rewrite bool_decide_true in Hm by (destruct Hkind as [-> | ->]; set_solver).
  replace (field value_b256 (evm_terminal_value chain hash succeeded ev) "transactionHash")
    with (ok_or Conflict (value_b256 (VString hash))) in Hm by reflexivity.
  destruct (value_b256 (VString hash)) as [h|]; [|done]. cbn [ok_or] in Hm. injection Hm as Hm. b2p. split_and!; eauto.
Qed.

Lemma terminal_txn_settles kind i enc norm ev l old l' :
  ledger_ok l -> terminal_txn kind i enc norm ev l = Ok ((old, false), l') ->
  l_attempts l' = l_attempts l /\
  ∃ r a, lookup_admission l i = Ok (Some r) /\ rec_kind r = kind /\ rec_id r = i /\
    validate_attempt_identity_in_db l r ev = Ok tt /\
    l_admissions l' !! i = Some a /\ ad_kind a = kind /\ ad_state a = StTerminal /\
    ad_replay_key a = rec_replay_key r.
Proof.
  intros Hok (a & r & Ha & Hk & Hr & Hv & _ & _ & Hcase)%terminal_txn_Ok.
  destruct (lookup_admission_Some _ _ _ Hr) as (a' & Ha' & Hid & Hk' & _ & _ & _ & Hrk).
  rewrite Ha in Ha'. injection Ha' as <-.
  destruct Hcase as [(Hs & _ & _ & ->)|[(_ & [=] & _)|(Hs & _ & l1 & c & Hi & Hadv & _)]].
  - split; [done|]. exists r, a. split_and!; congruence.
  - apply insert_terminal_Ok in Hi as [_ ->]. destruct (advance_tables _ _ _ Hadv) as (Hads & Hats & _).
    rewrite Hats. split; [done|]. exists r, (with_state StTerminal a). rewrite Hads, lookup_update_state. cbn.
    rewrite Ha. cbn. rewrite decide_True by done. split_and!; try done; congruence.
Qed.

(** A settled transaction: terminal, under a replay key of the chain, with a recorded
    attempt of the settled hash. *)
Definition settled_attempt (kind i : string) (chain : N) (hash : string) (l : Ledger) : Prop :=
  ∃ a k at0 v, l_admissions l !! i = Some a /\ ad_kind a = kind /\ ad_state a = StTerminal /\
    ad_replay_key a = Some k /\ (replay_chain k ≫= parse_u64) = Some chain /\
    at0 ∈ l_attempts l /\ at_id at0 = i /\ at_replay_key at0 = k /\ from_json (at_payload at0) = Some v /\
    field_ok value_b256 v "transactionHash" = value_b256 (VString hash) /\ is_Some (value_b256 (VString hash)).

Lemma terminal_txn_attempt kind i chain hash succeeded ev enc norm l old l' :
  kind = "eoa" \/ kind = "eoa_noop" -> ledger_ok l ->
  terminal_txn kind i enc norm (evm_terminal_value chain hash succeeded ev) l = Ok ((old, false), l') ->
  settled_attempt kind i chain hash (settled l').
Proof.
  intros Hkind Hok Ht.
  destruct (terminal_txn_settles _ _ _ _ _ _ _ _ Hok Ht) as (Hats & r & a & Hr & Hk' & Hid & Hv & Ha & Hka & Hst & Hk).
  rewrite <- Hk' in Hkind.
  destruct (eoa_identity_Ok _ _ _ _ _ _ Hkind Hv) as (k & at0 & v & Hrk & Hch & Hin & Hat & Hpay & Hh & Hsome).
  destruct (settled_tables l') as (Hads & Hats' & _). exists a, k, at0, v. rewrite Hads, Hats', Hats.
  destruct (lookup_admission_Some _ _ _ Hr) as (b' & Hb' & _ & Hbk' & _ & _ & _ & Hrk').
  destruct (ok_attempt _ Hok at0 Hin) as (b & Hb & Hbk).
  split_and!; try done; [congruence|congruence|]. rewrite Hat, Hid in Hb. congruence.
Qed.

Lemma record_evm_terminal_spec l kind i chain hash succeeded ev :
  kind = "eoa" \/ kind = "eoa_noop" ->
  spec (grown l) (record_evm_terminal true kind i chain hash succeeded ev)
    (on_ok (fun _ w => ∃ l', synced l' w /\ settled_attempt kind i chain hash l')).
Proof.
  intros Hkind. eapply triple_try.
  - apply (journal_spec l _ (fun _ _ _ => True)). intros l1 Hok1.
    eapply triple_post; [by apply check_chain_healthy_spec|]. by intros [[]|] w1.
  - intros []. eapply triple_conseq; [by intros w1 (l1 & _ & Hg1 & _); exact Hg1| |
      apply (journal_spec l _ (fun l1 _ w1 => ∃ l', synced l' w1 /\ settled_attempt kind i chain hash l'))].
    + intros [[]|] w1; [|done]. by intros (l1 & _ & _ & He).
    + intros l1 Hok1. eapply triple_post; [by apply record_terminal_spec|]. intros [[]|] w1; [|done].
      intros (_ & normalized & encoded & old & _ & _ & l2 & l' & [= <-] & Ht & Hs). exists (settled l'). split; [done|].
      by eapply terminal_txn_attempt; [|by apply settled_ok|].
Qed.

End Terminal.

Section Reorg.
Context (alloy_to_string : AlloyRpcError -> string).
Context `{Primitives} `{!Json Value, !Json FinalityEvidence}.

(** Settlement is bound to a recorded broadcast.  When the settlement of an EOA
    transaction succeeds, the ledger, in agreement with Redis, has it terminal, under a
    replay key of the named chain that is not halted, and one of its recorded attempts
    is a transaction with exactly the settled hash. *)
Theorem terminal_names_attempt i chain hash succeeded ev ts w w' tr l :
  w_disk w = LedgerFile l -> ledger_ok l -> Forall fair_turn ts ->
  erun (record_evm_terminal true "eoa" i chain hash succeeded ev) ts w = (Ok tt, w', tr) ->
  ∃ l' a k at0 v, synced l' w' /\ l_admissions l' !! i = Some a /\ ad_state a = StTerminal /\
    ad_replay_key a = Some k /\ (replay_chain k ≫= parse_u64) = Some chain /\
    at0 ∈ l_attempts l' /\ at_id at0 = i /\ at_replay_key at0 = k /\ from_json (at_payload at0) = Some v /\
    field_ok value_b256 v "transactionHash" = value_b256 (VString hash) /\ is_Some (value_b256 (VString hash)).
Proof.
  intros Hd Hok Hts Hrun. assert (grown l w) as Hg by by exists l.
  destruct (wp_run fair_turn _ _ _ _ _ _ _ _ fair_quiet Hts
    (record_evm_terminal_spec (H0 := fair_turns) l "eoa" i chain hash succeeded ev (or_introl eq_refl) w Hg) Hrun)
    as [(l' & Hs & a & k & at0 & v & Ha & _ & Hrest) _]. by exists l', a, k, at0, v.
Qed.

(** ** Deep reorganisations *)

(** A chain that has left an accepted checkpoint settles nothing more.  If the
    provider's chain has another block at the height of the ledger's checkpoint, and no
    other task moves the ledger meanwhile, no assessment on that chain succeeds, not even
    a pending one, whatever the receipt. *)
Theorem reorg_never_settles canon final tip chain hash receipt prev ts w a w' tr l :
  Forall (fun t => honest canon final tip t /\ ∀ w, w_disk (t_others t w) = w_disk w) ts ->
  w_disk w = LedgerFile l -> ledger_ok l ->
  load_chain_checkpoint l (ch_chain_id chain) = Ok (Some prev) ->
  fe_checkpoint_hash prev <> canon (fe_checkpoint_number prev) ->
  erun (assess alloy_to_string true chain hash receipt) ts w <> (Ok a, w', tr).
Proof.
  intros Hts Hd Hok Hl Hne Hrun. set (T := fun t : turn => _) in Hts.
  assert (T quiet_turn) as Hq by (split; [apply honest_quiet|done]).
  set (turns := Build_FairTurns T Hq (fun t Ht w => later_same_disk _ _ (proj2 Ht w))).
  assert (triple T later (fun w => w_disk w = LedgerFile l) (check_continuity alloy_to_string true chain)
    (on_ok (fun _ _ => False))) as Hc.
  { unfold check_continuity. cbn [negb].
    eapply (triple_try _ _ _ _ _ (fun found w => grown l w /\ found = Some prev)).
    { apply triple_others; [intros t w1 [_ Ht] Hw1; split; [by apply later_same_disk|by rewrite Ht]|].
      eapply (triple_bind _ _ _ _ _ (on_ok (fun found w => grown l w /\ found = Some prev))); [|intros [x|x]; by apply triple_ret]. intros w1 Hw1.
      eapply wp_mono; [done| |by apply (wp_ledger _ _ _ _ l Hw1 Hok
        (triple_flow (H0 := turns) _ _ _ (load_checkpoint_spec T (LedgerFile l) _ Hok) w1 Hw1))].
      intros [found|] w2; [|done]. intros [(l1 & [= <-] & Hload & _) Hg]. split; [done|].
      unfold load_chain_checkpoint in *. destruct (settled_tables l) as (_&_&_&_&_&Htab). rewrite Htab, Hl in Hload.
      by injection Hload as <-. }
    intros found. apply triple_and. intros ->. branch Hpol; [apply (halt_and_fail_spec (H0 := turns))|].
    eapply (triple_try _ _ _ _ _ (fun c w => grown l w /\ c <> CcConsistent)).
    - eapply triple_try; [apply get_block_spec|]. intros [b|]; [|apply triple_ret; by intros w1 [Hg _]].
      branch Hb; [by apply triple_ret|]. apply triple_and. intros Hans. destruct (Hans b eq_refl) as (t & [Ht _] & Hbt).
      apply (hn_number _ _ _ _ Ht) in Hbt. destruct (decide (b_hash b = fe_checkpoint_hash prev)) as [Hh|Hh].
      + exfalso. apply Hne. by rewrite <- Hh.
      + by apply triple_ret.
    - intros c. apply triple_and. intros Hnc.
      destruct c; [done|by apply triple_ret|apply (halt_and_fail_spec (H0 := turns))]. }
  assert (triple T later (fun w => w_disk w = LedgerFile l) (assess alloy_to_string true chain hash receipt)
    (on_ok (fun _ _ => False))) as Ha.
  { eapply triple_try; [exact Hc|]. by intros p w1 []. }
  by destruct (wp_run T _ _ _ _ _ _ _ _ Hq Hts (Ha w Hd) Hrun).
Qed.
End Reorg.
