(* ===== verification/Fairness.v ===== *)
(** The lanes in front of the journal's mutex (core/src/recovery/fairness.rs): each chain
    may have one contender at a time, over a bounded number of lanes.

    A lane is a semaphore; an EVM lane is known by the serial number of its creation,
    since a chain may be given a new one later.  [Arc::strong_count] of a lane is the
    struct's own reference plus one for every operation that is using it, from the
    moment it asked for its lane until it dropped its permit. *)

From Stdlib Require Import String NArith Lia.
From stdpp Require Import base gmap list option fin_maps relations.
From S2P Require Import Prelude.

Inductive SolanaChainId := SolanaMainnet | SolanaDevnet | SolanaLocal.
#[export] Instance solana_chain_id_eq_dec : EqDecision SolanaChainId.
Proof. solve_decision. Defined.
Inductive ChainScope := ScEvm (id : N) | ScSolana (chain : SolanaChainId) | ScUnknown.
#[export] Instance chain_scope_eq_dec : EqDecision ChainScope.
Proof. solve_decision. Defined.

Inductive Lane := LnEvm (serial : nat) | LnSolana (chain : SolanaChainId) | LnFallback | LnUnscopedHealth.
#[export] Instance lane_eq_dec : EqDecision Lane.
Proof. solve_decision. Defined.

Definition MAX_EVM_LANES : nat := 32.
Definition UNSCOPED_HEALTH_CONCURRENCY : nat := 2.
(** The permits a semaphore is created with. *)
Definition permits (l : Lane) : nat :=
  match l with LnUnscopedHealth => UNSCOPED_HEALTH_CONCURRENCY | _ => 1 end.

(** An operation that uses a lane: its scope, its lane, and whether it has its permit. *)
Record User := mkUser { us_scope : ChainScope; us_lane : Lane; us_holds : bool }.
Record JournalFairness := mkFairness {
  jf_evm : gmap N nat;
  jf_next : nat;
  jf_users : list User
}.
Definition new_fairness : JournalFairness := mkFairness ∅ 0 [].

Definition users_on (l : Lane) (s : JournalFairness) : list User := filter (fun u => us_lane u = l) (jf_users s).
(** The reference of the map or the struct, and the users'. *)
Definition strong_count (l : Lane) (s : JournalFairness) : nat := 1 + length (users_on l s).

(** The lanes kept when the map is full: those with a user ([retain]). *)
Definition reclaimed (s : JournalFairness) : gmap N nat :=
  if (size (jf_evm s) =? MAX_EVM_LANES)%nat
  then filter (fun e => 1 < strong_count (LnEvm e.2) s) (jf_evm s)
  else jf_evm s.

(** [JournalFairness::lane] *)
Definition lane (chain : ChainScope) (s : JournalFairness) : Lane * JournalFairness :=
  match chain with
  | ScEvm id =>
      match jf_evm s !! id with
      | Some serial => (LnEvm serial, s)
      | None =>
          if (1 <? strong_count LnFallback s)%nat then (LnFallback, s)
          else
            let lanes := reclaimed s in
            if (size lanes =? MAX_EVM_LANES)%nat then (LnFallback, mkFairness lanes (jf_next s) (jf_users s))
            else (LnEvm (jf_next s),
                  mkFairness (<[id := jf_next s]> lanes) (S (jf_next s)) (jf_users s))
      end
  | ScSolana chain => (LnSolana chain, s)
  | ScUnknown => (LnFallback, s)
  end.

(** [acquire] and [acquire_health] begin with the choice of a lane. *)
Definition health_lane (chain : ChainScope) (s : JournalFairness) : Lane * JournalFairness :=
  match chain with ScUnknown => (LnUnscopedHealth, s) | _ => lane chain s end.

Definition enter (chain : ChainScope) (health : bool) (s : JournalFairness) : JournalFairness :=
  let '(l, s') := (if health then health_lane chain s else lane chain s) in
  mkFairness (jf_evm s') (jf_next s') (mkUser chain l false :: jf_users s').

Definition holders (l : Lane) (s : JournalFairness) : nat :=
  length (filter (fun u => us_holds u = true) (users_on l s)).

(** Operations enter, get a permit when the semaphore has one, and leave, also while
    still waiting (a cancelled caller). *)
Inductive fair_step (s : JournalFairness) : JournalFairness -> Prop :=
| FsEnter chain health : fair_step s (enter chain health s)
| FsGrant pre chain l post :
    jf_users s = pre ++ mkUser chain l false :: post -> (holders l s < permits l)%nat ->
    fair_step s (mkFairness (jf_evm s) (jf_next s) (pre ++ mkUser chain l true :: post))
| FsLeave pre u post :
    jf_users s = pre ++ u :: post -> fair_step s (mkFairness (jf_evm s) (jf_next s) (pre ++ post)).

(** ** The invariant *)

Record fair_ok (s : JournalFairness) : Prop := {
  fo_size : (size (jf_evm s) <= MAX_EVM_LANES)%nat;
  fo_serial id k : jf_evm s !! id = Some k -> (k < jf_next s)%nat;
  fo_inj id id' k : jf_evm s !! id = Some k -> jf_evm s !! id' = Some k -> id = id';
  (** a user of an EVM lane runs for the chain that owns the lane *)
  fo_evm u k : u ∈ jf_users s -> us_lane u = LnEvm k ->
    ∃ id, us_scope u = ScEvm id /\ jf_evm s !! id = Some k;
  (** while a chain overflows into the fallback it gets no lane of its own *)
  fo_overflow u id : u ∈ jf_users s -> us_scope u = ScEvm id -> us_lane u = LnFallback ->
    jf_evm s !! id = None;
  fo_scope u : u ∈ jf_users s -> match us_scope u with
    | ScEvm _ => us_lane u = LnFallback \/ ∃ k, us_lane u = LnEvm k
    | ScSolana c => us_lane u = LnSolana c
    | ScUnknown => us_lane u ∈ [LnFallback; LnUnscopedHealth] end;
  fo_permits l : (holders l s <= permits l)%nat
}.

Lemma strong_count_fallback s :
  (1 <? strong_count LnFallback s)%nat = false -> ∀ u, u ∈ jf_users s -> us_lane u <> LnFallback.
Proof.
  intros Hc u Hu Hl. apply Nat.ltb_ge in Hc. unfold strong_count, users_on in Hc.
  assert (u ∈ filter (fun u => us_lane u = LnFallback) (jf_users s)) as Hin by by apply list_elem_of_filter.
  destruct (filter _ _); [set_solver|]. cbn in Hc. lia.
Qed.
Lemma strong_count_used s u k : u ∈ jf_users s -> us_lane u = LnEvm k -> (1 < strong_count (LnEvm k) s)%nat.
Proof.
  intros Hu Hl. unfold strong_count, users_on.
  assert (u ∈ filter (fun u => us_lane u = LnEvm k) (jf_users s)) as Hin by by apply list_elem_of_filter.
  destruct (filter _ _); [set_solver|]. cbn. lia.
Qed.

(** Choosing a lane keeps the invariant and the users, and gives an EVM chain the lane
    its other users have. *)
Lemma lane_ok chain s l s' :
  fair_ok s -> lane chain s = (l, s') ->
  fair_ok s' /\ jf_users s' = jf_users s /\
  match chain with
  | ScEvm id => (∃ k, l = LnEvm k /\ jf_evm s' !! id = Some k /\
                   ∀ u, u ∈ jf_users s -> us_scope u = ScEvm id -> us_lane u <> LnFallback) \/
                (l = LnFallback /\ jf_evm s' !! id = None)
  | ScSolana c => l = LnSolana c
  | ScUnknown => l = LnFallback
  end.
Proof.
  intros Hok Hl. destruct chain as [id|c|]; unfold lane in Hl; [|by injection Hl as <- <-..].
  destruct (jf_evm s !! id) as [k|] eqn:Hid.
  { injection Hl as <- <-. split_and!; [done|done|left]. exists k. split_and!; [done|done|].
    intros u Hu Hs Hf. rewrite (fo_overflow _ Hok u id Hu Hs Hf) in Hid. done. }
  destruct (1 <? strong_count LnFallback s)%nat eqn:Hc; [injection Hl as <- <-; split_and!; [done|done|by right]|].
  pose proof (strong_count_fallback s Hc) as Hfree.
  set (lanes := reclaimed s) in Hl.
  assert (lanes ⊆ jf_evm s /\ (∀ u k id', u ∈ jf_users s -> us_lane u = LnEvm k -> jf_evm s !! id' = Some k ->
    lanes !! id' = Some k)) as [Hsub Hused].
  { clear Hl. subst lanes. unfold reclaimed. destruct (_ =? _)%nat; [|by split; [|by intros u k id' _ _]].
    split; [apply map_filter_subseteq|].
    intros u k id' Hu Hk Hl'. apply map_lookup_filter_Some. split; [done|]. by eapply strong_count_used. }
  assert (fair_ok (mkFairness lanes (jf_next s) (jf_users s))) as Hlanes.
  { split; cbn.
    - etrans; [by apply map_subseteq_size|apply Hok].
    - intros i k Hi. eapply (fo_serial _ Hok), lookup_weaken; done.
    - intros i j k Hi Hj. eapply (fo_inj _ Hok); by eapply lookup_weaken.
    - intros u k Hu Hk. destruct (fo_evm _ Hok u k Hu Hk) as (i & Hs & Hi). exists i. eauto.
    - intros u i Hu _ Hf. by destruct (Hfree u Hu).
    - apply Hok.
    - apply (fo_permits _ Hok). }
  destruct (Nat.eqb_spec (size lanes) MAX_EVM_LANES) as [Hfull|Hroom]; injection Hl as <- <-.
  - split_and!; [done|done|]. right. split; [done|]. eapply lookup_weaken_None; done.
  - assert (lanes !! id = None) as Hnone by (eapply lookup_weaken_None; done).
    split_and!; [|done|left; exists (jf_next s); cbn; rewrite lookup_insert_eq; eauto].
    split; cbn.
    + rewrite map_size_insert_None by done. pose proof (fo_size _ Hlanes) as Hsz. cbn in Hsz. lia.
    + intros i k. rewrite lookup_insert. case_decide; [intros [= <-]; lia|]. intros Hi%(fo_serial _ Hlanes). cbn in Hi. lia.
    + intros i j k. rewrite !lookup_insert. repeat case_decide; subst; try done.
      * intros [= <-] Hj%(fo_serial _ Hlanes). cbn in Hj. lia.
      * intros Hi%(fo_serial _ Hlanes) [= <-]. cbn in Hi. lia.
      * apply (fo_inj _ Hlanes).
    + intros u k Hu Hk. destruct (fo_evm _ Hlanes u k Hu Hk) as (i & Hs & Hi). exists i. split; [done|].
      cbn in Hi. rewrite lookup_insert_ne; [done|]. intros ->. congruence.
    + intros u i Hu _ Hf. by destruct (Hfree u Hu).
    + apply Hok.
    + apply (fo_permits _ Hok).
Qed.

Lemma holders_app l m n us us' :
  holders l (mkFairness m n (us ++ us')) = holders l (mkFairness m n us) + holders l (mkFairness m n us').
Proof. unfold holders, users_on. cbn [jf_users]. by rewrite !filter_app, length_app. Qed.
Lemma holders_cons l m n u us :
  holders l (mkFairness m n (u :: us)) =
  (if decide (us_lane u = l /\ us_holds u = true) then 1 else 0) + holders l (mkFairness m n us).
Proof.
  unfold holders, users_on. cbn [jf_users]. rewrite filter_cons. destruct (decide (us_lane u = l)).
  - rewrite filter_cons. destruct (decide (us_holds u = true)); [rewrite decide_True by done|rewrite decide_False by tauto]; done.
  - by rewrite decide_False by tauto.
Qed.
Lemma holders_users l s m n : holders l (mkFairness m n (jf_users s)) = holders l s.
Proof. done. Qed.

Lemma enter_ok chain health s : fair_ok s -> fair_ok (enter chain health s).
Proof.
  intros Hok. unfold enter.
  destruct (if health : bool then health_lane chain s else lane chain s) as [l s'] eqn:Hl.
  assert (fair_ok s' /\ jf_users s' = jf_users s /\
    match chain with
    | ScEvm id => (∃ k, l = LnEvm k /\ jf_evm s' !! id = Some k /\
                     ∀ u, u ∈ jf_users s -> us_scope u = ScEvm id -> us_lane u <> LnFallback) \/
                  (l = LnFallback /\ jf_evm s' !! id = None)
    | ScSolana c => l = LnSolana c
    | ScUnknown => l ∈ [LnFallback; LnUnscopedHealth]
    end) as (Hok' & Hus & Hcase).
  { destruct health, chain as [id|c|]; cbn [health_lane] in Hl;
      try (destruct (lane_ok _ _ _ _ Hok Hl) as (? & ? & ?); split_and!; try done; by subst; set_solver).
    injection Hl as <- <-. split_and!; [done|done|set_solver]. }
  assert (∀ u, u ∈ mkUser chain l false :: jf_users s' -> u = mkUser chain l false \/ u ∈ jf_users s') as Hin
    by (intros u; by rewrite elem_of_cons).
  split; cbn [jf_evm jf_next jf_users].
  - apply Hok'.
  - apply (fo_serial _ Hok').
  - apply (fo_inj _ Hok').
  - intros u k [->|Hu]%Hin; [|by apply (fo_evm _ Hok')]. cbn. intros ->.
    destruct chain as [id|c|]; [|done|set_solver]. destruct Hcase as [(k' & [= <-] & Hk & _)|[? _]]; [by exists id|done].
  - intros u id [->|Hu]%Hin; [|by apply (fo_overflow _ Hok')]. cbn. intros -> ->.
    by destruct Hcase as [(k & [=] & _)|[_ ?]].
  - intros u [->|Hu]%Hin; [|by apply (fo_scope _ Hok')]. cbn. destruct chain as [id|c|]; [|done|done].
    destruct Hcase as [(k & -> & _)|[-> _]]; eauto.
  - intros l'. rewrite holders_cons, decide_False by (by intros [_ ?]). rewrite holders_users. apply (fo_permits _ Hok').
Qed.

Lemma fair_step_ok s s' : fair_ok s -> fair_step s s' -> fair_ok s'.
Proof.
  intros Hok Hstep. destruct Hstep as [chain health|pre chain l post Hus Hfree|pre u post Hus]; [by apply enter_ok|..].
  - assert (∀ u, u ∈ pre ++ mkUser chain l true :: post -> ∃ u', u' ∈ jf_users s /\
      us_scope u' = us_scope u /\ us_lane u' = us_lane u) as Hsame.
    { intros u Hu. rewrite Hus. setoid_rewrite elem_of_app. setoid_rewrite elem_of_cons.
      apply elem_of_app in Hu as [Hu|[->|Hu]%elem_of_cons]; [exists u; auto|eexists; split; [right; by left|done]|exists u; auto]. }
    split; cbn [jf_evm jf_next jf_users]; try apply Hok.
    + intros u k (u' & Hu' & <- & <-)%Hsame. by apply (fo_evm _ Hok).
    + intros u id (u' & Hu' & <- & <-)%Hsame. by apply (fo_overflow _ Hok).
    + intros u (u' & Hu' & <- & <-)%Hsame. by apply (fo_scope _ Hok).
    + intros l'. pose proof (fo_permits _ Hok l') as Hl'.
      rewrite <- (holders_users l' s (jf_evm s) (jf_next s)), Hus, holders_app, holders_cons in Hl'.
      rewrite <- (holders_users l s (jf_evm s) (jf_next s)), Hus, holders_app, holders_cons in Hfree.
      rewrite holders_app, holders_cons. cbn [us_lane us_holds] in *.
      destruct (decide (l = l')) as [<-|Hne].
      * rewrite decide_True by done. rewrite decide_False in Hfree by (by intros [_ ?]). lia.
      * rewrite decide_False by tauto. lia.
  - assert (∀ u', u' ∈ pre ++ post -> u' ∈ jf_users s) as Hin.
    { intros u'. rewrite Hus, !elem_of_app, elem_of_cons. tauto. }
    split; cbn [jf_evm jf_next jf_users]; try apply Hok.
    + intros u' k Hu'%Hin. by apply (fo_evm _ Hok).
    + intros u' id Hu'%Hin. by apply (fo_overflow _ Hok).
    + intros u' Hu'%Hin. by apply (fo_scope _ Hok).
    + intros l'. pose proof (fo_permits _ Hok l') as Hl'.
      rewrite <- (holders_users l' s (jf_evm s) (jf_next s)), Hus, holders_app, holders_cons in Hl'.
      rewrite holders_app. lia.
Qed.

Lemma fair_reachable s : rtc fair_step new_fairness s -> fair_ok s.
Proof.
  assert (fair_ok new_fairness) as Hnew.
  { split; cbn; try done; try (intros; set_solver).
    - rewrite map_size_empty. unfold MAX_EVM_LANES. lia.
    - intros l. lia. }
  generalize new_fairness Hnew. clear Hnew. intros s0 Hok Hs. induction Hs; eauto using fair_step_ok.
Qed.

(** C34: One contender per chain.  In every reachable state of the lanes, over any
    sequence of entries, grants, completions and cancellations, any two operations of
    the same EVM chain use the same lane and at most one of them holds a permit, also
    while chains overflow into the shared lane and lanes are reclaimed; no lane of a
    chain is used by another; and there are never more than 32 such lanes. *)
Theorem one_contender_per_chain s id u u' :
  rtc fair_step new_fairness s -> u ∈ jf_users s -> u' ∈ jf_users s ->
  us_scope u = ScEvm id -> us_scope u' = ScEvm id ->
  us_lane u = us_lane u' /\ (holders (us_lane u) s <= 1)%nat /\
  (∀ v k, v ∈ jf_users s -> us_lane v = LnEvm k -> us_lane u = LnEvm k -> us_scope v = ScEvm id) /\
  (size (jf_evm s) <= MAX_EVM_LANES)%nat.
Proof.
  intros Hok%fair_reachable Hu Hu' Hs Hs'.
  pose proof (fo_scope _ Hok u Hu) as Hl. pose proof (fo_scope _ Hok u' Hu') as Hl'. rewrite Hs in Hl. rewrite Hs' in Hl'.
  split_and!.
  - destruct Hl as [Hl|[k Hl]], Hl' as [Hl'|[k' Hl']].
    + congruence.
    + destruct (fo_evm _ Hok u' k' Hu' Hl') as (i & Hi & Hk). rewrite Hs' in Hi. injection Hi as <-.
      rewrite (fo_overflow _ Hok u id Hu Hs Hl) in Hk. done.
    + destruct (fo_evm _ Hok u k Hu Hl) as (i & Hi & Hk). rewrite Hs in Hi. injection Hi as <-.
      rewrite (fo_overflow _ Hok u' id Hu' Hs' Hl') in Hk. done.
    + destruct (fo_evm _ Hok u k Hu Hl) as (i & Hi & Hk), (fo_evm _ Hok u' k' Hu' Hl') as (i' & Hi' & Hk').
      rewrite Hs in Hi. rewrite Hs' in Hi'. injection Hi as <-. injection Hi' as <-. congruence.
  - etrans; [apply (fo_permits _ Hok)|]. destruct Hl as [->|[k ->]]; done.
  - intros v k Hv Hvk Huk. destruct (fo_evm _ Hok u k Hu Huk) as (i & Hi & Hk), (fo_evm _ Hok v k Hv Hvk) as (i' & Hi' & Hk').
    rewrite Hs in Hi. injection Hi as <-. rewrite Hi'. by rewrite (fo_inj _ Hok _ _ _ Hk Hk').
  - apply Hok.
Qed.

(** Two operations of chain 7: one holds the permit of its lane, the other waits. *)
Definition one_in : JournalFairness := enter (ScEvm 7) false new_fairness.
Definition one_granted : JournalFairness :=
  mkFairness (jf_evm one_in) (jf_next one_in) [mkUser (ScEvm 7) (LnEvm 0) true].
Definition two_in : JournalFairness := enter (ScEvm 7) true one_granted.
Lemma one_contender_per_chain_witness :
  two_in = mkFairness (jf_evm one_in) 1 [mkUser (ScEvm 7) (LnEvm 0) false; mkUser (ScEvm 7) (LnEvm 0) true] /\
  (holders (LnEvm 0) two_in <= 1)%nat.
Proof.
  split; [by vm_compute|].
  destruct (one_contender_per_chain two_in 7 (mkUser (ScEvm 7) (LnEvm 0) false) (mkUser (ScEvm 7) (LnEvm 0) true))
    as (_ & Hh & _).
  - apply (rtc_l _ _ one_in); [constructor|]. apply (rtc_l _ _ one_granted); [|apply rtc_once; constructor].
    apply (FsGrant one_in [] (ScEvm 7) (LnEvm 0) []); [by vm_compute|vm_compute; lia].
  - vm_compute. left.
  - vm_compute. right. left.
  - reflexivity.
  - reflexivity.
  - exact Hh.
Defined.
