(* ===== verification/QueueTypes.v ===== *)
(** Data of the job queue (twmq/src/job.rs, queue.rs, diagnostics.rs), its key
    names, and scheduling a job from inside another transaction (hooks.rs). *)

From Stdlib Require Import String Ascii NArith Lia.
From stdpp Require Import base gmap strings list fin_maps.
From S2P Require Import Prelude Redis RedisProg Json.

(** ** Errors *)

Inductive TwmqError :=
| TwmqRedisError (e : redis_error)
| TwmqJsonError
| TwmqRuntime (message : string)
| TwmqWorkerPanic (message : string).
#[export] Instance twmq_from_redis : FromRedis TwmqError := TwmqRedisError.

(** ** Time *)

Record Duration := mkDuration { as_secs : N; subsec_nanos : N }.
Definition duration_is_zero (d : Duration) : bool :=
  (as_secs d =? 0)%N && (subsec_nanos d =? 0)%N.

(** Whole seconds, but a positive sub-second delay still waits one second. *)
Definition delay_to_queue_seconds (delay : Duration) : N :=
  let delay_secs := as_secs delay in
  if duration_is_zero delay then 0
  else if (delay_secs =? 0)%N then 1
  else delay_secs.

(** ** Jobs *)

Inductive RequeuePosition := First | Last.
Definition position_to_string (p : RequeuePosition) : string :=
  match p with First => "first" | Last => "last" end.
Definition position_try_from (s : string) : option RequeuePosition :=
  if decide (s = "first") then Some First
  else if decide (s = "last") then Some Last
  else None.

Record DelayOptions := mkDelay { do_delay : Duration; do_position : RequeuePosition }.

Inductive IdempotencyMode := Permanent | Active.
#[export] Instance idempotency_mode_eq_dec : EqDecision IdempotencyMode.
Proof. solve_decision. Defined.

Record QueueOptions := mkQueueOptions {
  max_success : nat;
  max_failed : nat;
  lease_duration : Duration;
  local_concurrency : nat;
  polling_interval : Duration;
  always_poll : bool;
  idempotency_mode : IdempotencyMode
}.

Definition queue_options_default : QueueOptions :=
  mkQueueOptions 1000 10000 (mkDuration 30 0) 100 (mkDuration 0 100000000) false Permanent.

Inductive JobError (E : Type) :=
| Nack (error : E) (delay : option Duration) (position : RequeuePosition)
| Fail (error : E).
Arguments Nack {E} _ _ _.
Arguments Fail {E} _.

Definition nack_with_max_retries {E} (self : E) (delay : option Duration)
    (position : RequeuePosition) (max_retries current_attempts : N) : JobError E :=
  if (max_retries <=? current_attempts)%N then Fail self else Nack self delay position.

Definition map_err_with_max_retries {T E X} (into : X -> E) (self : result X T)
    (delay : option Duration) (position : RequeuePosition) (max_retries current_attempts : N)
    : result (JobError E) T :=
  match self with
  | Ok t => Ok t
  | Err e => if (max_retries <=? current_attempts)%N then Err (Fail (into e))
             else Err (Nack (into e) delay position)
  end.

Inductive JobErrorType := JENack (delay : option Duration) (position : RequeuePosition) | JEFail.

Record JobErrorRecord (E : Type) := mkJobErrorRecord {
  jer_error : E;
  jer_attempt : N;
  jer_details : JobErrorType;
  jer_created_at : N
}.
Arguments mkJobErrorRecord {E} _ _ _ _.

Record Job (T : Type) := mkJob {
  job_id : string;
  job_data : T;
  job_attempts : N;
  job_created_at : N;
  job_processed_at : option N;
  job_finished_at : option N
}.
Arguments mkJob {T} _ _ _ _ _ _.
Arguments job_id {T} _.
Arguments job_data {T} _.
Arguments job_attempts {T} _.
Arguments job_created_at {T} _.
Arguments job_processed_at {T} _.
Arguments job_finished_at {T} _.

Record BorrowedJob (T : Type) := mkBorrowedJob { bj_job : Job T; bj_lease_token : string }.
Arguments mkBorrowedJob {T} _ _.
Arguments bj_job {T} _.
Arguments bj_lease_token {T} _.

Inductive JobStatus := StPending | StActive | StDelayed | StSuccess | StFailed.

Record JobOptions (T : Type) := mkJobOptions {
  jo_data : T;
  jo_id : string;
  jo_delay : option DelayOptions
}.
Arguments mkJobOptions {T} _ _ _.
Arguments jo_data {T} _.
Arguments jo_id {T} _.
Arguments jo_delay {T} _.

(** ** Key names *)

Section Keys.
Context (name : string).

Definition pending_list_name : string := "twmq:" +:+ name +:+ ":pending".
Definition active_hash_name : string := "twmq:" +:+ name +:+ ":active".
Definition delayed_zset_name : string := "twmq:" +:+ name +:+ ":delayed".
Definition success_list_name : string := "twmq:" +:+ name +:+ ":success".
Definition failed_list_name : string := "twmq:" +:+ name +:+ ":failed".
Definition job_data_hash_name : string := "twmq:" +:+ name +:+ ":jobs:data".
Definition job_meta_hash_name (id : string) : string :=
  "twmq:" +:+ name +:+ ":job:" +:+ id +:+ ":meta".
Definition job_errors_list_name (id : string) : string :=
  "twmq:" +:+ name +:+ ":job:" +:+ id +:+ ":errors".
Definition job_result_hash_name : string := "twmq:" +:+ name +:+ ":jobs:result".
Definition dedupe_set_name : string := "twmq:" +:+ name +:+ ":dedup".
Definition pending_cancellation_set_name : string :=
  "twmq:" +:+ name +:+ ":pending_cancellations".
Definition lease_key_name (id lease_token : string) : string :=
  "twmq:" +:+ name +:+ ":job:" +:+ id +:+ ":lease:" +:+ lease_token.
End Keys.

(** ** Scheduling inside another transaction *)

(** [TransactionContext::queue_job]: the commands it appends to the caller's
    pipeline, for the queue called [name]. *)
Definition queue_job {T} `{Json T} (name : string) (now : N) (job : JobOptions T)
    : result TwmqError pipeline :=
  let? data := ok_or TwmqJsonError (to_json (jo_data job)) in
  let id := jo_id job in
  let meta := job_meta_hash_name name id in
  Ok ([ HSET (job_data_hash_name name) id data;
        HSET meta "created_at" (u64_to_string now);
        HSET meta "attempts" "0";
        SADD (dedupe_set_name name) id ] ++
      match jo_delay job with
      | Some d =>
          let process_at := (now + delay_to_queue_seconds (do_delay d))%N in
          [ HSET meta "reentry_position" (position_to_string (do_position d));
            ZADD (delayed_zset_name name) [(process_at, id)] ]
      | None => [ RPUSH (pending_list_name name) id ]
      end).

(** ** Bounded error history *)

Definition MAX_JOB_ERROR_RECORDS : nat := 100.
Definition MAX_JOB_ERROR_RECORD_BYTES : nat := 16 * 1024.

Definition append_record (key record : string) : pipeline :=
  [ LPUSH key record; LTRIM key (MAX_JOB_ERROR_RECORDS - 1) ].

(** The limited writer: serde_json hands over chunks, and the first chunk that
    does not fit makes the writer fail for good. *)
Record LimitedWriter := mkLimitedWriter { lw_bytes : string; lw_exceeded : bool }.

Definition limited_write (w : LimitedWriter) (chunk : string) : result LimitedWriter LimitedWriter :=
  if Nat.ltb (MAX_JOB_ERROR_RECORD_BYTES - String.length (lw_bytes w)) (String.length chunk)
  then Err (mkLimitedWriter (lw_bytes w) true)
  else Ok (mkLimitedWriter (lw_bytes w +:+ chunk) (lw_exceeded w)).

Fixpoint limited_write_all (w : LimitedWriter) (chunks : list string)
    : result LimitedWriter LimitedWriter :=
  match chunks with
  | [] => Ok w
  | c :: cs => let? w' := limited_write w c in limited_write_all w' cs
  end.

Section EncodeRecord.
Context {E : Type}.
(** [serde_json::to_writer] on a record: the chunks it hands to the writer, and
    whether the value's own serialiser then fails. *)
Variable chunks_of : JobErrorRecord E -> list string * bool.
(** The omission marker: attempt, creation time, details and the byte limit. *)
Variable marker_json : N -> N -> JobErrorType -> nat -> option string.

Definition encode_record (record : JobErrorRecord E) : result TwmqError string :=
  let '(chunks, serializer_fails) := chunks_of record in
  match limited_write_all (mkLimitedWriter EmptyString false) chunks with
  | Err _ =>
      ok_or TwmqJsonError
        (marker_json (jer_attempt _ record) (jer_created_at _ record) (jer_details _ record)
           MAX_JOB_ERROR_RECORD_BYTES)
  | Ok w => if serializer_fails then Err TwmqJsonError else Ok (lw_bytes w)
  end.
End EncodeRecord.
