(* ===== verification/Webhook.v ===== *)
(** Notifications and the registry of transactions: the envelope of an executor event, the
    notifications of a stage and the jobs they put on the webhook queue
    (executors/src/webhook/envelope.rs, webhook/mod.rs), and the map from transactions to
    queues (executors/src/transaction_registry.rs). *)

From Stdlib Require Import String Ascii NArith Lia.
From stdpp Require Import base gmap strings list fin_maps option.
From S2P Require Import Prelude Redis RedisProg Json QueueTypes.

Record WebhookOptions := mkWebhookOptions {
  wo_url : string;
  wo_secret : option string;
  wo_user_metadata : option string
}.

Inductive StageEvent := EvSuccess | EvNack | EvFailure.

Record BareWebhookNotificationEnvelope (T : Type) := mkBareEnvelope {
  be_transaction_id : string;
  be_event_type : StageEvent;
  be_executor_name : string;
  be_stage_name : string;
  be_payload : T
}.
Arguments mkBareEnvelope {T} _ _ _ _ _.
Arguments be_transaction_id {T} _.
Arguments be_event_type {T} _.
Arguments be_executor_name {T} _.
Arguments be_stage_name {T} _.
Arguments be_payload {T} _.

Record WebhookNotificationEnvelope (T : Type) := mkEnvelope {
  we_notification_id : string;
  we_transaction_id : string;
  we_timestamp : N;
  we_executor_name : string;
  we_stage_name : string;
  we_event_type : StageEvent;
  we_payload : T;
  we_delivery_target_url : option string;
  we_user_metadata : option string
}.
Arguments mkEnvelope {T} _ _ _ _ _ _ _ _ _.
Arguments we_notification_id {T} _.
Arguments we_transaction_id {T} _.

Record WebhookJobPayload := mkWebhookJobPayload {
  wp_url : string;
  wp_body : string;
  wp_headers : option (list (string * string));
  wp_hmac_secret : option string;
  wp_http_method : option string
}.

Section Queueing.
Context {T : Type} `{Json (WebhookNotificationEnvelope T)} `{Json WebhookJobPayload}.
(** Name of the webhook queue. *)
Context (wq : string).

(** [uuid] is the fresh notification id drawn for this envelope. *)
Definition into_webhook_notification_envelope (self : BareWebhookNotificationEnvelope T)
    (uuid : string) (timestamp : N) (delivery_target_url : string)
    (user_metadata : option string) : WebhookNotificationEnvelope T :=
  mkEnvelope uuid (be_transaction_id self) timestamp (be_executor_name self)
    (be_stage_name self) (be_event_type self) (be_payload self)
    (Some delivery_target_url) user_metadata.

Definition webhook_payload (envelope : BareWebhookNotificationEnvelope T)
    (body : string) (webhook_option : WebhookOptions) : WebhookJobPayload :=
  mkWebhookJobPayload (wo_url webhook_option) body
    (Some [("Content-Type", "application/json");
           ("User-Agent", be_executor_name envelope +:+ "/" +:+ be_stage_name envelope)])
    (wo_secret webhook_option) (Some "POST").

(** The envelopes with their serialisations; the first failure ends the call
    before any command was added. *)
Fixpoint serialise_envelopes (envelope : BareWebhookNotificationEnvelope T) (now : N)
    (uuid : nat -> string) (i : nat) (options : list WebhookOptions)
    : result TwmqError (list (string * WebhookNotificationEnvelope T * WebhookOptions)) :=
  match options with
  | [] => Ok []
  | o :: os =>
      let e := into_webhook_notification_envelope envelope (uuid i) now
                 (wo_url o) (wo_user_metadata o) in
      let? body := ok_or TwmqJsonError (to_json e) in
      let? rest := serialise_envelopes envelope now uuid (S i) os in
      Ok ((body, e, o) :: rest)
  end.

(** The loop that queues the jobs keeps the commands already added when a later
    payload fails to serialise. *)
Fixpoint queue_payloads (now : N) (jobs : list (WebhookJobPayload * WebhookNotificationEnvelope T))
    : pipeline * result TwmqError unit :=
  match jobs with
  | [] => ([], Ok tt)
  | (payload, e) :: rest =>
      let id := we_transaction_id e +:+ "_" +:+ we_notification_id e +:+ "_webhook" in
      match queue_job wq now (mkJobOptions payload id None) with
      | Err err => ([], Err err)
      | Ok cmds =>
          let '(more, r) := queue_payloads now rest in (cmds ++ more, r)
      end
  end.

(** Commands added to the pipeline, and the call's result. *)
Definition queue_webhook_envelopes (envelope : BareWebhookNotificationEnvelope T)
    (webhook_options : list WebhookOptions) (now : N) (uuid : nat -> string)
    : pipeline * result TwmqError unit :=
  match serialise_envelopes envelope now uuid 0 webhook_options with
  | Err err => ([], Err err)
  | Ok es =>
      queue_payloads now
        (map (fun '(body, e, o) => (webhook_payload envelope body o, e)) es)
  end.

(** Every key the call writes belongs to the webhook queue. *)
Definition webhook_key (k : string) : Prop :=
  ∃ rest, k = "twmq:" +:+ wq +:+ String ":"%char rest.

Lemma queue_job_keys {D} `{Json D} now (job : JobOptions D) cmds :
  queue_job wq now job = Ok cmds -> Forall (fun c => webhook_key (wkey c)) cmds.
Proof.
  unfold queue_job. destruct (to_json _) as [data|]; simpl; [|done]. intros [= <-].
  repeat constructor; try (eexists; reflexivity).
  destruct (jo_delay job); repeat constructor; eexists; reflexivity.
Qed.

Lemma queue_job_ok {D} `{Json D} now (job : JobOptions D) cmds :
  queue_job wq now job = Ok cmds -> pipe_ok cmds = true.
Proof.
  unfold queue_job. destruct (to_json _) as [data|]; simpl; [|done]. intros [= <-].
  by destruct (jo_delay job).
Qed.

Lemma queue_payloads_ok now jobs :
  Forall (fun c => webhook_key (wkey c)) (queue_payloads now jobs).1 /\
  pipe_ok (queue_payloads now jobs).1 = true.
Proof.
  induction jobs as [|[p e] jobs [IH1 IH2]]; simpl; [split; [constructor|done]|].
  destruct (queue_job _ _ _) as [cmds|err] eqn:E; [|split; [constructor|done]].
  destruct (queue_payloads now jobs) as [more r]; simpl in *.
  split; [apply Forall_app; split; [by eapply queue_job_keys|done]|].
  rewrite pipe_ok_app, IH2. by rewrite (queue_job_ok _ _ _ E).
Qed.

Lemma queue_webhook_envelopes_ok envelope options now uuid :
  Forall (fun c => webhook_key (wkey c)) (queue_webhook_envelopes envelope options now uuid).1 /\
  pipe_ok (queue_webhook_envelopes envelope options now uuid).1 = true.
Proof.
  unfold queue_webhook_envelopes. destruct (serialise_envelopes _ _ _ _ _);
    [apply queue_payloads_ok|split; [constructor|done]].
Qed.
End Queueing.

(** ** Registry *)

Section Registry.
Context (namespace : option string).
Definition registry_key : string :=
  match namespace with Some ns => ns +:+ ":tx_registry" | None => "tx_registry" end.
Definition get_transaction_queue (transaction_id : string) : prog (result redis_error (option string)) :=
  Atomic (fun σ => (σ, hash σ registry_key !! transaction_id)) Ret.
Definition set_transaction_queue (transaction_id queue_name : string) : prog (result redis_error unit) :=
  Atomic (fun σ => (wrun (HSET registry_key transaction_id queue_name) σ, tt)) Ret.
Definition remove_transaction (transaction_id : string) : prog (result redis_error unit) :=
  Atomic (fun σ => (wrun (HDEL registry_key transaction_id) σ, tt)) Ret.
Definition add_set_command (transaction_id queue_name : string) : wcmd := HSET registry_key transaction_id queue_name.
Definition add_remove_command (transaction_id : string) : wcmd := HDEL registry_key transaction_id.
End Registry.

(** ** Notifications *)

Record SerializableSuccessData (T : Type) := mkSuccessData { sd_result : T }.
Arguments mkSuccessData {T} _.
Record SerializableNackData (E : Type) := mkNackData {
  nd_error : E;
  nd_delay_ms : option N;
  nd_position : RequeuePosition;
  nd_attempt_number : N;
  nd_max_attempts : option N;
  nd_next_retry_at : option N
}.
Arguments mkNackData {E} _ _ _ _ _ _.
Record SerializableFailData (E : Type) := mkFailData { fd_error : E; fd_final_attempt_number : N }.
Arguments mkFailData {E} _ _.

(** [as_millis() as u64] *)
Definition delay_ms (d : Duration) : N := ((as_secs d * 1000 + subsec_nanos d / 1000000) mod 2 ^ 64)%N.

Section Capable.
Context (executor_name stage_name wq : string) `{Json WebhookJobPayload}.

(** One job on the webhook queue; [agent] is the stage of the User-Agent header. *)
Definition queue_webhook {P} `{Json (WebhookNotificationEnvelope P)} (agent : string)
    (envelope : WebhookNotificationEnvelope P) (w : WebhookOptions) (now : N) : result TwmqError pipeline :=
  let? body := ok_or TwmqJsonError (to_json envelope) in
  queue_job wq now (mkJobOptions
    (mkWebhookJobPayload (wo_url w) body
       (Some [("Content-Type", "application/json"); ("User-Agent", executor_name +:+ "/" +:+ agent)])
       (wo_secret w) (Some "POST"))
    (we_transaction_id envelope +:+ "_" +:+ we_notification_id envelope +:+ "_webhook") None).
Definition queue_webhook_envelope {P} `{Json (WebhookNotificationEnvelope P)} :=
  queue_webhook (P:=P) stage_name.

(** The loop over the receivers: the commands already added stay when a later one fails. *)
Fixpoint each_webhook (queue : nat -> WebhookOptions -> result TwmqError pipeline) (i : nat) (ws : list WebhookOptions)
    : pipeline * result TwmqError unit :=
  match ws with
  | [] => ([], Ok tt)
  | w :: ws' =>
      match queue i w with
      | Err e => ([], Err e)
      | Ok cmds => let '(more, r) := each_webhook queue (S i) ws' in (cmds ++ more, r)
      end
  end.

(** For each receiver a fresh id and a reading of the clock, in seconds. *)
Context (uuid : nat -> string) (clock : nat -> N).
Definition stage_envelope {T P} (job : Job T) (stage : string) (event : StageEvent) (payload : P) (i : nat)
    (w : WebhookOptions) : WebhookNotificationEnvelope P :=
  mkEnvelope (uuid i) (job_id job) (clock i) executor_name stage event payload
    (Some (wo_url w)) (wo_user_metadata w).

Definition queue_success_webhook_with_stage {T R} `{Json (WebhookNotificationEnvelope (SerializableSuccessData R))}
    (job : Job T) (webhook_options : list WebhookOptions) (result : R) (stage_override : option string)
    : pipeline * Prelude.result TwmqError unit :=
  each_webhook (fun i w => queue_webhook_envelope
    (stage_envelope job (default stage_name stage_override) EvSuccess (mkSuccessData result) i w) w (clock i)) 0 webhook_options.
Definition queue_success_webhook {T R} `{Json (WebhookNotificationEnvelope (SerializableSuccessData R))}
    (job : Job T) (webhook_options : list WebhookOptions) (result : R) : pipeline * Prelude.result TwmqError unit :=
  queue_success_webhook_with_stage job webhook_options result None.

Definition queue_webhook_with_custom_payload {T P} `{Json (WebhookNotificationEnvelope P)}
    (job : Job T) (webhook_options : list WebhookOptions) (payload : P) (event : StageEvent) (stage_override : string)
    : pipeline * result TwmqError unit :=
  each_webhook (fun i w => queue_webhook stage_override
    (stage_envelope job stage_override event payload i w) w (clock i)) 0 webhook_options.

Definition queue_nack_webhook {T E} `{Json (WebhookNotificationEnvelope (SerializableNackData E))}
    (job : Job T) (webhook_options : list WebhookOptions) (error : E) (delay : option Duration) (position : RequeuePosition)
    : pipeline * result TwmqError unit :=
  each_webhook (fun i w => queue_webhook_envelope
    (stage_envelope job stage_name EvNack
       (mkNackData error (delay_ms <$> delay) position (job_attempts job) None
          ((fun d => clock i + as_secs d)%N <$> delay)) i w) w (clock i)) 0 webhook_options.

Definition queue_fail_webhook {T E} `{Json (WebhookNotificationEnvelope (SerializableFailData E))}
    (job : Job T) (webhook_options : list WebhookOptions) (error : E) : pipeline * result TwmqError unit :=
  each_webhook (fun i w => queue_webhook_envelope
    (stage_envelope job stage_name EvFailure (mkFailData error (job_attempts job)) i w) w (clock i)) 0 webhook_options.

(** ** Every command is one of the webhook queue *)

Lemma queue_webhook_keys {P} `{Json (WebhookNotificationEnvelope P)} agent (envelope : WebhookNotificationEnvelope P) w now cmds :
  queue_webhook agent envelope w now = Ok cmds -> Forall (fun c => webhook_key wq (wkey c)) cmds.
Proof.
  unfold queue_webhook. destruct (to_json envelope); cbn [ok_or]; [|done]. apply queue_job_keys.
Qed.
Lemma each_webhook_keys queue i ws :
  (∀ i w cmds, queue i w = Ok cmds -> Forall (fun c => webhook_key wq (wkey c)) cmds) ->
  Forall (fun c => webhook_key wq (wkey c)) (each_webhook queue i ws).1.
Proof.
  intros Hq. revert i. induction ws as [|w ws IH]; intros i; cbn; [constructor|].
  destruct (queue i w) as [cmds|] eqn:E; [|constructor]. specialize (IH (S i)).
  destruct (each_webhook queue (S i) ws). apply Forall_app. split; [by eapply Hq|done].
Qed.
End Capable.
