(* ===== verification/EoaTypes.v ===== *)
(** Data of the EOA executor store (executors/src/eoa/store/mod.rs, submitted.rs,
    borrowed.rs, events.rs) and the text form of submitted records. *)

From Stdlib Require Import String Ascii NArith Lia.
From stdpp Require Import base gmap strings list fin_maps.
From S2P Require Import Prelude Redis RedisProg Json FinalityTypes QueueTypes Webhook.

Definition NO_OP_TRANSACTION_ID : string := "noop".
Definition MAX_UNFINALIZED_ATTEMPTS : N := 100000.
Definition MAX_PENDING_TRANSACTIONS : N := 25000.

(** Types of other crates: a signed transaction with its nonce and printed hash, a
    receipt with the fields the store compares, and the values the store carries
    without looking inside. *)
Class Carried := {
  SignedTx : Type;
  tx_nonce : SignedTx -> N;
  tx_hash : SignedTx -> string;
  TransactionReceipt : Type;
  receipt_transaction_hash : TransactionReceipt -> string;
  receipt_block_number : TransactionReceipt -> option N;
  receipt_block_hash : TransactionReceipt -> option string;
  receipt_status : TransactionReceipt -> bool;
  SigningCredential : Type;
  RpcCredentials : Type;
  TransactionTypeData : Type;
  EoaExecutorWorkerError : Type;
  worker_error_to_string : EoaExecutorWorkerError -> string
}.

Record TransactionCounts := mkCounts { tc_latest : N; tc_preconfirmed : N }.

Inductive NonceType := Recycled (n : N) | Incremented (n : N).
Definition nonce_of (t : NonceType) : N := match t with Recycled n | Incremented n => n end.
Definition is_recycled (t : NonceType) : bool := match t with Recycled _ => true | _ => false end.
Definition is_incremented (t : NonceType) : bool :=
  match t with Incremented _ => true | _ => false end.

(** Store errors.  Library messages are represented by their kind. *)
Inductive TransactionStoreError :=
| CapacityExceeded
| RedisError (e : redis_error)
| DeserError
| TransactionNotFound (transaction_id : string)
| TransactionConflict (transaction_id : string)
| LockLost (eoa : string) (chain_id : N) (worker_id : string)
| InternalError (message : string)
| TransactionNotInBorrowedState (transaction_id : string) (nonce : N)
| HashNotInSubmittedState (hash : string)
| TransactionNotInSubmittedState (transaction_id : string)
| NonceNotInRecycledSet (nonce : N)
| TransactionNotInPendingQueue (transaction_id : string)
| OptimisticNonceChanged (expected actual : N)
| UnresolvedNonceReservations
| WatchFailed
| NonceSyncRequired (eoa : string) (chain_id : N).
#[export] Instance store_from_redis : FromRedis TransactionStoreError := RedisError.

Record EoaHealth := mkHealth {
  eh_balance : N;
  eh_balance_threshold : N;
  eh_balance_fetched_at : N;
  eh_last_confirmation_at : N;
  eh_last_nonce_movement_at : N;
  eh_nonce_resets : list N;
  eh_last_finality_poll_at : N;
  eh_finality_scan_offset : N
}.

Record EoaExecutorCounts := mkExecutorCounts {
  ec_pending_transactions : N;
  ec_submitted_transactions : N;
  ec_borrowed_transactions : N;
  ec_recycled_nonces : N
}.

Record SubmittedTransactionDehydrated := mkSubmittedDehydrated {
  sd_nonce : N;
  sd_transaction_hash : string;
  sd_transaction_id : string;
  sd_submitted_at : N;
  sd_queued_at : N
}.

Record SubmittedNoopTransaction := mkNoop { sn_nonce : N; sn_transaction_hash : string }.

Section Records.
Context `{Carried}.

Record EoaTransactionRequest := mkRequest {
  rq_transaction_id : string;
  rq_chain_id : N;
  rq_from : string;
  rq_to : option string;
  rq_value : N;
  rq_data : string;
  rq_gas_limit : option N;
  rq_webhook_options : list WebhookOptions;
  rq_signing_credential : SigningCredential;
  rq_rpc_credentials : RpcCredentials;
  rq_transaction_type_data : option TransactionTypeData
}.

Record PendingTransaction := mkPending {
  pt_transaction_id : string;
  pt_queued_at : N;
  pt_user_request : EoaTransactionRequest
}.

Record TransactionAttempt := mkAttempt {
  ta_transaction_id : string;
  ta_details : SignedTx;
  ta_sent_at : N;
  ta_attempt_number : N
}.

Record BorrowedTransactionData := mkBorrowedData {
  bd_transaction_id : string;
  bd_signed_transaction : SignedTx;
  bd_queued_at : N;
  bd_hash : string;
  bd_borrowed_at : N
}.
Definition bd_nonce (b : BorrowedTransactionData) : N := tx_nonce (bd_signed_transaction b).

Record BorrowedTransaction := mkBorrowed {
  bt_data : BorrowedTransactionData;
  bt_user_request : EoaTransactionRequest
}.

Record SubmittedTransaction := mkSubmitted {
  st_data : SubmittedTransactionDehydrated;
  st_user_request : EoaTransactionRequest
}.

Inductive SubmittedTransactionHydrated :=
| HNoop (tx : SubmittedNoopTransaction)
| HReal (tx : SubmittedTransaction).

Record ConfirmedTransaction := mkConfirmed {
  ct_nonce : N;
  ct_transaction_hash : string;
  ct_transaction_id : string;
  ct_receipt : TransactionReceipt;
  ct_receipt_serialized : string;
  ct_finality : FinalityEvidence
}.

Record TransactionData := mkTransactionData {
  td_transaction_id : string;
  td_user_request : EoaTransactionRequest;
  td_receipt : option TransactionReceipt;
  td_attempts : list TransactionAttempt;
  td_created_at : N
}.

(** [From<BorrowedTransactionData> for SubmittedTransactionDehydrated]. *)
Definition submitted_of_borrowed (now : N) (data : BorrowedTransactionData)
    : SubmittedTransactionDehydrated :=
  mkSubmittedDehydrated (bd_nonce data) (tx_hash (bd_signed_transaction data))
    (bd_transaction_id data) now (bd_queued_at data).

Inductive SubmissionResultType := Success | Reconcile | Uncertain.

Record SubmissionResult := mkSubmissionResult {
  sr_transaction : SubmittedTransaction;
  sr_result : SubmissionResultType
}.
Definition sr_transaction_id (r : SubmissionResult) : string :=
  sd_transaction_id (st_data (sr_transaction r)).

(** [SubmissionResult::from_send_result] (worker/error.rs): a dispatch error never
    says that the transaction was not sent. *)
Definition from_send_result {R Er} (now : N) (borrowed : BorrowedTransaction)
    (send_result : result Er R) : SubmissionResult :=
  mkSubmissionResult
    (mkSubmitted (submitted_of_borrowed now (bt_data borrowed)) (bt_user_request borrowed))
    (match send_result with Ok _ => Success | Err _ => Uncertain end).
End Records.

(** ** Text form of submitted records *)

Definition to_redis_string_with_nonce (self : SubmittedTransactionDehydrated) : string * N :=
  (sd_transaction_hash self +:+ ":" +:+ sd_transaction_id self +:+ ":" +:+
   u64_to_string (sd_queued_at self) +:+ ":" +:+ u64_to_string (sd_submitted_at self),
   sd_nonce self).

Definition to_legacy_redis_string_with_nonce (self : SubmittedTransactionDehydrated) : string * N :=
  (sd_transaction_hash self +:+ ":" +:+ sd_transaction_id self +:+ ":" +:+
   u64_to_string (sd_queued_at self), sd_nonce self).

Definition noop_to_redis_string_with_nonce (self : SubmittedNoopTransaction) : string * N :=
  (sn_transaction_hash self +:+ ":" +:+ NO_OP_TRANSACTION_ID +:+ ":0:0", sn_nonce self).

Definition noop_to_legacy_redis_string_with_nonce (self : SubmittedNoopTransaction) : string * N :=
  (sn_transaction_hash self +:+ ":" +:+ NO_OP_TRANSACTION_ID +:+ ":0", sn_nonce self).

Definition from_redis_string (tx : string * N) : option SubmittedTransactionDehydrated :=
  match split_on ":" tx.1 with
  | [hash; id; queued] =>
      queued_at ← parse_u64 queued;
      Some (mkSubmittedDehydrated tx.2 hash id 0 queued_at)
  | [hash; id; queued; submitted] =>
      queued_at ← parse_u64 queued;
      submitted_at ← parse_u64 submitted;
      Some (mkSubmittedDehydrated tx.2 hash id submitted_at queued_at)
  | _ => None
  end.

(** [from_redis_strings]: entries that do not parse are logged and skipped. *)
Definition from_redis_strings (redis_strings : list (string * N))
    : list SubmittedTransactionDehydrated :=
  omap from_redis_string redis_strings.

Lemma to_redis_string_pieces tx :
  no_colon (sd_transaction_hash tx) -> no_colon (sd_transaction_id tx) ->
  split_on ":" (to_redis_string_with_nonce tx).1 =
    [sd_transaction_hash tx; sd_transaction_id tx;
     u64_to_string (sd_queued_at tx); u64_to_string (sd_submitted_at tx)].
Proof.
  intros Hh Hi. unfold to_redis_string_with_nonce. cbn [fst].
  rewrite !split_on_sep by (done || by apply u64_to_string_no_char).
  by rewrite split_on_no_char by (by apply u64_to_string_no_char).
Qed.

Definition submitted_wf (tx : SubmittedTransactionDehydrated) : Prop :=
  no_colon (sd_transaction_hash tx) /\ no_colon (sd_transaction_id tx) /\
  is_u64 (sd_queued_at tx) /\ is_u64 (sd_submitted_at tx).

Lemma submitted_string_parses tx :
  submitted_wf tx -> from_redis_string (to_redis_string_with_nonce tx) = Some tx.
Proof.
  intros (Hh & Hi & Hq & Hs). unfold from_redis_string.
  rewrite to_redis_string_pieces by done. rewrite !parse_u64_to_string by done. by destruct tx.
Qed.

Lemma from_redis_strings_app l1 l2 :
  from_redis_strings (l1 ++ l2) = from_redis_strings l1 ++ from_redis_strings l2.
Proof. apply omap_app. Qed.

(** A record parses only from three or four pieces. *)
Lemma from_redis_string_colons tx :
  4 <= count_char ":" tx.1 -> from_redis_string tx = None.
Proof.
  intros Hc. unfold from_redis_string. pose proof (split_on_length ":" tx.1) as Hl.
  destruct (split_on ":" tx.1) as [|a [|b [|c [|d [|e l]]]]]; simpl in Hl; done || lia.
Qed.

Lemma noop_string_parses tx :
  no_colon (sn_transaction_hash tx) ->
  from_redis_string (noop_to_redis_string_with_nonce tx) =
    Some (mkSubmittedDehydrated (sn_nonce tx) (sn_transaction_hash tx) NO_OP_TRANSACTION_ID 0 0).
Proof.
  intros Hh. unfold from_redis_string, noop_to_redis_string_with_nonce. cbn [fst snd].
  by rewrite split_on_sep by done.
Qed.

(** ** Hydrated records and events *)

Section Hydrated.
Context `{Carried}.

Definition h_hash (tx : SubmittedTransactionHydrated) : string :=
  match tx with
  | HNoop tx => sn_transaction_hash tx
  | HReal tx => sd_transaction_hash (st_data tx)
  end.
Definition h_nonce (tx : SubmittedTransactionHydrated) : N :=
  match tx with HNoop tx => sn_nonce tx | HReal tx => sd_nonce (st_data tx) end.
Definition h_transaction_id (tx : SubmittedTransactionHydrated) : string :=
  match tx with
  | HNoop _ => NO_OP_TRANSACTION_ID
  | HReal tx => sd_transaction_id (st_data tx)
  end.
Definition h_to_redis_string_with_nonce (tx : SubmittedTransactionHydrated) : string * N :=
  match tx with
  | HNoop tx => noop_to_redis_string_with_nonce tx
  | HReal tx => to_redis_string_with_nonce (st_data tx)
  end.
Definition h_to_legacy_redis_string_with_nonce (tx : SubmittedTransactionHydrated) : string * N :=
  match tx with
  | HNoop tx => noop_to_legacy_redis_string_with_nonce tx
  | HReal tx => to_legacy_redis_string_with_nonce (st_data tx)
  end.

Record EoaExecutorConfirmedTransaction := mkConfirmedEvent {
  ce_receipt : TransactionReceipt;
  ce_finality : option FinalityEvidence;
  ce_eoa_address : string;
  ce_transaction_id : string;
  ce_transaction_hash : string
}.

(** Payloads of the EOA events, one constructor per envelope builder. *)
Inductive EoaEventPayload :=
| SendSuccessData (submitted : SubmittedTransactionDehydrated) (eoa_address : string)
| ReplacedData (nonce : N) (hash : string) (attempt_number : N) (position : RequeuePosition)
| ConfirmedData (result : EoaExecutorConfirmedTransaction)
| RevertedData (transaction : EoaExecutorConfirmedTransaction)
| FailData (error : EoaExecutorWorkerError) (final_attempt_number : N).

Inductive EoaExecutorStage := StageSend | StageConfirmation.
Definition stage_to_string (s : EoaExecutorStage) : string :=
  match s with StageSend => "send" | StageConfirmation => "confirm" end.
Definition EXECUTOR_NAME : string := "eoa".

Record EoaExecutorEvent := mkEvent { ev_transaction_id : string; ev_address : string }.

Definition eoa_envelope (self : EoaExecutorEvent) (stage : EoaExecutorStage) (ev : StageEvent)
    (payload : EoaEventPayload) : BareWebhookNotificationEnvelope EoaEventPayload :=
  mkBareEnvelope (ev_transaction_id self) ev EXECUTOR_NAME (stage_to_string stage) payload.

Definition send_attempt_success_envelope self submitted :=
  eoa_envelope self StageSend EvSuccess (SendSuccessData submitted (ev_address self)).
Definition transaction_replaced_envelope self (replaced : SubmittedTransactionDehydrated) :=
  eoa_envelope self StageConfirmation EvNack
    (ReplacedData (sd_nonce replaced) (sd_transaction_hash replaced) 0 Last).
Definition confirmed_event (self : EoaExecutorEvent) (c : ConfirmedTransaction) :=
  mkConfirmedEvent (ct_receipt c) (Some (ct_finality c)) (ev_address self)
    (ev_transaction_id self) (ct_transaction_hash c).
Definition transaction_confirmed_envelope self c :=
  eoa_envelope self StageConfirmation EvSuccess (ConfirmedData (confirmed_event self c)).
Definition transaction_reverted_envelope self c :=
  eoa_envelope self StageConfirmation EvFailure (RevertedData (confirmed_event self c)).
Definition transaction_failed_envelope self error final_attempt_number :=
  eoa_envelope self StageSend EvFailure (FailData error final_attempt_number).
End Hydrated.
