(* ===== verification/EoaErrors.v ===== *)
(** Errors of the EOA worker and what the queue does with them
    (executors/src/eoa/worker/error.rs, worker/mod.rs, executors/src/recovery.rs): which
    errors give a job up, which are retried and when, and how long a worker with work
    left waits. *)

From Stdlib Require Import String Ascii NArith ZArith Lia.
From stdpp Require Import base strings list option.
From S2P Require Import Prelude Redis RedisProg Json Errors FinalityTypes QueueTypes Webhook EoaTypes.

(** ** Text *)

(** [str::to_lowercase] as far as a search for ASCII text can tell: ASCII capitals, and
    the two other letters whose lower case holds an ASCII letter (the Kelvin sign and
    the dotted capital I), in UTF-8. *)
Fixpoint to_lowercase (s : string) : string :=
  match s with
  | EmptyString => EmptyString
  | String "226"%char (String "132"%char (String "170"%char s')) => String "k"%char (to_lowercase s')
  | String "196"%char (String "176"%char s') =>
      String "i"%char (String "204"%char (String "135"%char (to_lowercase s')))
  | String c s' =>
      let n := N_of_ascii c in
      String (if (65 <=? n)%N && (n <=? 90)%N then ascii_of_N (n + 32) else c) (to_lowercase s')
  end.
(** [str::contains] *)
Fixpoint contains (needle s : string) : bool :=
  String.prefix needle s || match s with EmptyString => false | String _ s' => contains needle s' end.

(** ** Worker errors *)

(** [EoaExecutorWorkerResult]: counts kept at u32. *)
Record WorkerResult := mkWorkerResult {
  wr_recovered_transactions : N;
  wr_confirmed_transactions : N;
  wr_failed_transactions : N;
  wr_sent_transactions : N;
  wr_replaced_transactions : N;
  wr_submitted_transactions : N;
  wr_pending_transactions : N;
  wr_borrowed_transactions : N;
  wr_recycled_nonces : N
}.
Definition is_work_remaining (r : WorkerResult) : bool :=
  (0 <? wr_pending_transactions r)%N || (0 <? wr_borrowed_transactions r)%N
  || (0 <? wr_recycled_nonces r)%N || (0 <? wr_submitted_transactions r)%N.

Inductive WorkerError :=
| WeChainServiceError (chain_id : N) (message : string)
| WeStoreError (message : string) (inner_error : TransactionStoreError)
| WeTransactionNotFound (transaction_id : string)
| WeTransactionSimulationFailed (message : string) (inner_error : EngineError)
| WeTransactionBuildFailed (message : string)
| WeRpcError (message : string) (inner_error : EngineError)
| WeTransactionSendError (message : string) (inner_error : EngineError)
| WeSignatureParsingFailed (message : string)
| WeSigningError (message : string) (inner_error : EngineError)
| WeWorkRemaining (r : WorkerResult)
| WeEoaOutOfFunds (balance balance_threshold : N)
| WeInternalError (message : string)
| WeRecoveryPending (message : string)
| WeRecoveryRequired (message : string)
| WeUserCancelled.

Definition seconds (n : N) : Duration := mkDuration n 0.
Definition millis (n : N) : Duration := mkDuration (n / 1000) (n mod 1000 * 1000000).

(** ** Classification *)

Definition should_update_balance_threshold (error : EngineError) : bool :=
  match error with
  | EngRpcError _ _ _ kind | EngPaymasterError _ _ _ kind | EngBundlerError _ _ _ kind =>
      match kind with
      | RkErrorResp resp =>
          let message := to_lowercase (rer_message resp) in
          contains "insufficient funds" message || contains "insufficient balance" message
          || contains "out of gas" message || contains "insufficient eth" message
          || contains "balance too low" message || contains "not enough funds" message
          || contains "insufficient native token" message
          || contains "transaction execution error: user cant pay the bills" message
      | _ => false
      end
  | _ => false
  end.

Definition is_retryable_rpc_error (kind : RpcErrorKind) : bool :=
  match kind with
  | RkTransportHttpError status _ => negb ((400 <=? status)%N && (status <? 500)%N)
  | RkUnsupportedFeature _ => false
  | RkErrorResp resp =>
      let message := to_lowercase (rer_message resp) in
      negb (contains "invalid chain" message || contains "invalid opcode" message)
  | _ => true
  end.

Definition is_retryable_preparation_error (error : WorkerError) : bool :=
  match error with
  | WeRpcError _ inner =>
      match inner with EngRpcError _ _ _ kind => is_retryable_rpc_error kind | _ => false end
  | WeChainServiceError _ _ => true
  | WeStoreError _ inner => match inner with RedisError _ => true | _ => false end
  | WeTransactionSimulationFailed _ _ | WeTransactionBuildFailed _ => false
  | WeSigningError _ inner =>
      match inner with EngIawError (IawNetworkError _) => true | _ => false end
  | WeTransactionNotFound _ | WeInternalError _ => false
  | WeRecoveryPending _ | WeRecoveryRequired _ => true
  | WeUserCancelled | WeTransactionSendError _ _ | WeSignatureParsingFailed _
  | WeWorkRemaining _ | WeEoaOutOfFunds _ _ => false
  end.

Definition is_unsupported_eip1559_error (error : AlloyRpcError) : bool :=
  match error with
  | AlloyUnsupportedFeature _ => true
  | AlloyErrorResp _ message _ => contains "method not found" (to_lowercase message)
  | _ => false
  end.

(** ** What the queue is told *)

Definition handle (self : WorkerError) : JobError WorkerError :=
  match self with
  | WeRecoveryPending _ => Nack self (Some (seconds 2)) Last
  | WeEoaOutOfFunds _ _ => Nack self (Some (seconds 60)) Last
  | WeStoreError _ (LockLost _ _ _) => Fail self
  | WeRpcError _ _ =>
      if is_retryable_preparation_error self then Nack self (Some (seconds 10)) Last else Fail self
  | _ => Nack self (Some (seconds 10)) Last
  end.

Definition into_job_result (self : WorkerResult) (delegation : option bool)
    : result (JobError WorkerError) WorkerResult :=
  if negb (is_work_remaining self) then Ok self
  else
    let delay :=
      match delegation with
      | Some true => Some (seconds 2)
      | Some false =>
          if (0 <? wr_pending_transactions self)%N
             && ((0 <? wr_sent_transactions self)%N || (0 <? wr_recovered_transactions self)%N)
          then None else Some (millis 200)
      | None => Some (millis 200)
      end in
    Err (Nack (WeWorkRemaining self) delay Last).

(** ** Journal errors on their way to the queue (executors/src/recovery.rs) *)

Definition recovery_nack {T} (error : EngineError) (fallback_delay : Duration) (wrap : EngineError -> T)
    : JobError T :=
  let delay := match error with EngRecoveryPending _ => seconds 2 | _ => fallback_delay end in
  Nack (wrap error) (Some delay) Last.

Section EoaErrorConversion.
(** [Display] of the engine's errors. *)
Context (engine_error_to_string : EngineError -> string).

Definition eoa_required (message : string) : WorkerError := WeRecoveryRequired message.
Definition eoa_error (error : EngineError) : WorkerError :=
  match error with
  | EngRecoveryPending message => WeRecoveryPending message
  | _ => eoa_required (engine_error_to_string error)
  end.
End EoaErrorConversion.

(** ** Properties *)

(** A job is given up in exactly two cases: its worker lost the wallet's lock, or an
    RPC call failed in a way that is not retryable.  Everything else, uncertainty about
    the journal or a broadcast included, is retried, after two seconds while a
    publication is pending, a minute without funds, and ten seconds otherwise. *)
Theorem handle_gives_up_iff e :
  (handle e = Fail e <->
   (∃ message eoa chain worker, e = WeStoreError message (LockLost eoa chain worker)) \/
   (∃ message inner, e = WeRpcError message inner /\
      ∀ chain url text kind, inner = EngRpcError chain url text kind -> is_retryable_rpc_error kind = false)) /\
  (handle e = Fail e \/ ∃ delay, handle e = Nack e (Some delay) Last /\
     (delay = seconds 2 <-> ∃ message, e = WeRecoveryPending message) /\
     (delay = seconds 60 <-> ∃ balance threshold, e = WeEoaOutOfFunds balance threshold) /\
     delay ∈ [seconds 2; seconds 10; seconds 60]).
Proof.
  split; [split|].
  - destruct e as [|message []| | | |message inner| | | | | | | | |]; cbn; try done; intros Hh; [left; eauto 6|right].
    exists message, inner. split; [done|]. intros chain url text kind ->. cbn in Hh. by destruct (is_retryable_rpc_error kind).
  - intros [(message & eoa & chain & worker & ->)|(message & inner & -> & Hinner)]; [done|]. cbn.
    destruct inner; try done. by rewrite (Hinner _ _ _ _ eq_refl).
  - destruct e as [|message []| | | |message inner| | | | | | | | |]; cbn -[seconds]; repeat case_match; auto; right;
      eexists; (split_and!; [reflexivity|..]); rewrite ?elem_of_cons; naive_solver.
Qed.

(** A worker that leaves work behind is always run again, and one that leaves none
    is done; it skips its delay only where it made progress and still has unsigned
    transactions, for a wallet known not to be delegated. *)
Theorem work_remaining_requeues r d :
  (into_job_result r d = Ok r <-> is_work_remaining r = false) /\
  (is_work_remaining r = true -> ∃ delay, into_job_result r d = Err (Nack (WeWorkRemaining r) delay Last) /\
     (delay = None <-> d = Some false /\ (0 < wr_pending_transactions r)%N /\
        (0 < wr_sent_transactions r + wr_recovered_transactions r)%N)).
Proof.
  unfold into_job_result. destruct (is_work_remaining r); cbn; [|done]. split; [done|]. intros _.
  eexists. split; [done|]. destruct d as [[]|]; [naive_solver| |naive_solver].
  destruct (N.ltb_spec 0 (wr_pending_transactions r)), (N.ltb_spec 0 (wr_sent_transactions r)),
    (N.ltb_spec 0 (wr_recovered_transactions r)); cbn; split; try done; try (intros; exfalso; naive_solver lia); intros _;
    (split; [done|lia]).
Qed.
