(* ===== verification/ExecRecovery.v ===== *)
(** Durable authorization at the last boundary before an EOA broadcast
    (executors/src/recovery.rs): the signed wire is checked against the admitted request
    or the NOOP reservation and goes through the recovery journal. *)

From Stdlib Require Import String Ascii NArith Lia.
From stdpp Require Import base gmap strings option list fin_maps relations.
From S2P Require Import Prelude Json JsonValue Redis RedisProg Errors FinalityTypes.
From S2P Require Import RecoveryLedger RecoveryChecks EngineProg RecoveryJournal RecoveryOps.
From S2P Require Import RecoveryOffline RecoverySpec RecoveryKeeps RecoveryTxns RecoveryGate.
From S2P Require Import RecoveryOpSpecs RecoveryOfflineSpecs RecoveryLife RecoveryClaims.
From S2P Require Import Finality FinalityClaims QueueTypes Webhook EoaTypes EoaErrors.

(** What the transaction library gives of a signed transaction: its fields, the signer
    recovered from its signature, its encoded bytes; the hash function as text; and the
    request's encodings. *)
Class SignedWire `{Carried} := {
  stx_chain_id : SignedTx -> option N;
  stx_to : SignedTx -> option string;
  stx_value : SignedTx -> N;
  stx_input : SignedTx -> string;
  Authorization : Type;
  authorization_eq_dec :: EqDecision Authorization;
  stx_authorization_list : SignedTx -> option (list Authorization);
  eip7702_authorization_list : TransactionTypeData -> option (list Authorization);
  stx_recover_signer : SignedTx -> option string;
  encoded_2718 : SignedTx -> string;
  keccak256 : string -> string;
  hex_encode : string -> string;
  request_to_value : EoaTransactionRequest -> option Value
}.

Section ExecRecovery.
Context `{SignedWire} `{Primitives} `{!Json Value, !Json FinalityEvidence}.
Context (engine_error_to_string : EngineError -> string) (journal : bool).

(** [.map_err(eoa_error)], [.map_err(eoa_journal_error)] *)
Definition as_eoa {A} (p : eprog (result EngineError A)) : eprog (result WorkerError A) :=
  do* r := p in ERet (match r with Ok a => Ok a | Err e => Err (eoa_error engine_error_to_string e) end).
Definition eoa_journal {A} (p : eprog (recovery_result A)) : eprog (result WorkerError A) :=
  as_eoa (journal_call p).

(** [validate], for an EOA request. *)
Definition validate (kind id : string) (payload : option Value) : eprog (result EngineError unit) :=
  if negb journal then ERet (Ok tt)
  else
    do! value := ERet (ok_or (EngInternalError "Cannot encode recovery payload") payload) in
    journal_call (validate_payload kind id value).

Definition validate_signed_hash (tx : SignedTx) : result WorkerError unit :=
  if bool_decide (keccak256 (encoded_2718 tx) <> tx_hash tx)
  then Err (eoa_required "Cached transaction hash does not match signed wire bytes") else Ok tt.

Definition expected_authorizations (request : EoaTransactionRequest) : list Authorization :=
  match rq_transaction_type_data request with
  | Some data => default [] (eip7702_authorization_list data)
  | None => []
  end.

Definition validate_eoa_wire (request : EoaTransactionRequest) (tx : SignedTx) : result WorkerError unit :=
  let? _ := validate_signed_hash tx in
  if bool_decide (stx_chain_id tx <> Some (rq_chain_id request))
     || bool_decide (stx_to tx <> rq_to request)
     || bool_decide (stx_value tx <> rq_value request)
     || bool_decide (stx_input tx <> rq_data request)
     || bool_decide (default [] (stx_authorization_list tx) <> expected_authorizations request)
     || bool_decide (stx_recover_signer tx <> Some (rq_from request))
  then Err (eoa_required "Signed transaction does not match its durable admission")
  else Ok tt.

Definition attempt_value (chain_id : N) (sender : string) (tx : SignedTx) : Value :=
  VObject [("transactionHash", VString (tx_hash tx)); ("chainId", VNumber (PosInt chain_id));
           ("sender", VString sender); ("nonce", VNumber (PosInt (tx_nonce tx)));
           ("signedTransaction", VString ("0x" +:+ hex_encode (encoded_2718 tx)))].

Definition validate_eoa_nonce (request : EoaTransactionRequest) (nonce : N) : eprog (result WorkerError unit) :=
  if negb journal then ERet (Ok tt)
  else
    do! _ := as_eoa (validate "eoa" (rq_transaction_id request) (request_to_value request)) in
    eoa_journal (validate_replay_binding "eoa" (rq_transaction_id request)
      (eoa_replay_key (rq_chain_id request) nonce (rq_from request))).

Definition before_eoa (request : EoaTransactionRequest) (tx : SignedTx) : eprog (result WorkerError unit) :=
  if negb journal then ERet (Ok tt)
  else
    do! _ := as_eoa (validate "eoa" (rq_transaction_id request) (request_to_value request)) in
    do! _ := ERet (validate_eoa_wire request tx) in
    eoa_journal (before_broadcast "eoa" (rq_transaction_id request)
      (eoa_replay_key (rq_chain_id request) (tx_nonce tx) (rq_from request))
      (attempt_value (rq_chain_id request) (rq_from request) tx)).

(** ** NOOPs *)

Definition noop_id (chain_id : N) (sender : string) (nonce : N) : string :=
  "__engine_noop:" +:+ u64_to_string chain_id +:+ ":" +:+ sender +:+ ":" +:+ u64_to_string nonce.
Definition noop_payload (chain_id : N) (sender : string) (nonce : N) : Value :=
  VObject [("chainId", VNumber (PosInt chain_id)); ("sender", VString sender); ("nonce", VNumber (PosInt nonce))].

Definition reserve_noop (chain_id : N) (sender : string) (nonce : N) : eprog (result WorkerError string) :=
  let id := noop_id chain_id sender nonce in
  if negb journal then ERet (Ok id)
  else
    let payload := noop_payload chain_id sender nonce in
    do! fingerprint := eoa_journal (ERet (admission_fingerprint "eoa_noop" payload)) in
    do! (_, terminal) := eoa_journal (reserve_admission "eoa_noop" id fingerprint payload) in
    if (terminal : bool) then ERet (Err (eoa_required "Finalized NOOP cannot be broadcast again"))
    else
      do! _ := eoa_journal (validate_replay_binding "eoa_noop" id (eoa_replay_key chain_id nonce sender)) in
      ERet (Ok id).

Definition validate_noop_wire (chain_id : N) (sender : string) (tx : SignedTx) : result WorkerError unit :=
  let? _ := validate_signed_hash tx in
  if bool_decide (stx_chain_id tx <> Some chain_id)
     || bool_decide (stx_to tx <> Some sender)
     || negb (stx_value tx =? 0)%N
     || bool_decide (stx_input tx <> "")
     || bool_decide (default [] (stx_authorization_list tx) <> [])
     || bool_decide (stx_recover_signer tx <> Some sender)
  then Err (eoa_required "Signed NOOP does not match its durable reservation")
  else Ok tt.

Definition before_noop (id : string) (chain_id : N) (sender : string) (tx : SignedTx)
    : eprog (result WorkerError unit) :=
  if negb journal then ERet (Ok tt)
  else
    do! _ := ERet (validate_noop_wire chain_id sender tx) in
    if bool_decide (id <> noop_id chain_id sender (tx_nonce tx))
    then ERet (Err (eoa_required "NOOP ID does not match its nonce reservation"))
    else
      do! _ := eoa_journal (validate_payload "eoa_noop" id (noop_payload chain_id sender (tx_nonce tx))) in
      eoa_journal (before_broadcast "eoa_noop" id (eoa_replay_key chain_id (tx_nonce tx) sender)
        (attempt_value chain_id sender tx)).
End ExecRecovery.

(** ** What an authorised broadcast guarantees *)

Section Specs.
Context `{SignedWire} `{Primitives} `{!Json Value, !Json FinalityEvidence}.
Context (engine_error_to_string : EngineError -> string) `{!FairTurns}.
#[local] Notation spec P p Q := (triple ok_turn later P p Q).

Lemma as_eoa_spec {A} P (p : eprog (result EngineError A)) Q :
  spec P p (on_ok Q) -> spec P (as_eoa engine_error_to_string p) (on_ok Q).
Proof. intros Hp. eapply triple_bind; [exact Hp|]. intros [a|e]; by apply triple_ret. Qed.

(** What the wire checks establish of the bytes that will be sent. *)
Definition wire_exact (tx : SignedTx) (chain : N) (to : option string) (value : N) (data : string)
    (auths : list Authorization) (signer : string) : Prop :=
  keccak256 (encoded_2718 tx) = tx_hash tx /\ stx_chain_id tx = Some chain /\ stx_to tx = to /\
  stx_value tx = value /\ stx_input tx = data /\ default [] (stx_authorization_list tx) = auths /\
  stx_recover_signer tx = Some signer.

Lemma validate_eoa_wire_Ok request tx :
  validate_eoa_wire request tx = Ok tt ->
  wire_exact tx (rq_chain_id request) (rq_to request) (rq_value request) (rq_data request)
    (expected_authorizations request) (rq_from request).
Proof.
  unfold validate_eoa_wire, validate_signed_hash. intros Hv.
  destruct (bool_decide _) eqn:H0' in Hv; [done|]. destruct (_ || _) eqn:Hc in Hv; [done|].
  repeat (apply orb_false_iff in Hc as [Hc ?]). unfold wire_exact.
  repeat match goal with Hx : bool_decide _ = false |- _ => apply bool_decide_eq_false, dec_stable in Hx end. done.
Qed.

Lemma validate_noop_wire_Ok chain sender tx :
  validate_noop_wire chain sender tx = Ok tt -> wire_exact tx chain (Some sender) 0 "" [] sender.
Proof.
  unfold validate_noop_wire, validate_signed_hash. intros Hv.
  destruct (bool_decide _) eqn:H0' in Hv; [done|]. destruct (_ || _) eqn:Hc in Hv; [done|].
  repeat (apply orb_false_iff in Hc as [Hc ?]). unfold wire_exact.
  repeat match goal with
    | Hx : bool_decide _ = false |- _ => apply bool_decide_eq_false, dec_stable in Hx
    | Hx : negb _ = false |- _ => apply negb_false_iff, N.eqb_eq in Hx
  end. done.
Qed.

(** The ledger holds [payload], up to its canonical form, as the intent of [i]. *)
Definition admitted_payload (i : string) (payload : Value) (l : Ledger) : Prop :=
  ∃ a v text, l_admissions l !! i = Some a /\ from_json (ad_payload a) = Some v /\
    canonical v = Ok text /\ canonical payload = Ok text.

Lemma admitted_payload_evolves i payload l l' :
  evolves l l' -> admitted_payload i payload l -> admitted_payload i payload l'.
Proof.
  intros He (a & v & text & Ha & Hv & Hc). destruct (ev_admissions _ _ He i a Ha) as (a' & Ha' & _ & _ & Hp & _).
  exists a', v, text. by rewrite Hp.
Qed.
Lemma admitted_payload_settled i payload l : admitted_payload i payload l <-> admitted_payload i payload (settled l).
Proof. unfold admitted_payload. by destruct (settled_tables l) as (-> & _). Qed.

(** The payload check, and a broadcast of a ledger that grew out of a checked one. *)
Lemma checked_payload_spec l0 kind i payload :
  spec (grown l0) (journal_call (validate_payload kind i payload))
    (on_ok (fun _ w => ∃ l, admitted_payload i payload l /\ grown l w)).
Proof.
  apply journal_call_spec. intros w (l & Hd & Hok & He).
  eapply wp_mono; [done| |apply (wp_ledger _ _ _ _ l Hd Hok (triple_flow _ _ _ (validate_payload_spec _ (LedgerFile l) kind i payload Hok) w Hd))].
  intros [[]|] w'; [|done].
  intros [(r & text & (l1 & [= <-] & Hr & Hs) & _ & _ & Hc1 & Hc2) (l' & Hd' & Hok' & _)]. cbn.
  pose proof Hs as (Hds & _). rewrite Hd' in Hds. injection Hds as ->.
  exists (settled l). split; [|by exists (settled l)]. unfold admission_of in Hr. txn_step Hr. txn_step Hr.
  injection Hr as ->. apply lookup_admission_Some in E as (a & Ha & _ & _ & _ & Hp & _). by exists a, (rec_payload r), text.
Qed.

Lemma granted_broadcast_spec l kind i key payload attempt :
  admitted_payload i payload l ->
  spec (grown l) (eoa_journal engine_error_to_string (before_broadcast kind i key attempt))
    (on_ok (fun _ w => ∃ encoded l', canonical attempt = Ok encoded /\ synced l' w /\
       authorized kind i key encoded l' /\ admitted_payload i payload l')).
Proof.
  intros Hpay. eapply triple_post; [apply as_eoa_spec, (journal_spec l _ (fun l _ w => ledger_ok l /\ ∃ encoded old,
    canonical attempt = Ok encoded /\
    effect (LedgerFile l) (broadcast_txn kind i key encoded (sha256_hex encoded)) old w))|].
  - intros l1 Hok. eapply triple_post; [by apply before_broadcast_spec|]. intros [[]|] w; [|done].
    intros (_ & _ & encoded & old & Hc & He). split; [done|]. by exists encoded, old.
  - intros [[]|] w; [|done]. intros (l1 & He & _ & Hok & encoded & old & Hc & l2 & l' & [= <-] & Ht & Hs).
    destruct (keeps_broadcast _ _ _ _ _ _ _ _ (settled_ok _ Hok) Ht) as [_ He'].
    exists encoded, (settled l'). split_and!; [done|done| |].
    + eapply broadcast_txn_authorized; [by apply settled_ok|done].
    + apply (proj1 (admitted_payload_settled _ _ _)). eapply admitted_payload_evolves; [exact He'|].
      apply (proj1 (admitted_payload_settled _ _ _)). by eapply admitted_payload_evolves.
Qed.

(** The gate before a client's broadcast, and before a NOOP's. *)
Definition eoa_granted (request : EoaTransactionRequest) (tx : SignedTx) (payload : Value) (l : Ledger) : Prop :=
  wire_exact tx (rq_chain_id request) (rq_to request) (rq_value request) (rq_data request)
    (expected_authorizations request) (rq_from request) /\
  ∃ encoded, canonical (attempt_value (rq_chain_id request) (rq_from request) tx) = Ok encoded /\
    authorized "eoa" (rq_transaction_id request)
      (eoa_replay_key (rq_chain_id request) (tx_nonce tx) (rq_from request)) encoded l /\
    admitted_payload (rq_transaction_id request) payload l.
Definition noop_granted (i : string) (chain : N) (sender : string) (tx : SignedTx) (l : Ledger) : Prop :=
  wire_exact tx chain (Some sender) 0 "" [] sender /\ i = noop_id chain sender (tx_nonce tx) /\
  ∃ encoded, canonical (attempt_value chain sender tx) = Ok encoded /\
    authorized "eoa_noop" i (eoa_replay_key chain (tx_nonce tx) sender) encoded l /\
    admitted_payload i (noop_payload chain sender (tx_nonce tx)) l.

Lemma before_eoa_spec l request tx :
  spec (grown l) (before_eoa engine_error_to_string true request tx) (on_ok (fun _ w =>
    ∃ payload l', request_to_value request = Some payload /\ synced l' w /\ eoa_granted request tx payload l')).
Proof.
  unfold before_eoa, validate. cbn [negb]. destruct (request_to_value request) as [payload|]; cbn [ok_or];
    [|by intros w Hw].
  eapply triple_try.
  - apply as_eoa_spec, triple_pure. intros v [= <-]. apply checked_payload_spec.
  - intros []. apply triple_ex. intros l1 Hpay. apply triple_pure. intros [] Hw%validate_eoa_wire_Ok.
    eapply triple_post; [by apply granted_broadcast_spec|]. intros [[]|] w1 He; [|done].
    destruct He as (encoded & l' & Hc & Hs & Ha & Hp). exists payload, l'. split_and!; [done|done|]. split; [done|]. by exists encoded.
Qed.

Lemma before_noop_spec l i chain sender tx :
  spec (grown l) (before_noop engine_error_to_string true i chain sender tx) (on_ok (fun _ w =>
    ∃ l', synced l' w /\ noop_granted i chain sender tx l')).
Proof.
  unfold before_noop. cbn [negb]. apply triple_pure. intros [] Hw%validate_noop_wire_Ok.
  branch Hid; [by apply triple_ret|]. apply bool_decide_eq_false, dec_stable in Hid. eapply triple_try.
  - apply as_eoa_spec, checked_payload_spec.
  - intros []. apply triple_ex. intros l1 Hpay.
    eapply triple_post; [by apply granted_broadcast_spec|]. intros [[]|] w1 He; [|done].
    destruct He as (encoded & l' & Hc & Hs & Ha & Hp). exists l'. split; [done|]. split_and!; [done|done|]. by exists encoded.
Qed.

End Specs.

Section Claims.
Context `{SignedWire} `{Primitives} `{!Json Value, !Json FinalityEvidence}.
Context (engine_error_to_string : EngineError -> string).

(** C11: What is broadcast for a client is what the client asked for.  When the last
    gate before an EOA broadcast succeeds, the cached hash is the hash of the very bytes,
    their chain, recipient, value, data, authorizations and recovered signer are those of
    the request, the request is the one admitted in the ledger under its id, and the
    ledger, in agreement with Redis, authorises exactly this attempt for the nonce. *)
Theorem eoa_broadcast_exact request tx payload ts w w' tr l :
  w_disk w = LedgerFile l -> ledger_ok l -> Forall fair_turn ts -> request_to_value request = Some payload ->
  erun (before_eoa engine_error_to_string true request tx) ts w = (Ok tt, w', tr) ->
  wire_exact tx (rq_chain_id request) (rq_to request) (rq_value request) (rq_data request)
    (expected_authorizations request) (rq_from request) /\
  ∃ encoded l', canonical (attempt_value (rq_chain_id request) (rq_from request) tx) = Ok encoded /\ synced l' w' /\
    authorized "eoa" (rq_transaction_id request)
      (eoa_replay_key (rq_chain_id request) (tx_nonce tx) (rq_from request)) encoded l' /\
    admitted_payload (rq_transaction_id request) payload l'.
Proof.
  intros Hd Hok Hts Hreq Hrun. assert (grown l w) as Hg by by exists l.
  destruct (wp_run fair_turn _ _ _ _ _ _ _ _ fair_quiet Hts (before_eoa_spec _ (H2 := fair_turns) l request tx w Hg) Hrun)
    as [(payload' & l' & Hp & Hs & Hw & encoded & Hc & Ha & Hpay) _].
  rewrite Hreq in Hp. injection Hp as <-. split; [done|]. by exists encoded, l'.
Qed.

(** The same for NOOPs: the bytes are a transfer of nothing from the wallet to
    itself with no data and no authorizations, the id is the one of this wallet and
    nonce, and the ledger authorises exactly this attempt. *)
Theorem noop_broadcast_exact i chain sender tx ts w w' tr l :
  w_disk w = LedgerFile l -> ledger_ok l -> Forall fair_turn ts ->
  erun (before_noop engine_error_to_string true i chain sender tx) ts w = (Ok tt, w', tr) ->
  wire_exact tx chain (Some sender) 0 "" [] sender /\ i = noop_id chain sender (tx_nonce tx) /\
  ∃ encoded l', canonical (attempt_value chain sender tx) = Ok encoded /\ synced l' w' /\
    authorized "eoa_noop" i (eoa_replay_key chain (tx_nonce tx) sender) encoded l' /\
    admitted_payload i (noop_payload chain sender (tx_nonce tx)) l'.
Proof.
  intros Hd Hok Hts Hrun. assert (grown l w) as Hg by by exists l.
  destruct (wp_run fair_turn _ _ _ _ _ _ _ _ fair_quiet Hts (before_noop_spec _ (H2 := fair_turns) l i chain sender tx w Hg) Hrun)
    as [(l' & Hs & Hw & Hi & encoded & Hc & Ha & Hpay) _].
  split_and!; [done|done|]. by exists encoded, l'.
Qed.
End Claims.
