(* ===== verification/EoaKeys.v ===== *)
(** Redis key names of the EOA store (EoaExecutorStoreKeys in
    executors/src/eoa/store/mod.rs) and the facts that keep the keys apart. *)

From Stdlib Require Import String Ascii NArith Lia.
From stdpp Require Import base gmap strings list fin_maps.
From S2P Require Import Prelude Redis RedisProg Json QueueTypes Webhook.

(** [keys_eoa] is the address as its [Display] renders it. *)
Record EoaExecutorStoreKeys := mkKeys {
  keys_eoa : string;
  keys_chain_id : N;
  keys_namespace : option string
}.

Section Names.
Context (self : EoaExecutorStoreKeys).

Definition scoped (body : string) : string :=
  match keys_namespace self with
  | Some ns => ns +:+ ":" +:+ body
  | None => body
  end.
Definition chain_and_eoa : string :=
  u64_to_string (keys_chain_id self) +:+ ":" +:+ keys_eoa self.

Definition eoa_lock_key_name : string := scoped ("eoa_executor:lock:" +:+ chain_and_eoa).
Definition transaction_data_key_name (transaction_id : string) : string :=
  scoped ("eoa_executor:tx_data:" +:+ transaction_id).
Definition transaction_attempts_list_name (transaction_id : string) : string :=
  scoped ("eoa_executor:tx_attempts:" +:+ transaction_id).
Definition pending_transactions_zset_name : string :=
  scoped ("eoa_executor:pending_txs:" +:+ chain_and_eoa).
Definition submitted_transactions_zset_name : string :=
  scoped ("eoa_executor:submitted_txs:" +:+ chain_and_eoa).
Definition transaction_hash_to_id_key_name (hash : string) : string :=
  scoped ("eoa_executor:tx_hash_to_id:" +:+ hash).
Definition borrowed_transactions_hashmap_name : string :=
  scoped ("eoa_executor:borrowed_txs:" +:+ chain_and_eoa).
Definition recycled_nonces_zset_name : string :=
  scoped ("eoa_executor:recycled_nonces:" +:+ chain_and_eoa).
Definition optimistic_transaction_count_key_name : string :=
  scoped ("eoa_executor:optimistic_nonce:" +:+ chain_and_eoa).
Definition last_transaction_count_key_name : string :=
  scoped ("eoa_executor:last_tx_nonce:" +:+ chain_and_eoa).
Definition eoa_health_key_name : string :=
  scoped ("eoa_executor:health:" +:+ chain_and_eoa).
Definition manual_reset_key_name : string :=
  scoped ("eoa_executor:pending_manual_reset:" +:+ chain_and_eoa).
End Names.

(** ** The logical keys and their names *)

Inductive eoa_key :=
| KLock | KData (id : string) | KAttempts (id : string) | KPending | KSubmitted
| KHashToId (h : string) | KBorrowed | KRecycled | KOptimistic | KLast | KHealth | KReset.

Definition key_name (ks : EoaExecutorStoreKeys) (k : eoa_key) : string :=
  match k with
  | KLock => eoa_lock_key_name ks
  | KData id => transaction_data_key_name ks id
  | KAttempts id => transaction_attempts_list_name ks id
  | KPending => pending_transactions_zset_name ks
  | KSubmitted => submitted_transactions_zset_name ks
  | KHashToId h => transaction_hash_to_id_key_name ks h
  | KBorrowed => borrowed_transactions_hashmap_name ks
  | KRecycled => recycled_nonces_zset_name ks
  | KOptimistic => optimistic_transaction_count_key_name ks
  | KLast => last_transaction_count_key_name ks
  | KHealth => eoa_health_key_name ks
  | KReset => manual_reset_key_name ks
  end.

Lemma scoped_inj ks a b : scoped ks a = scoped ks b -> a = b.
Proof.
  unfold scoped. destruct (keys_namespace ks); [|done].
  intros H%string_app_inj_l. by apply string_app_inj_l in H.
Qed.

(** Logical key of an EOA store as a body under the store's scope. *)
Definition key_body (ks : EoaExecutorStoreKeys) (k : eoa_key) : string :=
  match k with
  | KLock => "eoa_executor:lock:" +:+ chain_and_eoa ks
  | KData id => "eoa_executor:tx_data:" +:+ id
  | KAttempts id => "eoa_executor:tx_attempts:" +:+ id
  | KPending => "eoa_executor:pending_txs:" +:+ chain_and_eoa ks
  | KSubmitted => "eoa_executor:submitted_txs:" +:+ chain_and_eoa ks
  | KHashToId h => "eoa_executor:tx_hash_to_id:" +:+ h
  | KBorrowed => "eoa_executor:borrowed_txs:" +:+ chain_and_eoa ks
  | KRecycled => "eoa_executor:recycled_nonces:" +:+ chain_and_eoa ks
  | KOptimistic => "eoa_executor:optimistic_nonce:" +:+ chain_and_eoa ks
  | KLast => "eoa_executor:last_tx_nonce:" +:+ chain_and_eoa ks
  | KHealth => "eoa_executor:health:" +:+ chain_and_eoa ks
  | KReset => "eoa_executor:pending_manual_reset:" +:+ chain_and_eoa ks
  end.

Lemma key_name_body ks k : key_name ks k = scoped ks (key_body ks k).
Proof. by destruct k. Qed.

(** Distinct logical keys of one store never share a Redis key. *)
Lemma key_name_inj ks k1 k2 : key_name ks k1 = key_name ks k2 -> k1 = k2.
Proof.
  rewrite !key_name_body. intros H%scoped_inj.
  destruct k1, k2; cbn in H; simplify_eq; done.
Qed.

Lemma key_name_ne ks k1 k2 : k1 <> k2 -> key_name ks k1 <> key_name ks k2.
Proof. intros Hne H. by apply key_name_inj in H. Qed.

(** ** Distance from the webhook queue *)

(** A colon-free namespace and a webhook queue that is not called "eoa_executor". *)
Definition webhook_apart (ks : EoaExecutorStoreKeys) (wq : string) : Prop :=
  (∀ ns, keys_namespace ks = Some ns -> no_colon ns) /\ no_colon wq /\ wq <> "eoa_executor".

Lemma webhook_key_apart ks wq s k :
  webhook_apart ks wq -> webhook_key wq s -> s <> key_name ks k.
Proof.
  intros (Hns & Hwq & Hne) [rest ->] H. rewrite key_name_body in H. unfold scoped in H.
  assert (∃ b, key_body ks k = "eoa_executor" +:+ String ":" b) as [b Hb].
  { destruct k; eexists; reflexivity. }
  rewrite Hb in H. destruct (keys_namespace ks) as [ns|]; [|done].
  apply (split_first_colon "twmq" _ ns _ eq_refl (Hns _ eq_refl)) in H as [_ H].
  apply (split_first_colon wq _ "eoa_executor" _ Hwq eq_refl) in H as [H _]. done.
Qed.

(** ** Automation on keys *)

Ltac key_of e :=
  lazymatch e with
  | eoa_lock_key_name _ => constr:(KLock)
  | transaction_data_key_name _ ?id => constr:(KData id)
  | transaction_attempts_list_name _ ?id => constr:(KAttempts id)
  | pending_transactions_zset_name _ => constr:(KPending)
  | submitted_transactions_zset_name _ => constr:(KSubmitted)
  | transaction_hash_to_id_key_name _ ?h => constr:(KHashToId h)
  | borrowed_transactions_hashmap_name _ => constr:(KBorrowed)
  | recycled_nonces_zset_name _ => constr:(KRecycled)
  | optimistic_transaction_count_key_name _ => constr:(KOptimistic)
  | last_transaction_count_key_name _ => constr:(KLast)
  | eoa_health_key_name _ => constr:(KHealth)
  | manual_reset_key_name _ => constr:(KReset)
  end.

(** Two key names of one store that come from different logical keys. *)
Ltac keys_ne :=
  lazymatch goal with
  | |- ?a = ?b -> False => change (a <> b); keys_ne
  | |- ?a <> ?b =>
      let ka := key_of a in let kb := key_of b in
      apply (key_name_ne _ ka kb); congruence
  end.

(** Effect of concrete commands on the views of a store's keys. *)
Ltac view_simp :=
  repeat first
    [ rewrite str_wrun | rewrite hash_wrun | rewrite zset_wrun | rewrite lst_wrun ];
  repeat match goal with
  | |- context [decide (?a = ?a)] => rewrite (decide_True (P := (a = a))) by reflexivity
  | |- context [decide (?a = ?b)] => rewrite (decide_False (P := (a = b))) by keys_ne
  end.
