(* ===== verification/EoaAtomic.v ===== *)
(** The owner-fenced transaction loop of the EOA store
    (executors/src/eoa/store/atomic.rs): [SafeRedisTransaction],
    [with_lock_check] and [execute_with_watch_and_retry], run against arbitrary
    other clients, and its refinement of one atomic step. *)

From Stdlib Require Import String Ascii NArith Lia.
From stdpp Require Import base gmap strings list fin_maps.
From S2P Require Import Prelude Redis RedisProg Json QueueTypes Webhook EoaTypes EoaKeys.

Definition MAX_RETRIES : nat := 10.
Definition RETRY_BASE_DELAY_MS : N := 10.

(** Sleep before the attempt number [retry_count]; it changes no key. *)
Definition backoff_delay_ms (retry_count : nat) : N :=
  if Nat.eqb retry_count 0 then 0
  else RETRY_BASE_DELAY_MS * 2 ^ N.of_nat (Nat.min (retry_count - 1) 6).

(** The trait.  The argument of validation and operation is the wall clock they
    read during the attempt. *)
Record SafeRedisTransaction (V R : Type) := mkSafeTx {
  stx_name : string;
  stx_watch_keys : list string;
  stx_validation : N -> prog (result TransactionStoreError V);
  stx_operation : N -> V -> pipeline * R
}.
Arguments mkSafeTx {V R} _ _ _ _.
Arguments stx_name {V R} _.
Arguments stx_watch_keys {V R} _.
Arguments stx_validation {V R} _ _.
Arguments stx_operation {V R} _ _ _.

Section Store.
Context (ks : EoaExecutorStoreKeys) (worker_id : string).

Definition eoa_lock_lost_error : TransactionStoreError :=
  LockLost (keys_eoa ks) (keys_chain_id ks) worker_id.
Definition nonce_sync_required_error : TransactionStoreError :=
  NonceSyncRequired (keys_eoa ks) (keys_chain_id ks).

Definition get_owner : prog (result TransactionStoreError (option string)) :=
  read (fun σ => Ok (str σ (eoa_lock_key_name ks))).

Definition owned (owner : option string) : bool := bool_decide (owner = Some worker_id).

Definition retries_exceeded (name : string) : TransactionStoreError :=
  InternalError ("Exceeded max retries (" +:+ u64_to_string (N.of_nat MAX_RETRIES) +:+ ") for "
    +:+ name +:+ " on " +:+ keys_eoa ks +:+ ":" +:+ u64_to_string (keys_chain_id ks)).

(** The loop body, with the number of attempts that are left. *)
Fixpoint execute_attempts {V R} (tx : SafeRedisTransaction V R) (left : nat)
    : prog (result TransactionStoreError R) :=
  match left with
  | O => Ret (Err (retries_exceeded (stx_name tx)))
  | S left' =>
      Now (fun now =>
      let! _ := watch (eoa_lock_key_name ks :: stx_watch_keys tx) in
      let! current_owner := get_owner in
      if negb (owned current_owner) then
        let! _ := unwatch in Ret (Err eoa_lock_lost_error)
      else
        let* validated := stx_validation tx now in
        match validated with
        | Err e => let! _ := unwatch in Ret (Err e)
        | Ok validation_data =>
            let '(pipe, res) := stx_operation tx now validation_data in
            let! committed := exec pipe in
            if (committed : bool) then Ret (Ok res)
            else
              let! still_own_lock := get_owner in
              if negb (owned still_own_lock) then Ret (Err eoa_lock_lost_error)
              else execute_attempts tx left'
        end)
  end.

Definition execute_with_watch_and_retry {V R} (tx : SafeRedisTransaction V R)
    : prog (result TransactionStoreError R) :=
  execute_attempts tx MAX_RETRIES.

(** [with_lock_check]: the same loop watching the owner only. *)
Definition lock_check_tx {R} (operation : N -> pipeline * R) : SafeRedisTransaction unit R :=
  mkSafeTx "lock check" [] (fun _ => Ret (Ok tt)) (fun now _ => operation now).
Definition with_lock_check {R} (operation : N -> pipeline * R)
    : prog (result TransactionStoreError R) :=
  execute_with_watch_and_retry (lock_check_tx operation).

(** [ensure_eoa_lock_owned]: a boundary check, not a lease. *)
Definition ensure_eoa_lock_owned : prog (result TransactionStoreError unit) :=
  let! owner := get_owner in
  Ret (if owned owner then Ok tt else Err eoa_lock_lost_error).

(** [release_eoa_lock] gives the store back whatever happened. *)
Definition release_eoa_lock : prog (result TransactionStoreError unit) :=
  let* r := with_lock_check (fun _ => ([DEL (eoa_lock_key_name ks)], tt)) in
  Ret (Ok tt).

(** [acquire_eoa_lock_aggressively]: SETNX, and an unconditional SET when the lock
    is taken.  A crashed owner is replaced by force. *)
Definition acquire_eoa_lock_aggressively : prog (result TransactionStoreError unit) :=
  let lock_key := eoa_lock_key_name ks in
  let! acquired := atomically (fun σ =>
      match str σ lock_key with
      | Some _ => (σ, false)
      | None => (put_str lock_key worker_id σ, true)
      end) in
  if (acquired : bool) then Ret (Ok tt)
  else
    let! _conflict_worker_id := get_owner in
    atomically (fun σ => (put_str lock_key worker_id σ, tt)).

(** ** The abstract step *)

(** What one transaction does when nobody interferes: check the owner, validate,
    apply the whole pipeline. *)
Definition atomic_step {V R} (tx : SafeRedisTransaction V R) (now : N) (σ : redis)
    : result TransactionStoreError (redis * R) :=
  if negb (owned (str σ (eoa_lock_key_name ks))) then Err eoa_lock_lost_error
  else
    let? vd := (run_alone (stx_validation tx now) σ).1 in
    let '(pipe, res) := stx_operation tx now vd in
    if pipe_ok pipe then Ok (prun pipe σ, res) else Err (RedisError ExecAbort).

Lemma atomic_step_Ok {V R} (tx : SafeRedisTransaction V R) now σ σ' r :
  atomic_step tx now σ = Ok (σ', r) ->
  str σ (eoa_lock_key_name ks) = Some worker_id /\
  ∃ vd pipe, (run_alone (stx_validation tx now) σ).1 = Ok vd /\
    stx_operation tx now vd = (pipe, r) /\ pipe_ok pipe = true /\ σ' = prun pipe σ.
Proof.
  unfold atomic_step, owned. case_bool_decide as Ho; [|done]. simpl.
  destruct (run_alone _ σ).1 as [vd|e]; [|done].
  destruct (stx_operation tx now vd) as [pipe res] eqn:Hop.
  destruct (pipe_ok pipe) eqn:Hp; [|done]. intros [= <- <-]. split; [done|].
  by exists vd, pipe.
Qed.

(** ** Refinement *)

(** Other clients ran [es]; the transaction itself happened once, at one point. *)
Definition committed_once {V R} (tx : SafeRedisTransaction V R) (σ : redis)
    (es : list env_step) (r : R) (σ' : redis) : Prop :=
  ∃ es1 es2 now σ2, es = es1 ++ es2 /\
    atomic_step tx now (run_steps es1 σ) = Ok (σ2, r) /\ σ' = run_steps es2 σ2.

Definition no_effect (σ : redis) (es : list env_step) (σ' : redis) : Prop :=
  σ' = run_steps es σ.

Definition outcome_ok {V R} (tx : SafeRedisTransaction V R) (σ : redis) (es : list env_step)
    (out : result TransactionStoreError R) (σ' : redis) : Prop :=
  match out with
  | Ok r => committed_once tx σ es r σ'
  | Err (RedisError _) => no_effect σ es σ' \/ ∃ r, committed_once tx σ es r σ'
  | Err _ => no_effect σ es σ'
  end.

(** Validations read only keys of [F], and each is watched or left alone. *)
Definition validation_covered {V R} (tx : SafeRedisTransaction V R) (sch : schedule)
    (F : string -> Prop) : Prop :=
  (∀ now, reads_only F (stx_validation tx now)) /\
  (∀ k, F k -> k ∈ eoa_lock_key_name ks :: stx_watch_keys tx \/
               untouched (fun k' => k' = k) (sched_steps sch)).

Lemma outcome_ok_no_effect {V R} (tx : SafeRedisTransaction V R) σ es e :
  outcome_ok tx σ es (Err e) (run_steps es σ).
Proof. destruct e; simpl; try done. by left. Qed.

Lemma outcome_ok_prefix {V R} (tx : SafeRedisTransaction V R) σ es0 es out σ' :
  outcome_ok tx (run_steps es0 σ) es out σ' -> outcome_ok tx σ (es0 ++ es) out σ'.
Proof.
  assert (∀ r, committed_once tx (run_steps es0 σ) es r σ' ->
               committed_once tx σ (es0 ++ es) r σ') as Hc.
  { intros r (es1 & es2 & now & σ2 & -> & Hs & ->).
    exists (es0 ++ es1), es2, now, σ2. by rewrite app_assoc, run_steps_app. }
  assert (no_effect (run_steps es0 σ) es σ' -> no_effect σ (es0 ++ es) σ') as Hn.
  { intros ->. unfold no_effect. by rewrite run_steps_app. }
  destruct out as [r|e]; simpl; [apply Hc|]. destruct e; try done. naive_solver.
Qed.

Lemma get_owner_reads : reads_only (fun k => k = eoa_lock_key_name ks) get_owner.
Proof. apply reads_only_read. intros σ1 σ2 Ha. by rewrite (sa_str _ _ _ (Ha _ eq_refl)). Qed.

Lemma run_get_owner sch c σ o sch' c' σ' :
  run get_owner sch c σ = (Ok o, (sch', c', σ')) -> o = str σ' (eoa_lock_key_name ks).
Proof.
  unfold get_owner, read. cbn [run]. destruct (next_slot sch) as [sl sch1].
  destruct (sl_fault sl) as [[]|]; cbn; destruct (next_slot sch1); by intros [= <- <- <- <-].
Qed.

(** A run from [σ] that ends in [σ'] with result [out], as a simulation of at most
    one atomic step; [sch] shrinks to [sch']. *)
Definition simulates {V R} (tx : SafeRedisTransaction V R) (sch : schedule) (σ : redis)
    (out : result TransactionStoreError R) (sch' : schedule) (σ' : redis) : Prop :=
  ∃ pre, sch = pre ++ sch' /\ outcome_ok tx σ (sched_steps pre) out σ'.

Lemma simulates_prefix {V R} (tx : SafeRedisTransaction V R) pre sch σ out sch' σ' :
  simulates tx sch (run_steps (sched_steps pre) σ) out sch' σ' ->
  simulates tx (pre ++ sch) σ out sch' σ'.
Proof.
  intros (pre' & -> & Ho). exists (pre ++ pre'). rewrite app_assoc, sched_steps_app.
  split; [done|]. by apply outcome_ok_prefix.
Qed.

Lemma simulates_err {V R} (tx : SafeRedisTransaction V R) pre sch σ e :
  simulates tx (pre ++ sch) σ (Err e) sch (run_steps (sched_steps pre) σ).
Proof. exists pre. split; [done|apply outcome_ok_no_effect]. Qed.

(** The steps of [sch] are steps of the whole schedule [sch0]. *)
Definition within (sch0 sch : schedule) : Prop :=
  ∀ s, s ∈ sched_steps sch -> s ∈ sched_steps sch0.

Lemma within_app sch0 pre sch :
  within sch0 (pre ++ sch) -> within sch0 pre /\ within sch0 sch.
Proof. unfold within. rewrite sched_steps_app. set_solver. Qed.

Lemma within_ok sch0 sch : within sch0 sch -> sched_ok sch0 -> sched_ok sch.
Proof. intros Hw Hok s Hs. by apply Hok, Hw. Qed.

Definition refines {V R} (tx : SafeRedisTransaction V R) (sch0 : schedule)
    (p : prog (result TransactionStoreError R)) : Prop :=
  ∀ sch c σ out sch' c' σ', within sch0 sch ->
    run p sch c σ = (out, (sch', c', σ')) -> simulates tx sch σ out sch' σ'.

Lemma refines_ret_err {V R} (tx : SafeRedisTransaction V R) sch0 e :
  refines tx sch0 (Ret (Err e)).
Proof.
  intros sch c σ out sch' c' σ' _. rewrite run_ret. intros [= <- <- <- <-].
  apply (simulates_err tx []).
Qed.

(** UNWATCH and an error: nothing happened. *)
Lemma refines_unwatch_err {V R} (tx : SafeRedisTransaction V R) sch0 e :
  refines tx sch0 (let! _ := unwatch in Ret (Err e)).
Proof.
  intros sch c σ out sch' c' σ' _. rewrite run_bind.
  destruct (run unwatch sch c σ) as [r [[sch1 c1] σ1]] eqn:Hu.
  apply run_unwatch in Hu as (pre & -> & -> & [->|[e' ->]]); rewrite run_ret;
    intros [= <- <- <- <-]; apply simulates_err.
Qed.

(** The tail of a nil EXEC: read the owner and give up or try again. *)
Lemma refines_after_nil {V R} (tx : SafeRedisTransaction V R) sch0 again :
  refines tx sch0 again ->
  refines tx sch0 (let! still_own_lock := get_owner in
    if negb (owned still_own_lock) then Ret (Err eoa_lock_lost_error) else again).
Proof.
  intros Hagain sch c σ out sch' c' σ' Hin. rewrite run_bind.
  destruct (run get_owner sch c σ) as [r [[sch1 c1] σ1]] eqn:Hg.
  destruct (run_reads_only _ _ _ _ _ _ _ _ _ get_owner_reads Hg) as (pre & -> & -> & ->).
  intros Hrun. apply simulates_prefix. apply within_app in Hin as [_ Hin].
  destruct r as [o|e]; [destruct (owned o); cbn [negb] in Hrun|].
  - eapply Hagain; eauto.
  - eapply refines_ret_err; eauto.
  - eapply refines_ret_err; eauto.
Qed.

(** The commit point: a clean EXEC applies the pipeline in a state where the owner
    and the validation still hold. *)
Lemma commit_point {V R} (tx : SafeRedisTransaction V R) F now σ es vd pipe res :
  (∀ s, s ∈ es -> env_step_ok s) ->
  reads_only F (stx_validation tx now) ->
  (run_alone (stx_validation tx now) σ).1 = Ok vd ->
  owned (str σ (eoa_lock_key_name ks)) = true ->
  stx_operation tx now vd = (pipe, res) -> pipe_ok pipe = true ->
  untouched (fun k => k = eoa_lock_key_name ks \/ F k) es ->
  committed_once tx σ es res (prun pipe (run_steps es σ)).
Proof.
  intros Hok Hro Hv Ho Hop Hpipe Hun.
  assert (agree_on (fun k => k = eoa_lock_key_name ks \/ F k) σ (run_steps es σ)) as Ha
    by (by apply untouched_agree).
  exists es, [], now, (prun pipe (run_steps es σ)). rewrite app_nil_r. split_and!; [done| |done].
  unfold atomic_step.
  rewrite <- (sa_str _ _ _ (Ha _ (or_introl eq_refl))), Ho. simpl.
  rewrite <- (run_alone_agree F _ σ (run_steps es σ) Hro); [|intros k Hk; apply Ha; by right].
  by rewrite Hv, Hop, Hpipe.
Qed.

(** A connection that watched [lock :: watch_keys] and is still clean has seen no
    foreign step on the keys the attempt depends on. *)
Lemma clean_untouched {V R} (tx : SafeRedisTransaction V R) F sch es cw :
  validation_covered tx sch F ->
  (∀ s, s ∈ es -> s ∈ sched_steps sch) ->
  list_to_set (eoa_lock_key_name ks :: stx_watch_keys tx) ⊆ watched cw ->
  dirty (conn_env es cw) = false ->
  untouched (fun k => k = eoa_lock_key_name ks \/ F k) es.
Proof.
  intros [_ Hcov] Hsub Hw Hd. unfold conn_env in Hd. simpl in Hd.
  apply orb_false_iff in Hd as [_ Hd]. apply touches_false_untouched in Hd.
  intros s k Hs Hk.
  assert (k ∈ eoa_lock_key_name ks :: stx_watch_keys tx \/
          untouched (fun k' => k' = k) (sched_steps sch)) as [Hin|Hun].
  { destruct Hk as [->|Hk]; [left; set_solver|by apply Hcov]. }
  - apply (Hd s k Hs). apply Hw. by apply elem_of_list_to_set.
  - apply (Hun s k); auto.
Qed.

(** From the owner read to EXEC: if EXEC applied, the whole attempt is one atomic
    step.  [es0] are the foreign steps between WATCH and the owner read. *)
Lemma attempt_commit {V R} (tx : SafeRedisTransaction V R) F now sch0 es0 σ0 cw
    pre1 sch1 vd pipe res c1 σ1 es2 :
  validation_covered tx sch0 F -> sched_ok sch0 ->
  (∀ s, s ∈ es0 ++ es2 -> s ∈ sched_steps sch0) -> within sch0 (pre1 ++ sch1) ->
  list_to_set (eoa_lock_key_name ks :: stx_watch_keys tx) ⊆ watched cw ->
  owned (str (run_steps es0 σ0) (eoa_lock_key_name ks)) = true ->
  run (stx_validation tx now) (pre1 ++ sch1) (conn_env es0 cw) (run_steps es0 σ0)
    = (Ok vd, (sch1, c1, σ1)) ->
  stx_operation tx now vd = (pipe, res) ->
  dirty (conn_env es2 c1) = false -> pipe_ok pipe = true ->
  committed_once tx σ1 es2 res (prun pipe (run_steps es2 σ1)).
Proof.
  intros Hcov Hok Hsub Hin Hw Hown Hv Hop Hd Hpok. pose proof Hcov as [Hro _].
  destruct (run_reads_only _ _ _ _ _ _ _ _ _ (Hro now) Hv) as (pre & Hpre & Hσ1 & ->).
  apply app_inv_tail in Hpre as <-. pose proof (within_app _ _ _ Hin) as [Hin1 _].
  rewrite <- !conn_env_app in Hd.
  assert (untouched (fun k => k = eoa_lock_key_name ks \/ F k)
            (es0 ++ sched_steps pre1 ++ es2)) as Hun.
  { apply (clean_untouched tx F sch0 _ cw); [done| |done|by rewrite ?app_assoc in Hd |- *].
    intros s. rewrite !elem_of_app. intros [?|[?|?]]; [apply Hsub; set_solver|by apply Hin1|apply Hsub; set_solver]. }
  apply untouched_app in Hun as [_ [Hun1 Hun2]%untouched_app].
  assert (agree_on (fun k => k = eoa_lock_key_name ks \/ F k) (run_steps es0 σ0) σ1) as Ha.
  { subst σ1. apply untouched_agree; [|done]. intros s Hs. by apply Hok, Hin1. }
  eapply commit_point; try done.
  - intros s Hs. apply Hok, Hsub. set_solver.
  - assert (∀ pre, pre1 ++ sch1 = pre ++ sch1 -> untouched F (sched_steps pre)) as Hst.
    { intros pre Hpre. apply app_inv_tail in Hpre as <-.
      intros s k Hs Hk. apply (Hun1 s k Hs). by right. }
    destruct (run_reads_only_stable F _ _ _ _ _ _ _ _ (Hro now) (within_ok _ _ Hin Hok) Hv Hst)
      as [He|[e He]]; by rewrite <- He || done.
  - by rewrite <- (sa_str _ _ _ (Ha _ (or_introl eq_refl))).
Qed.

(** Validation, operation and EXEC after the owner was read as ours. *)
Lemma attempt_body {V R} (tx : SafeRedisTransaction V R) F now again sch0 sch es0 σ0 cw
    out sch' c' σ' :
  validation_covered tx sch0 F -> sched_ok sch0 ->
  (∀ s, s ∈ es0 -> s ∈ sched_steps sch0) -> within sch0 sch ->
  list_to_set (eoa_lock_key_name ks :: stx_watch_keys tx) ⊆ watched cw ->
  owned (str (run_steps es0 σ0) (eoa_lock_key_name ks)) = true ->
  refines tx sch0 again ->
  run (let* validated := stx_validation tx now in
       match validated with
       | Err e => let! _ := unwatch in Ret (Err e)
       | Ok validation_data =>
           let '(pipe, res) := stx_operation tx now validation_data in
           let! committed := exec pipe in
           if (committed : bool) then Ret (Ok res)
           else let! still_own_lock := get_owner in
                if negb (owned still_own_lock) then Ret (Err eoa_lock_lost_error) else again
       end) sch (conn_env es0 cw) (run_steps es0 σ0) = (out, (sch', c', σ')) ->
  simulates tx sch (run_steps es0 σ0) out sch' σ'.
Proof.
  intros Hcov Hok Hes0 Hin Hw Hown Hagain. rewrite run_bind.
  destruct (run (stx_validation tx now) _ _ _) as [v [[sch1 c1] σ1]] eqn:Hv.
  pose proof (proj1 Hcov now) as Hro.
  destruct (run_reads_only _ _ _ _ _ _ _ _ _ Hro Hv) as (pre1 & -> & Hσ1 & _).
  pose proof (within_app _ _ _ Hin) as [_ Hin1].
  intros Hrun. apply simulates_prefix. rewrite <- Hσ1.
  destruct v as [vd|e]; [|by eapply refines_unwatch_err].
  destruct (stx_operation tx now vd) as [pipe res] eqn:Hop.
  rewrite run_bind in Hrun.
  destruct (run (exec pipe) sch1 c1 σ1) as [r [[sch2 c2] σ2]] eqn:Hx.
  apply run_exec in Hx as (pre2 & -> & Hx). cbv zeta in Hx.
  pose proof (within_app _ _ _ Hin1) as [Hin2 Hin3].
  assert (dirty (conn_env (sched_steps pre2) c1) = false -> pipe_ok pipe = true ->
          committed_once tx σ1 (sched_steps pre2) res
            (prun pipe (run_steps (sched_steps pre2) σ1))) as Hcommit.
  { intros Hd Hpok.
    refine (attempt_commit tx F now sch0 es0 σ0 cw pre1 _ vd pipe res c1 σ1 _
              Hcov Hok _ Hin Hw Hown Hv Hop Hd Hpok).
    intros s. rewrite elem_of_app. intros [?|?]; auto. }
  destruct Hx as [(-> & Hd & Hpok & ->)|[[-> ->]|(e & -> & [->|(Hd & Hpok & ->)])]].
  - rewrite run_ret in Hrun. simplify_eq. exists pre2. split; [done|]. by apply Hcommit.
  - apply simulates_prefix. eapply refines_after_nil; eauto.
  - rewrite run_ret in Hrun. simplify_eq. apply simulates_err.
  - rewrite run_ret in Hrun. simplify_eq. exists pre2. split; [done|]. right. eauto.
Qed.

Lemma execute_attempts_refines {V R} (tx : SafeRedisTransaction V R) F sch0 n :
  validation_covered tx sch0 F -> sched_ok sch0 -> refines tx sch0 (execute_attempts tx n).
Proof.
  intros Hcov Hok. induction n as [|n IH]; [apply refines_ret_err|].
  intros sch c σ out sch' c' σ' Hin. cbn [execute_attempts run].
  destruct (next_slot sch) as [sl sch1] eqn:Hs.
  destruct (next_slot_split _ _ _ Hs) as (pre0 & -> & <-).
  intros Hrun. apply simulates_prefix. apply within_app in Hin as [_ Hin].
  rewrite run_bind in Hrun.
  destruct (run (watch _) _ _ _) as [r [[sch2 cw] σw]] eqn:Hw.
  apply run_watch in Hw as (pre1 & -> & -> & [[-> Hcw]|[e ->]]).
  2: { rewrite run_ret in Hrun. simplify_eq. apply simulates_err. }
  apply simulates_prefix. apply within_app in Hin as [_ Hin].
  set (σw := run_steps (sched_steps pre1) _) in *.
  rewrite run_bind in Hrun.
  destruct (run get_owner sch2 cw σw) as [r [[sch3 c3] σ3]] eqn:Hg.
  destruct (run_reads_only _ _ _ _ _ _ _ _ _ get_owner_reads Hg) as (pre2 & -> & Hσ3 & ->).
  apply simulates_prefix. pose proof (within_app _ _ _ Hin) as [Hin2 Hin3].
  destruct r as [o|e]; [|rewrite run_ret in Hrun; simplify_eq; apply (simulates_err _ [])].
  assert (o = str σ3 (eoa_lock_key_name ks)) as ->.
  { by eapply run_get_owner. }
  destruct (owned (str σ3 _)) eqn:Hown; cbn [negb] in Hrun.
  2: { rewrite Hσ3 in Hrun. eapply refines_unwatch_err; eauto. }
  subst σ3. eapply (attempt_body tx F _ (execute_attempts tx n) sch0); eauto.
  rewrite Hcw. apply union_subseteq_r.
Qed.

(** ** Without interference *)

Lemma execute_attempts_quiet {V R} (tx : SafeRedisTransaction V R) F n sch c σ :
  (∀ now, reads_only F (stx_validation tx now)) -> quiet sch -> dirty c = false ->
  ∃ sch' c', run (execute_attempts tx (S n)) sch c σ =
    match atomic_step tx (sl_now (next_slot sch).1) σ with
    | Ok (σ2, r) => (Ok r, (sch', c', σ2))
    | Err e => (Err e, (sch', c', σ))
    end.
Proof.
  intros Hro Hq Hd. unfold atomic_step. cbn [execute_attempts run].
  destruct (next_slot sch) as [sl sch1] eqn:Hs.
  destruct (quiet_next _ _ _ Hq Hs) as (-> & Hf & Hq1).
  rewrite conn_env_nil. cbn [fst run_steps foldl]. rewrite run_bind.
  destruct (run_watch_quiet (E:=TransactionStoreError)
    (eoa_lock_key_name ks :: stx_watch_keys tx) sch1 c σ Hq1) as (sch2 & Hq2 & ->).
  rewrite Hd, run_bind. set (cw := mkConn _ false).
  destruct (run_reads_only_quiet _ _ sch2 cw σ get_owner_reads Hq2) as (sch3 & Hq3 & ->).
  replace (run_alone get_owner σ).1
    with (Ok (E:=TransactionStoreError) (str σ (eoa_lock_key_name ks))) by done.
  destruct (owned _) eqn:Hown; cbn [negb]; rewrite run_bind.
  2: { destruct (run_unwatch_quiet (E:=TransactionStoreError) sch3 cw σ Hq3)
         as (sch4 & _ & ->). rewrite run_ret. eauto. }
  destruct (run_reads_only_quiet F _ sch3 cw σ (Hro (sl_now sl)) Hq3) as (sch4 & Hq4 & ->).
  destruct (run_alone _ σ).1 as [vd|e].
  2: { rewrite run_bind. destruct (run_unwatch_quiet (E:=TransactionStoreError) sch4 cw σ Hq4)
         as (sch5 & _ & ->). rewrite run_ret. eauto. }
  destruct (stx_operation tx (sl_now sl) vd) as [pipe res]. rewrite run_bind.
  destruct (run_exec_quiet (E:=TransactionStoreError) pipe sch4 cw σ Hq4 eq_refl)
    as (sch5 & _ & ->).
  destruct (pipe_ok pipe); rewrite run_ret; eauto.
Qed.

(** An invariant survives a fenced transaction among other clients when their steps
    and the atomic step keep it; [P] may be stronger before the commit point. *)
Lemma execute_preserves {V R} (tx : SafeRedisTransaction V R) F (P Q : redis -> Prop)
    n sch c σ out sch' c' σ' :
  validation_covered tx sch F -> sched_ok sch ->
  (∀ τ, P τ -> Q τ) ->
  (∀ s τ, s ∈ sched_steps sch -> P τ -> P (es_run s τ)) ->
  (∀ s τ, s ∈ sched_steps sch -> Q τ -> Q (es_run s τ)) ->
  (∀ now τ τ' r, P τ -> atomic_step tx now τ = Ok (τ', r) -> Q τ') ->
  P σ -> run (execute_attempts tx n) sch c σ = (out, (sch', c', σ')) -> Q σ'.
Proof.
  intros Hcov Hok HPQ HP HQ Hstep Hσ Hrun.
  destruct (execute_attempts_refines tx F sch n Hcov Hok sch c σ out sch' c' σ')
    as (pre & -> & Ho); [by intros s|done|].
  assert (∀ es τ, (∀ s, s ∈ es -> s ∈ sched_steps (pre ++ sch')) -> P τ -> P (run_steps es τ)) as HP'.
  { intros es τ Hes Hτ. unfold run_steps. apply foldl_invariant; [done|]. intros a s Hs. apply HP. auto. }
  assert (∀ es τ, (∀ s, s ∈ es -> s ∈ sched_steps (pre ++ sch')) -> Q τ -> Q (run_steps es τ)) as HQ'.
  { intros es τ Hes Hτ. unfold run_steps. apply foldl_invariant; [done|]. intros a s Hs. apply HQ. auto. }
  rewrite sched_steps_app in HP', HQ'.
  assert (no_effect σ (sched_steps pre) σ' -> Q σ') as Hno.
  { intros ->. apply HPQ, HP'; [set_solver|done]. }
  assert (∀ r, committed_once tx σ (sched_steps pre) r σ' -> Q σ') as Hco.
  { intros r (es1 & es2 & now & σ2 & Hes & Hs & ->). rewrite Hes in HP', HQ'.
    apply HQ'; [set_solver|]. eapply Hstep; [|done]. apply HP'; [set_solver|done]. }
  destruct out as [r|e]; simpl in Ho; [eauto|]. destruct e; eauto. naive_solver.
Qed.

(** ** Release *)

(** Every command gets through and no other client writes the owner key. *)
Definition lock_left_alone (sch : schedule) : Prop :=
  Forall (fun sl => sl_fault sl = None /\
    Forall (fun s => env_step_ok s /\ eoa_lock_key_name ks ∉ es_touch s) (sl_steps sl)) sch.

Lemma lock_left_alone_next sch sl sch' :
  lock_left_alone sch -> next_slot sch = (sl, sch') ->
  sl_fault sl = None /\ lock_left_alone sch' /\
  (∀ σ, str (run_steps (sl_steps sl) σ) (eoa_lock_key_name ks) = str σ (eoa_lock_key_name ks)) /\
  (∀ c, watched c ⊆ {[eoa_lock_key_name ks]} -> dirty c = false ->
     watched (conn_env (sl_steps sl) c) ⊆ {[eoa_lock_key_name ks]} /\ dirty (conn_env (sl_steps sl) c) = false).
Proof.
  intros Hs Hn. destruct sch as [|s0 sch]; injection Hn as <- <-.
  { split_and!; [done..|]. intros c ? ?. by rewrite conn_env_nil. }
  apply Forall_cons in Hs as [[Hf Hs] Hrest]. split_and!; [done|done| |].
  - intros σ. symmetry. apply sa_str. rewrite Forall_forall in Hs.
    apply (untouched_agree (fun k => k = eoa_lock_key_name ks)); [|intros s k Hin ->|done]; apply Hs, Hin || by apply Hs.
  - intros c Hw Hd. split; [done|]. cbn. rewrite Hd. apply touches_false_untouched.
    intros s k Hin Hk%Hw%elem_of_singleton. subst k. rewrite Forall_forall in Hs. by apply Hs.
Qed.

(** A release that nobody disturbs leaves the account without this owner. *)
Lemma release_frees sch σ r sch' c' σ' :
  lock_left_alone sch -> run release_eoa_lock sch idle σ = (r, (sch', c', σ')) ->
  str σ' (eoa_lock_key_name ks) <> Some worker_id.
Proof.
  intros Hal Hrun. unfold release_eoa_lock, with_lock_check, execute_with_watch_and_retry in Hrun.
  change MAX_RETRIES with (S 9) in Hrun. cbn [execute_attempts] in Hrun. rewrite run_bind in Hrun.
  cbn [run] in Hrun.
  destruct (next_slot sch) as [s1 sch1] eqn:E1. destruct (lock_left_alone_next _ _ _ Hal E1) as (_ & A1 & L1 & C1).
  cbn [bind watch run] in Hrun.
  destruct (next_slot sch1) as [s2 sch2] eqn:E2. destruct (lock_left_alone_next _ _ _ A1 E2) as (F2 & A2 & L2 & C2).
  rewrite F2 in Hrun. cbn [bind lift_redis get_owner read run] in Hrun.
  destruct (next_slot sch2) as [s3 sch3] eqn:E3. destruct (lock_left_alone_next _ _ _ A2 E3) as (F3 & A3 & L3 & C3).
  rewrite F3 in Hrun. cbn [with_fault bind lift_redis] in Hrun. set (τ := run_steps (sl_steps s3) _) in Hrun.
  set (cw := conn_env (sl_steps s3) _) in Hrun.
  assert (watched cw ⊆ {[eoa_lock_key_name ks]} /\ dirty cw = false) as [Hw Hd].
  { destruct (C1 idle) as [W1 D1]; [done|done|]. destruct (C2 _ W1 D1) as [W2 D2]. apply C3; cbn in *; [set_solver|done]. }
  destruct (owned (str τ (eoa_lock_key_name ks))) eqn:Ho; cbn [negb bind unwatch exec stx_validation stx_operation lock_check_tx run] in Hrun;
    destruct (next_slot sch3) as [s4 sch4] eqn:E4; destruct (lock_left_alone_next _ _ _ A3 E4) as (F4 & A4 & L4 & C4);
    rewrite F4 in Hrun; cbn [with_fault bind lift_redis] in Hrun.
  - destruct (C4 cw Hw Hd) as [_ D4]. unfold exec_effect in Hrun. rewrite D4 in Hrun. cbn in Hrun.
    destruct (next_slot sch4) eqn:E5; cbn in Hrun; rewrite E5 in Hrun. injection Hrun as <- <- <- <-.
    change (del_key ?k ?x) with (wrun (DEL k) x). by rewrite str_wrun, decide_True.
  - cbn in Hrun. destruct (next_slot sch4) eqn:E5; cbn in Hrun; rewrite E5 in Hrun. injection Hrun as <- <- <- <-. rewrite L4. intros Heq.
    unfold owned in Ho. by rewrite Heq, bool_decide_eq_true_2 in Ho.
Qed.
End Store.
