(* ===== verification/EoaStore.v ===== *)
(** The EOA store without the owner fence (executors/src/eoa/store/mod.rs and
    hydrate.rs): reads, pages, budgets, hydration and the admission script. *)

From Stdlib Require Import String Ascii NArith Lia.
From stdpp Require Import base gmap strings list fin_maps.
From S2P Require Import Prelude Redis RedisProg Json QueueTypes Webhook EoaTypes EoaKeys EoaAtomic.

Notation store_result A := (result TransactionStoreError A).

(** ** Typed replies *)

(** [Option<u64>] from a GET. *)
Definition as_opt_u64 (o : option string) : result redis_error (option N) :=
  match o with
  | None => Ok None
  | Some s => match parse_u64 s with Some n => Ok (Some n) | None => Err TypeError end
  end.
Definition get_u64 (k : string) : prog (store_result (option N)) :=
  read (fun σ => as_opt_u64 (str σ k)).
Definition zcard (k : string) : prog (store_result N) :=
  read (fun σ => Ok (N.of_nat (size (zset σ k)))).
Definition hlen (k : string) : prog (store_result N) :=
  read (fun σ => Ok (N.of_nat (size (hash σ k)))).
Definition llen (k : string) : prog (store_result N) :=
  read (fun σ => Ok (N.of_nat (length (lst σ k)))).

Definition deser {A} `{Json A} (s : string) : store_result A := ok_or DeserError (from_json s).

Section Reads.
Context `{Carried} `{!Json EoaTransactionRequest, !Json BorrowedTransactionData,
  !Json TransactionAttempt, !Json EoaHealth, !Json TransactionReceipt}.
Context (ks : EoaExecutorStoreKeys).

Definition nonce_sync_required {A} (o : option A) : store_result A :=
  ok_or (nonce_sync_required_error ks) o.

(** The map iterates in an unspecified order; its order is one of them. *)
Definition peek_borrowed_transactions : prog (store_result (list BorrowedTransactionData)) :=
  let! borrowed_map := read (fun σ => Ok (hash σ (borrowed_transactions_hashmap_name ks))) in
  Ret (collect_results (fun '(_, json) => deser json) (map_to_list borrowed_map)).

Definition get_submitted_transactions_below_chain_transaction_count (count : N)
    : prog (store_result (list SubmittedTransactionDehydrated)) :=
  if (count =? 0)%N then Ret (Ok [])
  else
    let! results := read (fun σ =>
      Ok (zrangebyscore (zset σ (submitted_transactions_zset_name ks)) 0 (count - 1))) in
    Ret (Ok (from_redis_strings results)).

(** The script of [get_submitted_transaction_page]: ranks below [count], starting at
    the cursor and wrapping once. *)
Definition page_script (count offset limit : N) (z : gmap string N) : list (string * N) * N :=
  let eligible := N.of_nat (length (filter (fun '(_, s) => (s < count)%N) (zrange z))) in
  if (eligible =? 0)%N then ([], 0%N)
  else
    let first := (offset mod eligible)%N in
    let tak := N.min limit eligible in
    let head := N.min tak (eligible - first) in
    let rows := zrange_slice z first (first + head - 1) in
    let rows := if (head <? tak)%N then rows ++ zrange_slice z 0 (tak - head - 1) else rows in
    (rows, ((first + tak) mod eligible)%N).

Definition get_submitted_transaction_page (count offset limit : N)
    : prog (store_result (list SubmittedTransactionDehydrated * N)) :=
  if (count =? 0)%N || (limit =? 0)%N then Ret (Ok ([], 0%N))
  else
    let limit := N.min limit 4096 in
    let offset := if (offset <=? 2 ^ 53 - 1)%N then offset else 0%N in
    let! (rows, next) := read (fun σ =>
      Ok (page_script count offset limit (zset σ (submitted_transactions_zset_name ks)))) in
    Ret (Ok (from_redis_strings rows, next)).

Definition get_submitted_transactions_for_nonce (nonce : N)
    : prog (store_result (list SubmittedTransactionDehydrated)) :=
  let! results := read (fun σ =>
    Ok (zrangebyscore (zset σ (submitted_transactions_zset_name ks)) nonce nonce)) in
  Ret (Ok (from_redis_strings results)).

Definition get_eoa_health : prog (store_result (option EoaHealth)) :=
  let! health_json := read (fun σ => Ok (str σ (eoa_health_key_name ks))) in
  match health_json with
  | Some json => Ret (let? health := deser json in Ok (Some health))
  | None => Ret (Ok None)
  end.

Definition get_all_counts : prog (store_result EoaExecutorCounts) :=
  let! pending := zcard (pending_transactions_zset_name ks) in
  let! submitted := zcard (submitted_transactions_zset_name ks) in
  let! borrowed := hlen (borrowed_transactions_hashmap_name ks) in
  let! recycled := zcard (recycled_nonces_zset_name ks) in
  Ret (Ok (mkExecutorCounts pending submitted borrowed recycled)).

(** ** Pending transactions *)

Definition hget_user_request (id : string) (σ : redis) : result redis_error (option string) :=
  Ok (hash σ (transaction_data_key_name ks id) !! "user_request").

(** One pass over the fetched requests: transactions with data, and the removal of
    the entries without; the first request that does not parse ends the call. *)
Fixpoint hydrate_pending_loop (l : list ((string * N) * option string))
    : store_result (list PendingTransaction * pipeline) :=
  match l with
  | [] => Ok ([], [])
  | ((transaction_id, queued_at), Some user_request) :: l' =>
      let? user_request_parsed := deser user_request in
      let? (pending, deletion) := hydrate_pending_loop l' in
      Ok (mkPending transaction_id queued_at user_request_parsed :: pending, deletion)
  | ((transaction_id, _), None) :: l' =>
      let? (pending, deletion) := hydrate_pending_loop l' in
      Ok (pending, ZREM (pending_transactions_zset_name ks) [transaction_id] :: deletion)
  end.

Definition hydrate_pending_transactions (transaction_ids : list (string * N))
    : prog (store_result (list PendingTransaction)) :=
  if decide (transaction_ids = []) then Ret (Ok [])
  else
    let! user_requests := read_all (map hget_user_request transaction_ids.*1) in
    match hydrate_pending_loop (zip transaction_ids user_requests) with
    | Err e => Ret (Err e)
    | Ok (pending_transactions, deletion_pipe) =>
        let! _ := write_all deletion_pipe in
        Ret (Ok pending_transactions)
    end.

Definition peek_pending_transactions_paginated (offset limit : N)
    : prog (store_result (list PendingTransaction)) :=
  if (limit =? 0)%N then Ret (Ok [])
  else
    let! transaction_ids := read (fun σ =>
      Ok (zrange_slice (zset σ (pending_transactions_zset_name ks)) offset (offset + limit - 1))) in
    hydrate_pending_transactions transaction_ids.

Definition peek_pending_transactions (limit : N) : prog (store_result (list PendingTransaction)) :=
  peek_pending_transactions_paginated 0 limit.

Definition peek_pending_transactions_older_than (older_than_unix_ms limit : N)
    : prog (store_result (list PendingTransaction)) :=
  if (limit =? 0)%N then Ret (Ok [])
  else
    let! transaction_ids := read (fun σ =>
      Ok (take (N.to_nat limit)
            (filter (fun '(_, s) => (s < older_than_unix_ms)%N)
               (zrange (zset σ (pending_transactions_zset_name ks)))))) in
    hydrate_pending_transactions transaction_ids.

Definition get_optimistic_transaction_count : prog (store_result N) :=
  let! current := get_u64 (optimistic_transaction_count_key_name ks) in
  Ret (nonce_sync_required current).

Definition get_cached_transaction_count : prog (store_result N) :=
  let! count := get_u64 (last_transaction_count_key_name ks) in
  Ret (nonce_sync_required count).

Definition peek_pending_transactions_with_optimistic_nonce (limit : N)
    : prog (store_result (list PendingTransaction * N)) :=
  if (limit =? 0)%N then
    let! optimistic := get_optimistic_transaction_count in Ret (Ok ([], optimistic))
  else
    let! transaction_ids := read (fun σ =>
      Ok (zrange_slice (zset σ (pending_transactions_zset_name ks)) 0 (limit - 1))) in
    let! optimistic_nonce := get_u64 (optimistic_transaction_count_key_name ks) in
    match nonce_sync_required optimistic_nonce with
    | Err e => Ret (Err e)
    | Ok optimistic =>
        let! pending_transactions := hydrate_pending_transactions transaction_ids in
        Ret (Ok (pending_transactions, optimistic))
    end.

(** ** Budget *)

Definition available_budget (max_inflight optimistic last_count submitted borrowed : N) : N :=
  let current_inflight := saturating_sub optimistic last_count in
  N.min (saturating_sub max_inflight current_inflight)
        (saturating_sub MAX_UNFINALIZED_ATTEMPTS (u64_saturating_add submitted borrowed)).

Definition get_inflight_budget (max_inflight : N) : prog (store_result N) :=
  let! optimistic_nonce := get_u64 (optimistic_transaction_count_key_name ks) in
  let! last_tx_count := get_u64 (last_transaction_count_key_name ks) in
  let! submitted := zcard (submitted_transactions_zset_name ks) in
  let! borrowed := hlen (borrowed_transactions_hashmap_name ks) in
  Ret (let? optimistic := nonce_sync_required optimistic_nonce in
       let? last_count := nonce_sync_required last_tx_count in
       Ok (available_budget max_inflight optimistic last_count submitted borrowed)).

(** ** Single records *)

Definition get_transaction_id_for_hash (h : string) : prog (store_result (option string)) :=
  read (fun σ => Ok (str σ (transaction_hash_to_id_key_name ks h))).

Definition get_transaction_data (transaction_id : string)
    : prog (store_result (option TransactionData)) :=
  let not_found := TransactionNotFound transaction_id in
  let! hash_data := read (fun σ => Ok (hash σ (transaction_data_key_name ks transaction_id))) in
  if decide (hash_data = ∅) then Ret (Ok None)
  else
    match (let? user_request_json := ok_or not_found (hash_data !! "user_request") in
           let? user_request := deser user_request_json in
           let receipt := hash_data !! "receipt" ≫= from_json in
           let? created_at := ok_or not_found (hash_data !! "created_at") in
           let? created_at := ok_or not_found (parse_u64 created_at) in
           Ok (user_request, receipt, created_at)) with
    | Err e => Ret (Err e)
    | Ok (user_request, receipt, created_at) =>
        let! attempts_json_list := read (fun σ =>
          Ok (lst σ (transaction_attempts_list_name ks transaction_id))) in
        Ret (Ok (Some (mkTransactionData transaction_id user_request receipt
                         (omap from_json attempts_json_list) created_at)))
    end.

Definition get_submitted_transactions_count : prog (store_result N) :=
  zcard (submitted_transactions_zset_name ks).
Definition get_pending_transactions_count : prog (store_result N) :=
  zcard (pending_transactions_zset_name ks).
Definition get_borrowed_transactions_count : prog (store_result N) :=
  hlen (borrowed_transactions_hashmap_name ks).
Definition get_recycled_nonces_count : prog (store_result N) :=
  zcard (recycled_nonces_zset_name ks).

Definition get_highest_submitted_nonce_tranasactions
    : prog (store_result (list SubmittedTransactionDehydrated)) :=
  let! highest := read (fun σ => Ok (zrange_last (zset σ (submitted_transactions_zset_name ks)))) in
  Ret (Ok (from_redis_strings highest)).

Definition as_u64_list (l : list string) : result redis_error (list N) :=
  collect_results (fun s => ok_or TypeError (parse_u64 s)) l.

Definition get_recycled_nonces : prog (store_result (list N)) :=
  read (fun σ => as_u64_list (zrange (zset σ (recycled_nonces_zset_name ks))).*1).

Definition get_all_submitted_transactions
    : prog (store_result (list SubmittedTransactionDehydrated)) :=
  let! submitted_data := read (fun σ =>
    Ok (zrange (zset σ (submitted_transactions_zset_name ks)))) in
  Ret (Ok (from_redis_strings submitted_data)).

Definition get_transaction_attempts_count (transaction_id : string) : prog (store_result N) :=
  llen (transaction_attempts_list_name ks transaction_id).

Definition get_transaction_attempts (transaction_id : string)
    : prog (store_result (list TransactionAttempt)) :=
  let! attempts_data := read (fun σ =>
    Ok (lst σ (transaction_attempts_list_name ks transaction_id))) in
  Ret (collect_results deser attempts_data).

Definition is_manual_reset_scheduled : prog (store_result bool) :=
  let! manual_reset := get_u64 (manual_reset_key_name ks) in
  Ret (Ok (bool_decide (is_Some manual_reset))).

Definition schedule_manual_reset : prog (store_result unit) :=
  Now (fun now =>
    atomically (fun σ => (wrun (SET (manual_reset_key_name ks) (u64_to_string now)) σ, tt))).

(** ** Admission *)

Inductive admission := AdmissionRepeat | AdmissionConflict | AdmissionFull | AdmissionNew.

Definition admission_script (transaction_id user_request_json : string) (now : N) (σ : redis)
    : redis * admission :=
  let data := transaction_data_key_name ks transaction_id in
  let pending := pending_transactions_zset_name ks in
  match hash σ data !! "user_request" with
  | Some existing =>
      if decide (existing = user_request_json) then (σ, AdmissionRepeat)
      else (σ, AdmissionConflict)
  | None =>
      if exists_key σ data then (σ, AdmissionConflict)
      else if (MAX_PENDING_TRANSACTIONS <=? N.of_nat (size (zset σ pending)))%N
      then (σ, AdmissionFull)
      else (prun [ HSET data "user_request" user_request_json;
                   HSET data "status" "pending";
                   HSET data "created_at" (u64_to_string now);
                   ZADD pending [(now, transaction_id)] ] σ, AdmissionNew)
  end.

Definition add_transaction (transaction_request : EoaTransactionRequest)
    : prog (store_result unit) :=
  let transaction_id := rq_transaction_id transaction_request in
  match to_json transaction_request with
  | None => Ret (Err DeserError)
  | Some user_request_json =>
      Now (fun now =>
      let! outcome := atomically (admission_script transaction_id user_request_json now) in
      Ret (match outcome with
           | AdmissionFull => Err CapacityExceeded
           | AdmissionConflict => Err (TransactionConflict transaction_id)
           | _ => Ok tt
           end))
  end.

Definition check_admission_capacity (transaction_id : string) : prog (store_result unit) :=
  let! ex := read (fun σ => Ok (exists_key σ (transaction_data_key_name ks transaction_id))) in
  let! pending := zcard (pending_transactions_zset_name ks) in
  Ret (if negb ex && (MAX_PENDING_TRANSACTIONS <=? pending)%N then Err CapacityExceeded
       else Ok tt).

(** ** Hydration *)

(** [Dehydrated<EoaTransactionRequest>] for borrowed data. *)
Definition hydrate_borrowed (d : BorrowedTransactionData) (required_data : EoaTransactionRequest)
    : BorrowedTransaction := mkBorrowed d required_data.

Fixpoint hydrate_all_loop (l : list (BorrowedTransactionData * option string))
    : store_result (list BorrowedTransaction * pipeline) :=
  match l with
  | [] => Ok ([], [])
  | (d, Some r) :: l' =>
      let? request := deser r in
      let? (hydrated, deletion) := hydrate_all_loop l' in
      Ok (hydrate_borrowed d request :: hydrated, deletion)
  | (d, None) :: l' =>
      let? (hydrated, deletion) := hydrate_all_loop l' in
      Ok (hydrated, ZREM (pending_transactions_zset_name ks) [bd_transaction_id d]
                    :: HDEL (borrowed_transactions_hashmap_name ks) (bd_transaction_id d)
                    :: deletion)
  end.

Definition hydrate_all (dehydrated : list BorrowedTransactionData)
    : prog (store_result (list BorrowedTransaction)) :=
  let! results := read_all (map hget_user_request (map bd_transaction_id dehydrated)) in
  match hydrate_all_loop (zip dehydrated results) with
  | Err e => Ret (Err e)
  | Ok (hydrated, deletion_pipe) =>
      let! _ := write_all deletion_pipe in Ret (Ok hydrated)
  end.

Inductive SubmittedTransactionHydrator := HydrateNoop | HydrateReal (r : EoaTransactionRequest).

Definition hydrate_submitted (self : SubmittedTransactionDehydrated)
    (required_data : SubmittedTransactionHydrator) : SubmittedTransactionHydrated :=
  match required_data with
  | HydrateNoop => HNoop (mkNoop (sd_nonce self) (sd_transaction_hash self))
  | HydrateReal request => HReal (mkSubmitted self request)
  end.

Definition is_noop_id (id : string) : bool := bool_decide (id = NO_OP_TRANSACTION_ID).

(** A missing request is a reply of the wrong type here, not an absent option. *)
Definition hget_required (id : string) (σ : redis) : result redis_error string :=
  ok_or TypeError (hash σ (transaction_data_key_name ks id) !! "user_request").

Definition request_by_id (r : string) : store_result (string * EoaTransactionRequest) :=
  let? request := deser r in Ok (rq_transaction_id request, request).

Definition hydrate_one_submitted (requests : gmap string EoaTransactionRequest)
    (d : SubmittedTransactionDehydrated) : store_result SubmittedTransactionHydrated :=
  let id := sd_transaction_id d in
  if is_noop_id id then Ok (hydrate_submitted d HydrateNoop)
  else
    let? request := ok_or (TransactionNotFound id) (requests !! id) in
    Ok (hydrate_submitted d (HydrateReal request)).

Definition hydrate_all_submitted (dehydrated : list SubmittedTransactionDehydrated)
    : prog (store_result (list SubmittedTransactionHydrated)) :=
  let! results := read_all (map hget_required
    (filter (fun id => is_noop_id id = false) (map sd_transaction_id dehydrated))) in
  Ret (let? pairs := collect_results request_by_id results in
       let id_to_eoa_request :=
         foldl (fun m '(id, r) => <[id := r]> m) (∅ : gmap string EoaTransactionRequest) pairs in
       collect_results (hydrate_one_submitted id_to_eoa_request) dehydrated).
End Reads.
