(* ===== verification/EoaStoreProps.v ===== *)
(** Properties of the unfenced store operations: the rotating confirmation page,
    the send budget, hydration and admission. *)

From Stdlib Require Import String Ascii NArith Lia.
From stdpp Require Import base gmap strings list fin_maps sorting.
From S2P Require Import Prelude Redis RedisProg Json QueueTypes Webhook EoaTypes EoaKeys EoaAtomic.
From S2P Require Import EoaStore.

(** ** The rotating page *)

(** The ranks a page may return: entries with a nonce below [count]. *)
Definition below (count : N) (z : gmap string N) : list (string * N) :=
  filter (fun '(_, s) => (s < count)%N) (zrange z).

Lemma elem_of_below count z m s : (m, s) ∈ below count z <-> z !! m = Some s /\ (s < count)%N.
Proof. unfold below. rewrite list_elem_of_filter, elem_of_zrange. naive_solver. Qed.

(** In rank order the entries below [count] are a prefix. *)
Lemma filter_below_sorted (l : list (string * N)) count :
  StronglySorted score_le l ->
  filter (fun '(_, s) => (s < count)%N) l
    = take (length (filter (fun '(_, s) => (s < count)%N) l)) l.
Proof.
  induction 1 as [|[m s] l Hl IH Hf]; [done|].
  destruct (decide (s < count)%N) as [Hs|Hs].
  - rewrite filter_cons_True by done. cbn [length take]. by rewrite <- IH.
  - rewrite filter_cons_False by done.
    destruct (filter _ l) as [|[m' s'] l'] eqn:E; [done|].
    assert ((m', s') ∈ filter (fun '(_, s) => (s < count)%N) l) as Hin by (rewrite E; set_solver).
    apply list_elem_of_filter in Hin as [Hlt Hin]. rewrite Forall_forall in Hf.
    specialize (Hf _ Hin). unfold score_le in Hf. simpl in Hf. lia.
Qed.

Lemma below_prefix count z : below count z = take (length (below count z)) (zrange z).
Proof. apply filter_below_sorted, zrange_sorted. Qed.

Lemma take_take_le {A} (l : list A) n m : n <= m -> take n (take m l) = take n l.
Proof. intros. rewrite take_take. by f_equal; lia. Qed.

(** A slice of ranks that stays below [count] is a slice of [below]. *)
Lemma zrange_slice_below count z start k :
  (0 < k)%N -> N.to_nat start + N.to_nat k <= length (below count z) ->
  zrange_slice z start (start + k - 1) = take (N.to_nat k) (drop (N.to_nat start) (below count z)).
Proof.
  intros Hk Hle. unfold zrange_slice.
  replace (start + k - 1 + 1 - start)%N with k by lia.
  rewrite !take_drop_commute, (below_prefix count z) by done.
  by rewrite take_take_le by done.
Qed.

Definition page_window {A} (el : list A) (first tak : nat) : list A :=
  take tak (drop first el ++ el).

Lemma page_window_lookup {A} (el : list A) first tak j :
  first < length el -> tak <= length el -> j < tak ->
  page_window el first tak !! j = el !! ((first + j) mod length el).
Proof.
  intros Hf Ht Hj. unfold page_window. rewrite lookup_take_lt by done.
  destruct (decide (first + j < length el)).
  - rewrite lookup_app_l by (rewrite length_drop; lia).
    by rewrite lookup_drop, Nat.mod_small.
  - rewrite lookup_app_r by (rewrite length_drop; lia). rewrite length_drop.
    rewrite <- (Nat.mod_unique (first + j) (length el) 1 (first + j - length el)) by lia.
    f_equal. lia.
Qed.

Lemma page_window_elem {A} (el : list A) first tak x :
  x ∈ page_window el first tak -> x ∈ el.
Proof.
  unfold page_window. intros [i [Hx _]]%elem_of_take. apply list_elem_of_lookup_2 in Hx.
  apply elem_of_app in Hx as [Hx|Hx]; [|done].
  apply list_elem_of_lookup in Hx as [k Hk]. rewrite lookup_drop in Hk.
  by apply list_elem_of_lookup_2 in Hk.
Qed.

Lemma page_script_window count offset limit z :
  below count z <> [] ->
  let n := length (below count z) in
  let first := N.to_nat offset mod n in
  let tak := Nat.min (N.to_nat limit) n in
  (0 < limit)%N ->
  page_script count offset limit z =
    (page_window (below count z) first tak, N.of_nat ((first + tak) mod n)).
Proof.
  intros Hne n first tak Hlim.
  assert (0 < n) as Hn by (subst n; destruct (below count z); [done|simpl; lia]).
  unfold page_script. fold (below count z). change (length (below count z)) with n.
  destruct (N.eqb_spec (N.of_nat n) 0); [lia|].
  set (N1 := N.of_nat n) in *.
  assert (N.to_nat (offset mod N1) = first) as Hfirst
    by (subst first N1; rewrite N2Nat.inj_mod, Nat2N.id; done).
  assert (N.min limit N1 = N.of_nat tak) as -> by lia.
  assert (first < n) as Hlt by (apply Nat.mod_upper_bound; lia).
  set (f := (offset mod N1)%N) in *.
  set (h := N.min (N.of_nat tak) (N1 - f)).
  assert (tak <= n) by lia. assert (0 < tak) by lia.
  f_equal.
  - rewrite (zrange_slice_below count) by lia. rewrite Hfirst. unfold page_window.
    rewrite take_app, length_drop. fold n.
    destruct (N.ltb_spec h (N.of_nat tak)).
    + replace (N.of_nat tak - h - 1)%N with (0 + (N.of_nat tak - h) - 1)%N by lia.
      rewrite (zrange_slice_below count) by lia.
      change (N.to_nat 0) with 0. rewrite drop_0.
      rewrite (take_ge (drop first _) tak), (take_ge (drop first _) (N.to_nat h))
        by (rewrite length_drop; fold n; lia).
      do 2 f_equal. lia.
    + replace (tak - (n - first)) with 0 by lia. rewrite take_0, app_nil_r. f_equal. lia.
  - apply N2Nat.inj. rewrite N2Nat.inj_mod, N2Nat.inj_add, !Nat2N.id, Hfirst.
    subst N1. by rewrite Nat2N.id.
Qed.

(** Following the returned cursor [k] times while nothing changes. *)
Fixpoint sweep (count limit : N) (z : gmap string N) (k : nat) (offset : N) : list (string * N) :=
  match k with
  | O => []
  | S k' =>
      let '(rows, next) := page_script count offset limit z in
      rows ++ sweep count limit z k' next
  end.

Lemma sweep_lookup count limit z k offset j :
  let n := length (below count z) in
  let tak := Nat.min (N.to_nat limit) n in
  below count z <> [] -> (0 < limit)%N -> j < k * tak ->
  sweep count limit z k offset !! j = below count z !! ((N.to_nat offset + j) mod n).
Proof.
  intros n tak Hne Hlim. revert offset j.
  assert (0 < n) as Hn by (subst n; destruct (below count z); [done|simpl; lia]).
  induction k as [|k IH]; intros offset j Hj; [lia|]. simpl.
  rewrite page_script_window by done. fold n. fold tak.
  assert (N.to_nat offset mod n < n) as Hf by (apply Nat.mod_upper_bound; lia).
  assert (length (page_window (below count z) (N.to_nat offset mod n) tak) = tak) as Hlen.
  { unfold page_window. rewrite length_take, length_app, length_drop. fold n. lia. }
  destruct (decide (j < tak)).
  - rewrite lookup_app_l by (rewrite Hlen; done).
    rewrite page_window_lookup by (fold n; lia). fold n.
    by rewrite Nat.add_mod_idemp_l by lia.
  - rewrite lookup_app_r by (rewrite Hlen; lia). rewrite Hlen, IH by lia.
    rewrite Nat2N.id. rewrite Nat.add_mod_idemp_l by lia.
    rewrite <- Nat.add_assoc, Nat.add_mod_idemp_l by lia. do 2 f_equal. lia.
Qed.

(** Enough pages visit every entry below [count]. *)
Lemma sweep_complete count limit z k offset m s :
  (0 < limit)%N -> z !! m = Some s -> (s < count)%N ->
  length (below count z) <= k * Nat.min (N.to_nat limit) (length (below count z)) ->
  (m, s) ∈ sweep count limit z k offset.
Proof.
  intros Hlim Hm Hs Hk. assert ((m, s) ∈ below count z) as Hin by (by apply elem_of_below).
  apply list_elem_of_lookup in Hin as [i Hi]. pose proof (lookup_lt_Some _ _ _ Hi) as Hlt.
  set (n := length (below count z)) in *.
  assert (below count z <> []) as Hne by (by intros E; rewrite E in Hi).
  set (j := (i + (n - N.to_nat offset mod n)) mod n).
  assert (N.to_nat offset mod n < n) by (apply Nat.mod_upper_bound; lia).
  assert (j < n) as Hj by (apply Nat.mod_upper_bound; lia).
  apply (list_elem_of_lookup_2 _ j). rewrite sweep_lookup by (done || fold n; lia). fold n.
  replace ((N.to_nat offset + j) mod n) with i; [done|]. subst j.
  rewrite Nat.add_mod_idemp_r by lia.
  rewrite <- (Nat.add_mod_idemp_l (N.to_nat offset)) by lia.
  replace (N.to_nat offset mod n + (i + (n - N.to_nat offset mod n))) with (i + 1 * n) by lia.
  by rewrite Nat.Div0.mod_add, Nat.mod_small.
Qed.

Section Page.
Context (ks : EoaExecutorStoreKeys).

Lemma run_alone_page count offset limit σ :
  (0 < count)%N -> (0 < limit)%N ->
  run_alone (get_submitted_transaction_page ks count offset limit) σ =
    let '(rows, next) := page_script count (if (offset <=? 2 ^ 53 - 1)%N then offset else 0%N)
          (N.min limit 4096) (zset σ (submitted_transactions_zset_name ks)) in
    (Ok (from_redis_strings rows, next), σ).
Proof.
  intros Hc Hl. unfold get_submitted_transaction_page.
  destruct (N.eqb_spec count 0); [lia|]. destruct (N.eqb_spec limit 0); [lia|]. cbn [orb].
  unfold read. cbn [bind]. rewrite run_alone_read. cbn [lift_redis bind].
  by destruct (page_script _ _ _ _).
Qed.

Lemma from_redis_string_nonce tx d : from_redis_string tx = Some d -> sd_nonce d = tx.2.
Proof.
  unfold from_redis_string. intros Hd. repeat (case_match; try done).
  all: repeat match type of Hd with context [parse_u64 ?x] =>
    destruct (parse_u64 x); [|done]; cbn in Hd end; by simplify_eq.
Qed.

Lemma length_omap_le {A B} (f : A -> option B) l : length (omap f l) <= length l.
Proof. induction l as [|x l IH]; [done|]. cbn. destruct (f x); simpl; lia. Qed.

(** What the confirmation flow sees when it follows the cursor through [k] pages. *)
Fixpoint page_cycle (count limit : N) (σ : redis) (k : nat) (offset : N)
    : store_result (list SubmittedTransactionDehydrated) :=
  match k with
  | O => Ok []
  | S k' =>
      let? (rows, next) := (run_alone (get_submitted_transaction_page ks count offset limit) σ).1 in
      let? rest := page_cycle count limit σ k' next in
      Ok (rows ++ rest)
  end.

Lemma page_script_next count offset limit z :
  (page_script count offset limit z).2 = 0%N \/
  ((page_script count offset limit z).2 < N.of_nat (length (below count z)))%N.
Proof.
  unfold page_script. fold (below count z).
  destruct (N.eqb_spec (N.of_nat (length (below count z))) 0); [by left|right].
  cbn [snd]. by apply N.mod_lt.
Qed.

Lemma page_cycle_sweep count limit σ k offset :
  let z := zset σ (submitted_transactions_zset_name ks) in
  (0 < count)%N -> (0 < limit)%N -> (N.of_nat (length (below count z)) <= 2 ^ 53)%N ->
  page_cycle count limit σ k offset =
    Ok (from_redis_strings (sweep count (N.min limit 4096) z k
          (if (offset <=? 2 ^ 53 - 1)%N then offset else 0%N))).
Proof.
  intros z Hc Hl Hsz. revert offset. induction k as [|k IH]; intros offset; [done|].
  cbn [page_cycle sweep]. rewrite run_alone_page by done. fold z.
  set (o := if (offset <=? _)%N then _ else _).
  pose proof (page_script_next count o (N.min limit 4096) z) as Hnext.
  destruct (page_script count o (N.min limit 4096) z) as [rows next]. cbn [fst snd] in *.
  rewrite IH, from_redis_strings_app.
  replace (next <=? 2 ^ 53 - 1)%N with true; [done|]. symmetry. apply N.leb_le.
  revert Hsz. generalize (2 ^ 53)%N. intros. lia.
Qed.
End Page.

(** ** Budget *)

Lemma available_budget_bounds max_inflight optimistic last submitted borrowed :
  let b := available_budget max_inflight optimistic last submitted borrowed in
  (b <= max_inflight)%N /\
  ((0 < b)%N -> (optimistic - last + b <= max_inflight)%N /\
                (submitted + borrowed + b <= MAX_UNFINALIZED_ATTEMPTS)%N).
Proof.
  intros b. subst b. unfold available_budget, saturating_sub, u64_saturating_add.
  assert (MAX_UNFINALIZED_ATTEMPTS < U64_MAX)%N by done. lia.
Qed.

(** ** Admission *)

Section Admission.
Context (ks : EoaExecutorStoreKeys).

Lemma data_pending_ne id : transaction_data_key_name ks id <> pending_transactions_zset_name ks.
Proof. apply (key_name_ne ks (KData id) KPending). done. Qed.

Lemma exists_key_false_hash σ k : exists_key σ k = false -> hash σ k = ∅.
Proof. unfold exists_key. intros. b2p. done. Qed.

(** Effect of one admission on the two keys it names; every other key is untouched. *)
Lemma admission_script_effect id json now σ :
  let data := transaction_data_key_name ks id in
  let pending := pending_transactions_zset_name ks in
  let '(σ', out) := admission_script ks id json now σ in
  match out with
  | AdmissionNew =>
      hash σ data = ∅ /\ (N.of_nat (size (zset σ pending)) < MAX_PENDING_TRANSACTIONS)%N /\
      hash σ' data = <["created_at" := u64_to_string now]>
        (<["status" := "pending"]> {["user_request" := json]}) /\
      zset σ' pending = <[id := now]> (zset σ pending) /\
      (∀ k, k <> data -> k <> pending -> same_at k σ σ')
  | AdmissionRepeat => σ' = σ /\ hash σ data !! "user_request" = Some json
  | AdmissionConflict => σ' = σ /\ hash σ data !! "user_request" <> Some json
  | AdmissionFull => σ' = σ /\ (MAX_PENDING_TRANSACTIONS <= N.of_nat (size (zset σ pending)))%N
  end.
Proof.
  intros data pending. unfold admission_script. fold data pending.
  destruct (hash σ data !! "user_request") as [ex|] eqn:Hu.
  { case_decide; naive_solver. }
  destruct (exists_key σ data) eqn:Hex; [done|].
  destruct (N.leb_spec MAX_PENDING_TRANSACTIONS (N.of_nat (size (zset σ pending)))); [done|].
  apply exists_key_false_hash in Hex.
  pose proof (data_pending_ne id) as Hne. fold data pending in Hne.
  split_and!; [done|done| | |].
  - unfold prun. cbn [foldl]. rewrite !hash_wrun, !decide_True by done. by rewrite Hex.
  - unfold prun. cbn [foldl]. rewrite !zset_wrun, decide_True by done. done.
  - intros k H1 H2. apply prun_frame. cbn. rewrite !not_elem_of_cons. set_solver.
Qed.

(** Any number of admissions, by any clients, one after the other. *)
Record admission_call := mkAdmission { ac_id : string; ac_json : string; ac_now : N }.
Definition run_admissions (l : list admission_call) (σ : redis) : redis :=
  foldl (fun σ a => (admission_script ks (ac_id a) (ac_json a) (ac_now a) σ).1) σ l.

Definition retained (id json : string) (σ : redis) : Prop :=
  hash σ (transaction_data_key_name ks id) !! "user_request" = Some json.

Lemma admission_step_retained id json a σ :
  retained id json σ ->
  let σ' := (admission_script ks (ac_id a) (ac_json a) (ac_now a) σ).1 in
  hash σ' (transaction_data_key_name ks id) = hash σ (transaction_data_key_name ks id) /\
  zset σ' (pending_transactions_zset_name ks) !! id =
    zset σ (pending_transactions_zset_name ks) !! id.
Proof.
  intros Hr. pose proof (admission_script_effect (ac_id a) (ac_json a) (ac_now a) σ) as He.
  cbv zeta in He. destruct (admission_script _ _ _ _ _) as [σ' []]; simpl in *;
    try (by destruct He as [-> _]).
  destruct He as (Hempty & _ & _ & Hp & Hf).
  assert (ac_id a <> id) as Hne.
  { intros Heq. rewrite Heq in Hempty. unfold retained in Hr. by rewrite Hempty in Hr. }
  split.
  - symmetry. apply (sa_hash _ _ _). apply Hf.
    + apply (key_name_ne ks (KData id) (KData (ac_id a))). by intros [= ?].
    + apply data_pending_ne.
  - by rewrite Hp, lookup_insert_ne.
Qed.

Lemma run_admissions_retained id json l σ :
  retained id json σ ->
  hash (run_admissions l σ) (transaction_data_key_name ks id) =
    hash σ (transaction_data_key_name ks id) /\
  zset (run_admissions l σ) (pending_transactions_zset_name ks) !! id =
    zset σ (pending_transactions_zset_name ks) !! id.
Proof.
  revert σ. induction l as [|a l IH]; intros σ Hr; [done|].
  destruct (admission_step_retained id json a σ Hr) as [Hh Hz].
  destruct (IH (admission_script ks (ac_id a) (ac_json a) (ac_now a) σ).1) as [Hh' Hz'].
  { unfold retained. by rewrite Hh. }
  rewrite Hh in Hh'. rewrite Hz in Hz'. done.
Qed.

Lemma admission_step_capacity a σ :
  let size_pending σ := N.of_nat (size (zset σ (pending_transactions_zset_name ks))) in
  (size_pending σ <= MAX_PENDING_TRANSACTIONS)%N ->
  (size_pending (admission_script ks (ac_id a) (ac_json a) (ac_now a) σ).1
     <= MAX_PENDING_TRANSACTIONS)%N.
Proof.
  intros sp Hle. pose proof (admission_script_effect (ac_id a) (ac_json a) (ac_now a) σ) as He.
  cbv zeta in He. destruct (admission_script _ _ _ _ _) as [σ' []]; simpl in *;
    try (by destruct He as [-> _]).
  destruct He as (_ & Hlt & _ & Hp & _). subst sp. cbv beta. rewrite Hp.
  destruct (zset σ (pending_transactions_zset_name ks) !! ac_id a) eqn:Hl.
  - rewrite map_size_insert_Some by done. lia.
  - rewrite map_size_insert_None by done. lia.
Qed.
End Admission.

(** ** Claims *)

Section Claims.
Context `{Carried} `{!Json EoaTransactionRequest}.
Context (ks : EoaExecutorStoreKeys).

(** A confirmation page never changes the store, returns at most [limit] and at
    most 4096 records, all with a nonce below the observed transaction count, and its
    next cursor is a rank of the eligible range. *)
Theorem submitted_page_bounded count offset limit σ :
  ∃ rows next,
    run_alone (get_submitted_transaction_page ks count offset limit) σ = (Ok (rows, next), σ) /\
    (N.of_nat (length rows) <= N.min limit 4096)%N /\
    (∀ tx, tx ∈ rows -> (sd_nonce tx < count)%N) /\
    (next = 0 \/ next < N.of_nat (length (below count
        (zset σ (submitted_transactions_zset_name ks)))))%N.
Proof.
  destruct (decide (count = 0 \/ limit = 0)%N) as [Hz|Hz].
  { exists [], 0%N. unfold get_submitted_transaction_page.
    replace ((count =? 0) || (limit =? 0))%N with true
      by (symmetry; apply orb_true_iff; rewrite !N.eqb_eq; done).
    split_and!; [done|simpl; lia|by intros tx ?%elem_of_nil|by left]. }
  rewrite run_alone_page by lia. set (z := zset σ (submitted_transactions_zset_name ks)). set (o := if (offset <=? _)%N then _ else _).
  pose proof (page_script_next count o (N.min limit 4096) z) as Hnext.
  destruct (decide (below count z = [])) as [He|He].
  { exists [], 0%N. unfold page_script. fold (below count z). rewrite He. cbn.
    split_and!; [done|lia|by intros tx ?%elem_of_nil|by left]. }
  rewrite page_script_window in * by (done || lia). cbn [snd] in Hnext.
  eexists _, _. split; [done|]. split_and!; [| |done].
  - pose proof (length_omap_le from_redis_string
      (page_window (below count z) (N.to_nat o mod length (below count z))
         (Nat.min (N.to_nat (N.min limit 4096)) (length (below count z))))) as Hl.
    unfold page_window in Hl at 2. rewrite length_take in Hl. unfold from_redis_strings. lia.
  - intros tx Htx. apply list_elem_of_omap in Htx as ([m s] & Hin & Hp).
    apply page_window_elem, elem_of_below in Hin as [_ Hs].
    by rewrite (from_redis_string_nonce _ _ Hp).
Qed.

(** Following the cursor is complete: while the store stays as it is, enough pages
    (their total size covers the eligible range) return every parseable record below
    the transaction count, from any cursor. *)
Theorem submitted_pages_complete count limit offset k σ :
  let z := zset σ (submitted_transactions_zset_name ks) in
  let n := length (below count z) in
  (0 < count)%N -> (0 < limit)%N -> (N.of_nat n <= 2 ^ 53)%N ->
  n <= k * Nat.min (N.to_nat (N.min limit 4096)) n ->
  ∃ rows, page_cycle ks count limit σ k offset = Ok rows /\
    ∀ m s tx, z !! m = Some s -> (s < count)%N -> from_redis_string (m, s) = Some tx ->
      tx ∈ rows.
Proof.
  intros z n Hc Hl Hsz Hk. eexists. split; [by apply page_cycle_sweep|].
  intros m s tx Hm Hs Hp. apply list_elem_of_omap. exists (m, s). split; [|done].
  apply sweep_complete; [lia|done|done|done].
Qed.

(** The send budget: it never exceeds [max_inflight], and a positive budget leaves
    the in-flight nonce window within [max_inflight] and the retained attempts within
    100,000 even if all of it is used.  A missing counter is an error, not a budget. *)
Theorem inflight_budget_bounds max_inflight σ out :
  (run_alone (get_inflight_budget ks max_inflight) σ).1 = Ok out ->
  ∃ optimistic last,
    as_opt_u64 (str σ (optimistic_transaction_count_key_name ks)) = Ok (Some optimistic) /\
    as_opt_u64 (str σ (last_transaction_count_key_name ks)) = Ok (Some last) /\
    (out <= max_inflight)%N /\
    ((0 < out)%N ->
      (optimistic - last + out <= max_inflight)%N /\
      (N.of_nat (size (zset σ (submitted_transactions_zset_name ks))) +
       N.of_nat (size (hash σ (borrowed_transactions_hashmap_name ks))) + out
         <= MAX_UNFINALIZED_ATTEMPTS)%N).
Proof.
  unfold get_inflight_budget, get_u64, zcard, hlen, read. cbn [bind].
  rewrite run_alone_read.
  destruct (as_opt_u64 (str σ (optimistic_transaction_count_key_name ks))) as [o|]; [|done].
  cbn [lift_redis bind]. rewrite run_alone_read.
  destruct (as_opt_u64 (str σ (last_transaction_count_key_name ks))) as [l|]; [|done].
  cbn [lift_redis bind]. do 2 (rewrite run_alone_read; cbn [lift_redis bind]).
  rewrite run_alone_ret. destruct o as [o|]; [|done]. destruct l as [l|]; [|done]. cbn.
  intros [= <-]. exists o, l. split_and!; [done|done|apply available_budget_bounds..].
Qed.

(** An Ok answer, whatever the other clients did, means the stored request is ours. *)
Lemma add_transaction_Ok rq json sch c σ sch1 c1 σ1 :
  to_json rq = Some json ->
  run (add_transaction ks rq) sch c σ = (Ok tt, (sch1, c1, σ1)) ->
  retained ks (rq_transaction_id rq) json σ1.
Proof.
  intros Hj. unfold add_transaction. rewrite Hj. unfold atomically. cbn [run].
  destruct (next_slot sch) as [sl sch'] . cbn [run bind].
  destruct (next_slot sch') as [sl2 sch2]. set (τ := run_steps (sl_steps sl2) _).
  pose proof (admission_script_effect ks (rq_transaction_id rq) json (sl_now sl) τ) as He.
  cbv zeta in He. unfold retained.
  destruct (sl_fault sl2) as [[]|]; cbn; [by destruct (next_slot sch2)..|].
  destruct (admission_script _ _ _ _ _) as [τ' out]. cbn.
  destruct (next_slot sch2). destruct out; intros [= <- <- <-].
  - by destruct He as [-> ?].
  - destruct He as (_ & _ & -> & _). done.
Qed.

Lemma add_transaction_repeat rq json sch c σ :
  to_json rq = Some json -> retained ks (rq_transaction_id rq) json σ -> quiet sch ->
  ∃ sch' c', run (add_transaction ks rq) sch c σ = (Ok tt, (sch', c', σ)).
Proof.
  intros Hj Hr Hq. unfold add_transaction. rewrite Hj. unfold atomically. cbn [run].
  destruct (next_slot sch) as [sl sch1] eqn:Hs1.
  destruct (quiet_next _ _ _ Hq Hs1) as (-> & _ & Hq1). cbn [run bind run_steps foldl].
  destruct (next_slot sch1) as [sl2 sch2] eqn:Hs2.
  destruct (quiet_next _ _ _ Hq1 Hs2) as (-> & -> & Hq2). cbn [run_steps foldl with_fault].
  unfold admission_script. unfold retained in Hr. rewrite Hr, decide_True by done.
  cbn [lift_redis bind]. rewrite run_ret. eauto.
Qed.

(** Admission is immutable and happens once.  When [add_transaction] answered Ok,
    under any interference, the stored request is the caller's, and after any further
    admissions by anybody the record and the pending entry of that id are unchanged
    and a retry of the same request answers Ok and changes nothing. *)
Theorem admission_once rq json sch c σ sch1 c1 σ1 calls :
  to_json rq = Some json ->
  run (add_transaction ks rq) sch c σ = (Ok tt, (sch1, c1, σ1)) ->
  let id := rq_transaction_id rq in
  let σ2 := run_admissions ks calls σ1 in
  hash σ1 (transaction_data_key_name ks id) !! "user_request" = Some json /\
  hash σ2 (transaction_data_key_name ks id) = hash σ1 (transaction_data_key_name ks id) /\
  zset σ2 (pending_transactions_zset_name ks) !! id =
    zset σ1 (pending_transactions_zset_name ks) !! id /\
  ∀ sch2 c2, quiet sch2 ->
    ∃ sch3 c3, run (add_transaction ks rq) sch2 c2 σ2 = (Ok tt, (sch3, c3, σ2)).
Proof.
  intros Hj Hrun id σ2. pose proof (add_transaction_Ok _ _ _ _ _ _ _ _ Hj Hrun) as Hr.
  destruct (run_admissions_retained ks id json calls σ1 Hr) as [Hh Hz].
  fold σ2 in Hh, Hz. split_and!; [done|done|done|].
  intros sch2 c2. apply (add_transaction_repeat rq json); [done|].
  unfold retained. fold id. by rewrite Hh.
Qed.

(** No sequence of admissions takes the pending queue over its capacity. *)
Theorem admission_capacity calls σ :
  let pending σ := N.of_nat (size (zset σ (pending_transactions_zset_name ks))) in
  (pending σ <= MAX_PENDING_TRANSACTIONS)%N ->
  (pending (run_admissions ks calls σ) <= MAX_PENDING_TRANSACTIONS)%N.
Proof.
  intros pending Hle. unfold run_admissions.
  apply (foldl_invariant (fun σ => (pending σ <= MAX_PENDING_TRANSACTIONS)%N)); [done|].
  intros σ' a _ Hσ'. by apply admission_step_capacity.
Qed.
End Claims.
