(* ===== verification/EoaPending.v ===== *)
(** Allocation of nonces to pending transactions
    (executors/src/eoa/store/pending.rs). *)

From Stdlib Require Import String Ascii NArith Lia.
From stdpp Require Import base gmap strings list fin_maps sorting.
From S2P Require Import Prelude Redis RedisProg Json QueueTypes Webhook EoaTypes EoaKeys EoaAtomic.
From S2P Require Import EoaStore.

Section Pending.
Context `{Carried} `{!Json BorrowedTransactionData}.
Context (ks : EoaExecutorStoreKeys).
Context (transactions : list BorrowedTransactionData).

Definition empty_list_error : TransactionStoreError :=
  InternalError "Cannot process empty transaction list".
Definition unique_allocations_error : TransactionStoreError :=
  InternalError "A nonce allocation batch must contain unique transaction IDs and nonces".
Definition nonce_range_overflow : TransactionStoreError := InternalError "Nonce range overflow".
Definition non_sequential_error (expected_nonce nonce : N) (i : nat) : TransactionStoreError :=
  InternalError ("Non-sequential nonces detected: expected " +:+ u64_to_string expected_nonce
    +:+ ", found " +:+ u64_to_string nonce +:+ " at position " +:+ u64_to_string (N.of_nat i)).
Definition serialize_error : TransactionStoreError :=
  InternalError "Failed to serialize borrowed transaction".

(** [validate_unique_allocations] with the two sets it fills. *)
Fixpoint unique_allocations (nonces : list N) (ids : list string)
    (txs : list BorrowedTransactionData) : store_result unit :=
  match txs with
  | [] => Ok tt
  | tx :: txs' =>
      if decide (bd_nonce tx ∈ nonces) then Err unique_allocations_error
      else if decide (bd_transaction_id tx ∈ ids) then Err unique_allocations_error
      else unique_allocations (bd_nonce tx :: nonces) (bd_transaction_id tx :: ids) txs'
  end.
Definition validate_unique_allocations (txs : list BorrowedTransactionData) : store_result unit :=
  unique_allocations [] [] txs.

(** The loop over the sorted nonces. *)
Fixpoint check_sequential (current : N) (i : nat) (nonces : list N) : store_result unit :=
  match nonces with
  | [] => Ok tt
  | nonce :: rest =>
      let? expected_nonce := ok_or nonce_range_overflow (u64_checked_add current (N.of_nat i)) in
      if (nonce =? expected_nonce)%N then check_sequential current (S i) rest
      else Err (non_sequential_error expected_nonce nonce i)
  end.

Definition sequential_nonces (current : N) (txs : list BorrowedTransactionData)
    : store_result unit :=
  let nonces := merge_sort N.le (map bd_nonce txs) in
  let? _ := check_sequential current 0 nonces in
  if decide (last nonces = Some U64_MAX) then Err nonce_range_overflow else Ok tt.

(** The batched ZSCORE of each id, and the first id without a score. *)
Definition zscore_pending (id : string) (σ : redis) : result redis_error (option N) :=
  Ok (zset σ (pending_transactions_zset_name ks) !! id).
Fixpoint first_missing (l : list (string * option N)) : store_result unit :=
  match l with
  | [] => Ok tt
  | (id, None) :: _ => Err (TransactionNotInPendingQueue id)
  | (_, Some _) :: l' => first_missing l'
  end.
Definition check_pending (ids : list string) : prog (store_result unit) :=
  let! scores := read_all (map zscore_pending ids) in
  Ret (first_missing (zip ids scores)).

Definition serialize_borrowed (tx : BorrowedTransactionData) : store_result string :=
  ok_or serialize_error (to_json tx).

(** ** Incremented nonces *)

Definition incremented_validation (now : N) : prog (store_result (list string)) :=
  if decide (transactions = []) then Ret (Err empty_list_error)
  else
    let! _ := Ret (validate_unique_allocations transactions) in
    let! current_optimistic := get_u64 (optimistic_transaction_count_key_name ks) in
    let! current_optimistic_nonce := Ret (nonce_sync_required ks current_optimistic) in
    let! _ := Ret (sequential_nonces current_optimistic_nonce transactions) in
    let! _ := check_pending (map bd_transaction_id transactions) in
    Ret (collect_results serialize_borrowed transactions).

Definition move_to_borrowed_cmds (tx_json : BorrowedTransactionData * string) : pipeline :=
  let '(tx, borrowed_json) := tx_json in
  [ ZREM (pending_transactions_zset_name ks) [bd_transaction_id tx];
    HSET (borrowed_transactions_hashmap_name ks) (bd_transaction_id tx) borrowed_json ].

Definition incremented_operation (now : N) (serialized_transactions : list string)
    : pipeline * (nat * option N) :=
  let new_optimistic_tx_count :=
    (fun nonce => nonce + 1)%N <$> list_max (map bd_nonce transactions) in
  ((zip transactions serialized_transactions ≫= move_to_borrowed_cmds) ++
   match new_optimistic_tx_count with
   | Some c => [ SET (optimistic_transaction_count_key_name ks) (u64_to_string c) ]
   | None => []
   end,
   (length transactions, new_optimistic_tx_count)).

Definition MovePendingToBorrowedWithIncrementedNonces
    : SafeRedisTransaction (list string) (nat * option N) :=
  mkSafeTx "pending->borrowed with incremented nonces"
    [ optimistic_transaction_count_key_name ks; borrowed_transactions_hashmap_name ks;
      pending_transactions_zset_name ks ]
    incremented_validation incremented_operation.

(** ** Recycled nonces *)

Fixpoint check_recycled (recycled : list N) (txs : list BorrowedTransactionData)
    : store_result unit :=
  match txs with
  | [] => Ok tt
  | tx :: txs' =>
      if decide (bd_nonce tx ∈ recycled) then check_recycled recycled txs'
      else Err (NonceNotInRecycledSet (bd_nonce tx))
  end.

Definition recycled_validation (now : N) : prog (store_result (list string)) :=
  if decide (transactions = []) then Ret (Err empty_list_error)
  else
    let! _ := Ret (validate_unique_allocations transactions) in
    let! recycled_nonces := get_recycled_nonces ks in
    let! _ := Ret (check_recycled recycled_nonces transactions) in
    let! _ := check_pending (map bd_transaction_id transactions) in
    Ret (collect_results serialize_borrowed transactions).

Definition recycled_cmds (tx_json : BorrowedTransactionData * string) : pipeline :=
  ZREM (recycled_nonces_zset_name ks) [u64_to_string (bd_nonce tx_json.1)]
  :: move_to_borrowed_cmds tx_json.

Definition recycled_operation (now : N) (serialized_transactions : list string)
    : pipeline * nat :=
  (zip transactions serialized_transactions ≫= recycled_cmds, length transactions).

Definition MovePendingToBorrowedWithRecycledNonces : SafeRedisTransaction (list string) nat :=
  mkSafeTx "pending->borrowed with recycled nonces"
    [ recycled_nonces_zset_name ks; borrowed_transactions_hashmap_name ks;
      pending_transactions_zset_name ks ]
    recycled_validation recycled_operation.
End Pending.

Section Moves.
Context `{Carried} `{!Json BorrowedTransactionData}.
Context (ks : EoaExecutorStoreKeys) (worker_id : string).

Definition atomic_move_pending_to_borrowed_with_incremented_nonces
    (transactions : list BorrowedTransactionData) : prog (store_result nat) :=
  let! (moved_count, new_optimistic_tx_count) :=
    execute_with_watch_and_retry ks worker_id
      (MovePendingToBorrowedWithIncrementedNonces ks transactions) in
  Ret (Ok moved_count).

Definition atomic_move_pending_to_borrowed_with_recycled_nonces
    (transactions : list BorrowedTransactionData) : prog (store_result nat) :=
  execute_with_watch_and_retry ks worker_id
    (MovePendingToBorrowedWithRecycledNonces ks transactions).
End Moves.

(** ** What the validations establish *)

Section Facts.
Context `{Carried} `{!Json BorrowedTransactionData}.
Context (ks : EoaExecutorStoreKeys).

Lemma unique_allocations_Ok ns ids txs :
  unique_allocations ns ids txs = Ok tt ->
  NoDup (map bd_nonce txs) /\ NoDup (map bd_transaction_id txs) /\
  (∀ tx, tx ∈ txs -> bd_nonce tx ∉ ns /\ bd_transaction_id tx ∉ ids).
Proof.
  revert ns ids. induction txs as [|tx txs IH]; intros ns ids; simpl.
  { intros _. split_and!; [constructor|constructor|by intros ? ?%elem_of_nil]. }
  case_decide; [done|]. case_decide; [done|]. intros (Hn & Hi & Hf)%IH.
  split_and!; [constructor; [|done]..|].
  - intros (tx' & Heq & Htx')%list_elem_of_fmap. destruct (Hf _ Htx'). set_solver.
  - intros (tx' & Heq & Htx')%list_elem_of_fmap. destruct (Hf _ Htx'). set_solver.
  - intros tx' [->|Htx']%elem_of_cons; [done|]. destruct (Hf _ Htx'). set_solver.
Qed.

Lemma check_sequential_Ok cur i nonces :
  check_sequential cur i nonces = Ok tt ->
  nonces = map (fun j => cur + N.of_nat j)%N (seq i (length nonces)) /\
  Forall is_u64 nonces.
Proof.
  revert i. induction nonces as [|n nonces IH]; intros i; simpl; [done|].
  unfold u64_checked_add. destruct (N.leb_spec (cur + N.of_nat i) U64_MAX); [|done]. simpl.
  destruct (N.eqb_spec n (cur + N.of_nat i)) as [->|]; [|done].
  intros [Hseq Hf]%IH. split; [f_equal; done|]. by constructor.
Qed.

(** The allocated nonces are exactly the next ones, and none is the last u64. *)
Lemma sequential_nonces_Ok cur txs :
  sequential_nonces cur txs = Ok tt ->
  map bd_nonce txs ≡ₚ map (fun j => cur + N.of_nat j)%N (seq 0 (length txs)) /\
  (txs <> [] -> cur + N.of_nat (length txs) <= U64_MAX)%N.
Proof.
  unfold sequential_nonces. set (nonces := merge_sort N.le (map bd_nonce txs)).
  assert (nonces ≡ₚ map bd_nonce txs) as Hperm by apply merge_sort_Permutation.
  assert (length nonces = length txs) as Hlen by (rewrite Hperm; apply length_map).
  destruct (check_sequential cur 0 nonces) as [[]|e] eqn:Hc; [|done].
  apply check_sequential_Ok in Hc as [Hseq Hu]. rewrite Hlen in Hseq.
  case_decide as Hlast; [done|]. intros _. split; [by rewrite <- Hperm, <- Hseq|].
  intros Hne. destruct txs as [|tx txs]; [done|]. clear Hne. set (k := length txs).
  assert (nonces !! k = Some (cur + N.of_nat k)%N) as Hk.
  { rewrite Hseq. rewrite list_lookup_fmap, lookup_seq_lt; [done|simpl; lia]. }
  assert (last nonces = Some (cur + N.of_nat k)%N) as Hl.
  { rewrite last_lookup, Hlen. simpl. done. }
  rewrite Forall_forall in Hu. pose proof (Hu _ (list_elem_of_lookup_2 _ _ _ Hk)) as Hb.
  unfold is_u64 in Hb. assert (cur + N.of_nat k <> U64_MAX)%N by congruence. simpl. fold k. lia.
Qed.

Lemma list_max_seq cur k :
  list_max (map (fun j => cur + N.of_nat j)%N (seq 0 (S k))) = Some (cur + N.of_nat k)%N.
Proof.
  destruct (list_max _) as [m|] eqn:E.
  - assert (cur + N.of_nat k <= m)%N.
    { eapply list_max_ge; [done|]. apply list_elem_of_fmap. exists k. split; [done|].
      apply elem_of_seq. lia. }
    apply list_max_elem, list_elem_of_fmap in E as (j & -> & Hj%elem_of_seq). f_equal. lia.
  - by apply list_max_None in E.
Qed.

Lemma list_max_perm l1 l2 : l1 ≡ₚ l2 -> list_max l1 = list_max l2.
Proof.
  intros Hp. destruct (list_max l1) as [m1|] eqn:E1, (list_max l2) as [m2|] eqn:E2.
  - f_equal. apply N.le_antisymm.
    + eapply list_max_ge; [done|]. rewrite <- Hp. by apply list_max_elem.
    + eapply list_max_ge; [done|]. rewrite Hp. by apply list_max_elem.
  - apply list_max_None in E2. subst. apply Permutation_nil_r in Hp. by subst.
  - apply list_max_None in E1. subst. apply Permutation_nil_l in Hp. by subst.
  - done.
Qed.

Lemma first_missing_Ok l : first_missing l = Ok tt <-> ∀ p, p ∈ l -> is_Some p.2.
Proof.
  induction l as [|[id [s|]] l IH]; simpl.
  - split; [by intros _ p ?%elem_of_nil|done].
  - rewrite IH. setoid_rewrite elem_of_cons. naive_solver.
  - split; [done|]. intros Hp. assert (is_Some (A:=N) None) as [? ?]; [|done].
    apply (Hp (id, None)). set_solver.
Qed.

Lemma collect_zscore σ ids :
  collect_results (fun q => q σ) (map (zscore_pending ks) ids)
    = Ok (map (fun id => zset σ (pending_transactions_zset_name ks) !! id) ids).
Proof. induction ids as [|id ids IH]; simpl; [done|]. by rewrite IH. Qed.

(** Alone, the batched membership check answers for the current queue. *)
Lemma run_check_pending ids σ :
  (run_alone (check_pending ks ids) σ).1 =
    first_missing (map (fun id => (id, zset σ (pending_transactions_zset_name ks) !! id)) ids).
Proof.
  unfold run_alone, check_pending. rewrite run_bind, run_read_all_alone, collect_zscore.
  cbn [lift_redis]. rewrite run_ret. f_equal. by rewrite zip_with_fmap_r, zip_with_diag.
Qed.

Lemma check_pending_Ok ids σ :
  (run_alone (check_pending ks ids) σ).1 = Ok tt <->
  ∀ id, id ∈ ids -> is_Some (zset σ (pending_transactions_zset_name ks) !! id).
Proof.
  rewrite run_check_pending, first_missing_Ok. split.
  - intros Hp id Hid. apply (Hp (id, _)). apply list_elem_of_fmap. eauto.
  - intros Hp p (id & -> & Hid)%list_elem_of_fmap. by apply Hp.
Qed.

Lemma check_recycled_Ok recycled txs :
  check_recycled recycled txs = Ok tt <-> ∀ tx, tx ∈ txs -> bd_nonce tx ∈ recycled.
Proof.
  induction txs as [|tx txs IH]; simpl.
  - split; [by intros _ tx ?%elem_of_nil|done].
  - case_decide.
    + rewrite IH. set_solver.
    + split; [done|]. intros Hall. destruct (Hall tx); set_solver.
Qed.

Lemma serialize_borrowed_Ok txs jsons :
  collect_results serialize_borrowed txs = Ok jsons ->
  Forall2 (fun tx json => to_json tx = Some json) txs jsons.
Proof.
  intros Hc%collect_results_Ok. eapply Forall2_impl; [done|]. intros tx json.
  unfold serialize_borrowed. destruct (to_json tx); simpl; naive_solver.
Qed.
End Facts.
