(* ===== verification/EoaBorrowed.v ===== *)
(** Results of dispatching borrowed transactions
    (executors/src/eoa/store/borrowed.rs). *)

From Stdlib Require Import String Ascii NArith Lia.
From stdpp Require Import base gmap strings list fin_maps.
From S2P Require Import Prelude Redis RedisProg Json QueueTypes Webhook EoaTypes EoaKeys EoaAtomic.
From S2P Require Import EoaStore.

Record BorrowedProcessingReport := mkBorrowedReport {
  br_total_processed : nat;
  br_moved_to_submitted : nat;
  br_retained_uncertain : nat;
  br_moved_to_pending : nat;
  br_failed_transactions : nat;
  br_webhook_events_queued : nat;
  br_ignored_not_in_borrowed : nat
}.
Definition borrowed_report_default : BorrowedProcessingReport := mkBorrowedReport 0 0 0 0 0 0 0.

Section Borrowed.
Context `{Carried} `{!Json (WebhookNotificationEnvelope EoaEventPayload), !Json WebhookJobPayload}.
Context (ks : EoaExecutorStoreKeys) (wq : string).
(** Notification ids: the one drawn for the [j]-th option of the [i]-th result. *)
Context (uuid : nat -> nat -> string).
Context (results : list SubmissionResult).

Definition borrowed_validation (now : N) : prog (store_result (list SubmissionResult)) :=
  let! borrowed_transaction_ids := read (fun σ =>
    Ok (dom (hash σ (borrowed_transactions_hashmap_name ks)))) in
  Ret (Ok (filter (fun result => sr_transaction_id result ∈ borrowed_transaction_ids) results)).

(** Commands and report of one valid result; [i] is its position. *)
Definition process_borrowed_result (now : N) (i : nat) (result : SubmissionResult)
    (report : BorrowedProcessingReport) : pipeline * BorrowedProcessingReport :=
  let transaction_id := sr_transaction_id result in
  let tx := sr_transaction result in
  let '(mkBorrowedReport total submitted uncertain pending failed queued ignored) := report in
  match sr_result result with
  | Uncertain => ([], mkBorrowedReport total submitted (S uncertain) pending failed queued ignored)
  | res =>
      let '(submitted_tx_redis_string, nonce) := to_redis_string_with_nonce (st_data tx) in
      let event := mkEvent transaction_id (rq_from (st_user_request tx)) in
      let options := rq_webhook_options (st_user_request tx) in
      let notify := match res with Success => bool_decide (options <> []) | _ => false end in
      let '(webhooks, queued) :=
        if notify then
          match queue_webhook_envelopes wq
                  (send_attempt_success_envelope event (st_data tx)) options (now / 1000) (uuid i) with
          | (cmds, Err _) => (cmds, queued)
          | (cmds, Ok _) => (cmds, S queued)
          end
        else ([], queued) in
      ([ HDEL (borrowed_transactions_hashmap_name ks) transaction_id;
         ZADD (submitted_transactions_zset_name ks) [(nonce, submitted_tx_redis_string)];
         SET (transaction_hash_to_id_key_name ks (sd_transaction_hash (st_data tx))) transaction_id;
         HSET (transaction_data_key_name ks transaction_id) "status" "submitted" ] ++ webhooks,
       mkBorrowedReport total (S submitted) uncertain pending failed queued ignored)
  end.

Fixpoint process_borrowed_loop (now : N) (i : nat) (valid_results : list SubmissionResult)
    (report : BorrowedProcessingReport) : pipeline * BorrowedProcessingReport :=
  match valid_results with
  | [] => ([], report)
  | result :: rest =>
      let '(cmds, report) := process_borrowed_result now i result report in
      let '(more, report) := process_borrowed_loop now (S i) rest report in
      (cmds ++ more, report)
  end.

Definition borrowed_operation (now : N) (valid_results : list SubmissionResult)
    : pipeline * BorrowedProcessingReport :=
  let '(pipe, report) := process_borrowed_loop now 0 valid_results borrowed_report_default in
  (pipe, mkBorrowedReport (length valid_results) (br_moved_to_submitted report)
           (br_retained_uncertain report) (br_moved_to_pending report)
           (br_failed_transactions report) (br_webhook_events_queued report)
           (length results - length valid_results)).

Definition ProcessBorrowedTransactions
    : SafeRedisTransaction (list SubmissionResult) BorrowedProcessingReport :=
  mkSafeTx "process borrowed transactions"
    [ borrowed_transactions_hashmap_name ks; recycled_nonces_zset_name ks ]
    borrowed_validation borrowed_operation.
End Borrowed.

Definition process_borrowed_transactions `{Carried}
    `{!Json (WebhookNotificationEnvelope EoaEventPayload), !Json WebhookJobPayload}
    (ks : EoaExecutorStoreKeys) (worker_id wq : string) (uuid : nat -> nat -> string)
    (results : list SubmissionResult) : prog (store_result BorrowedProcessingReport) :=
  execute_with_watch_and_retry ks worker_id (ProcessBorrowedTransactions ks wq uuid results).

(** ** The commands of the loop *)

Section Commands.
Context `{Carried} `{!Json (WebhookNotificationEnvelope EoaEventPayload), !Json WebhookJobPayload}.
Context (ks : EoaExecutorStoreKeys) (wq : string) (uuid : nat -> nat -> string).

Definition is_uncertain (result : SubmissionResult) : bool :=
  match sr_result result with Uncertain => true | _ => false end.

Definition settle_cmds (result : SubmissionResult) : pipeline :=
  let tx := sr_transaction result in
  let id := sr_transaction_id result in
  [ HDEL (borrowed_transactions_hashmap_name ks) id;
    ZADD (submitted_transactions_zset_name ks)
      [(sd_nonce (st_data tx), (to_redis_string_with_nonce (st_data tx)).1)];
    SET (transaction_hash_to_id_key_name ks (sd_transaction_hash (st_data tx))) id;
    HSET (transaction_data_key_name ks id) "status" "submitted" ].

Definition webhook_cmds (p : pipeline) : Prop :=
  Forall (fun c => webhook_key wq (wkey c)) p /\ pipe_ok p = true.

Lemma process_borrowed_result_cmds now i result report :
  ∃ webhooks, webhook_cmds webhooks /\
    (process_borrowed_result ks wq uuid now i result report).1 =
      if is_uncertain result then [] else settle_cmds result ++ webhooks.
Proof.
  assert (webhook_cmds []) as Hnil by (split; [constructor|done]).
  unfold process_borrowed_result, is_uncertain, settle_cmds. destruct report.
  destruct (sr_result result) eqn:Hr; [|exists []; simpl; done|by exists []].
  cbn [to_redis_string_with_nonce fst].
  destruct (bool_decide _); [|by exists []].
  match goal with |- context [queue_webhook_envelopes ?a ?b ?c ?d ?e] =>
    pose proof (queue_webhook_envelopes_ok a b c d e) as Hw;
    destruct (queue_webhook_envelopes a b c d e) as [cmds [u|err]] end;
    by exists cmds.
Qed.

(** Every command settles one acknowledged result or queues a webhook. *)
Lemma process_borrowed_loop_cmds now i results report c :
  c ∈ (process_borrowed_loop ks wq uuid now i results report).1 ->
  webhook_key wq (wkey c) \/
  ∃ result, result ∈ results /\ is_uncertain result = false /\ c ∈ settle_cmds result.
Proof.
  revert i report. induction results as [|result results IH]; intros i report; cbn [process_borrowed_loop].
  { by intros ?%elem_of_nil. }
  destruct (process_borrowed_result_cmds now i result report) as (w & [Hw _] & Hc).
  destruct (process_borrowed_result _ _ _ _ _ _ _) as [cmds report1]. cbn [fst] in Hc. subst cmds.
  specialize (IH (S i) report1).
  destruct (process_borrowed_loop _ _ _ _ _ _ _) as [more report2]. cbn [fst] in *.
  rewrite elem_of_app. intros [Hc|Hc].
  - destruct (is_uncertain result) eqn:Hu; [by apply elem_of_nil in Hc|].
    apply elem_of_app in Hc as [Hc|Hc]; [right; exists result; set_solver|].
    left. rewrite Forall_forall in Hw. by apply Hw.
  - destruct (IH Hc) as [?|(r & ? & ?)]; [by left|right]. exists r. set_solver.
Qed.

Lemma process_borrowed_loop_settles now i results report result c :
  result ∈ results -> is_uncertain result = false -> c ∈ settle_cmds result ->
  c ∈ (process_borrowed_loop ks wq uuid now i results report).1.
Proof.
  intros Hin Hu Hc. revert i report. induction results as [|r results IH]; intros i report.
  { by apply elem_of_nil in Hin. }
  cbn [process_borrowed_loop]. destruct (process_borrowed_result_cmds now i r report) as (w & _ & Hcmds).
  destruct (process_borrowed_result _ _ _ _ _ _ _) as [cmds report1]. cbn [fst] in Hcmds. subst cmds.
  apply elem_of_cons in Hin as [<-|Hin].
  - destruct (process_borrowed_loop _ _ _ _ _ _ _) as [more report2]. cbn [fst]. rewrite Hu.
    rewrite !elem_of_app. left. by left.
  - specialize (IH Hin (S i) report1).
    destruct (process_borrowed_loop _ _ _ _ _ _ _) as [more report2]. cbn [fst] in *.
    rewrite elem_of_app. by right.
Qed.

Lemma process_borrowed_loop_ok now i results report :
  pipe_ok (process_borrowed_loop ks wq uuid now i results report).1 = true.
Proof.
  revert i report. induction results as [|result results IH]; intros i report; cbn [process_borrowed_loop]; [done|].
  destruct (process_borrowed_result_cmds now i result report) as (w & [_ Hw] & Hc).
  destruct (process_borrowed_result _ _ _ _ _ _ _) as [cmds report1]. cbn [fst] in Hc. subst cmds.
  specialize (IH (S i) report1).
  destruct (process_borrowed_loop _ _ _ _ _ _ _) as [more report2]. cbn [fst] in *.
  rewrite pipe_ok_app, IH, andb_true_r. destruct (is_uncertain result); [done|].
  by rewrite pipe_ok_app, Hw.
Qed.

Lemma borrowed_operation_pipe results now valid :
  (borrowed_operation ks wq uuid results now valid).1 =
    (process_borrowed_loop ks wq uuid now 0 valid borrowed_report_default).1.
Proof. unfold borrowed_operation. by destruct (process_borrowed_loop _ _ _ _ _ _ _). Qed.
End Commands.
