(* ===== verification/EoaSubmitted.v ===== *)
(** Settlement of submitted transactions (executors/src/eoa/store/submitted.rs):
    finality cleanup and the trimming of recycled nonces. *)

From Stdlib Require Import String Ascii NArith Lia.
From stdpp Require Import base gmap strings list fin_maps sorting.
From S2P Require Import Prelude Redis RedisProg Json FinalityTypes QueueTypes Webhook EoaTypes.
From S2P Require Import EoaKeys EoaAtomic.
From S2P Require Import EoaStore.

Record CleanupReport := mkCleanupReport {
  cr_total_hashes_processed : nat;
  cr_unique_transaction_ids : nat;
  cr_noop_count : nat;
  cr_moved_to_success : nat;
  cr_moved_to_failed : nat;
  cr_moved_to_pending : nat;
  cr_cross_nonce_violations : list (string * list N);
  cr_per_nonce_violations : list (N * list string);
  cr_nonces_without_receipts : list (N * list string)
}.

(** [BTreeSet] and [sort]+[dedup] on nonces: ascending without repetition. *)
Definition sorted_unique (l : list N) : list N := merge_sort N.le (remove_dups l).

Section Clean.
Context `{Carried} `{!Json EoaTransactionRequest}
  `{!Json (WebhookNotificationEnvelope EoaEventPayload), !Json WebhookJobPayload}.
Context (ks : EoaExecutorStoreKeys) (wq : string).
Context (uuid : nat -> nat -> string).
(** [serde_json::to_string] of the evidence, which the code expects to succeed. *)
Context (finality_json : FinalityEvidence -> string).
Context (completed_transaction_ttl_seconds : N).
Context (transaction_counts : TransactionCounts).
Context (confirmed_transactions : list ConfirmedTransaction).

Definition finality_mismatch : TransactionStoreError :=
  InternalError "Finality evidence does not match the receipt".

Definition evidence_matches (confirmed : ConfirmedTransaction) : bool :=
  let receipt := ct_receipt confirmed in
  let fin := ct_finality confirmed in
  bool_decide (receipt_transaction_hash receipt = ct_transaction_hash confirmed)
  && bool_decide (receipt_block_number receipt = Some (fe_block_number fin))
  && bool_decide (receipt_block_hash receipt = Some (fe_block_hash fin))
  && (fe_block_number fin <=? fe_checkpoint_number fin)%N.

Definition max_count : N :=
  N.max (tc_preconfirmed transaction_counts) (tc_latest transaction_counts).

Definition finality_nonces : list N :=
  sorted_unique (filter (fun n => (n < max_count)%N) (map ct_nonce confirmed_transactions)).

Definition nonce_group (z : gmap string N) (nonce : N) : list (string * N) :=
  zrangebyscore z nonce nonce.

(** The bounded group read. *)
Definition finality_group_script (nonces : list N) (z : gmap string N)
    : result redis_error (list (string * N)) :=
  if Nat.ltb 4096 (sum_list (map (fun n => length (nonce_group z n)) nonces)) then Err ReplyError
  else Ok (nonces ≫= nonce_group z).

Definition clean_validation (now : N) : prog (store_result (list SubmittedTransactionHydrated)) :=
  if negb (forallb evidence_matches confirmed_transactions) then Ret (Err finality_mismatch)
  else if decide (finality_nonces = []) then Ret (Ok [])
  else
    let! submitted_txs := read (fun σ =>
      finality_group_script finality_nonces (zset σ (submitted_transactions_zset_name ks))) in
    hydrate_all_submitted ks (from_redis_strings submitted_txs).

(** [detect_violations].  Real transactions grouped by nonce (ascending) and by id;
    the id map iterates in an unspecified order, here that of first occurrence. *)
Definition real_transactions (txs : list SubmittedTransactionHydrated) : list SubmittedTransaction :=
  omap (fun tx => match tx with HReal tx => Some tx | HNoop _ => None end) txs.
Definition st_nonce (tx : SubmittedTransaction) : N := sd_nonce (st_data tx).
Definition st_id (tx : SubmittedTransaction) : string := sd_transaction_id (st_data tx).
Definition st_hash (tx : SubmittedTransaction) : string := sd_transaction_hash (st_data tx).

Definition hashes_at (real : list SubmittedTransaction) (nonce : N) : list string :=
  map st_hash (filter (fun tx => st_nonce tx = nonce) real).
Definition nonces_of_id (real : list SubmittedTransaction) (id : string) : list N :=
  sorted_unique (map st_nonce (filter (fun tx => st_id tx = id) real)).

Definition detect_violations (submitted_txs : list SubmittedTransactionHydrated)
    (confirmed_hashes : gset string) : CleanupReport :=
  let real := real_transactions submitted_txs in
  let by_nonce := sorted_unique (map st_nonce real) in
  let confirmed_at n := filter (fun h => h ∈ confirmed_hashes) (hashes_at real n) in
  mkCleanupReport 0 0 0 0 0 0
    (omap (fun id => let ns := nonces_of_id real id in
                     if Nat.ltb 1 (length ns) then Some (id, ns) else None)
          (remove_dups (map st_id real)))
    (omap (fun n => if Nat.ltb 1 (length (confirmed_at n)) then Some (n, confirmed_at n) else None)
          by_nonce)
    (omap (fun n => if decide (confirmed_at n = []) then Some (n, hashes_at real n) else None)
          by_nonce).

(** ** The operation *)

Definition member_of (tx : SubmittedTransactionHydrated) : string * string * N :=
  (h_hash tx, h_transaction_id tx, h_nonce tx).
Definition applicable (submitted_txs : list SubmittedTransactionHydrated)
    : list ConfirmedTransaction :=
  filter (fun c => (ct_transaction_hash c, ct_transaction_id c, ct_nonce c)
                     ∈ map member_of submitted_txs) confirmed_transactions.
Definition confirmed_hashes_of (confirmed : list ConfirmedTransaction) : gset string :=
  list_to_set (map ct_transaction_hash confirmed).
(** [BTreeMap] collected from pairs: the last entry of an id stays. *)
Definition confirmed_ids_of (confirmed : list ConfirmedTransaction)
    : gmap string ConfirmedTransaction :=
  foldl (fun m c => <[ct_transaction_id c := c]> m) ∅
    (filter (fun c => ct_transaction_id c <> NO_OP_TRANSACTION_ID) confirmed).
Definition nonces_with_receipts_of (submitted_txs : list SubmittedTransactionHydrated)
    (confirmed_hashes : gset string) : gset N :=
  list_to_set (map h_nonce (filter (fun tx => h_hash tx ∈ confirmed_hashes) submitted_txs)).

Definition remove_transaction_from_redis_submitted_zset (tx : SubmittedTransactionHydrated)
    : pipeline :=
  [ ZREM (submitted_transactions_zset_name ks) [(h_to_redis_string_with_nonce tx).1];
    ZREM (submitted_transactions_zset_name ks) [(h_to_legacy_redis_string_with_nonce tx).1];
    DEL (transaction_hash_to_id_key_name ks (h_hash tx)) ].

Definition completion_cmds (now : N) (id : string) (confirmed_tx : ConfirmedTransaction)
    : pipeline :=
  let data_key_name := transaction_data_key_name ks id in
  let succeeded := receipt_status (ct_receipt confirmed_tx) in
  [ HSET data_key_name "status" (if succeeded then "confirmed" else "failed") ] ++
  (if succeeded then [] else
     [ HSET data_key_name "failure_reason" "Transaction reverted on-chain" ]) ++
  [ HSET data_key_name "completed_at" (u64_to_string now);
    HSET data_key_name "receipt" (ct_receipt_serialized confirmed_tx);
    HSET data_key_name "finality" (finality_json (ct_finality confirmed_tx));
    EXPIRE data_key_name completed_transaction_ttl_seconds;
    EXPIRE (transaction_attempts_list_name ks id) completed_transaction_ttl_seconds ].

Definition notify (now : N) (i : nat) (tx : SubmittedTransaction)
    (envelope : EoaExecutorEvent -> BareWebhookNotificationEnvelope EoaEventPayload) : pipeline :=
  let options := rq_webhook_options (st_user_request tx) in
  if decide (options = []) then []
  else (queue_webhook_envelopes wq (envelope (mkEvent (st_id tx) (rq_from (st_user_request tx))))
          options (now / 1000) (uuid i)).1.

(** Counters the loop updates, the ids seen and the replaced transactions. *)
Record clean_state := mkCleanState {
  cs_pipe : pipeline;
  cs_processed_ids : gset string;
  cs_replaced : list (N * string);
  cs_noop : nat;
  cs_success : nat;
  cs_failed : nat;
  cs_pending : nat
}.
Definition clean_state_init : clean_state := mkCleanState [] ∅ [] 0 0 0 0.

Section Loop.
Context (now : N) (confirmed_ids : gmap string ConfirmedTransaction)
  (nonces_with_receipts : gset N).

Definition should_process (tx : SubmittedTransactionHydrated) : bool :=
  (h_nonce tx <? tc_preconfirmed transaction_counts)%N
  || (h_nonce tx <? tc_latest transaction_counts)%N.
Definition replaceable (tx : SubmittedTransactionHydrated) : bool :=
  (h_nonce tx <? tc_latest transaction_counts)%N
  && bool_decide (h_nonce tx ∈ nonces_with_receipts).

(** The match on the first occurrence of an id. *)
Definition clean_first (i : nat) (tx : SubmittedTransactionHydrated) (st : clean_state)
    : clean_state :=
  let '(mkCleanState pipe ids replaced noop success failed pending) := st in
  let id := h_transaction_id tx in
  if decide (id = NO_OP_TRANSACTION_ID) then
    mkCleanState pipe ids replaced
      (if decide (h_nonce tx ∈ nonces_with_receipts) then S noop else noop)
      success failed pending
  else
    match confirmed_ids !! id with
    | Some confirmed_tx =>
        let succeeded := receipt_status (ct_receipt confirmed_tx) in
        let webhooks :=
          match tx with
          | HReal tx =>
              notify now i tx (fun event =>
                if succeeded then transaction_confirmed_envelope event confirmed_tx
                else transaction_reverted_envelope event confirmed_tx)
          | HNoop _ => []
          end in
        mkCleanState (pipe ++ completion_cmds now id confirmed_tx ++ webhooks) ids replaced noop
          (if succeeded then S success else success)
          (if succeeded then failed else S failed) pending
    | None =>
        match tx with
        | HReal tx' =>
            if replaceable tx then
              mkCleanState
                (pipe ++ notify now i tx' (fun event =>
                   transaction_replaced_envelope event (st_data tx')))
                ids (replaced ++ [(sd_queued_at (st_data tx'), st_id tx')])
                noop success failed (S pending)
            else st
        | HNoop _ => st
        end
    end.

(** The match that decides whether the hash leaves the submitted set. *)
Definition hash_is_settled (tx : SubmittedTransactionHydrated) : bool :=
  match confirmed_ids !! h_transaction_id tx with
  | Some _ => true
  | None =>
      if decide (h_transaction_id tx = NO_OP_TRANSACTION_ID)
      then bool_decide (h_nonce tx ∈ nonces_with_receipts)
      else match tx with HReal _ => replaceable tx | HNoop _ => false end
  end.

Definition clean_one (i : nat) (tx : SubmittedTransactionHydrated) (st : clean_state)
    : clean_state :=
  if negb (should_process tx) then st
  else
    let id := h_transaction_id tx in
    let first := bool_decide (id ∉ cs_processed_ids st) in
    let st := mkCleanState (cs_pipe st) ({[id]} ∪ cs_processed_ids st) (cs_replaced st)
                (cs_noop st) (cs_success st) (cs_failed st) (cs_pending st) in
    let st := if first then clean_first i tx st else st in
    if hash_is_settled tx then
      mkCleanState (cs_pipe st ++ remove_transaction_from_redis_submitted_zset tx)
        (cs_processed_ids st) (cs_replaced st)
        (cs_noop st) (cs_success st) (cs_failed st) (cs_pending st)
    else st.

Fixpoint clean_loop (i : nat) (txs : list SubmittedTransactionHydrated) (st : clean_state)
    : clean_state :=
  match txs with
  | [] => st
  | tx :: txs' => clean_loop (S i) txs' (clean_one i tx st)
  end.
End Loop.

Definition clean_operation (now : N) (submitted_txs : list SubmittedTransactionHydrated)
    : pipeline * CleanupReport :=
  let confirmed := applicable submitted_txs in
  let confirmed_hashes := confirmed_hashes_of confirmed in
  let confirmed_ids := confirmed_ids_of confirmed in
  let nonces_with_receipts := nonces_with_receipts_of submitted_txs confirmed_hashes in
  let report := detect_violations submitted_txs confirmed_hashes in
  let st := clean_loop now confirmed_ids nonces_with_receipts 0 submitted_txs clean_state_init in
  (cs_pipe st ++
     (if decide (cs_replaced st = []) then []
      else [ ZADD (pending_transactions_zset_name ks) (cs_replaced st) ]),
   mkCleanupReport (length submitted_txs) (size (cs_processed_ids st))
     (cs_noop st) (cs_success st) (cs_failed st) (cs_pending st)
     (cr_cross_nonce_violations report) (cr_per_nonce_violations report)
     (cr_nonces_without_receipts report)).

Definition CleanSubmittedTransactions
    : SafeRedisTransaction (list SubmittedTransactionHydrated) CleanupReport :=
  mkSafeTx "clean submitted transactions" [ submitted_transactions_zset_name ks ]
    clean_validation clean_operation.
End Clean.

(** ** Recycled nonces *)

Section Recycled.
Context `{Carried} `{!Json BorrowedTransactionData}.
Context (ks : EoaExecutorStoreKeys).

Definition borrowed_nonce_of (value : string) : store_result N :=
  let? tx := deser value in Ok (bd_nonce tx).

Definition below_highest (highest : option N) (nonce : N) : bool :=
  match highest with Some h => (nonce <? h)%N | None => false end.

Definition recycle_validation (now : N)
    : prog (store_result (option N * list N * option N)) :=
  let! highest_submitted := read (fun σ =>
    Ok (zrange_last (zset σ (submitted_transactions_zset_name ks)))) in
  let! borrowed := read (fun σ =>
    Ok (map_to_list (hash σ (borrowed_transactions_hashmap_name ks))).*2) in
  let! borrowed_nonces := Ret (collect_results borrowed_nonce_of borrowed) in
  let highest_borrowed := list_max borrowed_nonces in
  let highest := option_max (snd <$> head highest_submitted) highest_borrowed in
  let! cached_tx_count := get_u64 (last_transaction_count_key_name ks) in
  let! count := Ret (nonce_sync_required ks cached_tx_count) in
  let highest := option_max highest (checked_sub count 1) in
  let! recycled_nonces := get_recycled_nonces ks in
  let recycled_nonces :=
    filter (fun nonce => below_highest highest nonce = true) recycled_nonces in
  let! current_optimistic_tx_count := get_u64 (optimistic_transaction_count_key_name ks) in
  Ret (Ok (highest, recycled_nonces, current_optimistic_tx_count)).

Definition recycle_operation (now : N) (data : option N * list N * option N)
    : pipeline * list N :=
  let '(highest, recycled_nonces, current_optimistic_tx_count) := data in
  let next_nonce := from_option (fun nonce => u64_saturating_add nonce 1) 0%N highest in
  (ZREMRANGEBYSCORE (recycled_nonces_zset_name ks) (default 0%N highest) ::
   match current_optimistic_tx_count with
   | Some current =>
       if (next_nonce <? current)%N
       then [ SET (optimistic_transaction_count_key_name ks) (u64_to_string next_nonce) ]
       else []
   | None => []
   end,
   recycled_nonces).

Definition CleanAndGetRecycledNonces
    : SafeRedisTransaction (option N * list N * option N) (list N) :=
  mkSafeTx "clean and get recycled nonces"
    [ recycled_nonces_zset_name ks; last_transaction_count_key_name ks;
      optimistic_transaction_count_key_name ks; submitted_transactions_zset_name ks;
      borrowed_transactions_hashmap_name ks ]
    recycle_validation recycle_operation.
End Recycled.

(** ** The commands of a cleanup *)

Section CleanCommands.
Context `{Carried} `{!Json (WebhookNotificationEnvelope EoaEventPayload), !Json WebhookJobPayload}.
Context (ks : EoaExecutorStoreKeys) (wq : string) (uuid : nat -> nat -> string).
Context (finality_json : FinalityEvidence -> string) (ttl_seconds : N).
Context (counts : TransactionCounts) (confirmed_transactions : list ConfirmedTransaction).
Context (submitted_txs : list SubmittedTransactionHydrated) (now : N).

Definition confirmed_map : gmap string ConfirmedTransaction :=
  confirmed_ids_of (applicable confirmed_transactions submitted_txs).
Definition final_nonces : gset N :=
  nonces_with_receipts_of submitted_txs
    (confirmed_hashes_of (applicable confirmed_transactions submitted_txs)).
Definition settled (tx : SubmittedTransactionHydrated) : bool :=
  hash_is_settled counts confirmed_map final_nonces tx.

(** A replaced transaction may go back to pending: it is real, has no evidence of its
    own, and its nonce is below the latest count and has a final receipt. *)
Definition requeue_ok (item : N * string) : Prop :=
  ∃ tx, HReal tx ∈ submitted_txs /\ item = (sd_queued_at (st_data tx), st_id tx) /\
    confirmed_map !! st_id tx = None /\ replaceable counts final_nonces (HReal tx) = true.

(** Everything a cleanup writes, with its justification. *)
Inductive clean_cmd : wcmd -> Prop :=
| CC_webhook c : webhook_key wq (wkey c) -> clean_cmd c
| CC_complete id conf c : confirmed_map !! id = Some conf ->
    c ∈ completion_cmds ks finality_json ttl_seconds now id conf -> clean_cmd c
| CC_remove tx m : tx ∈ submitted_txs -> settled tx = true ->
    m = (h_to_redis_string_with_nonce tx).1 \/ m = (h_to_legacy_redis_string_with_nonce tx).1 ->
    clean_cmd (ZREM (submitted_transactions_zset_name ks) [m])
| CC_unmap tx : tx ∈ submitted_txs -> settled tx = true ->
    clean_cmd (DEL (transaction_hash_to_id_key_name ks (h_hash tx)))
| CC_requeue items : Forall requeue_ok items ->
    clean_cmd (ZADD (pending_transactions_zset_name ks) items).

Definition clean_state_ok (st : clean_state) : Prop :=
  Forall clean_cmd (cs_pipe st) /\ Forall requeue_ok (cs_replaced st).

Lemma notify_clean i tx envelope : Forall clean_cmd (notify wq uuid now i tx envelope).
Proof.
  unfold notify. case_decide; [constructor|].
  eapply Forall_impl; [apply queue_webhook_envelopes_ok|]. intros c Hc. by apply CC_webhook.
Qed.

Lemma completion_clean id conf :
  confirmed_map !! id = Some conf ->
  Forall clean_cmd (completion_cmds ks finality_json ttl_seconds now id conf).
Proof. intros Hc. apply Forall_forall. intros c. by apply CC_complete. Qed.

Lemma completion_keys id conf c :
  c ∈ completion_cmds ks finality_json ttl_seconds now id conf ->
  wkey c = transaction_data_key_name ks id \/ wkey c = transaction_attempts_list_name ks id.
Proof.
  unfold completion_cmds. rewrite !elem_of_app. destruct (receipt_status _);
    rewrite ?elem_of_cons, ?elem_of_nil; intros Hc;
    repeat destruct Hc as [Hc|Hc]; subst; cbn [wkey]; tauto.
Qed.

(** The terminal status and the receipt are each written with one value. *)
Lemma completion_status id conf v :
  HSET (transaction_data_key_name ks id) "status" v
    ∈ completion_cmds ks finality_json ttl_seconds now id conf <->
  v = if receipt_status (ct_receipt conf) then "confirmed" else "failed".
Proof.
  unfold completion_cmds. destruct (receipt_status _); cbn [app];
    (split; [|intros ->; apply list_elem_of_here]);
    intros Hin; repeat (apply elem_of_cons in Hin as [Hin|Hin]; [by simplify_eq|]);
    by apply elem_of_nil in Hin.
Qed.

Lemma completion_receipt id conf v :
  HSET (transaction_data_key_name ks id) "receipt" v
    ∈ completion_cmds ks finality_json ttl_seconds now id conf <->
  v = ct_receipt_serialized conf.
Proof.
  unfold completion_cmds. destruct (receipt_status _); cbn [app];
    (split; [|intros ->; by repeat (apply list_elem_of_here || apply list_elem_of_further)]);
    intros Hin; repeat (apply elem_of_cons in Hin as [Hin|Hin]; [by simplify_eq|]);
    by apply elem_of_nil in Hin.
Qed.

Lemma clean_first_ok i tx st :
  tx ∈ submitted_txs -> clean_state_ok st ->
  clean_state_ok (clean_first ks wq uuid finality_json ttl_seconds counts now confirmed_map
                    final_nonces i tx st).
Proof.
  intros Hin [Hp Hr]. unfold clean_first. destruct st as [pipe ids rep noop suc fail pend].
  cbn in Hp, Hr. case_decide; [done|].
  destruct (confirmed_map !! h_transaction_id tx) as [conf|] eqn:Hc.
  - split; [|done]. cbn [cs_pipe]. apply Forall_app; split; [done|].
    apply Forall_app; split; [by apply completion_clean|].
    destruct tx; [constructor|apply notify_clean].
  - destruct tx as [|tx]; [done|]. destruct (replaceable _ _ _) eqn:Hrep; [|done].
    split; cbn [cs_pipe cs_replaced]; apply Forall_app; split; try done; [apply notify_clean|].
    constructor; [|constructor]. exists tx. done.
Qed.

Lemma clean_one_ok i tx st :
  tx ∈ submitted_txs -> clean_state_ok st ->
  clean_state_ok (clean_one ks wq uuid finality_json ttl_seconds counts now confirmed_map
                    final_nonces i tx st).
Proof.
  intros Hin Hst. unfold clean_one. destruct (should_process _ _); [cbn [negb]|done].
  set (st1 := mkCleanState (cs_pipe st) ({[_]} ∪ _) _ _ _ _ _).
  set (st2 := if bool_decide (h_transaction_id tx ∉ cs_processed_ids st) then _ else st1).
  assert (clean_state_ok st2) as [Hp Hr].
  { subst st2. case_bool_decide; [|done]. by apply clean_first_ok. }
  destruct (hash_is_settled _ _ _ tx) eqn:Hs; [|done].
  split; [|done]. cbn [cs_pipe]. apply Forall_app; split; [done|].
  unfold remove_transaction_from_redis_submitted_zset.
  rewrite !Forall_cons, Forall_nil. split_and!; [eapply CC_remove|eapply CC_remove|eapply CC_unmap|done];
    eauto.
Qed.

Lemma clean_loop_ok i txs st :
  (∀ tx, tx ∈ txs -> tx ∈ submitted_txs) -> clean_state_ok st ->
  clean_state_ok (clean_loop ks wq uuid finality_json ttl_seconds counts now confirmed_map
                    final_nonces i txs st).
Proof.
  revert i st. induction txs as [|tx txs IH]; intros i st Hin Hst; [done|].
  cbn [clean_loop]. apply IH; [set_solver|]. apply clean_one_ok; [set_solver|done].
Qed.

Lemma clean_operation_cmds :
  Forall clean_cmd
    (clean_operation ks wq uuid finality_json ttl_seconds counts confirmed_transactions now
       submitted_txs).1.
Proof.
  destruct (clean_loop_ok 0 submitted_txs clean_state_init) as [Hp Hr]; [done|by split; constructor|].
  unfold clean_operation. cbn [fst]. fold confirmed_map. fold final_nonces.
  apply Forall_app; split; [done|]. case_decide; constructor; [by apply CC_requeue|constructor].
Qed.

(** The loop only adds commands, and adds those of every record it must settle. *)
Lemma clean_first_pipe i tx st :
  ∃ more, cs_pipe (clean_first ks wq uuid finality_json ttl_seconds counts now confirmed_map
                     final_nonces i tx st) = cs_pipe st ++ more /\
    ∀ conf, h_transaction_id tx <> NO_OP_TRANSACTION_ID ->
      confirmed_map !! h_transaction_id tx = Some conf ->
      ∀ c, c ∈ completion_cmds ks finality_json ttl_seconds now (h_transaction_id tx) conf -> c ∈ more.
Proof.
  unfold clean_first. destruct st as [pipe ids rep noop suc fail pend]. cbn [cs_pipe].
  case_decide; [exists []; by rewrite app_nil_r|].
  destruct (confirmed_map !! h_transaction_id tx) as [conf|] eqn:Hc.
  { eexists. split; [done|]. intros conf' _ [= <-] c Hin. apply elem_of_app. by left. }
  destruct tx; [exists []; by rewrite app_nil_r|].
  destruct (replaceable _ _ _); [eexists; split; [done|]; done|exists []; by rewrite app_nil_r].
Qed.

Lemma clean_first_ids i tx st :
  cs_processed_ids (clean_first ks wq uuid finality_json ttl_seconds counts now confirmed_map
                      final_nonces i tx st) = cs_processed_ids st.
Proof. unfold clean_first. destruct st. by repeat case_match. Qed.

Lemma clean_one_pipe i tx st :
  let st' := clean_one ks wq uuid finality_json ttl_seconds counts now confirmed_map
               final_nonces i tx st in
  ∃ more, cs_pipe st' = cs_pipe st ++ more /\
    (should_process counts tx = true -> settled tx = true ->
     ∀ c, c ∈ remove_transaction_from_redis_submitted_zset ks tx -> c ∈ more) /\
    (∀ id, id ∈ cs_processed_ids st' -> id ∈ cs_processed_ids st \/
       id = h_transaction_id tx /\ should_process counts tx = true) /\
    (∀ conf, should_process counts tx = true -> h_transaction_id tx ∉ cs_processed_ids st ->
      h_transaction_id tx <> NO_OP_TRANSACTION_ID ->
      confirmed_map !! h_transaction_id tx = Some conf ->
      ∀ c, c ∈ completion_cmds ks finality_json ttl_seconds now (h_transaction_id tx) conf -> c ∈ more).
Proof.
  unfold clean_one. destruct (should_process counts tx); cbn [negb].
  2: { exists []. rewrite app_nil_r. split_and!; [done|done|by left|done]. }
  set (st1 := mkCleanState (cs_pipe st) ({[_]} ∪ _) _ _ _ _ _).
  set (st2 := if bool_decide (h_transaction_id tx ∉ cs_processed_ids st) then _ else st1).
  assert (∃ more, cs_pipe st2 = cs_pipe st ++ more /\
    cs_processed_ids st2 = {[h_transaction_id tx]} ∪ cs_processed_ids st /\
    (∀ conf, h_transaction_id tx ∉ cs_processed_ids st ->
      h_transaction_id tx <> NO_OP_TRANSACTION_ID ->
      confirmed_map !! h_transaction_id tx = Some conf ->
      ∀ c, c ∈ completion_cmds ks finality_json ttl_seconds now (h_transaction_id tx) conf -> c ∈ more))
    as (m1 & Hm1 & Hids & Hc1).
  { subst st2. case_bool_decide; [|exists []; by rewrite app_nil_r].
    destruct (clean_first_pipe i tx st1) as (m & Hm & Hc). exists m.
    rewrite Hm, clean_first_ids. split_and!; [done|done|]. intros conf _. apply Hc. }
  unfold settled. destruct (hash_is_settled _ _ _ tx).
  - exists (m1 ++ remove_transaction_from_redis_submitted_zset ks tx). cbn [cs_pipe cs_processed_ids].
    rewrite Hm1, Hids, app_assoc. split_and!; [done|set_solver|set_solver|].
    intros conf _ H1 H2 H3 c Hc. apply elem_of_app. left. by eapply Hc1.
  - exists m1. rewrite Hm1, Hids. split_and!; [done|done|set_solver|eauto].
Qed.

Lemma clean_loop_pipe i txs st :
  let st' := clean_loop ks wq uuid finality_json ttl_seconds counts now confirmed_map
               final_nonces i txs st in
  (∀ c, c ∈ cs_pipe st -> c ∈ cs_pipe st') /\
  (∀ tx c, tx ∈ txs -> should_process counts tx = true -> settled tx = true ->
     c ∈ remove_transaction_from_redis_submitted_zset ks tx -> c ∈ cs_pipe st') /\
  (∀ tx conf c, tx ∈ txs -> should_process counts tx = true ->
     h_transaction_id tx ∉ cs_processed_ids st -> h_transaction_id tx <> NO_OP_TRANSACTION_ID ->
     confirmed_map !! h_transaction_id tx = Some conf ->
     c ∈ completion_cmds ks finality_json ttl_seconds now (h_transaction_id tx) conf -> c ∈ cs_pipe st').
Proof.
  revert i st. induction txs as [|tx txs IH]; intros i st.
  { cbn. split_and!; [done|by intros ?? ?%elem_of_nil|by intros ??? ?%elem_of_nil]. }
  cbn [clean_loop]. destruct (clean_one_pipe i tx st) as (more & Hp & Hrem & Hids & Hcomp).
  destruct (IH (S i) (clean_one ks wq uuid finality_json ttl_seconds counts now confirmed_map
    final_nonces i tx st)) as (IH1 & IH2 & IH3).
  rewrite Hp in IH1. cbv zeta. split_and!.
  - intros c Hc. apply IH1, elem_of_app. by left.
  - intros tx' c [->|Hin]%elem_of_cons Hs Hset Hc; [|by eapply IH2].
    apply IH1, elem_of_app. right. by apply Hrem.
  - intros tx' conf c Hin Hs Hnew Hno Hconf Hc.
    destruct (decide (h_transaction_id tx' = h_transaction_id tx /\ should_process counts tx = true))
      as [[Heq Hsp]|Hdiff].
    + apply IH1, elem_of_app. right. rewrite Heq in *. by eapply Hcomp.
    + destruct (decide (h_transaction_id tx' ∈ cs_processed_ids st)); [done|].
      apply elem_of_cons in Hin as [->|Hin]; [naive_solver|].
      eapply IH3; eauto. intros Hp'%Hids. naive_solver.
Qed.

(** Evidence behind the map of confirmed ids. *)
Lemma confirmed_ids_of_Some confirmed id c :
  confirmed_ids_of confirmed !! id = Some c -> c ∈ confirmed /\ ct_transaction_id c = id.
Proof.
  unfold confirmed_ids_of. set (l := filter _ confirmed).
  assert (∀ c, c ∈ l -> c ∈ confirmed) as Hl.
  { intros x Hx. by apply list_elem_of_filter in Hx as [_ ?]. }
  revert Hl. generalize l. clear l. intros l Hl Hm.
  enough ((∃ c', c' ∈ l /\ ct_transaction_id c' = id /\ c' = c) \/
          (∅ : gmap string ConfirmedTransaction) !! id = Some c) as [(c' & ? & ? & ->)|]; [by auto|done|].
  revert Hm. generalize (∅ : gmap string ConfirmedTransaction). clear Hl.
  induction l as [|x l IH]; intros m; cbn; [by right|].
  intros [(c' & ? & ? & ?)|Hm]%IH; [left; exists c'; set_solver|].
  rewrite lookup_insert in Hm. case_decide; simplify_eq; [left; exists c; set_solver|by right].
Qed.

Lemma applicable_elem c :
  c ∈ applicable confirmed_transactions submitted_txs ->
  c ∈ confirmed_transactions /\
  ∃ tx, tx ∈ submitted_txs /\ h_hash tx = ct_transaction_hash c /\
    h_transaction_id tx = ct_transaction_id c /\ h_nonce tx = ct_nonce c.
Proof.
  intros [Hm Hc]%list_elem_of_filter. split; [done|].
  apply list_elem_of_fmap in Hm as (tx & Heq & Htx). unfold member_of in Heq.
  exists tx. naive_solver.
Qed.

(** A nonce with a final receipt is the nonce of a retained record whose exact hash
    the evidence names. *)
Lemma final_nonces_elem n :
  n ∈ final_nonces ->
  ∃ tx c, tx ∈ submitted_txs /\ c ∈ confirmed_transactions /\ h_nonce tx = n /\
    h_hash tx = ct_transaction_hash c.
Proof.
  unfold final_nonces, nonces_with_receipts_of. rewrite elem_of_list_to_set.
  intros (tx & -> & [Hh Htx]%list_elem_of_filter)%list_elem_of_fmap.
  unfold confirmed_hashes_of in Hh. apply elem_of_list_to_set, list_elem_of_fmap in Hh
    as (c & Heq & Hc). apply applicable_elem in Hc as [Hc _]. eauto 6.
Qed.
End CleanCommands.
