(* ===== verification/EoaOps.v ===== *)
(** The remaining owner-fenced operations of the store
    (executors/src/eoa/store/atomic.rs). *)

From Stdlib Require Import String Ascii NArith Lia.
From stdpp Require Import base gmap strings list fin_maps.
From S2P Require Import Prelude Redis RedisProg Json FinalityTypes QueueTypes Webhook EoaTypes.
From S2P Require Import EoaKeys EoaAtomic.
From S2P Require Import EoaStore EoaPending EoaSubmitted.

Section Ops.
Context `{Carried} `{!Json EoaTransactionRequest, !Json BorrowedTransactionData,
  !Json TransactionAttempt, !Json EoaHealth}
  `{!Json (WebhookNotificationEnvelope EoaEventPayload), !Json WebhookJobPayload}.
Context (ks : EoaExecutorStoreKeys) (worker_id wq : string) (uuid : nat -> nat -> string).
Context (finality_json : FinalityEvidence -> string) (completed_transaction_ttl_seconds : N).

Definition update_health_data (health : EoaHealth) : prog (store_result unit) :=
  match to_json health with
  | None => Ret (Err DeserError)
  | Some health_json =>
      with_lock_check ks worker_id (fun _ => ([ SET (eoa_health_key_name ks) health_json ], tt))
  end.

(** ** Synchronisation with the chain *)

Definition touch_health (now : N) (health : EoaHealth) : EoaHealth :=
  mkHealth (eh_balance health) (eh_balance_threshold health) (eh_balance_fetched_at health)
    now now (eh_nonce_resets health) (eh_last_finality_poll_at health)
    (eh_finality_scan_offset health).

Definition cached_count_pipeline (current_chain_tx_count : N) (optimistic_nonce : option N)
    (health_update : option string) : pipeline :=
  [ SET (last_transaction_count_key_name ks) (u64_to_string current_chain_tx_count) ] ++
  match optimistic_nonce with
  | Some optimistic_nonce =>
      if (optimistic_nonce <? current_chain_tx_count)%N
      then [ SET (optimistic_transaction_count_key_name ks) (u64_to_string current_chain_tx_count) ]
      else []
  | None =>
      [ SET (optimistic_transaction_count_key_name ks) (u64_to_string current_chain_tx_count) ]
  end ++
  match health_update with
  | Some health_json => [ SET (eoa_health_key_name ks) health_json ]
  | None => []
  end.

(** What is read before the owner is checked. *)
Definition cached_count_reads (now : N) : prog (store_result (option string * option N)) :=
  let! current_health := get_eoa_health ks in
  let! current := get_u64 (optimistic_transaction_count_key_name ks) in
  Ret (let? health_update :=
         match current_health with
         | Some health => let? json := ok_or DeserError (to_json (touch_health now health)) in
                          Ok (Some json)
         | None => Ok None
         end in
       Ok (health_update, current)).

Definition update_cached_transaction_count (current_chain_tx_count : N)
    : prog (store_result unit) :=
  Now (fun now =>
    let! (health_update, optimistic_nonce) := cached_count_reads now in
    with_lock_check ks worker_id (fun _ =>
      (cached_count_pipeline current_chain_tx_count optimistic_nonce health_update, tt))).

(** ** Fee bumps *)

Definition gas_bump_pipeline (submitted_transaction : SubmittedTransactionDehydrated)
    (signed_transaction : SignedTx) (attempt_json : string) : pipeline :=
  let '(submitted_transaction_string, nonce) := to_redis_string_with_nonce submitted_transaction in
  let id := sd_transaction_id submitted_transaction in
  [ ZADD (submitted_transactions_zset_name ks) [(nonce, submitted_transaction_string)];
    SET (transaction_hash_to_id_key_name ks (tx_hash signed_transaction)) id;
    LPUSH (transaction_attempts_list_name ks id) attempt_json ].

Definition add_gas_bump_attempt (submitted_transaction : SubmittedTransactionDehydrated)
    (signed_transaction : SignedTx) : prog (store_result unit) :=
  Now (fun now =>
    let new_attempt :=
      mkAttempt (sd_transaction_id submitted_transaction) signed_transaction now 0 in
    match to_json new_attempt with
    | None => Ret (Err DeserError)
    | Some attempt_json =>
        with_lock_check ks worker_id (fun _ =>
          (gas_bump_pipeline submitted_transaction signed_transaction attempt_json, tt))
    end).

(** ** Reset *)

Definition reset_health (now : N) (health : EoaHealth) : EoaHealth :=
  let resets := eh_nonce_resets health ++ [now] in
  mkHealth (eh_balance health) (eh_balance_threshold health) (eh_balance_fetched_at health)
    now now
    (if Nat.ltb 5 (length resets) then drop (length resets - 5) resets else resets)
    (eh_last_finality_poll_at health) (eh_finality_scan_offset health).

Definition reset_validation (now : N) : prog (store_result (option string)) :=
  let! submitted := zcard (submitted_transactions_zset_name ks) in
  let! borrowed := hlen (borrowed_transactions_hashmap_name ks) in
  if negb (submitted =? 0)%N || negb (borrowed =? 0)%N
  then Ret (Err UnresolvedNonceReservations)
  else
    let! current_health := get_eoa_health ks in
    Ret (match current_health with
         | Some health => let? json := ok_or DeserError (to_json (reset_health now health)) in
                          Ok (Some json)
         | None => Ok None
         end).

Definition reset_operation (current_chain_tx_count now : N) (health_update : option string)
    : pipeline * unit :=
  (match health_update with
   | Some health_json => [ SET (eoa_health_key_name ks) health_json ]
   | None => []
   end ++
   [ SET (optimistic_transaction_count_key_name ks) (u64_to_string current_chain_tx_count);
     SET (last_transaction_count_key_name ks) (u64_to_string current_chain_tx_count);
     DEL (recycled_nonces_zset_name ks);
     DEL (manual_reset_key_name ks) ], tt).

Definition ResetNoncesTransaction (current_chain_tx_count : N)
    : SafeRedisTransaction (option string) unit :=
  mkSafeTx "reset nonces"
    [ optimistic_transaction_count_key_name ks; last_transaction_count_key_name ks;
      recycled_nonces_zset_name ks; manual_reset_key_name ks;
      submitted_transactions_zset_name ks; borrowed_transactions_hashmap_name ks ]
    reset_validation (reset_operation current_chain_tx_count).

Definition reset_nonces (current_chain_tx_count : N) : prog (store_result unit) :=
  execute_with_watch_and_retry ks worker_id (ResetNoncesTransaction current_chain_tx_count).

(** ** Failing pending transactions *)

Definition failure_cmds (now : N) (failure : PendingTransaction * EoaExecutorWorkerError)
    : pipeline :=
  let '(pending_transaction, error) := failure in
  let tx_data_key := transaction_data_key_name ks (pt_transaction_id pending_transaction) in
  [ HSET tx_data_key "completed_at" (u64_to_string now);
    HSET tx_data_key "failure_reason" (worker_error_to_string error);
    HSET tx_data_key "status" "failed";
    EXPIRE tx_data_key completed_transaction_ttl_seconds;
    EXPIRE (transaction_attempts_list_name ks (pt_transaction_id pending_transaction))
      completed_transaction_ttl_seconds ].

Definition failure_webhooks (now : N) (i : nat)
    (failure : PendingTransaction * EoaExecutorWorkerError) : pipeline :=
  let '(pending_transaction, error) := failure in
  let request := pt_user_request pending_transaction in
  let event := mkEvent (pt_transaction_id pending_transaction) (rq_from request) in
  if decide (rq_webhook_options request = []) then []
  else (queue_webhook_envelopes wq (transaction_failed_envelope event error 1)
          (rq_webhook_options request) (now / 1000) (uuid i)).1.

Definition fail_pending_pipeline (now : N)
    (failures : list (PendingTransaction * EoaExecutorWorkerError)) : pipeline :=
  [ ZREM (pending_transactions_zset_name ks) (map (fun f => pt_transaction_id f.1) failures) ] ++
  (failures ≫= failure_cmds now) ++ concat (imap (failure_webhooks now) failures).

Definition FailPendingTransactions (transaction_ids : list string) (pipe : pipeline)
    : SafeRedisTransaction unit unit :=
  mkSafeTx "fail pending transactions" [ pending_transactions_zset_name ks ]
    (fun _ => check_pending ks transaction_ids) (fun _ _ => (pipe, tt)).

Definition fail_pending_transactions_batch
    (failures : list (PendingTransaction * EoaExecutorWorkerError)) : prog (store_result unit) :=
  if decide (failures = []) then Ret (Ok tt)
  else
    Now (fun now =>
      let! _ := execute_with_watch_and_retry ks worker_id
        (FailPendingTransactions (map (fun f => pt_transaction_id f.1) failures)
           (fail_pending_pipeline now failures)) in
      Ret (Ok tt)).

Definition fail_pending_transaction (pending_transaction : PendingTransaction)
    (error : EoaExecutorWorkerError) : prog (store_result unit) :=
  fail_pending_transactions_batch [(pending_transaction, error)].

(** ** Settlement and NOOPs *)

Definition clean_submitted_transactions (confirmed_transactions : list ConfirmedTransaction)
    (transaction_counts : TransactionCounts) : prog (store_result CleanupReport) :=
  execute_with_watch_and_retry ks worker_id
    (CleanSubmittedTransactions ks wq uuid finality_json completed_transaction_ttl_seconds
       transaction_counts confirmed_transactions).

Definition clean_and_get_recycled_nonces : prog (store_result (list N)) :=
  execute_with_watch_and_retry ks worker_id (CleanAndGetRecycledNonces ks).

Definition noop_pipeline (noop_transactions : list SubmittedNoopTransaction) : pipeline :=
  [ ZREM (recycled_nonces_zset_name ks)
      (map (fun tx => u64_to_string (sn_nonce tx)) noop_transactions);
    ZADD (submitted_transactions_zset_name ks)
      (map (fun tx => let '(tx_string, nonce) := noop_to_redis_string_with_nonce tx in
                      (nonce, tx_string)) noop_transactions) ].

Definition process_noop_transactions (noop_transactions : list SubmittedNoopTransaction)
    : prog (store_result unit) :=
  with_lock_check ks worker_id (fun _ => (noop_pipeline noop_transactions, tt)).
End Ops.
