(* ===== verification/EoaInvariant.v ===== *)
(** The nonce-reservation invariant: no nonce of an EOA is ever bound to two
    intents.  Borrowed, submitted and recycled nonces are kept apart and below the
    optimistic counter by every operation of the store.  First what the validations of the
    owner-fenced operations read, and what follows for each operation run against other
    clients. *)

From Stdlib Require Import String Ascii NArith Lia.
From stdpp Require Import base gmap strings list fin_maps sorting.
From S2P Require Import Prelude Redis RedisProg Json QueueTypes Webhook EoaTypes EoaKeys.
From S2P Require Import EoaAtomic EoaStore EoaPending EoaBorrowed EoaSubmitted EoaOps.
From S2P Require Import FinalityTypes.

(** A read of keys on which two states agree. *)
Ltac agree_tac :=
  match goal with
  | Ha : agree_on ?F ?σ1 ?σ2 |- _ =>
      repeat match goal with
      | |- context [str σ1 ?k] => rewrite (sa_str _ _ _ (Ha k ltac:(cbv beta; set_solver)))
      | |- context [hash σ1 ?k] => rewrite (sa_hash _ _ _ (Ha k ltac:(cbv beta; set_solver)))
      | |- context [zset σ1 ?k] => rewrite (sa_zset _ _ _ (Ha k ltac:(cbv beta; set_solver)))
      | |- context [lst σ1 ?k] => rewrite (sa_list _ _ _ (Ha k ltac:(cbv beta; set_solver)))
      end; reflexivity
  end.

Section Footprints.
Context `{Carried} `{!Json EoaTransactionRequest, !Json BorrowedTransactionData,
  !Json TransactionAttempt, !Json EoaHealth}
  `{!Json (WebhookNotificationEnvelope EoaEventPayload), !Json WebhookJobPayload}.
Context (ks : EoaExecutorStoreKeys).

Lemma check_pending_reads (F : string -> Prop) ids :
  F (pending_transactions_zset_name ks) -> reads_only F (check_pending ks ids).
Proof.
  intros HF. unfold check_pending. apply reads_only_bind; [|intros; apply reads_only_ret].
  apply reads_only_read_all. intros q Hq σ1 σ2 Ha.
  apply list_elem_of_fmap in Hq as (id & -> & _). unfold zscore_pending.
  by rewrite (sa_zset _ _ _ (Ha _ HF)).
Qed.

Lemma get_u64_reads (F : string -> Prop) k : F k -> reads_only F (get_u64 k).
Proof. intros HF. apply reads_only_read. intros σ1 σ2 Ha. by rewrite (sa_str _ _ _ (Ha _ HF)). Qed.
Lemma zcard_reads (F : string -> Prop) k : F k -> reads_only F (zcard k).
Proof. intros HF. apply reads_only_read. intros σ1 σ2 Ha. by rewrite (sa_zset _ _ _ (Ha _ HF)). Qed.
Lemma hlen_reads (F : string -> Prop) k : F k -> reads_only F (hlen k).
Proof. intros HF. apply reads_only_read. intros σ1 σ2 Ha. by rewrite (sa_hash _ _ _ (Ha _ HF)). Qed.
Lemma get_recycled_nonces_reads (F : string -> Prop) :
  F (recycled_nonces_zset_name ks) -> reads_only F (get_recycled_nonces ks).
Proof. intros HF. apply reads_only_read. intros σ1 σ2 Ha. by rewrite (sa_zset _ _ _ (Ha _ HF)). Qed.
Lemma get_eoa_health_reads (F : string -> Prop) :
  F (eoa_health_key_name ks) -> reads_only F (get_eoa_health ks).
Proof.
  intros HF. apply reads_only_bind.
  - apply reads_only_read. intros σ1 σ2 Ha. by rewrite (sa_str _ _ _ (Ha _ HF)).
  - intros [json|]; apply reads_only_ret.
Qed.

Lemma hydrate_all_submitted_reads (F : string -> Prop) txs :
  (∀ tx, tx ∈ txs -> F (transaction_data_key_name ks (sd_transaction_id tx))) ->
  reads_only F (hydrate_all_submitted ks txs).
Proof.
  intros HF. unfold hydrate_all_submitted.
  apply reads_only_bind; [|intros; apply reads_only_ret].
  apply reads_only_read_all. intros q Hq σ1 σ2 Ha.
  apply list_elem_of_fmap in Hq as (id & -> & Hid).
  apply list_elem_of_filter in Hid as [_ Hid]. apply list_elem_of_fmap in Hid as (tx & -> & Htx).
  unfold hget_required. by rewrite (sa_hash _ _ _ (Ha _ (HF _ Htx))).
Qed.
End Footprints.

#[export] Hint Resolve check_pending_reads get_u64_reads zcard_reads hlen_reads
  get_recycled_nonces_reads get_eoa_health_reads reads_only_ret : engine.

#[export] Hint Extern 3 (_ ∈ _) => set_solver : engine.

(** Walk through the binds of a validation, closing each read from the watched keys. *)
Ltac reads_tac :=
  repeat first
    [ solve [auto with engine]
    | solve [apply reads_only_read; intros ?? ?; agree_tac]
    | apply reads_only_bind; [|intros ?]
    | progress case_match ].

Section Validations.
Context `{Carried} `{!Json EoaTransactionRequest, !Json BorrowedTransactionData,
  !Json TransactionAttempt, !Json EoaHealth}
  `{!Json (WebhookNotificationEnvelope EoaEventPayload), !Json WebhookJobPayload}.
Context (ks : EoaExecutorStoreKeys).

Definition watched_by {V R} (tx : SafeRedisTransaction V R) (k : string) : Prop :=
  k ∈ stx_watch_keys tx.

Lemma incremented_reads txs now :
  let tx := MovePendingToBorrowedWithIncrementedNonces ks txs in
  reads_only (watched_by tx) (stx_validation tx now).
Proof. cbv zeta. unfold watched_by, MovePendingToBorrowedWithIncrementedNonces. cbn [stx_validation stx_watch_keys].
  unfold incremented_validation. reads_tac. Qed.

Lemma recycled_reads txs now :
  let tx := MovePendingToBorrowedWithRecycledNonces ks txs in
  reads_only (watched_by tx) (stx_validation tx now).
Proof. cbv zeta. unfold watched_by, MovePendingToBorrowedWithRecycledNonces. cbn [stx_validation stx_watch_keys].
  unfold recycled_validation. reads_tac. Qed.

Lemma borrowed_reads wq uuid results now :
  let tx := ProcessBorrowedTransactions ks wq uuid results in
  reads_only (watched_by tx) (stx_validation tx now).
Proof. cbv zeta. unfold watched_by, ProcessBorrowedTransactions. cbn [stx_validation stx_watch_keys].
  unfold borrowed_validation. reads_tac. Qed.

Lemma recycle_reads now :
  let tx := CleanAndGetRecycledNonces ks in
  reads_only (watched_by tx) (stx_validation tx now).
Proof. cbv zeta. unfold watched_by, CleanAndGetRecycledNonces. cbn [stx_validation stx_watch_keys].
  unfold recycle_validation. reads_tac. Qed.

Lemma fail_pending_reads ids pipe now :
  let tx := FailPendingTransactions ks ids pipe in
  reads_only (watched_by tx) (stx_validation tx now).
Proof. cbv zeta. unfold watched_by, FailPendingTransactions. cbn [stx_validation stx_watch_keys]. reads_tac. Qed.

Lemma reset_reads count now :
  let tx := ResetNoncesTransaction ks count in
  reads_only (fun k => watched_by tx k \/ k = eoa_health_key_name ks) (stx_validation tx now).
Proof. cbv zeta. unfold watched_by, ResetNoncesTransaction. cbn [stx_validation stx_watch_keys].
  unfold reset_validation. reads_tac. Qed.

Lemma clean_reads wq uuid fj ttl counts confirmed now :
  let tx := CleanSubmittedTransactions ks wq uuid fj ttl counts confirmed in
  reads_only (fun k => watched_by tx k \/ ∃ id, k = transaction_data_key_name ks id)
    (stx_validation tx now).
Proof.
  cbv zeta. unfold watched_by, CleanSubmittedTransactions. cbn [stx_validation stx_watch_keys].
  unfold clean_validation.
  case_match; [apply reads_only_ret|]. case_decide; [apply reads_only_ret|].
  apply reads_only_bind; [reads_tac|]. intros rows.
  apply hydrate_all_submitted_reads. eauto.
Qed.
End Validations.

Section Reservations.
Context `{Carried} `{!Json BorrowedTransactionData}.

(** The four values that carry reservations: the optimistic counter's text, the
    borrowed hash, the submitted and the recycled sorted sets. *)
Record reservations := mkReservations {
  rv_optimistic : option string;
  rv_borrowed : gmap string string;
  rv_submitted : gmap string N;
  rv_recycled : gmap string N
}.

Definition borrowed_at (B : gmap string string) (id : string) (n : N) : Prop :=
  ∃ json d, B !! id = Some json /\ from_json json = Some d /\ bd_nonce d = n.
Definition submitted_at (S : gmap string N) (n : N) : Prop := ∃ m, S !! m = Some n.
Definition recycled_at (R : gmap string N) (n : N) : Prop := ∃ m, R !! m = Some n.

(** A nonce the allocator must not hand out again by incrementing. *)
Definition taken (rv : reservations) (n : N) : Prop :=
  (∃ id, borrowed_at (rv_borrowed rv) id n) \/ submitted_at (rv_submitted rv) n \/
  recycled_at (rv_recycled rv) n.

Record nonces_ok (rv : reservations) : Prop := {
  no_parses : ∀ id json, rv_borrowed rv !! id = Some json ->
    ∃ d, from_json json = Some d /\ bd_transaction_id d = id;
  no_recycled : ∀ m s, rv_recycled rv !! m = Some s -> m = u64_to_string s /\ is_u64 s;
  no_bound : ∀ n, taken rv n -> ∃ o, rv_optimistic rv ≫= parse_u64 = Some o /\ (n < o)%N;
  no_borrowed_once : ∀ id1 id2 n, borrowed_at (rv_borrowed rv) id1 n ->
    borrowed_at (rv_borrowed rv) id2 n -> id1 = id2;
  no_borrowed_submitted : ∀ id n, borrowed_at (rv_borrowed rv) id n ->
    ¬ submitted_at (rv_submitted rv) n;
  no_recycled_free : ∀ n, recycled_at (rv_recycled rv) n ->
    ¬ submitted_at (rv_submitted rv) n /\ ∀ id, ¬ borrowed_at (rv_borrowed rv) id n
}.

(** Reservations may disappear, and the counter may move while it stays above all. *)
Lemma nonces_ok_shrink rv o' B' S' R' :
  nonces_ok rv -> B' ⊆ rv_borrowed rv -> S' ⊆ rv_submitted rv -> R' ⊆ rv_recycled rv ->
  (∀ n, taken (mkReservations o' B' S' R') n -> ∃ o, o' ≫= parse_u64 = Some o /\ (n < o)%N) ->
  nonces_ok (mkReservations o' B' S' R').
Proof.
  intros [Hp Hr Hb Hi Hbs Hrf] HB HS HR Hbound.
  assert (∀ id n, borrowed_at B' id n -> borrowed_at (rv_borrowed rv) id n) as HB'.
  { intros id n (json & d & Hl & Hd). exists json, d. split; [|done]. by eapply lookup_weaken. }
  assert (∀ n, submitted_at S' n -> submitted_at (rv_submitted rv) n) as HS'.
  { intros n [m Hm]. exists m. by eapply lookup_weaken. }
  split; simpl.
  - intros id json Hl. eapply Hp, lookup_weaken; eauto.
  - intros m s Hm. eapply Hr, lookup_weaken; eauto.
  - done.
  - eauto.
  - intros id n Hid Hs. apply (Hbs id n); eauto.
  - intros n [m Hm]. destruct (Hrf n) as [H1 H2]; [exists m; by eapply lookup_weaken|].
    split; [eauto|]. intros id Hid. apply (H2 id). auto.
Qed.

(** Fresh nonces at and above the counter. *)
Lemma nonces_ok_increment rv cur o' B' :
  nonces_ok rv -> rv_optimistic rv ≫= parse_u64 = Some cur -> (cur <= o')%N -> is_u64 o' ->
  (∀ id json, B' !! id = Some json -> rv_borrowed rv !! id = Some json \/
     ∃ d, from_json json = Some d /\ bd_transaction_id d = id /\ (cur <= bd_nonce d < o')%N) ->
  (∀ id1 id2 n, (cur <= n)%N -> borrowed_at B' id1 n -> borrowed_at B' id2 n -> id1 = id2) ->
  nonces_ok (mkReservations (Some (u64_to_string o')) B' (rv_submitted rv) (rv_recycled rv)).
Proof.
  intros [Hp Hr Hb Hi Hbs Hrf] Ho Hle Hu HB Hnew.
  assert (∀ n, taken rv n -> (n < cur)%N) as Hlt by (intros n Ht; destruct (Hb n Ht); naive_solver).
  assert (∀ id n, borrowed_at B' id n -> (n < cur /\ borrowed_at (rv_borrowed rv) id n \/ cur <= n < o')%N)
    as Hcases.
  { intros id n (json & d & Hl & Hd & <-). destruct (HB _ _ Hl) as [Hold|(d' & Hd' & _ & Hn)].
    - left. assert (borrowed_at (rv_borrowed rv) id (bd_nonce d)) by (by exists json, d).
      split; [|done]. apply Hlt. left. eauto.
    - right. congruence. }
  split; simpl.
  - intros id json Hl. destruct (HB _ _ Hl) as [Hold|(d & Hd & Hid & _)]; eauto.
  - done.
  - intros n Ht. exists o'. rewrite parse_u64_to_string by done. split; [done|].
    destruct Ht as [[id Hid]|Ht]; simpl in *.
    + destruct (Hcases _ _ Hid); lia.
    + assert (n < cur)%N by (apply Hlt; right; done). lia.
  - intros id1 id2 n H1 H2. destruct (Hcases _ _ H1) as [[? ?]|?], (Hcases _ _ H2) as [[? ?]|?];
      try lia; eauto. apply (Hnew id1 id2 n); [lia|done|done].
  - intros id n Hid Hs. destruct (Hcases _ _ Hid) as [[_ Hold]|?]; [by apply (Hbs id n)|].
    assert (n < cur)%N by (apply Hlt; right; by left). lia.
  - intros n Hrec. destruct (Hrf n Hrec) as [H1 H2]. split; [done|]. intros id Hid.
    destruct (Hcases _ _ Hid) as [[_ Hold]|?]; [by apply (H2 id)|].
    assert (n < cur)%N by (apply Hlt; right; by right). lia.
Qed.

(** Recycled nonces bound to new transactions and taken out of the recycled set. *)
Lemma nonces_ok_recycle rv B' R' :
  nonces_ok rv -> R' ⊆ rv_recycled rv ->
  (∀ id json, B' !! id = Some json -> rv_borrowed rv !! id = Some json \/
     ∃ d, from_json json = Some d /\ bd_transaction_id d = id /\
          recycled_at (rv_recycled rv) (bd_nonce d) /\ ¬ recycled_at R' (bd_nonce d)) ->
  (∀ id1 id2 n, recycled_at (rv_recycled rv) n -> borrowed_at B' id1 n -> borrowed_at B' id2 n ->
     id1 = id2) ->
  nonces_ok (mkReservations (rv_optimistic rv) B' (rv_submitted rv) R').
Proof.
  intros [Hp Hr Hb Hi Hbs Hrf] HR HB Hnew.
  assert (∀ n, recycled_at R' n -> recycled_at (rv_recycled rv) n) as HR'.
  { intros n [m Hm]. exists m. by eapply lookup_weaken. }
  assert (∀ id n, borrowed_at B' id n -> borrowed_at (rv_borrowed rv) id n \/
            recycled_at (rv_recycled rv) n /\ ¬ recycled_at R' n) as Hcases.
  { intros id n (json & d & Hl & Hd & <-). destruct (HB _ _ Hl) as [Hold|(d' & Hd' & _ & Hn)].
    - left. by exists json, d.
    - right. congruence. }
  split; simpl.
  - intros id json Hl. destruct (HB _ _ Hl) as [Hold|(d & Hd & Hid & _)]; eauto.
  - intros m s Hm. eapply Hr, lookup_weaken; eauto.
  - intros n Ht. apply Hb. destruct Ht as [[id Hid]|[Hs|Hrec]]; simpl in *.
    + destruct (Hcases _ _ Hid) as [?|[? _]]; [left; eauto|right; by right].
    + right; by left.
    + right; right; auto.
  - intros id1 id2 n H1 H2. destruct (Hcases _ _ H1) as [Ho1|[Hr1 _]]; [|by apply (Hnew id1 id2 n)].
    destruct (Hcases _ _ H2) as [Ho2|[Hr2 _]]; [eauto|by apply (Hnew id1 id2 n)].
  - intros id n Hid Hs. destruct (Hcases _ _ Hid) as [Hold|[Hrec _]]; [by apply (Hbs id n)|].
    by apply (Hrf n Hrec).
  - intros n Hrec. destruct (Hrf n (HR' _ Hrec)) as [H1 H2]. split; [done|]. intros id Hid.
    destruct (Hcases _ _ Hid) as [Hold|[_ Hno]]; [by apply (H2 id)|done].
Qed.

(** New submitted records at nonces that were borrowed (and no longer are), already
    submitted, or recycled (and no longer are). *)
Lemma nonces_ok_submit rv B' S' R' :
  nonces_ok rv -> B' ⊆ rv_borrowed rv -> R' ⊆ rv_recycled rv ->
  (∀ m n, S' !! m = Some n -> submitted_at (rv_submitted rv) n \/
     (∃ id, borrowed_at (rv_borrowed rv) id n /\ B' !! id = None) \/
     (recycled_at (rv_recycled rv) n /\ ¬ recycled_at R' n)) ->
  nonces_ok (mkReservations (rv_optimistic rv) B' S' R').
Proof.
  intros [Hp Hr Hb Hi Hbs Hrf] HB HR HS.
  assert (∀ id n, borrowed_at B' id n -> borrowed_at (rv_borrowed rv) id n) as HB'.
  { intros id n (json & d & Hl & Hd). exists json, d. split; [|done]. by eapply lookup_weaken. }
  assert (∀ n, recycled_at R' n -> recycled_at (rv_recycled rv) n) as HR'.
  { intros n [m Hm]. exists m. by eapply lookup_weaken. }
  split; simpl.
  - intros id json Hl. eapply Hp, lookup_weaken; eauto.
  - intros m s Hm. eapply Hr, lookup_weaken; eauto.
  - intros n Ht. apply Hb. destruct Ht as [[id Hid]|[[m Hm]|Hrec]]; simpl in *.
    + left; eauto.
    + destruct (HS _ _ Hm) as [?|[(id & ? & _)|[? _]]]; [right; by left|left; eauto|right; by right].
    + right; right; auto.
  - eauto.
  - intros id n Hid [m Hm]. destruct (HS _ _ Hm) as [Hs|[(id' & Hb' & Hno)|[Hrec _]]].
    + apply (Hbs id n); eauto.
    + assert (id = id') as -> by eauto. destruct Hid as (? & ? & Hl & _). congruence.
    + destruct (Hrf n Hrec) as [_ H2]. apply (H2 id). auto.
  - intros n Hrec. destruct (Hrf n (HR' _ Hrec)) as [H1 H2]. split; [|intros id Hid; eapply H2; eauto].
    intros [m Hm]. destruct (HS _ _ Hm) as [Hs|[(id' & Hb' & Hno)|[_ Hno]]]; [done|by eapply H2|done].
Qed.
End Reservations.

(** ** The store's reservations *)

Lemma as_opt_u64_Some s n : as_opt_u64 s = Ok (Some n) <-> s ≫= parse_u64 = Some n.
Proof. destruct s as [s|]; simpl; [|done]. destruct (parse_u64 s); naive_solver. Qed.

(** Successive reads of a validation that answered Ok. *)
Ltac read_Ok H x Hx :=
  apply (run_alone_let_Ok (fun _ => True)) in H as (x & Hx & H);
  [|solve [reads_tac]].

Section Ops.
Context `{Carried} `{!Json EoaTransactionRequest, !Json BorrowedTransactionData,
  !Json TransactionAttempt, !Json EoaHealth}
  `{!Json (WebhookNotificationEnvelope EoaEventPayload), !Json WebhookJobPayload}.
Context (ks : EoaExecutorStoreKeys) (worker_id wq : string) (uuid : nat -> nat -> string).
Context (finality_json : FinalityEvidence -> string) (ttl_seconds : N).

Definition reservations_of (σ : redis) : reservations :=
  mkReservations (str σ (optimistic_transaction_count_key_name ks))
    (hash σ (borrowed_transactions_hashmap_name ks))
    (zset σ (submitted_transactions_zset_name ks))
    (zset σ (recycled_nonces_zset_name ks)).
Definition nonce_invariant (σ : redis) : Prop := nonces_ok (reservations_of σ).

(** The keys that hold reservations. *)
Definition reservation_key (k : string) : Prop :=
  k = optimistic_transaction_count_key_name ks \/ k = borrowed_transactions_hashmap_name ks \/
  k = submitted_transactions_zset_name ks \/ k = recycled_nonces_zset_name ks.

Lemma reservations_same σ σ' :
  agree_on reservation_key σ σ' -> reservations_of σ' = reservations_of σ.
Proof.
  intros Ha. unfold reservations_of.
  rewrite (sa_str _ _ _ (Ha (optimistic_transaction_count_key_name ks) ltac:(by left))).
  rewrite (sa_hash _ _ _ (Ha (borrowed_transactions_hashmap_name ks) ltac:(right; by left))).
  rewrite (sa_zset _ _ _ (Ha (submitted_transactions_zset_name ks) ltac:(right; right; by left))).
  by rewrite (sa_zset _ _ _ (Ha (recycled_nonces_zset_name ks) ltac:(by do 3 right))).
Qed.

(** Commands on other keys. *)
Lemma nonce_invariant_frame p σ :
  Forall (fun c => ¬ reservation_key (wkey c)) p -> nonce_invariant σ ->
  nonce_invariant (prun p σ).
Proof.
  intros Hp Hi. unfold nonce_invariant. rewrite (reservations_same σ); [done|].
  intros k Hk. apply prun_same. eapply Forall_impl; [done|]. intros c Hc Heq. by subst k.
Qed.

(** Which allocation a batch of [(transaction, json)] commands makes. *)
Lemma move_cmds_HSET txs jsons k f v :
  HSET k f v ∈ (zip txs jsons ≫= move_to_borrowed_cmds ks) ->
  ∃ tx, (tx, v) ∈ zip txs jsons /\ f = bd_transaction_id tx.
Proof.
  intros ([tx json] & Hc & Hin)%list_elem_of_bind. simpl in Hc.
  exists tx. set_solver.
Qed.

Lemma zip_json_Forall2 (txs : list BorrowedTransactionData) jsons tx json :
  Forall2 (fun tx json => to_json tx = Some json) txs jsons ->
  (tx, json) ∈ zip txs jsons -> tx ∈ txs /\ from_json json = Some tx.
Proof.
  intros Hf (i & Hi)%list_elem_of_lookup. apply lookup_zip_Some in Hi as [Ht Hj].
  split; [by eapply list_elem_of_lookup_2|].
  apply json_round_trip. exact (Forall2_lookup_lr _ _ _ i _ _ Hf Ht Hj).
Qed.

Lemma incremented_facts txs now σ jsons :
  (run_alone (incremented_validation ks txs now) σ).1 = Ok jsons ->
  ∃ cur k, length txs = S k /\
    str σ (optimistic_transaction_count_key_name ks) ≫= parse_u64 = Some cur /\
    NoDup (map bd_nonce txs) /\ NoDup (map bd_transaction_id txs) /\
    map bd_nonce txs ≡ₚ map (fun j => cur + N.of_nat j)%N (seq 0 (length txs)) /\
    (cur + N.of_nat (length txs) <= U64_MAX)%N /\
    (∀ tx, tx ∈ txs -> is_Some (zset σ (pending_transactions_zset_name ks) !! bd_transaction_id tx)) /\
    Forall2 (fun tx json => to_json tx = Some json) txs jsons.
Proof.
  unfold incremented_validation. case_decide as Hne; [done|]. intros Hv.
  read_Ok Hv u Hu. read_Ok Hv o Ho. read_Ok Hv cur Hcur. read_Ok Hv u2 Hseq. read_Ok Hv u3 Hpend.
  unfold get_u64 in Ho. rewrite run_alone_read_fst in Ho. cbn in Hu, Hcur, Hseq, Hv.
  destruct u, u2, u3. apply unique_allocations_Ok in Hu as (Hn & Hi & _).
  destruct o as [o|]; cbn in Hcur; [|done]. injection Hcur as <-.
  destruct (as_opt_u64 _) as [o'|] eqn:E; simplify_eq/=. apply as_opt_u64_Some in E.
  apply sequential_nonces_Ok in Hseq as [Hperm Hb].
  destruct txs as [|tx txs]; [done|].
  exists o, (length txs). split_and!; try done; [by apply Hb| |by apply serialize_borrowed_Ok].
  intros tx' Htx'. eapply check_pending_Ok; [done|]. by apply list_elem_of_fmap_2.
Qed.

Lemma incremented_preserves txs now σ σ' r :
  nonce_invariant σ ->
  atomic_step ks worker_id (MovePendingToBorrowedWithIncrementedNonces ks txs) now σ = Ok (σ', r) ->
  nonce_invariant σ'.
Proof.
  intros Hinv (_ & jsons & pipe & Hv & Hop & _ & ->)%atomic_step_Ok. cbn in Hv, Hop.
  apply incremented_facts in Hv as (cur & k & Hlen & Hcur & Hn & Hi & Hperm & Hb & _ & Hj).
  unfold incremented_operation in Hop.
  rewrite (list_max_perm _ _ Hperm), Hlen, list_max_seq in Hop. cbn in Hop. simplify_eq.
  set (o' := (cur + N.of_nat k + 1)%N). set (cmds := zip txs jsons ≫= move_to_borrowed_cmds ks).
  set (p := cmds ++ [SET (optimistic_transaction_count_key_name ks) (u64_to_string o')]).
  assert (∀ k, k <> pending_transactions_zset_name ks -> k <> borrowed_transactions_hashmap_name ks ->
            k <> optimistic_transaction_count_key_name ks -> same_at k σ (prun p σ)) as Hf.
  { intros key H1 H2 H3. apply prun_same, Forall_app. split; [|repeat constructor; done].
    apply Forall_forall. intros c ([tx json] & Hc & _)%list_elem_of_bind. simpl in Hc. set_solver. }
  unfold nonce_invariant, reservations_of.
  rewrite <- (sa_zset _ _ _ (Hf (submitted_transactions_zset_name ks)
    ltac:(keys_ne) ltac:(keys_ne) ltac:(keys_ne))).
  rewrite <- (sa_zset _ _ _ (Hf (recycled_nonces_zset_name ks)
    ltac:(keys_ne) ltac:(keys_ne) ltac:(keys_ne))).
  unfold p at 1. rewrite (str_prun_last cmds []) by constructor.
  apply (nonces_ok_increment (reservations_of σ) cur o' _ Hinv Hcur); [lia|unfold is_u64; lia| |].
  - intros id json [Hc|Hl]%hash_prun_inv; [right|by left].
    assert (HSET (borrowed_transactions_hashmap_name ks) id json ∈ cmds) as Hc' by set_solver.
    apply move_cmds_HSET in Hc' as (tx & Hz & ->).
    destruct (zip_json_Forall2 _ _ _ _ Hj Hz) as [Htx Hd]. exists tx. split_and!; try done.
    all: apply (list_elem_of_fmap_2 bd_nonce) in Htx; rewrite Hperm in Htx.
    all: apply list_elem_of_fmap in Htx as (j & -> & Hjj%elem_of_seq); lia.
  - assert (∀ id n, (cur <= n)%N -> borrowed_at (hash (prun p σ)
      (borrowed_transactions_hashmap_name ks)) id n ->
      ∃ tx, tx ∈ txs /\ bd_transaction_id tx = id /\ bd_nonce tx = n) as Hnew.
    { intros id n Hle (json & d & Hl & Hd & <-). apply hash_prun_inv in Hl as [Hc|Hl].
      - assert (HSET (borrowed_transactions_hashmap_name ks) id json ∈ cmds) as Hc' by set_solver.
        apply move_cmds_HSET in Hc' as (tx & Hz & ->).
        destruct (zip_json_Forall2 _ _ _ _ Hj Hz) as [Htx Hd']. exists tx. naive_solver.
      - destruct (no_bound _ Hinv (bd_nonce d)) as (o & Ho & Hlt).
        + left. exists id, json, d. done.
        + cbn in Ho. simplify_eq. lia. }
    intros id1 id2 n Hle H1 H2.
    destruct (Hnew _ _ Hle H1) as (t1 & Ht1 & <- & Hn1), (Hnew _ _ Hle H2) as (t2 & Ht2 & <- & Hn2).
    f_equal. apply (NoDup_map_inj bd_nonce txs); [done|done|done|congruence].
Qed.
(** The recycled set as numbers, when its members are the printed scores. *)
Lemma recycled_listed (R : gmap string N) recs n :
  (∀ m s, R !! m = Some s -> m = u64_to_string s /\ is_u64 s) ->
  as_u64_list (zrange R).*1 = Ok recs -> n ∈ recs -> R !! u64_to_string n = Some n.
Proof.
  intros Hwf Hc%collect_results_Ok Hn.
  apply list_elem_of_lookup in Hn as [i Hi].
  destruct (Forall2_lookup_r _ _ _ _ _ Hc Hi) as (m & Hm & Hp).
  apply list_elem_of_lookup_2, list_elem_of_fmap in Hm as ([m' s] & -> & Hz).
  apply elem_of_zrange in Hz. destruct (Hwf _ _ Hz) as [Heq Hs]. cbn [fst] in Hp.
  rewrite Heq, parse_u64_to_string in Hp by done. cbn in Hp. by simplify_eq.
Qed.

Lemma recycled_facts txs now σ jsons :
  (run_alone (recycled_validation ks txs now) σ).1 = Ok jsons ->
  ∃ recs, as_u64_list (zrange (zset σ (recycled_nonces_zset_name ks))).*1 = Ok recs /\
    NoDup (map bd_nonce txs) /\ NoDup (map bd_transaction_id txs) /\
    (∀ tx, tx ∈ txs -> bd_nonce tx ∈ recs) /\
    (∀ tx, tx ∈ txs -> is_Some (zset σ (pending_transactions_zset_name ks) !! bd_transaction_id tx)) /\
    Forall2 (fun tx json => to_json tx = Some json) txs jsons.
Proof.
  unfold recycled_validation. case_decide as Hne; [done|]. intros Hv.
  read_Ok Hv u Hu. read_Ok Hv recs Hr. read_Ok Hv u2 Hrec. read_Ok Hv u3 Hpend.
  unfold get_recycled_nonces in Hr. rewrite run_alone_read_fst in Hr. cbn in Hu, Hrec, Hv.
  destruct u, u2, u3. apply unique_allocations_Ok in Hu as (Hn & Hi & _).
  destruct (as_u64_list _) as [recs'|] eqn:E; simplify_eq/=.
  exists recs. split_and!; try done; [by apply check_recycled_Ok| |by apply serialize_borrowed_Ok].
  intros tx' Htx'. eapply check_pending_Ok; [done|]. by apply list_elem_of_fmap_2.
Qed.

Lemma recycled_cmds_HSET txs jsons k f v :
  HSET k f v ∈ (zip txs jsons ≫= recycled_cmds ks) ->
  ∃ tx, (tx, v) ∈ zip txs jsons /\ f = bd_transaction_id tx.
Proof.
  intros ([tx json] & Hc & Hin)%list_elem_of_bind. simpl in Hc.
  exists tx. set_solver.
Qed.

(** No ZADD: a sorted set only loses members. *)
Lemma zset_prun_subseteq p σ k :
  (∀ items, ZADD k items ∉ p) -> zset (prun p σ) k ⊆ zset σ k.
Proof.
  intros Hno. apply map_subseteq_spec. intros m s [(items & Hin & _)|Hm]%zset_prun_inv; [|done].
  by destruct (Hno items).
Qed.
Lemma hash_prun_subseteq p σ k :
  (∀ f v, HSET k f v ∉ p) -> hash (prun p σ) k ⊆ hash σ k.
Proof.
  intros Hno. apply map_subseteq_spec. intros f v [Hin|Hm]%hash_prun_inv; [|done].
  by destruct (Hno f v).
Qed.

Lemma recycled_preserves txs now σ σ' r :
  nonce_invariant σ ->
  atomic_step ks worker_id (MovePendingToBorrowedWithRecycledNonces ks txs) now σ = Ok (σ', r) ->
  nonce_invariant σ'.
Proof.
  intros Hinv (_ & jsons & pipe & Hv & Hop & _ & ->)%atomic_step_Ok. cbn in Hv, Hop.
  apply recycled_facts in Hv as (recs & Hrecs & Hn & Hi & Hin & _ & Hj).
  unfold recycled_operation in Hop. simplify_eq. set (p := zip txs jsons ≫= recycled_cmds ks).
  pose proof (no_recycled _ Hinv) as Hwf. cbn in Hwf.
  assert (∀ k, k <> pending_transactions_zset_name ks -> k <> borrowed_transactions_hashmap_name ks ->
            k <> recycled_nonces_zset_name ks -> same_at k σ (prun p σ)) as Hf.
  { intros key H1 H2 H3. apply prun_same, Forall_forall.
    intros c ([tx json] & Hc & _)%list_elem_of_bind. simpl in Hc. set_solver. }
  assert (∀ items k, ZADD k items ∉ p) as Hnoadd.
  { intros items k ([tx json] & Hc & _)%list_elem_of_bind. simpl in Hc. set_solver. }
  unfold nonce_invariant, reservations_of.
  rewrite <- (sa_zset _ _ _ (Hf (submitted_transactions_zset_name ks)
    ltac:(keys_ne) ltac:(keys_ne) ltac:(keys_ne))).
  rewrite <- (sa_str _ _ _ (Hf (optimistic_transaction_count_key_name ks)
    ltac:(keys_ne) ltac:(keys_ne) ltac:(keys_ne))).
  assert (∀ id json, hash (prun p σ) (borrowed_transactions_hashmap_name ks) !! id = Some json ->
    hash σ (borrowed_transactions_hashmap_name ks) !! id = Some json \/
    ∃ tx, tx ∈ txs /\ from_json json = Some tx /\ bd_transaction_id tx = id /\
      (tx, json) ∈ zip txs jsons) as HB.
  { intros id json [Hc|Hl]%hash_prun_inv; [right|by left].
    apply recycled_cmds_HSET in Hc as (tx & Hz & ->).
    destruct (zip_json_Forall2 _ _ _ _ Hj Hz). eauto 6. }
  apply (nonces_ok_recycle (reservations_of σ) _ _ Hinv).
  - by apply zset_prun_subseteq.
  - intros id json [Hl|(tx & Htx & Hd & Hid & Hz)]%HB; [by left|right].
    exists tx. split_and!; try done.
    + exists (u64_to_string (bd_nonce tx)). eapply recycled_listed; eauto.
    + intros [m Hm]. assert (zset σ (recycled_nonces_zset_name ks) !! m = Some (bd_nonce tx)) as Hm'
        by (eapply lookup_weaken; [done|by apply zset_prun_subseteq]).
      destruct (Hwf _ _ Hm') as [-> _]. rewrite (zset_prun_removed p σ _ [u64_to_string (bd_nonce tx)]) in Hm;
        [done| |set_solver|].
      * apply list_elem_of_bind. exists (tx, json). split; [set_solver|done].
      * intros items Hc. by destruct (Hnoadd _ _ Hc).
  - assert (∀ id n, recycled_at (zset σ (recycled_nonces_zset_name ks)) n ->
      borrowed_at (hash (prun p σ) (borrowed_transactions_hashmap_name ks)) id n ->
      ∃ tx, tx ∈ txs /\ bd_transaction_id tx = id /\ bd_nonce tx = n) as Hnew.
    { intros id n Hrec (json & d & [Hl|(tx & Htx & Hd' & Hid & _)]%HB & Hd & <-).
      - destruct (no_recycled_free _ Hinv _ Hrec) as [_ Hno]. destruct (Hno id). by exists json, d.
      - exists tx. naive_solver. }
    intros id1 id2 n Hrec H1 H2.
    destruct (Hnew _ _ Hrec H1) as (t1 & Ht1 & <- & Hn1), (Hnew _ _ Hrec H2) as (t2 & Ht2 & <- & Hn2).
    f_equal. apply (NoDup_map_inj bd_nonce txs); [done|done|done|congruence].
Qed.
(** ** Dispatch results *)

(** What the worker guarantees: a result carries the nonce of the borrowed record it
    was made from. *)
Definition results_match (results : list SubmissionResult) (σ : redis) : Prop :=
  ∀ result json d, result ∈ results ->
    hash σ (borrowed_transactions_hashmap_name ks) !! sr_transaction_id result = Some json ->
    from_json json = Some d -> bd_nonce d = sd_nonce (st_data (sr_transaction result)).

Lemma borrowed_facts results now σ valid :
  (run_alone (borrowed_validation ks results now) σ).1 = Ok valid ->
  valid = filter (fun r => sr_transaction_id r ∈
    dom (hash σ (borrowed_transactions_hashmap_name ks))) results.
Proof. unfold borrowed_validation. cbn. by intros [= <-]. Qed.

Lemma borrowed_preserves results now σ σ' r :
  webhook_apart ks wq -> nonce_invariant σ -> results_match results σ ->
  atomic_step ks worker_id (ProcessBorrowedTransactions ks wq uuid results) now σ = Ok (σ', r) ->
  nonce_invariant σ'.
Proof.
  intros Hwa Hinv Hm (_ & valid & pipe & Hv & Hop & _ & ->)%atomic_step_Ok. cbn in Hv, Hop.
  apply (borrowed_facts results now) in Hv.
  assert (pipe = (process_borrowed_loop ks wq uuid now 0 valid borrowed_report_default).1) as Hpipe
    by (by rewrite <- (borrowed_operation_pipe ks wq uuid results now valid), Hop).
  set (B := borrowed_transactions_hashmap_name ks) in *.
  assert (∀ c, c ∈ pipe -> webhook_key wq (wkey c) \/
    ∃ result, result ∈ valid /\ is_uncertain result = false /\ c ∈ settle_cmds ks result) as Hc.
  { intros c. rewrite Hpipe. apply process_borrowed_loop_cmds. }
  assert (∀ k, webhook_key wq (key_name ks k) -> False) as Hapart.
  { intros k Hk. by eapply (webhook_key_apart ks wq). }
  assert (∀ k, k = KOptimistic \/ k = KRecycled -> same_at (key_name ks k) σ (prun pipe σ)) as Hf.
  { intros k Hk. apply prun_same, Forall_forall. intros c Hin Heq.
    destruct (Hc c Hin) as [Hw|(result & _ & _ & Hs)].
    - rewrite Heq in Hw. by apply (Hapart k).
    - unfold settle_cmds in Hs. rewrite !elem_of_cons, elem_of_nil in Hs.
      destruct Hs as [->|[->|[->|[->|[]]]]]; cbn [wkey] in Heq; revert Heq;
        destruct Hk as [-> | ->]; cbn [key_name]; keys_ne. }
  assert (∀ f v, HSET B f v ∉ pipe) as HnoB.
  { intros f v Hin. destruct (Hc _ Hin) as [Hw|(result & _ & _ & Hs)].
    - by apply (Hapart KBorrowed).
    - unfold settle_cmds in Hs. rewrite !elem_of_cons, elem_of_nil in Hs.
      destruct Hs as [[=]|[[=]|[[=]|[[= Heq _ _]|[]]]]]. revert Heq. subst B. keys_ne. }
  unfold nonce_invariant, reservations_of. fold B.
  change (optimistic_transaction_count_key_name ks) with (key_name ks KOptimistic).
  rewrite <- (sa_str _ _ _ (Hf KOptimistic ltac:(by left))).
  change (recycled_nonces_zset_name ks) with (key_name ks KRecycled).
  rewrite <- (sa_zset _ _ _ (Hf KRecycled ltac:(by right))).
  apply (nonces_ok_submit (reservations_of σ)); [done|by apply hash_prun_subseteq|done|].
  intros m n [(items & Hin & Hmn)|Hold]%zset_prun_inv; [|left; by exists m].
  destruct (Hc _ Hin) as [Hw|(result & Hval & Hunc & Hs)]; [by destruct (Hapart KSubmitted)|].
  unfold settle_cmds in Hs. rewrite !elem_of_cons, elem_of_nil in Hs.
  destruct Hs as [?|[Heq|[?|[?|[]]]]]; simplify_eq.
  apply list_elem_of_singleton in Hmn. simplify_eq.
  apply list_elem_of_filter in Hval as [[json Hj]%elem_of_dom Hres].
  destruct (no_parses _ Hinv _ _ Hj) as (d & Hd & _). right; left.
  exists (sr_transaction_id result). split.
  - exists json, d. by rewrite (Hm result json d).
  - apply hash_prun_removed; [|intros v; apply HnoB].
    eapply process_borrowed_loop_settles; [|done|].
    + apply list_elem_of_filter. split; [|done]. by apply elem_of_dom.
    + unfold settle_cmds. set_solver.
Qed.
(** ** Settlement *)

(** Commands that can only take reservations away. *)
Definition releasing (c : wcmd) : Prop :=
  ¬ reservation_key (wkey c) \/ ∃ m, c = ZREM (submitted_transactions_zset_name ks) [m].

Lemma releasing_preserves p σ :
  Forall releasing p -> nonce_invariant σ -> nonce_invariant (prun p σ).
Proof.
  rewrite Forall_forall. intros Hp Hinv.
  assert (∀ k, reservation_key k -> k <> submitted_transactions_zset_name ks ->
            same_at k σ (prun p σ)) as Hf.
  { intros k Hk Hne. apply prun_same, Forall_forall. intros c Hc Heq.
    destruct (Hp c Hc) as [Hno|[m ->]]; [by subst k|]. cbn in Heq. congruence. }
  unfold nonce_invariant, reservations_of.
  rewrite <- (sa_str _ _ _ (Hf (optimistic_transaction_count_key_name ks)
    ltac:(by left) ltac:(keys_ne))).
  rewrite <- (sa_hash _ _ _ (Hf (borrowed_transactions_hashmap_name ks)
    ltac:(right; by left) ltac:(keys_ne))).
  rewrite <- (sa_zset _ _ _ (Hf (recycled_nonces_zset_name ks)
    ltac:(by do 3 right) ltac:(keys_ne))).
  assert (zset (prun p σ) (submitted_transactions_zset_name ks)
            ⊆ zset σ (submitted_transactions_zset_name ks)) as HS.
  { apply zset_prun_subseteq. intros items Hin.
    destruct (Hp _ Hin) as [Hno|[m ?]]; [|done]. apply Hno. right; right; by left. }
  apply (nonces_ok_shrink (reservations_of σ)); try done.
  intros n Ht. apply (no_bound _ Hinv). destruct Ht as [?|[[m Hm]|?]]; [by left| |by right; right].
  right; left. exists m. by eapply lookup_weaken.
Qed.

Lemma clean_cmd_releasing counts confirmed txs now c :
  webhook_apart ks wq ->
  clean_cmd ks wq finality_json ttl_seconds counts confirmed txs now c -> releasing c.
Proof.
  intros Hwa [c' Hw|id conf c' _ Hk%completion_keys|tx m _ _ _|tx _ _|items _];
    [left|left|right; eauto|left|left].
  - intros Hk. assert (∃ k, wkey c' = key_name ks k) as [k Hk'].
    { destruct Hk as [->|[->|[->| ->]]]; [by exists KOptimistic|by exists KBorrowed
        |by exists KSubmitted|by exists KRecycled]. }
    rewrite Hk' in Hw. by apply (webhook_key_apart ks wq _ k Hwa) in Hw.
  - unfold reservation_key. destruct Hk as [->| ->]; intros [Hk|[Hk|[Hk|Hk]]]; revert Hk; keys_ne.
  - unfold reservation_key. cbn [wkey]. intros [Hk|[Hk|[Hk|Hk]]]; revert Hk; keys_ne.
  - unfold reservation_key. cbn [wkey]. intros [Hk|[Hk|[Hk|Hk]]]; revert Hk; keys_ne.
Qed.

Lemma clean_preserves counts confirmed now σ σ' r :
  webhook_apart ks wq -> nonce_invariant σ ->
  atomic_step ks worker_id
    (CleanSubmittedTransactions ks wq uuid finality_json ttl_seconds counts confirmed) now σ
    = Ok (σ', r) ->
  nonce_invariant σ'.
Proof.
  intros Hwa Hinv (_ & txs & pipe & _ & Hop & _ & ->)%atomic_step_Ok.
  apply releasing_preserves; [|done].
  pose proof (clean_operation_cmds ks wq uuid finality_json ttl_seconds counts confirmed txs now) as Hc.
  cbn in Hop. rewrite Hop in Hc. eapply Forall_impl; [exact Hc|].
  intros c. by apply clean_cmd_releasing.
Qed.

(** ** Trimming recycled nonces *)

Lemma recycle_facts now σ highest recs cur :
  (run_alone (recycle_validation ks now) σ).1 = Ok (highest, recs, cur) ->
  as_opt_u64 (str σ (optimistic_transaction_count_key_name ks)) = Ok cur /\
  ∃ nonces count,
    collect_results borrowed_nonce_of
      (map_to_list (hash σ (borrowed_transactions_hashmap_name ks))).*2 = Ok nonces /\
    as_opt_u64 (str σ (last_transaction_count_key_name ks)) = Ok (Some count) /\
    highest = option_max (option_max
      (snd <$> head (zrange_last (zset σ (submitted_transactions_zset_name ks))))
      (list_max nonces)) (checked_sub count 1).
Proof.
  unfold recycle_validation. intros Hv.
  read_Ok Hv hs Hhs. read_Ok Hv bs Hbs. read_Ok Hv ns Hns. read_Ok Hv co Hco. read_Ok Hv cnt Hcnt.
  read_Ok Hv rn Hrn. read_Ok Hv opt Hopt.
  unfold get_u64 in Hco, Hopt. rewrite run_alone_read_fst in Hhs. rewrite run_alone_read_fst in Hbs.
  rewrite run_alone_read_fst in Hco. rewrite run_alone_read_fst in Hopt.
  cbn in Hhs, Hbs, Hns, Hcnt, Hv. simplify_eq.
  destruct (as_opt_u64 (str σ (last_transaction_count_key_name ks))) as [lc|] eqn:E1; [|done].
  destruct (as_opt_u64 (str σ (optimistic_transaction_count_key_name ks))) as [oc|] eqn:E2; [|done].
  cbn in Hco, Hopt. simplify_eq. split; [done|].
  destruct co as [co|]; cbn in Hcnt; [|done]. simplify_eq. eauto 6.
Qed.

Lemma option_max_ge_l a b x : a = Some x -> ∃ y, option_max a b = Some y /\ (x <= y)%N.
Proof. intros ->. destruct b; simpl; eexists; split; [done|lia|done|lia]. Qed.
Lemma option_max_ge_r a b x : b = Some x -> ∃ y, option_max a b = Some y /\ (x <= y)%N.
Proof. intros ->. destruct a; simpl; eexists; split; [done|lia|done|lia]. Qed.

(** The highest nonce the cleanup computes is at least every reserved one. *)
Lemma recycle_highest now σ highest recs cur n :
  (run_alone (recycle_validation ks now) σ).1 = Ok (highest, recs, cur) ->
  (∃ id, borrowed_at (hash σ (borrowed_transactions_hashmap_name ks)) id n) \/
  submitted_at (zset σ (submitted_transactions_zset_name ks)) n ->
  ∃ h, highest = Some h /\ (n <= h)%N.
Proof.
  intros (_ & ns & count & Hns & _ & ->)%recycle_facts Hn.
  assert (∃ y, option_max (snd <$> head (zrange_last (zset σ
      (submitted_transactions_zset_name ks)))) (list_max ns) = Some y /\ (n <= y)%N)
    as (y & Hy & Hle).
  2: { destruct (option_max_ge_l _ (checked_sub count 1) _ Hy) as (z & -> & ?).
       exists z. split; [done|lia]. }
  destruct Hn as [(id & json & d & Hl & Hd & <-)|[m Hm]].
  - assert (bd_nonce d ∈ ns) as Hin.
    { apply collect_results_Ok in Hns. apply elem_of_map_to_list in Hl.
      apply (list_elem_of_fmap_2 snd), list_elem_of_lookup in Hl as [i Hi].
      destruct (Forall2_lookup_l _ _ _ _ _ Hns Hi) as (y & Hy & Hf).
      unfold borrowed_nonce_of, deser in Hf. cbn in Hf. rewrite Hd in Hf. cbn in Hf.
      simplify_eq. by eapply list_elem_of_lookup_2. }
    destruct (list_max ns) as [mx|] eqn:Hmx.
    + destruct (option_max_ge_r (snd <$> head (zrange_last (zset σ
        (submitted_transactions_zset_name ks)))) _ mx eq_refl) as (y & -> & ?).
      exists y. split; [done|]. pose proof (list_max_ge _ _ _ Hmx Hin). lia.
    + apply list_max_None in Hmx. subst. by apply elem_of_nil in Hin.
  - destruct (zrange_last (zset σ (submitted_transactions_zset_name ks))) as [|[m' s'] l] eqn:Hz.
    + apply zrange_last_nil in Hz. by rewrite Hz in Hm.
    + assert (l = []) as -> by (unfold zrange_last in Hz; case_match; by simplify_eq).
      pose proof (zrange_last_max _ _ _ _ _ Hz Hm).
      destruct (option_max_ge_l (Some s') (list_max ns) s' eq_refl) as (y & Hy & ?).
      exists y. split; [done|lia].
Qed.
(** The reservations after the trim: recycled nonces from [from] on are gone and the
    counter is [o]. *)
Definition trimmed (from : N) (o : option string) (σ : redis) : reservations :=
  mkReservations o (hash σ (borrowed_transactions_hashmap_name ks))
    (zset σ (submitted_transactions_zset_name ks))
    (zrem_from from (zset σ (recycled_nonces_zset_name ks))).

Lemma trimmed_reservations from v σ :
  let q := match v with
           | Some v => [ SET (optimistic_transaction_count_key_name ks) v ]
           | None => [] end in
  reservations_of (prun (ZREMRANGEBYSCORE (recycled_nonces_zset_name ks) from :: q) σ) =
  trimmed from (default (str σ (optimistic_transaction_count_key_name ks)) (Some <$> v)) σ.
Proof.
  unfold reservations_of, trimmed. destruct v as [v|]; cbn [prun foldl default fmap option_fmap option_map];
    view_simp; done.
Qed.

(** Trimming is safe when the new counter is above everything still taken. *)
Lemma trimmed_ok from o σ :
  nonce_invariant σ ->
  (∀ n, taken (trimmed from o σ) n -> ∃ c, o ≫= parse_u64 = Some c /\ (n < c)%N) ->
  nonces_ok (trimmed from o σ).
Proof.
  intros Hinv Hb. apply (nonces_ok_shrink (reservations_of σ)); try done.
  apply map_subseteq_spec. intros m n Hm. by apply lookup_zrem_from in Hm as [? _].
Qed.

Lemma trimmed_same from σ :
  nonce_invariant σ ->
  nonces_ok (trimmed from (str σ (optimistic_transaction_count_key_name ks)) σ).
Proof.
  intros Hinv. apply trimmed_ok; [done|]. intros n Ht. apply (no_bound _ Hinv).
  destruct Ht as [?|[?|[m Hm]]]; [by left|right; by left|right; right].
  exists m. by apply lookup_zrem_from in Hm as [? _].
Qed.

Lemma recycle_preserves now σ σ' r :
  nonce_invariant σ ->
  atomic_step ks worker_id (CleanAndGetRecycledNonces ks) now σ = Ok (σ', r) ->
  nonce_invariant σ'.
Proof.
  intros Hinv (_ & [[highest recs] cur] & pipe & Hv & Hop & _ & ->)%atomic_step_Ok.
  cbn [CleanAndGetRecycledNonces stx_validation stx_operation] in Hv, Hop.
  pose proof (fun n => recycle_highest _ _ _ _ _ n Hv) as Hhigh.
  apply recycle_facts in Hv as [Hcur _].
  unfold recycle_operation in Hop. injection Hop as <- <-.
  set (next := from_option (fun nonce => u64_saturating_add nonce 1) 0%N highest).
  unfold nonce_invariant.
  destruct cur as [cur|]; [|rewrite (trimmed_reservations _ None); by apply trimmed_same].
  destruct (N.ltb_spec next cur) as [Hlt|]; [|rewrite (trimmed_reservations _ None); by apply trimmed_same].
  rewrite (trimmed_reservations _ (Some _)). apply trimmed_ok; [done|]. intros n Ht.
  apply as_opt_u64_Some in Hcur.
  assert (is_u64 cur) as Hcu.
  { destruct (str σ _); cbn in Hcur; [|done]. eauto with engine. }
  exists next. cbn. rewrite parse_u64_to_string by (unfold is_u64 in *; lia). split; [done|].
  assert (∀ h, highest = Some h -> next = h + 1)%N as Hnext.
  { intros h ->. subst next. cbn. unfold u64_saturating_add, is_u64 in *. cbn in Hlt.
    unfold u64_saturating_add in Hlt. lia. }
  destruct Ht as [Hb|[Hs|[m Hm]]]; cbn in *.
  - destruct (Hhigh n) as (h & Hh & ?); [by left|]. rewrite (Hnext h Hh). lia.
  - destruct (Hhigh n) as (h & Hh & ?); [by right|]. rewrite (Hnext h Hh). lia.
  - apply lookup_zrem_from in Hm as [_ Hm]. destruct highest as [h|]; cbn in Hm; [|lia].
    rewrite (Hnext h eq_refl). lia.
Qed.

(** ** Reset and synchronisation *)

Lemma reset_facts now σ hu :
  (run_alone (reset_validation ks now) σ).1 = Ok hu ->
  zset σ (submitted_transactions_zset_name ks) = ∅ /\
  hash σ (borrowed_transactions_hashmap_name ks) = ∅.
Proof.
  unfold reset_validation. intros Hv. read_Ok Hv su Hsu. read_Ok Hv bo Hbo.
  cbn in Hsu, Hbo. simplify_eq. revert Hv. case_match eqn:E; [done|]. intros _.
  apply orb_false_iff in E as [E1%negb_false_iff%N.eqb_eq E2%negb_false_iff%N.eqb_eq].
  split; apply map_size_empty_inv; lia.
Qed.

Lemma reset_preserves count now σ σ' r :
  nonce_invariant σ ->
  atomic_step ks worker_id (ResetNoncesTransaction ks count) now σ = Ok (σ', r) ->
  nonce_invariant σ'.
Proof.
  intros Hinv (_ & hu & pipe & Hv & Hop & _ & ->)%atomic_step_Ok.
  cbn [ResetNoncesTransaction stx_validation stx_operation] in Hv, Hop.
  apply reset_facts in Hv as [HS HB]. unfold reset_operation in Hop. injection Hop as <-.
  rewrite prun_app. set (σ1 := prun _ σ).
  assert (nonce_invariant σ1 /\ reservations_of σ1 = reservations_of σ) as [Hinv1 Heq].
  { assert (agree_on reservation_key σ σ1) as Ha.
    { intros k Hk. apply prun_same. destruct hu; repeat constructor. cbn [wkey].
      destruct Hk as [->|[->|[->| ->]]]; keys_ne. }
    unfold nonce_invariant. by rewrite (reservations_same _ _ Ha). }
  unfold reservations_of in Heq. injection Heq as Ho HB1 HS1 HR1.
  unfold nonce_invariant, reservations_of. cbn [prun foldl]. view_simp.
  apply (nonces_ok_shrink (reservations_of σ1)); [done|done|done|apply map_empty_subseteq|].
  intros n [(id & json & d & Hl & _)|[[m Hm]|[m Hm]]]; cbn in *.
  - by rewrite HB1, HB in Hl.
  - by rewrite HS1, HS in Hm.
  - done.
Qed.

Lemma cached_count_preserves count o hu σ :
  is_u64 count -> as_opt_u64 (str σ (optimistic_transaction_count_key_name ks)) = Ok o ->
  nonce_invariant σ -> nonce_invariant (prun (cached_count_pipeline ks count o hu) σ).
Proof.
  intros Hcount Ho Hinv. unfold cached_count_pipeline. rewrite !prun_app.
  set (σ1 := prun [SET (last_transaction_count_key_name ks) _] σ).
  assert (reservations_of σ1 = reservations_of σ) as H1.
  { apply reservations_same. intros k Hk. apply prun_same. repeat constructor. cbn [wkey].
    destruct Hk as [->|[->|[->| ->]]]; keys_ne. }
  set (mid := match o with Some _ => _ | None => _ end). set (σ2 := prun mid σ1).
  assert (nonce_invariant σ2) as H2.
  2: { apply nonce_invariant_frame; [|done]. destruct hu; repeat constructor. cbn [wkey].
       intros [Hk|[Hk|[Hk|Hk]]]; revert Hk; keys_ne. }
  assert (mid = [] \/ mid = [SET (optimistic_transaction_count_key_name ks) (u64_to_string count)] /\
            ∀ n, taken (reservations_of σ) n -> (n < count)%N) as [Hm|[Hm Hlt]].
  { subst mid. destruct o as [o|].
    - destruct (N.ltb_spec o count); [right; split; [done|]|by left].
      intros n Hn. destruct (no_bound _ Hinv n Hn) as (o' & Ho' & ?).
      apply as_opt_u64_Some in Ho. cbn in Ho'. simplify_eq. lia.
    - right. split; [done|]. intros n Hn. destruct (no_bound _ Hinv n Hn) as (o' & Ho' & ?).
      apply as_opt_u64_Some in Ho'. cbn in Ho'. congruence. }
  - subst σ2. rewrite Hm. cbn [prun foldl]. unfold nonce_invariant. by rewrite H1.
  - subst σ2. rewrite Hm. unfold nonce_invariant, reservations_of at 1. cbn [prun foldl]. view_simp.
    rewrite (f_equal rv_borrowed H1 : hash _ _ = _), (f_equal rv_submitted H1 : zset _ _ = _),
      (f_equal rv_recycled H1 : zset _ _ = _).
    apply (nonces_ok_shrink (reservations_of σ)); try done.
    intros n Hn. exists count. cbn. rewrite parse_u64_to_string by done. split; [done|].
    apply Hlt. destruct Hn as [?|[?|?]]; [by left|right; by left|right; by right].
Qed.

(** ** Fee bumps and NOOPs *)

(** A fee bump reuses the nonce of a submitted record. *)
Lemma gas_bump_preserves stx signed json σ :
  submitted_at (zset σ (submitted_transactions_zset_name ks)) (sd_nonce stx) ->
  nonce_invariant σ -> nonce_invariant (prun (gas_bump_pipeline ks stx signed json) σ).
Proof.
  intros Hs Hinv. unfold nonce_invariant, reservations_of, gas_bump_pipeline.
  cbn [prun foldl to_redis_string_with_nonce]. view_simp.
  apply (nonces_ok_submit (reservations_of σ)); [done|done|done|].
  intros m n [Hin|Hold]%zadd_items_inv; [|left; by exists m].
  apply list_elem_of_singleton in Hin. simplify_eq. by left.
Qed.

(** A NOOP takes a recycled nonce, or is already recorded with it. *)
Definition noops_allowed (noops : list SubmittedNoopTransaction) (σ : redis) : Prop :=
  ∀ tx, tx ∈ noops ->
    zset σ (recycled_nonces_zset_name ks) !! u64_to_string (sn_nonce tx) = Some (sn_nonce tx) \/
    zset σ (submitted_transactions_zset_name ks) !! (noop_to_redis_string_with_nonce tx).1
      = Some (sn_nonce tx).

Lemma noop_preserves noops σ :
  noops_allowed noops σ -> nonce_invariant σ -> nonce_invariant (prun (noop_pipeline ks noops) σ).
Proof.
  intros Hal Hinv. unfold nonce_invariant, reservations_of, noop_pipeline.
  cbn [prun foldl]. view_simp.
  set (gone := map (fun tx => u64_to_string (sn_nonce tx)) noops).
  assert (zrem_members gone (zset σ (recycled_nonces_zset_name ks))
            ⊆ zset σ (recycled_nonces_zset_name ks)) as HR.
  { apply map_subseteq_spec. intros m n. rewrite lookup_zrem_members. by case_decide. }
  apply (nonces_ok_submit (reservations_of σ)); [done|done|done|].
  intros m n [Hin|Hold]%zadd_items_inv; [|left; by exists m].
  apply list_elem_of_fmap in Hin as (tx & Heq & Htx). cbn in Heq. simplify_eq.
  destruct (Hal tx Htx) as [Hr|Hs]; [right; right|left; eexists; exact Hs].
  split; [eexists; exact Hr|]. intros [m Hm].
  pose proof (lookup_weaken _ _ _ _ Hm HR) as Hm'.
  destruct (no_recycled _ Hinv _ _ Hm') as [-> _].
  rewrite lookup_zrem_members, decide_True in Hm; [done|].
  apply list_elem_of_fmap. eauto.
Qed.
End Ops.
