(* ===== verification/EoaClaims.v ===== *)
(** Theorems about the owner-fenced store: linearizability of every operation,
    the nonce-reservation invariant over all reachable states and under
    interference, and what each operation does when it commits. *)

From Stdlib Require Import String Ascii NArith Lia.
From stdpp Require Import base gmap strings list fin_maps sorting relations.
From S2P Require Import Prelude Redis RedisProg Json FinalityTypes QueueTypes Webhook EoaTypes.
From S2P Require Import EoaKeys EoaAtomic.
From S2P Require Import EoaStore EoaPending EoaBorrowed EoaSubmitted EoaOps.
From S2P Require Import EoaInvariant.

Section Fence.
Context (ks : EoaExecutorStoreKeys) (worker_id : string).

(** C6: A fenced transaction is linearizable.  Whatever other clients do between its
    commands and whichever commands fail or lose their reply, an Ok answer means that
    the operation took effect exactly once, as one atomic step (owner checked,
    validation repeated, all writes applied) in a state between the call and the
    return; any error but a Redis error means that it wrote nothing; and a Redis
    error leaves at most that one atomic step behind. *)
Theorem fenced_transaction_linearizable {V R} (tx : SafeRedisTransaction V R) F
    sch c σ out sch' c' σ' :
  validation_covered ks tx sch F -> sched_ok sch ->
  run (execute_with_watch_and_retry ks worker_id tx) sch c σ = (out, (sch', c', σ')) ->
  ∃ pre, sch = pre ++ sch' /\ outcome_ok ks worker_id tx σ (sched_steps pre) out σ'.
Proof.
  intros Hcov Hok Hrun.
  apply (execute_attempts_refines ks worker_id tx F sch MAX_RETRIES Hcov Hok sch c σ out sch' c' σ');
    [by intros s|done].
Qed.

(** With the server to itself a fenced transaction ends in its first attempt and
    answers and writes exactly what the atomic step says, errors included. *)
Theorem fenced_transaction_quiet {V R} (tx : SafeRedisTransaction V R) F sch c σ :
  (∀ now, reads_only F (stx_validation tx now)) -> quiet sch -> dirty c = false ->
  ∃ sch' c', run (execute_with_watch_and_retry ks worker_id tx) sch c σ =
    match atomic_step ks worker_id tx (sl_now (next_slot sch).1) σ with
    | Ok (σ2, r) => (Ok r, (sch', c', σ2))
    | Err e => (Err e, (sch', c', σ))
    end.
Proof. apply execute_attempts_quiet. Qed.

(** A worker that does not own the EOA writes nothing.  If the owner key names
    somebody else at every moment of the call, the call fails and the only changes
    are those of the other clients. *)
Theorem lost_owner_writes_nothing {V R} (tx : SafeRedisTransaction V R) F sch c σ out sch' c' σ' :
  validation_covered ks tx sch F -> sched_ok sch ->
  (∀ es1 es2, sched_steps sch = es1 ++ es2 ->
     str (run_steps es1 σ) (eoa_lock_key_name ks) <> Some worker_id) ->
  run (execute_with_watch_and_retry ks worker_id tx) sch c σ = (out, (sch', c', σ')) ->
  (∃ e, out = Err e) /\ ∃ pre, sch = pre ++ sch' /\ σ' = run_steps (sched_steps pre) σ.
Proof.
  intros Hcov Hok Hlost Hrun.
  destruct (execute_attempts_refines ks worker_id tx F sch MAX_RETRIES Hcov Hok
    sch c σ out sch' c' σ') as (pre & -> & Ho); [by intros s|done|].
  assert (∀ r, ¬ committed_once ks worker_id tx σ (sched_steps pre) r σ') as Hno.
  { intros r (es1 & es2 & now & σ2 & Hes & Hs & _). apply atomic_step_Ok in Hs as [Hown _].
    apply (Hlost es1 (es2 ++ sched_steps sch')); [|done].
    by rewrite sched_steps_app, Hes, <- app_assoc. }
  destruct out as [r|e]; [by destruct (Hno r)|]. split; [eauto|]. exists pre. split; [done|].
  destruct e; try exact Ho. destruct Ho as [Ho|[r Ho]]; [done|by destruct (Hno r)].
Qed.
End Fence.

Section Reachable.
Context `{Carried} `{!Json EoaTransactionRequest, !Json BorrowedTransactionData,
  !Json TransactionAttempt, !Json EoaHealth}
  `{!Json (WebhookNotificationEnvelope EoaEventPayload), !Json WebhookJobPayload}.
Context (ks : EoaExecutorStoreKeys) (wq : string) (Hwq : webhook_apart ks wq).
Context (finality_json : FinalityEvidence -> string) (ttl_seconds : N).

(** Every validation of the fenced operations reads only keys that the operation
    watches, so each is linearizable among arbitrary clients; the nonce reset also
    reads the health record and the cleanup the request data, which it does not
    watch. *)
Theorem fenced_validations_covered txs results ids pipe counts confirmed count uuid sch :
  validation_covered ks (MovePendingToBorrowedWithIncrementedNonces ks txs) sch
    (watched_by (MovePendingToBorrowedWithIncrementedNonces ks txs)) /\
  validation_covered ks (MovePendingToBorrowedWithRecycledNonces ks txs) sch
    (watched_by (MovePendingToBorrowedWithRecycledNonces ks txs)) /\
  validation_covered ks (ProcessBorrowedTransactions ks wq uuid results) sch
    (watched_by (ProcessBorrowedTransactions ks wq uuid results)) /\
  validation_covered ks (CleanAndGetRecycledNonces ks) sch
    (watched_by (CleanAndGetRecycledNonces ks)) /\
  validation_covered ks (FailPendingTransactions ks ids pipe) sch
    (watched_by (FailPendingTransactions ks ids pipe)) /\
  (untouched (fun k => k = eoa_health_key_name ks) (sched_steps sch) ->
   validation_covered ks (ResetNoncesTransaction ks count) sch
     (fun k => watched_by (ResetNoncesTransaction ks count) k \/ k = eoa_health_key_name ks)) /\
  (untouched (fun k => ∃ id, k = transaction_data_key_name ks id) (sched_steps sch) ->
   validation_covered ks
     (CleanSubmittedTransactions ks wq uuid finality_json ttl_seconds counts confirmed) sch
     (fun k => watched_by (CleanSubmittedTransactions ks wq uuid finality_json ttl_seconds counts
                             confirmed) k \/ ∃ id, k = transaction_data_key_name ks id)).
Proof.
  assert (∀ V R (tx : SafeRedisTransaction V R),
    (∀ now, reads_only (watched_by tx) (stx_validation tx now)) ->
    validation_covered ks tx sch (watched_by tx)) as Hw.
  { intros V R tx Hr. split; [done|]. intros k Hk. left. apply elem_of_cons. by right. }
  split_and!; try apply Hw; intros.
  - apply incremented_reads.
  - apply recycled_reads.
  - apply borrowed_reads.
  - apply recycle_reads.
  - apply fail_pending_reads.
  - split; [apply reset_reads|]. intros k [Hk|Hk]; [left; apply elem_of_cons; by right|right].
    intros s k' Hs ->. subst. eauto.
  - split; [apply clean_reads|]. intros k [Hk|[id Hk]]; [left; apply elem_of_cons; by right|right].
    intros s k' Hs ->. subst. eauto.
Qed.

(** One effect on the store: a committed fenced operation of some worker with what
    its caller guarantees, or an unfenced operation.  [SS_cached] writes under the count
    that the state holds; the code reads the count before it checks the owner, and
    [cached_count_linearizable] shows that this is the same. *)
Inductive store_step (σ : redis) : redis -> Prop :=
| SS_increment w txs now σ' r :
    atomic_step ks w (MovePendingToBorrowedWithIncrementedNonces ks txs) now σ = Ok (σ', r) ->
    store_step σ σ'
| SS_recycled w txs now σ' r :
    atomic_step ks w (MovePendingToBorrowedWithRecycledNonces ks txs) now σ = Ok (σ', r) ->
    store_step σ σ'
| SS_dispatched w uuid results now σ' r :
    results_match ks results σ ->
    atomic_step ks w (ProcessBorrowedTransactions ks wq uuid results) now σ = Ok (σ', r) ->
    store_step σ σ'
| SS_clean w uuid counts confirmed now σ' r :
    atomic_step ks w (CleanSubmittedTransactions ks wq uuid finality_json ttl_seconds counts
      confirmed) now σ = Ok (σ', r) ->
    store_step σ σ'
| SS_trim w now σ' r :
    atomic_step ks w (CleanAndGetRecycledNonces ks) now σ = Ok (σ', r) -> store_step σ σ'
| SS_reset w count now σ' r :
    atomic_step ks w (ResetNoncesTransaction ks count) now σ = Ok (σ', r) -> store_step σ σ'
| SS_cached count o hu :
    is_u64 count -> as_opt_u64 (str σ (optimistic_transaction_count_key_name ks)) = Ok o ->
    store_step σ (prun (cached_count_pipeline ks count o hu) σ)
| SS_bump stx signed json :
    submitted_at (zset σ (submitted_transactions_zset_name ks)) (sd_nonce stx) ->
    store_step σ (prun (gas_bump_pipeline ks stx signed json) σ)
| SS_noop noops :
    noops_allowed ks noops σ -> store_step σ (prun (noop_pipeline ks noops) σ)
| SS_fail uuid now failures :
    store_step σ (prun (fail_pending_pipeline ks wq uuid ttl_seconds now failures) σ)
| SS_health json : store_step σ (wrun (SET (eoa_health_key_name ks) json) σ)
| SS_admit id json now : store_step σ (admission_script ks id json now σ).1
| SS_schedule_reset json : store_step σ (wrun (SET (manual_reset_key_name ks) json) σ)
| SS_take_lock w : store_step σ (put_str (eoa_lock_key_name ks) w σ)
| SS_release_lock : store_step σ (wrun (DEL (eoa_lock_key_name ks)) σ)
| SS_orphan_pending id : store_step σ (wrun (ZREM (pending_transactions_zset_name ks) [id]) σ)
| SS_orphan_borrowed id : store_step σ (wrun (HDEL (borrowed_transactions_hashmap_name ks) id) σ)
| SS_foreign σ' : agree_on (reservation_key ks) σ σ' -> store_step σ σ'.

Lemma wrun_frame_invariant cmd σ :
  ¬ reservation_key ks (wkey cmd) -> nonce_invariant ks σ -> nonce_invariant ks (wrun cmd σ).
Proof. intros Hk. apply (nonce_invariant_frame ks [cmd]). by repeat constructor. Qed.

Ltac other_key :=
  cbn [wkey]; unfold reservation_key; intros [Hk|[Hk|[Hk|Hk]]]; revert Hk; keys_ne.

Lemma fail_pending_frame uuid now failures :
  Forall (fun cmd => ¬ reservation_key ks (wkey cmd))
    (fail_pending_pipeline ks wq uuid ttl_seconds now failures).
Proof.
  unfold fail_pending_pipeline. rewrite !Forall_app. split_and!.
  - repeat constructor. other_key.
  - apply Forall_forall. intros cmd ([p e] & Hc & _)%list_elem_of_bind.
    unfold failure_cmds in Hc. rewrite !elem_of_cons, elem_of_nil in Hc.
    destruct Hc as [->|[->|[->|[->|[->|[]]]]]]; other_key.
  - apply Forall_concat, Forall_forall. intros p Hp.
    apply list_elem_of_lookup in Hp as [i Hi]. rewrite list_lookup_imap in Hi.
    destruct (failures !! i) as [[pt e]|]; [|done]. cbn in Hi. injection Hi as <-.
    case_decide; [constructor|]. eapply Forall_impl; [apply queue_webhook_envelopes_ok|].
    intros cmd Hw Hk. assert (∃ k, wkey cmd = key_name ks k) as [k Hk'].
    { destruct Hk as [->|[->|[->| ->]]]; [by exists KOptimistic|by exists KBorrowed
        |by exists KSubmitted|by exists KRecycled]. }
    cbv beta in Hw. rewrite Hk' in Hw. by apply (webhook_key_apart ks wq _ k Hwq) in Hw.
Qed.

Lemma orphan_borrowed_preserves id σ :
  nonce_invariant ks σ ->
  nonce_invariant ks (wrun (HDEL (borrowed_transactions_hashmap_name ks) id) σ).
Proof.
  intros Hinv. unfold nonce_invariant, reservations_of. view_simp.
  assert (delete id (hash σ (borrowed_transactions_hashmap_name ks))
            ⊆ hash σ (borrowed_transactions_hashmap_name ks)) as HB by apply delete_subseteq.
  apply (nonces_ok_shrink (reservations_of ks σ)); try done.
  intros n Hn. apply (no_bound _ Hinv).
  destruct Hn as [(id' & json & d & Hl & Hd)|?]; [left|by right].
  exists id', json, d. split; [|done]. by eapply lookup_weaken.
Qed.

Lemma store_step_preserves σ σ' :
  nonce_invariant ks σ -> store_step σ σ' -> nonce_invariant ks σ'.
Proof.
  intros Hinv Hstep. destruct Hstep.
  - by eapply incremented_preserves.
  - by eapply recycled_preserves.
  - by eapply borrowed_preserves.
  - by eapply clean_preserves.
  - by eapply recycle_preserves.
  - by eapply reset_preserves.
  - by apply cached_count_preserves.
  - by apply gas_bump_preserves.
  - by apply noop_preserves.
  - apply nonce_invariant_frame; [apply fail_pending_frame|done].
  - apply wrun_frame_invariant; [other_key|done].
  - unfold admission_script. repeat case_match; try done. cbn [fst].
    apply nonce_invariant_frame; [|done]. repeat constructor; other_key.
  - apply wrun_frame_invariant; [other_key|done].
  - apply (wrun_frame_invariant (SET (eoa_lock_key_name ks) w)); [other_key|done].
  - apply wrun_frame_invariant; [other_key|done].
  - apply wrun_frame_invariant; [other_key|done].
  - by apply orphan_borrowed_preserves.
  - unfold nonce_invariant. by rewrite (reservations_same ks σ).
Qed.

Lemma nonce_invariant_empty : nonce_invariant ks redis_empty.
Proof.
  split; cbn; try done.
  - intros n [(? & ? & ? & ? & _)|[[? ?]|[? ?]]]; done.
  - by intros ??? (? & ? & ? & _).
  - by intros ?? (? & ? & ? & _).
  - by intros n [? ?].
Qed.

(** C1: No nonce is ever bound twice.  In every state the store can reach from an
    empty keyspace, by any sequence of operations of any workers, borrowed nonces are
    pairwise distinct, no borrowed nonce is submitted, no recycled nonce is borrowed
    or submitted, and all of them are below the optimistic counter. *)
Theorem nonce_invariant_reachable σ :
  rtc store_step redis_empty σ -> nonce_invariant ks σ.
Proof.
  pose proof nonce_invariant_empty as H0.
  revert H0. generalize redis_empty. intros σ0 H0 Hr.
  induction Hr as [|σ1 σ2 σ3 Hs _ IH]; [done|]. apply IH. by eapply store_step_preserves.
Qed.

(** Between two moments at which [w] owns the account, nobody else did and the counter
    stood still: others take the lock under their own id, and only an owner moves it. *)
Definition owner_keeps_count (w : string) (s : env_step) : Prop :=
  ∀ τ, str (es_run s τ) (eoa_lock_key_name ks) = Some w -> str τ (eoa_lock_key_name ks) = Some w /\
    str (es_run s τ) (optimistic_transaction_count_key_name ks) = str τ (optimistic_transaction_count_key_name ks).

Lemma owner_keeps_counts w es σ :
  (∀ s, s ∈ es -> owner_keeps_count w s) -> str (run_steps es σ) (eoa_lock_key_name ks) = Some w ->
  str (run_steps es σ) (optimistic_transaction_count_key_name ks) = str σ (optimistic_transaction_count_key_name ks).
Proof.
  induction es as [|s es IH] using rev_ind; intros Hes; [done|]. rewrite run_steps_app. cbn. intros Hown.
  destruct (Hes s ltac:(set_solver) _ Hown) as [Hown' ->]. apply IH; [set_solver|done].
Qed.

Lemma run_get_u64 k sch c σ o sch' c' σ' :
  run (get_u64 k) sch c σ = (Ok o, (sch', c', σ')) -> as_opt_u64 (str σ' k) = Ok o.
Proof.
  unfold get_u64, read. cbn [run]. destruct (next_slot sch) as [sl sch1]. set (τ := run_steps _ _).
  destruct (sl_fault sl) as [[]|]; cbn; destruct (next_slot sch1); try done.
  destruct (as_opt_u64 (str τ k)) eqn:E; cbn; [|done]. by intros [= <- <- <- <-].
Qed.

(** The reads come first, and the count they found is the one of the last read's state. *)
Lemma run_cached_count_reads now sch c σ r sch' c' σ' :
  run (cached_count_reads ks now) sch c σ = (r, (sch', c', σ')) ->
  ∃ pre, sch = pre ++ sch' /\ σ' = run_steps (sched_steps pre) σ /\
    ∀ hu o, r = Ok (hu, o) -> as_opt_u64 (str σ' (optimistic_transaction_count_key_name ks)) = Ok o.
Proof.
  unfold cached_count_reads. rewrite run_bind.
  destruct (run (get_eoa_health ks) sch c σ) as [[h|e] [[sch1 c1] σ1]] eqn:E1;
    destruct (run_reads_only _ _ _ _ _ _ _ _ _ (get_eoa_health_reads ks (fun _ => True) I) E1) as (pre1 & -> & -> & _).
  2: { rewrite run_ret. intros [= <- <- <- <-]. by exists pre1. }
  rewrite run_bind. destruct (run (get_u64 _) sch1 c1 _) as [cur [[sch2 c2] σ2]] eqn:E2.
  destruct (run_reads_only _ _ _ _ _ _ _ _ _ (get_u64_reads (fun _ => True) (optimistic_transaction_count_key_name ks) I) E2) as (pre2 & -> & -> & _).
  rewrite <- run_steps_app, <- sched_steps_app in *.
  intros Hrun. exists (pre1 ++ pre2).
  destruct cur as [o|e]; rewrite run_ret in Hrun; injection Hrun as <- <- <- <-; rewrite (assoc_L (++));
    (split_and!; [done..|]); intros hu o' Hx; [|done].
  apply run_get_u64 in E2. rewrite E2. destruct h as [h|]; [destruct (to_json _)|]; by simplify_eq/=.
Qed.

(** The cached count is written under the count it was read with. *)
Lemma cached_count_linearizable w count sch c σ out sch' c' σ' :
  sched_ok sch -> is_u64 count -> (∀ s, s ∈ sched_steps sch -> owner_keeps_count w s) ->
  run (update_cached_transaction_count ks w count) sch c σ = (out, (sch', c', σ')) ->
  ∃ pre, sch = pre ++ sch' /\
    (σ' = run_steps (sched_steps pre) σ \/
     ∃ es1 es2 σ2, sched_steps pre = es1 ++ es2 /\ store_step (run_steps es1 σ) σ2 /\ σ' = run_steps es2 σ2).
Proof.
  intros Hok Hcount Hown. unfold update_cached_transaction_count. cbn [run].
  destruct (next_slot sch) as [sl sch1] eqn:Hs. destruct (next_slot_split _ _ _ Hs) as (pre0 & -> & <-).
  rewrite run_bind. destruct (run (cached_count_reads _ _) _ _ _) as [r [[sch2 c2] σ2]] eqn:E.
  apply run_cached_count_reads in E as (pre1 & -> & -> & Hr). rewrite <- run_steps_app, <- sched_steps_app in *.
  set (σr := run_steps _ σ) in *. destruct r as [[hu o]|e].
  2: { rewrite run_ret. intros [= <- <- <- <-]. exists (pre0 ++ pre1). rewrite (assoc_L (++)). auto. }
  specialize (Hr hu o eq_refl). intros Hrun. set (tx := lock_check_tx (fun _ => (cached_count_pipeline ks count o hu, tt))).
  assert (∀ s, s ∈ sched_steps sch2 -> s ∈ sched_steps (pre0 ++ pre1 ++ sch2)) as Hsub by (rewrite !sched_steps_app; set_solver).
  assert (sched_ok sch2) as Hok2 by (intros s Hin; apply Hok, Hsub, Hin).
  assert (validation_covered ks tx sch2 (fun _ => False)) as Hcov by (split; [intros; apply reads_only_ret|done]).
  destruct (execute_attempts_refines ks w tx _ sch2 MAX_RETRIES Hcov Hok2 sch2 c2 σr out sch' c' σ')
    as (pre2 & -> & Ho); [by intros s|exact Hrun|].
  exists ((pre0 ++ pre1) ++ pre2). rewrite <- !(assoc_L (++)). split; [done|]. rewrite (assoc_L (++)), sched_steps_app, run_steps_app.
  fold σr. assert (∀ x, committed_once ks w tx σr (sched_steps pre2) x σ' -> ∃ es1 es2 σ2,
    sched_steps (pre0 ++ pre1) ++ sched_steps pre2 = es1 ++ es2 /\ store_step (run_steps es1 σ) σ2 /\ σ' = run_steps es2 σ2) as Hco.
  { intros x (es1 & es2 & now & σ2 & Hes & (Hlock & vd & pipe & _ & Hop & _ & ->)%atomic_step_Ok & ->).
    cbn in Hop. injection Hop as <-. exists (sched_steps (pre0 ++ pre1) ++ es1), es2. eexists. rewrite Hes, run_steps_app.
    split; [by rewrite (assoc_L (++))|]. split; [|done]. apply (SS_cached _ count o hu); [done|].
    fold σr. rewrite (owner_keeps_counts w es1 σr); [done| |done].
    intros s Hin. apply Hown. rewrite !sched_steps_app, Hes. set_solver. }
  destruct out as [x|e]; cbn in Ho; [right; by eapply Hco|]. destruct e; try by left.
  destruct Ho as [Ho|[x Ho]]; [by left|right; by eapply Hco].
Qed.

(** The invariant holds for concurrent workers.  An allocation that runs while
    other clients take arbitrary store steps, with faults at any command, ends in a
    state where no nonce is bound twice, whatever it answers. *)
Theorem allocation_safe_under_interference w txs sch c σ out sch' c' σ' :
  sched_ok sch ->
  (∀ s τ, s ∈ sched_steps sch -> store_step τ (es_run s τ)) ->
  nonce_invariant ks σ ->
  run (execute_with_watch_and_retry ks w (MovePendingToBorrowedWithIncrementedNonces ks txs))
    sch c σ = (out, (sch', c', σ')) ->
  nonce_invariant ks σ'.
Proof.
  intros Hok Henv Hinv Hrun.
  eapply (execute_preserves ks w _ (watched_by (MovePendingToBorrowedWithIncrementedNonces ks txs))
    (nonce_invariant ks) (nonce_invariant ks)); [..|exact Hinv|exact Hrun]; try done.
  - split; [intros; apply incremented_reads|]. intros k Hk. left. apply elem_of_cons. by right.
  - intros s τ Hs Hτ. eapply store_step_preserves; eauto.
  - intros s τ Hs Hτ. eapply store_step_preserves; eauto.
  - intros now τ τ' r Hτ Hst. by eapply incremented_preserves.
Qed.
End Reachable.
