(* ===== verification/EoaOpsClaims.v ===== *)
(** What the fenced operations do when they commit: allocation of nonces, dispatch
    results, settlement, trimming, reset, and the failure modes that matter. *)

From Stdlib Require Import String Ascii NArith Lia.
From stdpp Require Import base gmap strings list fin_maps sorting.
From S2P Require Import Prelude Redis RedisProg Json FinalityTypes QueueTypes Webhook EoaTypes.
From S2P Require Import EoaKeys EoaAtomic.
From S2P Require Import EoaStore EoaPending EoaBorrowed EoaSubmitted EoaOps.
From S2P Require Import EoaInvariant.

Section Allocation.
Context `{Carried} `{!Json EoaTransactionRequest, !Json BorrowedTransactionData,
  !Json TransactionAttempt, !Json EoaHealth}.
Context (ks : EoaExecutorStoreKeys) (worker_id : string).

Local Notation pending := (pending_transactions_zset_name ks).
Local Notation borrowed := (borrowed_transactions_hashmap_name ks).

(** Transactions taken out of pending and stored as borrowed, and nothing else of
    either collection changed. *)
Definition moved_to_borrowed (txs : list BorrowedTransactionData) (σ σ' : redis) : Prop :=
  (∀ tx, tx ∈ txs ->
     is_Some (zset σ pending !! bd_transaction_id tx) /\
     zset σ' pending !! bd_transaction_id tx = None /\
     ∃ json, to_json tx = Some json /\ hash σ' borrowed !! bd_transaction_id tx = Some json) /\
  (∀ id, id ∉ map bd_transaction_id txs ->
     zset σ' pending !! id = zset σ pending !! id /\
     hash σ' borrowed !! id = hash σ borrowed !! id).

(** What the moves need to know about a pipeline that contains the batch's commands. *)
Lemma moved_pipeline txs jsons p σ :
  NoDup (map bd_transaction_id txs) ->
  Forall2 (fun tx json => to_json tx = Some json) txs jsons ->
  (∀ tx, tx ∈ txs -> is_Some (zset σ pending !! bd_transaction_id tx)) ->
  (∀ tj c, tj ∈ zip txs jsons -> c ∈ move_to_borrowed_cmds ks tj -> c ∈ p) ->
  (∀ c, c ∈ p -> (wkey c <> pending /\ wkey c <> borrowed) \/
     ∃ tj, tj ∈ zip txs jsons /\ c ∈ move_to_borrowed_cmds ks tj) ->
  moved_to_borrowed txs σ (prun p σ).
Proof.
  intros Hnd Hj Hpend Hin Hcmds.
  assert (pending <> borrowed) as Hne by keys_ne.
  assert (∀ tx json, (tx, json) ∈ zip txs jsons -> tx ∈ txs /\ to_json tx = Some json) as Hz.
  { intros tx json (i & [Ht Hjs]%lookup_zip_Some)%list_elem_of_lookup.
    split; [by eapply list_elem_of_lookup_2|].
    exact (Forall2_lookup_lr _ _ _ i _ _ Hj Ht Hjs). }
  split.
  - intros tx Htx. split; [by apply Hpend|].
    apply list_elem_of_lookup in Htx as [i Hi].
    destruct (Forall2_lookup_l _ _ _ _ _ Hj Hi) as (json & Hjs & Hto).
    assert ((tx, json) ∈ zip txs jsons) as Hzip.
    { apply (list_elem_of_lookup_2 _ i). apply lookup_zip_Some. done. }
    split.
    + apply (zset_prun_removed p σ pending [bd_transaction_id tx]).
      * apply (Hin _ _ Hzip). cbn. set_solver.
      * set_solver.
      * intros items Hc. destruct (Hcmds _ Hc) as [[? _]|([tx' j'] & _ & Hc')]; [done|].
        cbn in Hc'. set_solver.
    + exists json. split; [done|]. apply hash_prun_set.
      * apply (Hin _ _ Hzip). cbn. set_solver.
      * intros c Hc. destruct (Hcmds _ Hc) as [[_ Hk]|([tx' j'] & Hz' & Hc')].
        { left. destruct c; cbn in *; auto. }
        cbn in Hc'. rewrite !elem_of_cons, elem_of_nil in Hc'.
        destruct Hc' as [->|[->|[]]]; [by left|].
        destruct (decide (bd_transaction_id tx' = bd_transaction_id tx)) as [Heq|]; [|left; cbn; auto].
        right. destruct (Hz _ _ Hz') as [Htx' Hto'].
        assert (tx' = tx) as -> by (apply (NoDup_map_inj bd_transaction_id txs); try done;
          by eapply list_elem_of_lookup_2).
        by assert (j' = json) as -> by congruence.
  - intros id Hid.
    assert (∀ tj, tj ∈ zip txs jsons -> bd_transaction_id tj.1 <> id) as Hno.
    { intros [tx json] Hz' <-. destruct (Hz _ _ Hz') as [Htx _]. apply Hid.
      by apply list_elem_of_fmap_2. }
    split; [apply zset_prun_leaves|apply hash_prun_leaves]; apply Forall_forall; intros c Hc;
      destruct (Hcmds _ Hc) as [[H1 H2]|([tx' j'] & Hz' & Hc')].
    + destruct c; cbn in *; auto.
    + specialize (Hno _ Hz'). cbn in Hc', Hno. rewrite !elem_of_cons, elem_of_nil in Hc'.
      destruct Hc' as [->|[->|[]]]; cbn; [right; set_solver|done].
    + destruct c; cbn in *; auto.
    + specialize (Hno _ Hz'). cbn in Hc', Hno. rewrite !elem_of_cons, elem_of_nil in Hc'.
      destruct Hc' as [->|[->|[]]]; cbn; [done|by right].
Qed.

(** An incremented allocation that commits hands out exactly the next nonces.  The
    batch's nonces are the optimistic counter and its successors, without gap or
    repetition, the counter becomes the first unused nonce and stays a u64, and the
    batch's transactions move from pending to borrowed with their exact records. *)
Theorem incremented_allocation_exact txs now σ σ' moved new :
  atomic_step ks worker_id (MovePendingToBorrowedWithIncrementedNonces ks txs) now σ
    = Ok (σ', (moved, new)) ->
  ∃ cur, str σ (optimistic_transaction_count_key_name ks) ≫= parse_u64 = Some cur /\
    map bd_nonce txs ≡ₚ map (fun j => cur + N.of_nat j)%N (seq 0 (length txs)) /\
    moved = length txs /\ new = Some (cur + N.of_nat (length txs))%N /\
    str σ' (optimistic_transaction_count_key_name ks) ≫= parse_u64
      = Some (cur + N.of_nat (length txs))%N /\
    moved_to_borrowed txs σ σ'.
Proof.
  intros (_ & jsons & pipe & Hv & Hop & _ & ->)%atomic_step_Ok.
  cbn [MovePendingToBorrowedWithIncrementedNonces stx_validation stx_operation] in Hv, Hop.
  apply incremented_facts in Hv as (cur & k & Hlen & Hcur & _ & Hi & Hperm & Hb & Hpend & Hj).
  unfold incremented_operation in Hop.
  rewrite (list_max_perm _ _ Hperm), Hlen, list_max_seq in Hop. injection Hop as <- <- <-.
  replace (cur + N.of_nat k + 1)%N with (cur + N.of_nat (length txs))%N in * by lia.
  exists cur. split_and!; [done|done|by rewrite Hlen|by f_equal|..].
  - rewrite (str_prun_last _ []) by constructor. cbn.
    by rewrite parse_u64_to_string by (unfold is_u64; lia).
  - eapply moved_pipeline; [done|done|done| |].
    + intros tj c Htj Hc. apply elem_of_app. left. apply list_elem_of_bind. eauto.
    + intros c Hc. apply elem_of_app in Hc as [(tj & ? & ?)%list_elem_of_bind|Hc]; [right; eauto|left].
      apply list_elem_of_singleton in Hc as ->. cbn [wkey]. split; keys_ne.
Qed.

(** An allocation of recycled nonces that commits uses each batch nonce once and
    only if it is listed in the recycled set, takes it out of the set, leaves the
    optimistic counter alone, and moves the transactions to borrowed. *)
Theorem recycled_allocation_exact txs now σ σ' moved :
  (∀ m s, zset σ (recycled_nonces_zset_name ks) !! m = Some s -> m = u64_to_string s /\ is_u64 s) ->
  atomic_step ks worker_id (MovePendingToBorrowedWithRecycledNonces ks txs) now σ = Ok (σ', moved) ->
  moved = length txs /\ NoDup (map bd_nonce txs) /\
  (∀ tx, tx ∈ txs ->
     zset σ (recycled_nonces_zset_name ks) !! u64_to_string (bd_nonce tx) = Some (bd_nonce tx) /\
     zset σ' (recycled_nonces_zset_name ks) !! u64_to_string (bd_nonce tx) = None) /\
  same_at (optimistic_transaction_count_key_name ks) σ σ' /\ moved_to_borrowed txs σ σ'.
Proof.
  intros Hwf (_ & jsons & pipe & Hv & Hop & _ & ->)%atomic_step_Ok.
  cbn [MovePendingToBorrowedWithRecycledNonces stx_validation stx_operation] in Hv, Hop.
  apply recycled_facts in Hv as (recs & Hrecs & Hn & Hi & Hin & Hpend & Hj).
  unfold recycled_operation in Hop. injection Hop as <- <-.
  set (p := zip txs jsons ≫= recycled_cmds ks).
  assert (∀ c, c ∈ p -> ∃ tj, tj ∈ zip txs jsons /\ c ∈ recycled_cmds ks tj) as Hp.
  { intros c (tj & ? & ?)%list_elem_of_bind. eauto. }
  split_and!; [done|done| | |].
  - intros tx Htx. split; [by eapply recycled_listed; eauto|].
    apply list_elem_of_lookup in Htx as [i Hix].
    destruct (Forall2_lookup_l _ _ _ _ _ Hj Hix) as (json & Hjs & _).
    apply (zset_prun_removed p σ _ [u64_to_string (bd_nonce tx)]); [|set_solver|].
    + apply list_elem_of_bind. exists (tx, json). split; [cbn; set_solver|].
      apply (list_elem_of_lookup_2 _ i). apply lookup_zip_Some. done.
    + intros items ([tx' j'] & _ & Hc)%Hp. cbn in Hc. set_solver.
  - apply prun_same, Forall_forall. intros c ([tx' j'] & _ & Hc)%Hp.
    unfold recycled_cmds in Hc. cbn [fst move_to_borrowed_cmds] in Hc.
    rewrite !elem_of_cons, elem_of_nil in Hc. destruct Hc as [->|[->|[->|[]]]]; cbn [wkey]; keys_ne.
  - eapply moved_pipeline; [done|done|done| |].
    + intros tj c Htj Hc. apply list_elem_of_bind. exists tj. split; [|done]. right. done.
    + intros c ([tx' j'] & Hz & Hc)%Hp. unfold recycled_cmds in Hc.
      apply elem_of_cons in Hc as [->|Hc]; [left|right; eauto].
      cbn [wkey]. split; keys_ne.
Qed.
End Allocation.

Section Dispatch.
Context `{Carried} `{!Json (WebhookNotificationEnvelope EoaEventPayload), !Json WebhookJobPayload}.
Context (ks : EoaExecutorStoreKeys) (worker_id wq : string) (uuid : nat -> nat -> string).

Lemma process_borrowed_loop_counts now i results report :
  let report' := (process_borrowed_loop ks wq uuid now i results report).2 in
  br_moved_to_submitted report' =
    br_moved_to_submitted report + length (filter (fun r => is_uncertain r = false) results) /\
  br_retained_uncertain report' =
    br_retained_uncertain report + length (filter (fun r => is_uncertain r = true) results).
Proof.
  revert i report. induction results as [|r results IH]; intros i report; cbn zeta.
  { cbn. lia. }
  cbn [process_borrowed_loop].
  assert (∃ cmds rep1, process_borrowed_result ks wq uuid now i r report = (cmds, rep1) /\
    br_moved_to_submitted rep1 = br_moved_to_submitted report + (if is_uncertain r then 0 else 1) /\
    br_retained_uncertain rep1 = br_retained_uncertain report + (if is_uncertain r then 1 else 0))
    as (cmds & rep1 & -> & H1 & H2).
  { unfold process_borrowed_result, is_uncertain. destruct report. cbn [to_redis_string_with_nonce].
    destruct (sr_result r); [|eexists _, _; split; [reflexivity|cbn; lia]..].
    destruct (bool_decide _); [|eexists _, _; split; [reflexivity|cbn; lia]].
    destruct (queue_webhook_envelopes _ _ _ _ _) as [? []];
      (eexists _, _; split; [reflexivity|cbn; lia]). }
  specialize (IH (S i) rep1). cbn zeta in IH.
  destruct (process_borrowed_loop _ _ _ _ _ results rep1) as [more rep2]. cbn [snd] in *.
  destruct IH as [-> ->]. rewrite H1, H2, !filter_cons.
  destruct (is_uncertain r); repeat case_decide; try done; cbn; lia.
Qed.

(** The commands of a committed dispatch: those that name a key of the account settle
    one acknowledged result. *)
Definition settling (results : list SubmissionResult) (p : pipeline) : Prop :=
  (∀ r c, r ∈ results -> is_uncertain r = false -> c ∈ settle_cmds ks r -> c ∈ p) /\
  (∀ k c, c ∈ p -> wkey c = key_name ks k ->
     ∃ r, r ∈ results /\ is_uncertain r = false /\ c ∈ settle_cmds ks r).

Lemma process_borrowed_loop_settling now i results report :
  webhook_apart ks wq ->
  settling results (process_borrowed_loop ks wq uuid now i results report).1.
Proof.
  intros Hwa. split.
  { intros r c Hr Hu. by apply process_borrowed_loop_settles. }
  intros k c Hin Hk. destruct (process_borrowed_loop_cmds _ _ _ _ _ _ _ _ Hin) as [Hw|?]; [|done].
  rewrite Hk in Hw. by apply (webhook_key_apart ks wq _ k Hwa) in Hw.
Qed.

Ltac settle_cases Hs := unfold settle_cmds in Hs; rewrite !elem_of_cons, elem_of_nil in Hs;
  destruct Hs as [->|[->|[->|[->|[]]]]].

Lemma settling_moves results p σ r :
  settling results p -> r ∈ results -> is_uncertain r = false ->
  hash (prun p σ) (borrowed_transactions_hashmap_name ks) !! sr_transaction_id r = None /\
  is_Some (zset (prun p σ) (submitted_transactions_zset_name ks) !!
             (to_redis_string_with_nonce (st_data (sr_transaction r))).1) /\
  hash (prun p σ) (transaction_data_key_name ks (sr_transaction_id r)) !! "status" = Some "submitted".
Proof.
  intros [Hset Hc] Hr Hu. specialize (fun c => Hset r c Hr Hu). split_and!.
  - apply hash_prun_removed; [apply Hset; unfold settle_cmds; set_solver|].
    intros v Hin. destruct (Hc KBorrowed _ Hin eq_refl) as (r' & _ & _ & Hs).
    unfold settle_cmds in Hs. rewrite !elem_of_cons, elem_of_nil in Hs.
    destruct Hs as [[=]|[[=]|[[=]|[[= Heq _ _]|[]]]]]. revert Heq. keys_ne.
  - apply (zset_prun_added _ _ _ [(sd_nonce (st_data (sr_transaction r)),
      (to_redis_string_with_nonce (st_data (sr_transaction r))).1)]);
      [apply Hset; unfold settle_cmds; set_solver|cbn; set_solver|].
    intros c Hin Hk. destruct (Hc KSubmitted _ Hin Hk) as (r' & _ & _ & Hs).
    settle_cases Hs; [exfalso|by eauto|exfalso|exfalso]; revert Hk; cbn [wkey]; keys_ne.
  - apply hash_prun_set; [apply Hset; unfold settle_cmds; set_solver|].
    intros c Hin. destruct (decide (wkey c = transaction_data_key_name ks (sr_transaction_id r)))
      as [Hk|]; [right|left; by apply leaves_field_key].
    destruct (Hc (KData (sr_transaction_id r)) _ Hin Hk) as (r' & _ & _ & Hs).
    settle_cases Hs; revert Hk; cbn [wkey]; [intros []%not_eq_sym; keys_ne..|].
    intros Hk. by rewrite Hk.
Qed.

Lemma settling_keeps results p σ id :
  settling results p ->
  (∀ r, r ∈ results -> sr_transaction_id r = id -> is_uncertain r = true) ->
  hash (prun p σ) (borrowed_transactions_hashmap_name ks) !! id =
    hash σ (borrowed_transactions_hashmap_name ks) !! id.
Proof.
  intros [_ Hc] Hid. apply hash_prun_leaves, Forall_forall. intros c Hin.
  destruct (decide (wkey c = borrowed_transactions_hashmap_name ks)) as [Hk|];
    [|by apply leaves_field_key].
  destruct (Hc KBorrowed _ Hin Hk) as (r' & Hr' & Hu & Hs).
  settle_cases Hs; cbn; try done.
  - right. intros Heq. by rewrite (Hid r' Hr' Heq) in Hu.
  - left. keys_ne.
Qed.

(** C26: Dispatch results that commit.  Every acknowledged result of a borrowed
    transaction leaves the borrowed set and appears in the submitted set with status
    "submitted"; every other borrowed record, in particular one whose only results
    are uncertain, is kept byte for byte; the report counts each result once. *)
Theorem dispatch_results_exact results now σ σ' report :
  webhook_apart ks wq ->
  atomic_step ks worker_id (ProcessBorrowedTransactions ks wq uuid results) now σ = Ok (σ', report) ->
  let is_valid r := sr_transaction_id r ∈ dom (hash σ (borrowed_transactions_hashmap_name ks)) in
  (∀ r, r ∈ results -> is_valid r -> is_uncertain r = false ->
     hash σ' (borrowed_transactions_hashmap_name ks) !! sr_transaction_id r = None /\
     is_Some (zset σ' (submitted_transactions_zset_name ks) !!
                (to_redis_string_with_nonce (st_data (sr_transaction r))).1) /\
     hash σ' (transaction_data_key_name ks (sr_transaction_id r)) !! "status" = Some "submitted") /\
  (∀ id, (∀ r, r ∈ results -> sr_transaction_id r = id -> is_uncertain r = true) ->
     hash σ' (borrowed_transactions_hashmap_name ks) !! id =
       hash σ (borrowed_transactions_hashmap_name ks) !! id) /\
  br_moved_to_submitted report + br_retained_uncertain report = br_total_processed report /\
  br_total_processed report + br_ignored_not_in_borrowed report = length results.
Proof.
  intros Hwa (_ & valid & pipe & Hv & Hop & _ & ->)%atomic_step_Ok is_valid.
  cbn [ProcessBorrowedTransactions stx_validation stx_operation] in Hv, Hop.
  apply (borrowed_facts ks results now) in Hv.
  unfold borrowed_operation in Hop.
  pose proof (process_borrowed_loop_settling now 0 valid borrowed_report_default Hwa) as Hset.
  pose proof (process_borrowed_loop_counts now 0 valid borrowed_report_default) as [Hc1 Hc2].
  destruct (process_borrowed_loop _ _ _ _ _ valid _) as [p rep]. cbn [fst snd] in *.
  injection Hop as <- <-.
  split_and!.
  - intros r Hr Hval Hu. apply (settling_moves valid); [done| |done].
    rewrite Hv. by apply list_elem_of_filter.
  - intros id Hid. apply (settling_keeps valid); [done|].
    intros r Hr. rewrite Hv in Hr. apply list_elem_of_filter in Hr as [_ Hr]. by apply Hid.
  - cbn. rewrite Hc1, Hc2. cbn. clear. induction valid as [|r l IH]; [done|].
    rewrite !filter_cons. destruct (is_uncertain r); repeat case_decide; try done; cbn; lia.
  - cbn. rewrite Hv. pose proof (length_filter (fun r => sr_transaction_id r ∈
      dom (hash σ (borrowed_transactions_hashmap_name ks))) results). lia.
Qed.
End Dispatch.

Section Settlement.
Context `{Carried} `{!Json EoaTransactionRequest}
  `{!Json (WebhookNotificationEnvelope EoaEventPayload), !Json WebhookJobPayload}.
Context (ks : EoaExecutorStoreKeys) (worker_id wq : string) (uuid : nat -> nat -> string).
Context (Hwq : webhook_apart ks wq).
Context (finality_json : FinalityEvidence -> string) (ttl_seconds : N).
Context (counts : TransactionCounts) (confirmed : list ConfirmedTransaction).

Local Notation cleanup :=
  (CleanSubmittedTransactions ks wq uuid finality_json ttl_seconds counts confirmed).

Lemma clean_validation_evidence now σ txs :
  (run_alone (clean_validation ks counts confirmed now) σ).1 = Ok txs ->
  ∀ c, c ∈ confirmed -> evidence_matches c = true.
Proof.
  unfold clean_validation. destruct (forallb evidence_matches confirmed) eqn:E; [|done].
  intros _ c Hc. rewrite forallb_forall in E. apply E. by apply list_elem_of_In.
Qed.

(** A committed cleanup, opened: the records it read and its classified commands. *)
Lemma cleanup_opened now σ σ' r :
  atomic_step ks worker_id cleanup now σ = Ok (σ', r) ->
  ∃ txs p, (run_alone (clean_validation ks counts confirmed now) σ).1 = Ok txs /\
    p = (clean_operation ks wq uuid finality_json ttl_seconds counts confirmed now txs).1 /\
    σ' = prun p σ /\
    (∀ c, c ∈ p -> clean_cmd ks wq finality_json ttl_seconds counts confirmed txs now c) /\
    (∀ c, c ∈ confirmed -> evidence_matches c = true).
Proof.
  intros (_ & txs & p & Hv & Hop & _ & ->)%atomic_step_Ok. exists txs, p.
  cbn [CleanSubmittedTransactions stx_validation stx_operation] in Hv, Hop.
  rewrite Hop. split_and!; try done; [|by eapply clean_validation_evidence].
  pose proof (clean_operation_cmds ks wq uuid finality_json ttl_seconds counts confirmed txs now) as Hc.
  rewrite Hop in Hc. by rewrite Forall_forall in Hc.
Qed.

(** Which commands can touch a key of the store. *)
Lemma clean_cmd_key txs now c k :
  clean_cmd ks wq finality_json ttl_seconds counts confirmed txs now c -> wkey c = key_name ks k ->
  match k with
  | KSubmitted => ∃ tx m, c = ZREM (submitted_transactions_zset_name ks) [m] /\ tx ∈ txs /\
      settled counts confirmed txs tx = true /\
      (m = (h_to_redis_string_with_nonce tx).1 \/ m = (h_to_legacy_redis_string_with_nonce tx).1)
  | KPending => ∃ items, c = ZADD (pending_transactions_zset_name ks) items /\
      Forall (requeue_ok counts confirmed txs) items
  | KData id | KAttempts id => ∃ conf, confirmed_map confirmed txs !! id = Some conf /\
      c ∈ completion_cmds ks finality_json ttl_seconds now id conf
  | KHashToId h => True
  | _ => False
  end.
Proof.
  intros Hc Hk. destruct Hc as [c Hw|id conf c Hconf Hin|tx m Htx Hs Hm|tx _ _|items Hi].
  - rewrite Hk in Hw. by apply (webhook_key_apart ks wq _ k Hwq) in Hw.
  - assert (k = KData id \/ k = KAttempts id) as Hk'.
    { destruct (completion_keys _ _ _ _ _ _ _ Hin) as [Hkey|Hkey]; rewrite Hkey in Hk;
        [left; by apply (key_name_inj ks k (KData id))|right; by apply (key_name_inj ks k (KAttempts id))]. }
    destruct Hk' as [->| ->]; eauto.
  - cbn [wkey] in Hk. apply (key_name_inj ks KSubmitted k) in Hk as <-. eauto 8.
  - cbn [wkey] in Hk. by apply (key_name_inj ks (KHashToId (h_hash tx)) k) in Hk as <-.
  - cbn [wkey] in Hk. apply (key_name_inj ks KPending k) in Hk as <-. eauto.
Qed.

(** C12: Settlement acts only on final evidence.  A cleanup that commits checked every
    piece of evidence against its receipt; a submitted record that disappears belongs
    to a confirmed id or shares its nonce with a retained record whose exact hash the
    evidence names; the stored data of an id changes only if evidence names that id;
    and an id enters pending only without evidence of its own, below the latest count,
    at a nonce that another retained hash finally consumed. *)
Theorem settlement_needs_evidence now σ σ' report :
  atomic_step ks worker_id cleanup now σ = Ok (σ', report) ->
  (∀ c, c ∈ confirmed -> evidence_matches c = true) /\
  ∃ txs, (run_alone (clean_validation ks counts confirmed now) σ).1 = Ok txs /\
  (∀ m, zset σ' (submitted_transactions_zset_name ks) !! m <>
        zset σ (submitted_transactions_zset_name ks) !! m ->
     ∃ tx c, tx ∈ txs /\ c ∈ confirmed /\
       (m = (h_to_redis_string_with_nonce tx).1 \/ m = (h_to_legacy_redis_string_with_nonce tx).1) /\
       (h_transaction_id tx = ct_transaction_id c \/
        ∃ tx', tx' ∈ txs /\ h_nonce tx' = h_nonce tx /\ h_hash tx' = ct_transaction_hash c)) /\
  (∀ id, hash σ' (transaction_data_key_name ks id) <> hash σ (transaction_data_key_name ks id) ->
     ∃ c, c ∈ confirmed /\ ct_transaction_id c = id) /\
  (∀ id, zset σ' (pending_transactions_zset_name ks) !! id <>
         zset σ (pending_transactions_zset_name ks) !! id ->
     confirmed_map confirmed txs !! id = None /\
     ∃ tx tx' c, HReal tx ∈ txs /\ st_id tx = id /\ (st_nonce tx < tc_latest counts)%N /\
       tx' ∈ txs /\ c ∈ confirmed /\ h_nonce tx' = st_nonce tx /\ h_hash tx' = ct_transaction_hash c).
Proof.
  intros (txs & p & Hv & _ & -> & Hp & Hev)%cleanup_opened. split; [done|].
  exists txs. split; [done|]. split_and!.
  - intros m (c & Hc & Hk & Hn)%zset_prun_changed.
    destruct (clean_cmd_key _ _ _ KSubmitted (Hp c Hc) Hk) as (tx & m' & -> & Htx & Hset & Hm').
    assert (m = m') as <- by (cbn in Hn; destruct (decide (m = m')); set_solver).
    unfold settled, hash_is_settled in Hset.
    destruct (confirmed_map confirmed txs !! h_transaction_id tx) as [conf|] eqn:Hconf.
    + apply confirmed_ids_of_Some in Hconf as [Ha Hid].
      apply applicable_elem in Ha as [Ha _]. exists tx, conf. split_and!; auto.
    + assert (h_nonce tx ∈ final_nonces confirmed txs) as Hfn.
      { revert Hset. case_decide; [by intros ?%bool_decide_eq_true|].
        destruct tx; [done|]. unfold replaceable. by intros [_ ?%bool_decide_eq_true]%andb_true_iff. }
      apply final_nonces_elem in Hfn as (tx' & c & Htx' & Hc' & Hn' & Hh).
      exists tx, c. split_and!; eauto 6.
  - intros id (c & Hc & Hk)%hash_prun_changed.
    destruct (clean_cmd_key _ _ _ (KData id) (Hp c Hc) Hk) as (conf & Hconf & _).
    apply confirmed_ids_of_Some in Hconf as [Ha Hid]. apply applicable_elem in Ha as [Ha _]. eauto.
  - intros id (c & Hc & Hk & Hn)%zset_prun_changed.
    destruct (clean_cmd_key _ _ _ KPending (Hp c Hc) Hk) as (items & -> & Hit).
    assert (id ∈ items.*2) as Hid by (cbn in Hn; destruct (decide (id ∈ items.*2)); naive_solver).
    apply list_elem_of_fmap in Hid as ([q id'] & -> & Hin). rewrite Forall_forall in Hit.
    destruct (Hit _ Hin) as (tx & Htx & [= -> ->] & Hnone & Hrep). split; [done|].
    unfold replaceable in Hrep. apply andb_true_iff in Hrep as [Hlt%N.ltb_lt Hfn%bool_decide_eq_true].
    apply final_nonces_elem in Hfn as (tx' & c & Htx' & Hc' & Hn' & Hh). exists tx, tx', c. done.
Qed.

(** A field of a transaction's data is written only by the completion of its id. *)
Lemma completion_field_only txs now c id conf f v :
  clean_cmd ks wq finality_json ttl_seconds counts confirmed txs now c ->
  confirmed_map confirmed txs !! id = Some conf ->
  (∀ v', HSET (transaction_data_key_name ks id) f v'
     ∈ completion_cmds ks finality_json ttl_seconds now id conf -> v' = v) ->
  leaves_field (transaction_data_key_name ks id) f c \/
  c = HSET (transaction_data_key_name ks id) f v.
Proof.
  intros Hc Hconf Huniq.
  destruct (decide (wkey c = transaction_data_key_name ks id)) as [Hk|];
    [|left; by apply leaves_field_key].
  destruct (clean_cmd_key _ _ _ (KData id) Hc Hk) as (conf' & Hc' & Hin). simplify_eq.
  destruct (decide (leaves_field (transaction_data_key_name ks id) f c)) as [?|Hl]; [by left|right].
  unfold completion_cmds in Hin. rewrite !elem_of_app in Hin.
  assert (∃ f' v', c = HSET (transaction_data_key_name ks id) f' v') as (f' & v' & ->).
  { revert Hl. destruct (receipt_status _); rewrite ?elem_of_cons, ?elem_of_nil in Hin;
      repeat destruct Hin as [Hin|Hin]; subst; cbn [leaves_field]; intros Hl';
      solve [eauto | by destruct Hl']. }
  assert (f' = f) as -> by (destruct (decide (f' = f)); [done|destruct Hl; cbn; by right]).
  f_equal. apply Huniq. unfold completion_cmds. by rewrite !elem_of_app.
Qed.

(** Settlement is complete for what it read.  Every record of the read nonce
    groups that is settled leaves the submitted set in both text forms, and an id with
    applicable evidence gets its terminal status and its receipt. *)
Theorem settlement_complete now σ σ' report txs :
  atomic_step ks worker_id cleanup now σ = Ok (σ', report) ->
  (run_alone (clean_validation ks counts confirmed now) σ).1 = Ok txs ->
  ∀ tx, tx ∈ txs -> should_process counts tx = true ->
  (settled counts confirmed txs tx = true ->
     zset σ' (submitted_transactions_zset_name ks) !! (h_to_redis_string_with_nonce tx).1 = None /\
     zset σ' (submitted_transactions_zset_name ks) !! (h_to_legacy_redis_string_with_nonce tx).1 = None) /\
  (∀ conf, confirmed_map confirmed txs !! h_transaction_id tx = Some conf ->
     h_transaction_id tx <> NO_OP_TRANSACTION_ID ->
     let data := hash σ' (transaction_data_key_name ks (h_transaction_id tx)) in
     data !! "status" = Some (if receipt_status (ct_receipt conf) then "confirmed" else "failed") /\
     data !! "receipt" = Some (ct_receipt_serialized conf)).
Proof.
  intros (txs' & p & Hv & Hpipe & -> & Hp & _)%cleanup_opened Hv' tx Htx Hsp.
  rewrite Hv in Hv'. injection Hv' as ->. subst p.
  destruct (clean_loop_pipe ks wq uuid finality_json ttl_seconds counts confirmed txs now 0 txs
    clean_state_init) as (_ & Hrem & Hcomp).
  set (p := (clean_operation _ _ _ _ _ _ _ _ _).1) in *.
  assert (∀ c, c ∈ cs_pipe (clean_loop ks wq uuid finality_json ttl_seconds counts now
    (confirmed_map confirmed txs) (final_nonces confirmed txs) 0 txs clean_state_init) -> c ∈ p) as Hsub.
  { intros c Hc. subst p. unfold clean_operation. cbn [fst]. apply elem_of_app. left. exact Hc. }
  split.
  - intros Hset.
    assert (∀ m items, ZADD (submitted_transactions_zset_name ks) items ∈ p -> m ∉ items.*2) as Hno.
    { intros m items Hc. by destruct (clean_cmd_key _ _ _ KSubmitted (Hp _ Hc) eq_refl) as (? & ? & ? & _). }
    assert (∀ m, ZREM (submitted_transactions_zset_name ks) [m]
        ∈ remove_transaction_from_redis_submitted_zset ks tx ->
      zset (prun p σ) (submitted_transactions_zset_name ks) !! m = None) as Hr.
    { intros m Hm. apply (zset_prun_removed p σ _ [m]); [|set_solver|apply Hno].
      by apply Hsub, (Hrem tx). }
    split; apply Hr; unfold remove_transaction_from_redis_submitted_zset;
      rewrite !elem_of_cons; tauto.
  - intros conf Hconf Hno data.
    split; (apply hash_prun_set; [apply Hsub, (Hcomp tx conf); [done|done|set_solver|done|done|]|
      intros c Hc; eapply completion_field_only; [exact (Hp c Hc)|exact Hconf|intros v']]);
      try (by apply completion_status); by apply completion_receipt.
Qed.
End Settlement.

Section Counters.
Context `{Carried} `{!Json EoaTransactionRequest, !Json BorrowedTransactionData,
  !Json TransactionAttempt, !Json EoaHealth}
  `{!Json (WebhookNotificationEnvelope EoaEventPayload), !Json WebhookJobPayload}.
Context (ks : EoaExecutorStoreKeys) (worker_id : string).

(** The recycled nonces a trim returns. *)
Lemma recycle_returned now σ highest recs cur :
  (run_alone (recycle_validation ks now) σ).1 = Ok (highest, recs, cur) ->
  ∃ all, as_u64_list (zrange (zset σ (recycled_nonces_zset_name ks))).*1 = Ok all /\
    recs = filter (fun n => below_highest highest n = true) all.
Proof.
  unfold recycle_validation. intros Hv.
  read_Ok Hv hs Hhs. read_Ok Hv bs Hbs. read_Ok Hv ns Hns. read_Ok Hv co Hco. read_Ok Hv cnt Hcnt.
  read_Ok Hv rn Hrn. read_Ok Hv opt Hopt. unfold get_recycled_nonces in Hrn.
  rewrite run_alone_read_fst in Hrn. destruct (as_u64_list _) as [all|]; [|done].
  cbn in Hrn, Hv. simplify_eq. eauto.
Qed.

Lemma recycled_listed_iff (R : gmap string N) all n :
  (∀ m s, R !! m = Some s -> m = u64_to_string s /\ is_u64 s) ->
  as_u64_list (zrange R).*1 = Ok all -> n ∈ all <-> R !! u64_to_string n = Some n.
Proof.
  intros Hwf Hall. split; [by eapply recycled_listed|]. intros Hn.
  pose proof (proj2 (elem_of_zrange R _ _) Hn) as Hz.
  apply (list_elem_of_fmap_2 fst), list_elem_of_lookup in Hz as [i Hi].
  apply collect_results_Ok in Hall. destruct (Forall2_lookup_l _ _ _ _ _ Hall Hi) as (y & Hy & Hp).
  cbn in Hp. destruct (Hwf _ _ Hn) as [_ Hu]. rewrite parse_u64_to_string in Hp by done.
  cbn in Hp. simplify_eq. by eapply list_elem_of_lookup_2.
Qed.

(** Trimming recycled nonces never frees a reserved or consumed nonce.  It leaves
    the borrowed and submitted sets alone; if it moves the optimistic counter it moves
    it down, but not below the observed chain count and to a value above every
    borrowed and submitted nonce; and it returns exactly the recycled nonces that
    remain. *)
Theorem trim_keeps_reservations now σ σ' recs :
  (∀ m s, zset σ (recycled_nonces_zset_name ks) !! m = Some s -> m = u64_to_string s /\ is_u64 s) ->
  atomic_step ks worker_id (CleanAndGetRecycledNonces ks) now σ = Ok (σ', recs) ->
  same_at (borrowed_transactions_hashmap_name ks) σ σ' /\
  same_at (submitted_transactions_zset_name ks) σ σ' /\
  (∀ n, n ∈ recs <-> zset σ' (recycled_nonces_zset_name ks) !! u64_to_string n = Some n) /\
  (str σ' (optimistic_transaction_count_key_name ks) = str σ (optimistic_transaction_count_key_name ks) \/
   ∃ o o' count,
     str σ (optimistic_transaction_count_key_name ks) ≫= parse_u64 = Some o /\
     str σ' (optimistic_transaction_count_key_name ks) ≫= parse_u64 = Some o' /\
     str σ (last_transaction_count_key_name ks) ≫= parse_u64 = Some count /\
     (count <= o' < o)%N /\
     ∀ n, (∃ id, borrowed_at (hash σ (borrowed_transactions_hashmap_name ks)) id n) \/
          submitted_at (zset σ (submitted_transactions_zset_name ks)) n -> (n < o')%N).
Proof.
  intros Hwf (_ & [[highest recs'] cur] & pipe & Hv & Hop & _ & ->)%atomic_step_Ok.
  cbn [CleanAndGetRecycledNonces stx_validation stx_operation] in Hv, Hop.
  pose proof (fun n => recycle_highest ks now σ highest recs' cur n Hv) as Hhigh.
  destruct (recycle_returned _ _ _ _ _ Hv) as (all & Hall & Hrecs).
  apply recycle_facts in Hv as (Hcur & ns & count & _ & Hcount & Hdef).
  unfold recycle_operation in Hop. injection Hop as <- ->.
  set (q := match cur with Some _ => _ | None => _ end).
  assert (∀ c, c ∈ q -> wkey c = optimistic_transaction_count_key_name ks) as Hq.
  { intros c Hc. subst q. destruct cur; [case_match|]; set_solver. }
  split_and!.
  - apply prun_same. constructor; [cbn [wkey]; keys_ne|]. apply Forall_forall. intros c Hc.
    rewrite (Hq c Hc). keys_ne.
  - apply prun_same. constructor; [cbn [wkey]; keys_ne|]. apply Forall_forall. intros c Hc.
    rewrite (Hq c Hc). keys_ne.
  - intros n. rewrite Hrecs, list_elem_of_filter, (recycled_listed_iff _ _ _ Hwf Hall).
    assert (∀ τ, same_at (recycled_nonces_zset_name ks) τ (prun q τ)) as Hqr.
    { intros τ. apply prun_same, Forall_forall. intros c Hc. rewrite (Hq c Hc). keys_ne. }
    match goal with |- context [prun (?c :: q) σ] =>
      change (prun (c :: q) σ) with (prun q (wrun c σ)) end.
    rewrite <- (sa_zset _ _ _ (Hqr _)). view_simp. rewrite lookup_zrem_from. destruct highest as [h|]; cbn; rewrite ?N.ltb_lt; [tauto|].
    split; [by intros []|lia].
  - subst q. destruct cur as [cur|]; [|left; cbn [prun foldl]; by view_simp].
    destruct (N.ltb_spec (from_option (fun nonce => u64_saturating_add nonce 1) 0%N highest) cur)
      as [Hlt|]; [|left; cbn [prun foldl]; by view_simp].
    right. apply as_opt_u64_Some in Hcur, Hcount.
    assert (is_u64 cur) as Hcu by (destruct (str σ _); [cbn in Hcur; eauto with engine|done]).
    unfold is_u64 in Hcu. set (next := from_option _ _ highest) in *.
    assert (∀ h, highest = Some h -> next = h + 1)%N as Hnext.
    { intros h ->. subst next. cbn in *. unfold u64_saturating_add in *. lia. }
    exists cur, next, count. split_and!; [done| |done| |done|].
    + cbn [prun foldl]. view_simp. cbn. apply parse_u64_to_string. unfold is_u64. lia.
    + unfold checked_sub in Hdef. destruct (N.leb_spec 1 count); [|lia].
      destruct (option_max_ge_r (option_max (snd <$> head (zrange_last (zset σ
        (submitted_transactions_zset_name ks)))) (list_max ns)) (Some (count - 1)%N) _ eq_refl)
        as (h & Hh & Hle).
      rewrite (Hnext h); [lia|congruence].
    + intros n Hn. destruct (Hhigh n Hn) as (h & Hh & Hle). rewrite (Hnext h Hh). lia.
Qed.

(** C27: A nonce reset is refused while any signed attempt is unresolved, and one that
    commits sets both counters to the chain count, empties the recycled set and clears
    the reset request. *)
Theorem reset_only_when_resolved count now σ :
  str σ (eoa_lock_key_name ks) = Some worker_id -> is_u64 count ->
  (zset σ (submitted_transactions_zset_name ks) <> ∅ \/
   hash σ (borrowed_transactions_hashmap_name ks) <> ∅ ->
     atomic_step ks worker_id (ResetNoncesTransaction ks count) now σ
       = Err UnresolvedNonceReservations) /\
  ∀ σ' r, atomic_step ks worker_id (ResetNoncesTransaction ks count) now σ = Ok (σ', r) ->
    zset σ (submitted_transactions_zset_name ks) = ∅ /\
    hash σ (borrowed_transactions_hashmap_name ks) = ∅ /\
    str σ' (optimistic_transaction_count_key_name ks) ≫= parse_u64 = Some count /\
    str σ' (last_transaction_count_key_name ks) ≫= parse_u64 = Some count /\
    zset σ' (recycled_nonces_zset_name ks) = ∅ /\ str σ' (manual_reset_key_name ks) = None.
Proof.
  intros Hown Hcount. split.
  - intros Hne. unfold atomic_step, owned. rewrite bool_decide_eq_true_2 by done.
    cbn [negb ResetNoncesTransaction stx_validation]. unfold reset_validation, zcard, hlen, read.
    cbn [bind]. rewrite run_alone_read. cbn [lift_redis bind]. rewrite run_alone_read.
    cbn [lift_redis bind].
    replace (negb (N.of_nat (size (zset σ (submitted_transactions_zset_name ks))) =? 0)%N
      || negb (N.of_nat (size (hash σ (borrowed_transactions_hashmap_name ks))) =? 0)%N) with true;
      [done|]. symmetry. apply orb_true_iff. rewrite !negb_true_iff, !N.eqb_neq.
    destruct Hne as [Hne|Hne]; [left|right]; intros Hz; apply Hne, map_size_empty_inv; lia.
  - intros σ' r (_ & hu & pipe & Hv & Hop & _ & ->)%atomic_step_Ok.
    cbn [ResetNoncesTransaction stx_validation stx_operation] in Hv, Hop.
    apply reset_facts in Hv as [HS HB]. unfold reset_operation in Hop. injection Hop as <-.
    split; [done|]. split; [done|]. rewrite prun_app. set (τ := prun _ σ). cbn [prun foldl]. view_simp.
    cbn. rewrite parse_u64_to_string by done. done.
Qed.

(** ** NOOPs *)

(** What recording [noops] in [σ] must leave behind: their nonces are no longer recycled,
    each is submitted with its nonce, and nothing else of the store is touched. *)
Definition noops_recorded (noops : list SubmittedNoopTransaction) (σ σ' : redis) : Prop :=
  let recycled := recycled_nonces_zset_name ks in
  let submitted := submitted_transactions_zset_name ks in
  let member tx := (noop_to_redis_string_with_nonce tx).1 in
  (∀ m, zset σ' recycled !! m =
     if decide (m ∈ map (fun tx => u64_to_string (sn_nonce tx)) noops) then None else zset σ recycled !! m) /\
  (∀ tx, tx ∈ noops -> ∃ tx', tx' ∈ noops /\ member tx' = member tx /\
     zset σ' submitted !! member tx = Some (sn_nonce tx')) /\
  (∀ m, (∀ tx, tx ∈ noops -> member tx <> m) -> zset σ' submitted !! m = zset σ submitted !! m) /\
  (∀ k, k <> recycled -> k <> submitted -> same_at k σ σ').

Definition noop_items (noops : list SubmittedNoopTransaction) : list (N * string) :=
  map (fun tx => (sn_nonce tx, (noop_to_redis_string_with_nonce tx).1)) noops.

Lemma noop_items_elem noops n m :
  (n, m) ∈ noop_items noops <-> ∃ tx, tx ∈ noops /\ n = sn_nonce tx /\ m = (noop_to_redis_string_with_nonce tx).1.
Proof. unfold noop_items. rewrite list_elem_of_fmap. naive_solver. Qed.

Lemma noop_pipeline_records noops σ : noops_recorded noops σ (prun (noop_pipeline ks noops) σ).
Proof.
  unfold noops_recorded. cbv zeta.
  assert (zset (prun (noop_pipeline ks noops) σ) (submitted_transactions_zset_name ks) =
    zadd_items (noop_items noops) (zset σ (submitted_transactions_zset_name ks))) as ->
    by (unfold noop_pipeline; cbn [prun foldl]; by view_simp).
  split_and!.
  - intros m. unfold noop_pipeline. cbn [prun foldl]. view_simp. apply lookup_zrem_members.
  - intros tx Htx. destruct (zadd_items_added (noop_items noops) (zset σ (submitted_transactions_zset_name ks))
      (noop_to_redis_string_with_nonce tx).1) as (n & (tx' & ? & -> & Heq)%noop_items_elem & Hz).
    + unfold noop_items. rewrite <- list_fmap_compose. apply list_elem_of_fmap. by exists tx.
    + exists tx'. by rewrite <- Heq.
  - intros m Hm. apply zadd_items_lookup_ne.
    intros ([n m'] & -> & (tx & Htx & _ & ->)%noop_items_elem)%list_elem_of_fmap. by apply (Hm tx).
  - intros k Hk1 Hk2. apply prun_same. repeat (apply Forall_cons; split; [cbn [wkey]; congruence|]). by apply Forall_nil.
Qed.

(** C40: Recording NOOPs.  Whatever other clients do in between and whichever commands
    fail, Ok means the batch was not empty and, in one atomic step of a moment at which
    this worker owned the account, every nonce of the batch left the recycled set, every
    NOOP entered the submitted set with its nonce, and nothing else of the store changed;
    a Redis error leaves at most that one step, any other error nothing.  So an empty
    batch never succeeds and never writes: the server rejects its transaction. *)
Theorem noop_batch_outcome noops sch c σ out sch' c' σ' :
  sched_ok sch ->
  run (process_noop_transactions ks worker_id noops) sch c σ = (out, (sch', c', σ')) ->
  ∃ pre, sch = pre ++ sch' /\
    let es := sched_steps pre in
    let recorded := noops <> [] /\ ∃ es1 es2 σ2, es = es1 ++ es2 /\
      str (run_steps es1 σ) (eoa_lock_key_name ks) = Some worker_id /\
      noops_recorded noops (run_steps es1 σ) σ2 /\ σ' = run_steps es2 σ2 in
    match out with
    | Ok _ => recorded
    | Err (RedisError _) => σ' = run_steps es σ \/ recorded
    | Err _ => σ' = run_steps es σ
    end.
Proof.
  intros Hok Hrun. set (tx := lock_check_tx (fun _ => (noop_pipeline ks noops, tt))).
  assert (validation_covered ks tx sch (fun _ => False)) as Hcov by (split; [intros; apply reads_only_ret|done]).
  destruct (execute_attempts_refines ks worker_id tx _ sch MAX_RETRIES Hcov Hok sch c σ out sch' c' σ')
    as (pre & -> & Ho); [by intros s|exact Hrun|]. exists pre. split; [done|]. cbv zeta.
  assert (∀ r, committed_once ks worker_id tx σ (sched_steps pre) r σ' -> noops <> [] /\
    ∃ es1 es2 σ2, sched_steps pre = es1 ++ es2 /\
      str (run_steps es1 σ) (eoa_lock_key_name ks) = Some worker_id /\
      noops_recorded noops (run_steps es1 σ) σ2 /\ σ' = run_steps es2 σ2) as Hco.
  { intros r (es1 & es2 & now & σ2 & Hes & (Hown & vd & pipe & _ & Hop & Hp & ->)%atomic_step_Ok & ->).
    cbn in Hop. injection Hop as <-. split; [by intros ->|]. eexists es1, es2, _. split_and!; [done|done| |done].
    apply noop_pipeline_records. }
  destruct out as [r|e]; cbn in Ho; [by eapply Hco|]. destruct e; try exact Ho. destruct Ho as [Ho|[r Ho]]; [by left|right; by eapply Hco].
Qed.

(** Synchronising with the chain stores the observed count and never lowers the
    optimistic counter: it becomes the greater of the two, or the count when there was
    none. *)
Theorem cached_count_sync count o sch c σ :
  quiet sch -> dirty c = false -> str σ (eoa_lock_key_name ks) = Some worker_id -> is_u64 count ->
  (∀ now, ∃ hu, (run_alone (cached_count_reads ks now) σ).1 = Ok (hu, o)) ->
  ∃ sch' c' σ', run (update_cached_transaction_count ks worker_id count) sch c σ
                  = (Ok tt, (sch', c', σ')) /\
    str σ' (last_transaction_count_key_name ks) ≫= parse_u64 = Some count /\
    str σ' (optimistic_transaction_count_key_name ks) ≫= parse_u64
      = Some (from_option (N.max count) count o).
Proof.
  intros Hq Hd Hown Hcount Hreads. unfold update_cached_transaction_count. cbn [run].
  destruct (next_slot sch) as [sl sch1] eqn:Hs.
  destruct (quiet_next _ _ _ Hq Hs) as (-> & _ & Hq1). cbn [run_steps foldl]. rewrite conn_env_nil.
  destruct (Hreads (sl_now sl)) as (hu & Hr).
  assert (as_opt_u64 (str σ (optimistic_transaction_count_key_name ks)) = Ok o) as Ho.
  { unfold cached_count_reads in Hr. read_Ok Hr h Hh. read_Ok Hr cu Hcu. unfold get_u64 in Hcu.
    rewrite run_alone_read_fst in Hcu. destruct (as_opt_u64 _) as [cu'|]; [|done].
    cbn in Hcu, Hr. destruct h as [h|]; [destruct (to_json _)|]; cbn in Hr; by simplify_eq. }
  rewrite run_bind.
  assert (reads_only (fun _ => True) (cached_count_reads ks (sl_now sl))) as Hro.
  { unfold cached_count_reads. reads_tac. }
  destruct (run_reads_only_quiet _ _ sch1 c σ Hro Hq1) as (sch2 & Hq2 & ->). rewrite Hr.
  destruct (execute_attempts_quiet ks worker_id
    (lock_check_tx (fun _ => (cached_count_pipeline ks count o hu, tt)))
    (fun _ => True) 9 sch2 c σ) as (sch' & c' & Hrun); [intros; apply reads_only_ret|done|done|].
  exists sch', c', (prun (cached_count_pipeline ks count o hu) σ).
  unfold with_lock_check, execute_with_watch_and_retry. change MAX_RETRIES with 10. rewrite Hrun.
  unfold atomic_step, owned. rewrite bool_decide_eq_true_2 by done. cbn [negb lock_check_tx
    stx_validation stx_operation]. rewrite run_alone_ret. cbn [fst].
  assert (pipe_ok (cached_count_pipeline ks count o hu) = true) as ->.
  { unfold cached_count_pipeline. destruct o as [o|]; [destruct (o <? count)%N|]; by destruct hu. }
  split; [done|]. unfold cached_count_pipeline. rewrite !prun_app.
  assert (∀ τ, agree_on (fun k => k = last_transaction_count_key_name ks \/
    k = optimistic_transaction_count_key_name ks) τ
    (prun match hu with Some j => [SET (eoa_health_key_name ks) j] | None => [] end τ)) as Hh.
  { intros τ k Hk. apply prun_same. destruct hu; repeat constructor. cbn [wkey].
    destruct Hk as [->| ->]; keys_ne. }
  rewrite <- (sa_str _ _ _ (Hh _ (last_transaction_count_key_name ks) ltac:(by left))).
  rewrite <- (sa_str _ _ _ (Hh _ (optimistic_transaction_count_key_name ks) ltac:(by right))).
  destruct o as [o|]; cbn [from_option].
  - apply as_opt_u64_Some in Ho. destruct (N.ltb_spec o count); cbn [prun foldl]; view_simp; rewrite ?Ho;
      rewrite ?bind_parse_u64 by done; (split; [done|]); f_equal; lia.
  - cbn [prun foldl]. view_simp. by rewrite bind_parse_u64.
Qed.
End Counters.
