(* ===== verification/EoaFormats.v ===== *)
(** Text formats of the EOA store: submitted records and key names. *)

From Stdlib Require Import String Ascii NArith Lia.
From stdpp Require Import base gmap strings list fin_maps.
From S2P Require Import Prelude Redis RedisProg Json QueueTypes Webhook EoaTypes EoaKeys.

Lemma legacy_string_parses tx :
  submitted_wf tx ->
  from_redis_string (to_legacy_redis_string_with_nonce tx) =
    Some (mkSubmittedDehydrated (sd_nonce tx) (sd_transaction_hash tx) (sd_transaction_id tx) 0
            (sd_queued_at tx)).
Proof.
  intros (Hh & Hi & Hq & _). unfold from_redis_string, to_legacy_redis_string_with_nonce. cbn [fst snd].
  rewrite !split_on_sep, split_on_no_char by (done || by apply u64_to_string_no_char).
  by rewrite parse_u64_to_string.
Qed.

(** C39: A submitted record survives its text form.  With colon-free hash and id the record
    read back is the record written; the older three-part form reads back with submission
    time zero; a NOOP record reads back under the reserved id; and different records have
    different members. *)
Theorem submitted_record_round_trip tx tx2 noop :
  submitted_wf tx -> submitted_wf tx2 -> no_colon (sn_transaction_hash noop) ->
  from_redis_string (to_redis_string_with_nonce tx) = Some tx /\
  from_redis_string (to_legacy_redis_string_with_nonce tx) =
    Some (mkSubmittedDehydrated (sd_nonce tx) (sd_transaction_hash tx) (sd_transaction_id tx) 0
            (sd_queued_at tx)) /\
  from_redis_string (noop_to_redis_string_with_nonce noop) =
    Some (mkSubmittedDehydrated (sn_nonce noop) (sn_transaction_hash noop) NO_OP_TRANSACTION_ID 0 0) /\
  (to_redis_string_with_nonce tx = to_redis_string_with_nonce tx2 -> tx = tx2).
Proof.
  intros H1 H2 Hn. split_and!.
  - by apply submitted_string_parses.
  - by apply legacy_string_parses.
  - by apply noop_string_parses.
  - intros Heq. apply submitted_string_parses in H1, H2. rewrite Heq in H1. congruence.
Qed.

(** A transaction id that contains a colon makes the record unreadable: what the store
    writes when such a transaction is submitted never parses back, so that transaction is
    invisible to every later read of the submitted set. *)
Theorem colon_id_unreadable tx :
  has_char ":" (sd_transaction_id tx) = true ->
  from_redis_string (to_redis_string_with_nonce tx) = None /\
  ∀ others, from_redis_strings (to_redis_string_with_nonce tx :: others) = from_redis_strings others.
Proof.
  intros Hc. assert (from_redis_string (to_redis_string_with_nonce tx) = None) as Hnone.
  { apply from_redis_string_colons. unfold to_redis_string_with_nonce. cbn [fst].
    rewrite !count_char_app. apply count_char_has in Hc.
    change (count_char ":" ":") with 1. lia. }
  split; [done|]. intros others. unfold from_redis_strings. cbn [omap list_omap]. by rewrite Hnone.
Qed.

(** ** Accounts do not share keys *)

Definition account_key (k : eoa_key) : Prop :=
  match k with KData _ | KAttempts _ | KHashToId _ => False | _ => True end.

Lemma chain_and_eoa_inj ks1 ks2 :
  chain_and_eoa ks1 = chain_and_eoa ks2 -> keys_chain_id ks1 = keys_chain_id ks2 /\ keys_eoa ks1 = keys_eoa ks2.
Proof.
  unfold chain_and_eoa. intros H.
  apply (split_first_colon (u64_to_string _) _ (u64_to_string _)) in H as [H1 H2];
    [|by apply u64_to_string_no_char..].
  split; [by apply u64_to_string_inj|done].
Qed.

(** Keys do not collide.  Within one store different logical keys have different names,
    and two accounts (chain id and address) under one namespace share no per-account key,
    of whatever kind: their locks, nonces, pending, borrowed, submitted and recycled data are
    separate. *)
Theorem store_keys_distinct ks1 ks2 k1 k2 :
  keys_namespace ks1 = keys_namespace ks2 ->
  (key_name ks1 k1 = key_name ks1 k2 -> k1 = k2) /\
  (account_key k1 -> key_name ks1 k1 = key_name ks2 k2 ->
   keys_chain_id ks1 = keys_chain_id ks2 /\ keys_eoa ks1 = keys_eoa ks2 /\ k1 = k2).
Proof.
  intros Hns. split; [apply key_name_inj|]. intros Ha. rewrite !key_name_body.
  assert (scoped ks2 (key_body ks2 k2) = scoped ks1 (key_body ks2 k2)) as ->
    by (unfold scoped; by rewrite Hns).
  intros H%scoped_inj.
  assert (chain_and_eoa ks1 = chain_and_eoa ks2 /\ k1 = k2) as [[? ?]%chain_and_eoa_inj ?]; [|done].
  destruct k1; try done; destruct k2; cbn in H; simplify_eq; split; try done;
    by repeat apply (string_app_inj_l (String _ EmptyString)) in H.
Qed.
