(* ===== verification/Concrete.v ===== *)
(** Concrete data for the examples: an instance of the carried types, codecs, and small
    keyspaces. *)

From Stdlib Require Import String Ascii NArith Lia.
From stdpp Require Import base gmap strings list fin_maps countable.
From S2P Require Import Prelude Redis RedisProg Json FinalityTypes QueueTypes Webhook EoaTypes.
From S2P Require Import EoaKeys EoaAtomic.
From S2P Require Import EoaStore EoaPending.

(** ** Carried types *)

#[export] Instance concrete_carried : Carried := {|
  SignedTx := N * string;
  tx_nonce := fst;
  tx_hash := snd;
  TransactionReceipt := string * option N * option string * bool;
  receipt_transaction_hash r := r.1.1.1;
  receipt_block_number r := r.1.1.2;
  receipt_block_hash r := r.1.2;
  receipt_status r := r.2;
  SigningCredential := unit;
  RpcCredentials := unit;
  TransactionTypeData := unit;
  EoaExecutorWorkerError := string;
  worker_error_to_string s := s
|}.

(** ** Codecs *)

#[export] Instance webhook_options_eq_dec : EqDecision WebhookOptions.
Proof. solve_decision. Defined.
#[export] Instance webhook_options_countable : Countable WebhookOptions.
Proof.
  refine (inj_countable' (fun o => (wo_url o, wo_secret o, wo_user_metadata o))
    (fun t => mkWebhookOptions t.1.1 t.1.2 t.2) _). by intros [].
Defined.

#[export] Instance request_eq_dec : EqDecision EoaTransactionRequest.
Proof. solve_decision. Defined.
#[export] Instance request_countable : Countable EoaTransactionRequest.
Proof.
  refine (inj_countable'
    (fun r => (rq_transaction_id r, rq_chain_id r, rq_from r, rq_to r, rq_value r,
               (rq_data r, rq_gas_limit r, rq_webhook_options r, rq_signing_credential r : unit,
                rq_rpc_credentials r : unit, rq_transaction_type_data r : option unit)))
    (fun '(a, b, c, d, e, (f, g, h, i, j, k)) => mkRequest a b c d e f g h i j k) _).
  by intros [].
Defined.
#[export] Instance request_json : Json EoaTransactionRequest := countable_json.

#[export] Instance borrowed_data_eq_dec : EqDecision BorrowedTransactionData.
Proof. solve_decision. Defined.
#[export] Instance borrowed_data_countable : Countable BorrowedTransactionData.
Proof.
  refine (inj_countable'
    (fun b => (bd_transaction_id b, bd_signed_transaction b : N * string, bd_queued_at b, bd_hash b,
               bd_borrowed_at b))
    (fun '(a, b, c, d, e) => mkBorrowedData a b c d e) _). by intros [].
Defined.
#[export] Instance borrowed_data_json : Json BorrowedTransactionData := countable_json.

#[export] Instance attempt_eq_dec : EqDecision TransactionAttempt.
Proof. solve_decision. Defined.
#[export] Instance attempt_countable : Countable TransactionAttempt.
Proof.
  refine (inj_countable'
    (fun a => (ta_transaction_id a, ta_details a : N * string, ta_sent_at a, ta_attempt_number a))
    (fun '(a, b, c, d) => mkAttempt a b c d) _). by intros [].
Defined.
#[export] Instance attempt_json : Json TransactionAttempt := countable_json.

#[export] Instance health_eq_dec : EqDecision EoaHealth.
Proof. solve_decision. Defined.
#[export] Instance health_countable : Countable EoaHealth.
Proof.
  refine (inj_countable'
    (fun h => (eh_balance h, eh_balance_threshold h, eh_balance_fetched_at h, eh_last_confirmation_at h,
               (eh_last_nonce_movement_at h, eh_nonce_resets h, eh_last_finality_poll_at h,
                eh_finality_scan_offset h)))
    (fun '(a, b, c, d, (e, f, g, h)) => mkHealth a b c d e f g h) _). by intros [].
Defined.
#[export] Instance health_json : Json EoaHealth := countable_json.

#[export] Instance webhook_payload_eq_dec : EqDecision WebhookJobPayload.
Proof. solve_decision. Defined.
#[export] Instance webhook_payload_countable : Countable WebhookJobPayload.
Proof.
  refine (inj_countable'
    (fun p => (wp_url p, wp_body p, wp_headers p, wp_hmac_secret p, wp_http_method p))
    (fun '(a, b, c, d, e) => mkWebhookJobPayload a b c d e) _). by intros [].
Defined.
#[export] Instance webhook_payload_json : Json WebhookJobPayload := countable_json.

#[export] Instance stage_event_eq_dec : EqDecision StageEvent.
Proof. solve_decision. Defined.
#[export] Instance stage_event_countable : Countable StageEvent.
Proof.
  refine (inj_countable' (fun e => match e with EvSuccess => 0 | EvNack => 1 | EvFailure => 2 end)
    (fun n => match n with 0 => EvSuccess | 1 => EvNack | _ => EvFailure end) _). by intros [].
Defined.

#[export] Instance submitted_dehydrated_eq_dec : EqDecision SubmittedTransactionDehydrated.
Proof. solve_decision. Defined.
#[export] Instance submitted_dehydrated_countable : Countable SubmittedTransactionDehydrated.
Proof.
  refine (inj_countable'
    (fun s => (sd_nonce s, sd_transaction_hash s, sd_transaction_id s, sd_submitted_at s, sd_queued_at s))
    (fun '(a, b, c, d, e) => mkSubmittedDehydrated a b c d e) _). by intros [].
Defined.

#[export] Instance requeue_position_eq_dec : EqDecision RequeuePosition.
Proof. solve_decision. Defined.
#[export] Instance requeue_position_countable : Countable RequeuePosition.
Proof.
  refine (inj_countable' (fun e => match e with First => true | Last => false end)
    (fun n => match n with true => First | false => Last end) _). by intros [].
Defined.

#[export] Instance finality_policy_countable : Countable FinalityPolicy.
Proof.
  refine (inj_countable' (fun e => match e with Finalized => None | Depth n => Some n end)
    (fun n => match n with None => Finalized | Some n => Depth n end) _). by intros [].
Defined.
#[export] Instance finality_evidence_countable : Countable FinalityEvidence.
Proof.
  refine (inj_countable'
    (fun f => (fe_block_number f, fe_block_hash f, fe_checkpoint_number f, fe_checkpoint_hash f, fe_policy f))
    (fun '(a, b, c, d, e) => mkFinality a b c d e) _). by intros [].
Defined.

#[export] Instance confirmed_event_eq_dec : EqDecision EoaExecutorConfirmedTransaction.
Proof. solve_decision. Defined.
#[export] Instance confirmed_event_countable : Countable EoaExecutorConfirmedTransaction.
Proof.
  refine (inj_countable'
    (fun c => (ce_receipt c : string * option N * option string * bool, ce_finality c, ce_eoa_address c,
               ce_transaction_id c, ce_transaction_hash c))
    (fun '(a, b, c, d, e) => mkConfirmedEvent a b c d e) _). by intros [].
Defined.

#[export] Instance event_payload_eq_dec : EqDecision EoaEventPayload.
Proof. solve_decision. Defined.
#[export] Instance event_payload_countable : Countable EoaEventPayload.
Proof.
  refine (inj_countable'
    (fun p => match p with
      | SendSuccessData a b => inl (inl (a, b))
      | ReplacedData a b c d => inl (inr (a, b, c, d))
      | ConfirmedData a => inr (inl (inl a))
      | RevertedData a => inr (inl (inr a))
      | FailData a b => inr (inr (a : string, b))
      end)
    (fun t => match t with
      | inl (inl (a, b)) => SendSuccessData a b
      | inl (inr (a, b, c, d)) => ReplacedData a b c d
      | inr (inl (inl a)) => ConfirmedData a
      | inr (inl (inr a)) => RevertedData a
      | inr (inr (a, b)) => FailData a b
      end) _). by intros [].
Defined.

#[export] Instance envelope_eq_dec : EqDecision (WebhookNotificationEnvelope EoaEventPayload).
Proof. solve_decision. Defined.
#[export] Instance envelope_countable : Countable (WebhookNotificationEnvelope EoaEventPayload).
Proof.
  refine (inj_countable'
    (fun e => (we_notification_id e, we_transaction_id e, we_timestamp _ e, we_executor_name _ e,
               (we_stage_name _ e, we_event_type _ e, we_payload _ e, we_delivery_target_url _ e,
                we_user_metadata _ e)))
    (fun '(a, b, c, d, (e, f, g, h, i)) => mkEnvelope a b c d e f g h i) _). by intros [].
Defined.
#[export] Instance envelope_json : Json (WebhookNotificationEnvelope EoaEventPayload) := countable_json.
#[export] Instance string_json : Json string := countable_json.
