(* ===== verification/ExecWitness.v ===== *)
(** Finality on concrete chains and broadcast authorization on concrete transactions. *)

From Stdlib Require Import String Ascii NArith Lia.
From stdpp Require Import base gmap strings option list fin_maps relations.
From S2P Require Import Prelude Json JsonValue Redis RedisProg Errors FinalityTypes.
From S2P Require Import RecoveryLedger RecoveryChecks EngineProg RecoveryJournal RecoveryOps.
From S2P Require Import RecoveryOffline RecoverySpec RecoveryKeeps RecoveryTxns RecoveryGate.
From S2P Require Import RecoveryOpSpecs RecoveryOfflineSpecs RecoveryLife RecoveryClaims.
From S2P Require Import RecoveryLiveness RecoveryWitness Finality FinalityClaims QueueTypes.
From S2P Require Import Webhook EoaTypes EoaErrors ExecRecovery EoaKeys EoaAtomic EoaStore.
From S2P Require Import EoaPending Concrete.

(** A chain of 20 blocks of which 15 are final. *)
Definition canon (n : N) : string := "block" +:+ u64_to_string n.
Definition block (n : N) : Block := mkBlock n (canon n).
Definition provider (tag : BlockTag) : result AlloyRpcError (option Block) :=
  match tag with
  | TagNumber n => Ok (if (n <=? 20)%N then Some (block n) else None)
  | TagFinalized => Ok (Some (block 15))
  | TagLatest => Ok (Some (block 20))
  end.
Definition provider_turn : turn := mkTurn id None true 0 id provider.
Definition provider_turns : list turn := replicate 60 provider_turn.

Lemma quiet_honest final tip : honest canon final tip quiet_turn.
Proof. split; done. Qed.
Lemma provider_honest : Forall (honest canon 15 20) provider_turns.
Proof.
  apply Forall_replicate. split; cbn.
  - intros n b. destruct (n <=? 20)%N; [|done]. by intros [= <-].
  - intros b [= <-]. cbn. lia.
  - intros b [= <-]. cbn. lia.
Qed.
Lemma provider_alone :
  Forall (fun t => honest canon 15 20 t /\ ∀ w, w_disk (t_others t w) = w_disk w) provider_turns.
Proof.
  apply Forall_and; split; [exact provider_honest|]. by apply Forall_replicate.
Qed.

Definition no_text (e : AlloyRpcError) : string := "".
Definition chain1 : ChainView := mkChain 1 Finalized "https".
Definition chain1_depth : ChainView := mkChain 1 (Depth 5) "https".
Definition receipt12 : ReceiptView := mkReceipt "h1" (Some true) (Some 12%N) (Some (canon 12)).
Definition evidence12 : FinalityEvidence := mkFinality 12 (canon 12) 15 (canon 15) Finalized.

Lemma finality_sound_witness :
  fe_block_hash evidence12 = canon 12 /\ (fe_checkpoint_number evidence12 <= 15)%N.
Proof.
  destruct (finality_sound no_text canon 15 20 chain1 "h1" receipt12 provider_turns w_start (FaFinalized evidence12)
    (erun (assess_receipt_finality no_text chain1 "h1" receipt12) provider_turns w_start).1.2
    (erun (assess_receipt_finality no_text chain1 "h1" receipt12) provider_turns w_start).2)
    as (_ & _ & _ & _ & Hb & _ & _ & _ & Hf).
  - apply quiet_honest.
  - exact provider_honest.
  - by vm_compute.
  - split; [exact Hb|exact Hf].
Defined.

(** The same receipt through the journal, while another task admits its transaction
    between the operations of the assessment; a transaction is then settled. *)
Definition busy_turn : turn := mkTurn id None true 0 (next (OpReserve "eoa" "tx2" fp1 payload1)) provider.
Definition busy_turns : list turn := replicate 60 busy_turn.
Lemma busy_fair : Forall fair_turn busy_turns.
Proof. apply Forall_replicate. intros w. apply life_later, next_life. Qed.
Definition w_final : world := (erun (assess no_text true chain1 "h1" receipt12) busy_turns w_attempted).1.2.
Example busy_admits : (option_map ad_state (l_admissions (ledger_of w_final) !! "tx2")) = Some StAdmitted.
Proof. by vm_compute. Qed.
Lemma final_means_durable_witness :
  checkpoint_kept_in 1 evidence12 w_final /\
  ∃ l'' e'', w_disk (next (OpTerminal "eoa" "tx1" evidence1) w_final) = LedgerFile l'' /\
    load_chain_checkpoint l'' 1 = Ok (Some e'') /\ checkpoint_kept evidence12 e''.
Proof.
  destruct (final_means_durable no_text chain1 "h1" receipt12 busy_turns w_attempted evidence12 w_final
    (erun (assess no_text true chain1 "h1" receipt12) busy_turns w_attempted).2 (ledger_of w_attempted))
    as (Hk & _ & _ & _ & _ & Hlater).
  - by vm_compute.
  - apply reached_ok; [exact start_attempted|by vm_compute].
  - exact busy_fair.
  - unfold w_final. apply timed_answer. by vm_compute.
  - split; [exact Hk|]. apply Hlater, next_life.
Defined.

Lemma terminal_names_attempt_witness :
  ∃ l' a k at0 v, synced l' (after (record_evm_terminal true "eoa" "tx1" 1 "h1" true evidence12) w_attempted) /\
    l_admissions l' !! "tx1" = Some a /\ ad_state a = StTerminal /\
    ad_replay_key a = Some k /\ (replay_chain k ≫= parse_u64) = Some 1%N /\
    at0 ∈ l_attempts l' /\ at_id at0 = "tx1" /\ at_replay_key at0 = k /\ from_json (at_payload at0) = Some v /\
    field_ok value_b256 v "transactionHash" = value_b256 (VString "h1") /\ is_Some (value_b256 (VString "h1")).
Proof.
  apply (terminal_names_attempt "tx1" 1 "h1" true evidence12 [] w_attempted _
    (erun (record_evm_terminal true "eoa" "tx1" 1 "h1" true evidence12) [] w_attempted).2 (ledger_of w_attempted)).
  - by vm_compute.
  - apply reached_ok; [exact start_attempted|by vm_compute].
  - constructor.
  - apply run_answer. by vm_compute.
Defined.

(** A ledger whose checkpoint is block 10 of another fork. *)
Definition forked : FinalityEvidence := mkFinality 10 "other10" 10 "other10" Finalized.
Definition w_forked : world := next (OpCommitCheckpoint 1 None forked) w_init.
Lemma reorg_never_settles_witness :
  match (erun (assess no_text true chain1 "h1" receipt12) provider_turns w_forked).1.1 with Ok _ => False | Err _ => True end.
Proof.
  destruct (erun (assess no_text true chain1 "h1" receipt12) provider_turns w_forked) as [[[a|e] w'] tr] eqn:E; [|done].
  cbn. revert E.
  apply (reorg_never_settles no_text canon 15 20 chain1 "h1" receipt12 forked provider_turns w_forked a w' tr
    (ledger_of w_forked)).
  - exact provider_alone.
  - by vm_compute.
  - apply reached_ok; [etrans; [exact start_init|apply next_life]|by vm_compute].
  - by vm_compute.
  - by vm_compute.
Defined.

Definition wallet : string := "0x00000000000000000000000000000000000000aa".

(** A transaction of chain 1 from the wallet to itself; its bytes are its hash. *)
#[export] Instance concrete_wire : SignedWire := {|
  stx_chain_id _ := Some 1%N;
  stx_to _ := Some wallet;
  stx_value _ := 0%N;
  stx_input _ := "";
  Authorization := unit;
  stx_authorization_list _ := None;
  eip7702_authorization_list _ := None;
  stx_recover_signer _ := Some wallet;
  encoded_2718 tx := snd tx;
  keccak256 s := s;
  hex_encode s := s;
  request_to_value r := Some (VObject [("transactionId", VString (rq_transaction_id r))])
|}.

Definition wire_tx : SignedTx := (5%N, "h5").
Definition wire_request : EoaTransactionRequest :=
  mkRequest "t1" 1 wallet (Some wallet) 0 "" None [] tt tt None.
Definition wire_payload : Value := VObject [("transactionId", VString "t1")].
Definition wire_fp : string := match admission_fingerprint "eoa" wire_payload with Ok f => f | Err _ => "" end.
Definition w_wire : world := next (OpReserve "eoa" "t1" wire_fp wire_payload) w_init.
Definition show (e : EngineError) : string := "".

Lemma eoa_broadcast_exact_witness :
  ∃ encoded l', canonical (attempt_value 1 wallet wire_tx) = Ok encoded /\
    synced l' (after (before_eoa show true wire_request wire_tx) w_wire) /\
    authorized "eoa" "t1" (eoa_replay_key 1 5 wallet) encoded l' /\ admitted_payload "t1" wire_payload l'.
Proof.
  apply (eoa_broadcast_exact show wire_request wire_tx wire_payload [] w_wire _
    (erun (before_eoa show true wire_request wire_tx) [] w_wire).2 (ledger_of w_wire)).
  - by vm_compute.
  - apply reached_ok; [etrans; [exact start_init|apply next_life]|by vm_compute].
  - constructor.
  - reflexivity.
  - apply run_answer. by vm_compute.
Defined.

Definition w_noop : world := next (OpReserve "eoa_noop" (noop_id 1 wallet 5)
  (match admission_fingerprint "eoa_noop" (noop_payload 1 wallet 5) with Ok f => f | Err _ => "" end)
  (noop_payload 1 wallet 5)) w_init.
Lemma noop_broadcast_exact_witness :
  noop_id 1 wallet 5 = noop_id 1 wallet 5 /\
  ∃ encoded l', canonical (attempt_value 1 wallet wire_tx) = Ok encoded /\
    synced l' (after (before_noop show true (noop_id 1 wallet 5) 1 wallet wire_tx) w_noop) /\
    authorized "eoa_noop" (noop_id 1 wallet 5) (eoa_replay_key 1 5 wallet) encoded l' /\
    admitted_payload (noop_id 1 wallet 5) (noop_payload 1 wallet 5) l'.
Proof.
  apply (noop_broadcast_exact show (noop_id 1 wallet 5) 1 wallet wire_tx [] w_noop _
    (erun (before_noop show true (noop_id 1 wallet 5) 1 wallet wire_tx) [] w_noop).2 (ledger_of w_noop)).
  - by vm_compute.
  - apply reached_ok; [etrans; [exact start_init|apply next_life]|by vm_compute].
  - constructor.
  - apply run_answer. by vm_compute.
Defined.

(** The worker's own path to the same NOOP: reserve, then broadcast. *)
Example noop_reserved :
  (erun (reserve_noop show true 1 wallet 5) [] w_init).1.1 = Ok (noop_id 1 wallet 5).
Proof. by vm_compute. Qed.
