(* ===== verification/EoaWitness.v ===== *)
(** The guarantees of the EOA store at concrete inputs. *)

From Stdlib Require Import String Ascii NArith Lia.
From stdpp Require Import base gmap strings list fin_maps relations.
From S2P Require Import Prelude Redis RedisProg Json FinalityTypes QueueTypes Webhook EoaTypes.
From S2P Require Import EoaKeys EoaAtomic.
From S2P Require Import EoaStore EoaStoreProps EoaPending EoaBorrowed EoaSubmitted EoaOps.
From S2P Require Import EoaInvariant EoaClaims EoaOpsClaims EoaFormats Concrete.

(** ** A small store: two pending requests, counters at 5, worker "w" owns the account *)

Definition ks0 : EoaExecutorStoreKeys := mkKeys "0xabc" 1 None.
Definition wq0 : string := "webhook".
Definition uuid0 (i j : nat) : string := "u".
Definition request0 (id : string) : EoaTransactionRequest :=
  mkRequest id 1 "0xabc" None 0 "" None [] tt tt None.
Definition data_cmds (id : string) : pipeline :=
  [ HSET (transaction_data_key_name ks0 id) "user_request" (default "" (to_json (request0 id)));
    HSET (transaction_data_key_name ks0 id) "status" "pending" ].

Definition σ_pending : redis :=
  prun ([ SET (eoa_lock_key_name ks0) "w";
          SET (optimistic_transaction_count_key_name ks0) "5";
          SET (last_transaction_count_key_name ks0) "5";
          ZADD (pending_transactions_zset_name ks0) [(10%N, "a"); (11%N, "b")] ]
        ++ data_cmds "a" ++ data_cmds "b") redis_empty.

Definition borrowed0 (id : string) (nonce : N) (hash : string) : BorrowedTransactionData :=
  mkBorrowedData id (nonce, hash) 10 hash 20.
Definition batch0 : list BorrowedTransactionData := [borrowed0 "a" 5 "h5"; borrowed0 "b" 6 "h6"].
Definition allocate0 := MovePendingToBorrowedWithIncrementedNonces ks0 batch0.

(** Another client that writes an unrelated key. *)
Definition foreign0 : env_step := mkStep {["other"]} (wrun (SET "other" "x")).
Definition sch0 : schedule := [mkSlot [] None 100; mkSlot [foreign0] None 0; mkSlot [] None 0].

Lemma foreign0_ok : env_step_ok foreign0.
Proof. intros σ k Hk. apply wrun_frame. cbn in *. set_solver. Qed.
Lemma sch0_ok : sched_ok sch0.
Proof. intros s Hs. assert (s = foreign0) as -> by set_solver. apply foreign0_ok. Qed.

Lemma webhook_apart0 : webhook_apart ks0 wq0.
Proof. by split_and!. Qed.

Lemma fenced_transaction_linearizable_witness :
  let r := run (execute_with_watch_and_retry ks0 "w" allocate0) sch0 idle σ_pending in
  r.1 = Ok (2, Some 7%N) /\
  ∃ pre, sch0 = pre ++ r.2.1.1 /\ outcome_ok ks0 "w" allocate0 σ_pending (sched_steps pre) r.1 r.2.2.
Proof.
  cbn zeta. split; [vm_compute; reflexivity|].
  apply (fenced_transaction_linearizable ks0 "w" allocate0 (watched_by allocate0) sch0 idle σ_pending _ _
    (run (execute_with_watch_and_retry ks0 "w" allocate0) sch0 idle σ_pending).2.1.2).
  - split; [intros; apply incremented_reads|]. intros k Hk. left. apply elem_of_cons. by right.
  - apply sch0_ok.
  - by destruct (run _ sch0 idle σ_pending) as [? [[? ?] ?]].
Defined.

Definition sch_quiet : schedule := [mkSlot [] None 100].
Lemma sch_quiet_ok : quiet sch_quiet.
Proof. intros s Hs. assert (s = mkSlot [] None 100) as -> by set_solver. done. Qed.

Lemma fenced_transaction_quiet_witness :
  ∃ sch' c' σ', run (execute_with_watch_and_retry ks0 "w" allocate0) sch_quiet idle σ_pending
    = (Ok (2, Some 7%N), (sch', c', σ')).
Proof.
  destruct (fenced_transaction_quiet ks0 "w" allocate0 (watched_by allocate0) sch_quiet idle σ_pending)
    as (sch' & c' & Hrun); [intros; apply incremented_reads|apply sch_quiet_ok|reflexivity|].
  destruct (atomic_step ks0 "w" allocate0 _ σ_pending) as [[σ2 r]|e] eqn:E; revert E; [|by vm_compute].
  intros E. exists sch', c', σ2. rewrite Hrun. repeat f_equal.
  assert (match atomic_step ks0 "w" allocate0 (sl_now (next_slot sch_quiet).1) σ_pending with
          | Ok (_, r) => r | Err _ => (0, None) end = (2, Some 7%N)) as H by (vm_compute; reflexivity).
  by rewrite E in H.
Defined.

Lemma lost_owner_writes_nothing_witness :
  let r := run (execute_with_watch_and_retry ks0 "stranger" allocate0) sch0 idle σ_pending in
  (∃ e, r.1 = Err e) /\ ∃ pre, sch0 = pre ++ r.2.1.1 /\ r.2.2 = run_steps (sched_steps pre) σ_pending.
Proof.
  cbn zeta. apply (lost_owner_writes_nothing ks0 "stranger" allocate0 (watched_by allocate0) sch0 idle
    σ_pending _ _ (run (execute_with_watch_and_retry ks0 "stranger" allocate0) sch0 idle σ_pending).2.1.2).
  - split; [intros; apply incremented_reads|]. intros k Hk. left. apply elem_of_cons. by right.
  - apply sch0_ok.
  - intros es1 es2 Hes. destruct es1 as [|e1 [|e2 es1]]; cbn in Hes; simplify_eq; vm_compute; discriminate.
  - by destruct (run _ sch0 idle σ_pending) as [? [[? ?] ?]].
Defined.

Lemma fenced_validations_covered_witness :
  validation_covered ks0 (MovePendingToBorrowedWithIncrementedNonces ks0 batch0) sch0
    (watched_by (MovePendingToBorrowedWithIncrementedNonces ks0 batch0)) /\
  validation_covered ks0 (ResetNoncesTransaction ks0 7) sch0
    (fun k => watched_by (ResetNoncesTransaction ks0 7) k \/ k = eoa_health_key_name ks0).
Proof.
  destruct (fenced_validations_covered ks0 wq0 (fun _ => "f") 60 batch0 [] [] [] (mkCounts 5 5) [] 7 uuid0 sch0)
    as (H1 & _ & _ & _ & _ & H6 & _). split; [exact H1|]. apply H6.
  intros s k Hs ->. assert (s = foreign0) as -> by set_solver. vm_compute. discriminate.
Defined.

(** ** Reachable states *)

Definition json_a : string := default "" (to_json (request0 "a")).
Definition σ_r1 : redis := Eval vm_compute in (admission_script ks0 "a" json_a 10 redis_empty).1.
Definition σ_r2 : redis := Eval vm_compute in put_str (eoa_lock_key_name ks0) "w" σ_r1.
Definition σ_r3 : redis :=
  Eval vm_compute in prun (cached_count_pipeline ks0 5 None None) σ_r2.
Definition step_of {R} (r : result TransactionStoreError (redis * R)) (σ : redis) : redis :=
  match r with Ok (σ', _) => σ' | Err _ => σ end.
Definition σ_r4 : redis :=
  Eval vm_compute in step_of
    (atomic_step ks0 "w" (MovePendingToBorrowedWithIncrementedNonces ks0 [borrowed0 "a" 5 "h5"]) 100 σ_r3) σ_r3.

Lemma nonce_invariant_reachable_witness :
  rtc (store_step ks0 wq0 (fun _ => "f") 60) redis_empty σ_r4 /\
  is_Some (hash σ_r4 (borrowed_transactions_hashmap_name ks0) !! "a") /\ nonce_invariant ks0 σ_r4.
Proof.
  assert (rtc (store_step ks0 wq0 (fun _ => "f") 60) redis_empty σ_r4) as Hr.
  { apply rtc_l with σ_r1; [exact (SS_admit ks0 wq0 _ _ redis_empty "a" json_a 10)|].
    apply rtc_l with σ_r2; [exact (SS_take_lock ks0 wq0 _ _ σ_r1 "w")|].
    apply rtc_l with σ_r3.
    { apply (SS_cached ks0 wq0 _ _ σ_r2 5 None None); [done|vm_compute; reflexivity]. }
    apply rtc_once. apply (SS_increment ks0 wq0 _ _ σ_r3 "w" [borrowed0 "a" 5 "h5"] 100 σ_r4 (1, Some 6%N)).
    vm_compute. reflexivity. }
  split; [exact Hr|]. split; [vm_compute; eexists; reflexivity|].
  exact (nonce_invariant_reachable ks0 wq0 webhook_apart0 (fun _ => "f") 60 σ_r4 Hr).
Defined.

Lemma foreign0_step τ : store_step ks0 wq0 (fun _ => "f") 60 τ (es_run foreign0 τ).
Proof.
  apply SS_foreign. intros k Hk. apply wrun_frame.
  destruct Hk as [->|[->|[->| ->]]]; vm_compute; discriminate.
Qed.

Lemma σ_r3_invariant : nonce_invariant ks0 σ_r3.
Proof.
  assert (∀ σ σ', store_step ks0 wq0 (fun _ => "f") 60 σ σ' ->
    nonce_invariant ks0 σ -> nonce_invariant ks0 σ') as Hs.
  { intros σ σ' Hst Hinv. exact (store_step_preserves ks0 wq0 webhook_apart0 (fun _ => "f") 60 σ σ' Hinv Hst). }
  apply (Hs σ_r2); [apply (SS_cached ks0 wq0 _ _ σ_r2 5 None None); [done|vm_compute; reflexivity]|].
  apply (Hs σ_r1); [exact (SS_take_lock ks0 wq0 _ _ σ_r1 "w")|].
  apply (Hs redis_empty); [exact (SS_admit ks0 wq0 _ _ redis_empty "a" json_a 10)|].
  apply nonce_invariant_empty.
Qed.

Lemma allocation_safe_under_interference_witness :
  let r := run (execute_with_watch_and_retry ks0 "w"
    (MovePendingToBorrowedWithIncrementedNonces ks0 [borrowed0 "a" 5 "h5"])) sch0 idle σ_r3 in
  r.1 = Ok (1, Some 6%N) /\ nonce_invariant ks0 r.2.2.
Proof.
  intros r. split; [vm_compute; reflexivity|].
  apply (allocation_safe_under_interference ks0 wq0 webhook_apart0 (fun _ => "f") 60 "w"
    [borrowed0 "a" 5 "h5"] sch0 idle σ_r3 r.1 r.2.1.1 r.2.1.2).
  - apply sch0_ok.
  - intros s τ Hs. assert (s = foreign0) as -> by set_solver. apply foreign0_step.
  - apply σ_r3_invariant.
  - subst r. by destruct (run _ sch0 idle σ_r3) as [? [[? ?] ?]].
Defined.

(** ** Committed operations *)

Definition σ_borrowed : redis := Eval vm_compute in step_of (atomic_step ks0 "w" allocate0 100 σ_pending) σ_pending.

Lemma incremented_allocation_exact_witness :
  atomic_step ks0 "w" allocate0 100 σ_pending = Ok (σ_borrowed, (2, Some 7%N)) /\
  ∃ cur, str σ_pending (optimistic_transaction_count_key_name ks0) ≫= parse_u64 = Some cur /\
    str σ_borrowed (optimistic_transaction_count_key_name ks0) ≫= parse_u64 = Some (cur + 2)%N /\
    moved_to_borrowed ks0 batch0 σ_pending σ_borrowed.
Proof.
  assert (atomic_step ks0 "w" allocate0 100 σ_pending = Ok (σ_borrowed, (2, Some 7%N))) as Hstep
    by (vm_compute; reflexivity).
  split; [exact Hstep|].
  destruct (incremented_allocation_exact ks0 "w" batch0 100 σ_pending σ_borrowed 2 (Some 7%N) Hstep)
    as (cur & H1 & _ & _ & _ & H5 & H6).
  exists cur. split; [exact H1|split; [exact H5|exact H6]].
Defined.

Definition σ_recycled : redis :=
  prun [ZADD (recycled_nonces_zset_name ks0) [(3%N, "3"); (4%N, "4")]] σ_pending.
Definition batch_recycled : list BorrowedTransactionData := [borrowed0 "a" 3 "h3"].
Definition allocate_recycled := MovePendingToBorrowedWithRecycledNonces ks0 batch_recycled.
Definition σ_reused : redis :=
  Eval vm_compute in step_of (atomic_step ks0 "w" allocate_recycled 100 σ_recycled) σ_recycled.

Lemma σ_recycled_members m s :
  zset σ_recycled (recycled_nonces_zset_name ks0) !! m = Some s -> m = u64_to_string s /\ is_u64 s.
Proof.
  assert (zset σ_recycled (recycled_nonces_zset_name ks0) = <["4" := 4%N]> {["3" := 3%N]}) as ->
    by (vm_compute; reflexivity).
  rewrite lookup_insert_Some, lookup_singleton_Some. intros [[<- <-]|[_ [<- <-]]]; by vm_compute.
Qed.

Lemma recycled_allocation_exact_witness :
  atomic_step ks0 "w" allocate_recycled 100 σ_recycled = Ok (σ_reused, 1) /\
  zset σ_reused (recycled_nonces_zset_name ks0) !! "3" = None /\
  moved_to_borrowed ks0 batch_recycled σ_recycled σ_reused.
Proof.
  assert (atomic_step ks0 "w" allocate_recycled 100 σ_recycled = Ok (σ_reused, 1)) as Hstep
    by (vm_compute; reflexivity).
  destruct (recycled_allocation_exact ks0 "w" batch_recycled 100 σ_recycled σ_reused 1 σ_recycled_members Hstep)
    as (_ & _ & H1 & _ & H2).
  split; [exact Hstep|split; [|exact H2]]. apply (H1 (borrowed0 "a" 3 "h3")). constructor.
Defined.

(** The node acknowledged "a"; nobody knows about "b". *)
Definition result0 (b : BorrowedTransactionData) (r : SubmissionResultType) : SubmissionResult :=
  mkSubmissionResult (mkSubmitted (submitted_of_borrowed 30 b) (request0 (bd_transaction_id b))) r.
Definition results0 : list SubmissionResult :=
  [result0 (borrowed0 "a" 5 "h5") Success; result0 (borrowed0 "b" 6 "h6") Uncertain].
Definition dispatch0 := ProcessBorrowedTransactions ks0 wq0 uuid0 results0.
Definition σ_sent : redis := Eval vm_compute in step_of (atomic_step ks0 "w" dispatch0 100 σ_borrowed) σ_borrowed.
Definition report0 :=
  Eval vm_compute in match atomic_step ks0 "w" dispatch0 100 σ_borrowed with
                     | Ok (_, r) => r | Err _ => borrowed_report_default end.

Lemma dispatch_results_exact_witness :
  atomic_step ks0 "w" dispatch0 100 σ_borrowed = Ok (σ_sent, report0) /\
  hash σ_sent (borrowed_transactions_hashmap_name ks0) !! "a" = None /\
  hash σ_sent (transaction_data_key_name ks0 "a") !! "status" = Some "submitted" /\
  hash σ_sent (borrowed_transactions_hashmap_name ks0) !! "b" =
    hash σ_borrowed (borrowed_transactions_hashmap_name ks0) !! "b".
Proof.
  assert (atomic_step ks0 "w" dispatch0 100 σ_borrowed = Ok (σ_sent, report0)) as Hstep
    by (vm_compute; reflexivity).
  split; [exact Hstep|]. unfold dispatch0 in Hstep.
  pose proof (dispatch_results_exact ks0 "w" wq0 uuid0 results0 100 σ_borrowed σ_sent report0 webhook_apart0
    Hstep) as H. cbv zeta in H. destruct H as (H1 & H2 & _).
  destruct (H1 (result0 (borrowed0 "a" 5 "h5") Success)) as (Ha & _ & Hb);
    [constructor|apply elem_of_dom; vm_compute; eexists; reflexivity|reflexivity|].
  split; [exact Ha|split; [exact Hb|]]. apply H2. intros r Hr Hid.
  unfold results0 in Hr. rewrite !elem_of_cons, elem_of_nil in Hr.
  destruct Hr as [->|[->|[]]]; [vm_compute in Hid; discriminate Hid|reflexivity].
Defined.

(** The receipt of "a" is final. *)
Definition receipt_a : TransactionReceipt := ("h5", Some 100%N, Some "bh", true).
Definition confirmed_a : ConfirmedTransaction :=
  mkConfirmed 5 "h5" "a" receipt_a "receipt" (mkFinality 100 "bh" 110 "ch" Finalized).
Definition confirmed0 : list ConfirmedTransaction := [confirmed_a].
Definition counts0 : TransactionCounts := mkCounts 6 6.
Definition cleanup0 := CleanSubmittedTransactions ks0 wq0 uuid0 (fun _ => "f") 60 counts0 confirmed0.
Definition σ_settled : redis := Eval vm_compute in step_of (atomic_step ks0 "w" cleanup0 200 σ_sent) σ_sent.
Definition cleanup_report0 :=
  Eval vm_compute in match atomic_step ks0 "w" cleanup0 200 σ_sent with
                     | Ok (_, r) => Some r | Err _ => None end.
Definition submitted_a : SubmittedTransactionHydrated :=
  HReal (mkSubmitted (submitted_of_borrowed 30 (borrowed0 "a" 5 "h5")) (request0 "a")).

Lemma cleanup0_step : ∃ r, atomic_step ks0 "w" cleanup0 200 σ_sent = Ok (σ_settled, r).
Proof. vm_compute. eexists. reflexivity. Qed.

Lemma settlement_needs_evidence_witness :
  zset σ_settled (submitted_transactions_zset_name ks0) !! "h5:a:10:30" <>
    zset σ_sent (submitted_transactions_zset_name ks0) !! "h5:a:10:30" /\
  ∃ tx c, c ∈ confirmed0 /\ evidence_matches c = true /\
    ((h_to_redis_string_with_nonce tx).1 = "h5:a:10:30" \/
     (h_to_legacy_redis_string_with_nonce tx).1 = "h5:a:10:30").
Proof.
  assert (zset σ_settled (submitted_transactions_zset_name ks0) !! "h5:a:10:30" <>
    zset σ_sent (submitted_transactions_zset_name ks0) !! "h5:a:10:30") as Hne by (vm_compute; discriminate).
  split; [exact Hne|]. destruct cleanup0_step as [r Hstep]. unfold cleanup0 in Hstep.
  pose proof (settlement_needs_evidence ks0 "w" wq0 uuid0 webhook_apart0 (fun _ => "f") 60 counts0 confirmed0
    200 σ_sent σ_settled r Hstep) as H.
  destruct H as (Hev & txs & _ & Hsub & _). destruct (Hsub _ Hne) as (tx & c & _ & Hc & Hm & _).
  exists tx, c. split; [exact Hc|split; [exact (Hev c Hc)|]]. destruct Hm as [Hm|Hm]; [left|right]; symmetry; exact Hm.
Defined.

Lemma settlement_complete_witness :
  hash σ_settled (transaction_data_key_name ks0 "a") !! "status" = Some "confirmed" /\
  hash σ_settled (transaction_data_key_name ks0 "a") !! "receipt" = Some "receipt".
Proof.
  destruct cleanup0_step as [r Hstep]. unfold cleanup0 in Hstep.
  assert ((run_alone (clean_validation ks0 counts0 confirmed0 200) σ_sent).1 = Ok [submitted_a]) as Hv
    by (vm_compute; reflexivity).
  destruct (settlement_complete ks0 "w" wq0 uuid0 webhook_apart0 (fun _ => "f") 60 counts0 confirmed0
    200 σ_sent σ_settled r [submitted_a] Hstep Hv submitted_a) as [_ H];
    [constructor|vm_compute; reflexivity|].
  apply (H confirmed_a); [vm_compute; reflexivity|vm_compute; discriminate].
Defined.

(** Nonces 3 and 4 were recycled and the counter stands at 5, the chain at 2. *)
Definition σ_trim : redis :=
  prun [SET (last_transaction_count_key_name ks0) "2"] σ_recycled.
Definition σ_trimmed : redis :=
  Eval vm_compute in step_of (atomic_step ks0 "w" (CleanAndGetRecycledNonces ks0) 100 σ_trim) σ_trim.

Lemma σ_trim_members m s :
  zset σ_trim (recycled_nonces_zset_name ks0) !! m = Some s -> m = u64_to_string s /\ is_u64 s.
Proof.
  replace (zset σ_trim (recycled_nonces_zset_name ks0)) with (zset σ_recycled (recycled_nonces_zset_name ks0))
    by (vm_compute; reflexivity). apply σ_recycled_members.
Qed.

Lemma trim_keeps_reservations_witness :
  ∃ recs, atomic_step ks0 "w" (CleanAndGetRecycledNonces ks0) 100 σ_trim = Ok (σ_trimmed, recs) /\
  same_at (submitted_transactions_zset_name ks0) σ_trim σ_trimmed.
Proof.
  assert (∃ recs, atomic_step ks0 "w" (CleanAndGetRecycledNonces ks0) 100 σ_trim = Ok (σ_trimmed, recs))
    as [recs Hstep] by (vm_compute; eexists; reflexivity).
  exists recs. split; [exact Hstep|].
  apply (trim_keeps_reservations ks0 "w" 100 σ_trim σ_trimmed recs σ_trim_members Hstep).
Defined.

Lemma reset_only_when_resolved_witness :
  atomic_step ks0 "w" (ResetNoncesTransaction ks0 9) 100 σ_sent = Err UnresolvedNonceReservations.
Proof.
  apply (reset_only_when_resolved ks0 "w" 9 100 σ_sent); [vm_compute; reflexivity|done|].
  left. vm_compute. discriminate.
Defined.

(** One NOOP on a recycled nonce among another client's write; then an empty batch. *)
Definition noop0 : SubmittedNoopTransaction := mkNoop 7 "h7".
Definition sch_noop : schedule :=
  [mkSlot [mkStep {["other"]} (wrun (SET "other" "x"))] None 100].
Definition noop_run := Eval vm_compute in run (process_noop_transactions ks0 "w" [noop0]) sch_noop idle σ_pending.

Lemma noop_batch_outcome_witness :
  (noop_run.1 = Ok tt /\ zset noop_run.2.2 (submitted_transactions_zset_name ks0) !!
     (noop_to_redis_string_with_nonce noop0).1 = Some 7%N) /\
  ∃ e, (run (process_noop_transactions ks0 "w" []) sch_noop idle σ_pending).1 = Err e.
Proof.
  assert (sched_ok sch_noop) as Hok.
  { intros s Hs. apply list_elem_of_singleton in Hs as ->. intros σ k Hk. apply wrun_frame. cbn in *. set_solver. }
  split; [split; [reflexivity|]|].
  - destruct (noop_batch_outcome ks0 "w" [noop0] sch_noop idle σ_pending (Ok tt) noop_run.2.1.1 noop_run.2.1.2
      noop_run.2.2 Hok) as (pre & _ & _ & _). { vm_compute. reflexivity. } vm_compute. reflexivity.
  - destruct (run (process_noop_transactions ks0 "w" []) sch_noop idle σ_pending) as [[u|e] [[sch' c'] σ']] eqn:E;
      [|by exists e].
    destruct (noop_batch_outcome ks0 "w" [] sch_noop idle σ_pending (Ok u) sch' c' σ' Hok E) as (pre & _ & Hne & _).
    by destruct Hne.
Defined.

Lemma cached_count_sync_witness :
  ∃ sch' c' σ', run (update_cached_transaction_count ks0 "w" 8) sch_quiet idle σ_pending
    = (Ok tt, (sch', c', σ')) /\
    str σ' (last_transaction_count_key_name ks0) ≫= parse_u64 = Some 8%N /\
    str σ' (optimistic_transaction_count_key_name ks0) ≫= parse_u64 = Some 8%N.
Proof.
  apply (cached_count_sync ks0 "w" 8 (Some 5%N) sch_quiet idle σ_pending sch_quiet_ok eq_refl
    ltac:(vm_compute; reflexivity)); [done|].
  intros now. exists None. vm_compute. reflexivity.
Defined.

(** ** Reads and admission *)

Lemma submitted_pages_complete_witness :
  ∃ rows, page_cycle ks0 6 10 σ_sent 1 0 = Ok rows /\
    submitted_of_borrowed 30 (borrowed0 "a" 5 "h5") ∈ rows.
Proof.
  destruct (submitted_pages_complete ks0 6 10 0 1 σ_sent) as (rows & H1 & H2);
    [done|done|vm_compute; discriminate|vm_compute; lia|].
  exists rows. split; [exact H1|]. apply (H2 "h5:a:10:30" 5%N); vm_compute; reflexivity.
Defined.

Lemma inflight_budget_bounds_witness :
  (run_alone (get_inflight_budget ks0 50) σ_borrowed).1 = Ok 48%N /\
  ∃ optimistic last,
    as_opt_u64 (str σ_borrowed (optimistic_transaction_count_key_name ks0)) = Ok (Some optimistic) /\
    as_opt_u64 (str σ_borrowed (last_transaction_count_key_name ks0)) = Ok (Some last) /\
    (optimistic - last + 48 <= 50)%N.
Proof.
  assert ((run_alone (get_inflight_budget ks0 50) σ_borrowed).1 = Ok 48%N) as Hb by (vm_compute; reflexivity).
  split; [exact Hb|].
  destruct (inflight_budget_bounds ks0 50 σ_borrowed 48 Hb) as (o & l & H1 & H2 & _ & H4).
  exists o, l. split; [exact H1|split; [exact H2|]]. destruct H4 as [H4 _]; [done|exact H4].
Defined.

Definition admitted0 := run (add_transaction ks0 (request0 "z")) sch_quiet idle σ_pending.

Lemma admission_once_witness :
  admitted0.1 = Ok tt /\
  hash (run_admissions ks0 [mkAdmission "z" "other" 50] admitted0.2.2) (transaction_data_key_name ks0 "z") =
    hash admitted0.2.2 (transaction_data_key_name ks0 "z").
Proof.
  assert (admitted0.1 = Ok tt) as Hok by (vm_compute; reflexivity). split; [exact Hok|].
  destruct (to_json (request0 "z")) as [json|] eqn:Ej; [|vm_compute in Ej; discriminate Ej].
  refine (proj1 (proj2 (admission_once ks0 (request0 "z") json sch_quiet idle σ_pending
    admitted0.2.1.1 admitted0.2.1.2 admitted0.2.2 [mkAdmission "z" "other" 50] Ej _))).
  rewrite <- Hok. unfold admitted0. by destruct (run _ sch_quiet idle σ_pending) as [? [[? ?] ?]].
Defined.

Lemma admission_capacity_witness :
  (N.of_nat (size (zset (run_admissions ks0 [mkAdmission "z" "j" 50; mkAdmission "y" "j" 51] σ_pending)
     (pending_transactions_zset_name ks0))) <= MAX_PENDING_TRANSACTIONS)%N.
Proof. apply (admission_capacity ks0 [mkAdmission "z" "j" 50; mkAdmission "y" "j" 51] σ_pending). vm_compute. discriminate. Defined.

(** ** Formats *)

Definition record_a : SubmittedTransactionDehydrated := mkSubmittedDehydrated 5 "h5" "a" 30 10.

Lemma submitted_record_round_trip_witness :
  from_redis_string (to_redis_string_with_nonce record_a) = Some record_a /\
  from_redis_string (noop_to_redis_string_with_nonce (mkNoop 7 "h7")) =
    Some (mkSubmittedDehydrated 7 "h7" NO_OP_TRANSACTION_ID 0 0).
Proof.
  destruct (submitted_record_round_trip record_a record_a (mkNoop 7 "h7")) as (H1 & _ & H3 & _);
    [by split_and!|by split_and!|reflexivity|]. split; [exact H1|exact H3].
Defined.

Lemma colon_id_unreadable_witness :
  from_redis_string (to_redis_string_with_nonce (mkSubmittedDehydrated 5 "h5" "tenant:a" 30 10)) = None.
Proof. apply (colon_id_unreadable (mkSubmittedDehydrated 5 "h5" "tenant:a" 30 10)). reflexivity. Defined.

Lemma store_keys_distinct_witness :
  key_name ks0 KPending <> key_name (mkKeys "0xdef" 1 None) KPending.
Proof.
  intros H. destruct (store_keys_distinct ks0 (mkKeys "0xdef" 1 None) KPending KPending eq_refl) as [_ H2].
  destruct (H2 I H) as (_ & He & _). discriminate He.
Defined.
