(* ===== verification/Queue.v ===== *)
(** The single-lane job queue (twmq/src/lib.rs) and its lease-protected commits
    (twmq/src/transaction.rs).  Each Lua script is one atomic function of the
    keyspace; everything else is a client program. *)

From Stdlib Require Import String Ascii NArith Lia.
From stdpp Require Import base gmap strings list fin_maps.
From S2P Require Import Prelude Redis RedisProg Json QueueTypes.

Notation twmq_result A := (result TwmqError A).

Inductive CancelResult := CancelledImmediately | CancellationPending | CancelNotFound.

Definition U32_MAX : N := 4294967295.
Definition parse_u32 (s : string) : option N :=
  n ← parse_u64 s; if (n <=? U32_MAX)%N then Some n else None.

Definition has_id (l : list string) (id : string) : bool := bool_decide (id ∈ l).

(** [HINCRBY key field 1]; a missing counter counts from zero. *)
Definition hincr (k f : string) (σ : redis) : redis * N :=
  let n := (default 0 (hash σ k !! f ≫= parse_u64) + 1)%N in
  (wrun (HSET k f (u64_to_string n)) σ, n).

Section Scripts.
Context (name : string).

(** ** Push *)

Definition push_script (job_id job_data : string) (now delay : N) (reentry_position : string)
    (σ : redis) : redis * bool :=
  if bool_decide (job_id ∈ sett σ (dedupe_set_name name)) then (σ, false)
  else
    let meta := job_meta_hash_name name job_id in
    (prun ([ HSET (job_data_hash_name name) job_id job_data;
             HSET meta "created_at" (u64_to_string now);
             HSET meta "attempts" "0";
             SADD (dedupe_set_name name) job_id ] ++
           (if (0 <? delay)%N then
              [ HSET meta "reentry_position" reentry_position;
                ZADD (delayed_zset_name name) [((now + delay)%N, job_id)] ]
            else [ RPUSH (pending_list_name name) job_id ])) σ, true).

(** ** The dedupe set, edited by an operator *)

(** Neither command looks at where the jobs are. *)
Definition forget_id (job_id : string) (σ : redis) : redis :=
  wrun (SREM (dedupe_set_name name) job_id) σ.
Definition forget_all (σ : redis) : redis := wrun (DEL (dedupe_set_name name)) σ.

(** ** Cancel *)

Definition cancel_script (job_id : string) (now : N) (σ : redis) : redis * CancelResult :=
  let to_failed :=
    [ LPUSH (failed_list_name name) job_id;
      HSET (job_meta_hash_name name job_id) "finished_at" (u64_to_string now) ] in
  if has_id (lst σ (pending_list_name name)) job_id then
    (prun (LREM (pending_list_name name) job_id :: to_failed) σ, CancelledImmediately)
  else if bool_decide (is_Some (zset σ (delayed_zset_name name) !! job_id)) then
    (prun (ZREM (delayed_zset_name name) [job_id] :: to_failed) σ, CancelledImmediately)
  else if bool_decide (is_Some (hash σ (active_hash_name name) !! job_id)) then
    (wrun (SADD (pending_cancellation_set_name name) job_id) σ, CancellationPending)
  else (σ, CancelNotFound).

(** ** Pop *)

(** Step 1: an active job whose lease key is gone goes back to the front of pending. *)
Definition lease_alive (σ : redis) (job_id : string) : bool :=
  match hash σ (job_meta_hash_name name job_id) !! "lease_token" with
  | Some token => exists_key σ (lease_key_name name job_id token)
  | None => false
  end.

Definition reclaim (job_id : string) (σ : redis) : redis :=
  let meta := job_meta_hash_name name job_id in
  let had_token := bool_decide (is_Some (hash σ meta !! "lease_token")) in
  let σ1 := (hincr meta "attempts" σ).1 in
  prun ((if had_token then [ HDEL meta "lease_token" ] else []) ++
        [ HDEL (active_hash_name name) job_id; LPUSH (pending_list_name name) job_id ]) σ1.

Fixpoint expire_leases (active : list string) (σ : redis) : redis * list string :=
  match active with
  | [] => (σ, [])
  | job_id :: rest =>
      if lease_alive σ job_id then expire_leases rest σ
      else
        let '(σ', timed_out) := expire_leases rest (reclaim job_id σ) in
        (σ', job_id :: timed_out)
  end.

(** Step 2: cancellations of jobs that are no longer active. *)
Definition cancel_one (now : N) (job_id : string) (σ : redis) : redis * bool :=
  let finish := SREM (pending_cancellation_set_name name) job_id in
  let is_pending := has_id (lst σ (pending_list_name name)) job_id in
  let is_delayed := bool_decide (is_Some (zset σ (delayed_zset_name name) !! job_id)) in
  if negb is_pending && negb is_delayed && has_id (lst σ (success_list_name name)) job_id
  then (wrun finish σ, false)
  else
    (prun [ LREM (pending_list_name name) job_id;
            ZREM (delayed_zset_name name) [job_id];
            LREM (failed_list_name name) job_id;
            LPUSH (failed_list_name name) job_id;
            HSET (job_meta_hash_name name job_id) "finished_at" (u64_to_string now);
            finish ] σ, true).

Fixpoint process_cancellations (now : N) (requests : list string) (σ : redis)
    : redis * list string :=
  match requests with
  | [] => (σ, [])
  | job_id :: rest =>
      if bool_decide (is_Some (hash σ (active_hash_name name) !! job_id))
      then process_cancellations now rest σ
      else
        let '(σ1, cancelled) := cancel_one now job_id σ in
        let '(σ2, more) := process_cancellations now rest σ1 in
        (σ2, if cancelled then job_id :: more else more)
  end.

(** Step 3: delayed jobs whose time has come. *)
Definition release_delayed (job_id : string) (σ : redis) : redis :=
  let meta := job_meta_hash_name name job_id in
  let reentry_position := default "last" (hash σ meta !! "reentry_position") in
  prun [ ZREM (delayed_zset_name name) [job_id];
         HDEL meta "reentry_position";
         if decide (reentry_position = "first") then LPUSH (pending_list_name name) job_id
         else RPUSH (pending_list_name name) job_id ] σ.

(** Step 4: pop ids, then lease those that have data. *)
Fixpoint pop_ids (batch_size : nat) (σ : redis) : redis * list string :=
  match batch_size with
  | O => (σ, [])
  | S n =>
      match lst σ (pending_list_name name) with
      | [] => (σ, [])
      | job_id :: _ =>
          let '(σ', ids) := pop_ids n (wrun (LPOP (pending_list_name name)) σ) in
          (σ', job_id :: ids)
      end
  end.

Record popped_job := mkPopped {
  pj_id : string;
  pj_data : string;
  pj_attempts : string;
  pj_created_at : string;
  pj_processed_at : string;
  pj_lease_token : string
}.

Definition lease_token_of (now : N) (job_id : string) (attempts : N) (pop_id : string) : string :=
  u64_to_string now +:+ "_" +:+ job_id +:+ "_" +:+ u64_to_string attempts +:+ "_" +:+ pop_id.

Definition lease_job (now : N) (pop_id : string) (lease_seconds : N) (job_id : string) (σ : redis)
    : redis * option popped_job :=
  match hash σ (job_data_hash_name name) !! job_id with
  | None => (σ, None)
  | Some job_data =>
      let meta := job_meta_hash_name name job_id in
      let σ1 := wrun (HSET meta "processed_at" (u64_to_string now)) σ in
      let created_at := default (u64_to_string now) (hash σ1 meta !! "created_at") in
      let '(σ2, attempts) := hincr meta "attempts" σ1 in
      let lease_token := lease_token_of now job_id attempts pop_id in
      let lease_key := lease_key_name name job_id lease_token in
      (prun [ SET lease_key "1";
              EXPIRE lease_key lease_seconds;
              HSET meta "lease_token" lease_token;
              HSET (active_hash_name name) job_id (u64_to_string attempts) ] σ2,
       Some (mkPopped job_id job_data (u64_to_string attempts) created_at
               (u64_to_string now) lease_token))
  end.

Fixpoint lease_jobs (now : N) (pop_id : string) (lease_seconds : N) (ids : list string) (σ : redis)
    : redis * list popped_job :=
  match ids with
  | [] => (σ, [])
  | job_id :: rest =>
      let '(σ1, job) := lease_job now pop_id lease_seconds job_id σ in
      let '(σ2, jobs) := lease_jobs now pop_id lease_seconds rest σ1 in
      (σ2, match job with Some j => j :: jobs | None => jobs end)
  end.

Definition delayed_due (now : N) (σ : redis) : list string :=
  (zrangebyscore (zset σ (delayed_zset_name name)) 0 now).*1.

(** HGETALL and SMEMBERS reply in an unspecified order, here that of the maps. *)
Definition pop_script (now : N) (pop_id : string) (batch_size : nat) (lease_seconds : N) (σ : redis)
    : redis * (list popped_job * list string * list string) :=
  let '(σ1, timed_out_jobs) :=
    expire_leases (map_to_list (hash σ (active_hash_name name))).*1 σ in
  let '(σ2, cancelled_jobs) :=
    process_cancellations now (elements (sett σ1 (pending_cancellation_set_name name))) σ1 in
  let σ3 := foldl (fun σ id => release_delayed id σ) σ2 (delayed_due now σ2) in
  let '(σ4, popped_job_ids) := pop_ids batch_size σ3 in
  let '(σ5, result_jobs) := lease_jobs now pop_id lease_seconds popped_job_ids σ4 in
  (σ5, (result_jobs, cancelled_jobs, timed_out_jobs)).

(** ** Pruning *)

(** One id that fell out of a terminal list: its records go unless the id is live or
    still named by a terminal list.  The two scripts delete the same keys. *)
Definition prune_protected (list_name other_list : string) (j_id : string) (σ : redis) : bool :=
  bool_decide (is_Some (hash σ (active_hash_name name) !! j_id))
  || has_id (lst σ (pending_list_name name)) j_id
  || bool_decide (is_Some (zset σ (delayed_zset_name name) !! j_id))
  || has_id (lst σ list_name) j_id || has_id (lst σ other_list) j_id.

Definition prune_one (list_name other_list : string) (j_id : string) (σ : redis) : redis * nat :=
  if prune_protected list_name other_list j_id σ then (σ, 0)
  else
    (prun [ SREM (dedupe_set_name name) j_id;
            SREM (pending_cancellation_set_name name) j_id;
            HDEL (job_data_hash_name name) j_id;
            DEL (job_meta_hash_name name j_id);
            HDEL (job_result_hash_name name) j_id;
            DEL (job_errors_list_name name j_id) ] σ, 1).

Fixpoint prune_ids (list_name other_list : string) (ids : list string) (σ : redis) : redis * nat :=
  match ids with
  | [] => (σ, 0)
  | j_id :: rest =>
      let '(σ1, n) := prune_one list_name other_list j_id σ in
      let '(σ2, m) := prune_ids list_name other_list rest σ1 in
      (σ2, n + m)
  end.

Definition trim_script (list_name other_list : string) (max_len : nat) (σ : redis) : redis * nat :=
  let job_ids_to_delete := drop max_len (lst σ list_name) in
  match job_ids_to_delete with
  | [] => (σ, 0)
  | _ =>
      let σ1 := match max_len with
                | O => wrun (DEL list_name) σ
                | S stop => wrun (LTRIM list_name stop) σ
                end in
      prune_ids list_name other_list job_ids_to_delete σ1
  end.
End Scripts.

(** ** Lease-protected commits *)

Definition LEASE_ATTEMPTS : nat := 10.
Definition lease_changed_error : TwmqError :=
  TwmqRuntime "Lease changed repeatedly while completing a job".

Fixpoint commit_attempts (lease_key : string) (p : pipeline) (left : nat) : prog (twmq_result bool) :=
  match left with
  | O => Ret (Err lease_changed_error)
  | S left' =>
      let! _ := watch [lease_key] in
      let! alive := read (fun σ => Ok (exists_key σ lease_key)) in
      if negb (alive : bool) then let! _ := unwatch in Ret (Ok false)
      else
        let! committed := exec p in
        if (committed : bool) then Ret (Ok true) else commit_attempts lease_key p left'
  end.

Definition commit_if_leased (lease_key : string) (p : pipeline) : prog (twmq_result bool) :=
  commit_attempts lease_key p LEASE_ATTEMPTS.

(** ** Queue operations *)

Section Queue.
Context {T : Type} `{Json T}.
Context {Output ErrorData : Type} `{Json Output}.
(** The handler's hooks: what each adds to the transaction. *)
Context (on_success : BorrowedJob T -> Output -> pipeline).
Context (on_nack : BorrowedJob T -> ErrorData -> option Duration -> RequeuePosition -> pipeline).
Context (on_fail : BorrowedJob T -> ErrorData -> pipeline).
Context (on_queue_error : Job (option T) -> pipeline).
(** [ErrorData::user_cancelled] and the bounded encoding of error records. *)
Context (user_cancelled : ErrorData) (encode : JobErrorRecord ErrorData -> twmq_result string).
Context (name : string) (options : QueueOptions).

Definition push (job_options : JobOptions T) : prog (twmq_result (Job T)) :=
  Now (fun now =>
    let job := mkJob (jo_id job_options) (jo_data job_options) 0 now None None in
    match to_json (jo_data job_options) with
    | None => Ret (Err TwmqJsonError)
    | Some job_data =>
        let delay := default (mkDelay (mkDuration 0 0) Last) (jo_delay job_options) in
        let! _ := atomically (push_script name (jo_id job_options) job_data now
          (delay_to_queue_seconds (do_delay delay)) (position_to_string (do_position delay))) in
        Ret (Ok job)
    end).

Definition get_job (job_id : string) : prog (twmq_result (option (Job T))) :=
  let! job_data_t_json := read (fun σ => Ok (hash σ (job_data_hash_name name) !! job_id)) in
  match job_data_t_json with
  | None => Ret (Ok None)
  | Some data_json =>
      match from_json data_json with
      | None => Ret (Err TwmqJsonError)
      | Some data_t =>
          let! meta_map := read (fun σ => Ok (hash σ (job_meta_hash_name name job_id))) in
          Ret (Ok (Some (mkJob job_id data_t
            (default 0%N (meta_map !! "attempts" ≫= parse_u32))
            (default 0%N (meta_map !! "created_at" ≫= parse_u64))
            (meta_map !! "processed_at" ≫= parse_u64)
            (meta_map !! "finished_at" ≫= parse_u64))))
      end
  end.

Definition count (status : JobStatus) : prog (twmq_result nat) :=
  read (fun σ => Ok (match status with
    | StPending => length (lst σ (pending_list_name name))
    | StActive => size (hash σ (active_hash_name name))
    | StDelayed => size (zset σ (delayed_zset_name name))
    | StSuccess => length (lst σ (success_list_name name))
    | StFailed => length (lst σ (failed_list_name name))
    end)).

(** The hook commands run as one transaction; the job already moved to failed. *)
Definition process_cancelled_job (job_id : string) : prog (twmq_result unit) :=
  let! job := get_job job_id in
  match job with
  | Some job =>
      let borrowed_job := mkBorrowedJob job "cancelled" in
      let! _ := exec (on_fail borrowed_job user_cancelled) in Ret (Ok tt)
  | None => Ret (Ok tt)
  end.

Definition cancel_job (job_id : string) : prog (twmq_result CancelResult) :=
  Now (fun now =>
    let! r := atomically (cancel_script name job_id now) in
    match r with
    | CancelledImmediately =>
        let* _ := process_cancelled_job job_id in Ret (Ok CancelledImmediately)
    | other => Ret (Ok other)
    end).

(** ** Completion pipelines *)

Definition release_lease (job_id lease_token : string) : pipeline :=
  [ DEL (lease_key_name name job_id lease_token); HDEL (active_hash_name name) job_id ].

Definition forget_if_active (job_id : string) : pipeline :=
  if decide (idempotency_mode options = Active) then [ SREM (dedupe_set_name name) job_id ] else [].

Definition add_success_operations (now : N) (job : BorrowedJob T) (result : Output)
    : twmq_result pipeline :=
  let id := job_id (bj_job job) in
  let? result_json := ok_or TwmqJsonError (to_json result) in
  Ok (release_lease id (bj_lease_token job) ++
      [ LPUSH (success_list_name name) id;
        HSET (job_meta_hash_name name id) "finished_at" (u64_to_string now);
        HDEL (job_meta_hash_name name id) "lease_token";
        HSET (job_result_hash_name name) id result_json ] ++ forget_if_active id).

Definition add_nack_operations (now : N) (job : BorrowedJob T) (error : ErrorData)
    (delay : option Duration) (position : RequeuePosition) : twmq_result pipeline :=
  let id := job_id (bj_job job) in
  let? error_json :=
    encode (mkJobErrorRecord error (job_attempts (bj_job job)) (JENack delay position) now) in
  Ok (release_lease id (bj_lease_token job) ++
      [ HDEL (job_meta_hash_name name id) "lease_token" ] ++
      append_record (job_errors_list_name name id) error_json ++
      match delay with
      | Some delay_duration =>
          [ HSET (job_meta_hash_name name id) "reentry_position" (position_to_string position);
            ZADD (delayed_zset_name name)
              [((now + delay_to_queue_seconds delay_duration)%N, id)] ]
      | None =>
          match position with
          | First => [ LPUSH (pending_list_name name) id ]
          | Last => [ RPUSH (pending_list_name name) id ]
          end
      end).

(** Shared by [add_fail_operations] and [complete_job_queue_error]. *)
Definition fail_operations (now : N) (id lease_token : string) (attempts : N) (error : ErrorData)
    : twmq_result pipeline :=
  let? error_json := encode (mkJobErrorRecord error attempts JEFail now) in
  Ok (release_lease id lease_token ++
      [ LPUSH (failed_list_name name) id;
        HSET (job_meta_hash_name name id) "finished_at" (u64_to_string now);
        HDEL (job_meta_hash_name name id) "lease_token" ] ++
      append_record (job_errors_list_name name id) error_json ++ forget_if_active id).

Definition add_fail_operations (now : N) (job : BorrowedJob T) (error : ErrorData)
    : twmq_result pipeline :=
  fail_operations now (job_id (bj_job job)) (bj_lease_token job) (job_attempts (bj_job job)) error.

Definition post_success_completion : prog (twmq_result unit) :=
  let! _ := atomically (trim_script name (success_list_name name) (failed_list_name name)
    (max_success options)) in Ret (Ok tt).
Definition post_nack_completion : prog (twmq_result unit) := Ret (Ok tt).
Definition post_fail_completion : prog (twmq_result unit) :=
  let! _ := atomically (trim_script name (failed_list_name name) (success_list_name name)
    (max_failed options)) in Ret (Ok tt).

(** The hook's commands and the queue's own, in one pipeline. *)
Definition completion_pipeline (now : N) (job : BorrowedJob T)
    (res : result (JobError ErrorData) Output) : twmq_result pipeline :=
  match res with
  | Ok output =>
      let? ops := add_success_operations now job output in Ok (on_success job output ++ ops)
  | Err (Nack error delay position) =>
      let? ops := add_nack_operations now job error delay position in
      Ok (on_nack job error delay position ++ ops)
  | Err (Fail error) =>
      let? ops := add_fail_operations now job error in Ok (on_fail job error ++ ops)
  end.

Definition complete_job (job : BorrowedJob T) (res : result (JobError ErrorData) Output)
    : prog (twmq_result unit) :=
  Now (fun now =>
    match completion_pipeline now job res with
    | Err e => Ret (Err e)
    | Ok p =>
        let! committed :=
          commit_if_leased (lease_key_name name (job_id (bj_job job)) (bj_lease_token job)) p in
        if (committed : bool) then
          match res with
          | Ok _ => post_success_completion
          | Err (Nack _ _ _) => post_nack_completion
          | Err (Fail _) => post_fail_completion
          end
        else Ret (Ok tt)
    end).

Definition complete_job_queue_error (job : Job (option T)) (lease_token : string)
    (error : ErrorData) : prog (twmq_result unit) :=
  Now (fun now =>
    match fail_operations now (job_id job) lease_token (job_attempts job) error with
    | Err e => Ret (Err e)
    | Ok ops =>
        let! committed := commit_if_leased (lease_key_name name (job_id job) lease_token)
          (on_queue_error job ++ ops) in
        if (committed : bool) then post_fail_completion else Ret (Ok tt)
    end).

(** ** Popping *)

(** What a poll hands out: jobs for the handler, leased jobs whose data does not
    parse (completed with a queue error by a spawned task), and cancelled ids whose
    hooks a spawned task runs. *)
Record poll := mkPoll {
  poll_jobs : list (BorrowedJob T);
  poll_undecodable : list (Job (option T) * string);
  poll_cancelled : list string
}.

Definition decode_popped (now : N) (j : popped_job) : BorrowedJob T + Job (option T) * string :=
  let attempts := default 1%N (parse_u32 (pj_attempts j)) in
  let created_at := default now (parse_u64 (pj_created_at j)) in
  match from_json (pj_data j) with
  | Some data =>
      inl (mkBorrowedJob (mkJob (pj_id j) data attempts created_at
             (Some (default now (parse_u64 (pj_processed_at j)))) None) (pj_lease_token j))
  | None =>
      inr (mkJob (pj_id j) None attempts created_at (parse_u64 (pj_processed_at j)) (Some now),
           pj_lease_token j)
  end.

Definition lefts {A B} (l : list (A + B)) : list A :=
  omap (fun x => match x with inl a => Some a | inr _ => None end) l.
Definition rights {A B} (l : list (A + B)) : list B :=
  omap (fun x => match x with inl _ => None | inr b => Some b end) l.

(** [pop_id] is the fresh nanoid of the call. *)
Definition pop_batch_jobs (pop_id : string) (batch_size : nat) : prog (twmq_result poll) :=
  Now (fun now =>
    let! (job_results, cancelled_jobs, timed_out_jobs) :=
      atomically (pop_script name now pop_id batch_size (as_secs (lease_duration options))) in
    let decoded := map (decode_popped now) job_results in
    Ret (Ok (mkPoll (lefts decoded) (rights decoded) cancelled_jobs))).

Definition remove_from_dedupe_set (job_id : string) : prog (twmq_result unit) :=
  atomically (fun σ => (forget_id name job_id σ, tt)).
Definition empty_dedupe_set : prog (twmq_result unit) :=
  atomically (fun σ => (forget_all name σ, tt)).
End Queue.
