(* ===== verification/QueueInv.v ===== *)
(** The queue invariant: a job is in at most one of pending, delayed and active, at
    most once, always remembered for deduplication, and a lease key that exists is
    the current lease of an active job.  Every script and every committed
    completion keeps it.  First the keys of one queue, which are pairwise distinct, and how
    commands act on the views of a queue. *)

From Stdlib Require Import String Ascii NArith Lia.
From stdpp Require Import base gmap strings list fin_maps.
From S2P Require Import Prelude Redis RedisProg Json QueueTypes Queue.

Inductive queue_key :=
| QPending | QActive | QDelayed | QSuccess | QFailed | QData | QResult | QDedupe | QCancel
| QMeta (id : string) | QErrors (id : string) | QLease (id token : string).

Definition queue_key_name (name : string) (k : queue_key) : string :=
  match k with
  | QPending => pending_list_name name
  | QActive => active_hash_name name
  | QDelayed => delayed_zset_name name
  | QSuccess => success_list_name name
  | QFailed => failed_list_name name
  | QData => job_data_hash_name name
  | QResult => job_result_hash_name name
  | QDedupe => dedupe_set_name name
  | QCancel => pending_cancellation_set_name name
  | QMeta id => job_meta_hash_name name id
  | QErrors id => job_errors_list_name name id
  | QLease id token => lease_key_name name id token
  end.

(** Keys shared by all jobs, as opposed to the keys of one job. *)
Definition is_shared (k : queue_key) : bool :=
  match k with QMeta _ | QErrors _ | QLease _ _ => false | _ => true end.
Definition key_job_ok (k : queue_key) : Prop :=
  match k with QMeta id | QErrors id | QLease id _ => no_colon id | _ => True end.

Definition queue_key_body (k : queue_key) : string :=
  match k with
  | QPending => ":pending" | QActive => ":active" | QDelayed => ":delayed"
  | QSuccess => ":success" | QFailed => ":failed" | QData => ":jobs:data"
  | QResult => ":jobs:result" | QDedupe => ":dedup" | QCancel => ":pending_cancellations"
  | QMeta id => ":job:" +:+ id +:+ ":meta"
  | QErrors id => ":job:" +:+ id +:+ ":errors"
  | QLease id token => ":job:" +:+ id +:+ ":lease:" +:+ token
  end.

Lemma queue_key_name_body name k :
  queue_key_name name k = "twmq:" +:+ name +:+ queue_key_body k.
Proof. by destruct k. Qed.

Lemma queue_key_body_inj name k1 k2 :
  queue_key_name name k1 = queue_key_name name k2 -> queue_key_body k1 = queue_key_body k2.
Proof.
  rewrite !queue_key_name_body. intros H%string_app_inj_l. by apply string_app_inj_l in H.
Qed.

(** A shared key never coincides with any other key. *)
Lemma shared_key_ne name k1 k2 :
  is_shared k1 = true -> k1 <> k2 -> queue_key_name name k1 <> queue_key_name name k2.
Proof.
  intros Hs Hne H%queue_key_body_inj. destruct k1, k2; cbn in *; try done.
Qed.

(** With colon-free job ids all keys are distinct. *)
Lemma queue_key_name_inj name k1 k2 :
  key_job_ok k1 -> key_job_ok k2 -> queue_key_name name k1 = queue_key_name name k2 -> k1 = k2.
Proof.
  intros H1 H2 Heq. destruct (is_shared k1) eqn:S1.
  { destruct (decide (queue_key_body k1 = queue_key_body k2)) as [Hb|Hb];
      [|by apply queue_key_body_inj in Heq]. destruct k1, k2; cbn in Hb; done. }
  destruct (is_shared k2) eqn:S2.
  { apply queue_key_body_inj in Heq. destruct k1, k2; cbn in Heq; done. }
  apply queue_key_body_inj in Heq. destruct k1, k2; try done; cbn in Heq.
  all: apply (string_app_inj_l ":job:") in Heq.
  all: apply (split_first_colon _ _ _ _ H1 H2) in Heq as [-> Heq]; (done || by simplify_eq).
Qed.

Ltac qkey_of e :=
  lazymatch e with
  | pending_list_name _ => constr:(QPending)
  | active_hash_name _ => constr:(QActive)
  | delayed_zset_name _ => constr:(QDelayed)
  | success_list_name _ => constr:(QSuccess)
  | failed_list_name _ => constr:(QFailed)
  | job_data_hash_name _ => constr:(QData)
  | job_result_hash_name _ => constr:(QResult)
  | dedupe_set_name _ => constr:(QDedupe)
  | pending_cancellation_set_name _ => constr:(QCancel)
  | job_meta_hash_name _ ?id => constr:(QMeta id)
  | job_errors_list_name _ ?id => constr:(QErrors id)
  | lease_key_name _ ?id ?t => constr:(QLease id t)
  end.

(** Different keys: by a shared key, or by colon-free ids in the context. *)
Ltac qkeys_ne :=
  lazymatch goal with
  | |- ?a = ?b -> False => change (a <> b); qkeys_ne
  | |- ?a <> ?b =>
      let ka := qkey_of a in let kb := qkey_of b in
      first
        [ apply (shared_key_ne _ ka kb); [reflexivity|congruence]
        | apply not_eq_sym; apply (shared_key_ne _ kb ka); [reflexivity|congruence]
        | intros Heq%(queue_key_name_inj _ ka kb); [congruence|assumption|assumption] ]
  end.

Ltac qview_simp :=
  repeat first
    [ rewrite str_wrun | rewrite hash_wrun | rewrite zset_wrun | rewrite lst_wrun | rewrite sett_wrun ];
  repeat match goal with
  | |- context [decide (?a = ?a)] => rewrite (decide_True (P := (a = a))) by reflexivity
  | |- context [decide (?a = ?b)] => rewrite (decide_False (P := (a = b))) by qkeys_ne
  end.

(** ** The places a job can be *)

Record places := mkPlaces {
  pl_pending : list string;
  pl_delayed : gmap string N;
  pl_active : gmap string string;
  pl_dedupe : gset string;
  pl_cancel : gset string;
  pl_success : list string;
  pl_failed : list string
}.

Definition places_of (name : string) (σ : redis) : places :=
  mkPlaces (lst σ (pending_list_name name)) (zset σ (delayed_zset_name name))
    (hash σ (active_hash_name name)) (sett σ (dedupe_set_name name))
    (sett σ (pending_cancellation_set_name name))
    (lst σ (success_list_name name)) (lst σ (failed_list_name name)).

Definition live (v : places) (id : string) : Prop :=
  id ∈ pl_pending v \/ is_Some (pl_delayed v !! id) \/ is_Some (pl_active v !! id).

(** Ids an operator took out of the dedupe set while their job was queued; none, unless
    that set is edited ([empty_dedupe_set], [remove_from_dedupe_set]). *)
Class Forgotten := forgotten : gset string.

Record places_ok {Fg : Forgotten} (v : places) : Prop := {
  po_once : NoDup (pl_pending v);
  po_pending_delayed : ∀ id, id ∈ pl_pending v -> pl_delayed v !! id = None;
  po_pending_active : ∀ id, id ∈ pl_pending v -> pl_active v !! id = None;
  po_delayed_active : ∀ id, is_Some (pl_delayed v !! id) -> pl_active v !! id = None;
  po_dedupe : ∀ id, live v id -> id ∈ forgotten ∪ pl_dedupe v;
  po_plain : ∀ id, id ∈ forgotten ∪ pl_dedupe v \/ id ∈ pl_cancel v \/ id ∈ pl_success v \/ id ∈ pl_failed v ->
    no_colon id
}.

Definition current_token (name : string) (σ : redis) (id : string) : option string :=
  hash σ (job_meta_hash_name name id) !! "lease_token".

Definition leases_ok (name : string) (σ : redis) : Prop :=
  ∀ id token, no_colon id -> exists_key σ (lease_key_name name id token) = true ->
    is_Some (hash σ (active_hash_name name) !! id) /\ current_token name σ id = Some token.

Definition queue_ok {Fg : Forgotten} (name : string) (σ : redis) : Prop :=
  places_ok (places_of name σ) /\ leases_ok name σ.

(** ** Moves between places *)

Section Moves.
Context {Fg : Forgotten} (v : places) (Hv : places_ok v) (id : string).

Local Ltac solve_place :=
  destruct Hv as [H1 H2 H3 H4 H5 H6]; split; cbn; unfold live in *; cbn in *.

Lemma active_to_pending p' :
  is_Some (pl_active v !! id) -> p' = id :: pl_pending v \/ p' = pl_pending v ++ [id] ->
  places_ok (mkPlaces p' (pl_delayed v) (delete id (pl_active v)) (pl_dedupe v) (pl_cancel v)
               (pl_success v) (pl_failed v)).
Proof.
  intros Ha Hp. assert (id ∉ pl_pending v) as Hnp.
  { intros Hin. apply (po_pending_active _ Hv) in Hin. by rewrite Hin in Ha; destruct Ha. }
  assert (∀ x, x ∈ p' <-> x = id \/ x ∈ pl_pending v) as Hx by (destruct Hp as [->| ->]; set_solver).
  assert (pl_delayed v !! id = None) as Hd.
  { destruct (pl_delayed v !! id) eqn:E; [|done].
    rewrite (po_delayed_active _ Hv id) in Ha by (by rewrite E). by destruct Ha. }
  solve_place.
  - destruct Hp as [->| ->]; [by constructor|]. apply NoDup_app. split_and!; [done|set_solver|].
    apply NoDup_singleton.
  - intros x [->|Hin]%Hx; auto.
  - intros x [->|Hin]%Hx; [by rewrite lookup_delete_eq|]. rewrite lookup_delete. case_decide; auto.
  - intros x Hx'. rewrite lookup_delete. case_decide; auto.
  - intros x [[->|Hin]%Hx|[Hin|Hin]]; [apply H5; auto|apply H5; auto|apply H5; auto|].
    rewrite lookup_delete in Hin. case_decide; [by destruct Hin|]. apply H5; auto.
  - done.
Qed.

Lemma active_to_delayed s :
  is_Some (pl_active v !! id) ->
  places_ok (mkPlaces (pl_pending v) (<[id := s]> (pl_delayed v)) (delete id (pl_active v))
               (pl_dedupe v) (pl_cancel v) (pl_success v) (pl_failed v)).
Proof.
  intros Ha. assert (id ∉ pl_pending v) as Hnp.
  { intros Hin. apply (po_pending_active _ Hv) in Hin. by rewrite Hin in Ha; destruct Ha. }
  solve_place.
  - done.
  - intros x Hin. rewrite lookup_insert_ne by (by intros ->). auto.
  - intros x Hin. rewrite lookup_delete. case_decide; auto.
  - intros x Hx. rewrite lookup_delete. case_decide; [done|].
    rewrite lookup_insert_ne in Hx by done. auto.
  - intros x [Hin|[Hin|Hin]]; [apply H5; auto| |].
    + rewrite lookup_insert in Hin. case_decide; [subst; apply H5; auto|apply H5; auto].
    + rewrite lookup_delete in Hin. case_decide; [by destruct Hin|]. apply H5; auto.
  - done.
Qed.

(** A finished job: not live any more; its dedupe entry may go. *)
Lemma active_to_done d' s' f' :
  is_Some (pl_active v !! id) -> d' = pl_dedupe v \/ d' = pl_dedupe v ∖ {[id]} ->
  (∀ x, x ∈ s' \/ x ∈ f' -> x = id \/ x ∈ pl_success v \/ x ∈ pl_failed v) ->
  places_ok (mkPlaces (pl_pending v) (pl_delayed v) (delete id (pl_active v)) d' (pl_cancel v) s' f').
Proof.
  intros Ha Hd Hsf.
  assert (∀ x, live v x -> x = id -> is_Some (pl_active v !! x)) as Hact by (by intros x _ ->).
  assert (id ∉ pl_pending v /\ pl_delayed v !! id = None) as [Hnp Hnd].
  { split.
    - intros Hin. apply (po_pending_active _ Hv) in Hin. by rewrite Hin in Ha; destruct Ha.
    - destruct (pl_delayed v !! id) eqn:E; [|done].
      rewrite (po_delayed_active _ Hv id) in Ha by (by rewrite E). by destruct Ha. }
  solve_place.
  - done.
  - auto.
  - intros x Hin. rewrite lookup_delete. case_decide; auto.
  - intros x Hx. rewrite lookup_delete. case_decide; auto.
  - intros x Hx. assert (x <> id /\ x ∈ forgotten ∪ pl_dedupe v) as [Hne Hin].
    { destruct Hx as [Hin|[Hin|Hin]].
      - split; [by intros ->|apply H5; auto].
      - split; [intros ->; rewrite Hnd in Hin; by destruct Hin|apply H5; auto].
      - rewrite lookup_delete in Hin. case_decide; [by destruct Hin|]. split; [done|apply H5; auto]. }
    destruct Hd as [->| ->]; set_solver.
  - intros x [Hx|[Hx|Hx]].
    + apply H6. left. destruct Hd as [->| ->]; set_solver.
    + apply H6. auto.
    + destruct (Hsf x) as [->|[?|?]]; [naive_solver|apply H6; left; apply H5; auto|apply H6; auto|apply H6; auto].
Qed.

(** Taking a job out of pending and delayed, into failed or nowhere. *)
Lemma drop_waiting p' dl' c' f' :
  (∀ x, x ∈ p' -> x ∈ pl_pending v) -> NoDup p' -> dl' ⊆ pl_delayed v -> c' ⊆ pl_cancel v ->
  (∀ x, x ∈ f' -> x ∈ pl_failed v \/ no_colon x) ->
  places_ok (mkPlaces p' dl' (pl_active v) (pl_dedupe v) c' (pl_success v) f').
Proof.
  intros Hp Hn Hd Hc Hf.
  assert (∀ x, is_Some (dl' !! x) -> is_Some (pl_delayed v !! x)) as Hd'.
  { intros x [s Hs]. exists s. by eapply lookup_weaken. }
  solve_place.
  - done.
  - intros x Hx. destruct (dl' !! x) eqn:E; [|done].
    destruct (Hd' x) as [s Hs]; [by rewrite E|]. rewrite H2 in Hs; [done|auto].
  - auto.
  - auto.
  - intros x [?|[?|?]]; apply H5; auto.
  - intros x [?|[?|[?|Hx]]]; [apply H6; auto|apply H6; set_solver|apply H6; auto|].
    destruct (Hf x Hx); [apply H6; auto|done].
Qed.

(** A delayed job becomes pending. *)
Lemma delayed_to_pending p' :
  is_Some (pl_delayed v !! id) -> p' = id :: pl_pending v \/ p' = pl_pending v ++ [id] ->
  places_ok (mkPlaces p' (delete id (pl_delayed v)) (pl_active v) (pl_dedupe v) (pl_cancel v)
               (pl_success v) (pl_failed v)).
Proof.
  intros Hd Hp. assert (id ∉ pl_pending v) as Hnp.
  { intros Hin. apply (po_pending_delayed _ Hv) in Hin. by rewrite Hin in Hd; destruct Hd. }
  assert (∀ x, x ∈ p' <-> x = id \/ x ∈ pl_pending v) as Hx by (destruct Hp as [->| ->]; set_solver).
  solve_place.
  - destruct Hp as [->| ->]; [by constructor|]. apply NoDup_app. split_and!; [done|set_solver|].
    apply NoDup_singleton.
  - intros x [->|Hin]%Hx; [by rewrite lookup_delete_eq|]. rewrite lookup_delete. case_decide; auto.
  - intros x [->|Hin]%Hx; auto.
  - intros x Hx'. rewrite lookup_delete in Hx'. case_decide; [by destruct Hx'|auto].
  - intros x [[->|Hin]%Hx|[Hin|Hin]]; [apply H5; auto|apply H5; auto| |apply H5; auto].
    rewrite lookup_delete in Hin. case_decide; [by destruct Hin|]. apply H5; auto.
  - done.
Qed.

(** A fresh job is queued. *)
Lemma enqueue p' dl' :
  no_colon id -> ¬ live v id ->
  (p' = pl_pending v ++ [id] /\ dl' = pl_delayed v) \/
  (p' = pl_pending v /\ ∃ s, dl' = <[id := s]> (pl_delayed v)) ->
  places_ok (mkPlaces p' dl' (pl_active v) ({[id]} ∪ pl_dedupe v) (pl_cancel v)
               (pl_success v) (pl_failed v)).
Proof.
  intros Hc Hl Hp. assert (id ∉ pl_pending v /\ pl_delayed v !! id = None /\ pl_active v !! id = None)
    as (Hnp & Hnd & Hna).
  { unfold live in Hl. rewrite !eq_None_not_Some. naive_solver. }
  assert (∀ x, x ∈ p' -> x = id /\ dl' !! x = None \/ x ∈ pl_pending v /\ x <> id) as Hp1.
  { intros x Hx. destruct Hp as [[-> ->]|[-> _]]; [|right; split; [done|by intros ->]].
    apply elem_of_app in Hx as [Hx|Hx]; [right; split; [done|by intros ->]|left; set_solver]. }
  assert (∀ x, is_Some (dl' !! x) -> x = id /\ x ∉ p' \/ is_Some (pl_delayed v !! x) /\ x <> id) as Hd1.
  { intros x Hx. destruct Hp as [[-> ->]|[-> [s ->]]].
    - right. split; [done|]. intros ->. rewrite Hnd in Hx. by destruct Hx.
    - rewrite lookup_insert in Hx. case_decide; [left; by subst|right; done]. }
  solve_place.
  - destruct Hp as [[-> _]|[-> _]]; [|done]. apply NoDup_app. split_and!; [done|set_solver|].
    apply NoDup_singleton.
  - intros x Hx. destruct (Hp1 x Hx) as [[-> ?]|[Hin Hne]]; [done|].
    destruct (dl' !! x) eqn:E; [|done]. destruct (Hd1 x) as [[-> _]|[Hd _]]; [by rewrite E|done|].
    rewrite (H2 x Hin) in Hd. by destruct Hd.
  - intros x Hx. destruct (Hp1 x Hx) as [[-> _]|[? _]]; auto.
  - intros x Hx. destruct (Hd1 x Hx) as [[-> _]|[? _]]; auto.
  - intros x [Hx|[Hx|Hx]].
    + destruct (Hp1 x Hx) as [[-> _]|[Hin _]]; [set_solver|]. specialize (H5 x (or_introl Hin)). set_solver.
    + destruct (Hd1 x Hx) as [[-> _]|[Hin _]]; [set_solver|]. specialize (H5 x (or_intror (or_introl Hin))). set_solver.
    + specialize (H5 x (or_intror (or_intror Hx))). set_solver.
  - intros x [Hx|Hx]; [|by apply H6; right]. destruct (decide (x = id)) as [->|Hne]; [done|].
    apply H6. left. set_solver.
Qed.
End Moves.


(** ** Lease keys *)

Definition lease_live (name : string) (σ : redis) (id token : string) : Prop :=
  exists_key σ (lease_key_name name id token) = true.

(** Nothing changes for jobs other than those of [gone], which have no lease left. *)
Lemma leases_ok_step name (gone : string -> Prop) σ σ' :
  leases_ok name σ ->
  (∀ id t, no_colon id -> lease_live name σ' id t -> lease_live name σ id t /\ ¬ gone id) ->
  (∀ id t, no_colon id -> ¬ gone id -> lease_live name σ id t ->
    hash σ' (active_hash_name name) !! id = hash σ (active_hash_name name) !! id /\
    current_token name σ' id = current_token name σ id) ->
  leases_ok name σ'.
Proof.
  intros Hl Hlive Hsame id t Hc He. destruct (Hlive id t Hc He) as [He' Hg].
  destruct (Hsame id t Hc Hg He') as [-> ->]. by apply Hl.
Qed.

(** Commands that leave every lease key, every lease token and the active hash alone. *)
Definition lease_neutral (name : string) (c : wcmd) : Prop :=
  (∀ id t, no_colon id -> wkey c <> lease_key_name name id t) /\
  (∀ id, leaves_field (active_hash_name name) id c) /\
  (∀ id, no_colon id -> leaves_field (job_meta_hash_name name id) "lease_token" c).

Lemma lease_neutral_views name p σ :
  Forall (lease_neutral name) p ->
  (∀ id t, no_colon id -> same_at (lease_key_name name id t) σ (prun p σ)) /\
  hash (prun p σ) (active_hash_name name) = hash σ (active_hash_name name) /\
  (∀ id, no_colon id -> current_token name (prun p σ) id = current_token name σ id).
Proof.
  intros Hp. split_and!.
  - intros id t Hc. apply prun_same. eapply Forall_impl; [done|]. intros c (H & _). auto.
  - apply map_eq. intros id. apply hash_prun_leaves. eapply Forall_impl; [done|]. intros c (_ & H & _). auto.
  - intros id Hc. apply hash_prun_leaves. eapply Forall_impl; [done|]. intros c (_ & _ & H). auto.
Qed.

Lemma leases_ok_neutral name p σ :
  Forall (lease_neutral name) p -> leases_ok name σ -> leases_ok name (prun p σ).
Proof.
  intros Hp Hl. destruct (lease_neutral_views name p σ Hp) as (H1 & H2 & H3).
  apply (leases_ok_step name (fun _ => False) σ); [done| |].
  - intros id t Hc He. split; [|tauto]. unfold lease_live in *.
    by rewrite (exists_key_same _ _ _ (H1 id t Hc)).
  - intros id t Hc _ _. split; [by rewrite H2|by apply H3].
Qed.

Ltac neutral_tac :=
  match goal with
  | |- lease_neutral _ _ =>
      split; [intros ??? |split; [intros ?|intros ??]]; cbn [wkey leaves_field];
      first [qkeys_ne | done | left; qkeys_ne | right; done]
  end.

Ltac neutral_list := repeat (apply Forall_cons; split; [neutral_tac|]); apply Forall_nil; exact I.

Ltac places_tac :=
  unfold places_of; cbn [prun foldl app fst]; qview_simp; try done.
Lemma push_places name id data now delay pos σ :
  id ∉ sett σ (dedupe_set_name name) ->
  let v := places_of name σ in
  places_of name (push_script name id data now delay pos σ).1 =
    mkPlaces (if (0 <? delay)%N then pl_pending v else pl_pending v ++ [id])
      (if (0 <? delay)%N then <[id := (now + delay)%N]> (pl_delayed v) else pl_delayed v)
      (pl_active v) ({[id]} ∪ pl_dedupe v) (pl_cancel v) (pl_success v) (pl_failed v).
Proof.
  intros Hd. unfold push_script. rewrite bool_decide_eq_false_2 by done.
  destruct (0 <? delay)%N; places_tac.
Qed.

Lemma push_script_ok {Fg : Forgotten} name id data now delay pos σ :
  no_colon id -> (live (places_of name σ) id -> id ∈ sett σ (dedupe_set_name name)) ->
  queue_ok name σ -> queue_ok name (push_script name id data now delay pos σ).1.
Proof.
  intros Hc Hkept [Hp Hl]. destruct (decide (id ∈ sett σ (dedupe_set_name name))) as [Hd|Hd].
  { unfold push_script. by rewrite bool_decide_eq_true_2. }
  split.
  - rewrite push_places by done. apply enqueue; [done|done| |].
    + intros Hlive. by apply Hd, Hkept.
    + destruct (0 <? delay)%N; [right|left]; naive_solver.
  - unfold push_script. rewrite bool_decide_eq_false_2 by done. apply leases_ok_neutral; [|done].
    destruct (0 <? delay)%N; cbn [app]; neutral_list.
Qed.

(** ** Cancel *)

Lemma cancel_script_ok {Fg : Forgotten} name id now σ :
  queue_ok name σ -> queue_ok name (cancel_script name id now σ).1.
Proof.
  intros [Hp Hl]. unfold cancel_script, has_id.
  assert (live (places_of name σ) id -> no_colon id) as Hnc.
  { intros H. apply (po_plain _ Hp). left. by apply (po_dedupe _ Hp). }
  repeat case_bool_decide; cbn [fst]; [| | |done].
  - assert (no_colon id) by (apply Hnc; left; done). split.
    + replace (places_of name _) with (mkPlaces (filter (fun x => x <> id) (pl_pending (places_of name σ)))
        (pl_delayed (places_of name σ)) (pl_active (places_of name σ)) (pl_dedupe (places_of name σ))
        (pl_cancel (places_of name σ)) (pl_success (places_of name σ))
        (id :: pl_failed (places_of name σ))) by (by places_tac).
      apply drop_waiting; [done|by intros x [_ ?]%list_elem_of_filter|by apply NoDup_filter, (po_once _ Hp)|done|done|intros x [->|?]%elem_of_cons; auto].
    + apply leases_ok_neutral; [|done]. neutral_list.
  - assert (no_colon id) by (apply Hnc; right; left; done). split.
    + replace (places_of name _) with (mkPlaces (pl_pending (places_of name σ))
        (delete id (pl_delayed (places_of name σ))) (pl_active (places_of name σ))
        (pl_dedupe (places_of name σ)) (pl_cancel (places_of name σ)) (pl_success (places_of name σ))
        (id :: pl_failed (places_of name σ))) by (by places_tac).
      apply drop_waiting; [done|done|apply (po_once _ Hp)|apply delete_subseteq|done|intros x [->|?]%elem_of_cons; auto].
    + apply leases_ok_neutral; [|done]. neutral_list.
  - assert (no_colon id) by (apply Hnc; right; right; done). split.
    + replace (places_of name _) with (mkPlaces (pl_pending (places_of name σ))
        (pl_delayed (places_of name σ)) (pl_active (places_of name σ)) (pl_dedupe (places_of name σ))
        ({[id]} ∪ pl_cancel (places_of name σ)) (pl_success (places_of name σ))
        (pl_failed (places_of name σ))) by (by places_tac).
      destruct Hp as [P1 P2 P3 P4 P5 P6]. split; cbn in *; [done..|].
      intros x [?|[[->%elem_of_singleton|?]%elem_of_union|?]]; [apply P6; auto|done|apply P6; auto..].
    + change (wrun ?c σ) with (prun [c] σ). apply leases_ok_neutral; [|done]. neutral_list.
Qed.

(** ** Pop, step 1 *)

Lemma hincr_places name id f σ :
  places_of name (hincr (job_meta_hash_name name id) f σ).1 = places_of name σ.
Proof. unfold hincr. places_tac. Qed.

Lemma reclaim_places name id σ :
  let v := places_of name σ in
  places_of name (reclaim name id σ) =
    mkPlaces (id :: pl_pending v) (pl_delayed v) (delete id (pl_active v)) (pl_dedupe v)
      (pl_cancel v) (pl_success v) (pl_failed v).
Proof.
  unfold reclaim, hincr. case_bool_decide; places_tac.
Qed.

Lemma reclaim_leases name id σ :
  no_colon id ->
  (∀ id' t, no_colon id' -> same_at (lease_key_name name id' t) σ (reclaim name id σ)) /\
  (∀ id', no_colon id' -> id' <> id -> current_token name (reclaim name id σ) id' = current_token name σ id').
Proof.
  intros Hc. unfold reclaim, hincr. cbn [fst].
  lazymatch goal with |- context [prun ?q (wrun ?c σ)] =>
    set (p := q); change (prun p (wrun c σ)) with (prun (c :: p) σ) end. split.
  - intros id' t Hc'. apply prun_same. subst p. case_bool_decide; cbn [app];
      repeat (apply Forall_cons; split; [cbn [wkey]; qkeys_ne|]); apply Forall_nil; exact I.
  - intros id' Hc' Hne. apply hash_prun_leaves. subst p. case_bool_decide; cbn [app];
      repeat (apply Forall_cons; split;
        [cbn [leaves_field]; first [done|left; qkeys_ne]|]); apply Forall_nil; exact I.
Qed.

Lemma live_plain {Fg : Forgotten} name σ id : places_ok (places_of name σ) -> live (places_of name σ) id -> no_colon id.
Proof. intros Hp Hl. apply (po_plain _ Hp). left. by apply (po_dedupe _ Hp). Qed.

Lemma reclaim_ok {Fg : Forgotten} name id σ :
  queue_ok name σ -> is_Some (hash σ (active_hash_name name) !! id) -> lease_alive name σ id = false ->
  queue_ok name (reclaim name id σ).
Proof.
  intros [Hp Hl] Ha Hdead.
  assert (no_colon id) as Hc by (apply (live_plain name σ); [done|right; right; done]).
  destruct (reclaim_leases name id σ Hc) as [H1 H2]. split.
  - rewrite reclaim_places. apply active_to_pending; [done|done|by left].
  - apply (leases_ok_step name (fun x => x = id) σ); [done| |].
    + intros id' t Hc' He. unfold lease_live in *. rewrite <- (exists_key_same _ _ _ (H1 id' t Hc')) in He.
      split; [done|]. intros ->. destruct (Hl id t Hc He) as [_ Ht].
      unfold current_token in Ht. unfold lease_alive in Hdead. by rewrite Ht, He in Hdead.
    + intros id' t Hc' Hne He. split; [|by apply H2].
      change (hash (reclaim name id σ) (active_hash_name name)) with (pl_active (places_of name (reclaim name id σ))).
      rewrite reclaim_places. cbn [pl_active]. by rewrite lookup_delete_ne.
Qed.

Lemma expire_leases_ok {Fg : Forgotten} name ids σ :
  queue_ok name σ -> NoDup ids ->
  (∀ id, id ∈ ids -> is_Some (hash σ (active_hash_name name) !! id)) ->
  queue_ok name (expire_leases name ids σ).1.
Proof.
  revert σ. induction ids as [|id ids IH]; intros σ Hq Hn Hin; cbn [expire_leases]; [done|].
  apply NoDup_cons in Hn as [Hni Hn]. destruct (lease_alive name σ id) eqn:Ha.
  - apply IH; [done|done|set_solver].
  - destruct (expire_leases name ids (reclaim name id σ)) as [σ' ts] eqn:E. cbn [fst].
    change σ' with (σ', ts).1. rewrite <- E. apply IH; [|done|].
    + apply reclaim_ok; [done| |done]. apply Hin. set_solver.
    + intros x Hx. change (is_Some (pl_active (places_of name (reclaim name id σ)) !! x)).
      rewrite reclaim_places. cbn [pl_active]. rewrite lookup_delete_ne by set_solver. apply Hin. set_solver.
Qed.

(** ** Pop, step 2 *)

Lemma cancel_one_ok {Fg : Forgotten} name now id σ :
  queue_ok name σ -> no_colon id -> queue_ok name (cancel_one name now id σ).1.
Proof.
  intros [Hp Hl] Hc. unfold cancel_one. set (v := places_of name σ) in *.
  case_match; cbn [fst]; split.
  - replace (places_of name _) with (mkPlaces (pl_pending v) (pl_delayed v) (pl_active v)
      (pl_dedupe v) (pl_cancel v ∖ {[id]}) (pl_success v) (pl_failed v)) by (by places_tac).
    apply drop_waiting; [done|done|apply (po_once _ Hp)|done|set_solver|auto].
  - change (wrun ?c σ) with (prun [c] σ). apply leases_ok_neutral; [|done]. neutral_list.
  - replace (places_of name _) with (mkPlaces (filter (fun x => x <> id) (pl_pending v))
      (delete id (pl_delayed v)) (pl_active v) (pl_dedupe v) (pl_cancel v ∖ {[id]}) (pl_success v)
      (id :: filter (fun x => x <> id) (pl_failed v))) by (by places_tac).
    apply drop_waiting; [done|by intros x [_ ?]%list_elem_of_filter|by apply NoDup_filter, (po_once _ Hp)|
      apply delete_subseteq|set_solver|].
    intros x [->|[_ ?]%list_elem_of_filter]%elem_of_cons; auto.
  - apply leases_ok_neutral; [|done]. neutral_list.
Qed.

Lemma process_cancellations_ok {Fg : Forgotten} name now ids σ :
  queue_ok name σ -> Forall no_colon ids -> queue_ok name (process_cancellations name now ids σ).1.
Proof.
  intros Hq Hids. revert σ Hq. induction Hids as [|id ids Hc _ IH]; intros σ Hq;
    cbn [process_cancellations]; [done|].
  case_bool_decide; [by apply IH|].
  pose proof (cancel_one_ok name now id σ Hq Hc) as H1.
  destruct (cancel_one name now id σ) as [σ1 b]. specialize (IH σ1 H1).
  by destruct (process_cancellations name now ids σ1) as [σ2 more].
Qed.

(** ** Pop, step 3 *)

Lemma release_delayed_places name id σ :
  let v := places_of name σ in
  places_of name (release_delayed name id σ) =
    mkPlaces (if decide (default "last" (hash σ (job_meta_hash_name name id) !! "reentry_position") = "first")
              then id :: pl_pending v else pl_pending v ++ [id])
      (delete id (pl_delayed v)) (pl_active v) (pl_dedupe v) (pl_cancel v) (pl_success v) (pl_failed v).
Proof. unfold release_delayed. destruct (decide (_ = "first")); places_tac. Qed.

Lemma release_delayed_ok {Fg : Forgotten} name id σ :
  queue_ok name σ -> is_Some (zset σ (delayed_zset_name name) !! id) ->
  queue_ok name (release_delayed name id σ).
Proof.
  intros [Hp Hl] Hd.
  assert (no_colon id) as Hc by (apply (live_plain name σ); [done|right; left; done]). split.
  - rewrite release_delayed_places. apply delayed_to_pending; [done|done|].
    destruct (decide (_ = "first")); auto.
  - apply leases_ok_neutral; [|done]. destruct (decide (_ = "first")); neutral_list.
Qed.

Lemma release_all_ok {Fg : Forgotten} name ids σ :
  queue_ok name σ -> NoDup ids -> (∀ id, id ∈ ids -> is_Some (zset σ (delayed_zset_name name) !! id)) ->
  queue_ok name (foldl (fun σ id => release_delayed name id σ) σ ids).
Proof.
  revert σ. induction ids as [|id ids IH]; intros σ Hq Hn Hin; cbn [foldl]; [done|].
  apply NoDup_cons in Hn as [Hni Hn]. apply IH; [|done|].
  - apply release_delayed_ok; [done|]. apply Hin. set_solver.
  - intros x Hx. change (is_Some (pl_delayed (places_of name (release_delayed name id σ)) !! x)).
    rewrite release_delayed_places. cbn [pl_delayed]. rewrite lookup_delete_ne by set_solver.
    apply Hin. set_solver.
Qed.

Lemma delayed_due_spec name now σ :
  NoDup (delayed_due name now σ) /\
  (∀ id, id ∈ delayed_due name now σ <->
     ∃ s, zset σ (delayed_zset_name name) !! id = Some s /\ (s <= now)%N).
Proof.
  unfold delayed_due, zrangebyscore. split.
  - apply (sublist_NoDup _ (zrange (zset σ (delayed_zset_name name))).*1); [apply zrange_NoDup_fst|].
    apply fmap_sublist, sublist_filter.
  - intros id. rewrite list_elem_of_fmap. split.
    + intros ([m s] & -> & Hin). apply list_elem_of_filter in Hin as [Hs Hin].
      apply elem_of_zrange in Hin. exists s. split; [done|lia].
    + intros (s & Hs & Hle). exists (id, s). split; [done|]. apply list_elem_of_filter.
      split; [lia|]. by apply elem_of_zrange.
Qed.

(** ** Pop, step 4 *)

Lemma pop_ids_spec name n σ :
  let '(σ', ids) := pop_ids name n σ in
  ids = take n (lst σ (pending_list_name name)) /\
  lst σ' (pending_list_name name) = drop n (lst σ (pending_list_name name)) /\
  (∀ k, k <> pending_list_name name -> same_at k σ σ').
Proof.
  revert σ. induction n as [|n IH]; intros σ; cbn [pop_ids]; [done|].
  destruct (lst σ (pending_list_name name)) as [|id l] eqn:E; [done|].
  specialize (IH (wrun (LPOP (pending_list_name name)) σ)).
  destruct (pop_ids name n (wrun (LPOP (pending_list_name name)) σ)) as [σ' ids].
  destruct IH as (-> & Hl & Hs). rewrite lst_wrun, decide_True, E in Hl |- * by done. cbn [tail] in *.
  split_and!; [done|done|]. intros k Hk. etrans; [by apply (wrun_frame (LPOP (pending_list_name name)))|by apply Hs].
Qed.

(** A popped job: out of every place, still remembered, with no lease. *)
Definition popped {Fg : Forgotten} (name : string) (σ : redis) (id : string) : Prop :=
  id ∈ forgotten ∪ sett σ (dedupe_set_name name) /\ ¬ live (places_of name σ) id.

Lemma enter_active {Fg : Forgotten} v id n :
  places_ok v -> id ∈ forgotten ∪ pl_dedupe v -> ¬ live v id ->
  places_ok (mkPlaces (pl_pending v) (pl_delayed v) (<[id := n]> (pl_active v)) (pl_dedupe v)
               (pl_cancel v) (pl_success v) (pl_failed v)).
Proof.
  intros [P1 P2 P3 P4 P5 P6] Hd Hl. unfold live in *.
  split; cbn in *; unfold live in *; cbn in *; [done|done| | | |done].
  - intros x Hx. rewrite lookup_insert_ne; [auto|]. intros ->. apply Hl. auto.
  - intros x Hx. rewrite lookup_insert_ne; [auto|]. intros ->. apply Hl. auto.
  - intros x [?|[?|Hx]]; [apply P5; auto..|]. rewrite lookup_insert in Hx.
    case_decide; [by subst|apply P5; auto].
Qed.

(** The commands of one lease, as one pipeline. *)
Definition lease_pipeline (name : string) (now : N) (pop_id : string) (lease_seconds : N)
    (id : string) (attempts : N) : pipeline :=
  let meta := job_meta_hash_name name id in
  let token := lease_token_of now id attempts pop_id in
  [ HSET meta "processed_at" (u64_to_string now);
    HSET meta "attempts" (u64_to_string attempts);
    SET (lease_key_name name id token) "1";
    EXPIRE (lease_key_name name id token) lease_seconds;
    HSET meta "lease_token" token;
    HSET (active_hash_name name) id (u64_to_string attempts) ].

Lemma lease_job_pipeline name now pop_id secs id σ data :
  hash σ (job_data_hash_name name) !! id = Some data ->
  ∃ attempts created_at,
    lease_job name now pop_id secs id σ =
      (prun (lease_pipeline name now pop_id secs id attempts) σ,
       Some (mkPopped id data (u64_to_string attempts) created_at (u64_to_string now)
               (lease_token_of now id attempts pop_id))).
Proof. intros Hd. unfold lease_job, hincr. rewrite Hd. eexists _, _. reflexivity. Qed.

Lemma lease_pipeline_places name now pop_id secs id n σ :
  let v := places_of name σ in
  places_of name (prun (lease_pipeline name now pop_id secs id n) σ) =
    mkPlaces (pl_pending v) (pl_delayed v) (<[id := u64_to_string n]> (pl_active v)) (pl_dedupe v)
      (pl_cancel v) (pl_success v) (pl_failed v).
Proof. unfold lease_pipeline. places_tac. Qed.

Lemma lease_pipeline_token name now pop_id secs id n σ :
  no_colon id ->
  current_token name (prun (lease_pipeline name now pop_id secs id n) σ) id =
    Some (lease_token_of now id n pop_id) /\
  lease_live name (prun (lease_pipeline name now pop_id secs id n) σ) id (lease_token_of now id n pop_id) /\
  (∀ id', no_colon id' -> id' <> id ->
    current_token name (prun (lease_pipeline name now pop_id secs id n) σ) id' = current_token name σ id') /\
  (∀ id' t, no_colon id' -> (id', t) <> (id, lease_token_of now id n pop_id) ->
    same_at (lease_key_name name id' t) σ (prun (lease_pipeline name now pop_id secs id n) σ)).
Proof.
  intros Hc. unfold lease_pipeline. set (tok := lease_token_of now id n pop_id). split_and!.
  - unfold current_token. cbn [prun foldl]. qview_simp. by rewrite lookup_insert_eq.
  - unfold lease_live, exists_key. cbn [prun foldl]. qview_simp. by rewrite bool_decide_eq_true_2.
  - intros id' Hc' Hne. apply hash_prun_leaves.
    repeat (apply Forall_cons; split; [cbn [leaves_field]; first [done|left; qkeys_ne]|]); apply Forall_nil; exact I.
  - intros id' t Hc' Hne. apply prun_same.
    repeat (apply Forall_cons; split; [cbn [wkey]; qkeys_ne|]); apply Forall_nil; exact I.
Qed.

Lemma lease_job_ok {Fg : Forgotten} name now pop_id secs id σ :
  queue_ok name σ -> popped name σ id -> queue_ok name (lease_job name now pop_id secs id σ).1.
Proof.
  intros [Hp Hl] [Hd Hnl]. destruct (hash σ (job_data_hash_name name) !! id) as [data|] eqn:Edata;
    [|unfold lease_job; by rewrite Edata].
  destruct (lease_job_pipeline name now pop_id secs id σ data Edata) as (n & cr & ->). cbn [fst].
  assert (no_colon id) as Hc by (apply (po_plain _ Hp); by left).
  destruct (lease_pipeline_token name now pop_id secs id n σ Hc) as (T1 & _ & T3 & T4). split.
  - rewrite lease_pipeline_places. by apply enter_active.
  - intros id' t Hc' He.
    change (hash (prun ?p σ) (active_hash_name name)) with (pl_active (places_of name (prun p σ))).
    rewrite lease_pipeline_places. cbn [pl_active].
    assert (∀ x y, no_colon x -> exists_key σ (lease_key_name name x y) = true -> x <> id) as Hold.
    { intros x y Hx Hy ->. destruct (Hl id y Hc Hy) as [Hact _]. apply Hnl. by right; right. }
    destruct (decide ((id', t) = (id, lease_token_of now id n pop_id))) as [[= -> ->]|Hne].
    + rewrite lookup_insert_eq. by rewrite T1.
    + rewrite <- (exists_key_same _ _ _ (T4 id' t Hc' Hne)) in He.
      assert (id' <> id) by eauto. rewrite lookup_insert_ne, T3 by done. by apply Hl.
Qed.

Lemma lease_job_views name now pop_id secs id σ :
  let σ' := (lease_job name now pop_id secs id σ).1 in
  sett σ' (dedupe_set_name name) = sett σ (dedupe_set_name name) /\
  hash σ' (job_data_hash_name name) = hash σ (job_data_hash_name name) /\
  (∀ x, x <> id -> live (places_of name σ') x -> live (places_of name σ) x).
Proof.
  destruct (hash σ (job_data_hash_name name) !! id) as [data|] eqn:Edata;
    [|unfold lease_job; by rewrite Edata].
  destruct (lease_job_pipeline name now pop_id secs id σ data Edata) as (n & cr & ->). cbn [fst].
  split_and!.
  - change (pl_dedupe (places_of name (prun (lease_pipeline name now pop_id secs id n) σ)) = pl_dedupe (places_of name σ)).
    by rewrite lease_pipeline_places.
  - unfold lease_pipeline. cbn [prun foldl]. qview_simp. done.
  - intros x Hne. rewrite lease_pipeline_places. unfold live. cbn [pl_pending pl_delayed pl_active].
    by rewrite lookup_insert_ne.
Qed.

Lemma lease_jobs_ok {Fg : Forgotten} name now pop_id secs ids σ :
  queue_ok name σ -> NoDup ids -> (∀ id, id ∈ ids -> popped name σ id) ->
  queue_ok name (lease_jobs name now pop_id secs ids σ).1.
Proof.
  revert σ. induction ids as [|id ids IH]; intros σ Hq Hn Hin; cbn [lease_jobs]; [done|].
  apply NoDup_cons in Hn as [Hni Hn].
  pose proof (lease_job_ok name now pop_id secs id σ Hq (Hin id ltac:(set_solver))) as H1.
  destruct (lease_job_views name now pop_id secs id σ) as (D1 & _ & D2).
  destruct (lease_job name now pop_id secs id σ) as [σ1 j]. cbn [fst] in *.
  assert (queue_ok name (lease_jobs name now pop_id secs ids σ1).1) as H2.
  { apply IH; [done|done|]. intros x Hx. destruct (Hin x ltac:(set_solver)) as [Hd Hnl].
    split; [by rewrite D1|]. intros Hlx. apply Hnl, D2; [by intros ->|done]. }
  by destruct (lease_jobs name now pop_id secs ids σ1) as [σ2 js].
Qed.

Lemma pop_ids_places name n σ :
  let '(σ', ids) := pop_ids name n σ in
  let v := places_of name σ in
  places_of name σ' = mkPlaces (drop n (pl_pending v)) (pl_delayed v) (pl_active v) (pl_dedupe v)
    (pl_cancel v) (pl_success v) (pl_failed v).
Proof.
  pose proof (pop_ids_spec name n σ) as H. destruct (pop_ids name n σ) as [σ' ids].
  destruct H as (_ & Hl & Hs). unfold places_of. cbn [pl_pending pl_delayed pl_active pl_dedupe pl_cancel pl_success pl_failed].
  rewrite Hl. f_equal; symmetry; first [apply sa_zset | apply sa_hash | apply sa_set | apply sa_list]; apply Hs; qkeys_ne.
Qed.

Lemma pop_ids_ok {Fg : Forgotten} name n σ :
  queue_ok name σ ->
  let '(σ', ids) := pop_ids name n σ in
  queue_ok name σ' /\ NoDup ids /\ (∀ id, id ∈ ids -> popped name σ' id).
Proof.
  intros [Hp Hl]. pose proof (pop_ids_spec name n σ) as H. pose proof (pop_ids_places name n σ) as Hpl.
  destruct (pop_ids name n σ) as [σ' ids]. destruct H as (-> & Hd & Hs). cbn zeta in Hpl.
  pose proof (po_once _ Hp) as Hn. cbn [places_of pl_pending] in Hn.
  rewrite <- (take_drop n (lst σ (pending_list_name name))) in Hn.
  apply NoDup_app in Hn as (Hn1 & Hn2 & Hn3). split_and!; [split| |].
  - rewrite Hpl. apply drop_waiting; [done| |done|done|done|auto].
    intros x Hx. cbn [places_of pl_pending] in Hx |- *.
    rewrite <- (take_drop n (lst σ (pending_list_name name))). set_solver.
  - apply (leases_ok_step name (fun _ => False) σ); [done| |].
    + intros id t Hc He. split; [|tauto]. unfold lease_live in *.
      rewrite (exists_key_same σ σ'); [done|]. apply Hs. qkeys_ne.
    + intros id t Hc _ _. split; [|]; symmetry.
      * erewrite sa_hash; [done|]. apply Hs. qkeys_ne.
      * unfold current_token. erewrite sa_hash; [done|]. apply Hs. qkeys_ne.
  - done.
  - intros id Hin. assert (id ∈ pl_pending (places_of name σ)) as Hpend.
    { cbn [places_of pl_pending]. rewrite <- (take_drop n (lst σ (pending_list_name name))). set_solver. }
    split.
    + change (id ∈ forgotten ∪ pl_dedupe (places_of name σ')). rewrite Hpl. cbn [pl_dedupe].
      apply (po_dedupe _ Hp). by left.
    + rewrite Hpl. intros [H|[H|H]]; cbn [pl_pending pl_delayed pl_active] in H.
      * by apply (Hn2 id).
      * rewrite (po_pending_delayed _ Hp id Hpend) in H. by destruct H.
      * rewrite (po_pending_active _ Hp id Hpend) in H. by destruct H.
Qed.

Lemma pop_script_ok {Fg : Forgotten} name now pop_id n secs σ :
  queue_ok name σ -> queue_ok name (pop_script name now pop_id n secs σ).1.
Proof.
  intros Hq. unfold pop_script.
  assert (queue_ok name (expire_leases name (map_to_list (hash σ (active_hash_name name))).*1 σ).1) as H1.
  { apply expire_leases_ok; [done|apply NoDup_fst_map_to_list|].
    intros id ([x a] & -> & Hx)%list_elem_of_fmap. apply elem_of_map_to_list in Hx. by eexists. }
  destruct (expire_leases _ _ _) as [σ1 timed]. cbn [fst] in H1.
  assert (queue_ok name (process_cancellations name now
    (elements (sett σ1 (pending_cancellation_set_name name))) σ1).1) as H2.
  { apply process_cancellations_ok; [done|]. apply Forall_forall. intros id Hid%elem_of_elements.
    apply (po_plain _ (proj1 H1)). right. by left. }
  destruct (process_cancellations _ _ _ _) as [σ2 canc]. cbn [fst] in H2.
  assert (queue_ok name (foldl (fun σ id => release_delayed name id σ) σ2 (delayed_due name now σ2))) as H3.
  { destruct (delayed_due_spec name now σ2) as [Hn Hin]. apply release_all_ok; [done|done|].
    intros id (s & Hs & _)%Hin. by eexists. }
  pose proof (pop_ids_ok name n _ H3) as H4. destruct (pop_ids _ _ _) as [σ4 ids].
  destruct H4 as (H4 & Hn & Hpop).
  pose proof (lease_jobs_ok name now pop_id secs ids σ4 H4 Hn Hpop) as H5.
  by destruct (lease_jobs _ _ _ _ _ _) as [σ5 jobs].
Qed.

(** ** Pruning *)

Lemma prune_one_places name a b id σ :
  prune_protected name a b id σ = false ->
  let v := places_of name σ in
  places_of name (prune_one name a b id σ).1 =
    mkPlaces (pl_pending v) (pl_delayed v) (pl_active v) (pl_dedupe v ∖ {[id]}) (pl_cancel v ∖ {[id]})
      (pl_success v) (pl_failed v).
Proof. intros Hf. unfold prune_one. rewrite Hf. cbn [fst]. places_tac. Qed.

Lemma prune_protected_live name a b id σ :
  prune_protected name a b id σ = false -> ¬ live (places_of name σ) id.
Proof.
  unfold prune_protected, has_id. rewrite !orb_false_iff, !bool_decide_eq_false.
  intros ((((Ha & Hp) & Hd) & _) & _) [H|[H|H]]; auto.
Qed.

Lemma forget_job {Fg : Forgotten} v id d' c' :
  places_ok v -> ¬ live v id -> d' = pl_dedupe v ∖ {[id]} -> c' ⊆ pl_cancel v ->
  places_ok (mkPlaces (pl_pending v) (pl_delayed v) (pl_active v) d' c' (pl_success v) (pl_failed v)).
Proof.
  intros [P1 P2 P3 P4 P5 P6] Hl -> Hc. split; cbn; [done..| |].
  - intros x Hx. specialize (P5 x Hx). assert (x <> id) by (by intros ->). set_solver.
  - intros x [Hx|[Hx|Hx]]; [apply P6; set_solver|apply P6; set_solver|apply P6; auto].
Qed.

Lemma prune_one_ok {Fg : Forgotten} name a b id σ :
  no_colon id -> queue_ok name σ -> queue_ok name (prune_one name a b id σ).1.
Proof.
  intros Hc [Hp Hl]. destruct (prune_protected name a b id σ) eqn:Hf.
  { unfold prune_one. by rewrite Hf. }
  pose proof (prune_protected_live _ _ _ _ _ Hf) as Hnl. split.
  - rewrite prune_one_places by done. eapply forget_job; [done|done|done|set_solver].
  - unfold prune_one. rewrite Hf. cbn [fst].
    apply (leases_ok_step name (fun x => x = id) σ); [done| |].
    + intros x t Hx He.
      assert (lease_live name σ x t) as He'.
      { unfold lease_live in *. erewrite (exists_key_same σ); [exact He|]. apply prun_same.
        repeat (apply Forall_cons; split; [cbn [wkey]; qkeys_ne|]); apply Forall_nil; exact I. }
      split; [done|]. intros ->. destruct (Hl id t Hc He') as [Ha _]. apply Hnl. by right; right.
    + intros x t Hx Hne _. split; [|unfold current_token]; cbn [prun foldl]; qview_simp; done.
Qed.

Lemma prune_ids_ok {Fg : Forgotten} name a b ids σ :
  Forall no_colon ids -> queue_ok name σ -> queue_ok name (prune_ids name a b ids σ).1.
Proof.
  intros Hids. revert σ. induction Hids as [|id ids Hc _ IH]; intros σ Hq; cbn [prune_ids]; [done|].
  pose proof (prune_one_ok name a b id σ Hc Hq) as H1. destruct (prune_one name a b id σ) as [σ1 n].
  specialize (IH σ1 H1). by destruct (prune_ids name a b ids σ1) as [σ2 m].
Qed.

Definition terminal_list (name k : string) : Prop :=
  k = success_list_name name \/ k = failed_list_name name.

Lemma trim_script_ok {Fg : Forgotten} name a b max σ :
  terminal_list name a -> queue_ok name σ -> queue_ok name (trim_script name a b max σ).1.
Proof.
  intros Ha Hq. unfold trim_script.
  assert (∀ x, x ∈ lst σ a -> no_colon x) as Hnc.
  { intros x Hx. apply (po_plain _ (proj1 Hq)). destruct Ha as [->| ->]; auto. }
  destruct (drop max (lst σ a)) as [|d ds] eqn:Ed; [done|].
  apply prune_ids_ok.
  { apply Forall_forall. intros x Hx. apply Hnc. rewrite <- Ed in Hx.
    rewrite <- (take_drop max (lst σ a)). set_solver. }
  assert (∃ c l', match max with O => wrun (DEL a) σ | S stop => wrun (LTRIM a stop) σ end = wrun c σ /\
    wkey c = a /\ (∀ x, x ∈ l' -> x ∈ lst σ a) /\ lst (wrun c σ) a = l' /\
    (c = DEL a \/ ∃ stop, c = LTRIM a stop)) as (c & l' & -> & Hk & Hsub & Hl' & Hcase).
  { destruct max as [|stop].
    - exists (DEL a), []. split_and!; try done; [set_solver| |by left]. by rewrite lst_wrun, decide_True.
    - exists (LTRIM a stop), (take (S stop) (lst σ a)). split_and!; try done; [| |eauto].
      + intros x Hx. rewrite <- (take_drop (S stop) (lst σ a)). set_solver.
      + by rewrite lst_wrun, decide_True. }
  destruct Hq as [Hp Hl]. split.
  - destruct Hp as [P1 P2 P3 P4 P5 P6].
    assert (∀ k, k <> a -> same_at k σ (wrun c σ)) as Hs by (intros k Hka; apply wrun_frame; by rewrite Hk).
    assert (∃ s' f', places_of name (wrun c σ) = mkPlaces (pl_pending (places_of name σ))
      (pl_delayed (places_of name σ)) (pl_active (places_of name σ)) (pl_dedupe (places_of name σ))
      (pl_cancel (places_of name σ)) s' f' /\
      (∀ x, x ∈ s' \/ x ∈ f' -> x ∈ pl_success (places_of name σ) \/ x ∈ pl_failed (places_of name σ)))
      as (s' & f' & -> & Hsf).
    { exists (lst (wrun c σ) (success_list_name name)), (lst (wrun c σ) (failed_list_name name)). split.
      - unfold places_of. cbn [pl_pending pl_delayed pl_active pl_dedupe pl_cancel].
        f_equal; symmetry; first [apply sa_zset | apply sa_hash | apply sa_set | apply sa_list];
          apply Hs; destruct Ha as [->| ->]; qkeys_ne.
      - cbn [places_of pl_success pl_failed]. destruct Ha as [->| ->].
        + rewrite Hl', <- (sa_list _ _ _ (Hs (failed_list_name name) ltac:(qkeys_ne))). naive_solver.
        + rewrite Hl', <- (sa_list _ _ _ (Hs (success_list_name name) ltac:(qkeys_ne))). naive_solver. }
    split; [done..|]. intros x [?|[?|Hx]]; [apply P6; auto|apply P6; auto|].
    apply P6. right. right. auto.
  - change (wrun c σ) with (prun [c] σ). apply leases_ok_neutral; [|done].
    destruct Ha as [->| ->], Hcase as [->|[stop ->]]; neutral_list.
Qed.
