(* ===== verification/QueueSteps.v ===== *)
(** Completions: what a committed completion does to the queue, and the step
    relation of a queue with all its clients. *)

From Stdlib Require Import String Ascii NArith Lia.
From stdpp Require Import base gmap strings list fin_maps relations.
From S2P Require Import Prelude Redis RedisProg Json QueueTypes Queue QueueInv.

(** ** Hook commands *)

(** The commands a handler's hook adds write none of this queue's keys. *)
Definition outside (name : string) (p : pipeline) : Prop :=
  Forall (fun c => ∀ k, wkey c <> queue_key_name name k) p.

Lemma outside_same name p σ k : outside name p -> same_at (queue_key_name name k) σ (prun p σ).
Proof. intros Hp. apply prun_same. eapply Forall_impl; [exact Hp|]. intros c Hc. apply Hc. Qed.

Definition queue_same (name : string) (σ σ' : redis) : Prop :=
  ∀ k, same_at (queue_key_name name k) σ σ'.

Lemma queue_same_places name σ σ' : queue_same name σ σ' -> places_of name σ' = places_of name σ.
Proof.
  intros Hs. unfold places_of.
  f_equal; symmetry; first [apply sa_zset | apply sa_hash | apply sa_set | apply sa_list];
    first [apply (Hs QPending) | apply (Hs QDelayed) | apply (Hs QActive) | apply (Hs QDedupe)
          | apply (Hs QCancel) | apply (Hs QSuccess) | apply (Hs QFailed)].
Qed.

Lemma queue_same_lease name σ σ' id t :
  queue_same name σ σ' -> lease_live name σ id t <-> lease_live name σ' id t.
Proof. intros Hs. unfold lease_live. by rewrite (exists_key_same σ σ' (lease_key_name name id t) (Hs (QLease id t))). Qed.

Lemma queue_same_ok {Fg : Forgotten} name σ σ' : queue_same name σ σ' -> queue_ok name σ -> queue_ok name σ'.
Proof.
  intros Hs [Hp Hl]. split; [by rewrite (queue_same_places _ _ _ Hs)|].
  apply (leases_ok_step name (fun _ => False) σ); [done| |].
  - intros id t _ He. split; [by apply (queue_same_lease name σ σ')|tauto].
  - intros id t _ _ _. unfold current_token. split; symmetry.
    + by rewrite (sa_hash (active_hash_name name) _ _ (Hs QActive)).
    + by rewrite (sa_hash (job_meta_hash_name name id) _ _ (Hs (QMeta id))).
Qed.

(** ** Giving a lease back *)

(** A command of the completion of job [id]: it creates no lease and disturbs the lease
    data of no other job. *)
Definition completing (name id token : string) (c : wcmd) : Prop :=
  (c = DEL (lease_key_name name id token) \/ ∀ x t, no_colon x -> wkey c <> lease_key_name name x t) /\
  (∀ x, x <> id -> leaves_field (active_hash_name name) x c) /\
  (∀ x, no_colon x -> x <> id -> leaves_field (job_meta_hash_name name x) "lease_token" c).

Lemma lease_deleted p σ k :
  (∀ c, c ∈ p -> c = DEL k \/ wkey c <> k) ->
  exists_key (prun p σ) k = true -> exists_key σ k = true /\ DEL k ∉ p.
Proof.
  revert σ. induction p as [|c p IH]; intros σ Hp He; [split; [done|set_solver]|].
  change (prun (c :: p) σ) with (prun p (wrun c σ)) in He.
  destruct (IH (wrun c σ)) as [He' Hd]; [set_solver|done|].
  destruct (Hp c) as [->|Hk]; [set_solver| |].
  - exfalso. revert He'. unfold exists_key.
    rewrite str_wrun, hash_wrun, zset_wrun, lst_wrun, sett_wrun, !decide_True by done. done.
  - rewrite (exists_key_same σ (wrun c σ)); [|by apply wrun_frame].
    split; [done|]. rewrite not_elem_of_cons. split; [|done]. by intros <-.
Qed.

Lemma completing_leases name id token p σ :
  no_colon id -> Forall (completing name id token) p -> DEL (lease_key_name name id token) ∈ p ->
  leases_ok name σ -> lease_live name σ id token -> leases_ok name (prun p σ).
Proof.
  intros Hc Hp Hdel Hl Hlive. rewrite Forall_forall in Hp.
  apply (leases_ok_step name (fun x => x = id) σ); [done| |].
  - intros x t Hx He. destruct (lease_deleted p σ (lease_key_name name x t)) as [He' Hnd]; [|done|].
    + intros c Hin. destruct (Hp c Hin) as [[->|Hk] _]; [|right; by apply Hk].
      destruct (decide (lease_key_name name id token = lease_key_name name x t)) as [<-|]; [by left|by right].
    + split; [done|]. intros ->. destruct (Hl id t Hc He') as [_ Ht], (Hl id token Hc Hlive) as [_ Ht'].
      rewrite Ht in Ht'. by simplify_eq.
  - intros x t Hx Hne _. split; apply hash_prun_leaves, Forall_forall; intros c Hin;
      destruct (Hp c Hin) as (_ & H1 & H2); auto.
Qed.

Ltac completing_tac :=
  split; [first [by left | right; intros ??? ] |split; [intros ??|intros ???]]; cbn [wkey leaves_field];
  first [qkeys_ne | done | left; qkeys_ne | right; done | right; congruence].
Ltac completing_list :=
  repeat (apply Forall_cons; split; [completing_tac|]); apply Forall_nil; exact I.

Section Completion.
Context {Fg : Forgotten} {T : Type} `{Json T} {Output ErrorData : Type} `{Json Output}.
Context (encode : JobErrorRecord ErrorData -> twmq_result string).
Context (name : string) (options : QueueOptions).

(** The queue's own part of a completion of the lease [token] on job [id]: a success,
    a nack, or a failure (reported by the handler, or by the queue itself when the
    job's data does not parse). *)
Inductive completion_of (now : N) : string -> string -> pipeline -> Prop :=
| success_completion job result ops :
    add_success_operations (T:=T) name options now job result = Ok ops ->
    completion_of now (job_id (bj_job job)) (bj_lease_token job) ops
| nack_completion job error delay position ops :
    add_nack_operations (T:=T) encode name now job error delay position = Ok ops ->
    completion_of now (job_id (bj_job job)) (bj_lease_token job) ops
| fail_completion id token attempts error ops :
    fail_operations encode name options now id token attempts error = Ok ops ->
    completion_of now id token ops.

Definition kept_dedupe (id : string) (d : gset string) : gset string :=
  if decide (idempotency_mode options = Active) then d ∖ {[id]} else d.

Lemma success_places now (job : BorrowedJob T) (result : Output) ops σ :
  add_success_operations name options now job result = Ok ops ->
  let v := places_of name σ in let id := job_id (bj_job job) in
  places_of name (prun ops σ) =
    mkPlaces (pl_pending v) (pl_delayed v) (delete id (pl_active v)) (kept_dedupe id (pl_dedupe v))
      (pl_cancel v) (id :: pl_success v) (pl_failed v).
Proof.
  unfold add_success_operations, ok_or, kept_dedupe, forget_if_active, release_lease.
  destruct (to_json result); [|done]. intros [= <-].
  destruct (decide (_ = Active)); places_tac.
Qed.

Lemma fail_places now id token attempts (error : ErrorData) ops σ :
  fail_operations encode name options now id token attempts error = Ok ops ->
  let v := places_of name σ in
  places_of name (prun ops σ) =
    mkPlaces (pl_pending v) (pl_delayed v) (delete id (pl_active v)) (kept_dedupe id (pl_dedupe v))
      (pl_cancel v) (pl_success v) (id :: pl_failed v).
Proof.
  unfold fail_operations, kept_dedupe, forget_if_active, release_lease, append_record.
  destruct (encode _); [|done]. intros [= <-].
  destruct (decide (_ = Active)); places_tac.
Qed.

Lemma nack_places now (job : BorrowedJob T) (error : ErrorData) delay position ops σ :
  add_nack_operations encode name now job error delay position = Ok ops ->
  let v := places_of name σ in let id := job_id (bj_job job) in
  places_of name (prun ops σ) =
    mkPlaces
      (match delay, position with
       | Some _, _ => pl_pending v
       | None, First => id :: pl_pending v
       | None, Last => pl_pending v ++ [id]
       end)
      (match delay with
       | Some d => <[id := (now + delay_to_queue_seconds d)%N]> (pl_delayed v)
       | None => pl_delayed v
       end)
      (delete id (pl_active v)) (pl_dedupe v) (pl_cancel v) (pl_success v) (pl_failed v).
Proof.
  unfold add_nack_operations, release_lease, append_record.
  destruct (encode _); [|done]. intros [= <-].
  destruct delay as [d|]; [|destruct position]; places_tac.
Qed.

Lemma kept_dedupe_cases id d : kept_dedupe id d = d \/ kept_dedupe id d = d ∖ {[id]}.
Proof. unfold kept_dedupe. case_decide; auto. Qed.

Lemma completion_places_ok now id token ops σ :
  completion_of now id token ops -> places_ok (places_of name σ) ->
  is_Some (pl_active (places_of name σ) !! id) -> places_ok (places_of name (prun ops σ)).
Proof.
  intros [job result ops' Hops|job error delay position ops' Hops|id' token' n error ops' Hops] Hp Ha.
  - rewrite (success_places _ _ _ _ _ Hops). apply active_to_done; [done|done|apply kept_dedupe_cases|].
    intros x. rewrite elem_of_cons. naive_solver.
  - rewrite (nack_places _ _ _ _ _ _ _ Hops). destruct delay as [d|]; [by apply active_to_delayed|].
    apply active_to_pending; [done|done|destruct position; auto].
  - rewrite (fail_places _ _ _ _ _ _ _ Hops). apply active_to_done; [done|done|apply kept_dedupe_cases|].
    intros x. rewrite elem_of_cons. naive_solver.
Qed.

Lemma completion_completing now id token ops :
  no_colon id -> completion_of now id token ops ->
  Forall (completing name id token) ops /\ DEL (lease_key_name name id token) ∈ ops /\
  HDEL (active_hash_name name) id ∈ ops.
Proof.
  intros Hc Hof. destruct Hof as [job result ops Hops|job error delay position ops Hops|id token n error ops Hops];
    [set (id := job_id (bj_job job)) in *; set (token := bj_lease_token job) in *..|];
    revert Hops.
  - unfold add_success_operations, ok_or, forget_if_active, release_lease.
    destruct (to_json result); [|done]. intros [= <-]. fold id token.
    destruct (decide (_ = Active)); cbn [app]; (split; [completing_list|set_solver]).
  - unfold add_nack_operations, release_lease, append_record.
    destruct (encode _); [|done]. intros [= <-]. fold id token.
    destruct delay as [d|]; [|destruct position]; cbn [app]; (split; [completing_list|set_solver]).
  - unfold fail_operations, forget_if_active, release_lease, append_record.
    destruct (encode _); [|done]. intros [= <-].
    destruct (decide (_ = Active)); cbn [app]; (split; [completing_list|set_solver]).
Qed.

(** A completion committed while its lease exists. *)
Lemma completion_ok now id token hook ops σ :
  completion_of now id token ops -> outside name hook -> no_colon id ->
  lease_live name σ id token -> queue_ok name σ -> queue_ok name (prun (hook ++ ops) σ).
Proof.
  intros Hof Hout Hc Hlive Hq. rewrite prun_app.
  assert (queue_same name σ (prun hook σ)) as Hs by (intros k; by apply outside_same).
  destruct (queue_same_ok _ _ _ Hs Hq) as [Hp Hl].
  apply (queue_same_lease _ _ _ _ _ Hs) in Hlive. destruct (Hl _ _ Hc Hlive) as [Ha _].
  destruct (completion_completing now id token ops Hc Hof) as (H1 & H2 & _). split.
  - by eapply completion_places_ok.
  - by eapply completing_leases.
Qed.

Lemma completion_releases now id token hook ops σ :
  completion_of now id token ops -> no_colon id ->
  exists_key (prun (hook ++ ops) σ) (lease_key_name name id token) = false.
Proof.
  intros Hof Hc. rewrite prun_app.
  destruct (completion_completing now id token ops Hc Hof) as (H1 & H2 & _). rewrite Forall_forall in H1.
  destruct (exists_key _ _) eqn:E; [|done]. apply lease_deleted in E as [_ E]; [done|].
  intros c Hin. destruct (H1 c Hin) as [[->|Hk] _]; [by left|right; by apply Hk].
Qed.
End Completion.

(** ** The queue with all its clients *)

Section Steps.
Context {T : Type} `{Json T} {Output ErrorData : Type} `{Json Output}.
Context (encode : JobErrorRecord ErrorData -> twmq_result string).
Context (name : string) (options : QueueOptions).

(** One atomic step on the server.  Ids are colon-free where they enter the queue.  A job
    queued from another transaction ([queue_job] has no duplicate check) is not live; where
    the dedupe set is [edited], neither is a pushed job that the set does not remember. *)
Inductive queue_step (edited : bool) : redis -> redis -> Prop :=
| qs_push id data now delay position σ :
    no_colon id -> (edited = true -> live (places_of name σ) id -> id ∈ sett σ (dedupe_set_name name)) ->
    queue_step edited σ (push_script name id data now delay position σ).1
| qs_queue_job now (job : JobOptions T) p σ :
    no_colon (jo_id job) -> ¬ live (places_of name σ) (jo_id job) ->
    queue_job name now job = Ok p -> queue_step edited σ (prun p σ)
| qs_remove_from_dedupe id σ : edited = true -> queue_step edited σ (forget_id name id σ)
| qs_empty_dedupe σ : edited = true -> queue_step edited σ (forget_all name σ)
| qs_cancel id now σ : queue_step edited σ (cancel_script name id now σ).1
| qs_pop now pop_id batch_size lease_seconds σ :
    queue_step edited σ (pop_script name now pop_id batch_size lease_seconds σ).1
| qs_complete now id token hook ops σ :
    completion_of (T:=T) (Output:=Output) encode name options now id token ops ->
    outside name hook -> no_colon id -> lease_live name σ id token ->
    queue_step edited σ (prun (hook ++ ops) σ)
| qs_trim_success max σ :
    queue_step edited σ (trim_script name (success_list_name name) (failed_list_name name) max σ).1
| qs_trim_failed max σ :
    queue_step edited σ (trim_script name (failed_list_name name) (success_list_name name) max σ).1
| qs_lease_expiry id token σ :
    no_colon id -> queue_step edited σ (wrun (DEL (lease_key_name name id token)) σ)
| qs_elsewhere σ σ' : queue_same name σ σ' -> queue_step edited σ σ'.

Lemma queued_job_ok {Fg : Forgotten} now (job : JobOptions T) p σ :
  no_colon (jo_id job) -> ¬ live (places_of name σ) (jo_id job) ->
  queue_job name now job = Ok p -> queue_ok name σ -> queue_ok name (prun p σ).
Proof.
  intros Hc Hnl Hjob [Hp Hl]. unfold queue_job, ok_or in Hjob.
  destruct (to_json (jo_data job)) as [data|]; [|done]. cbn in Hjob. simplify_eq.
  set (id := jo_id job) in *. set (v := places_of name σ) in *. split.
  - destruct (jo_delay job) as [d|].
    + replace (places_of name _) with (mkPlaces (pl_pending v)
        (<[id := (now + delay_to_queue_seconds (do_delay d))%N]> (pl_delayed v)) (pl_active v)
        ({[id]} ∪ pl_dedupe v) (pl_cancel v) (pl_success v) (pl_failed v)) by (by places_tac).
      apply enqueue; [done|done|done|right; eauto].
    + replace (places_of name _) with (mkPlaces (pl_pending v ++ [id]) (pl_delayed v) (pl_active v)
        ({[id]} ∪ pl_dedupe v) (pl_cancel v) (pl_success v) (pl_failed v)) by (by places_tac).
      apply enqueue; [done|done|done|left; eauto].
  - apply leases_ok_neutral; [|done]. destruct (jo_delay job); cbn [app]; neutral_list.
Qed.

Lemma lease_expiry_ok {Fg : Forgotten} id token σ :
  no_colon id -> queue_ok name σ -> queue_ok name (wrun (DEL (lease_key_name name id token)) σ).
Proof.
  intros Hc [Hp Hl]. split.
  - replace (places_of name (wrun _ σ)) with (places_of name σ) by (by places_tac). done.
  - apply (leases_ok_step name (fun _ => False) σ); [done| |].
    + intros x t Hx He. split; [|tauto].
      change (wrun ?c σ) with (prun [c] σ) in He. apply lease_deleted in He as [He _]; [done|].
      intros c ->%list_elem_of_singleton. cbn [wkey].
      destruct (decide (lease_key_name name id token = lease_key_name name x t)) as [<-|]; auto.
    + intros x t Hx _ _. split; [|unfold current_token]; qview_simp; done.
Qed.

(** Editing the dedupe set forgets what it held; every place is as before. *)
Lemma forgetting_ok (F F' : gset string) σ c :
  @queue_ok F name σ -> c = DEL (dedupe_set_name name) \/ (∃ id, c = SREM (dedupe_set_name name) id) ->
  F' = F ∪ sett σ (dedupe_set_name name) -> @queue_ok F' name (wrun c σ).
Proof.
  intros [[P1 P2 P3 P4 P5 P6] Hl] Hc ->. set (v := places_of name σ) in *. split.
  - assert (∃ d, places_of name (wrun c σ) = mkPlaces (pl_pending v) (pl_delayed v) (pl_active v) d
      (pl_cancel v) (pl_success v) (pl_failed v) /\ d ⊆ pl_dedupe v) as (d & -> & Hd).
    { destruct Hc as [->|[id ->]]; eexists; (split; [by places_tac|set_solver]). }
    unfold forgotten, live in *. change (sett σ (dedupe_set_name name)) with (pl_dedupe v).
    split; unfold live; cbn; [done..| |]; intros x Hx; [specialize (P5 x Hx); set_solver|apply P6; set_solver].
  - change (wrun c σ) with (prun [c] σ). apply leases_ok_neutral; [|done].
    destruct Hc as [->|[id ->]]; neutral_list.
Qed.

Lemma queue_step_ok edited (F : gset string) σ σ' :
  queue_step edited σ σ' -> @queue_ok F name σ -> (edited = false -> F = ∅) ->
  ∃ F' : gset string, @queue_ok F' name σ' /\ (edited = false -> F' = ∅).
Proof.
  intros Hs Hq HF. destruct Hs as
    [id data now delay pos σ Hc Hd|now job p σ Hc Hl Hj|id σ He|σ He|id now σ|now pop n secs σ|
     now id token hook ops σ Hof Hout Hc Hl|max σ|max σ|id token σ Hc|σ σ' Hs].
  1: { exists F. split; [|done]. apply push_script_ok; [done| |done]. intros Hlive.
    destruct edited; [by apply Hd|]. pose proof (po_dedupe _ (proj1 Hq) id Hlive) as Hin.
    unfold forgotten in Hin. rewrite (HF eq_refl) in Hin. set_solver. }
  2,3: exists (F ∪ sett σ (dedupe_set_name name)); (split; [|by rewrite He]);
    (eapply forgetting_ok; [exact Hq| |done]); eauto.
  all: exists F; (split; [|done]).
  - by eapply queued_job_ok.
  - by apply cancel_script_ok.
  - by apply pop_script_ok.
  - by eapply completion_ok.
  - apply trim_script_ok; [by left|done].
  - apply trim_script_ok; [by right|done].
  - by apply lease_expiry_ok.
  - by eapply queue_same_ok.
Qed.

Lemma queue_empty_ok : @queue_ok (∅ : gset string) name redis_empty.
Proof.
  split; [|done]. split; cbn; try done.
  - apply NoDup_nil_2.
  - intros id [H1|[H1|H1]]; cbn in H1; [by apply elem_of_nil in H1|by destruct H1..].
  - intros id [H1|[H1|[H1|H1]]]; unfold forgotten in *; set_solver.
Qed.

Lemma queue_reachable_ok edited σ :
  rtc (queue_step edited) redis_empty σ ->
  ∃ F : gset string, @queue_ok F name σ /\ (edited = false -> F = ∅).
Proof.
  intros Hr. assert (∃ F : gset string, @queue_ok F name redis_empty /\ (edited = false -> F = ∅)) as Hstart
    by (exists ∅; split; [apply queue_empty_ok|done]).
  revert Hstart. induction Hr as [|x y z Hxy _ IH]; [done|].
  intros (F & Hq & HF). apply IH. by eapply queue_step_ok.
Qed.
End Steps.
