(* ===== verification/QueuePop.v ===== *)
(** What one poll does to the jobs of a queue, stage by stage. *)

From Stdlib Require Import String Ascii NArith Lia.
From stdpp Require Import base gmap strings list fin_maps.
From S2P Require Import Prelude Redis RedisProg Json QueueTypes Queue QueueInv.

(** A job in the hands of the holder of [token]. *)
Definition held (name : string) (σ : redis) (id token : string) : Prop :=
  is_Some (hash σ (active_hash_name name) !! id) /\ current_token name σ id = Some token /\
  lease_live name σ id token.

Lemma lease_live_held {Fg : Forgotten} name σ id token :
  queue_ok name σ -> no_colon id -> lease_live name σ id token -> held name σ id token.
Proof. intros [_ Hl] Hc Hlive. destruct (Hl id token Hc Hlive). by split_and!. Qed.

Lemma held_neutral name p σ id token :
  Forall (lease_neutral name) p -> no_colon id -> held name σ id token -> held name (prun p σ) id token.
Proof.
  intros Hp Hc (H1 & H2 & H3). destruct (lease_neutral_views name p σ Hp) as (S1 & S2 & S3).
  unfold held, lease_live. rewrite S2, S3 by done. rewrite <- (exists_key_same _ _ _ (S1 id token Hc)).
  done.
Qed.

(** ** Leases of other jobs survive each stage *)

Lemma reclaim_held name id x token σ :
  no_colon id -> no_colon x -> x <> id -> held name σ x token -> held name (reclaim name id σ) x token.
Proof.
  intros Hc Hx Hne (H1 & H2 & H3). destruct (reclaim_leases name id σ Hc) as [S1 S2]. split_and!.
  - change (is_Some (pl_active (places_of name (reclaim name id σ)) !! x)). rewrite reclaim_places.
    cbn [pl_active]. by rewrite lookup_delete_ne.
  - by rewrite S2.
  - unfold lease_live. by rewrite <- (exists_key_same _ _ _ (S1 x token Hx)).
Qed.

Lemma held_alive name σ id token : held name σ id token -> lease_alive name σ id = true.
Proof. intros (_ & Ht & Hl). unfold lease_alive. unfold current_token in Ht. by rewrite Ht. Qed.

Lemma expire_leases_held name ids x token σ :
  Forall no_colon ids -> no_colon x -> held name σ x token ->
  held name (expire_leases name ids σ).1 x token.
Proof.
  intros Hids Hx. revert σ. induction Hids as [|id ids Hc _ IH]; intros σ Hh; cbn [expire_leases]; [done|].
  destruct (lease_alive name σ id) eqn:Ha; [by apply IH|].
  assert (held name (expire_leases name ids (reclaim name id σ)).1 x token) as H1.
  { apply IH, reclaim_held; [done|done| |done]. intros ->. by rewrite (held_alive _ _ _ _ Hh) in Ha. }
  by destruct (expire_leases name ids (reclaim name id σ)).
Qed.

Lemma cancel_one_neutral name now id σ :
  no_colon id -> ∃ p, Forall (lease_neutral name) p /\ (cancel_one name now id σ).1 = prun p σ.
Proof.
  intros Hc. unfold cancel_one. case_match; cbn [fst].
  - exists [SREM (pending_cancellation_set_name name) id]. split; [neutral_list|done].
  - eexists. split; [|reflexivity]. neutral_list.
Qed.

Lemma process_cancellations_neutral name now ids σ :
  Forall no_colon ids ->
  ∃ p, Forall (lease_neutral name) p /\ (process_cancellations name now ids σ).1 = prun p σ.
Proof.
  intros Hids. revert σ. induction Hids as [|id ids Hc _ IH]; intros σ; cbn [process_cancellations].
  { by exists []. }
  case_bool_decide; [apply IH|].
  destruct (cancel_one_neutral name now id σ Hc) as (p & Hp & E).
  destruct (cancel_one name now id σ) as [σ1 b]. cbn [fst] in E. subst σ1.
  destruct (IH (prun p σ)) as (q & Hq & E2). destruct (process_cancellations name now ids (prun p σ)) as [σ2 m].
  exists (p ++ q). rewrite prun_app, <- E2. split; [by apply Forall_app|done].
Qed.

Lemma release_neutral name ids σ :
  Forall no_colon ids ->
  ∃ p, Forall (lease_neutral name) p /\ foldl (fun σ id => release_delayed name id σ) σ ids = prun p σ.
Proof.
  intros Hids. revert σ. induction Hids as [|id ids Hc _ IH]; intros σ; cbn [foldl]; [by exists []|].
  destruct (IH (release_delayed name id σ)) as (q & Hq & ->). unfold release_delayed.
  eexists (_ ++ q). rewrite prun_app. split; [|reflexivity].
  apply Forall_app. split; [|done]. destruct (decide (_ = "first")); neutral_list.
Qed.

Lemma pop_ids_held name n σ x token :
  no_colon x -> held name σ x token -> held name (pop_ids name n σ).1 x token.
Proof.
  intros Hc (H1 & H2 & H3). pose proof (pop_ids_spec name n σ) as H. destruct (pop_ids name n σ) as [σ' ids].
  destruct H as (_ & _ & Hs). unfold held, lease_live, current_token in *. cbn [fst].
  rewrite <- (sa_hash _ _ _ (Hs (active_hash_name name) ltac:(qkeys_ne))).
  rewrite <- (sa_hash _ _ _ (Hs (job_meta_hash_name name x) ltac:(qkeys_ne))).
  rewrite <- (exists_key_same _ _ _ (Hs (lease_key_name name x token) ltac:(qkeys_ne))). done.
Qed.

Lemma lease_job_held name now pop_id secs id x token σ :
  no_colon id -> no_colon x -> x <> id -> held name σ x token ->
  held name (lease_job name now pop_id secs id σ).1 x token.
Proof.
  intros Hc Hx Hne (H1 & H2 & H3). destruct (hash σ (job_data_hash_name name) !! id) as [data|] eqn:Edata;
    [|unfold lease_job; by rewrite Edata].
  destruct (lease_job_pipeline name now pop_id secs id σ data Edata) as (n & cr & ->). cbn [fst].
  destruct (lease_pipeline_token name now pop_id secs id n σ Hc) as (_ & _ & T3 & T4). split_and!.
  - change (is_Some (pl_active (places_of name (prun (lease_pipeline name now pop_id secs id n) σ)) !! x)).
    rewrite lease_pipeline_places. cbn [pl_active]. by rewrite lookup_insert_ne.
  - by rewrite T3.
  - unfold lease_live. rewrite <- (exists_key_same _ _ _ (T4 x token Hx ltac:(congruence))). done.
Qed.

Lemma lease_jobs_held name now pop_id secs ids x token σ :
  Forall no_colon ids -> no_colon x -> x ∉ ids -> held name σ x token ->
  held name (lease_jobs name now pop_id secs ids σ).1 x token.
Proof.
  intros Hids Hx. revert σ. induction Hids as [|id ids Hc _ IH]; intros σ Hni Hh; cbn [lease_jobs]; [done|].
  apply not_elem_of_cons in Hni as [Hne Hni].
  pose proof (lease_job_held name now pop_id secs id x token σ Hc Hx Hne Hh) as H1.
  destruct (lease_job name now pop_id secs id σ) as [σ1 j]. cbn [fst] in H1.
  specialize (IH σ1 Hni H1). by destruct (lease_jobs name now pop_id secs ids σ1).
Qed.

(** ** What the last stage hands out *)

Lemma lease_jobs_handed name now pop_id secs ids σ :
  Forall no_colon ids -> NoDup ids ->
  let '(σ', jobs) := lease_jobs name now pop_id secs ids σ in
  map pj_id jobs `sublist_of` ids /\
  hash σ' (job_data_hash_name name) = hash σ (job_data_hash_name name) /\
  (∀ j, j ∈ jobs -> hash σ (job_data_hash_name name) !! pj_id j = Some (pj_data j) /\
     held name σ' (pj_id j) (pj_lease_token j)) /\
  (∀ id data, id ∈ ids -> hash σ (job_data_hash_name name) !! id = Some data -> id ∈ map pj_id jobs).
Proof.
  intros Hids. revert σ. induction Hids as [|id ids Hc Hids IH]; intros σ Hn; cbn [lease_jobs].
  { split_and!; [done|done|by intros j Hj%elem_of_nil|by intros ?? ?%elem_of_nil]. }
  apply NoDup_cons in Hn as [Hni Hn].
  destruct (lease_job_views name now pop_id secs id σ) as (_ & Hdata & _).
  destruct (hash σ (job_data_hash_name name) !! id) as [data|] eqn:Edata.
  - destruct (lease_job_pipeline name now pop_id secs id σ data Edata) as (n & cr & E).
    rewrite E in Hdata |- *. cbn [fst] in Hdata. set (σ1 := prun _ σ) in *.
    assert (held name σ1 id (lease_token_of now id n pop_id)) as Hh.
    { destruct (lease_pipeline_token name now pop_id secs id n σ Hc) as (T1 & T2 & _). split_and!; [|done|done].
      change (is_Some (pl_active (places_of name σ1) !! id)). subst σ1. rewrite lease_pipeline_places.
      cbn [pl_active]. by rewrite lookup_insert_eq. }
    pose proof (lease_jobs_held name now pop_id secs ids id _ σ1 Hids Hc Hni Hh) as Hh'.
    specialize (IH σ1 Hn). destruct (lease_jobs name now pop_id secs ids σ1) as [σ2 jobs].
    destruct IH as (I1 & I2 & I3 & I4). rewrite Hdata in I2, I3, I4. split_and!; [|done| |].
    + cbn [map pj_id]. by constructor.
    + intros j [->|Hj]%elem_of_cons; [done|]. by apply I3.
    + intros x d [->|Hx]%elem_of_cons Hd; [by left|]. right. by eapply I4.
  - unfold lease_job in *. rewrite Edata in *. cbn [fst] in *. specialize (IH σ Hn).
    destruct (lease_jobs name now pop_id secs ids σ) as [σ2 jobs]. destruct IH as (I1 & I2 & I3 & I4).
    split_and!; [by constructor|done|done|]. intros x d [->|Hx]%elem_of_cons Hd; [congruence|]. by eapply I4.
Qed.

(** ** No stage brings a job back *)

Lemma reclaim_live name id x σ :
  is_Some (hash σ (active_hash_name name) !! id) ->
  live (places_of name (reclaim name id σ)) x -> live (places_of name σ) x.
Proof.
  intros Ha. rewrite reclaim_places. unfold live. cbn [pl_pending pl_delayed pl_active].
  intros [[->|Hx]%elem_of_cons|[Hx|Hx]]; [by right; right|by left|by right; left|].
  right. right. rewrite lookup_delete in Hx. case_decide; [by destruct Hx|done].
Qed.

Lemma expire_leases_live name ids x σ :
  NoDup ids -> (∀ id, id ∈ ids -> is_Some (hash σ (active_hash_name name) !! id)) ->
  live (places_of name (expire_leases name ids σ).1) x -> live (places_of name σ) x.
Proof.
  revert σ. induction ids as [|id ids IH]; intros σ Hn Hin; cbn [expire_leases]; [done|].
  apply NoDup_cons in Hn as [Hni Hn]. destruct (lease_alive name σ id); [apply IH; [done|set_solver]|].
  intros Hl. apply (reclaim_live name id); [apply Hin; set_solver|].
  apply IH; [done| |by destruct (expire_leases name ids (reclaim name id σ))].
  intros y Hy. change (is_Some (pl_active (places_of name (reclaim name id σ)) !! y)). rewrite reclaim_places.
  cbn [pl_active]. rewrite lookup_delete_ne by set_solver. apply Hin. set_solver.
Qed.

(** The views after one cancellation. *)
Lemma cancel_one_places name now id σ :
  let v := places_of name σ in
  let v' := places_of name (cancel_one name now id σ).1 in
  (∀ x, live v' x -> live v x) /\ pl_active v' = pl_active v /\
  (∀ x, x <> id -> pl_delayed v' !! x = pl_delayed v !! x /\ (x ∈ pl_cancel v' <-> x ∈ pl_cancel v) /\
    (x ∈ pl_failed v \/ x ∈ pl_success v -> x ∈ pl_failed v' \/ x ∈ pl_success v')) /\
  (is_Some (pl_active v !! id) \/ (¬ live v' id /\ (id ∈ pl_failed v' \/ id ∈ pl_success v'))).
Proof.
  cbn zeta. set (v := places_of name σ). unfold cancel_one, has_id. case_match eqn:E; cbn [fst].
  - rewrite !andb_true_iff, !negb_true_iff, !bool_decide_eq_false, bool_decide_eq_true in E.
    destruct E as [[Hp Hd] Hs].
    replace (places_of name _) with (mkPlaces (pl_pending v) (pl_delayed v) (pl_active v)
      (pl_dedupe v) (pl_cancel v ∖ {[id]}) (pl_success v) (pl_failed v)) by (by places_tac).
    unfold live. cbn [pl_pending pl_delayed pl_active pl_cancel pl_failed pl_success].
    split_and!; [done|done|set_solver|].
    destruct (decide (is_Some (pl_active v !! id))); [by left|right]. split; [|by right].
    intros [?|[?|?]]; auto.
  - replace (places_of name _) with (mkPlaces (filter (fun x => x <> id) (pl_pending v))
      (delete id (pl_delayed v)) (pl_active v) (pl_dedupe v) (pl_cancel v ∖ {[id]}) (pl_success v)
      (id :: filter (fun x => x <> id) (pl_failed v))) by (by places_tac).
    unfold live. cbn [pl_pending pl_delayed pl_active pl_cancel pl_failed pl_success].
    split_and!; [|done| |].
    + intros x. rewrite list_elem_of_filter, lookup_delete. 
      intros [[_ ?]|[Hx|?]]; [auto| |auto]. case_decide; [by destruct Hx|auto].
    + intros x Hne. rewrite lookup_delete_ne by done. rewrite elem_of_cons, list_elem_of_filter. set_solver.
    + destruct (decide (is_Some (pl_active v !! id))); [by left|right].
      rewrite list_elem_of_filter, lookup_delete_eq, elem_of_cons. split; [|by left; left].
      intros [[]|[[]|]]; done.
Qed.

Lemma process_cancellations_live name now ids x σ :
  live (places_of name (process_cancellations name now ids σ).1) x -> live (places_of name σ) x.
Proof.
  revert σ. induction ids as [|id ids IH]; intros σ; cbn [process_cancellations]; [done|].
  case_bool_decide; [apply IH|]. destruct (cancel_one_places name now id σ) as (Hl & _).
  destruct (cancel_one name now id σ) as [σ1 b]. cbn [fst] in Hl. intros Hx. apply Hl, IH.
  by destruct (process_cancellations name now ids σ1).
Qed.

Lemma process_cancellations_other name now ids x σ :
  x ∉ ids ->
  let v := places_of name σ in
  let v' := places_of name (process_cancellations name now ids σ).1 in
  pl_delayed v' !! x = pl_delayed v !! x /\
  (x ∈ pl_failed v \/ x ∈ pl_success v -> x ∈ pl_failed v' \/ x ∈ pl_success v').
Proof.
  cbn zeta. revert σ. induction ids as [|id ids IH]; intros σ Hni; cbn [process_cancellations]; [done|].
  apply not_elem_of_cons in Hni as [Hne Hni]. case_bool_decide; [by apply IH|].
  destruct (cancel_one_places name now id σ) as (_ & _ & Ho & _).
  destruct (Ho x Hne) as (O1 & _ & O2). destruct (cancel_one name now id σ) as [σ1 b]. cbn [fst] in *.
  destruct (IH σ1 Hni) as [I1 I2]. destruct (process_cancellations name now ids σ1). cbn [fst] in *.
  rewrite I1, O1. split; [done|auto].
Qed.

Lemma process_cancellations_hit name now ids id σ :
  NoDup ids -> id ∈ ids -> hash σ (active_hash_name name) !! id = None ->
  let v' := places_of name (process_cancellations name now ids σ).1 in
  ¬ live v' id /\ (id ∈ pl_failed v' \/ id ∈ pl_success v').
Proof.
  cbn zeta. revert σ. induction ids as [|y ids IH]; intros σ Hn Hin Ha; [by apply elem_of_nil in Hin|].
  apply NoDup_cons in Hn as [Hni Hn]. cbn [process_cancellations].
  destruct (cancel_one_places name now y σ) as (Hl & Hact & Ho & Hy). cbn zeta in *.
  case_bool_decide as Hactive.
  { apply elem_of_cons in Hin as [->|Hin]; [by rewrite Ha in Hactive; destruct Hactive|by apply IH]. }
  destruct (decide (id = y)) as [->|Hne].
  - destruct Hy as [Hy|[Hnl Hf]]; [by destruct Hactive|].
    pose proof (process_cancellations_live name now ids y (cancel_one name now y σ).1) as L1.
    pose proof (process_cancellations_other name now ids y (cancel_one name now y σ).1 Hni) as [_ L2].
    destruct (cancel_one name now y σ) as [σ1 b]. cbn [fst] in *.
    destruct (process_cancellations name now ids σ1). cbn [fst] in *. auto.
  - assert (id ∈ ids) as Hin' by set_solver.
    assert (hash (cancel_one name now y σ).1 (active_hash_name name) !! id = None) as Ha'.
    { change (pl_active (places_of name (cancel_one name now y σ).1) !! id = None). by rewrite Hact. }
    destruct (cancel_one name now y σ) as [σ1 b]. cbn [fst] in *. specialize (IH σ1 Hn Hin' Ha').
    by destruct (process_cancellations name now ids σ1).
Qed.

Lemma release_all_views name ids σ x :
  NoDup ids -> (∀ id, id ∈ ids -> is_Some (zset σ (delayed_zset_name name) !! id)) ->
  let v := places_of name σ in
  let v' := places_of name (foldl (fun σ id => release_delayed name id σ) σ ids) in
  (live v' x -> live v x) /\ (x ∉ ids -> pl_delayed v' !! x = pl_delayed v !! x) /\
  pl_failed v' = pl_failed v /\ pl_success v' = pl_success v.
Proof.
  cbn zeta. revert σ. induction ids as [|id ids IH]; intros σ Hn Hin; cbn [foldl]; [done|].
  apply NoDup_cons in Hn as [Hni Hn]. pose proof (release_delayed_places name id σ) as E. cbn zeta in E.
  destruct (IH (release_delayed name id σ)) as (I1 & I2 & I3 & I4); [done| |].
  { intros y Hy. change (is_Some (pl_delayed (places_of name (release_delayed name id σ)) !! y)).
    rewrite E. cbn [pl_delayed]. rewrite lookup_delete_ne by set_solver. apply Hin. set_solver. }
  rewrite I3, I4. rewrite E in *. cbn [pl_failed pl_success pl_delayed] in *. split_and!; [|..|done|done].
  - intros Hl%I1. unfold live in *. cbn [pl_pending pl_delayed pl_active] in Hl.
    assert (is_Some (pl_delayed (places_of name σ) !! id)) as Hd by (apply Hin; set_solver).
    rewrite lookup_delete in Hl. destruct Hl as [Hl|[Hl|Hl]]; [|case_decide; [by destruct Hl|auto]|auto].
    assert (x = id \/ x ∈ pl_pending (places_of name σ)) as [->|?] by (case_decide; set_solver); auto.
  - intros [Hne Hx]%not_elem_of_cons. rewrite I2 by done. by rewrite lookup_delete_ne.
Qed.

Lemma expire_leases_rest name ids σ :
  let v := places_of name σ in
  let v' := places_of name (expire_leases name ids σ).1 in
  pl_delayed v' = pl_delayed v /\ pl_cancel v' = pl_cancel v /\
  pl_success v' = pl_success v /\ pl_failed v' = pl_failed v.
Proof.
  cbn zeta. revert σ. induction ids as [|id ids IH]; intros σ; cbn [expire_leases]; [done|].
  destruct (lease_alive name σ id); [apply IH|]. specialize (IH (reclaim name id σ)).
  rewrite reclaim_places in IH. by destruct (expire_leases name ids (reclaim name id σ)).
Qed.

Lemma expire_leases_gone name ids x σ :
  hash σ (active_hash_name name) !! x = None ->
  hash (expire_leases name ids σ).1 (active_hash_name name) !! x = None.
Proof.
  revert σ. induction ids as [|id ids IH]; intros σ Hx; cbn [expire_leases]; [done|].
  destruct (lease_alive name σ id); [by apply IH|].
  assert (hash (expire_leases name ids (reclaim name id σ)).1 (active_hash_name name) !! x = None) as H1.
  { apply IH. change (pl_active (places_of name (reclaim name id σ)) !! x = None). rewrite reclaim_places.
    cbn [pl_active]. rewrite lookup_delete. case_decide; [done|exact Hx]. }
  by destruct (expire_leases name ids (reclaim name id σ)).
Qed.

Lemma expire_leases_dead name ids x σ :
  Forall no_colon ids -> x ∈ ids -> lease_alive name σ x = false ->
  hash (expire_leases name ids σ).1 (active_hash_name name) !! x = None.
Proof.
  intros Hids. revert σ. induction Hids as [|id ids Hc Hids IH]; intros σ Hin Hd; [by apply elem_of_nil in Hin|].
  cbn [expire_leases]. destruct (decide (x = id)) as [->|Hne].
  - rewrite Hd. assert (hash (expire_leases name ids (reclaim name id σ)).1 (active_hash_name name) !! id = None) as H1.
    { apply expire_leases_gone. change (pl_active (places_of name (reclaim name id σ)) !! id = None).
      rewrite reclaim_places. cbn [pl_active]. by rewrite lookup_delete_eq. }
    by destruct (expire_leases name ids (reclaim name id σ)).
  - assert (x ∈ ids) as Hin' by set_solver. destruct (lease_alive name σ id); [by apply IH|].
    rewrite Forall_forall in Hids. pose proof (Hids x Hin') as Hx.
    destruct (reclaim_leases name id σ Hc) as [S1 S2].
    assert (lease_alive name (reclaim name id σ) x = false) as Hd'.
    { unfold lease_alive in *. specialize (S2 x Hx Hne). unfold current_token in S2. rewrite S2.
      destruct (hash σ (job_meta_hash_name name x) !! "lease_token") as [t|]; [|done].
      by rewrite <- (exists_key_same _ _ _ (S1 x t Hx)). }
    specialize (IH _ Hin' Hd'). by destruct (expire_leases name ids (reclaim name id σ)).
Qed.

(** ** The whole poll *)

Record pop_trace {Fg : Forgotten} (name : string) (now : N) (pop_id : string) (n : nat) (secs : N) (σ : redis)
    (σ1 σ2 σ3 σ4 : redis) (ids : list string) (σ5 : redis) (jobs : list popped_job) : Prop := {
  pt_expire : σ1 = (expire_leases name (map_to_list (hash σ (active_hash_name name))).*1 σ).1;
  pt_cancel : σ2 = (process_cancellations name now
                      (elements (sett σ1 (pending_cancellation_set_name name))) σ1).1;
  pt_release : σ3 = foldl (fun σ id => release_delayed name id σ) σ2 (delayed_due name now σ2);
  pt_pop : pop_ids name n σ3 = (σ4, ids);
  pt_lease : lease_jobs name now pop_id secs ids σ4 = (σ5, jobs);
  pt_active : Forall no_colon (map_to_list (hash σ (active_hash_name name))).*1;
  pt_requests : Forall no_colon (elements (sett σ1 (pending_cancellation_set_name name)));
  pt_due : Forall no_colon (delayed_due name now σ2);
  pt_popped : ∀ id, id ∈ ids -> no_colon id /\ popped name σ4 id;
  pt_once : NoDup ids;
  pt_ok3 : queue_ok name σ3
}.

Lemma active_ids_spec name σ id :
  id ∈ (map_to_list (hash σ (active_hash_name name))).*1 <-> is_Some (hash σ (active_hash_name name) !! id).
Proof.
  rewrite list_elem_of_fmap. split.
  - intros ([x a] & -> & Hx). apply elem_of_map_to_list in Hx. by eexists.
  - intros [a Ha]. exists (id, a). split; [done|]. by apply elem_of_map_to_list.
Qed.

Lemma pop_script_trace {Fg : Forgotten} name now pop_id n secs σ σ5 jobs cancelled timed_out :
  queue_ok name σ -> pop_script name now pop_id n secs σ = (σ5, (jobs, cancelled, timed_out)) ->
  ∃ σ1 σ2 σ3 σ4 ids, pop_trace name now pop_id n secs σ σ1 σ2 σ3 σ4 ids σ5 jobs.
Proof.
  intros Hq. unfold pop_script.
  assert (queue_ok name (expire_leases name (map_to_list (hash σ (active_hash_name name))).*1 σ).1) as Q1.
  { apply expire_leases_ok; [done|apply NoDup_fst_map_to_list|]. intros id. apply active_ids_spec. }
  destruct (expire_leases _ _ _) as [σ1 timed] eqn:E1. cbn [fst] in Q1.
  assert (Forall no_colon (elements (sett σ1 (pending_cancellation_set_name name)))) as Hreq.
  { apply Forall_forall. intros id Hid%elem_of_elements. apply (po_plain _ (proj1 Q1)). auto. }
  pose proof (process_cancellations_ok name now _ σ1 Q1 Hreq) as Q2.
  destruct (process_cancellations _ _ _ _) as [σ2 canc] eqn:E2. cbn [fst] in Q2.
  destruct (delayed_due_spec name now σ2) as [Hn Hin].
  assert (∀ id, id ∈ delayed_due name now σ2 -> is_Some (zset σ2 (delayed_zset_name name) !! id)) as Hdue.
  { intros id (s & Hs & _)%Hin. by eexists. }
  pose proof (release_all_ok name _ σ2 Q2 Hn Hdue) as Q3.
  pose proof (pop_ids_ok name n _ Q3) as Q4. destruct (pop_ids _ _ _) as [σ4 ids] eqn:E4.
  destruct Q4 as ([P4 _] & Hn4 & Hpop). destruct (lease_jobs _ _ _ _ _ _) as [σ6 jobs'] eqn:E5.
  intros [= -> -> _ _]. eexists σ1, σ2, _, σ4, ids. split; try done.
  - by rewrite E1.
  - by rewrite E2.
  - apply Forall_forall. intros id Hid%active_ids_spec. apply (live_plain name σ); [apply Hq|]. by right; right.
  - apply Forall_forall. intros id Hid%Hdue. apply (live_plain name σ2); [apply Q2|]. by right; left.
  - intros id Hid. destruct (Hpop id Hid) as [Hd Hnl]. split; [|done]. apply (po_plain _ P4). by left.
Qed.

Lemma lease_jobs_places name now pop_id secs ids σ :
  let v := places_of name σ in
  let v' := places_of name (lease_jobs name now pop_id secs ids σ).1 in
  pl_pending v' = pl_pending v /\ pl_delayed v' = pl_delayed v /\
  pl_success v' = pl_success v /\ pl_failed v' = pl_failed v /\
  (∀ x, live v' x -> live v x \/ x ∈ ids).
Proof.
  cbn zeta. revert σ. induction ids as [|id ids IH]; intros σ; cbn [lease_jobs]; [by auto 10|].
  destruct (hash σ (job_data_hash_name name) !! id) as [data|] eqn:Edata.
  - destruct (lease_job_pipeline name now pop_id secs id σ data Edata) as (n & cr & ->).
    specialize (IH (prun (lease_pipeline name now pop_id secs id n) σ)).
    destruct (lease_jobs _ _ _ _ ids _) as [σ2 jobs]. rewrite lease_pipeline_places in IH.
    cbn [fst pl_pending pl_delayed pl_success pl_failed] in *. destruct IH as (-> & -> & -> & -> & IH).
    split_and!; [done..|]. intros x [Hx|Hx]%IH; [|right; set_solver].
    unfold live in *. cbn [pl_pending pl_delayed pl_active] in Hx. rewrite lookup_insert in Hx.
    destruct Hx as [?|[?|Hx]]; [by auto..|]. case_decide; [right; set_solver|auto].
  - unfold lease_job. rewrite Edata. specialize (IH σ). destruct (lease_jobs _ _ _ _ ids _) as [σ2 jobs].
    destruct IH as (? & ? & ? & ? & IH). split_and!; [done..|]. intros x [Hx|Hx]%IH; [auto|set_solver].
Qed.

Section Trace.
Context {Fg : Forgotten} (name : string) (now : N) (pop_id : string) (n : nat) (secs : N)
  (σ σ1 σ2 σ3 σ4 : redis) (ids : list string) (σ5 : redis) (jobs : list popped_job).
Context (Ht : pop_trace name now pop_id n secs σ σ1 σ2 σ3 σ4 ids σ5 jobs).

Lemma trace_held_before_lease id token : no_colon id -> held name σ id token -> held name σ4 id token.
Proof using Ht.
  intros Hc Hh. destruct Ht as [E1 E2 E3 E4 E5 Ha Hreq Hdue _ _ _].
  change σ4 with (σ4, ids).1. rewrite <- E4. apply pop_ids_held; [done|].
  destruct (release_neutral name _ σ2 Hdue) as (p & Hp & Ep). rewrite E3, Ep.
  apply held_neutral; [done|done|].
  destruct (process_cancellations_neutral name now _ σ1 Hreq) as (q & Hq & Eq). rewrite E2, Eq.
  apply held_neutral; [done|done|]. rewrite E1. by apply expire_leases_held.
Qed.

Lemma trace_due id : id ∈ delayed_due name now σ2 -> is_Some (zset σ2 (delayed_zset_name name) !! id).
Proof using. intros (s & Hs & _)%delayed_due_spec. by eexists. Qed.

Lemma trace_live2 id : live (places_of name σ3) id -> live (places_of name σ2) id.
Proof using Ht.
  rewrite (pt_release _ _ _ _ _ _ _ _ _ _ _ _ _ Ht).
  apply release_all_views; [apply delayed_due_spec|apply trace_due].
Qed.

Lemma trace_live id : live (places_of name σ3) id -> live (places_of name σ) id.
Proof using Ht.
  intros Hl%trace_live2. destruct Ht as [E1 E2 _ _ _ _ _ _ _ _ _].
  rewrite E2 in Hl. apply process_cancellations_live in Hl. rewrite E1 in Hl.
  apply expire_leases_live in Hl; [done|apply NoDup_fst_map_to_list|intros y; apply active_ids_spec].
Qed.

Lemma trace_ids id : id ∈ ids -> live (places_of name σ3) id /\ ¬ live (places_of name σ4) id.
Proof using Ht.
  destruct Ht as [_ _ _ E4 _ _ _ _ Hpop _ _]. intros Hid. split; [|by apply Hpop].
  pose proof (pop_ids_spec name n σ3) as H. rewrite E4 in H. destruct H as (-> & _ & _). left.
  cbn [places_of pl_pending]. rewrite <- (take_drop n (lst σ3 (pending_list_name name))). set_solver.
Qed.

Lemma trace_jobs :
  length jobs <= n /\ NoDup (map pj_id jobs) /\ (∀ j, j ∈ jobs -> pj_id j ∈ ids) /\
  (∀ j, j ∈ jobs -> hash σ5 (job_data_hash_name name) !! pj_id j = Some (pj_data j) /\
     held name σ5 (pj_id j) (pj_lease_token j)).
Proof using Ht.
  destruct Ht as [_ _ _ E4 E5 _ _ _ Hpop Hn _].
  pose proof (lease_jobs_handed name now pop_id secs ids σ4) as H. rewrite E5 in H.
  destruct H as (H1 & H2 & H3 & _); [apply Forall_forall; intros id Hid; by apply Hpop|done|].
  pose proof (pop_ids_spec name n σ3) as H. rewrite E4 in H. destruct H as (Hids & _ & _). split_and!.
  - rewrite <- (length_map pj_id jobs). etrans; [by apply sublist_length|]. rewrite Hids, length_take. lia.
  - by eapply sublist_NoDup.
  - intros j Hj. eapply sublist_subseteq; [done|]. by apply list_elem_of_fmap_2.
  - intros j Hj. rewrite H2. by apply H3.
Qed.

Lemma trace_held_after id token :
  no_colon id -> held name σ4 id token -> held name σ5 id token /\ id ∉ map pj_id jobs.
Proof using Ht.
  intros Hc Hh. assert (id ∉ ids) as Hni.
  { intros Hid%trace_ids. destruct Hid as [_ Hnl]. apply Hnl. right. right. apply Hh. }
  split.
  - pose proof Ht as [_ _ _ _ E5 _ _ _ Hpop _ _]. change σ5 with (σ5, jobs).1. rewrite <- E5.
    apply lease_jobs_held; try done. apply Forall_forall. intros x Hx. by apply Hpop.
  - intros (j & -> & Hj)%list_elem_of_fmap. by apply Hni, trace_jobs.
Qed.

Lemma trace_rest :
  pl_delayed (places_of name σ5) = pl_delayed (places_of name σ3) /\
  pl_success (places_of name σ5) = pl_success (places_of name σ2) /\
  pl_failed (places_of name σ5) = pl_failed (places_of name σ2) /\
  (∀ x, live (places_of name σ5) x -> live (places_of name σ3) x).
Proof using Ht.
  pose proof Ht as [_ _ E3 E4 E5 _ _ _ _ _ _].
  pose proof (lease_jobs_places name now pop_id secs ids σ4) as L. rewrite E5 in L.
  pose proof (pop_ids_places name n σ3) as P. rewrite E4 in P. cbn zeta in P, L. cbn [fst] in L.
  destruct L as (L1 & L2 & L3 & L4 & L5). rewrite P in L2, L3, L4.
  destruct (release_all_views name (delayed_due name now σ2) σ2 "") as (_ & _ & R3 & R4);
    [apply delayed_due_spec|apply trace_due|].
  rewrite <- E3 in R3, R4. cbn [pl_delayed pl_success pl_failed] in *.
  split_and!; [done|congruence|congruence|]. intros x [Hx|Hx]%L5; [|by apply trace_ids].
  rewrite P in Hx. unfold live in *. cbn [pl_pending pl_delayed pl_active] in Hx.
  destruct Hx as [Hx|Hx]; [left|by right]. by apply (sublist_subseteq _ _ (sublist_drop _ n)).
Qed.
End Trace.
