(* ===== verification/QueueClaims.v ===== *)
(** What the job queue guarantees. *)

From Stdlib Require Import String Ascii NArith Lia.
From stdpp Require Import base gmap strings list fin_maps relations.
From S2P Require Import Prelude Redis RedisProg Json QueueTypes Queue QueueInv.
From S2P Require Import QueueSteps QueuePop.

(** ** The invariant *)


(** ** Commits *)

Definition committed_at (lease_key : string) (p : pipeline) (σe σ' : redis) : Prop :=
  exists_key σe lease_key = true /\ pipe_ok p = true /\ σ' = prun p σe.

(** The outcome of a lease-protected commit among the foreign steps [es]. *)
Definition commit_outcome (lease_key : string) (p : pipeline) (σ : redis) (es : list env_step)
    (out : twmq_result bool) (σ' : redis) : Prop :=
  let σe := run_steps es σ in
  match out with
  | Ok true => committed_at lease_key p σe σ'
  | Ok false => σ' = σe /\ ∃ es1 es2, es = es1 ++ es2 /\ exists_key (run_steps es1 σ) lease_key = false
  | Err _ => σ' = σe \/ committed_at lease_key p σe σ'
  end.

Lemma commit_outcome_prefix k p σ es0 es out σ' :
  commit_outcome k p (run_steps es0 σ) es out σ' -> commit_outcome k p σ (es0 ++ es) out σ'.
Proof.
  unfold commit_outcome. rewrite run_steps_app. destruct out as [[]|]; [done| |done].
  intros (-> & es1 & es2 & -> & Hno). split; [done|]. exists (es0 ++ es1), es2.
  by rewrite app_assoc, run_steps_app.
Qed.

Lemma watched_lease es c σ k :
  k ∈ watched c -> (∀ s, s ∈ es -> env_step_ok s) -> dirty (conn_env es c) = false ->
  exists_key (run_steps es σ) k = exists_key σ k.
Proof.
  intros Hw Hok Hd. unfold conn_env in Hd. cbn [dirty] in Hd. apply orb_false_iff in Hd as [_ Hd].
  apply touches_false_untouched in Hd. symmetry. apply exists_key_same.
  by apply (untouched_agree _ _ σ Hok Hd).
Qed.

Lemma run_exists_read {E} `{FromRedis E} k sch c σ r sch' c' σ' :
  run (read (E:=E) (fun σ => Ok (exists_key σ k))) sch c σ = (r, (sch', c', σ')) ->
  ∃ pre, sch = pre ++ sch' /\ σ' = run_steps (sched_steps pre) σ /\ c' = conn_env (sched_steps pre) c /\
    (r = Ok (exists_key σ' k) \/ ∃ e, r = Err e).
Proof.
  unfold read. cbn [run]. destruct (next_slot sch) as [sl sch1] eqn:Hs.
  destruct (next_slot_split _ _ _ Hs) as (pre & -> & Hpre).
  destruct (sl_fault sl) as [[]|]; cbn [with_fault lift_redis]; intros Hr; destruct (next_slot sch1);
    simplify_eq; exists pre; rewrite Hpre; split_and!; eauto.
Qed.

Lemma commit_attempts_exact k p n sch c σ out sch' c' σ' :
  sched_ok sch -> run (commit_attempts k p n) sch c σ = (out, (sch', c', σ')) ->
  ∃ pre, sch = pre ++ sch' /\ commit_outcome k p σ (sched_steps pre) out σ'.
Proof.
  revert sch c σ. induction n as [|n IH]; intros sch c σ Hok Hrun.
  { cbn [commit_attempts] in Hrun. rewrite run_ret in Hrun. simplify_eq. exists []. split; [done|by left]. }
  cbn [commit_attempts] in Hrun. rewrite run_bind in Hrun.
  destruct (run (watch [k]) sch c σ) as [r1 [[sch1 c1] σ1]] eqn:E1.
  apply run_watch in E1 as (pre1 & -> & -> & Hr1).
  destruct Hr1 as [[-> Hw]|[e ->]];
    [|rewrite run_ret in Hrun; simplify_eq; exists pre1; split; [done|by left]].
  rewrite run_bind in Hrun.
  destruct (run (read _) sch1 c1 _) as [r2 [[sch2 c2] σ2]] eqn:E2.
  apply run_exists_read in E2 as (pre2 & -> & -> & -> & Hr2).
  rewrite <- run_steps_app, <- sched_steps_app in Hrun, Hr2.
  destruct Hr2 as [->|[e ->]];
    [|rewrite run_ret in Hrun; simplify_eq; exists (pre1 ++ pre2); rewrite app_assoc; split; [done|by left]].
  set (es := sched_steps (pre1 ++ pre2)) in *.
  destruct (exists_key (run_steps es σ) k) eqn:Ek; cbn [negb] in Hrun; rewrite run_bind in Hrun.
  - destruct (run (exec p) sch2 _ _) as [r3 [[sch3 c3] σ3]] eqn:E3.
    apply run_exec in E3 as (pre3 & -> & E3). cbn zeta in E3.
    assert (∀ s, s ∈ sched_steps pre3 -> env_step_ok s) as Hok3.
    { intros s Hin. apply Hok. rewrite !sched_steps_app. set_solver. }
    assert (dirty (conn_env (sched_steps pre3) (conn_env (sched_steps pre2) c1)) = false ->
      exists_key (run_steps (sched_steps pre3) (run_steps es σ)) k = true) as Halive.
    { intros Hd. erewrite watched_lease; [exact Ek| |exact Hok3|exact Hd]. cbn. rewrite Hw. set_solver. }
    destruct E3 as [(-> & Hd & Hp & ->)|[(-> & ->)|(e & -> & E3)]].
    + rewrite run_ret in Hrun. simplify_eq. exists ((pre1 ++ pre2) ++ pre3).
      rewrite <- !app_assoc. split; [done|]. rewrite app_assoc, sched_steps_app. apply commit_outcome_prefix.
      split_and!; auto.
    + apply IH in Hrun as (pre4 & -> & Hout); [|intros s Hin; apply Hok; rewrite !sched_steps_app; set_solver].
      exists ((pre1 ++ pre2) ++ pre3 ++ pre4). rewrite <- !app_assoc. split; [done|].
      rewrite app_assoc, (sched_steps_app (pre1 ++ pre2)), (sched_steps_app pre3). by do 2 apply commit_outcome_prefix.
    + rewrite run_ret in Hrun. simplify_eq. exists ((pre1 ++ pre2) ++ pre3).
      rewrite <- !app_assoc. split; [done|]. rewrite app_assoc, sched_steps_app. apply commit_outcome_prefix.
      destruct E3 as [->|(Hd & Hp & ->)]; [by left|right; split_and!; auto].
  - destruct (run unwatch sch2 _ _) as [r3 [[sch3 c3] σ3]] eqn:E3.
    apply run_unwatch in E3 as (pre3 & -> & -> & Hr3).
    assert (sch' = sch3 /\ σ' = run_steps (sched_steps pre3) (run_steps es σ) /\
      (out = Ok false \/ ∃ e, out = Err e)) as (-> & -> & Hout).
    { destruct Hr3 as [->|[e ->]]; rewrite run_ret in Hrun; simplify_eq; eauto. }
    exists ((pre1 ++ pre2) ++ pre3). rewrite <- !app_assoc. split; [done|].
    rewrite app_assoc, sched_steps_app. fold es. unfold commit_outcome. rewrite run_steps_app.
    destruct Hout as [->|[e ->]]; [|by left]. split; [done|]. by exists es, (sched_steps pre3).
Qed.

(** C8: A lease-protected commit among arbitrary clients and transport faults.  Committed
    means the whole pipeline was applied once, in a state in which the lease key existed;
    not committed means the lease was seen missing and nothing was written; an error
    leaves either nothing or that one application behind. *)
Theorem commit_if_leased_exact k p sch c σ out sch' c' σ' :
  sched_ok sch -> run (commit_if_leased k p) sch c σ = (out, (sch', c', σ')) ->
  ∃ pre, sch = pre ++ sch' /\ commit_outcome k p σ (sched_steps pre) out σ'.
Proof. apply commit_attempts_exact. Qed.

(** ** Completions *)

Section Completions.
Context {T : Type} `{Json T} {Output ErrorData : Type} `{Json Output}.
Context (on_success : BorrowedJob T -> Output -> pipeline)
  (on_nack : BorrowedJob T -> ErrorData -> option Duration -> RequeuePosition -> pipeline)
  (on_fail : BorrowedJob T -> ErrorData -> pipeline)
  (encode : JobErrorRecord ErrorData -> twmq_result string).
Context (name : string) (options : QueueOptions).

(** A completion whose lease is missing, and stays so, adds nothing to what the other
    clients do. *)
Lemma stale_completion job res sch c σ out sch' c' σ' :
  exists_key σ (lease_key_name name (job_id (bj_job job)) (bj_lease_token job)) = false ->
  sched_ok sch ->
  untouched (fun k => k = lease_key_name name (job_id (bj_job job)) (bj_lease_token job)) (sched_steps sch) ->
  run (complete_job on_success on_nack on_fail encode name options job res) sch c σ = (out, (sch', c', σ')) ->
  ∃ pre, sch = pre ++ sch' /\ σ' = run_steps (sched_steps pre) σ.
Proof.
  set (k := lease_key_name _ _ _). intros Hno Hok Hun. unfold complete_job. cbn [run].
  destruct (next_slot sch) as [sl sch1] eqn:Hs. destruct (next_slot_split _ _ _ Hs) as (pre1 & -> & Hpre).
  destruct (completion_pipeline _ _ _ _ _ _ _ _ _) as [p|e];
    [|rewrite run_ret; intros [= <- <- <- <-]; exists pre1; by rewrite Hpre].
  rewrite run_bind. fold k.
  destruct (run (commit_if_leased k p) sch1 _ _) as [r [[sch2 c2] σ2]] eqn:E.
  apply commit_attempts_exact in E as (pre2 & -> & Hout);
    [|intros s Hin; apply Hok; rewrite sched_steps_app; set_solver].
  rewrite sched_steps_app in Hun. apply untouched_app in Hun as [Hu1 Hu2].
  rewrite sched_steps_app in Hu2. apply untouched_app in Hu2 as [Hu2 _].
  assert (exists_key (run_steps (sched_steps pre2) (run_steps (sl_steps sl) σ)) k = false) as Hk.
  { rewrite <- Hpre, <- run_steps_app, <- Hno. symmetry. apply exists_key_same.
    apply (untouched_agree (fun k' => k' = k)); [|by apply untouched_app|done].
    intros s Hin. apply Hok. rewrite !sched_steps_app. set_solver. }
  assert ((∃ e, r = Err e) \/ r = Ok false) as Hr.
  { destruct r as [[]|e]; [|by right|left; eauto]. destruct Hout as [Hal _]. by rewrite Hal in Hk. }
  assert (σ2 = run_steps (sched_steps pre2) (run_steps (sl_steps sl) σ)) as ->.
  { destruct Hr as [[e ->]| ->]; [|by destruct Hout].
    destruct Hout as [?|[Hal _]]; [done|by rewrite Hal in Hk]. }
  intros Hrun. assert (sch2 = sch' /\ run_steps (sched_steps pre2) (run_steps (sl_steps sl) σ) = σ') as [-> <-].
  { destruct Hr as [[e ->]| ->]; rewrite run_ret in Hrun; by simplify_eq. }
  exists (pre1 ++ pre2). by rewrite <- app_assoc, sched_steps_app, run_steps_app, Hpre.
Qed.

(** C23: A lease completes its job at most once.  Once a completion of a lease (success,
    nack or failure) has committed, any further completion under the same lease, with
    whatever result, changes nothing, whatever the other clients and the network do. *)
Theorem lease_completes_once now job hook ops res σ sch c out sch' c' σ' :
  let id := job_id (bj_job job) in let token := bj_lease_token job in
  no_colon id -> completion_of (T:=T) (Output:=Output) encode name options now id token ops ->
  sched_ok sch -> untouched (fun k => k = lease_key_name name id token) (sched_steps sch) ->
  run (complete_job on_success on_nack on_fail encode name options job res) sch c
    (prun (hook ++ ops) σ) = (out, (sch', c', σ')) ->
  ∃ pre, sch = pre ++ sch' /\ σ' = run_steps (sched_steps pre) (prun (hook ++ ops) σ).
Proof.
  intros id token Hc Hof Hok Hun Hrun. eapply stale_completion; [|exact Hok|exact Hun|exact Hrun].
  exact (completion_releases encode name options now id token hook ops σ Hof Hc).
Qed.
End Completions.

(** ** Polls *)

(** C10: A poll hands out at most the requested number of jobs, each once; each was live
    and leased to nobody before the poll, and afterwards is active under exactly the
    lease that was handed out, with the stored data; and a job whose lease is alive stays
    with its holder. *)
Theorem pop_exclusive {Fg : Forgotten} name now pop_id batch_size secs σ σ' jobs cancelled timed_out :
  queue_ok name σ ->
  pop_script name now pop_id batch_size secs σ = (σ', (jobs, cancelled, timed_out)) ->
  length jobs <= batch_size /\ NoDup (map pj_id jobs) /\
  (∀ j, j ∈ jobs ->
     live (places_of name σ) (pj_id j) /\ (∀ token, ¬ lease_live name σ (pj_id j) token) /\
     held name σ' (pj_id j) (pj_lease_token j) /\
     hash σ' (job_data_hash_name name) !! pj_id j = Some (pj_data j)) /\
  (∀ id token, no_colon id -> lease_live name σ id token ->
     held name σ' id token /\ id ∉ map pj_id jobs).
Proof.
  intros Hq Hpop. destruct (pop_script_trace _ _ _ _ _ _ _ _ _ _ Hq Hpop) as (σ1 & σ2 & σ3 & σ4 & ids & Ht).
  destruct (trace_jobs _ _ _ _ _ _ _ _ _ _ _ _ _ Ht) as (T1 & T2 & T3 & T4).
  assert (∀ id token, no_colon id -> lease_live name σ id token ->
     held name σ' id token /\ id ∉ map pj_id jobs) as Hkeep.
  { intros id token Hc Hl. eapply trace_held_after; [exact Ht|done|].
    eapply trace_held_before_lease; [exact Ht|done|]. by apply lease_live_held. }
  split_and!; [done|done| |done]. intros j Hj. destruct (T4 j Hj) as [T5 T6].
  assert (live (places_of name σ) (pj_id j)) as Hlive.
  { eapply trace_live; [exact Ht|]. eapply trace_ids; [exact Ht|]. by apply T3. }
  split_and!; [done| |done|done]. intros token Hl.
  destruct (Hkeep (pj_id j) token) as [_ Hni]; [by apply (live_plain name σ), Hlive; apply Hq|done|].
  apply Hni. by apply list_elem_of_fmap_2.
Qed.

(** A requested cancellation wins.  A job whose cancellation was requested and whose
    lease is gone (nacked back, expired, or completed) is not handed out by the next poll;
    it ends up in no queue, and in the failed list unless it had succeeded. *)
Theorem cancelled_job_not_popped {Fg : Forgotten} name now pop_id batch_size secs σ σ' jobs cancelled timed_out id :
  queue_ok name σ -> id ∈ sett σ (pending_cancellation_set_name name) ->
  lease_alive name σ id = false ->
  pop_script name now pop_id batch_size secs σ = (σ', (jobs, cancelled, timed_out)) ->
  id ∉ map pj_id jobs /\ ¬ live (places_of name σ') id /\
  (id ∈ lst σ' (failed_list_name name) \/ id ∈ lst σ' (success_list_name name)).
Proof.
  intros Hq Hcan Hdead Hpop.
  destruct (pop_script_trace _ _ _ _ _ _ _ _ _ _ Hq Hpop) as (σ1 & σ2 & σ3 & σ4 & ids & Ht).
  pose proof Ht as [E1 E2 _ _ _ Hact _ _ _ _ _].
  destruct (expire_leases_rest name (map_to_list (hash σ (active_hash_name name))).*1 σ) as (_ & Rc & _ & _).
  rewrite <- E1 in Rc. cbn zeta in Rc.
  assert (hash σ1 (active_hash_name name) !! id = None) as Hna.
  { rewrite E1. destruct (hash σ (active_hash_name name) !! id) eqn:Ea; [|by apply expire_leases_gone].
    apply expire_leases_dead; [done| |done]. apply active_ids_spec. by rewrite Ea. }
  destruct (process_cancellations_hit name now (elements (sett σ1 (pending_cancellation_set_name name))) id σ1)
    as [Hnl Hf]; [apply NoDup_elements| |done|].
  { apply elem_of_elements. change (id ∈ pl_cancel (places_of name σ1)). by rewrite Rc. }
  rewrite <- E2 in Hnl, Hf. destruct (trace_rest _ _ _ _ _ _ _ _ _ _ _ _ _ Ht) as (_ & Rs & Rf & Rl).
  split_and!.
  - intros (j & -> & Hj)%list_elem_of_fmap. apply Hnl. eapply trace_live2; [exact Ht|].
    eapply trace_ids; [exact Ht|]. by eapply (trace_jobs _ _ _ _ _ _ _ _ _ _ _ _ _ Ht).
  - intros Hl%Rl. apply Hnl. by eapply trace_live2.
  - change (id ∈ pl_failed (places_of name σ') \/ id ∈ pl_success (places_of name σ')). by rewrite Rs, Rf.
Qed.

(** A delayed job waits.  A job delayed beyond the time of the poll, without a
    cancellation request, is not handed out and keeps its due time. *)
Theorem delayed_job_waits {Fg : Forgotten} name now pop_id batch_size secs σ σ' jobs cancelled timed_out id due :
  queue_ok name σ -> zset σ (delayed_zset_name name) !! id = Some due -> (now < due)%N ->
  id ∉ sett σ (pending_cancellation_set_name name) ->
  pop_script name now pop_id batch_size secs σ = (σ', (jobs, cancelled, timed_out)) ->
  id ∉ map pj_id jobs /\ zset σ' (delayed_zset_name name) !! id = Some due.
Proof.
  intros Hq Hdue Hlt Hcan Hpop.
  destruct (pop_script_trace _ _ _ _ _ _ _ _ _ _ Hq Hpop) as (σ1 & σ2 & σ3 & σ4 & ids & Ht).
  pose proof Ht as [E1 E2 E3 _ _ _ _ _ _ _ Q3].
  destruct (expire_leases_rest name (map_to_list (hash σ (active_hash_name name))).*1 σ) as (Rd & Rc & _ & _).
  rewrite <- E1 in Rd, Rc. cbn zeta in Rd, Rc.
  destruct (process_cancellations_other name now (elements (sett σ1 (pending_cancellation_set_name name))) id σ1)
    as [D2 _].
  { rewrite elem_of_elements. change (id ∉ pl_cancel (places_of name σ1)). by rewrite Rc. }
  rewrite <- E2, Rd in D2.
  destruct (release_all_views name (delayed_due name now σ2) σ2 id) as (_ & D3 & _);
    [apply delayed_due_spec|apply trace_due|].
  rewrite <- E3, D2 in D3. destruct (trace_rest _ _ _ _ _ _ _ _ _ _ _ _ _ Ht) as (R1 & _ & _ & _).
  assert (pl_delayed (places_of name σ3) !! id = Some due) as H3.
  { rewrite D3; [done|]. intros (s & Hs & Hle)%delayed_due_spec.
    change (pl_delayed (places_of name σ2) !! id = Some s) in Hs. rewrite D2 in Hs.
    cbn [places_of pl_delayed] in Hs. rewrite Hdue in Hs. simplify_eq. lia. }
  split.
  - intros (j & -> & Hj)%list_elem_of_fmap.
    assert (pj_id j ∈ ids) as Hin by (by eapply (trace_jobs _ _ _ _ _ _ _ _ _ _ _ _ _ Ht)).
    pose proof (pop_ids_spec name batch_size σ3) as P. rewrite (pt_pop _ _ _ _ _ _ _ _ _ _ _ _ _ Ht) in P.
    destruct P as (-> & _ & _).
    apply (sublist_subseteq _ _ (sublist_take _ batch_size)) in Hin.
    apply (po_pending_delayed _ (proj1 Q3)) in Hin. congruence.
  - change (pl_delayed (places_of name σ') !! id = Some due). by rewrite R1.
Qed.

(** ** Pushes *)

(** Pushing a job.  A fresh id is queued exactly once, at the tail of pending or delayed
    until its due time, and can be read back with its data and no attempts; a further push
    of the same id, with whatever data, delay and position, changes nothing. *)
Theorem push_once {T} `{Json T} name id data (d : T) now delay position σ :
  id ∉ sett σ (dedupe_set_name name) -> to_json d = Some data -> is_u64 now ->
  let σ' := (push_script name id data now delay position σ).1 in
  (if (0 <? delay)%N
   then zset σ' (delayed_zset_name name) = <[id := (now + delay)%N]> (zset σ (delayed_zset_name name)) /\
        lst σ' (pending_list_name name) = lst σ (pending_list_name name)
   else lst σ' (pending_list_name name) = lst σ (pending_list_name name) ++ [id] /\
        zset σ' (delayed_zset_name name) = zset σ (delayed_zset_name name)) /\
  (∃ processed_at finished_at,
     (run_alone (get_job name id) σ').1 = Ok (Some (mkJob id d 0 now processed_at finished_at))) /\
  (∀ data2 now2 delay2 position2,
     push_script name id data2 now2 delay2 position2 σ' = (σ', false)).
Proof.
  intros Hd Hdata Hnow σ'. pose proof (push_places name id data now delay position σ Hd) as Hp.
  cbn zeta in Hp. split_and!.
  - change (zset ?s (delayed_zset_name name)) with (pl_delayed (places_of name s)).
    change (lst ?s (pending_list_name name)) with (pl_pending (places_of name s)).
    subst σ'. rewrite Hp. destruct (0 <? delay)%N; done.
  - subst σ'. unfold push_script. rewrite bool_decide_eq_false_2 by done. cbn [fst].
    set (p := _ ++ _).
    assert (hash (prun p σ) (job_data_hash_name name) !! id = Some data) as H1.
    { subst p. destruct (0 <? delay)%N; cbn [app prun foldl]; qview_simp; by rewrite lookup_insert_eq. }
    assert (hash (prun p σ) (job_meta_hash_name name id) !! "attempts" = Some "0" /\
      hash (prun p σ) (job_meta_hash_name name id) !! "created_at" = Some (u64_to_string now)) as [H2 H3].
    { subst p. destruct (0 <? delay)%N; cbn [app prun foldl]; qview_simp; by simplify_map_eq. }
    clearbody p. unfold get_job, read. cbn [bind]. eexists _, _. rewrite run_alone_read. cbn [lift_redis].
    rewrite H1, (json_round_trip _ _ Hdata), run_alone_read. cbn [lift_redis]. rewrite H2, H3.
    rewrite (bind_parse_u64 now) by done. reflexivity.
  - intros. unfold push_script at 1. rewrite bool_decide_eq_true_2; [done|].
    change (id ∈ pl_dedupe (places_of name σ')). subst σ'. rewrite Hp. set_solver.
Qed.

(** ** Pruning *)

(** Everything the queue keeps about one job besides its place. *)
Definition job_record (name : string) (σ : redis) (id : string) :=
  (hash σ (job_data_hash_name name) !! id, hash σ (job_result_hash_name name) !! id,
   hash σ (job_meta_hash_name name id), lst σ (job_errors_list_name name id),
   bool_decide (id ∈ sett σ (dedupe_set_name name))).
Definition no_record : option string * option string * gmap string string * list string * bool :=
  (None, None, ∅, [], false).

(** Pruning reads these keys and never writes them. *)
Definition place_key (name k : string) : Prop :=
  k ∈ [pending_list_name name; active_hash_name name; delayed_zset_name name;
       success_list_name name; failed_list_name name].

Lemma prune_one_same name a b id σ k :
  no_colon id -> place_key name k -> same_at k σ (prune_one name a b id σ).1.
Proof.
  intros Hc Hk. unfold prune_one. destruct (prune_protected name a b id σ); [done|]. cbn [fst].
  apply prun_same. unfold place_key in Hk. rewrite !elem_of_cons, elem_of_nil in Hk.
  destruct Hk as [->|[->|[->|[->|[->|[]]]]]];
    repeat (apply Forall_cons; split; [cbn [wkey]; qkeys_ne|]); apply Forall_nil; exact I.
Qed.

Lemma prune_ids_same name a b ids σ k :
  Forall no_colon ids -> place_key name k -> same_at k σ (prune_ids name a b ids σ).1.
Proof.
  intros Hids Hk. revert σ. induction Hids as [|id ids Hc _ IH]; intros σ; cbn [prune_ids]; [done|].
  pose proof (prune_one_same name a b id σ k Hc Hk) as H1. destruct (prune_one name a b id σ) as [σ1 n].
  specialize (IH σ1). destruct (prune_ids name a b ids σ1) as [σ2 m]. by etrans.
Qed.

Lemma prune_one_record name a b id x σ :
  terminal_list name a -> terminal_list name b -> no_colon id -> no_colon x ->
  let σ' := (prune_one name a b id σ).1 in
  prune_protected name a b x σ' = prune_protected name a b x σ /\
  job_record name σ' x =
    (if decide (x = id /\ prune_protected name a b id σ = false) then no_record else job_record name σ x).
Proof.
  intros Ha Hb Hid Hx. pose proof (fun k => prune_one_same name a b id σ k Hid) as Hs.
  unfold prune_one in *. destruct (prune_protected name a b id σ) eqn:Hf; cbn [fst] in *.
  { split; [done|]. rewrite decide_False; [done|]. by intros [_ ?]. }
  unfold place_key in Hs.
  split.
  - unfold prune_protected. symmetry.
    rewrite (sa_hash _ _ _ (Hs (active_hash_name name) ltac:(set_solver))).
    rewrite (sa_list _ _ _ (Hs (pending_list_name name) ltac:(set_solver))).
    rewrite (sa_zset _ _ _ (Hs (delayed_zset_name name) ltac:(set_solver))).
    rewrite (sa_list _ _ _ (Hs a ltac:(destruct Ha; set_solver))).
    by rewrite (sa_list _ _ _ (Hs b ltac:(destruct Hb; set_solver))).
  - unfold job_record. cbn [prun foldl]. case_decide as Hd.
    + destruct Hd as [-> _]. qview_simp. rewrite !lookup_delete_eq, bool_decide_eq_false_2 by set_solver. done.
    + assert (x <> id) as Hne by naive_solver. qview_simp. rewrite !lookup_delete_ne by done.
      unfold no_record. repeat f_equal. apply bool_decide_ext. set_solver.
Qed.

Lemma prune_ids_record name a b ids x σ :
  terminal_list name a -> terminal_list name b -> Forall no_colon ids -> no_colon x ->
  let σ' := (prune_ids name a b ids σ).1 in
  prune_protected name a b x σ' = prune_protected name a b x σ /\
  job_record name σ' x =
    (if decide (x ∈ ids /\ prune_protected name a b x σ = false) then no_record else job_record name σ x).
Proof.
  intros Ha Hb Hids Hx. cbn zeta. revert σ. induction Hids as [|id ids Hc _ IH]; intros σ; cbn [prune_ids].
  { split; [done|]. rewrite decide_False; [done|]. by intros [?%elem_of_nil _]. }
  destruct (prune_one_record name a b id x σ Ha Hb Hc Hx) as [P1 P2].
  destruct (prune_one name a b id σ) as [σ1 n]. cbn [fst] in *. destruct (IH σ1) as [I1 I2].
  destruct (prune_ids name a b ids σ1) as [σ2 m]. cbn [fst] in *. split; [by rewrite I1|].
  rewrite I2, P2, P1. repeat case_decide; try done; set_solver.
Qed.

Lemma live_same name σ σ' x :
  (∀ k, place_key name k -> same_at k σ σ') -> live (places_of name σ') x <-> live (places_of name σ) x.
Proof.
  intros Hs. unfold live, places_of. cbn [pl_pending pl_delayed pl_active].
  rewrite (sa_hash _ _ _ (Hs (active_hash_name name) ltac:(unfold place_key; set_solver))).
  rewrite (sa_list _ _ _ (Hs (pending_list_name name) ltac:(unfold place_key; set_solver))).
  by rewrite (sa_zset _ _ _ (Hs (delayed_zset_name name) ltac:(unfold place_key; set_solver))).
Qed.

Lemma prune_protected_spec name a b x σ :
  prune_protected name a b x σ = false <-> ¬ live (places_of name σ) x /\ x ∉ lst σ a /\ x ∉ lst σ b.
Proof.
  unfold prune_protected, has_id, live, places_of. cbn [pl_pending pl_delayed pl_active].
  rewrite !orb_false_iff, !bool_decide_eq_false. naive_solver.
Qed.

(** Pruning.  After a completion the terminal list keeps its newest entries up to the
    limit and the other terminal list is untouched; exactly the jobs that fell out, are not
    queued or running again and are named by neither list lose their records (data, result,
    metadata, errors, dedupe entry); everything about every other job stays. *)
Theorem trim_prunes_unreferenced {Fg : Forgotten} name a b max σ x :
  queue_ok name σ ->
  (a = success_list_name name /\ b = failed_list_name name) \/
  (a = failed_list_name name /\ b = success_list_name name) ->
  no_colon x ->
  let σ' := (trim_script name a b max σ).1 in
  let pruned := x ∈ drop max (lst σ a) /\ ¬ live (places_of name σ) x /\
                x ∉ take max (lst σ a) /\ x ∉ lst σ b in
  lst σ' a = take max (lst σ a) /\ lst σ' b = lst σ b /\
  (live (places_of name σ') x <-> live (places_of name σ) x) /\
  (pruned -> job_record name σ' x = no_record) /\
  (¬ pruned -> job_record name σ' x = job_record name σ x).
Proof.
  intros Hq Hab Hx. cbn zeta.
  assert (terminal_list name a /\ terminal_list name b /\ a <> b) as (Ha & Hb & Hne).
  { unfold terminal_list. destruct Hab as [[-> ->]|[-> ->]]; split_and!; auto; qkeys_ne. }
  assert (Forall no_colon (drop max (lst σ a))) as Hnc.
  { apply Forall_forall. intros y Hy. apply (po_plain _ (proj1 Hq)).
    apply (sublist_subseteq _ _ (sublist_drop _ max)) in Hy. destruct Ha as [->| ->]; auto. }
  unfold trim_script. destruct (drop max (lst σ a)) as [|d ds] eqn:Ed.
  { cbn [fst]. rewrite <- (take_drop max (lst σ a)) at 1. rewrite Ed, app_nil_r.
    split_and!; [done|done|done| |done]. by intros [?%elem_of_nil _]. }
  rewrite <- Ed in *. clear d ds Ed. set (σ1 := match max with O => _ | S _ => _ end).
  assert ((∀ k, k <> a -> same_at k σ σ1) /\ lst σ1 a = take max (lst σ a)) as [H1 H2].
  { subst σ1. destruct max as [|stop]; rewrite lst_wrun, decide_True by done; split; try done;
      intros k Hk; by apply wrun_frame. }
  clearbody σ1.
  destruct (prune_ids_record name a b (drop max (lst σ a)) x σ1 Ha Hb Hnc Hx) as [R1 R2].
  pose proof (fun k => prune_ids_same name a b _ σ1 k Hnc) as Hs.
  set (σ2 := (prune_ids name a b (drop max (lst σ a)) σ1).1) in *. clearbody σ2.
  assert (∀ k, terminal_list name k -> lst σ2 k = lst σ1 k) as Hl.
  { intros k Hk. symmetry. apply sa_list, Hs. unfold place_key. destruct Hk as [->| ->]; set_solver. }
  assert (live (places_of name σ1) x <-> live (places_of name σ) x) as Hlive1.
  { unfold live, places_of. cbn [pl_pending pl_delayed pl_active].
    rewrite <- (sa_hash _ _ _ (H1 (active_hash_name name) ltac:(destruct Ha as [->| ->]; qkeys_ne))).
    rewrite <- (sa_list _ _ _ (H1 (pending_list_name name) ltac:(destruct Ha as [->| ->]; qkeys_ne))).
    by rewrite <- (sa_zset _ _ _ (H1 (delayed_zset_name name) ltac:(destruct Ha as [->| ->]; qkeys_ne))). }
  assert (job_record name σ1 x = job_record name σ x) as Hrec.
  { unfold job_record.
    rewrite <- (sa_hash _ _ _ (H1 (job_data_hash_name name) ltac:(destruct Ha as [->| ->]; qkeys_ne))).
    rewrite <- (sa_hash _ _ _ (H1 (job_result_hash_name name) ltac:(destruct Ha as [->| ->]; qkeys_ne))).
    rewrite <- (sa_hash _ _ _ (H1 (job_meta_hash_name name x) ltac:(destruct Ha as [->| ->]; qkeys_ne))).
    rewrite <- (sa_list _ _ _ (H1 (job_errors_list_name name x) ltac:(destruct Ha as [->| ->]; qkeys_ne))).
    by rewrite <- (sa_set _ _ _ (H1 (dedupe_set_name name) ltac:(destruct Ha as [->| ->]; qkeys_ne))). }
  rewrite Hrec in R2. rewrite (sa_list _ _ _ (H1 b (not_eq_sym Hne))), <- H2.
  split_and!; [by apply Hl|by apply Hl|by rewrite <- Hlive1; apply live_same| |].
  - intros (Hin & Hp). rewrite R2, decide_True; [done|]. split; [done|].
    apply prune_protected_spec. by rewrite Hlive1.
  - intros Hn. rewrite R2, decide_False; [done|]. intros [Hin Hp]. apply Hn. split; [done|].
    apply prune_protected_spec in Hp. by rewrite Hlive1 in Hp.
Qed.

(** ** Order *)

Lemma expire_leases_quiet name ids σ :
  (∀ id, id ∈ ids -> lease_alive name σ id = true) -> expire_leases name ids σ = (σ, []).
Proof.
  induction ids as [|id ids IH]; intros Ha; cbn [expire_leases]; [done|].
  rewrite (Ha id) by set_solver. apply IH. set_solver.
Qed.

Lemma lease_jobs_all name now pop_id secs ids σ :
  (∀ id, id ∈ ids -> is_Some (hash σ (job_data_hash_name name) !! id)) ->
  map pj_id (lease_jobs name now pop_id secs ids σ).2 = ids.
Proof.
  revert σ. induction ids as [|id ids IH]; intros σ Hd; cbn [lease_jobs]; [done|].
  destruct (Hd id) as [data Edata]; [set_solver|].
  destruct (lease_job_views name now pop_id secs id σ) as (_ & Hdata & _).
  destruct (lease_job_pipeline name now pop_id secs id σ data Edata) as (n & cr & E).
  rewrite E in Hdata |- *. cbn [fst] in Hdata. specialize (IH (prun (lease_pipeline name now pop_id secs id n) σ)).
  destruct (lease_jobs _ _ _ _ ids _) as [σ2 jobs]. cbn [snd map pj_id] in *. f_equal.
  apply IH. rewrite Hdata. set_solver.
Qed.

(** Jobs leave in order.  With every lease alive, no cancellation requested and no
    delayed job due, a poll hands out exactly the first [batch_size] pending jobs, in the
    order of the list, and leaves the rest pending. *)
Theorem pop_in_order name now pop_id batch_size secs σ σ' jobs cancelled timed_out :
  (∀ id, is_Some (hash σ (active_hash_name name) !! id) -> lease_alive name σ id = true) ->
  sett σ (pending_cancellation_set_name name) = ∅ -> delayed_due name now σ = [] ->
  (∀ id, id ∈ lst σ (pending_list_name name) -> is_Some (hash σ (job_data_hash_name name) !! id)) ->
  pop_script name now pop_id batch_size secs σ = (σ', (jobs, cancelled, timed_out)) ->
  map pj_id jobs = take batch_size (lst σ (pending_list_name name)) /\
  lst σ' (pending_list_name name) = drop batch_size (lst σ (pending_list_name name)).
Proof.
  intros Ha Hc Hd Hdata. unfold pop_script.
  rewrite expire_leases_quiet by (intros id Hid%active_ids_spec; auto).
  rewrite Hc, elements_empty. cbn [process_cancellations]. rewrite Hd. cbn [foldl].
  pose proof (pop_ids_spec name batch_size σ) as P. destruct (pop_ids name batch_size σ) as [σ4 ids].
  destruct P as (-> & P2 & P3). set (ids := take batch_size _) in *.
  pose proof (lease_jobs_all name now pop_id secs ids σ4) as L.
  destruct (lease_jobs_places name now pop_id secs ids σ4) as (L2 & _).
  destruct (lease_jobs name now pop_id secs ids σ4) as [σ5 jobs']. intros [= -> -> _ _]. split.
  - apply L. intros id Hid. rewrite <- (sa_hash _ _ _ (P3 (job_data_hash_name name) ltac:(qkeys_ne))).
    apply Hdata. by apply (sublist_subseteq _ _ (sublist_take _ batch_size)).
  - cbn [fst places_of pl_pending] in L2. by rewrite L2.
Qed.

(** ** Error history *)

Section History.
Context {T : Type} `{Json T} {Output ErrorData : Type} `{Json Output}.
Context (chunks_of : JobErrorRecord ErrorData -> list string * bool)
  (marker_json : N -> N -> JobErrorType -> nat -> option string).
Context (name : string) (options : QueueOptions).

Definition entry_bounded (s : string) : Prop :=
  String.length s <= MAX_JOB_ERROR_RECORD_BYTES \/
  ∃ attempt created_at details,
    marker_json attempt created_at details MAX_JOB_ERROR_RECORD_BYTES = Some s.
Definition history_bounded (l : list string) : Prop :=
  length l <= MAX_JOB_ERROR_RECORDS /\ Forall entry_bounded l.

Lemma limited_write_all_bound chunks w w' :
  String.length (lw_bytes w) <= MAX_JOB_ERROR_RECORD_BYTES ->
  limited_write_all w chunks = Ok w' -> String.length (lw_bytes w') <= MAX_JOB_ERROR_RECORD_BYTES.
Proof.
  revert w. induction chunks as [|c cs IH]; intros w Hw; cbn [limited_write_all]; [by intros [= <-]|].
  unfold limited_write. destruct (Nat.ltb _ _) eqn:E; [done|]. apply Nat.ltb_ge in E.
  cbn [andb]. intros Hr. eapply IH; [|exact Hr]. cbn [lw_bytes]. rewrite string_length_app. lia.
Qed.

Lemma encode_record_bounded r s :
  encode_record chunks_of marker_json r = Ok s -> entry_bounded s.
Proof.
  unfold encode_record. destruct (chunks_of r) as [chunks fails].
  destruct (limited_write_all _ chunks) as [w|w] eqn:E.
  - destruct fails; [done|]. intros [= <-]. left. eapply limited_write_all_bound; [|exact E]. cbn. lia.
  - unfold ok_or. destruct (marker_json _ _ _ _) eqn:Em; [|done]. intros [= <-]. right. eauto.
Qed.

Lemma append_record_bounded s l :
  history_bounded l -> entry_bounded s ->
  history_bounded (take (S (MAX_JOB_ERROR_RECORDS - 1)) (s :: l)).
Proof.
  intros [Hl Hf] Hs. split; [rewrite length_take; unfold MAX_JOB_ERROR_RECORDS; lia|].
  apply Forall_take. by constructor.
Qed.

(** The error history of a job is bounded: whatever a completion records, at most 100
    entries remain, and each is at most 16 KiB or the fixed-shape omission marker. *)
Theorem error_history_bounded now id token ops σ x :
  completion_of (T:=T) (Output:=Output) (encode_record chunks_of marker_json) name options
    now id token ops ->
  no_colon id -> no_colon x -> history_bounded (lst σ (job_errors_list_name name x)) ->
  history_bounded (lst (prun ops σ) (job_errors_list_name name x)).
Proof.
  intros Hof Hc Hx Hh.
  destruct Hof as [job result ops Hops|job error delay position ops Hops|id token n error ops Hops]; revert Hops.
  - unfold add_success_operations, ok_or, forget_if_active, release_lease.
    destruct (to_json result); [|done]. intros [= <-].
    destruct (decide (_ = Active)); cbn [app prun foldl]; qview_simp; done.
  - unfold add_nack_operations, release_lease, append_record.
    destruct (encode_record _ _ _) as [s|] eqn:Es; [|done]. intros [= <-].
    apply encode_record_bounded in Es. set (id := job_id (bj_job job)) in *.
    destruct (decide (x = id)) as [->|Hne]; (destruct delay as [d|]; [|destruct position]);
      cbn [app prun foldl]; qview_simp; try done; by apply append_record_bounded.
  - unfold fail_operations, forget_if_active, release_lease, append_record.
    destruct (encode_record _ _ _) as [s|] eqn:Es; [|done]. intros [= <-].
    apply encode_record_bounded in Es.
    destruct (decide (x = id)) as [->|Hne]; destruct (decide (_ = Active));
      cbn [app prun foldl]; qview_simp; try done; by apply append_record_bounded.
Qed.
End History.

(** ** Cancellation *)

(** What a cancellation answers.  Waiting jobs are cancelled at once: they leave pending
    and delayed, head the failed list and are queued nowhere; a running job is only marked;
    an id that is queued nowhere is not found and nothing changes.  In every case, whatever
    the idempotency mode, the job stays remembered for deduplication. *)
Theorem cancel_branches {Fg : Forgotten} name id now σ :
  queue_ok name σ ->
  let '(σ', answer) := cancel_script name id now σ in
  sett σ' (dedupe_set_name name) = sett σ (dedupe_set_name name) /\
  match answer with
  | CancelledImmediately =>
      (id ∈ lst σ (pending_list_name name) \/ is_Some (zset σ (delayed_zset_name name) !! id)) /\
      ¬ live (places_of name σ') id /\
      lst σ' (failed_list_name name) = id :: lst σ (failed_list_name name)
  | CancellationPending =>
      is_Some (hash σ (active_hash_name name) !! id) /\
      sett σ' (pending_cancellation_set_name name) =
        {[id]} ∪ sett σ (pending_cancellation_set_name name) /\
      hash σ' (active_hash_name name) = hash σ (active_hash_name name)
  | CancelNotFound => ¬ live (places_of name σ) id /\ σ' = σ
  end.
Proof.
  intros [Hp _]. unfold cancel_script, has_id. repeat case_bool_decide; cbn [prun foldl].
  - assert (zset σ (delayed_zset_name name) !! id = None) as Hd by (by apply (po_pending_delayed _ Hp)).
    assert (hash σ (active_hash_name name) !! id = None) as Ha by (by apply (po_pending_active _ Hp)).
    split; [by qview_simp|]. split; [by left|]. split; [|by qview_simp].
    unfold live, places_of. cbn [pl_pending pl_delayed pl_active]. qview_simp.
    rewrite list_elem_of_filter, Hd, Ha. intros [[[] _]|[[]|[]]]; done.
  - assert (hash σ (active_hash_name name) !! id = None) as Ha by (by apply (po_delayed_active _ Hp)).
    split; [by qview_simp|]. split; [by right|]. split; [|by qview_simp].
    unfold live, places_of. cbn [pl_pending pl_delayed pl_active]. qview_simp.
    rewrite lookup_zrem_members, decide_True, Ha by set_solver. intros [?|[[]|[]]]; done.
  - split; [by qview_simp|]. split; [done|]. by qview_simp.
  - split; [done|]. split; [|done]. by intros [?|[?|?]].
Qed.
