(* ===== verification/QueueWitness.v ===== *)
(** The guarantees of the job queue at concrete inputs. *)

From Stdlib Require Import String Ascii NArith Lia.
From stdpp Require Import base gmap strings list fin_maps relations.
From S2P Require Import Prelude Redis RedisProg Json QueueTypes Queue QueueInv.
From S2P Require Import QueueSteps QueuePop QueueClaims.

(** Job data, results and errors are strings here. *)
#[local] Instance string_codec : Json string := countable_json.
Definition q0 : string := "q".
Definition options0 : QueueOptions := queue_options_default.
Definition chunks0 (r : JobErrorRecord string) : list string * bool := ([jer_error _ r], false).
Definition marker0 (attempt created_at : N) (details : JobErrorType) (limit : nat) : option string :=
  Some "omitted".
Definition encode0 : JobErrorRecord string -> twmq_result string := encode_record chunks0 marker0.
Definition step0 := queue_step (T:=string) (Output:=string) encode0 q0 options0 false.
#[local] Instance nothing_forgotten : Forgotten := (∅ : gset string).

(** Push "j1" and, delayed by 50 seconds, "j2"; then poll at time 100. *)
Definition data0 : string := default "" (to_json "payload").
Definition τ1 : redis := Eval vm_compute in (push_script q0 "j1" data0 90 0 "last" redis_empty).1.
Definition τ2 : redis := Eval vm_compute in (push_script q0 "j2" data0 90 50 "last" τ1).1.
Definition pop0 := Eval vm_compute in pop_script q0 100 "p1" 10 30 τ2.
Definition τ3 : redis := Eval vm_compute in pop0.1.
Definition jobs0 : list popped_job := Eval vm_compute in pop0.2.1.1.
Definition token1 : string := lease_token_of 100 "j1" 1 "p1".

Definition job1 : BorrowedJob string :=
  mkBorrowedJob (mkJob "j1" "payload" 1 90 (Some 100%N) None) token1.
Definition success_ops (job : BorrowedJob string) (result : string) : pipeline :=
  match add_success_operations q0 options0 110 job result with Ok p => p | Err _ => [] end.
Definition τ4 : redis := Eval vm_compute in prun ([] ++ success_ops job1 "done") τ3.

Lemma steps0 : rtc step0 redis_empty τ2 /\ rtc step0 redis_empty τ3 /\ rtc step0 redis_empty τ4.
Proof.
  assert (rtc step0 redis_empty τ2) as H2.
  { apply rtc_l with τ1; [exact (qs_push encode0 q0 options0 false "j1" data0 90 0 "last" redis_empty eq_refl ltac:(done))|].
    apply rtc_once. exact (qs_push encode0 q0 options0 false "j2" data0 90 50 "last" τ1 eq_refl ltac:(done)). }
  assert (rtc step0 redis_empty τ3) as H3.
  { eapply rtc_r; [exact H2|]. exact (qs_pop encode0 q0 options0 false 100 "p1" 10 30 τ2). }
  split; [exact H2|split; [exact H3|]]. eapply rtc_r; [exact H3|].
  apply (qs_complete encode0 q0 options0 false 110 "j1" token1 [] (success_ops job1 "done") τ3);
    [|apply Forall_nil; exact I|reflexivity|vm_compute; reflexivity].
  apply (success_completion encode0 q0 options0 110 job1 "done"). vm_compute. reflexivity.
Qed.



(** The invariant of the intermediate states, step by step. *)
Lemma queue_ok_steps σ : rtc step0 redis_empty σ -> queue_ok q0 σ.
Proof. intros (F & Hq & HF)%queue_reachable_ok. rewrite (HF eq_refl) in Hq. exact Hq. Qed.

(** Another client that writes an unrelated key. *)
Definition foreign1 : env_step := mkStep {["other"]} (wrun (SET "other" "x")).
Definition sch1 : schedule := [mkSlot [foreign1] None 110; mkSlot [foreign1] None 0].
Lemma sch1_ok : sched_ok sch1.
Proof.
  intros s Hs. assert (s = foreign1) as -> by set_solver. intros σ k Hk. apply wrun_frame. cbn in *. set_solver.
Qed.

Lemma commit_if_leased_exact_witness :
  let r := run (commit_if_leased (lease_key_name q0 "j1" token1) (success_ops job1 "done")) sch1 idle τ3 in
  r.1 = Ok true /\
  ∃ pre, sch1 = pre ++ r.2.1.1 /\
    commit_outcome (lease_key_name q0 "j1" token1) (success_ops job1 "done") τ3 (sched_steps pre) r.1 r.2.2.
Proof.
  intros r. split; [vm_compute; reflexivity|].
  apply (commit_if_leased_exact (lease_key_name q0 "j1" token1) (success_ops job1 "done") sch1 idle τ3
    r.1 r.2.1.1 r.2.1.2 r.2.2 sch1_ok).
  subst r. by destruct (run _ sch1 idle τ3) as [? [[? ?] ?]].
Defined.

(** The job succeeded; then a late failure report under the same lease changes nothing. *)
Definition late_report :=
  run (complete_job (Output:=string) (fun _ _ => []) (fun _ _ _ _ => []) (fun _ _ => []) encode0 q0 options0
    job1 (Err (Fail "late"))) sch1 idle (prun ([] ++ success_ops job1 "done") τ3).

Lemma lease_completes_once_witness :
  ∃ pre, sch1 = pre ++ late_report.2.1.1 /\
    late_report.2.2 = run_steps (sched_steps pre) (prun ([] ++ success_ops job1 "done") τ3).
Proof.
  apply (lease_completes_once (fun _ _ => []) (fun _ _ _ _ => []) (fun _ _ => []) encode0 q0 options0 110 job1 []
    (success_ops job1 "done") (Err (Fail "late")) τ3 sch1 idle late_report.1 late_report.2.1.1
    late_report.2.1.2 late_report.2.2).
  - reflexivity.
  - apply (success_completion encode0 q0 options0 110 job1 "done"). vm_compute. reflexivity.
  - apply sch1_ok.
  - intros s k Hs ->. assert (s = foreign1) as -> by set_solver. vm_compute. discriminate.
  - unfold late_report. by destruct (run _ sch1 idle _) as [? [[? ?] ?]].
Defined.

Lemma pop_exclusive_witness :
  map pj_id jobs0 = ["j1"] /\ length jobs0 <= 10 /\
  (∀ j, j ∈ jobs0 -> held q0 τ3 (pj_id j) (pj_lease_token j)).
Proof.
  split; [reflexivity|].
  destruct (pop_exclusive q0 100 "p1" 10 30 τ2 τ3 jobs0 [] []) as (H1 & _ & H3 & _);
    [apply queue_ok_steps, steps0|vm_compute; reflexivity|].
  split; [exact H1|]. intros j Hj. apply (H3 j Hj).
Defined.

(** "j1" is cancelled while it runs, then its lease expires. *)
Definition τ5 : redis := Eval vm_compute in (cancel_script q0 "j1" 111 τ3).1.
Definition τ6 : redis := Eval vm_compute in wrun (DEL (lease_key_name q0 "j1" token1)) τ5.
Definition pop1 := Eval vm_compute in pop_script q0 120 "p2" 10 30 τ6.

Lemma cancelled_job_not_popped_witness :
  "j1" ∉ map pj_id pop1.2.1.1 /\ ¬ live (places_of q0 pop1.1) "j1" /\
  ("j1" ∈ lst pop1.1 (failed_list_name q0) \/ "j1" ∈ lst pop1.1 (success_list_name q0)).
Proof.
  apply (cancelled_job_not_popped q0 120 "p2" 10 30 τ6 pop1.1 pop1.2.1.1 pop1.2.1.2 pop1.2.2 "j1").
  - apply queue_ok_steps. destruct steps0 as (_ & H3 & _).
    apply rtc_r with τ5; [apply rtc_r with τ3; [exact H3|exact (qs_cancel encode0 q0 options0 false "j1" 111 τ3)]|].
    exact (qs_lease_expiry encode0 q0 options0 false "j1" token1 τ5 eq_refl).
  - vm_compute. reflexivity.
  - vm_compute. reflexivity.
  - vm_compute. reflexivity.
Defined.

Lemma delayed_job_waits_witness :
  "j2" ∉ map pj_id jobs0 /\ zset τ3 (delayed_zset_name q0) !! "j2" = Some 140%N.
Proof.
  apply (delayed_job_waits q0 100 "p1" 10 30 τ2 τ3 jobs0 [] [] "j2" 140);
    [apply queue_ok_steps, steps0|vm_compute; reflexivity|reflexivity| |vm_compute; reflexivity].
  vm_compute. discriminate.
Defined.

Lemma push_once_witness :
  lst τ1 (pending_list_name q0) = lst redis_empty (pending_list_name q0) ++ ["j1"] /\
  push_script q0 "j1" "other data" 95 7 "first" τ1 = (τ1, false).
Proof.
  destruct (push_once q0 "j1" data0 "payload" 90 0 "last" redis_empty) as (H1 & _ & H3);
    [set_solver|vm_compute; reflexivity|done|].
  split; [exact (proj1 H1)|]. apply H3.
Defined.

Lemma trim_prunes_unreferenced_witness :
  job_record q0 (trim_script q0 (success_list_name q0) (failed_list_name q0) 0 τ4).1 "j1" = no_record.
Proof.
  apply (trim_prunes_unreferenced q0 (success_list_name q0) (failed_list_name q0) 0 τ4 "j1").
  - apply queue_ok_steps, steps0.
  - left. split; reflexivity.
  - reflexivity.
  - split; [apply list_elem_of_here|]. split; [|split].
    + intros [H|[[x H]|[x H]]]; vm_compute in H; [inversion H|discriminate H|discriminate H].
    + intros H. vm_compute in H. inversion H.
    + intros H. vm_compute in H. inversion H.
Defined.

Lemma pop_in_order_witness :
  map pj_id jobs0 = take 10 (lst τ2 (pending_list_name q0)).
Proof.
  apply (pop_in_order q0 100 "p1" 10 30 τ2 τ3 jobs0 [] []).
  - intros id [x H]. vm_compute in H. discriminate H.
  - vm_compute. reflexivity.
  - vm_compute. reflexivity.
  - intros id H. vm_compute in H. apply list_elem_of_singleton in H as ->. vm_compute. eexists. reflexivity.
  - vm_compute. reflexivity.
Defined.

Definition fail_ops : pipeline :=
  match fail_operations encode0 q0 options0 110 "j1" token1 1 "boom" with Ok p => p | Err _ => [] end.

Lemma error_history_bounded_witness :
  lst (prun fail_ops τ3) (job_errors_list_name q0 "j1") = ["boom"] /\
  history_bounded marker0 (lst (prun fail_ops τ3) (job_errors_list_name q0 "j1")).
Proof.
  split; [vm_compute; reflexivity|].
  apply (error_history_bounded (T:=string) (Output:=string) chunks0 marker0 q0 options0 110 "j1" token1 fail_ops τ3 "j1").
  - apply (fail_completion encode0 q0 options0 110 "j1" token1 1 "boom"). vm_compute. reflexivity.
  - reflexivity.
  - reflexivity.
  - vm_compute. split; [lia|constructor].
Defined.

Lemma cancel_branches_witness :
  (cancel_script q0 "j2" 111 τ3).2 = CancelledImmediately /\
  lst (cancel_script q0 "j2" 111 τ3).1 (failed_list_name q0) = "j2" :: lst τ3 (failed_list_name q0).
Proof.
  assert (queue_ok q0 τ3) as Hq by (apply queue_ok_steps, steps0).
  pose proof (cancel_branches q0 "j2" 111 τ3 Hq) as H.
  assert ((cancel_script q0 "j2" 111 τ3).2 = CancelledImmediately) as Hr by (vm_compute; reflexivity).
  destruct (cancel_script q0 "j2" 111 τ3) as [σ' r]. cbn [fst snd] in *. subst r.
  split; [reflexivity|]. apply H.
Defined.
