(* ===== verification/Fees.v ===== *)
(** Fees: reading a caller's fee request (core/src/transaction.rs), the fee arithmetic
    (worker/fee_math.rs) and the fee bump of a replacement (worker/transaction.rs). *)

From Stdlib Require Import String NArith Lia.
From stdpp Require Import base option.
From S2P Require Import Prelude.

(** ** Arithmetic *)

Definition division_parts (value : N) : N * N := ((value / 100)%N, (value mod 100)%N).

(** [remainder * multiplier] is a plain [u128] product; it wraps in a release build. *)
Definition capped_increase_parts (quotient remainder multiplier : N) (cap : option N) : N :=
  let bumped :=
    u128_saturating_add (u128_saturating_mul quotient multiplier)
      (((remainder * multiplier) mod (U128_MAX + 1)) / 100)%N in
  N.min bumped (default U128_MAX cap).

Definition capped_increase (value multiplier : N) (cap : option N) : N :=
  let '(quotient, remainder) := division_parts value in
  capped_increase_parts quotient remainder multiplier cap.

Definition capped_dynamic_fees (fee priority multiplier : N) (fee_cap priority_cap : option N)
    : N * N :=
  let fee := capped_increase fee multiplier fee_cap in
  let priority := N.min (capped_increase priority multiplier priority_cap) fee in
  (fee, priority).

(** ** Fee requests *)

Section Requests.
Context {Authorization : Type}.

Inductive TransactionTypeData :=
| Eip7702 (authorization_list : option (list Authorization))
    (max_fee_per_gas max_priority_fee_per_gas : option N)
| Eip1559 (max_fee_per_gas max_priority_fee_per_gas : option N)
| Legacy (gas_price : option N).

Record FeeFields := mkFeeFields {
  ff_gas_price : option N;
  ff_max_fee_per_gas : option N;
  ff_max_priority_fee_per_gas : option N;
  ff_authorization_list : option (list Authorization)
}.

Definition is_some {A} (o : option A) : bool := match o with Some _ => true | None => false end.

Definition deserialize_transaction_type_data (fields : FeeFields)
    : result string (option TransactionTypeData) :=
  let dynamic_fees :=
    is_some (ff_max_fee_per_gas fields) || is_some (ff_max_priority_fee_per_gas fields) in
  if is_some (ff_gas_price fields) && (dynamic_fees || is_some (ff_authorization_list fields))
  then Err "gasPrice cannot be combined with EIP-1559 fees or authorizationList"%string
  else if match ff_max_fee_per_gas fields, ff_max_priority_fee_per_gas fields with
          | Some max_fee, Some priority_fee => (max_fee <? priority_fee)%N
          | _, _ => false
          end
  then Err "maxPriorityFeePerGas must not exceed maxFeePerGas"%string
  else match ff_authorization_list fields with
       | Some [] => Err "authorizationList must not be empty"%string
       | Some authorizations =>
           Ok (Some (Eip7702 (Some authorizations) (ff_max_fee_per_gas fields)
                       (ff_max_priority_fee_per_gas fields)))
       | None =>
           match ff_gas_price fields with
           | Some gas_price => Ok (Some (Legacy (Some gas_price)))
           | None =>
               if dynamic_fees
               then Ok (Some (Eip1559 (ff_max_fee_per_gas fields) (ff_max_priority_fee_per_gas fields)))
               else Ok None
           end
       end.

(** The caps a request puts on the total and on the priority fee. *)
Definition fee_caps (requested : option TransactionTypeData) : option N * option N :=
  match requested with
  | Some (Legacy gas_price) => (gas_price, None)
  | Some (Eip1559 max_fee max_priority) => (max_fee, max_priority)
  | Some (Eip7702 _ max_fee max_priority) => (max_fee, max_priority)
  | None => (None, None)
  end.
End Requests.
Arguments TransactionTypeData : clear implicits.
Arguments FeeFields : clear implicits.

(** ** Bumping a transaction *)

Section Bump.
Context {Authorization Rest : Type}.

(** A transaction by its kind and fees; [Rest] is everything else. *)
Inductive TypedTransaction :=
| TxLegacy (gas_price : N) (rest : Rest)
| TxEip2930 (gas_price : N) (rest : Rest)
| TxEip1559 (max_fee_per_gas max_priority_fee_per_gas : N) (rest : Rest)
| TxEip4844 (max_fee_per_gas max_priority_fee_per_gas : N) (rest : Rest)
| TxEip4844WithSidecar (max_fee_per_gas max_priority_fee_per_gas : N) (rest : Rest)
| TxEip7702 (max_fee_per_gas max_priority_fee_per_gas : N) (rest : Rest).

(** alloy's accessors: a gas price is both the fee and its bound, without a priority. *)
Definition tx_fees (tx : TypedTransaction) : N * option N :=
  match tx with
  | TxLegacy p _ | TxEip2930 p _ => (p, None)
  | TxEip1559 f p _ | TxEip4844 f p _ | TxEip4844WithSidecar f p _ | TxEip7702 f p _ => (f, Some p)
  end.
Definition tx_rest (tx : TypedTransaction) : Rest :=
  match tx with
  | TxLegacy _ r | TxEip2930 _ r | TxEip1559 _ _ r | TxEip4844 _ _ r | TxEip4844WithSidecar _ _ r
  | TxEip7702 _ _ r => r
  end.

Definition bump_transaction_fees (tx : TypedTransaction) (multiplier : N)
    (requested : option (TransactionTypeData Authorization)) : option TypedTransaction :=
  if (multiplier <=? 100)%N then None
  else
    let '(fee_cap, priority_cap) := fee_caps requested in
    let old_fees := tx_fees tx in
    let dynamic fee priority :=
      capped_dynamic_fees fee priority multiplier fee_cap priority_cap in
    let tx' :=
      match tx with
      | TxLegacy gas_price r => TxLegacy (capped_increase gas_price multiplier fee_cap) r
      | TxEip2930 gas_price r => TxEip2930 (capped_increase gas_price multiplier fee_cap) r
      | TxEip1559 f p r => let '(f, p) := dynamic f p in TxEip1559 f p r
      | TxEip7702 f p r => let '(f, p) := dynamic f p in TxEip7702 f p r
      | TxEip4844 f p r => let '(f, p) := dynamic f p in TxEip4844 f p r
      | TxEip4844WithSidecar f p r => let '(f, p) := dynamic f p in TxEip4844WithSidecar f p r
      end in
    if decide (old_fees = tx_fees tx') then None else Some tx'.
End Bump.
Arguments TypedTransaction : clear implicits.

(** ** What the arithmetic computes *)

Lemma capped_increase_value value multiplier cap :
  is_u128 value -> (multiplier < 2 ^ 32)%N ->
  capped_increase value multiplier cap =
    N.min (default U128_MAX cap) (N.min U128_MAX (value * multiplier / 100)).
Proof.
  intros Hv Hm. unfold capped_increase, division_parts, capped_increase_parts,
    u128_saturating_add, u128_saturating_mul.
  assert (value mod 100 < 100)%N as Hr by (by apply N.mod_lt).
  pose proof (N.div_mod value 100 ltac:(done)) as Hdiv.
  set (q := (value / 100)%N) in *. set (r := (value mod 100)%N) in *. clearbody q r.
  rewrite (N.mod_small (r * multiplier)) by (unfold U128_MAX; nia).
  assert (value * multiplier / 100 = q * multiplier + r * multiplier / 100)%N as ->.
  { rewrite Hdiv, N.mul_add_distr_r. rewrite <- N.mul_assoc, (N.mul_comm 100).
    by rewrite N.div_add_l. }
  clear. generalize (q * multiplier)%N, (r * multiplier / 100)%N, (default U128_MAX cap). lia.
Qed.

(** The overflow-free computation is exact.  For every [u128] fee and [u32] multiplier it
    gives the floor of the mathematical product over 100, cut off at the caller's cap and
    at the largest [u128]. *)
Theorem capped_increase_exact value multiplier cap :
  is_u128 value -> (multiplier < 2 ^ 32)%N ->
  capped_increase value multiplier cap =
    N.min (default U128_MAX cap) (N.min U128_MAX (value * multiplier / 100)).
Proof. apply capped_increase_value. Qed.

Lemma capped_increase_ge value multiplier cap :
  is_u128 value -> (100 <= multiplier < 2 ^ 32)%N -> (value <= default U128_MAX cap)%N ->
  (value <= capped_increase value multiplier cap)%N.
Proof.
  intros Hv Hm Hc. rewrite capped_increase_value by (done || lia).
  assert (value <= value * multiplier / 100)%N by (apply N.div_le_lower_bound; [done|nia]).
  unfold is_u128 in Hv. lia.
Qed.

Lemma capped_increase_cap value multiplier cap :
  (capped_increase value multiplier cap <= default U128_MAX cap)%N.
Proof. unfold capped_increase, capped_increase_parts, division_parts. lia. Qed.

(** Fees a request allows: within its caps, and the priority within the total. *)
Definition fees_allowed {A} (requested : option (TransactionTypeData A)) (fees : N * option N) : Prop :=
  (fees.1 <= default U128_MAX (fee_caps requested).1)%N /\
  match fees.2 with
  | Some priority => (priority <= default U128_MAX (fee_caps requested).2)%N /\ (priority <= fees.1)%N
  | None => True
  end.

(** At least as high in both components and higher in one. *)
Definition outbids (old new : N * option N) : Prop :=
  new <> old /\ (old.1 <= new.1)%N /\
  match old.2, new.2 with
  | Some p, Some p' => (p <= p')%N
  | None, None => True
  | _, _ => False
  end.

(** A replacement outbids within the caller's limits.  From a transaction whose fees
    respect the request, a bump either gives up (multiplier at most 100, or the caps leave
    the fees as they are) or yields the same transaction with fees that are nowhere lower
    and somewhere higher, still within the caps and with the priority within the total. *)
Theorem bump_outbids {A R} (tx : TypedTransaction R) multiplier (requested : option (TransactionTypeData A)) tx' :
  is_u128 (tx_fees tx).1 -> (multiplier < 2 ^ 32)%N -> fees_allowed requested (tx_fees tx) ->
  bump_transaction_fees tx multiplier requested = Some tx' ->
  (100 < multiplier)%N /\ tx_rest tx' = tx_rest tx /\ outbids (tx_fees tx) (tx_fees tx') /\
  fees_allowed requested (tx_fees tx').
Proof.
  intros Hu Hm Hok. unfold bump_transaction_fees. destruct (multiplier <=? 100)%N eqn:E; [done|].
  apply N.leb_gt in E. unfold fees_allowed, outbids in *.
  destruct (fee_caps requested) as [fc pc]. cbn [fst snd] in *.
  pose proof (capped_increase_ge (tx_fees tx).1 multiplier fc Hu ltac:(lia)) as Hge.
  pose proof (capped_increase_cap (tx_fees tx).1 multiplier fc) as Hcap.
  destruct tx as [g r|g r|f p r|f p r|f p r|f p r]; unfold capped_dynamic_fees; cbn [tx_fees fst snd] in *.
  all: case_decide as Hd; [done|]; intros [= <-]; cbn [tx_fees tx_rest fst snd] in *.
  all: destruct Hok as [Hok1 Hok2]; specialize (Hge Hok1).
  1,2: split_and!; try done; by intros [= ->].
  all: destruct Hok2 as [Hok2 Hok3]; unfold is_u128 in Hu;
    pose proof (capped_increase_ge p multiplier pc ltac:(unfold is_u128; lia) ltac:(lia) Hok2);
    pose proof (capped_increase_cap p multiplier pc).
  all: split_and!; try done; try lia; intros Heq; by apply Hd.
Qed.

(** An accepted fee request is consistent: a gas price excludes dynamic fees and
    authorizations, the priority fee is within the total fee, an authorization list is not
    empty, and the caps are the caller's numbers. *)
Theorem fee_request_consistent {A} (fields : FeeFields A) data :
  deserialize_transaction_type_data fields = Ok data ->
  fee_caps data = (match ff_gas_price fields with Some p => Some p | None => ff_max_fee_per_gas fields end,
                   ff_max_priority_fee_per_gas fields) /\
  (is_Some (ff_gas_price fields) -> ff_max_fee_per_gas fields = None /\
     ff_max_priority_fee_per_gas fields = None /\ ff_authorization_list fields = None) /\
  (∀ f p, fee_caps data = (Some f, Some p) -> (p <= f)%N) /\
  ff_authorization_list fields <> Some [] /\
  (data = None <-> fields = mkFeeFields None None None None).
Proof.
  destruct fields as [g f p a]. unfold deserialize_transaction_type_data. cbn.
  destruct g as [g|], f as [f|], p as [p|], a as [[|a l]|]; cbn; try done.
  all: try (destruct (f <? p)%N eqn:E; [done|apply N.ltb_ge in E]); intros [= <-]; cbn.
  all: split_and!; try done; try (by intros [? [=]]); try (by intros ? ? [=]); naive_solver.
Qed.

(** ** At concrete inputs *)

Lemma capped_increase_exact_witness :
  capped_increase 1001 120 (Some 5000%N) = N.min 5000 (N.min U128_MAX (1001 * 120 / 100)) /\
  capped_increase U128_MAX 4294967295 None = U128_MAX.
Proof.
  split; [apply (capped_increase_exact 1001 120 (Some 5000%N)); vm_compute; done|].
  rewrite (capped_increase_exact U128_MAX 4294967295 None) by (vm_compute; done). reflexivity.
Defined.

Definition tx0 : TypedTransaction unit := TxEip1559 100 10 tt.
Definition requested0 : option (TransactionTypeData unit) := Some (Eip1559 (Some 115%N) None).

Lemma bump_outbids_witness :
  bump_transaction_fees tx0 120 requested0 = Some (TxEip1559 115 12 tt) /\
  outbids (tx_fees tx0) (115, Some 12)%N /\ fees_allowed requested0 (115, Some 12)%N.
Proof.
  assert (bump_transaction_fees tx0 120 requested0 = Some (TxEip1559 115 12 tt)) as Hb by (vm_compute; reflexivity).
  destruct (bump_outbids tx0 120 requested0 (TxEip1559 115 12 tt)) as (_ & _ & H3 & H4);
    [vm_compute; discriminate|reflexivity| |exact Hb|].
  - split; [vm_compute; discriminate|split; vm_compute; discriminate].
  - split; [exact Hb|split; [exact H3|exact H4]].
Defined.

Lemma fee_request_consistent_witness :
  deserialize_transaction_type_data (mkFeeFields (Authorization:=unit) None (Some 9%N) (Some 2%N) None)
    = Ok (Some (Eip1559 (Some 9%N) (Some 2%N))) /\ (2 <= 9)%N.
Proof.
  assert (deserialize_transaction_type_data (mkFeeFields (Authorization:=unit) None (Some 9%N) (Some 2%N) None)
    = Ok (Some (Eip1559 (Some 9%N) (Some 2%N)))) as H by reflexivity.
  split; [exact H|]. destruct (fee_request_consistent _ _ H) as (_ & _ & H3 & _). apply (H3 9%N 2%N eq_refl).
Defined.
