(* ===== verification/WorkerProg.v ===== *)
(** Programs of the EOA worker (executors/src/eoa/worker): calls on the owner-fenced
    store, on the recovery journal, and on the outside world (the chain's RPC, the
    signer, the clock).

    A worker program is a tree of such calls.  A run takes one turn per call: the turn
    says what the other workers of the process did to the world before the call, and
    holds the schedule of other Redis clients and lost replies for a store call, the
    turns of the journal's world for a journal call, and the answer of an outside call.
    Futures that run side by side are interleaved call by call, in any order.
    The run returns the calls it made, each with its answer and the world it was made
    in, so that theorems can speak about the moment a transaction leaves the process. *)

From Stdlib Require Import String Ascii NArith ZArith Lia.
From stdpp Require Import base gmap strings option list fin_maps.
From S2P Require Import Prelude Json JsonValue Redis RedisProg Errors FinalityTypes Fees.
From S2P Require Import RecoveryLedger RecoveryChecks EngineProg RecoveryJournal RecoveryOps.
From S2P Require Import Finality QueueTypes Webhook EoaTypes EoaErrors ExecRecovery.
From S2P Require Import EoaKeys EoaAtomic EoaStore EoaPending EoaBorrowed EoaSubmitted EoaOps.

(** ** What other crates provide *)

(** alloy's [TransactionRequest], the fields the worker sets. *)
Record AlloyRequest (Auth : Type) := mkAlloyRequest {
  ar_from : option string;
  ar_to : option string;
  ar_value : option N;
  ar_input : option string;
  ar_chain_id : option N;
  ar_nonce : option N;
  ar_gas : option N;
  ar_gas_price : option N;
  ar_max_fee_per_gas : option N;
  ar_max_priority_fee_per_gas : option N;
  ar_authorization_list : option (list Auth)
}.
Arguments mkAlloyRequest {_}.
Arguments ar_from {_}.
Arguments ar_to {_}.
Arguments ar_value {_}.
Arguments ar_input {_}.
Arguments ar_chain_id {_}.
Arguments ar_nonce {_}.
Arguments ar_gas {_}.
Arguments ar_gas_price {_}.
Arguments ar_max_fee_per_gas {_}.
Arguments ar_max_priority_fee_per_gas {_}.
Arguments ar_authorization_list {_}.

(** Building, signing and encoding transactions, reading receipts and documents. *)
Class WorkerWire `{SignedWire} := {
  TxRest : Type;
  type_data : EoaTypes.TransactionTypeData -> Fees.TransactionTypeData Authorization;
  build_typed_tx : AlloyRequest Authorization -> result string (TypedTransaction TxRest);
  typed_to_request : TypedTransaction TxRest -> AlloyRequest Authorization;
  Signature : Type;
  parse_signature : string -> result string Signature;
  into_signed : TypedTransaction TxRest -> Signature -> SignedTx;
  with_kms_cache : SigningCredential -> SigningCredential;
  as_revert_data : Z -> string -> option string -> option string;
  decode_2718 : string -> result string (SignedTx * string);
  hex_decode : string -> result string string;
  parse_b256 : string -> option string;
  value_to_b256 : Value -> result string string;
  value_to_request : Value -> result string EoaTransactionRequest;
  receipt_eip658 : TransactionReceipt -> option bool;
  receipt_to_json : TransactionReceipt -> option string;
  receipt_debug : TransactionReceipt -> string;
  worker_error : WorkerError -> EoaExecutorWorkerError
}.

Section Programs.
Context `{WorkerWire}.

Definition receipt_view (r : TransactionReceipt) : ReceiptView :=
  mkReceipt (receipt_transaction_hash r) (receipt_eip658 r) (receipt_block_number r) (receipt_block_hash r).

(** ** Calls *)

Definition rpc_result := result AlloyRpcError.

(** Calls on the outside world.  [Scheduled] is the executor's choice where futures run
    side by side, [Completed] the order in which unordered futures complete. *)
Inductive outside : Type -> Type :=
| Clock : outside N
| Scheduled : outside nat
| Completed : outside (list nat)
| GetBalance (address : string) : outside (rpc_result N)
| GetTransactionCount (address : string) (pending : bool) : outside (rpc_result N)
| GetTransactionCountAt (address : string) (tag : BlockTag) : outside (rpc_result N)
| GetBlockNumber : outside (rpc_result N)
| GetTransactionReceipt (hash : string) : outside (rpc_result (option TransactionReceipt))
| EstimateGas (request : AlloyRequest Authorization) : outside (rpc_result N)
| EstimateEip1559Fees : outside (rpc_result (N * N))
| GetGasPrice : outside (rpc_result N)
| SendTxEnvelope (tx : SignedTx) : outside (rpc_result string)
| SendRawTransaction (wire : string) : outside (rpc_result string)
| SignTransaction (from : string) (chain_id : N) (tx : TypedTransaction TxRest)
    (credential : SigningCredential) : outside (result EngineError string)
| IsMinimalAccount (address : string) : outside (result EngineError bool).

(** The RPC node is silent when a run has no turn left. *)
Definition silent {B} (q : outside B) : B :=
  match q with
  | Clock => 0%N
  | Scheduled => 0
  | Completed => []
  | GetBalance _ | GetTransactionCount _ _ | GetTransactionCountAt _ _ | GetBlockNumber
  | EstimateGas _ | GetGasPrice => Err AlloyNullResp
  | GetTransactionReceipt _ => Err AlloyNullResp
  | EstimateEip1559Fees => Err AlloyNullResp
  | SendTxEnvelope _ | SendRawTransaction _ => Err AlloyNullResp
  | SignTransaction _ _ _ _ => Err (EngInternalError "silent")
  | IsMinimalAccount _ => Err (EngInternalError "silent")
  end.

(** Calls on the store: its operations, and the two Redis calls of the gap replay. *)
Inductive store_op : Type -> Type :=
| OpAcquire : store_op (store_result unit)
| OpRelease : store_op (store_result unit)
| OpOwned : store_op (store_result unit)
| OpGetHealth : store_op (store_result (option EoaHealth))
| OpUpdateHealth (health : EoaHealth) : store_op (store_result unit)
| OpPeekBorrowed : store_op (store_result (list BorrowedTransactionData))
| OpHydrateAll (l : list BorrowedTransactionData) : store_op (store_result (list BorrowedTransaction))
| OpPeekPending (limit : N) : store_op (store_result (list PendingTransaction))
| OpPeekPendingOlder (cutoff limit : N) : store_op (store_result (list PendingTransaction))
| OpPeekPendingWithNonce (limit : N) : store_op (store_result (list PendingTransaction * N))
| OpMoveIncremented (txs : list BorrowedTransactionData) : store_op (store_result nat)
| OpMoveRecycled (txs : list BorrowedTransactionData) : store_op (store_result nat)
| OpProcessBorrowed (results : list SubmissionResult) : store_op (store_result BorrowedProcessingReport)
| OpCleanRecycled : store_op (store_result (list N))
| OpInflightBudget (max_inflight : N) : store_op (store_result N)
| OpFailBatch (failures : list (PendingTransaction * WorkerError)) : store_op (store_result unit)
| OpNoops (noops : list SubmittedNoopTransaction) : store_op (store_result unit)
| OpCounts : store_op (store_result EoaExecutorCounts)
| OpManualReset : store_op (store_result bool)
| OpResetNonces (count : N) : store_op (store_result unit)
| OpCachedCount : store_op (store_result N)
| OpUpdateCachedCount (count : N) : store_op (store_result unit)
| OpSubmittedCount : store_op (store_result N)
| OpHighestSubmitted : store_op (store_result (list SubmittedTransactionDehydrated))
| OpSubmittedForNonce (nonce : N) : store_op (store_result (list SubmittedTransactionDehydrated))
| OpTransactionData (id : string) : store_op (store_result (option TransactionData))
| OpGasBump (submitted : SubmittedTransactionDehydrated) (tx : SignedTx) : store_op (store_result unit)
| OpSubmittedPage (count offset limit : N)
    : store_op (store_result (list SubmittedTransactionDehydrated * N))
| OpCleanSubmitted (confirmed : list ConfirmedTransaction) (counts : TransactionCounts)
    : store_op (store_result CleanupReport)
| OpGapGet : store_op (result redis_error (option string))
| OpGapSet (encoded : string) : store_op (store_result unit)
| OpGapDelete : store_op (store_result unit)
| OpNonceRow (nonce : N) : store_op (result redis_error (list (string * N))).

(** ** Programs *)

Inductive wprog (A : Type) : Type :=
| WRet (a : A)
| WStore {B : Type} (o : store_op B) (k : B -> wprog A)
| WJournal {B : Type} (p : eprog B) (k : B -> wprog A)
| WCall {B : Type} (q : outside B) (k : B -> wprog A).

Fixpoint wbind {A B} (p : wprog A) (g : A -> wprog B) : wprog B :=
  match p with
  | WRet _ a => g a
  | WStore _ o k => WStore _ o (fun b => wbind (k b) g)
  | WJournal _ p k => WJournal _ p (fun b => wbind (k b) g)
  | WCall _ q k => WCall _ q (fun b => wbind (k b) g)
  end.
End Programs.
Arguments WRet {_ _ _} {A} _.
Arguments WStore {_ _ _} {A B} _ _.
Arguments WJournal {_ _ _} {A B} _ _.
Arguments WCall {_ _ _} {A B} _ _.

Notation "'act*' x ':=' p 'in' q" := (wbind p (fun x => q))
  (at level 10, x pattern, p at level 100, q at level 200) : engine_scope.
(** The [?] operator. *)
Notation "'act!' x ':=' p 'in' q" :=
  (wbind p (fun r => match r with Ok x => q | Err e => WRet (Err e) end))
  (at level 10, x pattern, p at level 100, q at level 200) : engine_scope.

Definition store_call `{WorkerWire} {B} (o : store_op B) : wprog B := WStore o WRet.
Definition journal_step `{WorkerWire} {B} (p : eprog B) : wprog B := WJournal p WRet.
Definition call_out `{WorkerWire} {B} (q : outside B) : wprog B := WCall q WRet.

(** ** Futures side by side *)

Section Futures.
Context `{WorkerWire}.

(** Two programs whose calls the executor interleaves as it likes. *)
Fixpoint interleave {A B} (p : wprog A) : wprog B -> wprog (A * B) :=
  fix right (q : wprog B) : wprog (A * B) :=
    WCall Scheduled (fun choice =>
      if Nat.eqb choice 0 then
        match p with
        | WRet a => wbind q (fun b => WRet (a, b))
        | WStore o k => WStore o (fun x => interleave (k x) q)
        | WJournal e k => WJournal e (fun x => interleave (k x) q)
        | WCall c k => WCall c (fun x => interleave (k x) q)
        end
      else
        match q with
        | WRet b => wbind p (fun a => WRet (a, b))
        | WStore o k => WStore o (fun x => right (k x))
        | WJournal e k => WJournal e (fun x => right (k x))
        | WCall c k => WCall c (fun x => right (k x))
        end).

(** [stream::iter(..).buffered(n).collect()]: the results in input order.  The bound [n]
    only removes interleavings. *)
Fixpoint buffered {A} (ps : list (wprog A)) : wprog (list A) :=
  match ps with
  | [] => WRet []
  | p :: ps' => act* (a, l) := interleave p (buffered ps') in WRet (a :: l)
  end.

(** [buffer_unordered]: the results in the order of completion. *)
Fixpoint reorder {A} (order : list nat) (l : list A) : list A :=
  match l with
  | [] => []
  | a :: l' => let rest := reorder (tail order) l' in
      let n := hd 0 order in firstn n rest ++ a :: skipn n rest
  end.
Definition buffer_unordered {A} (ps : list (wprog A)) : wprog (list A) :=
  act* results := buffered ps in
  act* order := call_out Completed in
  WRet (reorder order results).
End Futures.

(** ** Runs *)

Section Runs.
Context `{WorkerWire} `{!Json EoaTransactionRequest, !Json BorrowedTransactionData,
  !Json TransactionAttempt, !Json EoaHealth, !Json TransactionReceipt}
  `{!Json (WebhookNotificationEnvelope EoaEventPayload), !Json WebhookJobPayload}.
(** The worker's store: its account, its owner token, the webhook queue, and the
    configured lifetime of completed records. *)
Context (ks : EoaExecutorStoreKeys) (worker_id wq : string).
Context (finality_json : FinalityEvidence -> string) (completed_transaction_ttl_seconds : N).

(** [gap_replay_key] *)
Definition gap_replay_key : string := eoa_health_key_name ks +:+ ":gap_replay".

(** ZRANGEBYSCORE nonce nonce WITHSCORES LIMIT 0 1 *)
Definition nonce_row (nonce : N) (σ : redis) : list (string * N) :=
  firstn 1 (zrangebyscore (zset σ (submitted_transactions_zset_name ks)) nonce nonce).

(** The program behind each call; [uuid] supplies the identifiers of the webhook jobs
    queued by this call. *)
Definition store_prog (uuid : nat -> nat -> string) {B} (o : store_op B) : prog B :=
  match o with
  | OpAcquire => acquire_eoa_lock_aggressively ks worker_id
  | OpRelease => release_eoa_lock ks worker_id
  | OpOwned => ensure_eoa_lock_owned ks worker_id
  | OpGetHealth => get_eoa_health ks
  | OpUpdateHealth health => update_health_data ks worker_id health
  | OpPeekBorrowed => peek_borrowed_transactions ks
  | OpHydrateAll l => hydrate_all ks l
  | OpPeekPending limit => peek_pending_transactions ks limit
  | OpPeekPendingOlder cutoff limit => peek_pending_transactions_older_than ks cutoff limit
  | OpPeekPendingWithNonce limit => peek_pending_transactions_with_optimistic_nonce ks limit
  | OpMoveIncremented txs => atomic_move_pending_to_borrowed_with_incremented_nonces ks worker_id txs
  | OpMoveRecycled txs => atomic_move_pending_to_borrowed_with_recycled_nonces ks worker_id txs
  | OpProcessBorrowed results => process_borrowed_transactions ks worker_id wq uuid results
  | OpCleanRecycled => clean_and_get_recycled_nonces ks worker_id
  | OpInflightBudget max_inflight => get_inflight_budget ks max_inflight
  | OpFailBatch failures =>
      fail_pending_transactions_batch ks worker_id wq uuid completed_transaction_ttl_seconds
        (map (fun f => (f.1, worker_error f.2)) failures)
  | OpNoops noops => process_noop_transactions ks worker_id noops
  | OpCounts => get_all_counts ks
  | OpManualReset => is_manual_reset_scheduled ks
  | OpResetNonces count => reset_nonces ks worker_id count
  | OpCachedCount => get_cached_transaction_count ks
  | OpUpdateCachedCount count => update_cached_transaction_count ks worker_id count
  | OpSubmittedCount => get_submitted_transactions_count ks
  | OpHighestSubmitted => get_highest_submitted_nonce_tranasactions ks
  | OpSubmittedForNonce nonce => get_submitted_transactions_for_nonce ks nonce
  | OpTransactionData id => get_transaction_data ks id
  | OpGasBump submitted tx => add_gas_bump_attempt ks worker_id submitted tx
  | OpSubmittedPage count offset limit => get_submitted_transaction_page ks count offset limit
  | OpCleanSubmitted confirmed counts =>
      clean_submitted_transactions ks worker_id wq uuid finality_json completed_transaction_ttl_seconds
        confirmed counts
  | OpGapGet => Atomic (fun σ => (σ, str σ gap_replay_key)) Ret
  | OpGapSet encoded => with_lock_check ks worker_id (fun _ => ([SET gap_replay_key encoded], tt))
  | OpGapDelete => with_lock_check ks worker_id (fun _ => ([DEL gap_replay_key], tt))
  | OpNonceRow nonce => Atomic (fun σ => (σ, nonce_row nonce σ)) Ret
  end.

(** One turn per call. *)
Record wturn := mkWturn {
  wt_others : world -> world;
  wt_sched : schedule;
  wt_uuid : nat -> nat -> string;
  wt_turns : list turn;
  wt_answer : ∀ B, outside B -> B
}.
Definition silent_turn : wturn := mkWturn id [] (fun _ _ => "") [] (@silent _ _ _).
Definition next_wturn (ts : list wturn) : wturn * list wturn :=
  match ts with [] => (silent_turn, []) | t :: ts' => (t, ts') end.

Definition set_data (σ : redis) (w : world) : world :=
  mkWorld (w_disk w) (w_failed w) (mkServer σ (sv_run_id (w_server w)) (sv_role (w_server w))).
Definition data_of (w : world) : redis := sv_data (w_server w).

(** A call with its answer. *)
Inductive done :=
| DidStore {B : Type} (o : store_op B) (b : B)
| DidCall {B : Type} (q : outside B) (b : B).

Fixpoint wrun {A} (p : wprog A) (ts : list wturn) (w : world) : A * world * list (done * world) :=
  let '(t, ts') := next_wturn ts in
  let w := wt_others t w in
  match p with
  | WRet a => (a, w, [])
  | WStore o k =>
      let '(b, (_, _, σ)) := run (store_prog (wt_uuid t) o) (wt_sched t) idle (data_of w) in
      let '(a, w', tr) := wrun (k b) ts' (set_data σ w) in (a, w', (DidStore o b, w) :: tr)
  | WJournal p k =>
      let '(b, w1, _) := erun p (wt_turns t) w in wrun (k b) ts' w1
  | WCall q k =>
      let b := wt_answer t _ q in
      let '(a, w', tr) := wrun (k b) ts' w in (a, w', (DidCall q b, w) :: tr)
  end.
End Runs.
Arguments DidStore {_ _ _} {B} _ _.
Arguments DidCall {_ _ _} {B} _ _.
