(* ===== verification/WorkerBuild.v ===== *)
(** Preparing EOA transactions (executors/src/eoa/worker/transaction.rs): fees, gas, the
    checks before signing, signing, and the NOOP that uses up a recycled nonce. *)

From Stdlib Require Import String Ascii NArith ZArith Lia.
From stdpp Require Import base gmap strings option list fin_maps.
From S2P Require Import Prelude Json JsonValue Redis RedisProg Errors FinalityTypes Fees.
From S2P Require Import RecoveryLedger RecoveryChecks EngineProg RecoveryJournal RecoveryOps.
From S2P Require Import Finality QueueTypes Webhook EoaTypes EoaErrors ExecRecovery WorkerProg.
From S2P Require Import EoaKeys EoaAtomic EoaStore.

Definition GAS_ESTIMATION_FIXED_OVERHEAD : N := 50000.
Definition ETHERLINK_CHAIN_ID : N := 42793.
Definition ETHERLINK_GAS_PER_AUTHORIZATION : N := 500000.
Definition MAX_PREPARATION_RETRIES : nat := 3.
Definition PREPARATION_RETRY_DELAY_MS : N := 100.

(** [str::to_ascii_lowercase] *)
Fixpoint to_ascii_lowercase (s : string) : string :=
  match s with
  | EmptyString => EmptyString
  | String c s' =>
      let n := N_of_ascii c in
      String (if (65 <=? n)%N && (n <=? 90)%N then ascii_of_N (n + 32) else c) (to_ascii_lowercase s')
  end.

Definition is_invalid_preflight_envelope (message : string) : bool :=
  let message := to_ascii_lowercase message in
  existsb (fun reason => contains reason message)
    [ "intrinsic gas too low"; "intrinsic gas exceeds"; "exceeds block gas limit";
      "transaction gas limit too high"; "unsupported transaction type";
      "transaction type not supported"; "oversized"; "max initcode size exceeded" ].

(** [u64] arithmetic of a release build. *)
Definition u64_wrap (n : N) : N := (n mod (U64_MAX + 1))%N.
Definition with_gas_buffer (gas_limit : N) : N :=
  u64_wrap (u64_wrap (gas_limit * 120) / 100 + GAS_ESTIMATION_FIXED_OVERHEAD).

(** The process: whether it runs with a recovery journal, and the text of errors:
    [serde_error] of decoding a text, [encode_error] of encoding a value. *)
Class Process := mkProcess {
  journal : bool;
  alloy_to_string : AlloyRpcError -> string;
  engine_error_to_string : EngineError -> string;
  store_error_to_string : TransactionStoreError -> string;
  redis_error_to_string : redis_error -> string;
  serde_error : string -> string;
  encode_error : string
}.

(** [EoaExecutorWorker]: one wallet on one chain.  The configuration admits a broadcast
    concurrency of 1 to 128, so the worker's assertion that it is positive holds. *)
Class Worker `{WorkerWire} := mkWorker {
  wk_eoa : string;
  wk_chain : ChainView;
  wk_chain_id : N;
  wk_noop_credential : SigningCredential;
  wk_max_inflight : N;
  wk_broadcast_concurrency : positive;
  wk_use_pending : bool
}.
Arguments mkWorker {_ _ _}.

(** The request's setters. *)
Section Setters.
Context {Auth : Type}.
Implicit Types r : AlloyRequest Auth.
Definition with_gas_limit (g : N) r := mkAlloyRequest (ar_from r) (ar_to r) (ar_value r) (ar_input r) (ar_chain_id r)
  (ar_nonce r) (Some g) (ar_gas_price r) (ar_max_fee_per_gas r) (ar_max_priority_fee_per_gas r) (ar_authorization_list r).
Definition with_gas_price (g : N) r := mkAlloyRequest (ar_from r) (ar_to r) (ar_value r) (ar_input r) (ar_chain_id r)
  (ar_nonce r) (ar_gas r) (Some g) (ar_max_fee_per_gas r) (ar_max_priority_fee_per_gas r) (ar_authorization_list r).
Definition with_max_fee (g : N) r := mkAlloyRequest (ar_from r) (ar_to r) (ar_value r) (ar_input r) (ar_chain_id r)
  (ar_nonce r) (ar_gas r) (ar_gas_price r) (Some g) (ar_max_priority_fee_per_gas r) (ar_authorization_list r).
Definition with_max_priority (g : N) r := mkAlloyRequest (ar_from r) (ar_to r) (ar_value r) (ar_input r) (ar_chain_id r)
  (ar_nonce r) (ar_gas r) (ar_gas_price r) (ar_max_fee_per_gas r) (Some g) (ar_authorization_list r).
Definition with_authorizations (l : list Auth) r := mkAlloyRequest (ar_from r) (ar_to r) (ar_value r) (ar_input r)
  (ar_chain_id r) (ar_nonce r) (ar_gas r) (ar_gas_price r) (ar_max_fee_per_gas r) (ar_max_priority_fee_per_gas r) (Some l).
Definition with_from (a : string) r := mkAlloyRequest (Some a) (ar_to r) (ar_value r) (ar_input r) (ar_chain_id r)
  (ar_nonce r) (ar_gas r) (ar_gas_price r) (ar_max_fee_per_gas r) (ar_max_priority_fee_per_gas r) (ar_authorization_list r).
(** [if let Some(x) = o { r = set(x) }] *)
Definition set_if {A} (o : option A) (set : A -> AlloyRequest Auth -> AlloyRequest Auth) r : AlloyRequest Auth :=
  match o with Some a => set a r | None => r end.
End Setters.

Section Build.
Context `{WorkerWire} `{Primitives} `{!Json Value, !Json FinalityEvidence} `{!Process, !Worker}.

Definition wresult := result WorkerError.
Definition engine_error (e : AlloyRpcError) : EngineError :=
  to_engine_error alloy_to_string (ch_chain_id wk_chain) (ch_rpc_scheme wk_chain) e.
Definition diagnostic (e : AlloyRpcError) : string := rpc_error_diagnostic alloy_to_string e.
(** [RpcError { message, inner_error: e.to_engine_error(..) }] *)
Definition rpc_failure {A} (message : string) (e : AlloyRpcError) : wresult A := Err (WeRpcError message (engine_error e)).

(** [EoaExecutorWorkerError::from] of a store error, and a store call with [?]. *)
Definition from_store_error (e : TransactionStoreError) : WorkerError := WeStoreError (store_error_to_string e) e.
Definition store_act {A} (o : store_op (store_result A)) : wprog (wresult A) :=
  act* r := store_call o in
  WRet (match r with Ok a => Ok a | Err e => Err (from_store_error e) end).

(** ** Fees *)

Definition legacy_refused : string :=
  "Cannot estimate explicit EIP-1559 fees on this chain; refusing legacy fallback that would discard caller fee limits".

Definition estimate_gas_fees (tx : AlloyRequest Authorization) : wprog (wresult (AlloyRequest Authorization)) :=
  if is_some (ar_gas_price tx) then WRet (Ok tx)
  else if is_some (ar_max_fee_per_gas tx) && is_some (ar_max_priority_fee_per_gas tx) then WRet (Ok tx)
  else
    act* fees := call_out EstimateEip1559Fees in
    match fees with
    | Ok (max_fee, max_priority) =>
        let tx := if is_some (ar_max_fee_per_gas tx) then tx else with_max_fee max_fee tx in
        let tx := if is_some (ar_max_priority_fee_per_gas tx) then tx else with_max_priority max_priority tx in
        WRet (Ok tx)
    | Err eip1559_error =>
        if is_unsupported_eip1559_error eip1559_error then
          if is_some (ar_max_fee_per_gas tx) || is_some (ar_max_priority_fee_per_gas tx)
          then WRet (Err (WeTransactionBuildFailed legacy_refused))
          else if is_some (ar_authorization_list tx)
          then WRet (Err (WeTransactionBuildFailed "EIP7702 transactions not supported on chain"))
          else
            act* price := call_out GetGasPrice in
            match price with
            | Ok gas_price => WRet (Ok (with_gas_price gas_price tx))
            | Err e => WRet (rpc_failure ("Failed to get legacy gas price: " +:+ diagnostic e) e)
            end
        else WRet (rpc_failure ("Failed to estimate EIP-1559 fees: " +:+ diagnostic eip1559_error) eip1559_error)
    end.

(** The request the node is asked about: what the client wants, with the nonce. *)
Definition base_request (request : EoaTransactionRequest) (nonce : N) : AlloyRequest Authorization :=
  mkAlloyRequest (Some (rq_from request)) (rq_to request) (Some (rq_value request)) (Some (rq_data request))
    (Some (rq_chain_id request)) (Some nonce) (rq_gas_limit request) None None None None.

Definition estimate_missing (req : AlloyRequest Authorization) : wprog (wresult (AlloyRequest Authorization)) :=
  if negb (is_some (ar_max_fee_per_gas req)) || negb (is_some (ar_max_priority_fee_per_gas req))
  then estimate_gas_fees req else WRet (Ok req).

Definition request_fees (request : EoaTransactionRequest) (tx_request : AlloyRequest Authorization)
    : wprog (wresult (AlloyRequest Authorization)) :=
  match type_data <$> rq_transaction_type_data request with
  | Some (Eip1559 max_fee max_priority) =>
      estimate_missing (set_if max_priority with_max_priority (set_if max_fee with_max_fee tx_request))
  | Some (Legacy (Some gas_price)) => WRet (Ok (with_gas_price gas_price tx_request))
  | Some (Legacy None) => estimate_gas_fees tx_request
  | Some (Eip7702 authorization_list max_fee max_priority) =>
      let req := match authorization_list with
                 | Some ((_ :: _) as l) => with_authorizations l tx_request
                 | _ => tx_request
                 end in
      estimate_missing (set_if max_priority with_max_priority (set_if max_fee with_max_fee req))
  | None => estimate_gas_fees tx_request
  end.

(** ** Gas *)

(** An estimate the node refused: what it says of the transaction. *)
Definition estimate_failure {A} (e : AlloyRpcError) : wresult A :=
  let other := rpc_failure ("Gas estimation failed: " +:+ engine_error_to_string (engine_error e)) e in
  match e with
  | AlloyErrorResp code message data =>
      match as_revert_data code message data with
      | Some revert_data =>
          Err (WeTransactionSimulationFailed ("Transaction reverted during gas estimation: " +:+ message +:+
                 " (revert: " +:+ hex_encode revert_data +:+ ")") (engine_error e))
      | None =>
          if contains "revert" (to_lowercase message)
          then Err (WeTransactionSimulationFailed ("Transaction reverted during gas estimation: " +:+ message)
                      (engine_error e))
          else if is_invalid_preflight_envelope message
          then Err (WeTransactionSimulationFailed
                      ("Transaction rejected before signing during gas estimation: " +:+ message) (engine_error e))
          else other
      end
  | _ => other
  end.

Definition request_gas (tx_request : AlloyRequest Authorization) : wprog (wresult (AlloyRequest Authorization)) :=
  if is_some (ar_gas tx_request) then WRet (Ok tx_request)
  else
    act* estimate := call_out (EstimateGas tx_request) in
    WRet (match estimate with
          | Ok gas_limit => Ok (with_gas_limit (with_gas_buffer gas_limit) tx_request)
          | Err e => estimate_failure e
          end).

Definition etherlink_gas (request : EoaTransactionRequest) (tx_request : AlloyRequest Authorization)
    : AlloyRequest Authorization :=
  if (rq_chain_id request =? ETHERLINK_CHAIN_ID)%N && negb (is_some (rq_gas_limit request)) then
    match ar_authorization_list tx_request with
    | Some auth_list =>
        let extra := u64_wrap (N.of_nat (length auth_list) * ETHERLINK_GAS_PER_AUTHORIZATION) in
        with_gas_limit (u64_wrap (default 0%N (ar_gas tx_request) + extra)) tx_request
    | None => tx_request
    end
  else tx_request.

(** A priority fee above the total fee is refused. *)
Definition fee_pair_check (tx_request : AlloyRequest Authorization) : wresult unit :=
  match ar_max_fee_per_gas tx_request, ar_max_priority_fee_per_gas tx_request with
  | Some max_fee, Some priority =>
      if (max_fee <? priority)%N
      then Err (WeTransactionBuildFailed
             "Estimated maxPriorityFeePerGas exceeds maxFeePerGas; refusing an invalid fee pair")
      else Ok tt
  | _, _ => Ok tt
  end.

Definition built (context : string) (r : result string (TypedTransaction TxRest))
    : wresult (TypedTransaction TxRest) :=
  match r with
  | Ok tx => Ok tx
  | Err e => Err (WeTransactionBuildFailed (context +:+ e))
  end.

Definition build_typed_transaction (request : EoaTransactionRequest) (nonce : N)
    : wprog (wresult (TypedTransaction TxRest)) :=
  act! _ := journal_step (validate_eoa_nonce engine_error_to_string journal request nonce) in
  act! tx_request := request_fees request (base_request request nonce) in
  act! tx_request := request_gas tx_request in
  let tx_request := etherlink_gas request tx_request in
  act! _ := WRet (fee_pair_check tx_request) in
  WRet (built "Failed to build typed transaction: " (build_typed_tx tx_request)).

(** ** Signing *)

(** [recovery::ensure_healthy]: nothing without a journal. *)
Definition ensure_journal : eprog (wresult unit) :=
  if negb journal then ERet (Ok tt) else eoa_journal engine_error_to_string ensure_healthy.

Definition sign_transaction (typed_tx : TypedTransaction TxRest) (credential : SigningCredential)
    : wprog (wresult SignedTx) :=
  act! _ := journal_step ensure_journal in
  act* signature := call_out (SignTransaction wk_eoa wk_chain_id typed_tx credential) in
  WRet (match signature with
        | Err e => Err (WeSigningError ("Failed to sign transaction: " +:+ engine_error_to_string e) e)
        | Ok text =>
            match parse_signature text with
            | Err e => Err (WeSignatureParsingFailed ("Failed to parse signature: " +:+ e))
            | Ok signature => Ok (into_signed typed_tx signature)
            end
        end).

Definition validate_supplied_gas (request : EoaTransactionRequest) (typed_tx : TypedTransaction TxRest)
    : wprog (wresult unit) :=
  match rq_gas_limit request with
  | None => WRet (Ok tt)
  | Some gas_limit =>
      act* estimate := call_out (EstimateGas (with_from (rq_from request) (typed_to_request typed_tx))) in
      let other e := rpc_failure ("Pre-sign gas validation failed: " +:+ diagnostic e) e in
      WRet (match estimate with
            | Ok estimate =>
                if (gas_limit <? estimate)%N
                then Err (WeTransactionBuildFailed ("Supplied gasLimit " +:+ u64_to_string gas_limit +:+
                            " is below the node estimate " +:+ u64_to_string estimate))
                else Ok tt
            | Err (AlloyErrorResp code message data as error) =>
                if is_invalid_preflight_envelope message
                then Err (WeTransactionSimulationFailed ("Transaction rejected before signing: " +:+ message)
                            (engine_error error))
                else if is_some (as_revert_data code message data)
                        || contains "execution reverted" (to_ascii_lowercase message)
                then Ok tt
                else other error
            | Err error => other error
            end)
  end.

Definition build_and_sign_transaction (request : EoaTransactionRequest) (nonce : N)
    : wprog (wresult SignedTx) :=
  act! _ := journal_step (as_eoa engine_error_to_string
    (validate journal "eoa" (rq_transaction_id request) (request_to_value request))) in
  act! typed_tx := build_typed_transaction request nonce in
  act! _ := validate_supplied_gas request typed_tx in
  sign_transaction typed_tx (with_kms_cache (rq_signing_credential request)).

Definition build_and_sign_single_transaction (pending_transaction : PendingTransaction) (nonce : N)
    : wprog (wresult BorrowedTransaction) :=
  act! signed_tx := build_and_sign_transaction (pt_user_request pending_transaction) nonce in
  act* now := call_out Clock in
  WRet (Ok (mkBorrowed
    (mkBorrowedData (pt_transaction_id pending_transaction) signed_tx (pt_queued_at pending_transaction)
       (tx_hash signed_tx) now)
    (pt_user_request pending_transaction))).

(** [for attempt in 0..=MAX_PREPARATION_RETRIES]; waiting between attempts changes
    nothing. *)
Fixpoint preparation_attempts (left : nat) (pending_transaction : PendingTransaction) (nonce : N)
    : wprog (wresult BorrowedTransaction) :=
  act* r := build_and_sign_single_transaction pending_transaction nonce in
  match r, left with
  | Err error, S left' =>
      if is_retryable_preparation_error error then preparation_attempts left' pending_transaction nonce
      else WRet r
  | _, _ => WRet r
  end.
Definition build_and_sign_single_transaction_with_retries (pending_transaction : PendingTransaction) (nonce : N)
    : wprog (wresult BorrowedTransaction) :=
  preparation_attempts MAX_PREPARATION_RETRIES pending_transaction nonce.

Definition apply_gas_bump_to_typed_transaction (typed_tx : TypedTransaction TxRest) (bump_multiplier : N)
    (request : EoaTransactionRequest) : option (TypedTransaction TxRest) :=
  bump_transaction_fees typed_tx bump_multiplier (type_data <$> rq_transaction_type_data request).

(** ** NOOPs *)

Definition noop_request (nonce : N) : AlloyRequest Authorization :=
  mkAlloyRequest (Some wk_eoa) (Some wk_eoa) (Some 0%N) (Some "") (Some (ch_chain_id wk_chain)) (Some nonce)
    None None None None None.

Definition build_and_sign_noop_transaction (nonce : N) : wprog (wresult SignedTx) :=
  act* estimate := call_out (EstimateGas (noop_request nonce)) in
  match estimate with
  | Err e => WRet (rpc_failure ("NOOP gas estimation failed: " +:+ diagnostic e) e)
  | Ok gas_limit =>
      act! tx_request := estimate_gas_fees (with_gas_limit gas_limit (noop_request nonce)) in
      act! built_tx := WRet (built "Failed to build typed transaction for no-op: " (build_typed_tx tx_request)) in
      sign_transaction built_tx wk_noop_credential
  end.

Definition send_noop_transaction (nonce : N) : wprog (wresult SubmittedNoopTransaction) :=
  act! recovery_id := journal_step (reserve_noop engine_error_to_string journal wk_chain_id wk_eoa nonce) in
  act! tx := build_and_sign_noop_transaction nonce in
  act! _ := journal_step (before_noop engine_error_to_string journal recovery_id wk_chain_id wk_eoa tx) in
  let submitted := mkNoop nonce (tx_hash tx) in
  act! _ := store_act (OpNoops [submitted]) in
  act* sent := call_out (SendTxEnvelope tx) in
  WRet (match sent with
        | Ok _ => Ok submitted
        | Err e => Err (WeTransactionSendError
            ("NOOP broadcast outcome unknown; retaining reserved identity: " +:+ diagnostic e) (engine_error e))
        end).

(** ** The wallet's health (worker/mod.rs) *)

(** [RpcError { message: context + engine_error, inner_error: engine_error }] *)
Definition rpc_context {A} (context : string) (e : AlloyRpcError) : wresult A :=
  Err (WeRpcError (context +:+ engine_error_to_string (engine_error e)) (engine_error e)).

(** The chain's two nonces of the wallet (executors/src/lib.rs).  With preconfirmations
    both are read at once and the first error wins. *)
Definition get_transaction_counts : wprog (rpc_result TransactionCounts) :=
  if wk_use_pending then
    act* latest := call_out (GetTransactionCount wk_eoa false) in
    act* preconfirmed := call_out (GetTransactionCount wk_eoa true) in
    match latest, preconfirmed with
    | Ok latest, Ok preconfirmed => WRet (Ok (mkCounts latest preconfirmed))
    | Err e, Ok _ | Ok _, Err e => WRet (Err e)
    | Err e, Err e' => act* choice := call_out Scheduled in WRet (Err (if Nat.eqb choice 0 then e else e'))
    end
  else
    act* count := call_out (GetTransactionCount wk_eoa false) in
    WRet (match count with Ok count => Ok (mkCounts count count) | Err e => Err e end).

(** The stored health, or a fresh one saved from the chain's balance. *)
Definition worker_health : wprog (wresult EoaHealth) :=
  act! store_health := store_act OpGetHealth in
  match store_health with
  | Some health => WRet (Ok health)
  | None =>
      act* balance := call_out (GetBalance wk_eoa) in
      match balance with
      | Err e => WRet (rpc_context "Failed to get balance during initialization: " e)
      | Ok balance =>
          act* now := call_out Clock in
          let health := mkHealth balance 0 now now now [] 0 0 in
          act! _ := store_act (OpUpdateHealth health) in
          WRet (Ok health)
      end
  end.

Definition with_balance (balance at_ : N) (h : EoaHealth) : EoaHealth :=
  mkHealth balance (eh_balance_threshold h) at_ (eh_last_confirmation_at h) (eh_last_nonce_movement_at h)
    (eh_nonce_resets h) (eh_last_finality_poll_at h) (eh_finality_scan_offset h).
Definition with_threshold (threshold : N) (h : EoaHealth) : EoaHealth :=
  mkHealth (eh_balance h) threshold (eh_balance_fetched_at h) (eh_last_confirmation_at h)
    (eh_last_nonce_movement_at h) (eh_nonce_resets h) (eh_last_finality_poll_at h) (eh_finality_scan_offset h).

Definition with_movement (now : N) (h : EoaHealth) : EoaHealth :=
  mkHealth (eh_balance h) (eh_balance_threshold h) (eh_balance_fetched_at h) (eh_last_confirmation_at h)
    now (eh_nonce_resets h) (eh_last_finality_poll_at h) (eh_finality_scan_offset h).
Definition with_confirmation (now : N) (h : EoaHealth) : EoaHealth :=
  mkHealth (eh_balance h) (eh_balance_threshold h) (eh_balance_fetched_at h) now
    now (eh_nonce_resets h) (eh_last_finality_poll_at h) (eh_finality_scan_offset h).
Definition with_poll (now offset : N) (h : EoaHealth) : EoaHealth :=
  mkHealth (eh_balance h) (eh_balance_threshold h) (eh_balance_fetched_at h) (eh_last_confirmation_at h)
    (eh_last_nonce_movement_at h) (eh_nonce_resets h) now offset.

(** A failed simulation or estimate that says the wallet lacks funds. *)
Definition threshold_error (e : WorkerError) : bool :=
  match e with
  | WeTransactionSimulationFailed _ inner_error | WeRpcError _ inner_error =>
      should_update_balance_threshold inner_error
  | _ => false
  end.

Definition update_balance_threshold : wprog (wresult unit) :=
  act! health := worker_health in
  act* balance := call_out (GetBalance wk_eoa) in
  match balance with
  | Err e => WRet (rpc_context "Failed to get balance: " e)
  | Ok balance_threshold => store_act (OpUpdateHealth (with_threshold balance_threshold health))
  end.
End Build.
