(* ===== verification/WorkerSend.v ===== *)
(** The send flow of the EOA worker (executors/src/eoa/worker/send.rs): recycled nonces
    first, then new ones within the in-flight budget; every transaction is prepared,
    reserved in the store, authorised in the journal, and only then sent. *)

From Stdlib Require Import String Ascii NArith ZArith Lia.
From stdpp Require Import base gmap strings option list fin_maps.
From S2P Require Import Prelude Json JsonValue Redis RedisProg Errors FinalityTypes Fees.
From S2P Require Import RecoveryLedger RecoveryChecks EngineProg RecoveryJournal RecoveryOps.
From S2P Require Import Finality QueueTypes Webhook EoaTypes EoaErrors ExecRecovery WorkerProg.
From S2P Require Import EoaKeys EoaAtomic EoaStore EoaBorrowed WorkerBuild.

Definition MAX_NEW_TRANSACTIONS_PER_CYCLE : N := 256.
Definition HEALTH_CHECK_INTERVAL_MS : N := 60 * 5 * 1000.

(** ** Authorization in order, dispatch side by side *)

(** One call of a future: it runs up to and including its next call, and the rest is
    left for later. *)
Definition next_call `{WorkerWire} {A B} (p : wprog A) (g : wprog A -> wprog B) : wprog B :=
  match p with
  | WRet a => g (WRet a)
  | WStore o k => WStore o (fun x => g (k x))
  | WJournal e k => WJournal e (fun x => g (k x))
  | WCall c k => WCall c (fun x => g (k x))
  end.

Section Dispatch.
Context `{WorkerWire} {T E : Type}.
Context (count concurrency : nat).
Context (authorize : nat -> wprog (result E unit)) (dispatch : nat -> wprog T).

(** A future in the buffer: authorised and not yet polled, with its dispatch under way,
    refused by its authorization, or finished, with its RPC outcome or suppressed. *)
Inductive slot :=
| Waiting (index : nat)
| Running (index : nat) (future : wprog T)
| Refused (e : E)
| Sent (r : T)
| Suppressed.
Definition slot_outcome (s : slot) : option (result E (option T)) :=
  match s with
  | Waiting _ | Running _ _ => None
  | Refused e => Some (Err e)
  | Sent r => Some (Ok (Some r))
  | Suppressed => Some (Ok None)
  end.

(** The producer's index, the [authorization_failed] flag, which also stops the
    producer, the authorization under way, the buffer, and the collected outcomes. *)
Record dispatching := mkDispatching {
  ds_index : nat;
  ds_failed : bool;
  ds_authorizing : option (wprog (result E unit));
  ds_slots : list slot;
  ds_outcomes : list (result E (option T))
}.

(** What may happen next: the producer makes a call of the authorization it is at, or of
    the next one, while the buffer has room; a future of the buffer makes a call; the
    front of the buffer, once finished, is collected. *)
Inductive action := Authorize | Poll (k : nat) | Collect.
Definition unfinished (s : dispatching) (k : nat) : bool :=
  match ds_slots s !! k with Some x => negb (is_some (slot_outcome x)) | None => false end.
Definition enabled (s : dispatching) : list action :=
  (if negb (ds_failed s) && (ds_index s <? count) && (length (ds_slots s) <? concurrency)
   then [Authorize] else []) ++
  map Poll (List.filter (unfinished s) (seq 0 (length (ds_slots s)))) ++
  (match ds_slots s with
   | front :: _ => if is_some (slot_outcome front) then [Collect] else []
   | [] => []
   end).

(** The producer after a call: still authorising, or on to the next index. *)
Definition produced (s : dispatching) (p : wprog (result E unit)) : dispatching :=
  match p with
  | WRet (Ok _) =>
      mkDispatching (S (ds_index s)) (ds_failed s) None (ds_slots s ++ [Waiting (ds_index s)]) (ds_outcomes s)
  | WRet (Err e) =>
      mkDispatching (S (ds_index s)) true None (ds_slots s ++ [Refused e]) (ds_outcomes s)
  | _ => mkDispatching (ds_index s) (ds_failed s) (Some p) (ds_slots s) (ds_outcomes s)
  end.
Definition set_slot (s : dispatching) (k : nat) (x : slot) : dispatching :=
  mkDispatching (ds_index s) (ds_failed s) (ds_authorizing s) (<[k := x]> (ds_slots s)) (ds_outcomes s).
(** A future after a call: finished, or still running. *)
Definition polled (index : nat) (p : wprog T) : slot :=
  match p with WRet r => Sent r | _ => Running index p end.

(** The flag is read once, when the future is first polled; what was started drains. *)
Definition perform (a : action) (s : dispatching) : wprog dispatching :=
  match a with
  | Authorize =>
      next_call (default (authorize (ds_index s)) (ds_authorizing s)) (fun p => WRet (produced s p))
  | Poll k =>
      match ds_slots s !! k with
      | Some (Waiting index) =>
          if ds_failed s then WRet (set_slot s k Suppressed)
          else next_call (dispatch index) (fun p => WRet (set_slot s k (polled index p)))
      | Some (Running index future) =>
          next_call future (fun p => WRet (set_slot s k (polled index p)))
      | _ => WRet s
      end
  | Collect =>
      WRet (match ds_slots s with
            | front :: rest =>
                match slot_outcome front with
                | Some o => mkDispatching (ds_index s) (ds_failed s) (ds_authorizing s) rest (ds_outcomes s ++ [o])
                | None => s
                end
            | [] => s
            end)
  end.

(** The stream until it is exhausted. *)
Fixpoint drive (fuel : nat) (s : dispatching) : wprog dispatching :=
  match fuel, enabled s with
  | O, _ | _, [] => WRet s
  | S fuel', (first :: _) as actions =>
      act* choice := call_out Scheduled in
      act* s' := perform (nth (choice mod length actions) actions first) s in
      drive fuel' s'
  end.

(** [collect::<Result<Vec<_>, E>>()?], then [flatten]. *)
Fixpoint collect_outcomes (l : list (result E (option T))) : result E (list T) :=
  match l with
  | [] => Ok []
  | Err e :: _ => Err e
  | Ok o :: l' =>
      match collect_outcomes l' with
      | Err e => Err e
      | Ok rest => Ok (match o with Some r => r :: rest | None => rest end)
      end
  end.

(** Per index there are at most the calls of its authorization, those of its dispatch,
    and three more actions (a future that makes no call is polled once, too). *)
Definition authorize_then_dispatch (authorize_calls dispatch_calls : nat) : wprog (result E (list T)) :=
  act* s := drive (count * (authorize_calls + dispatch_calls + 3)) (mkDispatching 0 false None [] []) in
  WRet (collect_outcomes (ds_outcomes s)).
End Dispatch.
Arguments slot {_ _ _} T E.
Arguments dispatching {_ _ _} T E.
Arguments mkDispatching {_ _ _ T E}.

(** ** The send flow *)

(** Wrapping arithmetic of a release build. *)
Definition u64_sub (a b : N) : N := u64_wrap (a + (U64_MAX + 1) - b).
Definition u32_wrap (n : N) : N := (n mod 4294967296)%N.

Section Send.
Context `{WorkerWire} `{Primitives} `{!Json Value, !Json FinalityEvidence} `{!Process, !Worker}.

Definition authorize_while_owned (authorization : wprog (wresult unit)) : wprog (wresult unit) :=
  act! _ := store_act OpOwned in
  act! _ := authorization in
  act! _ := store_act OpOwned in
  WRet (Ok tt).

Definition authorize_eoa (borrowed : BorrowedTransaction) : wprog (wresult unit) :=
  journal_step (before_eoa engine_error_to_string journal (bt_user_request borrowed)
    (bd_signed_transaction (bt_data borrowed))).

Definition broadcast_borrowed (borrowed : BorrowedTransaction) : wprog SubmissionResult :=
  act* sent := call_out (SendTxEnvelope (bd_signed_transaction (bt_data borrowed))) in
  act* now := call_out Clock in
  WRet (from_send_result now borrowed sent).

(** [transactions[index]]; the index is below the length. *)
Definition at_index {A} (transactions : list BorrowedTransaction) (absent : A)
    (f : BorrowedTransaction -> wprog A) (index : nat) : wprog A :=
  match transactions !! index with Some borrowed => f borrowed | None => WRet absent end.

(** The calls of [authorize_then_dispatch] on the slice: an index beyond it never occurs.
    An authorization is at most three calls, a dispatch two. *)
Definition dispatch_reserved_transactions (transactions : list BorrowedTransaction)
    : wprog (wresult (list SubmissionResult)) :=
  act! results :=
    authorize_then_dispatch (length transactions) (Pos.to_nat wk_broadcast_concurrency)
      (at_index transactions (Ok tt) (fun borrowed => authorize_while_owned (authorize_eoa borrowed)))
      (at_index transactions None (fun borrowed => act* r := broadcast_borrowed borrowed in WRet (Some r))) 3 2 in
  WRet (Ok (omap id results)).

(** ** Preparation *)

Record cleaning := mkCleaning {
  cl_results : list BorrowedTransaction;
  cl_threshold : bool;
  cl_failed : bool;
  cl_failures : list (PendingTransaction * WorkerError)
}.
Definition clean_result (should_break_on_failure : bool) (st : cleaning)
    (item : PendingTransaction * wresult BorrowedTransaction) : cleaning :=
  match cl_failed st, item.2 with
  | false, Ok borrowed =>
      mkCleaning (cl_results st ++ [borrowed]) (cl_threshold st) false (cl_failures st)
  | true, Ok _ => st
  | _, Err e =>
      mkCleaning (cl_results st) (cl_threshold st || threshold_error e) (cl_failed st || should_break_on_failure)
        (if is_retryable_preparation_error e then cl_failures st else cl_failures st ++ [(item.1, e)])
  end.

Definition clean_prepration_results (results : list (PendingTransaction * wresult BorrowedTransaction))
    (should_break_on_failure : bool) : wprog (wresult (list BorrowedTransaction)) :=
  let st := foldl (clean_result should_break_on_failure) (mkCleaning [] false false []) results in
  act* _ := (match cl_failures st with
             | [] => WRet (Ok tt)
             | failures => store_call (OpFailBatch failures)
             end) in
  act* _ := (if cl_threshold st then update_balance_threshold else WRet (Ok tt)) in
  WRet (Ok (cl_results st)).

(** ** Recycled nonces *)

(** Reserved by the move, then authorised and sent, then accounted for. *)
Definition send_reserved (move : list BorrowedTransactionData -> store_op (store_result nat))
    (cleaned : list BorrowedTransaction) : wprog (wresult BorrowedProcessingReport) :=
  act! _ := store_act (move (map bt_data cleaned)) in
  act! submission_results := dispatch_reserved_transactions cleaned in
  store_act (OpProcessBorrowed submission_results).

(** [for _ in 0..10]; the second component says whether NOOPs are due: no early return,
    and some recycled nonce had no pending transaction. *)
Fixpoint recycled_rounds (left : nat) (total_sent : N) (is_pending_empty : bool) : wprog (wresult (N * bool)) :=
  match left with
  | O => WRet (Ok (total_sent, is_pending_empty))
  | S left' =>
      act! recycled_nonces := store_act OpCleanRecycled in
      if bool_decide (recycled_nonces = []) then WRet (Ok (total_sent, false))
      else
        act! pending_txs := store_act (OpPeekPending (N.of_nat (length recycled_nonces))) in
        let is_pending_empty := is_pending_empty || (length pending_txs <? length recycled_nonces) in
        let build_tasks := zip_with build_and_sign_single_transaction_with_retries pending_txs recycled_nonces in
        match build_tasks with
        | [] => WRet (Ok (total_sent, is_pending_empty))
        | _ =>
            act* prepared_results := buffered build_tasks in
            act! cleaned_results := clean_prepration_results (zip pending_txs prepared_results) false in
            match cleaned_results with
            | [] => recycled_rounds left' total_sent is_pending_empty
            | _ =>
                act! report := send_reserved OpMoveRecycled cleaned_results in
                recycled_rounds left' (total_sent + N.of_nat (br_moved_to_submitted report)) is_pending_empty
            end
        end
  end.

(** [result.ok()] *)
Definition result_ok {A E} (r : result E A) : option A := match r with Ok a => Some a | Err _ => None end.

Definition process_recycled_nonces : wprog (wresult N) :=
  act! (total_sent, noops_due) := recycled_rounds 10 0 false in
  if (noops_due : bool) then
    act! recycled_nonces := store_act OpCleanRecycled in
    act* send_results := buffered (map send_noop_transaction recycled_nonces) in
    act! _ := store_act (OpNoops (omap result_ok send_results)) in
    WRet (Ok (u32_wrap total_sent))
  else WRet (Ok (u32_wrap total_sent)).

(** ** New transactions *)

Fixpoint new_rounds (left : nat) (total_sent remaining_budget : N) : wprog (wresult N) :=
  match left with
  | O => WRet (Ok total_sent)
  | S left' =>
      if (remaining_budget =? 0)%N then WRet (Ok total_sent)
      else
        act! (pending_txs, optimistic_nonce) := store_act (OpPeekPendingWithNonce remaining_budget) in
        let batch := firstn (N.to_nat remaining_budget) pending_txs in
        match pending_txs with
        | [] => WRet (Ok total_sent)
        | _ =>
            act* prepared_results := buffered (imap (fun i tx =>
              build_and_sign_single_transaction_with_retries tx (u64_wrap (optimistic_nonce + N.of_nat i))) batch) in
            act! cleaned_results := clean_prepration_results (zip batch prepared_results) true in
            match cleaned_results with
            | [] => new_rounds left' total_sent remaining_budget
            | _ =>
                act! report := send_reserved OpMoveIncremented cleaned_results in
                new_rounds left' (total_sent + N.of_nat (br_moved_to_submitted report))
                  (remaining_budget - N.of_nat (br_moved_to_submitted report + br_retained_uncertain report))
            end
        end
  end.

Definition process_new_transactions (budget : N) : wprog (wresult N) :=
  if (budget =? 0)%N then WRet (Ok 0%N)
  else
    act! total_sent := new_rounds 10 0 (N.min budget MAX_NEW_TRANSACTIONS_PER_CYCLE) in
    WRet (Ok (u32_wrap total_sent)).

(** ** The flow *)

(** The balance check: a wallet at or below its threshold is looked up again at most
    every five minutes, and sends nothing while it stays there. *)
Definition check_funds : wprog (wresult unit) :=
  act! health := worker_health in
  act* now := call_out Clock in
  if (eh_balance health <=? eh_balance_threshold health)%N then
    act! health :=
      (if (HEALTH_CHECK_INTERVAL_MS <? u64_sub now (eh_balance_fetched_at health))%N then
         act* balance := call_out (GetBalance wk_eoa) in
         match balance with
         | Err e => WRet (rpc_context "Failed to get balance: " e)
         | Ok balance =>
             let health := with_balance balance now health in
             act! _ := store_act (OpUpdateHealth health) in
             WRet (Ok health)
         end
       else WRet (Ok health)) in
    WRet (if (eh_balance health <=? eh_balance_threshold health)%N
          then Err (WeEoaOutOfFunds (eh_balance health) (eh_balance_threshold health)) else Ok tt)
  else WRet (Ok tt).

Definition send_flow : wprog (wresult N) :=
  act! _ := check_funds in
  act! recycled_sent := process_recycled_nonces in
  act! remaining_recycled := store_act OpCleanRecycled in
  match remaining_recycled with
  | [] =>
      act! inflight_budget := store_act (OpInflightBudget wk_max_inflight) in
      if (0 <? inflight_budget)%N then
        act! new_sent := process_new_transactions inflight_budget in
        WRet (Ok (u32_wrap (recycled_sent + new_sent)))
      else WRet (Ok recycled_sent)
  | _ => WRet (Ok recycled_sent)
  end.
End Send.
