(* ===== verification/WorkerGap.v ===== *)
(** Replay of retained wires after a nonce rollback or a long stall
    (executors/src/eoa/worker/gap_replay.rs). *)

From Stdlib Require Import String Ascii NArith ZArith Lia.
From stdpp Require Import base gmap strings option list fin_maps.
From S2P Require Import Prelude Json JsonValue Redis RedisProg Errors FinalityTypes Fees.
From S2P Require Import RecoveryLedger RecoveryChecks EngineProg RecoveryJournal RecoveryOps.
From S2P Require Import Finality QueueTypes Webhook EoaTypes EoaErrors ExecRecovery WorkerProg.
From S2P Require Import EoaKeys EoaAtomic EoaStore WorkerBuild.

Definition GAP_REPLAY_INTERVAL_MS : N := 5000.
Definition GAP_REPLAY_NONCES : N := 32.
Definition NONCE_STALL_LIMIT_MS : N := 60000.

Record GapReplayState := mkGapState {
  gr_through_nonce : N;
  gr_latest_observed : N;
  gr_next_at : N
}.

(** [str::strip_prefix("0x")] *)
Definition strip_0x (s : string) : option string :=
  match s with
  | String "0"%char (String "x"%char rest) => Some rest
  | _ => None
  end.

Section Gap.
Context `{WorkerWire} `{Primitives} `{!Json Value, !Json FinalityEvidence, !Json GapReplayState}
  `{!Process, !Worker}.

(** [invalid] *)
Definition invalid {A} (message : string) : wresult A := Err (eoa_required message).
Definition or_invalid {A} (message : string) (o : option A) : wresult A := ok_or (eoa_required message) o.
(** [.map_err(invalid)] *)
Definition invalid_text {A} (r : result string A) : wresult A :=
  match r with Ok a => Ok a | Err text => invalid text end.
Definition redis_act {A} (o : store_op (result redis_error A)) : wprog (wresult A) :=
  act* r := store_call o in
  WRet (match r with Ok a => Ok a | Err e => invalid (redis_error_to_string e) end).
(** [.map_err(crate::recovery::eoa_error)] *)
Definition finality_step {A} (p : eprog (result EngineError A)) : wprog (wresult A) :=
  journal_step (as_eoa engine_error_to_string p).

Definition encode_state (state : GapReplayState) : wresult string := or_invalid encode_error (to_json state).

(** The recorded window, or a new one when the chain fell back or stalled; [None] when
    there is nothing to replay. *)
Definition gap_state (stored : option string) (now latest cached_high_water : N)
    : wprog (wresult (option GapReplayState)) :=
  match stored with
  | Some encoded =>
      WRet (match from_json encoded with Some state => Ok (Some state) | None => invalid (serde_error encoded) end)
  | None =>
      act! health := worker_health in
      let rollback := (latest <? cached_high_water)%N in
      let stalled := (NONCE_STALL_LIMIT_MS <=? now - eh_last_nonce_movement_at health)%N in
      if negb rollback && negb stalled then WRet (Ok None)
      else
        act! highest := store_act OpHighestSubmitted in
        match highest with
        | [] => WRet (Ok None)
        | highest :: _ =>
            if (U64_MAX <? sd_nonce highest + 1)%N then WRet (invalid "Gap recovery nonce overflow")
            else
              let through_nonce := (sd_nonce highest + 1)%N in
              if (through_nonce <=? latest)%N then WRet (Ok None)
              else WRet (Ok (Some (mkGapState through_nonce latest 0)))
        end
  end.

(** One retained wire: what the journal recorded for this nonce, decoded and checked. *)
Definition decode_wire (nonce : N) (id : string) (attempt : Value) (admission : AdmissionRecord)
    : wresult (EoaTransactionRequest * string * SignedTx * string) :=
  let? request := invalid_text (value_to_request (rec_payload admission)) in
  let? wire := or_invalid "Gap recovery wire is missing" (get_field attempt "signedTransaction" ≫= as_str) in
  let? digits := or_invalid "Invalid wire prefix" (strip_0x wire) in
  let? wire := invalid_text (hex_decode digits) in
  let? (envelope, remaining) := invalid_text (decode_2718 wire) in
  if bool_decide (remaining <> "") || bool_decide (encoded_2718 envelope <> wire)
     || bool_decide (tx_nonce envelope <> nonce)
  then invalid "Gap recovery wire or nonce is inconsistent"
  else
    let? hash := or_invalid "Gap recovery hash is missing" (get_field attempt "transactionHash") in
    let? saved_hash := invalid_text (value_to_b256 hash) in
    if bool_decide (tx_hash envelope <> saved_hash) || bool_decide (rq_transaction_id request <> id)
    then invalid "Gap recovery identity is inconsistent"
    else Ok (request, wire, envelope, saved_hash).

(** The body of the loop; [false] breaks it. *)
Definition replay_nonce (encoded : string) (nonce : N) : wprog (wresult bool) :=
  act! rows := redis_act (OpNonceRow nonce) in
  match from_redis_strings rows with
  | [] => WRet (Ok false)
  | member :: _ =>
      if negb (sd_nonce member =? nonce)%N || is_noop_id (sd_transaction_id member) then WRet (Ok false)
      else
        let id := sd_transaction_id member in
        act! found := journal_step (eoa_journal engine_error_to_string
          (latest_eoa_attempt id (eoa_replay_key wk_chain_id nonce wk_eoa))) in
        match found with
        | None => WRet (Ok false)
        | Some attempt =>
            act! admission := journal_step (eoa_journal engine_error_to_string (journal_admission "eoa" id)) in
            act! admission := WRet (or_invalid "Gap recovery admission disappeared" admission) in
            act! (request, wire, signed, saved_hash) := WRet (decode_wire nonce id attempt admission) in
            act! _ := finality_step (validate_eoa_confirmation journal "eoa" id wk_chain_id wk_eoa nonce saved_hash) in
            act! _ := store_act (OpGapSet encoded) in
            act! _ := journal_step (before_eoa engine_error_to_string journal request signed) in
            act* sent := call_out (SendRawTransaction wire) in
            WRet (Ok (match sent with Ok hash => bool_decide (hash = saved_hash) | Err _ => false end))
        end
  end.

(** [for nonce in latest..end] *)
Fixpoint replay_nonces (left : nat) (encoded : string) (nonce : N) : wprog (wresult unit) :=
  match left with
  | O => WRet (Ok tt)
  | S left' =>
      act! go_on := replay_nonce encoded nonce in
      if (go_on : bool) then replay_nonces left' encoded (nonce + 1) else WRet (Ok tt)
  end.

(** Progress the chain was seen to make restarts the gas-bump clock. *)
Definition observe_progress (now latest : N) (state : GapReplayState) : wprog (wresult GapReplayState) :=
  if (gr_latest_observed state <? latest)%N then
    act! health := worker_health in
    act! _ := store_act (OpUpdateHealth (with_movement now health)) in
    let state := mkGapState (gr_through_nonce state) latest (gr_next_at state) in
    act! encoded := WRet (encode_state state) in
    act! _ := store_act (OpGapSet encoded) in
    WRet (Ok state)
  else WRet (Ok state).

Definition replay_submitted_gap (latest cached_high_water : N) : wprog (wresult unit) :=
  if negb journal then WRet (Ok tt)
  else
    act! stored := redis_act OpGapGet in
    act* now := call_out Clock in
    act! state := gap_state stored now latest cached_high_water in
    match state with
    | None => WRet (Ok tt)
    | Some state =>
        if (gr_through_nonce state <=? latest)%N then store_act OpGapDelete
        else
          act! state := observe_progress now latest state in
          if (now <? gr_next_at state)%N then WRet (Ok tt)
          else
            let state := mkGapState (gr_through_nonce state) (gr_latest_observed state)
                           (N.min (now + GAP_REPLAY_INTERVAL_MS) U64_MAX) in
            act! encoded := WRet (encode_state state) in
            act! _ := store_act (OpGapSet encoded) in
            act! _ := finality_step (check_continuity alloy_to_string journal wk_chain) in
            let end_ := N.min (N.min (latest + GAP_REPLAY_NONCES) U64_MAX) (gr_through_nonce state) in
            replay_nonces (N.to_nat (end_ - latest)) encoded latest
    end.
End Gap.
