(* ===== verification/WorkerConfirm.v ===== *)
(** The confirm flow of the EOA worker (executors/src/eoa/worker/confirm.rs): nonce
    synchronisation, gas bumps of stalled nonces, receipts and their finality, and the
    settlement of what is final. *)

From Stdlib Require Import String Ascii NArith ZArith Lia.
From stdpp Require Import base gmap strings option list fin_maps.
From S2P Require Import Prelude Json JsonValue Redis RedisProg Errors FinalityTypes Fees.
From S2P Require Import RecoveryLedger RecoveryChecks EngineProg RecoveryJournal RecoveryOps.
From S2P Require Import Finality QueueTypes Webhook EoaTypes EoaErrors ExecRecovery WorkerProg.
From S2P Require Import EoaKeys EoaAtomic EoaStore EoaSubmitted WorkerBuild WorkerGap.

Definition FINALITY_POLL_INTERVAL_MS : N := 5000.
Definition MAX_RECEIPTS_PER_POLL : N := 1024.
Definition cleanup_report_default : CleanupReport := mkCleanupReport 0 0 0 0 0 0 [] [] [].

Section Confirm.
Context `{WorkerWire} `{Primitives} `{!Json Value, !Json FinalityEvidence, !Json GapReplayState}
  `{!Process, !Worker}.

Record ConfirmedTransactionWithRichReceipt := mkRich {
  rr_nonce : N;
  rr_transaction_hash : string;
  rr_transaction_id : string;
  rr_receipt : TransactionReceipt
}.

(** ** Receipts *)

Definition fetch_receipt (tx : SubmittedTransactionDehydrated) (hash : string)
    : wprog (option ConfirmedTransactionWithRichReceipt) :=
  act* found := call_out (GetTransactionReceipt hash) in
  WRet (match found with
        | Ok (Some receipt) =>
            if bool_decide (receipt_transaction_hash receipt = hash)
            then Some (mkRich (sd_nonce tx) (sd_transaction_hash tx) (sd_transaction_id tx) receipt) else None
        | _ => None
        end).
Definition fetch_confirmed_transaction_receipts (submitted_txs : list SubmittedTransactionDehydrated)
    : wprog (list ConfirmedTransactionWithRichReceipt) :=
  act* receipts := buffer_unordered (omap (fun tx => fetch_receipt tx <$> parse_b256 (sd_transaction_hash tx))
                     submitted_txs) in
  WRet (omap id receipts).

Definition receipt_candidate_count (latest_count : N) : wprog (result EngineError N) :=
  let count_at tag :=
    act* count := call_out (GetTransactionCountAt wk_eoa tag) in
    WRet (match count with Ok count => Ok count | Err e => Err (engine_error e) end) in
  match ch_finality_policy wk_chain with
  | Finalized => count_at TagFinalized
  | Depth 0 => WRet (Ok latest_count)
  | Depth confirmations =>
      act* head := call_out GetBlockNumber in
      match head with
      | Err e => WRet (Err (engine_error e))
      | Ok head =>
          if (head <? confirmations)%N then WRet (Ok 0%N) else count_at (TagNumber (head - confirmations))
      end
  end.

(** ** Gas bumps *)

(** No attempt of the nonce is known to be on the canonical chain. *)
Fixpoint none_included (attempts : list SubmittedTransactionDehydrated) : wprog bool :=
  match attempts with
  | [] => WRet true
  | attempt :: rest =>
      match parse_b256 (sd_transaction_hash attempt) with
      | None => WRet false
      | Some hash =>
          act* found := call_out (GetTransactionReceipt hash) in
          match found with
          | Ok (Some receipt) =>
              act* assessment := journal_step (assess_receipt_finality alloy_to_string wk_chain hash (receipt_view receipt)) in
              match assessment with
              | Ok FaOrphaned | Ok (FaPending false) => none_included rest
              | _ => WRet false
              end
          | Ok None => none_included rest
          | Err _ => WRet false
          end
      end
  end.

(** [max_by_key(|tx| tx.submitted_at)]: the last of the greatest. *)
Fixpoint newest_submitted (l : list SubmittedTransactionDehydrated) : option SubmittedTransactionDehydrated :=
  match l with
  | [] => None
  | tx :: l' =>
      match newest_submitted l' with
      | Some best => if (sd_submitted_at best <? sd_submitted_at tx)%N then Some tx else Some best
      | None => Some tx
      end
  end.

(** Stamps a movement and a confirmation; what fails is logged. *)
Definition refresh_health : wprog unit :=
  act* health := worker_health in
  match health with
  | Err _ => WRet tt
  | Ok health =>
      act* now := call_out Clock in
      act* _ := store_call (OpUpdateHealth (with_confirmation now health)) in
      WRet tt
  end.

(** A bump that could not be built: the nonce may have moved meanwhile. *)
Definition bump_not_built (expected_nonce : N) (e : WorkerError) : wprog (wresult bool) :=
  act* _ := (if threshold_error e then update_balance_threshold else WRet (Ok tt)) in
  act* fresh := get_transaction_counts in
  match fresh with
  | Err _ => WRet (Err e)
  | Ok fresh =>
      if (expected_nonce <? tc_preconfirmed fresh)%N
      then act* _ := refresh_health in WRet (Ok true)
      else WRet (Err e)
  end.

Definition send_bumped (expected_nonce : N) (data : TransactionData) (bumped_tx : SignedTx)
    : wprog (wresult bool) :=
  act* now := call_out Clock in
  act! _ := store_act (OpGasBump (mkSubmittedDehydrated expected_nonce (tx_hash bumped_tx)
              (td_transaction_id data) now (td_created_at data)) bumped_tx) in
  act! _ := journal_step (before_eoa engine_error_to_string journal (td_user_request data) bumped_tx) in
  act* sent := call_out (SendTxEnvelope bumped_tx) in
  WRet (match sent with
        | Ok _ => Ok true
        | Err e => rpc_failure "Failed to send gas bumped transaction" e
        end).

Definition bump_transaction (expected_nonce : N) (data : TransactionData) : wprog (wresult bool) :=
  act* now := call_out Clock in
  if (now - td_created_at data <? NONCE_STALL_LIMIT_MS)%N then WRet (Ok false)
  else
    act* typed_tx := build_typed_transaction (td_user_request data) expected_nonce in
    match typed_tx with
    | Err e => bump_not_built expected_nonce e
    | Ok typed_tx =>
        match apply_gas_bump_to_typed_transaction typed_tx 120 (td_user_request data) with
        | None => WRet (Ok false)
        | Some bumped_typed_tx =>
            act! bumped_tx := sign_transaction bumped_typed_tx (rq_signing_credential (td_user_request data)) in
            send_bumped expected_nonce data bumped_tx
        end
    end.

Definition attempt_gas_bump_for_stalled_nonce (expected_nonce : N) : wprog (wresult bool) :=
  act! submitted_transactions := store_act (OpSubmittedForNonce expected_nonce) in
  act* free := none_included submitted_transactions in
  if negb free then WRet (Ok false)
  else
    act! newest := (match newest_submitted submitted_transactions with
                    | Some tx => store_act (OpTransactionData (sd_transaction_id tx))
                    | None => WRet (Ok None)
                    end) in
    match newest with
    | Some data => bump_transaction expected_nonce data
    | None => WRet (Ok false)
    end.

(** ** Nonces *)

(** A scheduled reset runs unless signed attempts are unresolved; the cached count is
    read, or initialised from the chain. *)
Definition synchronize_nonces (counts : TransactionCounts) : wprog (wresult N) :=
  act! scheduled := store_act OpManualReset in
  act! _ := (if (scheduled : bool) then
               act* reset := store_call (OpResetNonces (tc_latest counts)) in
               WRet (match reset with
                     | Ok _ | Err UnresolvedNonceReservations => Ok tt
                     | Err e => Err (from_store_error e)
                     end)
             else WRet (Ok tt)) in
  act* cached := store_call OpCachedCount in
  match cached with
  | Ok cached => WRet (Ok cached)
  | Err (NonceSyncRequired _ _) =>
      act! _ := store_act (OpUpdateCachedCount (tc_latest counts)) in
      WRet (Ok (tc_latest counts))
  | Err e => WRet (Err (from_store_error e))
  end.

(** Without progress for a minute, a funded wallet bumps its next nonce; whatever comes
    of the bump, the flow goes on. *)
Definition bump_if_stalled (preconfirmed submitted_count : N) : wprog (wresult unit) :=
  act! current_health := worker_health in
  act* now := call_out Clock in
  let time_since_movement := (now - eh_last_nonce_movement_at current_health)%N in
  let is_out_of_funds := (eh_balance current_health <=? eh_balance_threshold current_health)%N in
  if (NONCE_STALL_LIMIT_MS <? time_since_movement)%N && (0 <? submitted_count)%N && negb is_out_of_funds then
    act* _ := attempt_gas_bump_for_stalled_nonce preconfirmed in
    WRet (Ok tt)
  else WRet (Ok tt).

(** ** Settlement *)

Definition block_key : Type := option N * option string.
Definition key_of (receipt : TransactionReceipt) : block_key :=
  (receipt_block_number receipt, receipt_block_hash receipt).

(** One receipt per distinct block, the first; receipts without a status are left out. *)
Fixpoint distinct_blocks (seen : list block_key) (txs : list ConfirmedTransactionWithRichReceipt)
    : list (block_key * TransactionReceipt) :=
  match txs with
  | [] => []
  | tx :: txs' =>
      let key := key_of (rr_receipt tx) in
      if negb (is_some (receipt_eip658 (rr_receipt tx))) || bool_decide (key ∈ seen)
      then distinct_blocks seen txs'
      else (key, rr_receipt tx) :: distinct_blocks (key :: seen) txs'
  end.

(** [HashMap::get] *)
Fixpoint assessment_of {A} (key : block_key) (l : list (block_key * A)) : option A :=
  match l with
  | [] => None
  | (k, a) :: l' => if bool_decide (k = key) then Some a else assessment_of key l'
  end.

(** Blocks are assessed side by side, in no particular order. *)
Definition assess_blocks (txs : list ConfirmedTransactionWithRichReceipt)
    : wprog (list (block_key * result EngineError FinalityAssessment)) :=
  act* order := call_out Completed in
  buffer_unordered (map (fun '(key, receipt) =>
    act* assessment := journal_step (assess alloy_to_string journal wk_chain
      (receipt_transaction_hash receipt) (receipt_view receipt)) in
    WRet (key, assessment)) (reorder order (distinct_blocks [] txs))).

(** The journal's kind and id of a submitted record. *)
Definition journal_identity (transaction_id : string) (nonce : N) : string * string :=
  if is_noop_id transaction_id then ("eoa_noop", noop_id wk_chain_id wk_eoa nonce) else ("eoa", transaction_id).

Definition receipt_data (receipt : TransactionReceipt) : string :=
  default (receipt_debug receipt) (receipt_to_json receipt).

(** One receipt: settled in the journal and returned when its block is final and it is a
    recorded attempt of the nonce; [None] leaves it submitted. *)
Definition confirm_one (assessments : list (block_key * result EngineError FinalityAssessment))
    (tx : ConfirmedTransactionWithRichReceipt) : wprog (wresult (option ConfirmedTransaction)) :=
  let receipt := rr_receipt tx in
  if negb (is_some (receipt_eip658 receipt)) then WRet (Ok None)
  else
    match assessment_of (key_of receipt) assessments with
    | Some (Ok (FaFinalized finality)) =>
        let '(kind, id) := journal_identity (rr_transaction_id tx) (rr_nonce tx) in
        let expected_hash := receipt_transaction_hash receipt in
        act* valid := journal_step (validate_eoa_confirmation journal kind id wk_chain_id wk_eoa (rr_nonce tx) expected_hash) in
        match valid with
        | Err _ => WRet (Ok None)
        | Ok _ =>
            act! _ := finality_step (record_evm_terminal journal kind id wk_chain_id expected_hash
                        (receipt_status receipt) finality) in
            WRet (Ok (Some (mkConfirmed (rr_nonce tx) (rr_transaction_hash tx) (rr_transaction_id tx)
                              receipt (receipt_data receipt) finality)))
        end
    | _ => WRet (Ok None)
    end.
Fixpoint confirm_all (assessments : list (block_key * result EngineError FinalityAssessment))
    (txs : list ConfirmedTransactionWithRichReceipt) : wprog (wresult (list ConfirmedTransaction)) :=
  match txs with
  | [] => WRet (Ok [])
  | tx :: txs' =>
      act! confirmed := confirm_one assessments tx in
      act! rest := confirm_all assessments txs' in
      WRet (Ok (match confirmed with Some c => c :: rest | None => rest end))
  end.

(** Receipts of one page of submitted records, assessed and settled. *)
Definition settle_page (waiting_txs : list SubmittedTransactionDehydrated) (counts : TransactionCounts)
    : wprog (wresult CleanupReport) :=
  act* confirmed_txs := fetch_confirmed_transaction_receipts waiting_txs in
  act* assessments := assess_blocks confirmed_txs in
  act! successes := confirm_all assessments confirmed_txs in
  match successes with
  | [] => WRet (Ok cleanup_report_default)
  | _ =>
      act! report := store_act (OpCleanSubmitted successes counts) in
      act* _ := refresh_health in
      WRet (Ok report)
  end.

(** The settlement poll, at most every five seconds. *)
Definition poll_finality (counts : TransactionCounts) : wprog (wresult CleanupReport) :=
  act! health := worker_health in
  act* now := call_out Clock in
  if (now - eh_last_finality_poll_at health <? FINALITY_POLL_INTERVAL_MS)%N
  then WRet (Ok cleanup_report_default)
  else
    let health := with_poll now (eh_finality_scan_offset health) health in
    act! _ := store_act (OpUpdateHealth health) in
    act! _ := finality_step (check_continuity alloy_to_string journal wk_chain) in
    act* candidates := receipt_candidate_count (tc_latest counts) in
    act! candidate_count := WRet (match candidates with
                                  | Ok n => Ok n
                                  | Err e => Err (WeRpcError "Finality candidate nonce unavailable" e)
                                  end) in
    act! (waiting_txs, next_offset) :=
      store_act (OpSubmittedPage candidate_count (eh_finality_scan_offset health) MAX_RECEIPTS_PER_POLL) in
    act! _ := store_act (OpUpdateHealth (with_poll now next_offset health)) in
    match waiting_txs with
    | [] => WRet (Ok cleanup_report_default)
    | _ => settle_page waiting_txs counts
    end.

Definition confirm_flow : wprog (wresult CleanupReport) :=
  act* counts := get_transaction_counts in
  match counts with
  | Err e => WRet (rpc_context "Failed to get transaction counts: " e)
  | Ok counts =>
      act! cached := synchronize_nonces counts in
      act! submitted_count := store_act OpSubmittedCount in
      act! _ := replay_submitted_gap (tc_latest counts) cached in
      act! _ := (if (tc_preconfirmed counts <=? cached)%N
                 then bump_if_stalled (tc_preconfirmed counts) submitted_count else WRet (Ok tt)) in
      act! _ := (if (cached <? tc_latest counts)%N
                 then store_act (OpUpdateCachedCount (tc_latest counts)) else WRet (Ok tt)) in
      poll_finality counts
  end.
End Confirm.
