(* ===== verification/WorkerCycle.v ===== *)
(** One cycle of the EOA worker (executors/src/eoa/worker/mod.rs): the lock, culling of
    stale requests, recovery of borrowed transactions, then the confirm and send flows. *)

From Stdlib Require Import String Ascii NArith ZArith Lia.
From stdpp Require Import base gmap strings option list fin_maps.
From S2P Require Import Prelude Json JsonValue Redis RedisProg Errors FinalityTypes Fees.
From S2P Require Import RecoveryLedger RecoveryChecks EngineProg RecoveryJournal RecoveryOps.
From S2P Require Import Finality QueueTypes Webhook EoaTypes EoaErrors ExecRecovery WorkerProg.
From S2P Require Import EoaKeys EoaAtomic EoaStore EoaBorrowed EoaSubmitted.
From S2P Require Import WorkerBuild WorkerSend WorkerGap WorkerConfirm.

Definition MAX_PENDING_TRANSACTION_AGE_MS : N := 24 * 60 * 60 * 1000.
Definition MAX_STALE_PENDING_PER_CYCLE : N := 500.

Section Cycle.
Context `{WorkerWire} `{Primitives} `{!Json Value, !Json FinalityEvidence, !Json GapReplayState}
  `{!Process, !Worker}.

(** ** Stale requests *)

Definition stale_failure (now_ms : N) (p : PendingTransaction) : PendingTransaction * WorkerError :=
  (p, WeInternalError ("Transaction exceeded maximum pending age of " +:+
        u64_to_string MAX_PENDING_TRANSACTION_AGE_MS +:+ "ms (was pending for " +:+
        u64_to_string (now_ms - pt_queued_at p) +:+ "ms); failing to prevent zombie retries")).

Definition cull_stale_pending_transactions : wprog (wresult unit) :=
  act* now_ms := call_out Clock in
  let cutoff := (now_ms - MAX_PENDING_TRANSACTION_AGE_MS)%N in
  act! stale := store_act (OpPeekPendingOlder cutoff MAX_STALE_PENDING_PER_CYCLE) in
  match stale with
  | [] => WRet (Ok tt)
  | _ => store_act (OpFailBatch (map (stale_failure now_ms) stale))
  end.

(** ** Borrowed transactions *)

(** [sort_by_key(nonce)], which is stable. *)
Fixpoint insert_by_nonce (tx : BorrowedTransaction) (l : list BorrowedTransaction) : list BorrowedTransaction :=
  match l with
  | [] => [tx]
  | tx' :: l' =>
      if (bd_nonce (bt_data tx) <=? bd_nonce (bt_data tx'))%N then tx :: l else tx' :: insert_by_nonce tx l'
  end.
Definition sort_by_nonce (l : list BorrowedTransaction) : list BorrowedTransaction := foldr insert_by_nonce [] l.

Definition with_hash (hash : string) (tx : SubmittedTransactionDehydrated) : SubmittedTransactionDehydrated :=
  mkSubmittedDehydrated (sd_nonce tx) hash (sd_transaction_id tx) (sd_submitted_at tx) (sd_queued_at tx).

(** The hash of a durable final outcome of this nonce, if the journal has one. *)
Definition durable_outcome (borrowed : BorrowedTransaction) : wprog (wresult (option string)) :=
  if negb journal then WRet (Ok None)
  else
    let request := bt_user_request borrowed in
    finality_step (terminal_eoa_projection parse_b256 (ok_or encode_error (request_to_value request))
      (rq_transaction_id request) (rq_chain_id request) (rq_from request) (bd_nonce (bt_data borrowed))).

(** The first loop: results of what is already final, and what is authorised again. *)
Fixpoint reconcile_borrowed (l : list BorrowedTransaction)
    : wprog (wresult (list SubmissionResult * list BorrowedTransaction)) :=
  match l with
  | [] => WRet (Ok ([], []))
  | borrowed :: l' =>
      act! terminal_hash := durable_outcome borrowed in
      match terminal_hash with
      | Some hash =>
          act* now := call_out Clock in
          let transaction := mkSubmitted (with_hash hash (submitted_of_borrowed now (bt_data borrowed)))
                               (bt_user_request borrowed) in
          act! (results, to_broadcast) := reconcile_borrowed l' in
          WRet (Ok (mkSubmissionResult transaction Reconcile :: results, to_broadcast))
      | None =>
          act! _ := authorize_eoa borrowed in
          act! (results, to_broadcast) := reconcile_borrowed l' in
          WRet (Ok (results, borrowed :: to_broadcast))
      end
  end.

(** A matching inclusion is handed to receipt polling; anything else is sent again. *)
Definition rebroadcast (borrowed : BorrowedTransaction) : wprog SubmissionResult :=
  let hash := tx_hash (bd_signed_transaction (bt_data borrowed)) in
  act* receipt := call_out (GetTransactionReceipt hash) in
  let included :=
    match receipt with
    | Ok (Some receipt) =>
        bool_decide (receipt_transaction_hash receipt = hash)
        && is_some (receipt_block_number receipt) && is_some (receipt_block_hash receipt)
    | _ => false
    end in
  if included then
    act* now := call_out Clock in
    WRet (mkSubmissionResult (mkSubmitted (submitted_of_borrowed now (bt_data borrowed)) (bt_user_request borrowed)) Reconcile)
  else broadcast_borrowed borrowed.

Definition recover_borrowed_state : wprog (wresult N) :=
  act! borrowed_data := store_act OpPeekBorrowed in
  act! borrowed_transactions := store_act (OpHydrateAll borrowed_data) in
  match borrowed_transactions with
  | [] => WRet (Ok 0%N)
  | _ =>
      act! (submission_results, to_broadcast) := reconcile_borrowed (sort_by_nonce borrowed_transactions) in
      act* recovery_results := buffered (map rebroadcast to_broadcast) in
      act! report := store_act (OpProcessBorrowed (submission_results ++ recovery_results)) in
      WRet (Ok (u32_wrap (N.of_nat (br_moved_to_submitted report))))
  end.

(** ** The workflow *)

(** [.map_err(|e| e.handle())?] *)
Definition or_handle {A} (p : wprog (wresult A)) : wprog (result (JobError WorkerError) A) :=
  act* r := p in WRet (match r with Ok a => Ok a | Err e => Err (handle e) end).

Definition execute_main_workflow : wprog (result (JobError WorkerError) WorkerResult) :=
  act! _ := or_handle cull_stale_pending_transactions in
  act! recovered := or_handle recover_borrowed_state in
  act! report := or_handle confirm_flow in
  act! sent := or_handle send_flow in
  act! counts := or_handle (store_act OpCounts) in
  WRet (Ok (mkWorkerResult recovered (u32_wrap (N.of_nat (cr_moved_to_success report)))
    (u32_wrap (N.of_nat (cr_moved_to_failed report))) sent (u32_wrap (N.of_nat (cr_moved_to_pending report)))
    (u32_wrap (ec_submitted_transactions counts)) (u32_wrap (ec_pending_transactions counts))
    (u32_wrap (ec_borrowed_transactions counts)) (u32_wrap (ec_recycled_nonces counts)))).
End Cycle.

(** ** The job *)

Section Job.
Context `{WorkerWire} `{Primitives} `{!Json Value, !Json FinalityEvidence, !Json GapReplayState} `{!Process}.

(** Configuration of the handler; [jh_chain_service] gives a chain and whether its
    pending count is used for preconfirmations. *)
Record EoaExecutorJobHandler := mkJobHandler {
  jh_chain_service : N -> result string (ChainView * bool);
  jh_max_inflight : N;
  jh_broadcast_concurrency : positive
}.
Record EoaExecutorWorkerJobData := mkJobData {
  jd_eoa_address : string;
  jd_chain_id : N;
  jd_noop_signing_credential : SigningCredential
}.

(** A delegated wallet has one transaction in flight, and chain 1628 twenty. *)
Definition worker_of (self : EoaExecutorJobHandler) (data : EoaExecutorWorkerJobData) (chain : ChainView)
    (use_pending is_minimal_account : bool) : Worker :=
  mkWorker (jd_eoa_address data) chain (jd_chain_id data) (with_kms_cache (jd_noop_signing_credential data))
    (if is_minimal_account then 1%N
     else if (ch_chain_id chain =? 1628)%N then 20%N else jh_max_inflight self)
    (jh_broadcast_concurrency self) use_pending.

Definition process (self : EoaExecutorJobHandler) (data : EoaExecutorWorkerJobData)
    : wprog (result (JobError WorkerError) WorkerResult) :=
  match jh_chain_service self (jd_chain_id data) with
  | Err e =>
      WRet (Err (Nack (WeChainServiceError (jd_chain_id data) ("Failed to get chain: " +:+ e)) (Some (seconds 10)) Last))
  | Ok (chain, use_pending) =>
      act* scoped := store_call OpAcquire in
      match scoped with
      | Err e => WRet (Err (handle (from_store_error e)))
      | Ok _ =>
          act* delegated := call_out (IsMinimalAccount (jd_eoa_address data)) in
          let delegation := result_ok delegated in
          let worker := worker_of self data chain use_pending (default false delegation) in
          act* workflow_result := execute_main_workflow in
          act* _ := store_call OpRelease in
          WRet (match workflow_result with
                | Err e => Err e
                | Ok result => into_job_result result delegation
                end)
      end
  end.
End Job.
