(* ===== verification/WorkerLogic.v ===== *)
(** Reasoning about worker programs.

    [wsafe Φ p h w Q]: whatever the store, the chain and the other workers of the process
    do, every call that [p] makes satisfies [Φ] when it is made, given the calls made
    before it, and [p] ends with a value, a history and a world in [Q].  Before every
    call the world may have moved on, as long as the ledger only grew; so assertions
    speak of the history and of the ledger, never of the store's contents, and programs
    that run side by side compose. *)

From Stdlib Require Import String Ascii NArith ZArith Lia.
From stdpp Require Import base gmap strings option list fin_maps relations.
From S2P Require Import Prelude Json JsonValue Redis RedisProg Errors FinalityTypes Fees.
From S2P Require Import RecoveryLedger RecoveryChecks EngineProg RecoveryJournal RecoveryOps.
From S2P Require Import RecoveryOffline RecoverySpec RecoveryKeeps RecoveryTxns RecoveryGate.
From S2P Require Import RecoveryOpSpecs RecoveryLife.
From S2P Require Import Finality FinalityClaims QueueTypes Webhook EoaTypes EoaErrors ExecRecovery WorkerProg.
From S2P Require Import EoaKeys EoaAtomic EoaStore EoaPending EoaBorrowed EoaOps WorkerBuild.

(** ** Returned values *)

Section Yields.
Context `{WorkerWire}.

(** Whatever the calls answer, the program returns a value in [Q]. *)
Fixpoint yields {A} (p : wprog A) (Q : A -> Prop) : Prop :=
  match p with
  | WRet a => Q a
  | WStore _ k | WJournal _ k | WCall _ k => ∀ b, yields (k b) Q
  end.
Lemma yields_mono {A} (p : wprog A) (Q Q' : A -> Prop) : (∀ a, Q a -> Q' a) -> yields p Q -> yields p Q'.
Proof. intros HQ. induction p as [a|B o k IH|B e k IH|B q k IH]; cbn; eauto. Qed.
Lemma yields_bind {A B} (p : wprog A) (g : A -> wprog B) Q :
  yields p (fun a => yields (g a) Q) -> yields (wbind p g) Q.
Proof. induction p as [a|C o k IH|C e k IH|C q k IH]; cbn; eauto. Qed.
Lemma yields_any {A} (p : wprog A) : yields p (fun _ => True).
Proof. induction p; cbn; eauto. Qed.

(** The [?] operator: the error is passed on. *)
Definition yok {E A} (Q : A -> Prop) (r : result E A) : Prop := match r with Ok a => Q a | Err _ => True end.
Lemma yields_try {E A B} (p : wprog (result E A)) (g : A -> wprog (result E B)) Q S :
  yields p (yok Q) -> (∀ a, Q a -> yields (g a) (yok S)) ->
  yields (wbind p (fun r => match r with Ok a => g a | Err e => WRet (Err e) end)) (yok S).
Proof. intros Hp Hg. apply yields_bind. eapply yields_mono; [|exact Hp]. intros [a|e]; [apply Hg|done]. Qed.
Lemma yields_try_any {E A B} (p : wprog (result E A)) (g : A -> wprog (result E B)) S :
  (∀ a, yields (g a) (yok S)) ->
  yields (wbind p (fun r => match r with Ok a => g a | Err e => WRet (Err e) end)) (yok S).
Proof.
  intros Hg. eapply (yields_try _ _ (fun _ => True)); [|by intros a _].
  eapply yields_mono; [|apply yields_any]. by intros [].
Qed.
End Yields.

(** ** Calls and histories *)

Section Safe.
Context `{WorkerWire} `{!Json EoaTransactionRequest, !Json BorrowedTransactionData,
  !Json TransactionAttempt, !Json EoaHealth, !Json TransactionReceipt}
  `{!Json (WebhookNotificationEnvelope EoaEventPayload), !Json WebhookJobPayload}.
Context `{Primitives} `{!Json Value, !Json FinalityEvidence}.
Context (ks : EoaExecutorStoreKeys) (worker_id wq : string).
Context (finality_json : FinalityEvidence -> string) (ttl : N).
#[local] Notation wrun := (wrun ks worker_id wq finality_json ttl).

(** A call about to be made. *)
Inductive doing :=
| DoStore {B : Type} (o : store_op B)
| DoCall {B : Type} (q : outside B).
Definition doing_of (d : done) : doing :=
  match d with DidStore o _ => DoStore o | DidCall q _ => DoCall q end.

(** An answer the store can give. *)
Definition answers {B} (o : store_op B) (b : B) : Prop :=
  ∃ uuid sch σ, (run (store_prog ks worker_id wq finality_json ttl uuid o) sch idle σ).1 = b.

(** The last call first. *)
Definition history := list done.

Section Wsafe.
Context {FT : FairTurns} (Φ : doing -> history -> world -> Prop).

Fixpoint wsafe {A} (p : wprog A) (h : history) (w : world) (Q : A -> history -> world -> Prop) : Prop :=
  ∀ h' w', h `suffix_of` h' -> later w w' ->
  match p with
  | WRet a => Q a h' w'
  | WStore o k => Φ (DoStore o) h' w' /\ ∀ b, answers o b -> wsafe (k b) (DidStore o b :: h') w' Q
  | WJournal e k => wp ok_turn later e w' (fun b w2 => wsafe (k b) h' w2 Q)
  | WCall q k => Φ (DoCall q) h' w' /\ ∀ b, wsafe (k b) (DidCall q b :: h') w' Q
  end.

Lemma wsafe_later {A} (p : wprog A) h w h' w' Q :
  h `suffix_of` h' -> later w w' -> wsafe p h w Q -> wsafe p h' w' Q.
Proof.
  intros Hh Hl Hs. destruct p; intros h2 w2 Hh2 Hl2; (apply Hs; [by etrans|by etrans]).
Qed.

(** What is known at the end includes that the world moved on. *)
Lemma wsafe_strong {A} (p : wprog A) h w (Q Q' : A -> history -> world -> Prop) :
  (∀ a h' w', h `suffix_of` h' -> later w w' -> Q a h' w' -> Q' a h' w') -> wsafe p h w Q -> wsafe p h w Q'.
Proof.
  revert h w. induction p as [a|B o k IH|B e k IH|B q k IH]; intros h w HQ Hs h' w' Hh Hl; specialize (Hs h' w' Hh Hl).
  - by apply HQ.
  - destruct Hs as [HΦ Hs]. split; [done|]. intros b Hb. apply IH; [|by apply Hs].
    intros a h2 w2 Hh2 Hl2. apply HQ; [|by etrans]. etrans; [exact Hh|]. etrans; [by apply suffix_cons_r|exact Hh2].
  - cbn in Hs |- *. eapply wp_mono; [done| |by apply wp_later]. intros b w2 [Hs2 Hl2]. apply IH; [|done].
    intros a h3 w3 Hh3 Hl3. apply HQ; [by etrans|]. etrans; [exact Hl|]. by etrans.
  - destruct Hs as [HΦ Hs]. split; [done|]. intros b. apply IH; [|by apply Hs].
    intros a h2 w2 Hh2 Hl2. apply HQ; [|by etrans]. etrans; [exact Hh|]. etrans; [by apply suffix_cons_r|exact Hh2].
Qed.
Lemma wsafe_mono {A} (p : wprog A) h w (Q Q' : A -> history -> world -> Prop) :
  (∀ a h' w', Q a h' w' -> Q' a h' w') -> wsafe p h w Q -> wsafe p h w Q'.
Proof. intros HQ. apply wsafe_strong. auto. Qed.

Lemma wsafe_ret {A} (a : A) h w Q : (∀ h' w', h `suffix_of` h' -> later w w' -> Q a h' w') -> wsafe (WRet a) h w Q.
Proof. done. Qed.

Lemma wsafe_bind {A B} (p : wprog A) (g : A -> wprog B) h w Q :
  wsafe p h w (fun a h' w' => wsafe (g a) h' w' Q) -> wsafe (wbind p g) h w Q.
Proof.
  revert h w. induction p as [a|C o k IH|C e k IH|C q k IH]; intros h w Hs; cbn [wbind].
  - assert (wsafe (g a) h w Q) as Hg by by apply Hs. done.
  - intros h' w' Hh Hl. destruct (Hs h' w' Hh Hl) as [HΦ Hk]. split; [done|]. intros b Hb. by apply IH, Hk.
  - intros h' w' Hh Hl. eapply wp_mono; [done| |exact (Hs h' w' Hh Hl)]. intros b w2 Hk. by apply IH.
  - intros h' w' Hh Hl. destruct (Hs h' w' Hh Hl) as [HΦ Hk]. split; [done|]. intros b. by apply IH, Hk.
Qed.

(** What holds at the end holds from then on. *)
Definition from_now (Q : history -> world -> Prop) (h : history) (w : world) : Prop :=
  ∀ h' w', h `suffix_of` h' -> later w w' -> Q h' w'.
Lemma wsafe_from_now {A} (p : wprog A) h w Q : wsafe p h w Q -> wsafe p h w (fun a => from_now (Q a)).
Proof.
  revert h w. induction p as [a|C o k IH|C e k IH|C q k IH]; intros h w Hs h' w' Hh Hl.
  - intros h2 w2 Hh2 Hl2. apply Hs; by etrans.
  - destruct (Hs h' w' Hh Hl) as [HΦ Hk]. split; [done|]. intros b Hb. by apply IH, Hk.
  - eapply wp_mono; [done| |exact (Hs h' w' Hh Hl)]. intros b w2 Hk. by apply IH.
  - destruct (Hs h' w' Hh Hl) as [HΦ Hk]. split; [done|]. intros b. by apply IH, Hk.
Qed.

(** ** Programs side by side *)

Definition step_left {A B} (p : wprog A) (q : wprog B) : wprog (A * B) :=
  match p with
  | WRet a => wbind q (fun b => WRet (a, b))
  | WStore o k => WStore o (fun x => interleave (k x) q)
  | WJournal e k => WJournal e (fun x => interleave (k x) q)
  | WCall c k => WCall c (fun x => interleave (k x) q)
  end.
Definition step_right {A B} (p : wprog A) (q : wprog B) : wprog (A * B) :=
  match q with
  | WRet b => wbind p (fun a => WRet (a, b))
  | WStore o k => WStore o (fun x => interleave p (k x))
  | WJournal e k => WJournal e (fun x => interleave p (k x))
  | WCall c k => WCall c (fun x => interleave p (k x))
  end.
Lemma interleave_unfold {A B} (p : wprog A) (q : wprog B) :
  interleave p q = WCall Scheduled (fun choice => if Nat.eqb choice 0 then step_left p q else step_right p q).
Proof. by destruct p, q. Qed.

Definition both {A B} (P : A -> history -> world -> Prop) (Q : B -> history -> world -> Prop)
    (ab : A * B) (h : history) (w : world) : Prop := P ab.1 h w /\ Q ab.2 h w.

(** The first call of one side: what follows it has to be composed with the other
    side, of which [X] keeps holding. *)
Section First.
Context {A R C : Type} (k : C -> wprog A) (f : C -> wprog R) (X : history -> world -> Prop).
Context (P : A -> history -> world -> Prop) (S : R -> history -> world -> Prop).
Context (stays : ∀ h w, X h w -> from_now X h w).
Context (composes : ∀ c h w, wsafe (k c) h w P -> X h w -> wsafe (f c) h w S).

Lemma wsafe_first_store (o : store_op C) h w : wsafe (WStore o k) h w P -> X h w -> wsafe (WStore o f) h w S.
Proof.
  intros Hp Hx h' w' Hh Hl. destruct (Hp h' w' Hh Hl) as [HΦ Hk]. split; [done|]. intros b Hb.
  apply composes; [by apply Hk|]. by apply (stays h w Hx); [apply suffix_cons_r|].
Qed.
Lemma wsafe_first_call (c : outside C) h w : wsafe (WCall c k) h w P -> X h w -> wsafe (WCall c f) h w S.
Proof.
  intros Hp Hx h' w' Hh Hl. destruct (Hp h' w' Hh Hl) as [HΦ Hk]. split; [done|]. intros b.
  apply composes; [by apply Hk|]. by apply (stays h w Hx); [apply suffix_cons_r|].
Qed.
Lemma wsafe_first_journal (e : eprog C) h w : wsafe (WJournal e k) h w P -> X h w -> wsafe (WJournal e f) h w S.
Proof.
  intros Hp Hx h' w' Hh Hl. eapply wp_mono; [done| |apply wp_later, (Hp h' w' Hh Hl)]. intros b w2 [Hk Hl2].
  apply composes; [done|]. apply (stays h w Hx); [done|]. by etrans.
Qed.
End First.

(** One side is done. *)
Lemma wsafe_rest {A B} (a : A) (q : wprog B) h w P Q :
  wsafe (WRet a) h w P -> wsafe q h w Q -> wsafe (wbind q (fun b => WRet (a, b))) h w (both P Q).
Proof.
  intros Hp Hq. apply wsafe_bind. eapply wsafe_strong; [|by apply wsafe_from_now].
  intros b h' w' Hh Hl Hb h2 w2 Hh2 Hl2. split; [apply Hp; by etrans|by apply Hb].
Qed.
Lemma wsafe_rest' {A B} (p : wprog A) (b : B) h w P Q :
  wsafe p h w P -> wsafe (WRet b) h w Q -> wsafe (wbind p (fun a => WRet (a, b))) h w (both P Q).
Proof.
  intros Hp Hq. apply wsafe_bind. eapply wsafe_strong; [|by apply wsafe_from_now].
  intros a h' w' Hh Hl Ha h2 w2 Hh2 Hl2. split; [by apply Ha|apply Hq; by etrans].
Qed.

Lemma wsafe_stays {A} (p : wprog A) Q h w : wsafe p h w Q -> from_now (fun h w => wsafe p h w Q) h w.
Proof. intros Hp h' w' Hh Hl. by eapply wsafe_later. Qed.

Lemma wsafe_interleave {A B} (p : wprog A) (q : wprog B) h w P Q :
  (∀ h w, Φ (DoCall Scheduled) h w) -> wsafe p h w P -> wsafe q h w Q -> wsafe (interleave p q) h w (both P Q).
Proof.
  intros HΦ. revert q h w. induction p as [a|C o k IHp|C e k IHp|C c k IHp]; intros q;
    induction q as [b|D o' k' IHq|D e' k' IHq|D c' k' IHq]; intros h w Hp Hq; rewrite interleave_unfold;
    intros h' w' Hh Hl; (split; [done|]); intros n;
    (apply wsafe_stays in Hp, Hq);
    (specialize (Hp (DidCall Scheduled n :: h') w' (suffix_cons_r _ _ _ Hh) Hl));
    (specialize (Hq (DidCall Scheduled n :: h') w' (suffix_cons_r _ _ _ Hh) Hl));
    destruct n as [|n]; cbn [Nat.eqb step_left step_right];
    first [ by apply wsafe_rest | by apply wsafe_rest'
          | eapply (wsafe_first_store _ _ _ _ _ (wsafe_stays _ _)); [|exact Hp|exact Hq]; eauto
          | eapply (wsafe_first_call _ _ _ _ _ (wsafe_stays _ _)); [|exact Hp|exact Hq]; eauto
          | eapply (wsafe_first_journal _ _ _ _ _ (wsafe_stays _ _)); [|exact Hp|exact Hq]; eauto
          | eapply (wsafe_first_store _ _ _ _ _ (wsafe_stays _ _)); [|exact Hq|exact Hp]; eauto
          | eapply (wsafe_first_call _ _ _ _ _ (wsafe_stays _ _)); [|exact Hq|exact Hp]; eauto
          | eapply (wsafe_first_journal _ _ _ _ _ (wsafe_stays _ _)); [|exact Hq|exact Hp]; eauto ].
Qed.

Lemma wsafe_buffered {A X} (f : X -> wprog A) (l : list X) h w (Q : X -> A -> history -> world -> Prop) :
  (∀ h w, Φ (DoCall Scheduled) h w) -> (∀ x, x ∈ l -> wsafe (f x) h w (Q x)) ->
  wsafe (buffered (map f l)) h w (fun rs h' w' => Forall2 (fun x r => Q x r h' w') l rs).
Proof.
  intros HΦ. revert h w. induction l as [|x l IH]; intros h w Hl; [by apply wsafe_ret|].
  cbn [map buffered]. apply wsafe_bind.
  eapply wsafe_mono; [|eapply wsafe_interleave; [done|apply wsafe_from_now, Hl; set_solver
    |apply wsafe_from_now, IH; set_solver]].
  intros [a rs] h1 w1 [Ha Hrs] h2 w2 Hh2 Hl2. constructor; [by apply Ha|by apply Hrs].
Qed.

(** ** Runs *)

(** [Φ] held of every call of a trace when it was made. *)
Fixpoint trace_ok (h : history) (tr : list (done * world)) : Prop :=
  match tr with
  | [] => True
  | (d, w) :: tr' => Φ (doing_of d) h w /\ trace_ok (d :: h) tr'
  end.
Lemma trace_ok_at h tr before d w after :
  trace_ok h tr -> tr = before ++ (d, w) :: after -> Φ (doing_of d) (reverse (map fst before) ++ h) w.
Proof.
  intros Htr ->. revert h Htr. induction before as [|[d0 w0] before IH]; intros h; cbn [trace_ok app map fst]; [by intros [? _]|].
  intros [_ Htr]. rewrite reverse_cons, <- (assoc_L (++)). by apply IH.
Qed.

(** The other workers of the process only add to the ledger, between two calls of the
    worker and between two operations of its journal flows. *)
Definition fair (t : wturn) : Prop := (∀ w, later w (wt_others t w)) /\ Forall ok_turn (wt_turns t).
Lemma fair_silent : fair silent_turn.
Proof. split; [intros w; done|done]. Qed.

Lemma wsafe_run {A} (p : wprog A) ts h w Q a w' tr :
  Forall fair ts -> wsafe p h w Q -> wrun p ts w = (a, w', tr) ->
  Q a (reverse (map fst tr) ++ h) w' /\ trace_ok h tr.
Proof.
  revert ts h w a w' tr. induction p as [x|B o k IH|B e k IH|B q k IH]; intros ts h w a w' tr Hts Hs;
    cbn [WorkerProg.wrun]; (assert (fair (next_wturn ts).1 /\ Forall fair (next_wturn ts).2) as [Ht Hts']
      by (destruct ts; [by split; [apply fair_silent|]|by inversion Hts])); destruct (next_wturn ts) as [t ts'];
    cbn [fst snd] in Ht, Hts'; destruct Ht as [Ht Hturns]; specialize (Hs h _ (reflexivity h) (Ht w)); set (w0 := wt_others t w) in *.
  - intros [= <- <- <-]. by split.
  - destruct Hs as [HΦ Hk]. destruct (run _ _ _ _) as [b [[sch c] σ]] eqn:Hrun.
    destruct (WorkerProg.wrun _ _ _ _ _ (k b) _ _) as [[a2 w2] tr2] eqn:Hw. intros [= <- <- <-].
    assert (answers o b) as Hb by (eexists _, _, _; by rewrite Hrun).
    assert (wsafe (k b) (DidStore o b :: h) (set_data σ w0) Q) as Hkb.
    { eapply wsafe_later; [done| |by apply Hk]. by apply later_same_disk. }
    destruct (IH _ _ _ _ _ _ _ Hts' Hkb Hw) as [HQ Htr].
    cbn [map fst trace_ok doing_of]. rewrite reverse_cons, <- (assoc_L (++)). by split.
  - destruct (erun e _ _) as [[b w1] tr1] eqn:He. intros Hw.
    destruct (wp_run ok_turn _ _ _ _ _ _ _ _ ok_quiet Hturns Hs He) as [Hk _]. by eapply IH.
  - destruct Hs as [HΦ Hk]. destruct (WorkerProg.wrun _ _ _ _ _ (k _) _ _) as [[a2 w2] tr2] eqn:Hw. intros [= <- <- <-].
    destruct (IH _ ts' _ _ _ _ _ Hts' (Hk _) Hw) as [HQ Htr].
    cbn [map fst trace_ok doing_of]. rewrite reverse_cons, <- (assoc_L (++)). by split.
Qed.

(** ** Specifications *)

Definition assertion := history -> world -> Prop.
Definition wspec (P : assertion) {A} (p : wprog A) (Q : A -> assertion) : Prop :=
  ∀ h w, P h w -> wsafe p h w Q.
(** An assertion that holds from then on. *)
Class Stable (P : assertion) := stable : ∀ h w, P h w -> from_now P h w.

#[export] Instance stable_pure (φ : Prop) : Stable (fun _ _ => φ).
Proof. by intros h w Hφ h' w' _ _. Qed.
#[export] Instance stable_and P Q `{!Stable P, !Stable Q} : Stable (fun h w => P h w /\ Q h w).
Proof. intros h w [HP HQ] h' w' Hh Hl. split; [exact (stable h w HP h' w' Hh Hl)|exact (stable h w HQ h' w' Hh Hl)]. Qed.
#[export] Instance stable_ex {X} (P : X -> assertion) `{!∀ x, Stable (P x)} : Stable (fun h w => ∃ x, P x h w).
Proof. intros h w [x HP] h' w' Hh Hl. exists x. exact (stable h w HP h' w' Hh Hl). Qed.
#[export] Instance stable_all {X} (φ : X -> Prop) (P : X -> assertion) `{!∀ x, Stable (P x)} :
  Stable (fun h w => ∀ x, φ x -> P x h w).
Proof. intros h w HP h' w' Hh Hl x Hx. exact (stable h w (HP x Hx) h' w' Hh Hl). Qed.
#[export] Instance stable_done d : Stable (fun h _ => d ∈ h).
Proof. intros h w Hd h' w' [k ->] _. set_solver. Qed.
#[export] Instance stable_grown l0 : Stable (fun _ w => grown l0 w).
Proof. intros h w Hg h' w' _ Hl. by eapply grown_later. Qed.
#[export] Instance stable_Forall {X} (P : X -> assertion) (l : list X) `{!∀ x, Stable (P x)} :
  Stable (fun h w => Forall (fun x => P x h w) l).
Proof. intros h w HP h' w' Hh Hl. eapply Forall_impl; [exact HP|]. intros x Hx. exact (stable h w Hx h' w' Hh Hl). Qed.

Lemma wspec_conseq {A} (P P' : assertion) (p : wprog A) (Q Q' : A -> assertion) :
  (∀ h w, P' h w -> P h w) -> (∀ a h w, Q a h w -> Q' a h w) -> wspec P p Q -> wspec P' p Q'.
Proof. intros HP HQ Hp h w Hw. eapply wsafe_mono; [exact HQ|]. auto. Qed.

Lemma wspec_post {A} (P : assertion) (p : wprog A) (Q Q' : A -> assertion) :
  wspec P p Q -> (∀ a h w, Q a h w -> Q' a h w) -> wspec P p Q'.
Proof. intros Hp HQ. by eapply wspec_conseq. Qed.

Lemma wspec_ret {A} (P : assertion) (a : A) (Q : A -> assertion) `{!Stable P} :
  (∀ h w, P h w -> Q a h w) -> wspec P (WRet a) Q.
Proof. intros HQ h w HP h' w' Hh Hl. apply HQ. exact (stable h w HP h' w' Hh Hl). Qed.

(** The precondition is kept along. *)
Lemma wspec_bind {A B} (P : assertion) (p : wprog A) (g : A -> wprog B) (Q : A -> assertion) S `{!Stable P} :
  wspec P p Q -> (∀ a, wspec (fun h w => P h w /\ Q a h w) (g a) S) -> wspec P (wbind p g) S.
Proof.
  intros Hp Hg h w HP. apply wsafe_bind. eapply wsafe_strong; [|by apply Hp].
  intros a h' w' Hh Hl HQ. apply Hg. split; [exact (stable h w HP h' w' Hh Hl)|done].
Qed.

(** Nothing is promised of a failed call. *)
Definition wok {E A} (Q : A -> assertion) (r : result E A) : assertion :=
  fun h w => match r with Ok a => Q a h w | Err _ => True end.
#[export] Instance stable_wok {E A} (Q : A -> assertion) (r : result E A) `{!∀ a, Stable (Q a)} : Stable (wok Q r).
Proof. destruct r as [a|e]; [exact (stable (P := Q a))|by intros h w _ h' w' _ _]. Qed.
Lemma wspec_try {E A B} (P : assertion) (p : wprog (result E A)) (g : A -> wprog (result E B)) Q S `{!Stable P} :
  wspec P p (wok Q) -> (∀ a, wspec (fun h w => P h w /\ Q a h w) (g a) (wok S)) ->
  wspec P (wbind p (fun r => match r with Ok a => g a | Err e => WRet (Err e) end)) (wok S).
Proof.
  intros Hp Hg. apply (wspec_bind P p _ (wok Q)); [done..|]. intros [a|e]; [apply Hg|]. by intros h w _ h' w' _ _.
Qed.

Lemma wspec_store {B} (P : assertion) (o : store_op B) `{!Stable P} :
  (∀ h w, P h w -> Φ (DoStore o) h w) -> wspec P (store_call o) (fun b h _ => answers o b /\ DidStore o b ∈ h).
Proof.
  intros HΦ h w HP h' w' Hh Hl. split; [exact (HΦ _ _ (stable h w HP h' w' Hh Hl))|]. intros b Hb h2 w2 [k ->] Hl2. split; [done|]. set_solver.
Qed.
Lemma wspec_call {B} (P : assertion) (q : outside B) `{!Stable P} :
  (∀ h w, P h w -> Φ (DoCall q) h w) -> wspec P (call_out q) (fun b h _ => DidCall q b ∈ h).
Proof. intros HΦ h w HP h' w' Hh Hl. split; [exact (HΦ _ _ (stable h w HP h' w' Hh Hl))|]. intros b h2 w2 [k ->] Hl2. set_solver. Qed.

(** After a journal program: what it established at its end. *)
Lemma wspec_journal {B} (P : assertion) l0 (e : eprog B) (Q : B -> world -> Prop) `{!Stable P} :
  (∀ h w, P h w -> grown l0 w) -> triple ok_turn later (grown l0) e Q ->
  wspec P (journal_step e) (fun b _ w => ∃ w0, Q b w0 /\ grown l0 w0 /\ later w0 w).
Proof.
  intros HP He h w Hw h' w' Hh Hl. assert (grown l0 w') as Hg by exact (HP _ _ (stable h w Hw h' w' Hh Hl)).
  pose proof Hg as (l & Hd & Hok & Hev).
  eapply wp_mono; [done| |apply (wp_ledger _ _ _ _ _ Hd Hok (He w' Hg))].
  intros b w1 [HQ (l1 & Hd1 & Hok1 & He1)] h2 w2 Hh2 Hl2. exists w1. split_and!; [done| |done].
  exists l1. split_and!; [done|done|by etrans].
Qed.

Lemma wspec_buffered {A X} (P : assertion) (f : X -> wprog A) (l : list X) (Q : X -> A -> assertion) `{!Stable P} :
  (∀ h w, Φ (DoCall Scheduled) h w) -> (∀ x, x ∈ l -> wspec P (f x) (Q x)) ->
  wspec P (buffered (map f l)) (fun rs h w => Forall2 (fun x r => Q x r h w) l rs).
Proof. intros HΦ Hf h w HP. apply wsafe_buffered; [done|]. intros x Hx. by apply Hf. Qed.

(** What a program returns is known whatever it does. *)
Lemma wspec_yields {A} (P : assertion) (p : wprog A) (Q : A -> assertion) (R : A -> Prop) :
  yields p R -> wspec P p Q -> wspec P p (fun a h w => R a /\ Q a h w).
Proof.
  intros Hy Hp h w HP. specialize (Hp h w HP). clear P HP. revert h w Hy Hp.
  induction p as [a|B o k IH|B e k IH|B q k IH]; cbn [yields]; intros h w Hy Hs h' w' Hh Hl;
    specialize (Hs h' w' Hh Hl).
  - by split.
  - destruct Hs as [HΦ Hs]. split; [done|]. intros b Hb. by apply IH, Hs.
  - eapply wp_mono; [done| |exact Hs]. intros b w2 Hs2. by apply IH.
  - destruct Hs as [HΦ Hs]. split; [done|]. intros b. by apply IH, Hs.
Qed.

Lemma yields_run {A} (p : wprog A) (R : A -> Prop) ts w a w' tr :
  yields p R -> wrun p ts w = (a, w', tr) -> R a.
Proof.
  revert ts w a w' tr. induction p as [x|B o k IH|B e k IH|B q k IH]; intros ts w a w' tr Hy; cbn [WorkerProg.wrun];
    destruct (next_wturn ts) as [t ts'].
  - by intros [= <- _ _].
  - destruct (run _ _ _ _) as [b [[sch c] σ]]. destruct (WorkerProg.wrun _ _ _ _ _ (k b) _ _) as [[a2 w2] tr2] eqn:Hw.
    intros [= <- _ _]. by eapply IH.
  - destruct (erun e _ _) as [[b w1] tr1]. intros Hw. by eapply IH.
  - destruct (WorkerProg.wrun _ _ _ _ _ (k _) _ _) as [[a2 w2] tr2] eqn:Hw. intros [= <- _ _]. by eapply IH.
Qed.
End Wsafe.
End Safe.
