(* ===== verification/WorkerQuiet.v ===== *)
(** Worker programs that neither send nor settle: preparation, health, counts.  They keep
    any assertion that the ledger's growth keeps, whatever the store and the chain
    answer. *)

From Stdlib Require Import String Ascii NArith ZArith Lia.
From stdpp Require Import base gmap strings option list fin_maps relations.
From S2P Require Import Prelude Json JsonValue Redis RedisProg Errors FinalityTypes Fees.
From S2P Require Import RecoveryLedger RecoveryChecks EngineProg RecoveryJournal RecoveryOps.
From S2P Require Import RecoveryOffline RecoverySpec RecoveryKeeps RecoveryTxns RecoveryGate.
From S2P Require Import RecoveryOpSpecs RecoveryLife.
From S2P Require Import Finality FinalityClaims QueueTypes Webhook EoaTypes EoaErrors ExecRecovery.
From S2P Require Import EoaKeys EoaAtomic EoaStore EoaPending EoaBorrowed EoaSubmitted EoaOps.
From S2P Require Import WorkerProg WorkerBuild WorkerSend WorkerGap WorkerConfirm WorkerCycle WorkerLogic.

Create HintDb calm.

(** ** Journal programs *)

Section Calm.
Context `{SignedWire} `{Primitives} `{!Json Value, !Json FinalityEvidence} {FT : FairTurns}.
#[local] Notation spec P p Q := (triple ok_turn later P p Q).

(** Every step of the program, from any ledger on, is a step of the journal. *)
Definition calm {A} (e : eprog A) : Prop := ∀ l0, spec (grown l0) e (fun _ _ => True).

Lemma calm_grown {A} (e : eprog A) l0 : calm e -> spec (grown l0) e (fun _ => grown l0).
Proof.
  intros He w Hg. pose proof Hg as (l & Hd & Hok & Hev).
  eapply wp_mono; [done| |apply (wp_ledger _ _ _ _ _ Hd Hok (He l0 w Hg))].
  intros a w' [_ (l' & Hd' & Hok' & He')]. exists l'. split_and!; [done..|by etrans].
Qed.
Lemma calm_ret {A} (a : A) : calm (ERet a).
Proof. intros l0. by apply triple_ret. Qed.
Lemma calm_bind {A B} (e : eprog A) (g : A -> eprog B) : calm e -> (∀ a, calm (g a)) -> calm (ebind e g).
Proof. intros He Hg l0. eapply triple_bind; [by apply calm_grown|]. intros a. apply Hg. Qed.
Lemma calm_op {A} (e : eprog A) (Q : disk -> A -> world -> Prop) :
  (∀ d, disk_ok d -> triple ok_turn (step ok_turn) (fun w => w_disk w = d) e (Q d)) -> calm e.
Proof.
  intros He l0 w (l & Hd & Hok & _).
  eapply wp_mono; [done| |apply (triple_flow _ _ _ (He (LedgerFile l) Hok) w Hd)]. done.
Qed.
Lemma calm_read {B} (f : Ledger -> recovery_result B) : calm (db_read f).
Proof. intros l0. apply triple_flow. eapply triple_post; [by apply (db_read_spec _ _ _ (fun _ _ => True))|done]. Qed.
Lemma calm_block alloy chain tag : calm (get_block_by_number alloy chain tag).
Proof. intros l0. apply triple_block. intros t _. by apply triple_ret. Qed.

Lemma calm_journal_call {A} (e : eprog (recovery_result A)) : calm e -> calm (journal_call e).
Proof.
  intros He l0. eapply triple_post; [apply (journal_call_spec l0 _ (fun _ _ => True))|done].
  eapply triple_post; [apply He|by intros []].
Qed.
Lemma calm_as_eoa {A} text (e : eprog (result EngineError A)) : calm e -> calm (as_eoa text e).
Proof. intros He. apply calm_bind; [done|]. intros r. apply calm_ret. Qed.
Lemma calm_eoa_journal {A} text (e : eprog (recovery_result A)) : calm e -> calm (eoa_journal text e).
Proof. intros He. by apply calm_as_eoa, calm_journal_call. Qed.
End Calm.

#[export] Hint Resolve calm_ret calm_read calm_block calm_journal_call calm_as_eoa calm_eoa_journal : calm.
#[export] Hint Extern 1 (calm ensure_healthy) => eapply calm_op; apply ensure_healthy_spec : calm.
#[export] Hint Extern 1 (calm (validate_payload _ _ _)) =>
  eapply calm_op; intros; by apply validate_payload_spec : calm.
#[export] Hint Extern 1 (calm (validate_replay_binding _ _ _)) =>
  eapply calm_op; intros; by apply validate_replay_binding_spec : calm.
#[export] Hint Extern 1 (calm (before_broadcast _ _ _ _)) =>
  eapply calm_op; intros; by apply before_broadcast_spec : calm.
#[export] Hint Extern 1 (calm (reserve_admission _ _ _ _)) =>
  eapply calm_op; intros; by apply reserve_admission_spec : calm.
#[export] Hint Extern 1 (calm (check_chain_healthy _)) =>
  eapply calm_op; intros; by apply check_chain_healthy_spec : calm.
#[export] Hint Extern 1 (calm (load_checkpoint _)) => eapply calm_op; intros; by apply load_checkpoint_spec : calm.
#[export] Hint Extern 1 (calm (halt_chain _)) => eapply calm_op; intros; by apply halt_chain_spec : calm.
#[export] Hint Extern 1 (calm (commit_checkpoint _ _ _)) =>
  eapply calm_op; intros; by apply commit_checkpoint_spec : calm.
#[export] Hint Extern 1 (calm (validate_attempt_identity _ _ _)) =>
  eapply calm_op; intros; by apply validate_attempt_identity_spec : calm.
#[export] Hint Extern 1 (calm (record_terminal _ _ _)) => eapply calm_op; intros; by apply record_terminal_spec : calm.
#[export] Hint Extern 1 (calm (latest_eoa_attempt _ _)) =>
  eapply calm_op; intros; by apply latest_eoa_attempt_spec : calm.
#[export] Hint Extern 1 (calm (journal_admission _ _)) => apply calm_read : calm.
#[export] Hint Extern 1 (calm (terminal_evidence _ _)) => apply calm_read : calm.

(** Through binds and case analyses down to the operations. *)
Ltac calm_steps :=
  repeat first
    [ solve [auto with calm nocore]
    | apply calm_bind; [|intros ?]
    | match goal with
      | |- calm (match ?x with _ => _ end) => destruct x
      | |- calm (let '_ := ?x in _) => destruct x
      end
    | progress cbv zeta ].

Section CalmPrograms.
Context `{SignedWire} `{Primitives} `{!Json Value, !Json FinalityEvidence} {FT : FairTurns}.
Context (text : EngineError -> string) (alloy : AlloyRpcError -> string).

Lemma calm_validate j kind id payload : calm (validate j kind id payload).
Proof. unfold validate. calm_steps. Qed.
Lemma calm_validate_eoa_nonce j request nonce : calm (validate_eoa_nonce text j request nonce).
Proof. unfold validate_eoa_nonce. pose proof calm_validate. calm_steps. Qed.
Lemma calm_before_eoa j request tx : calm (before_eoa text j request tx).
Proof. unfold before_eoa. pose proof calm_validate. calm_steps. Qed.
Lemma calm_reserve_noop j chain sender nonce : calm (reserve_noop text j chain sender nonce).
Proof. unfold reserve_noop. calm_steps. Qed.
Lemma calm_check_continuity j chain : calm (check_continuity alloy j chain).
Proof. unfold check_continuity, assess_checkpoint_continuity. calm_steps. Qed.
Lemma calm_assess_receipt chain hash receipt : calm (assess_receipt_finality alloy chain hash receipt).
Proof. intros l0. eapply triple_post; [apply assess_receipt_spec|done]. Qed.
Lemma calm_validate_eoa_confirmation j kind id chain sender nonce hash :
  calm (validate_eoa_confirmation j kind id chain sender nonce hash).
Proof. unfold validate_eoa_confirmation, validate_eoa_confirmation_with_journal. calm_steps. Qed.
Lemma calm_terminal_eoa_projection parse payload id chain from nonce :
  calm (terminal_eoa_projection parse payload id chain from nonce).
Proof. unfold terminal_eoa_projection, validate_reconciliation_payload. calm_steps. Qed.
End CalmPrograms.
#[export] Hint Resolve calm_validate calm_validate_eoa_nonce calm_before_eoa calm_reserve_noop calm_check_continuity
  calm_assess_receipt calm_validate_eoa_confirmation calm_terminal_eoa_projection : calm.

(** ** Worker programs *)

Create HintDb quiet.

Section Quiet.
Context `{WorkerWire} `{!Json EoaTransactionRequest, !Json BorrowedTransactionData,
  !Json TransactionAttempt, !Json EoaHealth, !Json TransactionReceipt}
  `{!Json (WebhookNotificationEnvelope EoaEventPayload), !Json WebhookJobPayload}.
Context `{Primitives} `{!Json Value, !Json FinalityEvidence, !Json GapReplayState} {FT : FairTurns}.
Context (ks : EoaExecutorStoreKeys) (worker_id wq : string).
Context (finality_json : FinalityEvidence -> string) (ttl : N).
Context (Φ : doing -> history -> world -> Prop).
#[local] Notation wspec := (wspec ks worker_id wq finality_json ttl Φ).

(** Calls that neither allocate new nonces, nor broadcast, nor settle. *)
Definition harmless (d : doing) : Prop :=
  match d with
  | DoStore (OpCleanSubmitted _ _) | DoStore (OpMoveIncremented _) => False
  | DoCall (SendTxEnvelope _) | DoCall (SendRawTransaction _) => False
  | _ => True
  end.
Context (free : ∀ d h w, harmless d -> Φ d h w).

Definition quiet {A} (p : wprog A) : Prop := ∀ l0, wspec (fun _ w => grown l0 w) p (fun _ _ _ => True).

Lemma wspec_quiet {A} (P : assertion) l0 (p : wprog A) :
  (∀ h w, P h w -> grown l0 w) -> quiet p -> wspec P p (fun _ _ _ => True).
Proof. intros HP Hp h w Hw. exact (Hp l0 h w (HP h w Hw)). Qed.

Lemma quiet_ret {A} (a : A) : quiet (WRet a).
Proof. intros l0. apply wspec_ret; [apply _|done]. Qed.
Lemma quiet_bind {A B} (p : wprog A) (g : A -> wprog B) : quiet p -> (∀ a, quiet (g a)) -> quiet (wbind p g).
Proof.
  intros Hp Hg l0. eapply wspec_bind; [apply _|apply Hp|]. intros a h w [Hw _]. by apply (Hg a l0).
Qed.
Lemma quiet_store {B} (o : store_op B) : harmless (DoStore o) -> quiet (store_call o).
Proof.
  intros Ho l0. eapply wspec_conseq; [| |apply (wspec_store _ _ _ _ _ _ (fun _ w => grown l0 w))]; [done|done|apply _|].
  intros h w _. by apply free.
Qed.
Lemma quiet_call {B} (q : outside B) : harmless (DoCall q) -> quiet (call_out q).
Proof.
  intros Ho l0. eapply wspec_conseq; [| |apply (wspec_call _ _ _ _ _ _ (fun _ w => grown l0 w))]; [done|done|apply _|].
  intros h w _. by apply free.
Qed.
Lemma quiet_journal {B} (e : eprog B) : calm e -> quiet (journal_step e).
Proof.
  intros He l0. eapply wspec_conseq; [| |apply (wspec_journal _ _ _ _ _ _ (fun _ w => grown l0 w) l0)];
    [done|done|apply _|done|by apply He].
Qed.
Lemma quiet_buffered {A} (ps : list (wprog A)) : (∀ p, p ∈ ps -> quiet p) -> quiet (buffered ps).
Proof.
  intros Hps l0. rewrite <- (map_id ps). eapply wspec_conseq; [| |apply (wspec_buffered _ _ _ _ _ _ (fun _ w => grown l0 w))]; [done|done|apply _| |].
  - intros h w. by apply free.
  - intros p Hp. by apply Hps.
Qed.
End Quiet.

#[export] Hint Resolve quiet_ret : quiet.

(** Through binds and case analyses down to the calls. *)
Ltac quiet_steps :=
  repeat first
    [ solve [eauto 3 with quiet nocore]
    | apply quiet_bind; [|intros ?]
    | apply quiet_store; [eassumption|exact I]
    | apply quiet_call; [eassumption|exact I]
    | apply quiet_journal; solve [calm_steps]
    | match goal with
      | |- quiet _ _ _ _ _ _ (match ?x with _ => _ end) => destruct x
      end
    | progress cbv zeta ].

Section QuietPrograms.
Context `{WorkerWire} `{!Json EoaTransactionRequest, !Json BorrowedTransactionData,
  !Json TransactionAttempt, !Json EoaHealth, !Json TransactionReceipt}
  `{!Json (WebhookNotificationEnvelope EoaEventPayload), !Json WebhookJobPayload}.
Context `{Primitives} `{!Json Value, !Json FinalityEvidence, !Json GapReplayState} {FT : FairTurns}.
Context (ks : EoaExecutorStoreKeys) (worker_id wq : string).
Context (finality_json : FinalityEvidence -> string) (ttl : N).
Context (Φ : doing -> history -> world -> Prop) (free : ∀ d h w, harmless d -> Φ d h w).
Context `{!Process, !Worker}.
#[local] Notation quiet := (quiet ks worker_id wq finality_json ttl Φ).

Lemma quiet_store_act {A} (o : store_op (store_result A)) : harmless (DoStore o) -> quiet (store_act o).
Proof. intros Ho. apply quiet_bind; [by apply quiet_store|]. intros r. apply quiet_ret. Qed.
#[local] Hint Extern 1 (WorkerQuiet.quiet _ _ _ _ _ _ (store_act _)) => apply quiet_store_act; exact I : quiet.

Lemma quiet_estimate_gas_fees r : quiet (estimate_gas_fees r).
Proof. unfold estimate_gas_fees. quiet_steps. Qed.
#[local] Hint Resolve quiet_estimate_gas_fees : quiet.
Lemma quiet_request_fees request r : quiet (request_fees request r).
Proof. unfold request_fees, estimate_missing. quiet_steps. Qed.
#[local] Hint Resolve quiet_request_fees : quiet.
Lemma quiet_build_typed_transaction request nonce : quiet (build_typed_transaction request nonce).
Proof. unfold build_typed_transaction, request_gas. quiet_steps. Qed.
#[local] Hint Resolve quiet_build_typed_transaction : quiet.
Lemma quiet_sign_transaction tx credential : quiet (sign_transaction tx credential).
Proof. unfold sign_transaction, ensure_journal. quiet_steps. Qed.
#[local] Hint Resolve quiet_sign_transaction : quiet.
Lemma quiet_build_and_sign_single p nonce : quiet (build_and_sign_single_transaction p nonce).
Proof. unfold build_and_sign_single_transaction, build_and_sign_transaction, validate_supplied_gas. quiet_steps. Qed.
#[local] Hint Resolve quiet_build_and_sign_single : quiet.
Lemma quiet_preparation p nonce : quiet (build_and_sign_single_transaction_with_retries p nonce).
Proof.
  unfold build_and_sign_single_transaction_with_retries. generalize MAX_PREPARATION_RETRIES as n.
  intros n. induction n as [|n IH]; cbn [preparation_attempts]; quiet_steps.
Qed.
Lemma quiet_build_noop nonce : quiet (build_and_sign_noop_transaction nonce).
Proof. unfold build_and_sign_noop_transaction. quiet_steps. Qed.
Lemma quiet_get_transaction_counts : quiet get_transaction_counts.
Proof. unfold get_transaction_counts. quiet_steps. Qed.
#[local] Hint Resolve quiet_get_transaction_counts : quiet.
Lemma quiet_worker_health : quiet worker_health.
Proof. unfold worker_health. quiet_steps. Qed.
#[local] Hint Resolve quiet_worker_health : quiet.
Lemma quiet_update_balance_threshold : quiet update_balance_threshold.
Proof. unfold update_balance_threshold. quiet_steps. Qed.
#[local] Hint Resolve quiet_update_balance_threshold : quiet.
Lemma quiet_check_funds : quiet check_funds.
Proof. unfold check_funds. quiet_steps. Qed.
Lemma quiet_refresh_health : quiet refresh_health.
Proof. unfold refresh_health. quiet_steps. Qed.
#[local] Hint Resolve quiet_refresh_health : quiet.
Lemma quiet_bump_not_built nonce e : quiet (bump_not_built nonce e).
Proof. unfold bump_not_built. quiet_steps. Qed.
Lemma quiet_none_included l : quiet (none_included l).
Proof. induction l as [|tx l IH]; cbn [none_included]; quiet_steps. Qed.
Lemma quiet_synchronize_nonces counts : quiet (synchronize_nonces counts).
Proof. unfold synchronize_nonces. quiet_steps. Qed.
Lemma quiet_receipt_candidate_count n : quiet (receipt_candidate_count n).
Proof. unfold receipt_candidate_count. quiet_steps. Qed.
Lemma quiet_gap_state stored now latest cached : quiet (gap_state stored now latest cached).
Proof. unfold gap_state. quiet_steps. Qed.
Lemma quiet_observe_progress now latest state : quiet (observe_progress now latest state).
Proof. unfold observe_progress. quiet_steps. Qed.
Lemma quiet_clean_results results b : quiet (clean_prepration_results results b).
Proof. unfold clean_prepration_results. quiet_steps. Qed.
Lemma quiet_fetch_receipts l : quiet (fetch_confirmed_transaction_receipts l).
Proof.
  unfold fetch_confirmed_transaction_receipts, buffer_unordered. apply quiet_bind; [|intros ?; quiet_steps].
  apply quiet_bind; [|intros ?; quiet_steps]. apply quiet_buffered; [done|].
  intros p (tx & _ & Hp)%list_elem_of_omap. apply fmap_Some in Hp as (hash & _ & ->). unfold fetch_receipt. quiet_steps.
Qed.
Lemma quiet_cull : quiet cull_stale_pending_transactions.
Proof. unfold cull_stale_pending_transactions. quiet_steps. Qed.
Lemma quiet_durable_outcome borrowed : quiet (durable_outcome borrowed).
Proof. unfold durable_outcome, finality_step. quiet_steps. Qed.
End QuietPrograms.
