(* ===== verification/WorkerPrepare.v ===== *)
(** What preparation produces: the request handed to the signer is the client's request
    with the assigned nonce, gas, and fees the client allowed; a prepared transaction is
    the signature of such a request. *)

From Stdlib Require Import String Ascii NArith ZArith Lia.
From stdpp Require Import base gmap strings option list fin_maps relations.
From S2P Require Import Prelude Json JsonValue Redis RedisProg Errors FinalityTypes Fees.
From S2P Require Import RecoveryLedger RecoveryChecks EngineProg RecoveryJournal RecoveryOps.
From S2P Require Import Finality QueueTypes Webhook EoaTypes EoaErrors ExecRecovery.
From S2P Require Import EoaKeys EoaAtomic EoaStore WorkerProg WorkerBuild WorkerSend WorkerLogic.

Lemma prefix_pointwise {A} (l k : list A) : (∀ i x, l !! i = Some x -> k !! i = Some x) -> l `prefix_of` k.
Proof.
  revert k. induction l as [|a l IH]; intros k Hlk; [apply prefix_nil|].
  destruct k as [|b k]; [by specialize (Hlk 0 a eq_refl)|]. pose proof (Hlk 0 a eq_refl) as [= ->].
  apply prefix_cons, IH. intros i x Hx. exact (Hlk (S i) x Hx).
Qed.
Lemma map_snd_zip {A B} (l : list A) (k : list B) : length l = length k -> map snd (zip l k) = k.
Proof. intros Hlen. apply snd_zip. by rewrite Hlen. Qed.

Section Prepare.
Context `{WorkerWire} `{Primitives} `{!Json Value, !Json FinalityEvidence} `{!Process, !Worker}.

(** The client's intent with its nonce. *)
Definition keeps_intent (request : EoaTransactionRequest) (nonce : N) (r : AlloyRequest Authorization) : Prop :=
  ar_from r = Some (rq_from request) /\ ar_to r = rq_to request /\ ar_value r = Some (rq_value request) /\
  ar_input r = Some (rq_data request) /\ ar_chain_id r = Some (rq_chain_id request) /\ ar_nonce r = Some nonce.

(** Fees: a price, or a total and a priority fee; what the client fixed is kept. *)
Definition fees_complete (r : AlloyRequest Authorization) : Prop :=
  is_Some (ar_gas_price r) \/ (is_Some (ar_max_fee_per_gas r) /\ is_Some (ar_max_priority_fee_per_gas r)).
Definition fees_kept (request : EoaTransactionRequest) (r : AlloyRequest Authorization) : Prop :=
  match type_data <$> rq_transaction_type_data request with
  | Some (Eip1559 max_fee max_priority) | Some (Eip7702 _ max_fee max_priority) =>
      (∀ f, max_fee = Some f -> ar_max_fee_per_gas r = Some f) /\
      (∀ f, max_priority = Some f -> ar_max_priority_fee_per_gas r = Some f) /\
      (is_Some max_fee \/ is_Some max_priority -> ar_gas_price r = None)
  | Some (Legacy (Some gas_price)) => ar_gas_price r = Some gas_price
  | Some (Legacy None) | None => True
  end.
Definition fee_pair_ok (r : AlloyRequest Authorization) : Prop :=
  ∀ f p, ar_max_fee_per_gas r = Some f -> ar_max_priority_fee_per_gas r = Some p -> (p <= f)%N.

(** A well-formed request for the signer. *)
Definition request_wf (request : EoaTransactionRequest) (nonce : N) (r : AlloyRequest Authorization) : Prop :=
  keeps_intent request nonce r /\ fees_complete r /\ fees_kept request r /\ fee_pair_ok r /\ is_Some (ar_gas r) /\
  (∀ g, rq_gas_limit request = Some g -> ar_gas r = Some g).

(** An estimate only fills in missing fees. *)
Definition fills_fees (tx r : AlloyRequest Authorization) : Prop :=
  ar_from r = ar_from tx /\ ar_to r = ar_to tx /\ ar_value r = ar_value tx /\ ar_input r = ar_input tx /\
  ar_chain_id r = ar_chain_id tx /\ ar_nonce r = ar_nonce tx /\ ar_gas r = ar_gas tx /\
  (∀ f, ar_gas_price tx = Some f -> ar_gas_price r = Some f) /\
  (∀ f, ar_max_fee_per_gas tx = Some f -> ar_max_fee_per_gas r = Some f) /\
  (∀ f, ar_max_priority_fee_per_gas tx = Some f -> ar_max_priority_fee_per_gas r = Some f) /\
  (ar_gas_price tx = None -> is_Some (ar_max_fee_per_gas tx) \/ is_Some (ar_max_priority_fee_per_gas tx) ->
   ar_gas_price r = None).

Lemma fills_fees_refl tx : fills_fees tx tx.
Proof. by split_and!. Qed.

Lemma estimate_gas_fees_yields tx :
  yields (estimate_gas_fees tx) (yok (fun r => fills_fees tx r /\ fees_complete r)).
Proof.
  unfold estimate_gas_fees, fills_fees, fees_complete.
  destruct tx as [from to value input chain nonce gas price fee priority auths].
  destruct price as [price|]; cbn; [by split_and!; eauto|].
  destruct fee as [fee|], priority as [priority|]; cbn; try (by split_and!; eauto);
    (intros [[max_fee max_priority]|e]; cbn; [split_and!; [done..|right; split; eauto]|]);
    destruct (is_unsupported_eip1559_error e); cbn; try done.
  destruct auths; cbn; [done|]. intros [gas_price|e']; cbn; [|done]. split_and!; try done; [|left; eauto].
  intros _ [[? [=]]|[? [=]]].
Qed.

(** Everything but fees and authorizations. *)
Definition same_call (r r' : AlloyRequest Authorization) : Prop :=
  ar_from r' = ar_from r /\ ar_to r' = ar_to r /\ ar_value r' = ar_value r /\ ar_input r' = ar_input r /\
  ar_chain_id r' = ar_chain_id r /\ ar_nonce r' = ar_nonce r /\ ar_gas r' = ar_gas r.
Definition no_fees (r : AlloyRequest Authorization) : Prop :=
  ar_gas_price r = None /\ ar_max_fee_per_gas r = None /\ ar_max_priority_fee_per_gas r = None.

Lemma estimate_missing_yields (f m : option N) (r : AlloyRequest Authorization) :
  no_fees r ->
  yields (estimate_missing (set_if m with_max_priority (set_if f with_max_fee r))) (yok (fun r' =>
    fees_complete r' /\ same_call r r' /\ (∀ x, f = Some x -> ar_max_fee_per_gas r' = Some x) /\
    (∀ x, m = Some x -> ar_max_priority_fee_per_gas r' = Some x) /\
    (is_Some f \/ is_Some m -> ar_gas_price r' = None))).
Proof.
  intros (Hp & Hf & Hm). unfold estimate_missing. set (r1 := set_if m _ _).
  assert (ar_max_fee_per_gas r1 = f /\ ar_max_priority_fee_per_gas r1 = m /\ ar_gas_price r1 = None /\ same_call r r1)
    as (Hf1 & Hm1 & Hp1 & Hs) by (subst r1; destruct f, m; by split_and!).
  destruct (_ || _) eqn:Hmiss.
  - eapply yields_mono; [|apply estimate_gas_fees_yields]. intros [r'|]; [|done]. cbn.
    intros [(? & ? & ? & ? & ? & ? & ? & _ & Hkf & Hkm & Hkp) Hc]. rewrite Hf1 in Hkf, Hkp. rewrite Hm1 in Hkm, Hkp. split_and!; auto.
    destruct Hs as (? & ? & ? & ? & ? & ? & ?). unfold same_call. split_and!; congruence.
  - rewrite Hf1, Hm1 in Hmiss. destruct f as [f|], m as [m|]; try done.
    clearbody r1. cbn [yields yok]. unfold fees_complete. rewrite Hf1, Hm1. split_and!; eauto.
Qed.

Lemma request_fees_yields request r :
  no_fees r ->
  yields (request_fees request r) (yok (fun r' => fees_complete r' /\ fees_kept request r' /\ same_call r r')).
Proof.
  intros Hn. unfold request_fees, fees_kept. destruct (type_data <$> _) as [[auths f m|f m|[g|]]|].
  - set (r0 := match auths with Some _ => _ | None => r end).
    assert (no_fees r0 /\ same_call r r0) as [Hn0 Hs0] by (subst r0; destruct auths as [[|]|]; split; by destruct Hn as (? & ? & ?)).
    eapply yields_mono; [|by apply estimate_missing_yields]. intros [r'|]; [|done]. cbn. intros (Hc & Hs & Hf & Hm & Hp).
    split_and!; auto. destruct Hs0 as (? & ? & ? & ? & ? & ? & ?), Hs as (? & ? & ? & ? & ? & ? & ?).
    unfold same_call. split_and!; congruence.
  - eapply yields_mono; [|by apply estimate_missing_yields]. intros [r'|]; [|done]. cbn. by intros (Hc & Hs & Hf & Hm & Hp).
  - cbn. split_and!; [left; eauto|done|by split_and!].
  - eapply yields_mono; [|apply estimate_gas_fees_yields]. intros [r'|]; [|done]. cbn.
    intros [(? & ? & ? & ? & ? & ? & ? & _) Hc]. by split_and!.
  - eapply yields_mono; [|apply estimate_gas_fees_yields]. intros [r'|]; [|done]. cbn.
    intros [(? & ? & ? & ? & ? & ? & ? & _) Hc]. by split_and!.
Qed.

Lemma estimate_failure_Err {A} e (a : A) : estimate_failure e <> Ok a.
Proof.
  unfold estimate_failure, rpc_failure. destruct e; try discriminate.
  destruct (as_revert_data _ _ _); [discriminate|].
  destruct (contains _ _); [discriminate|]. destruct (is_invalid_preflight_envelope _); discriminate.
Qed.
(** Gas: what the client gave, or a buffered estimate; the rest is untouched. *)
Lemma request_gas_yields r :
  yields (request_gas r) (yok (fun r' => ∃ g, ar_gas r' = Some g /\ (∀ x, ar_gas r = Some x -> g = x) /\
    (r' = r \/ r' = with_gas_limit g r))).
Proof.
  unfold request_gas. destruct r as [from to value input chain nonce gas price fee priority auths]. destruct gas as [gas|]; cbn.
  - exists gas. split_and!; [done|congruence|by left].
  - intros [g|e]; cbn; [|by destruct (estimate_failure e) eqn:He; [destruct (estimate_failure_Err _ _ He)|]].
    exists (with_gas_buffer g). split_and!; [done|done|by right].
Qed.

Lemma fee_pair_check_Ok r : fee_pair_check r = Ok tt -> fee_pair_ok r.
Proof.
  unfold fee_pair_check, fee_pair_ok. intros Hc f p Hf Hp. rewrite Hf, Hp in Hc.
  destruct (N.ltb_spec f p); [discriminate|done].
Qed.

(** The request after gas, and after the surcharge of one chain. *)
Lemma gas_keeps request nonce r g :
  (∀ x, rq_gas_limit request = Some x -> g = x) ->
  keeps_intent request nonce r -> fees_complete r -> fees_kept request r ->
  let r' := with_gas_limit g r in
  keeps_intent request nonce r' /\ fees_complete r' /\ fees_kept request r' /\ is_Some (ar_gas r') /\
  (∀ x, rq_gas_limit request = Some x -> ar_gas r' = Some x).
Proof. intros Hg Hk Hc Hf. split_and!; [exact Hk|exact Hc|exact Hf|by eexists|]. intros x Hx. cbn. by rewrite (Hg x Hx). Qed.

Lemma build_typed_transaction_yields request nonce :
  yields (build_typed_transaction request nonce) (yok (fun t => ∃ r, request_wf request nonce r /\ build_typed_tx r = Ok t)).
Proof.
  apply yields_try_any. intros _. eapply yields_try; [by apply request_fees_yields|]. intros r1 (Hc1 & Hf1 & Hs1).
  eapply yields_try; [apply request_gas_yields|]. intros r2 (g & Hg & Hgx & Hr2). cbv zeta.
  assert (keeps_intent request nonce r1 /\ ar_gas r1 = rq_gas_limit request) as [Hk1 Hgas1].
  { destruct Hs1 as (? & ? & ? & ? & ? & ? & ?). by split_and!. }
  rewrite Hgas1 in Hgx.
  assert (keeps_intent request nonce r2 /\ fees_complete r2 /\ fees_kept request r2) as (Hk2 & Hc2 & Hf2).
  { destruct Hr2 as [-> | ->]; [done|]. by destruct (gas_keeps request nonce r1 g Hgx Hk1 Hc1 Hf1) as (? & ? & ? & _). }
  set (r3 := etherlink_gas request r2).
  assert (keeps_intent request nonce r3 /\ fees_complete r3 /\ fees_kept request r3 /\ is_Some (ar_gas r3) /\
    (∀ x, rq_gas_limit request = Some x -> ar_gas r3 = Some x)) as (Hk3 & Hc3 & Hf3 & Hg3 & Hx3).
  { subst r3. unfold etherlink_gas. destruct (_ && _) eqn:He; [destruct (ar_authorization_list r2) as [auths|]|].
    - apply gas_keeps; [|done..]. intros x Hx. rewrite Hx in He. by destruct (_ =? _)%N.
    - split_and!; [done..|by eexists|]. intros x Hx. rewrite Hg. by rewrite (Hgx x Hx).
    - split_and!; [done..|by eexists|]. intros x Hx. rewrite Hg. by rewrite (Hgx x Hx). }
  clearbody r3. cbn. destruct (fee_pair_check r3) as [[]|] eqn:Hpair; [|done]. apply fee_pair_check_Ok in Hpair.
  cbn. unfold built. destruct (build_typed_tx r3) as [t|] eqn:Hb; [|done]. by exists r3.
Qed.

Lemma sign_transaction_yields t credential :
  yields (sign_transaction t credential) (yok (fun tx => ∃ s, tx = into_signed t s)).
Proof.
  apply yields_try_any. intros _. cbn. intros [text|e]; [|done]. destruct (parse_signature text) as [s|e]; [by exists s|done].
Qed.

(** A prepared transaction: the pending one, signed with this nonce. *)
Definition prepared (p : PendingTransaction) (nonce : N) (b : BorrowedTransaction) : Prop :=
  bt_user_request b = pt_user_request p /\ bd_transaction_id (bt_data b) = pt_transaction_id p /\
  bd_hash (bt_data b) = tx_hash (bd_signed_transaction (bt_data b)) /\
  ∃ r t s, request_wf (pt_user_request p) nonce r /\ build_typed_tx r = Ok t /\
    bd_signed_transaction (bt_data b) = into_signed t s.

Lemma build_and_sign_single_yields p nonce : yields (build_and_sign_single_transaction p nonce) (yok (prepared p nonce)).
Proof.
  eapply (yields_try _ _ (fun tx => ∃ r t s, request_wf (pt_user_request p) nonce r /\ build_typed_tx r = Ok t /\ tx = into_signed t s)).
  - apply yields_try_any. intros _. eapply yields_try; [apply build_typed_transaction_yields|]. intros t (r & Hr & Ht).
    apply yields_try_any. intros _. eapply yields_mono; [|apply sign_transaction_yields].
    intros [tx|]; [|done]. intros (s & ->). by exists r, t, s.
  - intros tx (r & t & s & Hr & Ht & ->). cbn. intros now. split_and!; [done..|]. by exists r, t, s.
Qed.

Lemma preparation_yields p nonce :
  yields (build_and_sign_single_transaction_with_retries p nonce) (yok (prepared p nonce)).
Proof.
  unfold build_and_sign_single_transaction_with_retries. generalize MAX_PREPARATION_RETRIES as n. intros n.
  induction n as [|n IH]; cbn [preparation_attempts]; apply yields_bind;
    (eapply yields_mono; [|apply build_and_sign_single_yields]); intros [b|e] Hb; try done.
  by destruct (is_retryable_preparation_error e).
Qed.

(** The nonce asked for is the nonce signed: how the transaction library builds and
    signs a request. *)
Definition signing_keeps_nonce : Prop :=
  ∀ r t s n, build_typed_tx r = Ok t -> ar_nonce r = Some n -> tx_nonce (into_signed t s) = n.
Lemma prepared_nonce p nonce b : signing_keeps_nonce -> prepared p nonce b -> bd_nonce (bt_data b) = nonce.
Proof.
  intros Hlaw (_ & _ & _ & r & t & s & ((_ & _ & _ & _ & _ & Hn) & _) & Ht & Hs). unfold bd_nonce. rewrite Hs. by eapply Hlaw.
Qed.

(** ** Cleaning *)

(** With a break on failure, what is kept is the run of successes at the front. *)
Lemma clean_break_prefix results st :
  let st' := foldl (clean_result true) st results in
  cl_failed st = true -> cl_results st' = cl_results st.
Proof.
  revert st. induction results as [|[p r] results IH]; intros st; cbn; [done|]. intros Hf.
  rewrite IH; unfold clean_result; cbn; destruct r; by rewrite Hf.
Qed.
Lemma clean_prefix results :
  map Ok (cl_results (foldl (clean_result true) (mkCleaning [] false false []) results)) `prefix_of` map snd results.
Proof.
  enough (∀ acc th fl, ∃ kept, cl_results (foldl (clean_result true) (mkCleaning acc th false fl) results) = acc ++ kept /\
    map Ok kept `prefix_of` map snd results) as Hgen.
  { destruct (Hgen [] false []) as (kept & -> & Hp). done. }
  induction results as [|[p [b|e]] results IH]; intros acc th fl; cbn.
  - exists []. by rewrite app_nil_r.
  - destruct (IH (acc ++ [b]) th fl) as (kept & Heq & Hp). exists (b :: kept).
    rewrite Heq, <- (assoc_L (++)). split; [done|]. by apply prefix_cons.
  - exists []. rewrite clean_break_prefix by done. cbn. rewrite app_nil_r.
    split; [done|]. apply prefix_nil.
Qed.
Lemma clean_results_yields results b :
  yields (clean_prepration_results results b)
    (yok (fun l => l = cl_results (foldl (clean_result b) (mkCleaning [] false false []) results))).
Proof.
  unfold clean_prepration_results. apply yields_bind. eapply yields_mono; [|apply yields_any]. intros _ _.
  apply yields_bind. eapply yields_mono; [|apply yields_any]. done.
Qed.

(** A batch prepared in order, cleaned with a break: the kept ones are the first
    transactions of the batch, with the nonces of their places. *)
Definition in_place (n : N) (batch : list PendingTransaction) (kept : list BorrowedTransaction) : Prop :=
  ∀ i b, kept !! i = Some b -> ∃ p, batch !! i = Some p /\ prepared p (u64_wrap (n + N.of_nat i)) b.
Lemma cleaned_in_place n batch results kept :
  Forall2 (fun x r => yok (prepared x.2 (u64_wrap (n + N.of_nat x.1))) r) (imap pair batch) results ->
  kept = cl_results (foldl (clean_result true) (mkCleaning [] false false []) (zip batch results)) ->
  in_place n batch kept.
Proof.
  intros Hall -> i b Hb. pose proof (Forall2_length _ _ _ Hall) as Hlen. rewrite length_imap in Hlen.
  assert (results !! i = Some (Ok b)) as Hr.
  { pose proof (clean_prefix (zip batch results)) as Hp. rewrite map_snd_zip in Hp by done.
    eapply prefix_lookup_Some; [|exact Hp]. by rewrite list_lookup_fmap, Hb. }
  destruct (Forall2_lookup_r _ _ _ _ _ Hall Hr) as ([k p] & Hkp & Hprep). rewrite list_lookup_imap in Hkp.
  apply fmap_Some in Hkp as (p' & Hp' & [= -> ->]). by exists p'.
Qed.

(** The nonces and ids of such a batch. *)
Lemma in_place_nonces n batch kept :
  signing_keeps_nonce -> in_place n batch kept ->
  map bd_nonce (map bt_data kept) = imap (fun i _ => u64_wrap (n + N.of_nat i)) kept /\
  map bd_transaction_id (map bt_data kept) `prefix_of` map pt_transaction_id batch.
Proof.
  intros Hlaw Hin. split.
  - apply list_eq. intros i. rewrite list_lookup_imap, map_map, list_lookup_fmap.
    destruct (kept !! i) as [b|] eqn:Hb; cbn; [|done]. destruct (Hin i b Hb) as (p & _ & Hp). f_equal. by eapply prepared_nonce.
  - apply prefix_pointwise. intros i x. rewrite map_map, !list_lookup_fmap.
    destruct (kept !! i) as [b|] eqn:Hb; cbn; [|done]. intros [= <-].
    destruct (Hin i b Hb) as (p & -> & _ & Hid & _). cbn. by rewrite Hid.
Qed.
End Prepare.
