(* ===== verification/WorkerDispatch.v ===== *)
(** Authorization and dispatch side by side: however the executor interleaves their calls, the
    stream ends within its bound on calls, no future is started once an authorization
    has failed, and a success has every result, in input order. *)

From Stdlib Require Import String Ascii NArith ZArith Lia.
From stdpp Require Import base gmap strings option list fin_maps relations.
From S2P Require Import Prelude Json JsonValue Redis RedisProg Errors FinalityTypes Fees.
From S2P Require Import RecoveryLedger RecoveryChecks EngineProg RecoveryJournal RecoveryOps.
From S2P Require Import RecoveryOffline RecoverySpec RecoveryKeeps RecoveryTxns RecoveryGate.
From S2P Require Import RecoveryOpSpecs RecoveryLife.
From S2P Require Import Finality FinalityClaims QueueTypes Webhook EoaTypes EoaErrors ExecRecovery.
From S2P Require Import EoaKeys EoaAtomic EoaStore EoaBorrowed WorkerProg WorkerBuild WorkerSend.
From S2P Require Import WorkerLogic WorkerQuiet.

(** ** Programs call by call *)

Section Calls.
Context `{WorkerWire}.

(** What may be left of a program after its next call. *)
Definition continues {A} (p p' : wprog A) : Prop :=
  match p with
  | WRet _ => p' = p
  | WStore _ k | WJournal _ k | WCall _ k => ∃ b, p' = k b
  end.
(** At most [n] calls, whatever they answer. *)
Fixpoint within {A} (n : nat) (p : wprog A) : Prop :=
  match p with
  | WRet _ => True
  | WStore _ k | WJournal _ k | WCall _ k => match n with O => False | S n' => ∀ b, within n' (k b) end
  end.
Definition returned {A} (p : wprog A) : bool := match p with WRet _ => true | _ => false end.

Lemma within_continues {A} n (p p' : wprog A) :
  within n p -> continues p p' -> returned p = false -> ∃ n', n = S n' /\ within n' p'.
Proof. destruct p; [done|..]; destruct n; try done; intros Hw [b ->] _; exists n; by split. Qed.
Lemma continues_returned {A} (p p' : wprog A) : continues p p' -> returned p = true -> p' = p.
Proof. by destruct p. Qed.
Lemma within_returned {A} n (p : wprog A) : within n p -> returned p = false -> 0 < n.
Proof. destruct p; [done|..]; destruct n; try done; intros _ _; lia. Qed.
End Calls.

Section Stream.
Context `{WorkerWire} {T E : Type} (count concurrency : nat).
Implicit Types s : dispatching T E.

(** A collected outcome, seen as the slot it was. *)
Definition slot_of (o : result E (option T)) : slot T E :=
  match o with Err e => Refused e | Ok (Some r) => Sent r | Ok None => Suppressed end.
(** Every index that was authorised or refused so far, in order. *)
Definition places s : list (slot T E) := map slot_of (ds_outcomes s) ++ ds_slots s.
Definition slot_index (x : slot T E) : option nat :=
  match x with Waiting j | Running j _ => Some j | _ => None end.
(** Not touched by a failed authorization. *)
Definition alive (x : slot T E) : Prop := match x with Refused _ | Suppressed => False | _ => True end.

Record stream_ok s : Prop := {
  so_index : ds_index s = length (places s);
  so_count : ds_index s <= count;
  so_waiting i x j : places s !! i = Some x -> slot_index x = Some j -> j = i;
  so_alive : ds_failed s = false -> ∀ x, x ∈ places s -> alive x;
  so_failed : ds_failed s = true -> ∃ e, Refused e ∈ places s
}.

Lemma stream_ok_init : stream_ok (mkDispatching 0 false None [] []).
Proof. split; cbn; [done|lia|done|set_solver|done]. Qed.

(** ** The actions *)

Lemma places_produced s p :
  places (produced s p) = places s ++ match p with
    WRet (Ok _) => [Waiting (ds_index s)] | WRet (Err e) => [Refused e] | _ => [] end.
Proof. unfold places. destruct p as [[]| | |]; cbn; by rewrite ?app_nil_r, ?(assoc_L (++)). Qed.
Lemma places_set s k x : places (set_slot s k x) = <[length (ds_outcomes s) + k := x]> (places s).
Proof. unfold places, set_slot. cbn. rewrite insert_app_r_alt by (rewrite length_map; lia). do 2 f_equal. rewrite length_map. lia. Qed.
Lemma places_slot s k x : ds_slots s !! k = Some x -> places s !! (length (ds_outcomes s) + k) = Some x.
Proof.
  intros Hk. unfold places. rewrite lookup_app_r by (rewrite length_map; lia). rewrite length_map.
  by replace (_ + _ - _) with k by lia.
Qed.

Lemma stream_produced s p :
  stream_ok s -> ds_failed s = false -> ds_index s < count -> stream_ok (produced s p).
Proof.
  intros [Hi Hc Hw Hr Hf] Hrun Hlt. split; rewrite ?places_produced.
  - rewrite length_app, <- Hi. destruct p as [[]| | |]; cbn; lia.
  - destruct p as [[]| | |]; cbn; lia.
  - intros i x j [Hl|[Hge Hl]]%lookup_app_Some; [by apply Hw|]. destruct p as [[]| | |]; try done;
      apply list_lookup_singleton_Some in Hl as [Hz <-]; [|done]. intros [= <-]. lia.
  - intros Hff x [Hx|Hx]%elem_of_app; [by apply Hr|].
    destruct p as [[]| | |]; [by apply list_elem_of_singleton in Hx as ->|done|set_solver..].
  - intros Hff. destruct p as [[[]|e]| | |]; cbn in Hff; try congruence. exists e. set_solver.
Qed.

Lemma stream_set s k x y :
  stream_ok s -> ds_slots s !! k = Some x -> slot_outcome x = None ->
  (slot_index y = None \/ slot_index y = slot_index x) -> (ds_failed s = false -> alive y) -> stream_ok (set_slot s k y).
Proof.
  intros [Hi Hc Hw Hr Hf] Hk Hx Hy Hal. pose proof (places_slot _ _ _ Hk) as Hp. split; rewrite ?places_set.
  - by rewrite length_insert.
  - done.
  - intros n z j [(<- & <- & _)|[_ Hj]]%list_lookup_insert_Some Hz; [|by eapply Hw].
    destruct Hy as [Hy|Hy]; [congruence|]. eapply Hw; [exact Hp|congruence].
  - intros Hrun z [n Hz]%list_elem_of_lookup.
    apply list_lookup_insert_Some in Hz as [(_ & <- & _)|[_ Hz]]; [auto|]. apply Hr; [done|]. by eapply list_elem_of_lookup_2.
  - intros Hff. destruct (Hf Hff) as (e & [n He]%list_elem_of_lookup). exists e. apply list_elem_of_lookup. exists n.
    rewrite list_lookup_insert_ne; [done|]. intros <-. rewrite Hp in He. by injection He as ->.
Qed.

Lemma stream_collect s front rest o :
  stream_ok s -> ds_slots s = front :: rest -> slot_outcome front = Some o ->
  let s' := mkDispatching (ds_index s) (ds_failed s) (ds_authorizing s) rest (ds_outcomes s ++ [o]) in
  places s' = places s /\ stream_ok s'.
Proof.
  intros Hok Hs Ho s'. assert (places s' = places s) as Hp.
  { unfold places, s'. cbn. rewrite Hs, map_app, <- (assoc_L (++)). f_equal. cbn. f_equal. by destruct front; inversion Ho. }
  split; [done|]. destruct Hok as [Hi Hc Hw Hr Hf]. split; rewrite ?Hp; done.
Qed.

(** ** The end *)

Lemma pending_front s x rest : ds_slots s = x :: rest -> slot_outcome x = None -> Poll 0 ∈ enabled count concurrency s.
Proof.
  intros Hs Hx. unfold enabled. apply elem_of_app. right. apply elem_of_app. left. rewrite Hs. apply list_elem_of_In, in_map.
  apply filter_In. split; [by left|]. unfold unfinished. rewrite Hs. cbn. by rewrite Hx.
Qed.

(** What an enabled action needs. *)
Lemma enabled_needs a s :
  a ∈ enabled count concurrency s ->
  match a with
  | Authorize => ds_failed s = false /\ ds_index s < count
  | Poll k => ∃ x, ds_slots s !! k = Some x /\ slot_outcome x = None
  | Collect => ∃ front rest o, ds_slots s = front :: rest /\ slot_outcome front = Some o
  end.
Proof.
  unfold enabled. intros [Ha|[Ha|Ha]%elem_of_app]%elem_of_app.
  - destruct (negb _ && _ && _) eqn:Hc; [|set_solver]. apply list_elem_of_singleton in Ha as ->.
    apply andb_true_iff in Hc as [[Hf%negb_true_iff Hlt%Nat.ltb_lt]%andb_true_iff _]. done.
  - apply list_elem_of_fmap in Ha as (k & -> & Hk%list_elem_of_In%filter_In). destruct Hk as [_ Hw]. unfold unfinished in Hw.
    destruct (ds_slots s !! k) as [x|]; [|done]. exists x. split; [done|]. by destruct (slot_outcome x).
  - destruct (ds_slots s) as [|front rest]; [set_solver|]. destruct (slot_outcome front) as [o|] eqn:Ho; cbn in Ha; [|set_solver].
    apply list_elem_of_singleton in Ha as ->. by exists front, rest, o.
Qed.

Lemma finished s :
  0 < concurrency -> stream_ok s -> enabled count concurrency s = [] ->
  ds_slots s = [] /\ (ds_failed s = false -> ds_index s = count).
Proof.
  intros Hc Hok He. assert (ds_slots s = []) as Hs.
  { destruct (ds_slots s) as [|x rest] eqn:Hs; [done|]. destruct (slot_outcome x) eqn:Hx.
    - unfold enabled in He. rewrite Hs, Hx in He. apply app_eq_nil in He as [_ He]. by apply app_eq_nil in He as [_ [=]].
    - pose proof (pending_front s x rest Hs Hx) as Hin. rewrite He in Hin. set_solver. }
  split; [done|]. intros Hf. pose proof (so_count s Hok). destruct (Nat.lt_ge_cases (ds_index s) count) as [Hlt|]; [|lia].
  unfold enabled in He. rewrite Hf, Hs, (proj2 (Nat.ltb_lt _ _) Hlt) in He. cbn [length negb andb] in He.
  by rewrite (proj2 (Nat.ltb_lt _ _) Hc) in He.
Qed.

Lemma collect_outcomes_Ok (l : list (result E (option T))) rs :
  collect_outcomes l = Ok rs -> (∀ e, Err e ∉ l) /\ rs = omap (fun o => match o with Ok r => r | Err _ => None end) l.
Proof.
  revert rs. induction l as [|[o|e] l IH]; intros rs; cbn; [intros [= <-]; set_solver| |done].
  destruct (collect_outcomes l) as [rest|]; [|done]. destruct (IH rest eq_refl) as [Hn ->]. intros [= <-].
  split; [|by destruct o]. intros e [He|He]%elem_of_cons; [done|]. by eapply Hn.
Qed.

(** A success has the result of every index. *)
Lemma success_complete s rs :
  0 < concurrency -> stream_ok s -> enabled count concurrency s = [] -> collect_outcomes (ds_outcomes s) = Ok rs ->
  length rs = count /\ ∀ i r, rs !! i = Some r -> places s !! i = Some (Sent r).
Proof.
  intros Hc Hok He Hcol. destruct (finished s Hc Hok He) as [Hs Hend].
  destruct (collect_outcomes_Ok _ _ Hcol) as [Hno ->].
  assert (places s = map slot_of (ds_outcomes s)) as Hp by (unfold places; by rewrite Hs, app_nil_r).
  assert (ds_failed s = false) as Hf.
  { destruct (ds_failed s) eqn:Hf; [|done]. destruct (so_failed s Hok Hf) as [e Hin]. rewrite Hp in Hin.
    apply list_elem_of_fmap in Hin as ([[r|]|e'] & Heq & Hin); try done. by destruct (Hno e'). }
  pose proof (so_alive s Hok Hf) as Hrun. pose proof (so_index s Hok) as Hi. rewrite (Hend Hf), Hp, length_map in Hi.
  rewrite Hp in Hrun |- *. rewrite Hi. clear -Hrun. induction (ds_outcomes s) as [|o l IH]; cbn; [done|].
  destruct IH as [IHl IHp]; [intros x Hx; apply Hrun; by right|].
  assert (alive (slot_of o)) as Ho by (apply Hrun; by left).
  destruct o as [[r'|]|]; [|done..]. cbn. split; [by rewrite IHl|].
  intros [|i] r0; cbn; [by intros [= ->]|apply IHp].
Qed.
(** ** Steps of the stream *)

Context (authorize : nat -> wprog (result E unit)) (dispatch : nat -> wprog T).

(** What an action does, and that it was possible. *)
Inductive acts s : dispatching T E -> Prop :=
| ActAuthorize p : ds_failed s = false -> ds_index s < count ->
    continues (default (authorize (ds_index s)) (ds_authorizing s)) p -> acts s (produced s p)
| ActStart k i p : ds_slots s !! k = Some (Waiting i) -> ds_failed s = false -> continues (dispatch i) p ->
    acts s (set_slot s k (polled i p))
| ActContinue k i q p : ds_slots s !! k = Some (Running i q) -> continues q p -> acts s (set_slot s k (polled i p))
| ActSuppress k i : ds_slots s !! k = Some (Waiting i) -> ds_failed s = true -> acts s (set_slot s k Suppressed)
| ActCollect front rest o : ds_slots s = front :: rest -> slot_outcome front = Some o ->
    acts s (mkDispatching (ds_index s) (ds_failed s) (ds_authorizing s) rest (ds_outcomes s ++ [o])).

Lemma polled_index i (p : wprog T) : slot_index (polled i p) = None \/ slot_index (polled i p) = Some i.
Proof. destruct p; cbn; auto. Qed.
Lemma polled_alive i (p : wprog T) : alive (polled i p).
Proof. by destruct p. Qed.

Lemma acts_ok s s' : acts s s' -> stream_ok s -> stream_ok s'.
Proof.
  intros Ha Hok. destruct Ha as [p Hf Hlt _|k i p Hk Hf _|k i q p Hk _|k i Hk Hf|front rest o Hs Ho].
  - by apply stream_produced.
  - eapply stream_set; [done|exact Hk|done|apply polled_index|intros _; apply polled_alive].
  - eapply stream_set; [done|exact Hk|done|apply polled_index|intros _; apply polled_alive].
  - eapply stream_set; [done|exact Hk|done|by left|congruence].
  - by apply (stream_collect s front rest o Hok Hs Ho).
Qed.

(** ** Termination *)

Context (authorize_calls dispatch_calls : nat).
Context (authorize_within : ∀ i, within authorize_calls (authorize i)).
Context (dispatch_within : ∀ i, within dispatch_calls (dispatch i)).

(** The actions left for a future of the buffer, its collection included, and for the
    indices that are not in the buffer yet. *)
Definition slot_left (x : slot T E) (n : nat) : Prop :=
  match x with
  | Waiting _ => n = dispatch_calls + 2
  | Running _ p => returned p = false /\ ∃ m, within m p /\ n = S m
  | _ => n = 1
  end.
Definition producer_left s (n : nat) : Prop :=
  match ds_authorizing s with
  | None => n = (count - ds_index s) * (authorize_calls + dispatch_calls + 3)
  | Some p => returned p = false /\ ∃ m c, within m p /\ count - ds_index s = S c /\
      n = c * (authorize_calls + dispatch_calls + 3) + m + (dispatch_calls + 2)
  end.
Definition work s (n : nat) : Prop :=
  ∃ ns b, Forall2 slot_left (ds_slots s) ns /\ producer_left s b /\ n = b + list_sum ns.

Lemma list_sum_insert (l : list nat) k m n : l !! k = Some m -> list_sum (<[k := n]> l) + m = list_sum l + n.
Proof. revert k. induction l as [|z l IH]; intros [|k]; simpl; try done; [intros [= ->]; lia|]. intros Hk. specialize (IH k Hk). lia. Qed.

(** Replacing a slot by one with less left. *)
Lemma work_set s k x y n :
  work s n -> ds_slots s !! k = Some x -> (∀ m, slot_left x m -> ∃ m', slot_left y m' /\ m' < m) ->
  ∃ n', work (set_slot s k y) n' /\ n' < n.
Proof.
  intros (ns & b & Hns & Hb & Hn) Hk Hy. destruct (Forall2_lookup_l _ _ _ _ _ Hns Hk) as (m & Hm & Hleft).
  destruct (Hy m Hleft) as (m' & Hleft' & Hlt). pose proof (list_sum_insert _ _ _ m' Hm) as Hsum.
  exists (b + list_sum (<[k := m']> ns)). split; [|lia].
  exists (<[k := m']> ns), b. split_and!; [by apply Forall2_insert|done|done].
Qed.
Lemma polled_left i (q p : wprog T) m :
  within m q -> continues q p -> ∃ m', slot_left (polled i p) m' /\ m' < m + 2 /\ (returned q = false -> m' < S m).
Proof.
  intros Hw Hc. destruct (returned q) eqn:Hq.
  { destruct q; try done. cbn in Hc. subst p. exists 1. split_and!; [done|lia|done]. }
  destruct (within_continues _ _ _ Hw Hc Hq) as (m' & -> & Hw'). destruct (returned p) eqn:Hp.
  - destruct p; try done. exists 1. split_and!; [done|lia|lia].
  - exists (S m'). split_and!; [|lia|lia]. destruct p; try done; (split; [done|by exists m']).
Qed.

(** The producer has a call to make and the index it is at to put into the buffer. *)
Lemma producer_next s b :
  producer_left s b -> ds_index s < count ->
  ∃ m c, within m (default (authorize (ds_index s)) (ds_authorizing s)) /\ count - ds_index s = S c /\
    c * (authorize_calls + dispatch_calls + 3) + (1 `max` m) + (dispatch_calls + 2) <= b.
Proof.
  unfold producer_left. intros Hb Hlt. destruct (ds_authorizing s) as [q|]; cbn [default].
  - destruct Hb as [Hq (m & c & Hw & Hc & ->)]. exists m, c. pose proof (within_returned _ _ Hw Hq). split_and!; [done|done|lia].
  - destruct (count - ds_index s) as [|c] eqn:Hc; [lia|]. exists authorize_calls, c. split_and!; [done|done|lia].
Qed.
Lemma work_push s s' x n ns c b :
  Forall2 slot_left (ds_slots s) ns -> ds_slots s' = ds_slots s ++ [x] -> slot_left x n -> ds_authorizing s' = None ->
  count - ds_index s' = c -> c * (authorize_calls + dispatch_calls + 3) + n < b ->
  ∃ n', work s' n' /\ n' < b + list_sum ns.
Proof.
  intros Hns Hs Hx Ha Hc Hlt. exists (c * (authorize_calls + dispatch_calls + 3) + list_sum (ns ++ [n])).
  split; [|rewrite list_sum_app; simpl; lia]. exists (ns ++ [n]), (c * (authorize_calls + dispatch_calls + 3)).
  split_and!; [|unfold producer_left; by rewrite Ha, Hc|done]. rewrite Hs. apply Forall2_app; [done|]. by constructor.
Qed.
Lemma work_produced s p n :
  work s n -> ds_index s < count -> continues (default (authorize (ds_index s)) (ds_authorizing s)) p ->
  ∃ n', work (produced s p) n' /\ n' < n.
Proof.
  intros (ns & b & Hns & Hb & ->) Hlt Hc. destruct (producer_next s b Hb Hlt) as (m & c & Hw & Hcount & Hle).
  set (q := default _ _) in *. destruct (returned p) eqn:Hp.
  { destruct p as [[[]|e]| | |]; try done; (eapply (work_push s _ _ _ _ c);
      [exact Hns|reflexivity|reflexivity|reflexivity|cbn; lia|lia]). }
  destruct (returned q) eqn:Hq; [rewrite (continues_returned _ _ Hc Hq) in Hp; congruence|].
  destruct (within_continues _ _ _ Hw Hc Hq) as (m' & -> & Hw').
  exists (c * (authorize_calls + dispatch_calls + 3) + m' + (dispatch_calls + 2) + list_sum ns). split; [|lia].
  exists ns, (c * (authorize_calls + dispatch_calls + 3) + m' + (dispatch_calls + 2)).
  destruct p; try done; (split_and!; [done|split; [done|by exists m', c]|done]).
Qed.

Lemma acts_less s s' n : acts s s' -> work s n -> ∃ n', work s' n' /\ n' < n.
Proof.
  intros Ha Hw. destruct Ha as [p Hf Hlt Hc|k i p Hk Hf Hc|k i q p Hk Hc|k i Hk Hf|front rest o Hs Ho].
  - by apply work_produced.
  - apply (work_set _ _ _ _ _ Hw Hk). intros m ->. destruct (polled_left i _ _ _ (dispatch_within i) Hc) as (m' & ? & ? & _).
    exists m'. by split.
  - apply (work_set _ _ _ _ _ Hw Hk). intros m [Hq (m0 & Hm & ->)]. destruct (polled_left i _ _ _ Hm Hc) as (m' & ? & _ & ?).
    exists m'. auto.
  - apply (work_set _ _ _ _ _ Hw Hk). intros m ->. exists 1. cbn. split; [done|lia].
  - destruct Hw as (ns & b & Hns & Hb & ->). rewrite Hs in Hns. apply Forall2_cons_inv_l in Hns as (m & ns' & Hm & Hns & ->).
    exists (b + list_sum ns'). split; [by exists ns', b|]. destruct front; try done; cbn in Hm; subst m; simpl; lia.
Qed.

Lemma no_work s : work s 0 -> enabled count concurrency s = [].
Proof.
  intros (ns & b & Hns & Hb & Hn). assert (b = 0 /\ list_sum ns = 0) as [-> Hsum] by lia. unfold enabled.
  assert (ds_slots s = []) as Hs.
  { destruct (ds_slots s) as [|x l]; [done|]. apply Forall2_cons_inv_l in Hns as (m & ns' & Hx & _ & ->). exfalso.
    simpl in Hsum. destruct x; cbn [slot_left] in Hx; [|destruct Hx as [_ (? & _ & ?)]|..]; lia. }
  rewrite Hs. cbn [length map seq List.filter app]. rewrite !app_nil_r. unfold producer_left in Hb. destruct (ds_authorizing s).
  - destruct Hb as [_ (m & c & _ & _ & Hb)]. lia.
  - destruct (ds_index s <? count) eqn:Hlt; [|by destruct (ds_failed s)]. apply Nat.ltb_lt in Hlt.
    destruct (count - ds_index s) as [|c] eqn:Hc; lia.
Qed.

End Stream.

(** ** Runs of the stream *)

Section Drive.
Context `{WorkerWire} `{!Json EoaTransactionRequest, !Json BorrowedTransactionData,
  !Json TransactionAttempt, !Json EoaHealth, !Json TransactionReceipt}
  `{!Json (WebhookNotificationEnvelope EoaEventPayload), !Json WebhookJobPayload}.
Context `{Primitives} `{!Json Value, !Json FinalityEvidence} {FT : FairTurns}.
Context (ks : EoaExecutorStoreKeys) (worker_id wq : string).
Context (finality_json : FinalityEvidence -> string) (ttl : N).
Context (Φ : doing -> history -> world -> Prop) (scheduled : ∀ h w, Φ (DoCall Scheduled) h w).
#[local] Notation wspec := (wspec ks worker_id wq finality_json ttl Φ).
Context {T E : Type} (count concurrency : nat) (authorize : nat -> wprog (result E unit)) (dispatch : nat -> wprog T).
Context (authorize_calls dispatch_calls : nat).
Context (authorize_within : ∀ i, within authorize_calls (authorize i)).
Context (dispatch_within : ∀ i, within dispatch_calls (dispatch i)).
(** What an authorization grants and a dispatch yields. *)
Context (P : assertion) (G : nat -> assertion) (D : nat -> T -> assertion).
Context `{!Stable P, !∀ i, Stable (G i), !∀ i r, Stable (D i r)}.
Context (authorizes : ∀ i, wspec P (authorize i) (wok (fun _ => G i))).
Context (dispatches : ∀ i, wspec (fun h w => P h w /\ G i h w) (dispatch i) (D i)).
#[local] Notation wsafe := (wsafe ks worker_id wq finality_json ttl Φ).

#[local] Instance stable_wsafe {A} (p : wprog A) Q : Stable (fun h w => wsafe p h w Q).
Proof. intros h w Hp. by apply wsafe_stays. Qed.

(** A call of a program whose rest is known to be safe. *)
Lemma wspec_advance {A B} (X : assertion) (p : wprog A) (g : wprog A -> wprog B) Q S `{!Stable X} :
  wspec X p Q -> (∀ p', continues p p' -> wspec (fun h w => X h w /\ wsafe p' h w Q) (g p') S) -> wspec X (next_call p g) S.
Proof.
  intros Hp Hg h w HX. specialize (Hp h w HX). destruct p as [a|C o k|C e k|C c k]; cbn [next_call].
  - by apply (Hg (WRet a) eq_refl).
  - intros h' w' Hh Hl. destruct (Hp h' w' Hh Hl) as [HΦ Hk]. split; [done|]. intros b Hb.
    apply (Hg (k b)); [by exists b|]. split; [|by apply Hk]. apply (stable h w HX); [by apply suffix_cons_r|done].
  - intros h' w' Hh Hl. eapply wp_mono; [done| |apply wp_later, (Hp h' w' Hh Hl)]. intros b w2 [Hk Hl2].
    apply (Hg (k b)); [by exists b|]. split; [|done]. apply (stable h w HX); [done|by etrans].
  - intros h' w' Hh Hl. destruct (Hp h' w' Hh Hl) as [HΦ Hk]. split; [done|]. intros b.
    apply (Hg (k b)); [by exists b|]. split; [|by apply Hk]. apply (stable h w HX); [by apply suffix_cons_r|done].
Qed.

(** A waiting future is authorised, a running one is safe to go on, a finished one has
    the result of its index. *)
Definition slot_holds (i : nat) (x : slot T E) : assertion :=
  match x with
  | Waiting _ => G i
  | Running _ p => fun h w => wsafe p h w (D i)
  | Sent r => D i r
  | _ => fun _ _ => True
  end.
#[local] Instance stable_slot i x : Stable (slot_holds i x).
Proof. destruct x; cbn; apply _. Qed.
Definition producer_holds (s : dispatching T E) : assertion :=
  fun h w => match ds_authorizing s with Some p => wsafe p h w (wok (fun _ => G (ds_index s))) | None => True end.
#[local] Instance stable_producer s : Stable (producer_holds s).
Proof. unfold producer_holds. destruct (ds_authorizing s); apply _. Qed.
Definition slots_hold (s : dispatching T E) : assertion :=
  fun h w => ∀ ix, places s !! ix.1 = Some ix.2 -> slot_holds ix.1 ix.2 h w.
#[local] Instance stable_slots s : Stable (slots_hold s).
Proof. apply stable_all. intros ix. exact (_ : Stable (slot_holds ix.1 ix.2)). Qed.
Definition held (s : dispatching T E) : assertion := fun h w => producer_holds s h w /\ slots_hold s h w.

Lemma set_slot_holds s k y h w :
  held s h w -> slot_holds (length (ds_outcomes s) + k) y h w -> held (set_slot s k y) h w.
Proof.
  intros [Hp Hs] Hy. split; [exact Hp|]. intros [j x]. cbn [fst snd]. rewrite places_set.
  intros [(<- & <- & _)|[_ Hj]]%list_lookup_insert_Some; [done|by apply (Hs (j, x))].
Qed.
Lemma polled_holds i j (p : wprog T) h w : wsafe p h w (D i) -> slot_holds i (polled j p) h w.
Proof. destruct p; [|done..]. intros Hp. by apply Hp. Qed.
Lemma slot_place s k x h w : ds_slots s !! k = Some x -> held s h w -> slot_holds (length (ds_outcomes s) + k) x h w.
Proof. intros Hk [_ Hs]. apply (Hs (_, x)). by apply places_slot. Qed.

Lemma produced_holds s p h w :
  stream_ok count s -> held s h w -> wsafe p h w (wok (fun _ => G (ds_index s))) -> held (produced s p) h w.
Proof.
  intros Hok [_ Hs] Hp. split; [by destruct p as [[]| | |]|]. intros [i x]. cbn [fst snd]. rewrite places_produced.
  intros [Hi|[Hge Hi]]%lookup_app_Some; [by apply (Hs (i, x))|]. pose proof (so_index _ _ Hok).
  destruct p as [[]| | |]; try done; apply list_lookup_singleton_Some in Hi as [Hi <-]; [|done].
  cbn. replace i with (ds_index s) by lia. by apply Hp.
Qed.

#[local] Notation here s := (fun h w => P h w /\ held s h w).
#[local] Notation acted s := (fun s' h w => acts count authorize dispatch s s' /\ held s' h w).

Lemma perform_authorize s :
  stream_ok count s -> ds_failed s = false -> ds_index s < count ->
  wspec (here s) (perform authorize dispatch Authorize s) (acted s).
Proof.
  intros Hok Hf Hlt. cbn [perform]. eapply (wspec_advance _ _ _ (wok (fun _ => G (ds_index s)))); [apply _| |].
  - intros h w [HP [Hp _]]. unfold producer_holds in Hp. destruct (ds_authorizing s); [exact Hp|by apply authorizes].
  - intros p Hc. apply wspec_ret; [apply _|]. intros h w [[_ Hh] Hp]. split; [by constructor|by apply produced_holds].
Qed.
Lemma perform_poll s k x :
  stream_ok count s -> ds_slots s !! k = Some x -> slot_outcome x = None ->
  wspec (here s) (perform authorize dispatch (Poll k) s) (acted s).
Proof.
  intros Hok Hk Hx. cbn [perform]. rewrite Hk. destruct x as [i|i p|e|r|]; try done;
    assert (i = length (ds_outcomes s) + k) as Hi by (by eapply (so_waiting _ s Hok); [apply places_slot|]).
  - destruct (ds_failed s) eqn:Hf.
    + apply wspec_ret; [apply _|]. intros h w [_ Hh]. split; [by econstructor|by apply set_slot_holds].
    + eapply (wspec_advance _ _ _ (D i)); [apply _| |].
      * intros h w [HP Hh]. apply dispatches. split; [done|]. rewrite Hi. exact (slot_place _ _ _ _ _ Hk Hh).
      * intros p Hc. apply wspec_ret; [apply _|]. intros h w [[_ Hh] Hp].
        split; [by econstructor|]. apply set_slot_holds; [done|]. rewrite <- Hi. by apply polled_holds.
  - eapply (wspec_advance _ _ _ (D i)); [apply _| |].
    + intros h w [HP Hh]. rewrite Hi. exact (slot_place _ _ _ _ _ Hk Hh).
    + intros p' Hc. apply wspec_ret; [apply _|]. intros h w [[_ Hh] Hp].
      split; [by econstructor|]. apply set_slot_holds; [done|]. rewrite <- Hi. by apply polled_holds.
Qed.
Lemma perform_spec a s :
  stream_ok count s -> a ∈ enabled count concurrency s ->
  wspec (here s) (perform authorize dispatch a s) (acted s).
Proof.
  intros Hok Hin%enabled_needs. destruct a as [|k|].
  - destruct Hin as [Hf Hlt]. by apply perform_authorize.
  - destruct Hin as (x & Hk & Hx). by eapply perform_poll.
  - destruct Hin as (front & rest & o & Hs & Ho). cbn [perform]. rewrite Hs, Ho. apply wspec_ret; [apply _|].
    intros h w [_ [Hp Hh]]. split; [by econstructor|]. split; [exact Hp|]. unfold slots_hold.
    destruct (stream_collect _ s front rest o Hok Hs Ho) as [-> _]. exact Hh.
Qed.

Lemma drive_spec fuel s n :
  stream_ok count s -> work count authorize_calls dispatch_calls s n -> n <= fuel ->
  wspec (here s) (drive count concurrency authorize dispatch fuel s)
    (fun s' h w => stream_ok count s' /\ enabled count concurrency s' = [] /\ slots_hold s' h w).
Proof.
  revert s n. induction fuel as [|fuel IH]; intros s n Hok Hw Hn; cbn [drive].
  { replace n with 0 in Hw by lia. apply wspec_ret; [apply _|]. intros h w [_ [_ Hh]].
    split_and!; [done|by eapply no_work|done]. }
  destruct (enabled count concurrency s) as [|a actions] eqn:He.
  { apply wspec_ret; [apply _|]. by intros h w [_ [_ Hh]]. }
  eapply wspec_bind; [apply _|by apply wspec_call; [apply _|]|]. intros choice.
  eapply wspec_bind; [apply _|eapply wspec_conseq; [| |apply perform_spec; [done|]]; [by intros h w [? _]|done|]|].
  - rewrite He. apply list_elem_of_In, nth_In. apply Nat.mod_upper_bound. done.
  - intros s' h w [[[HP _] _] [Hact Hh]].
    destruct (acts_less _ _ _ _ _ authorize_within dispatch_within _ _ _ Hact Hw) as (n' & Hw' & Hlt).
    apply (IH s' n'); [by eapply acts_ok|done|lia|done].
Qed.

Lemma authorize_then_dispatch_spec :
  0 < concurrency ->
  wspec P (authorize_then_dispatch count concurrency authorize dispatch authorize_calls dispatch_calls)
    (wok (fun rs h w => length rs = count /\ ∀ ir, rs !! ir.1 = Some ir.2 -> D ir.1 ir.2 h w)).
Proof.
  intros Hc. unfold authorize_then_dispatch. set (fuel := count * _).
  eapply wspec_bind; [done|eapply wspec_conseq; [| |apply (drive_spec fuel (mkDispatching 0 false None [] []) fuel)]|].
  - intros h w HP. split; [done|]. split; [done|]. intros [i x]. done.
  - by intros s h w Hs.
  - apply stream_ok_init.
  - exists [], fuel. split_and!; [constructor|cbn; unfold fuel; f_equal; lia|cbn; lia].
  - done.
  - intros s. cbv beta. apply wspec_ret; [apply _|]. intros h w [_ (Hok & He & Hh)].
    destruct (collect_outcomes (ds_outcomes s)) as [rs|] eqn:Hcol; [|done].
    destruct (success_complete count concurrency s rs Hc Hok He Hcol) as [Hlen Hall]. split; [done|].
    intros [i r] Hr. apply (Hh (i, Sent r)). by apply Hall.
Qed.
End Drive.

(** ** The calls of a dispatched transaction *)

Section Reserved.
Context `{WorkerWire} `{Primitives} `{!Json Value, !Json FinalityEvidence} `{!Process, !Worker}.

Lemma authorize_eoa_within l i :
  within 3 (at_index l (Ok tt) (fun b => authorize_while_owned (authorize_eoa b)) i).
Proof. unfold at_index. destruct (l !! i); [|done]. intros [?|?]; [|done]. cbn. intros [?|?]; [|done]. cbn. by intros [?|?]. Qed.
Lemma broadcast_within l i :
  within 2 (at_index l None (fun b => act* r := broadcast_borrowed b in WRet (Some r)) i).
Proof. unfold at_index. by destruct (l !! i). Qed.
End Reserved.
