(* ===== verification/WorkerSafety.v ===== *)
(** What the EOA worker never does: broadcast bytes that are not reserved in the store
    and authorised in the journal, or settle what is not final and terminal there. *)

From Stdlib Require Import String Ascii NArith ZArith Lia.
From stdpp Require Import base gmap strings option list fin_maps relations.
From S2P Require Import Prelude Json JsonValue Redis RedisProg Errors FinalityTypes Fees.
From S2P Require Import RecoveryLedger RecoveryChecks EngineProg RecoveryJournal RecoveryOps.
From S2P Require Import RecoveryOffline RecoverySpec RecoveryKeeps RecoveryTxns.
From S2P Require Import EoaKeys EoaAtomic EoaStore EoaPending EoaBorrowed EoaSubmitted EoaOps.
From S2P Require Import RecoveryGate RecoveryOpSpecs RecoveryLife RecoveryClaims.
From S2P Require Import Finality FinalityClaims QueueTypes Webhook EoaTypes EoaErrors ExecRecovery.
From S2P Require Import WorkerProg WorkerBuild WorkerSend WorkerGap WorkerConfirm WorkerCycle.
From S2P Require Import WorkerLogic WorkerQuiet WorkerPrepare WorkerDispatch.

Section Rules.
Context `{WorkerWire} `{Primitives} `{!Json Value, !Json FinalityEvidence} {FT : FairTurns}.

(** ** What a call must satisfy when it is made *)

(** The journal authorised these bytes, for a client's admitted request or as the NOOP
    of this wallet and nonce, and the ledger only grew since. *)
Definition granted (chain : N) (wallet : string) (tx : SignedTx) (w : world) : Prop :=
  ∃ l0 l, w_disk w = LedgerFile l /\ ledger_ok l /\ evolves l0 l /\
    ((∃ request payload, request_to_value request = Some payload /\ eoa_granted request tx payload l0) \/
     (∃ i, noop_granted i chain wallet tx l0)).

(** The store holds the transaction: moved to borrowed or found there, recorded as a
    replacement of a submitted one, or recorded as a submitted NOOP. *)
Definition reserved (tx : SignedTx) (h : history) : Prop :=
  (∃ txs n d, (DidStore (OpMoveIncremented txs) (Ok n) ∈ h \/ DidStore (OpMoveRecycled txs) (Ok n) ∈ h) /\
     d ∈ txs /\ bd_signed_transaction d = tx) \/
  (∃ txs d, DidStore OpPeekBorrowed (Ok txs) ∈ h /\ d ∈ txs /\ bd_signed_transaction d = tx) \/
  (∃ submitted, DidStore (OpGasBump submitted tx) (Ok tt) ∈ h) \/
  (∃ noops nonce, DidStore (OpNoops noops) (Ok tt) ∈ h /\ mkNoop nonce (tx_hash tx) ∈ noops).

(** The bytes are those of the client's transaction [i]: authorised in the journal for a
    request of that id. *)
Definition granted_for (i : string) (tx : SignedTx) (w : world) : Prop :=
  ∃ l0 l request payload, w_disk w = LedgerFile l /\ ledger_ok l /\ evolves l0 l /\
    rq_transaction_id request = i /\ request_to_value request = Some payload /\ eoa_granted request tx payload l0.

(** The submitted set had a record of the transaction [i], not a NOOP, at this nonce. *)
Definition submitted_record (ks : EoaExecutorStoreKeys) (nonce : N) (i : string) (h : history) : Prop :=
  ∃ rows σ member rest, DidStore (OpNonceRow nonce) (Ok rows) ∈ h /\ rows = nonce_row ks nonce σ /\
    from_redis_strings rows = member :: rest /\
    sd_nonce member = nonce /\ sd_transaction_id member = i /\ is_noop_id i = false.

(** The provider's answers make the receipt of a confirmed transaction final: its block
    was answered for its height, and so was a checkpoint, not below it, that the observed
    head qualifies under the chain's policy. *)
Definition receipt_final `{!Worker} (c : ConfirmedTransaction) : Prop :=
  ∃ head, supported ok_turn wk_chain (receipt_view (ct_receipt c)) (ct_finality c) head.

(** The ledger keeps a checkpoint of the chain at or above the evidence's, and has the
    transaction terminal, with an attempt of the receipt's hash. *)
Definition settled_in_ledger `{!Worker} (c : ConfirmedTransaction) (w : world) : Prop :=
  let '(kind, id) := journal_identity (ct_transaction_id c) (ct_nonce c) in
  ∃ l e', w_disk w = LedgerFile l /\ ledger_ok l /\
    load_chain_checkpoint l (ch_chain_id wk_chain) = Ok (Some e') /\ checkpoint_kept (ct_finality c) e' /\
    settled_attempt kind id wk_chain_id (receipt_transaction_hash (ct_receipt c)) l.

Definition final_and_terminal `{!Worker} (c : ConfirmedTransaction) (w : world) : Prop :=
  receipt_final c /\ settled_in_ledger c w.

(** New nonces are allocated to the first pending transactions, in order, from the
    optimistic nonce that was read with them. *)
Definition sequential_batch (txs : list BorrowedTransactionData) (h : history) : Prop :=
  signing_keeps_nonce -> ∃ limit pending n, DidStore (OpPeekPendingWithNonce limit) (Ok (pending, n)) ∈ h /\
    map bd_nonce txs = imap (fun i _ => u64_wrap (n + N.of_nat i)) txs /\
    map bd_transaction_id txs `prefix_of` map pt_transaction_id pending.

Definition worker_rule `{!Worker} (ks : EoaExecutorStoreKeys) (d : doing) (h : history) (w : world) : Prop :=
  match d with
  | DoCall (SendTxEnvelope tx) => granted wk_chain_id wk_eoa tx w /\ reserved tx h
  | DoCall (SendRawTransaction wire) =>
      ∃ tx i, encoded_2718 tx = wire /\ granted_for i tx w /\ submitted_record ks (tx_nonce tx) i h
  | DoStore (OpMoveIncremented txs) => sequential_batch txs h
  | DoStore (OpCleanSubmitted confirmed _) => Forall (fun c => final_and_terminal c w) confirmed
  | _ => True
  end.
Lemma worker_rule_free `{!Worker} ks d h w : harmless d -> worker_rule ks d h w.
Proof. destruct d as [B []|B []]; done. Qed.

(** ** Stability *)

#[export] Instance stable_granted chain wallet tx : Stable (fun _ w => granted chain wallet tx w).
Proof.
  intros h w (l0 & l & Hd & Hok & He & Hg) h' w' _ Hl. destruct (later_ledger _ _ _ Hl Hd Hok) as (l' & ? & ? & ?).
  exists l0, l'. split_and!; [done..|by etrans|done].
Qed.
#[export] Instance stable_reserved tx : Stable (fun h _ => reserved tx h).
Proof. intros h w Hr h' w' [k ->] _. unfold reserved in *. set_solver. Qed.

#[export] Instance stable_sequential txs : Stable (fun h _ => sequential_batch txs h).
Proof.
  intros h w Hs h' w' [k ->] _ Hlaw. destruct (Hs Hlaw) as (limit & pending & n & Hd & Hrest).
  exists limit, pending, n. split; [set_solver|done].
Qed.

Lemma settled_attempt_evolves kind i chain hash l l' :
  evolves l l' -> settled_attempt kind i chain hash l -> settled_attempt kind i chain hash l'.
Proof.
  intros He (a & k & at0 & v & Ha & Hk & Hs & Hr & Hc & Hin & Hrest).
  destruct (ev_admissions _ _ He i a Ha) as (a' & Ha' & Hk' & _ & _ & Hr' & Hs' & _).
  exists a', k, at0, v. split_and!; try done; [congruence|by apply Hs'|by apply Hr'| |apply Hrest..].
  destruct (ev_attempts _ _ He) as [x ->]. set_solver.
Qed.
#[export] Instance stable_granted_for i tx : Stable (fun _ w => granted_for i tx w).
Proof.
  intros h w (l0 & l & request & payload & Hd & Hok & He & Hg) h' w' _ Hl.
  destruct (later_ledger _ _ _ Hl Hd Hok) as (l' & ? & ? & ?). exists l0, l', request, payload.
  split_and!; try done; [by etrans|apply Hg..].
Qed.
#[export] Instance stable_submitted_record ks nonce i : Stable (fun h _ => submitted_record ks nonce i h).
Proof.
  intros h w (rows & σ & member & rest & Hin & Hrest) h' w' [k ->] _. exists rows, σ, member, rest. set_solver.
Qed.

(** A checkpoint that is kept stays kept. *)
Lemma checkpoint_kept_later w w' l chain e e' :
  later w w' -> w_disk w = LedgerFile l -> ledger_ok l ->
  load_chain_checkpoint l chain = Ok (Some e') -> checkpoint_kept e e' ->
  ∃ l' e2, w_disk w' = LedgerFile l' /\ ledger_ok l' /\ evolves l l' /\
    load_chain_checkpoint l' chain = Ok (Some e2) /\ checkpoint_kept e e2.
Proof.
  intros Hl Hd Hok Hc (Hk1 & Hk2 & Hk3). destruct (later_ledger _ _ _ Hl Hd Hok) as (l' & Hd' & Hok' & He).
  destruct (ev_checkpoints _ _ He _ _ Hc) as (e2 & Hc2 & Hp2 & Hn2 & Hh2). exists l', e2. split_and!; [done..|].
  split_and!; [congruence|lia|]. intros Heq. rewrite Hh2 by lia. apply Hk3. lia.
Qed.
#[export] Instance stable_final `{!Worker} c : Stable (fun _ w => final_and_terminal c w).
Proof.
  intros h w [Hf Hs] h' w' _ Hl. split; [done|]. unfold settled_in_ledger in *. destruct (journal_identity _ _) as [kind id].
  destruct Hs as (l & e' & Hd & Hok & Hc & Hk & Hs).
  destruct (checkpoint_kept_later _ _ _ _ _ _ Hl Hd Hok Hc Hk) as (l' & e2 & ? & ? & He & ? & ?).
  exists l', e2. split_and!; [done..|]. by eapply settled_attempt_evolves.
Qed.
End Rules.

(** ** The flows keep the rule *)

Section Flows.
Context `{WorkerWire} `{!Json EoaTransactionRequest, !Json BorrowedTransactionData,
  !Json TransactionAttempt, !Json EoaHealth, !Json TransactionReceipt}
  `{!Json (WebhookNotificationEnvelope EoaEventPayload), !Json WebhookJobPayload}.
Context `{Primitives} `{!Json Value, !Json FinalityEvidence, !Json GapReplayState} {FT : FairTurns}.
Context (ks : EoaExecutorStoreKeys) (worker_id wq : string).
Context (finality_json : FinalityEvidence -> string) (ttl : N).
Context `{!Process, !Worker} (journalled : journal = true) (l0 : Ledger).
#[local] Notation wspec := (wspec ks worker_id wq finality_json ttl (worker_rule ks)).
#[local] Notation quiet := (quiet ks worker_id wq finality_json ttl (worker_rule ks)).
#[local] Notation answers := (answers ks worker_id wq finality_json ttl).

Definition inv : assertion := fun _ w => grown l0 w.
#[export] Instance stable_inv : Stable inv.
Proof. apply stable_grown. Qed.
(** Nothing is promised of the end. *)
Definition any {A} : A -> assertion := fun _ _ _ => True.

#[local] Instance stable_any {A} (a : A) : Stable (any a).
Proof. by intros h w _ h' w' _ _. Qed.

Lemma safe_quiet {A} (P : assertion) (p : wprog A) : (∀ h w, P h w -> inv h w) -> quiet p -> wspec P p any.
Proof. intros HP Hp. by eapply wspec_quiet. Qed.

Lemma safe_quiet_ok {E A} (P : assertion) (p : wprog (result E A)) :
  (∀ h w, P h w -> inv h w) -> quiet p -> wspec P p (wok any).
Proof. intros HP Hp. eapply wspec_post; [by apply safe_quiet|by intros []]. Qed.

(** A store call with [?], and the record of it. *)
Lemma safe_store_act {A} (P : assertion) (o : store_op (store_result A)) `{!Stable P} :
  (∀ h w, P h w -> worker_rule ks (DoStore o) h w) ->
  wspec P (store_act o) (wok (fun a h _ => answers o (Ok a) /\ DidStore o (Ok a) ∈ h)).
Proof.
  intros HP. eapply wspec_bind; [done|by apply wspec_store|]. intros [a|e]; (apply wspec_ret; [apply _|]); [|done].
  by intros h w [_ Hr].
Qed.

(** ** Sends *)

Lemma safe_before_eoa request tx P `{!Stable P} :
  (∀ h w, P h w -> inv h w) ->
  wspec P (journal_step (before_eoa engine_error_to_string journal request tx))
    (wok (fun _ _ w => granted wk_chain_id wk_eoa tx w)).
Proof.
  intros HP. rewrite journalled. eapply wspec_post; [apply wspec_journal; [done|exact HP|apply before_eoa_spec]|].
  intros [[]|] h w; [|done]. intros (w0 & (payload & l1 & Hreq & (Hd & _) & Hg) & (l & Hd' & Hok & _) & Hl).
  rewrite Hd in Hd'. injection Hd' as <-. destruct (later_ledger _ _ _ Hl Hd Hok) as (l2 & ? & ? & ?).
  exists l1, l2. split_and!; [done..|]. left. by exists request, payload.
Qed.

Lemma safe_send tx P `{!Stable P} :
  (∀ h w, P h w -> granted wk_chain_id wk_eoa tx w /\ reserved tx h) -> wspec P (call_out (SendTxEnvelope tx)) any.
Proof. intros HP. eapply wspec_post; [by apply (wspec_call _ _ _ _ _ _ P)|done]. Qed.

(** ** Composition, when nothing is promised of the end *)

Lemma safe_pre {A} (P P' : assertion) (p : wprog A) Q : (∀ h w, P' h w -> P h w) -> wspec P p Q -> wspec P' p Q.
Proof. intros HP Hp. by eapply wspec_conseq. Qed.
Lemma safe_done {A} (P : assertion) (a : A) : wspec P (WRet a) any.
Proof. by intros h w _ h' w' _ _. Qed.
Lemma safe_bind {A B} (P : assertion) (p : wprog A) (g : A -> wprog B) `{!Stable P} :
  wspec P p any -> (∀ a, wspec P (g a) any) -> wspec P (wbind p g) any.
Proof.
  intros Hp Hg. eapply wspec_bind; [done|exact Hp|]. intros a. eapply safe_pre; [|apply Hg]. by intros h w [? _].
Qed.
Lemma safe_try {E A B} (P : assertion) (p : wprog (result E A)) (g : A -> wprog (result E B)) Q `{!Stable P} :
  wspec P p (wok Q) -> (∀ a, wspec (fun h w => P h w /\ Q a h w) (g a) any) ->
  wspec P (wbind p (fun r => match r with Ok a => g a | Err e => WRet (Err e) end)) any.
Proof. intros Hp Hg. eapply wspec_bind; [done|exact Hp|]. intros [a|e]; [apply Hg|apply safe_done]. Qed.
Lemma safe_try_any {E A B} (P : assertion) (p : wprog (result E A)) (g : A -> wprog (result E B)) `{!Stable P} :
  wspec P p any -> (∀ a, wspec P (g a) any) ->
  wspec P (wbind p (fun r => match r with Ok a => g a | Err e => WRet (Err e) end)) any.
Proof. intros Hp Hg. apply safe_bind; [done|done|]. intros [a|e]; [apply Hg|apply safe_done]. Qed.
Lemma safe_pure {E A B} (P : assertion) (r : result E A) (g : A -> wprog (result E B)) `{!Stable P} :
  (∀ a, r = Ok a -> wspec P (g a) any) ->
  wspec P (wbind (WRet r) (fun r => match r with Ok a => g a | Err e => WRet (Err e) end)) any.
Proof. intros Hg. destruct r as [a|e]; [by apply (Hg a)|apply safe_done]. Qed.
Lemma safe_buffered {A X} (P : assertion) (f : X -> wprog A) (l : list X) `{!Stable P} :
  (∀ x, x ∈ l -> wspec P (f x) any) -> wspec P (buffered (map f l)) any.
Proof. intros Hf. eapply wspec_post; [by apply (wspec_buffered _ _ _ _ _ _ P f l (fun _ => any))|done]. Qed.

(** ** The send flow *)

Definition tx_of (b : BorrowedTransaction) : SignedTx := bd_signed_transaction (bt_data b).
Definition all_reserved (l : list BorrowedTransaction) : assertion := fun h _ => ∀ b, b ∈ l -> reserved (tx_of b) h.
#[local] Instance stable_all_reserved l : Stable (all_reserved l).
Proof. apply stable_all. apply _. Qed.

Lemma safe_owned P `{!Stable P} : (∀ h w, P h w -> inv h w) -> wspec P (store_act OpOwned) (wok any).
Proof. intros HP. apply safe_quiet_ok; [done|]. by apply quiet_store_act; [apply worker_rule_free|]. Qed.

Lemma safe_authorize_while_owned b P `{!Stable P} :
  (∀ h w, P h w -> inv h w) ->
  wspec P (authorize_while_owned (authorize_eoa b)) (wok (fun _ _ w => granted wk_chain_id wk_eoa (tx_of b) w)).
Proof.
  intros HP. eapply wspec_try; [done|by apply safe_owned|]. intros ?.
  eapply wspec_try; [apply _|apply safe_before_eoa; [apply _|intros h w [? _]; by apply HP]|]. intros [].
  eapply wspec_try; [apply _|apply safe_owned; [apply _|]|].
  - intros h w [[? _] _]. by apply HP.
  - intros ?. apply wspec_ret; [apply _|]. by intros h w [[_ ?] _].
Qed.

Lemma safe_broadcast b P `{!Stable P} :
  (∀ h w, P h w -> granted wk_chain_id wk_eoa (tx_of b) w /\ reserved (tx_of b) h) -> wspec P (broadcast_borrowed b) any.
Proof.
  intros HP. apply safe_bind; [done|by apply safe_send|]. intros sent.
  apply safe_bind; [done| |intros now; apply safe_done].
  eapply wspec_post; [by apply (wspec_call _ _ _ _ _ _ P)|done].
Qed.

Lemma safe_dispatch_reserved l : wspec (fun h w => inv h w /\ all_reserved l h w) (dispatch_reserved_transactions l) any.
Proof.
  apply safe_try_any; [apply _| |intros rs; apply safe_done].
  eapply wspec_post; [apply (authorize_then_dispatch_spec _ _ _ _ _ _ (fun _ _ => I) _ _ _ _ _ _
    (authorize_eoa_within l) (broadcast_within l) _
    (fun i _ w => ∀ b, l !! i = Some b -> granted wk_chain_id wk_eoa (tx_of b) w) (fun _ => any))|done].
  - intros i. unfold at_index. destruct (l !! i) as [b|]; [|apply wspec_ret; [apply _|]; by intros h w _ b].
    eapply wspec_post; [apply safe_authorize_while_owned; [apply _|by intros h w [? _]]|].
    intros [[]|] h w Hg; [|done]. intros b' [= <-]. done.
  - intros i. unfold at_index. destruct (l !! i) as [b|] eqn:Hi; [|apply safe_done].
    apply safe_bind; [apply _| |intros r; apply safe_done]. apply safe_broadcast; [apply _|].
    intros h w [[_ Hr] Hg]. split; [by apply Hg|]. apply Hr. by eapply list_elem_of_lookup_2.
  - lia.
Qed.

Lemma safe_send_reserved move l P `{!Stable P} :
  move = OpMoveIncremented \/ move = OpMoveRecycled ->
  (∀ h w, P h w -> inv h w /\ worker_rule ks (DoStore (move (map bt_data l))) h w) -> wspec P (send_reserved move l) any.
Proof.
  intros Hmove HP. eapply safe_try; [done|apply safe_store_act; [done|by intros h w Hw; destruct (HP h w Hw)]|].
  intros n. apply (safe_pre (fun h w => inv h w /\ all_reserved l h w)).
  - intros h w [Hw [_ Hd]]. destruct (HP h w Hw) as [Hi _]. split; [done|]. intros b Hb. left.
    exists (map bt_data l), n, (bt_data b). split_and!; [|by apply list_elem_of_fmap_2|done].
    destruct Hmove as [-> | ->]; [by left|by right].
  - apply safe_try_any; [apply _|apply safe_dispatch_reserved|]. intros results.
    apply safe_quiet; [by intros h w [? _]|]. by apply quiet_store_act; [apply worker_rule_free|].
Qed.

Lemma safe_act {A} (P : assertion) (o : store_op (store_result A)) :
  (∀ h w, P h w -> inv h w) -> harmless (DoStore o) -> wspec P (store_act o) any.
Proof. intros HP Ho. apply safe_quiet; [done|]. by apply quiet_store_act; [apply worker_rule_free|]. Qed.

Lemma safe_recycled_rounds left total pending : wspec inv (recycled_rounds left total pending) any.
Proof.
  revert total pending. induction left as [|left IH]; intros total pending; cbn [recycled_rounds]; [apply safe_done|].
  apply safe_try_any; [apply _|by apply safe_act|]. intros nonces. case_bool_decide; [apply safe_done|].
  apply safe_try_any; [apply _|by apply safe_act|]. intros txs. cbv zeta.
  destruct (zip_with _ txs nonces) as [|task tasks] eqn:Ht; [apply safe_done|]. apply safe_bind; [apply _| |].
  - apply safe_quiet; [done|]. apply quiet_buffered; [apply worker_rule_free|]. rewrite <- Ht.
    intros p (tx & nonce & -> & _)%elem_of_zip_with. apply quiet_preparation, worker_rule_free.
  - intros prepared. apply safe_try_any; [apply _|apply safe_quiet; [done|apply quiet_clean_results, worker_rule_free]|].
    intros [|b cleaned]; [apply IH|]. apply safe_try_any; [apply _|by apply safe_send_reserved; [apply _|right|]|]. intros report. apply IH.
Qed.

(** The batch of one round: prepared in place. *)
Lemma safe_prepare_batch n batch P `{!Stable P} :
  (∀ h w, P h w -> inv h w) ->
  wspec P (buffered (imap (fun i tx =>
      build_and_sign_single_transaction_with_retries tx (u64_wrap (n + N.of_nat i))) batch))
    (fun rs _ _ => Forall2 (fun x r => yok (prepared x.2 (u64_wrap (n + N.of_nat x.1))) r) (imap pair batch) rs).
Proof.
  intros HP. set (f := fun x : nat * PendingTransaction =>
    build_and_sign_single_transaction_with_retries x.2 (u64_wrap (n + N.of_nat x.1))).
  replace (imap _ batch) with (map f (imap pair batch)) by apply (fmap_imap pair f).
  apply (wspec_buffered _ _ _ _ _ _ P f (imap pair batch)
    (fun x r _ _ => yok (prepared x.2 (u64_wrap (n + N.of_nat x.1))) r)); [intros h w; by apply worker_rule_free|].
  intros [i tx] _. subst f. cbn [fst snd]. generalize (u64_wrap (n + N.of_nat i)) as nonce. intros nonce.
  eapply wspec_post; [apply (wspec_yields _ _ _ _ _ _ P _ any _ (preparation_yields tx nonce))|].
  - apply safe_quiet; [exact HP|apply quiet_preparation, worker_rule_free].
  - by intros r h w [Hr _].
Qed.

Lemma safe_clean_batch results P :
  (∀ h w, P h w -> inv h w) ->
  wspec P (clean_prepration_results results true)
    (wok (fun l _ _ => l = cl_results (foldl (clean_result true) (mkCleaning [] false false []) results))).
Proof.
  intros HP. eapply wspec_post; [apply (wspec_yields _ _ _ _ _ _ P _ any _ (clean_results_yields results true))|].
  - apply safe_quiet; [exact HP|apply quiet_clean_results, worker_rule_free].
  - by intros [l|] h w [Hl _].
Qed.

Lemma firstn_ids n (pending : list PendingTransaction) :
  map pt_transaction_id (firstn n pending) `prefix_of` map pt_transaction_id pending.
Proof. rewrite <- firstn_map. exists (skipn n (map pt_transaction_id pending)). symmetry. apply take_drop. Qed.

Lemma safe_new_rounds left total budget : wspec inv (new_rounds left total budget) any.
Proof.
  revert total budget. induction left as [|left IH]; intros total budget; cbn [new_rounds]; [apply safe_done|].
  destruct (budget =? 0)%N; [apply safe_done|]. eapply safe_try; [apply _|by apply safe_store_act; [apply _|]|].
  intros [pending n]. cbv zeta. destruct pending as [|tx txs]; [apply safe_done|]. set (pending := tx :: txs).
  eapply wspec_bind; [apply _|apply safe_prepare_batch; [apply _|by intros h w [? _]]|]. intros prepared.
  eapply safe_try; [apply _|apply safe_clean_batch; by intros h w [[? _] _]|]. intros kept.
  apply (safe_pre (fun h w => inv h w /\ sequential_batch (map bt_data kept) h)).
  - intros h w [[[Hi [_ Hd]] Hall] Hk]. split; [done|]. intros Hlaw.
    destruct (in_place_nonces _ _ _ Hlaw (cleaned_in_place _ _ _ _ Hall Hk)) as [Hn Hids].
    exists budget, pending, n. split_and!; [done| |]; [|etrans; [exact Hids|apply firstn_ids]].
    rewrite Hn. by rewrite imap_fmap.
  - destruct kept as [|b kept]; [eapply safe_pre; [|apply IH]; by intros h w [? _]|].
    apply safe_try_any; [apply _|by apply safe_send_reserved; [apply _|left|]|]. intros report.
    eapply safe_pre; [|apply IH]. by intros h w [? _].
Qed.

(** ** NOOPs *)

Lemma safe_before_noop i tx P `{!Stable P} :
  (∀ h w, P h w -> inv h w) ->
  wspec P (journal_step (before_noop engine_error_to_string journal i wk_chain_id wk_eoa tx))
    (wok (fun _ _ w => granted wk_chain_id wk_eoa tx w)).
Proof.
  intros HP. rewrite journalled. eapply wspec_post; [apply wspec_journal; [done|exact HP|apply before_noop_spec]|].
  intros [[]|] h w; [|done]. intros (w0 & (l1 & (Hd & _) & Hg) & (l & Hd' & Hok & _) & Hl).
  rewrite Hd in Hd'. injection Hd' as <-. destruct (later_ledger _ _ _ Hl Hd Hok) as (l2 & ? & ? & ?).
  exists l1, l2. split_and!; [done..|]. right. by exists i.
Qed.

Lemma safe_send_noop nonce : wspec inv (send_noop_transaction nonce) any.
Proof.
  apply safe_try_any; [apply _|apply safe_quiet; [done|apply quiet_journal; auto with calm]|]. intros id.
  apply safe_try_any; [apply _|apply safe_quiet; [done|apply quiet_build_noop, worker_rule_free]|]. intros tx.
  eapply safe_try; [apply _|apply safe_before_noop; [apply _|done]|]. intros []. cbv zeta.
  eapply safe_try; [apply _|by apply safe_store_act; [apply _|]|]. intros [].
  apply safe_bind; [apply _| |intros sent; apply safe_done]. apply safe_send; [apply _|].
  intros h w [[_ Hg] [_ Hd]]. split; [done|]. do 3 right. exists [mkNoop nonce (tx_hash tx)], nonce. set_solver.
Qed.

Lemma safe_process_recycled : wspec inv process_recycled_nonces any.
Proof.
  apply safe_try_any; [apply _|apply safe_recycled_rounds|]. intros [total noops]. destruct noops; [|apply safe_done].
  apply safe_try_any; [apply _|by apply safe_act|]. intros nonces.
  apply safe_bind; [apply _|apply safe_buffered; [apply _|]; intros nonce _; apply safe_send_noop|]. intros results.
  apply safe_try_any; [apply _|by apply safe_act|]. intros ?. apply safe_done.
Qed.

Lemma safe_send_flow : wspec inv send_flow any.
Proof.
  apply safe_try_any; [apply _|apply safe_quiet; [done|apply quiet_check_funds, worker_rule_free]|]. intros ?.
  apply safe_try_any; [apply _|apply safe_process_recycled|]. intros sent.
  apply safe_try_any; [apply _|by apply safe_act|]. intros [|n remaining]; [|apply safe_done].
  apply safe_try_any; [apply _|by apply safe_act|]. intros budget. destruct (0 <? budget)%N; [|apply safe_done].
  apply safe_try_any; [apply _| |intros ?; apply safe_done]. unfold process_new_transactions.
  destruct (budget =? 0)%N; [apply safe_done|]. apply safe_try_any; [apply _|apply safe_new_rounds|].
  intros ?. apply safe_done.
Qed.

(** ** Borrowed transactions *)

Lemma hydrate_all_loop_data items hydrated deletion :
  hydrate_all_loop ks items = Ok (hydrated, deletion) -> ∀ b, b ∈ hydrated -> bt_data b ∈ map fst items.
Proof.
  revert hydrated deletion. induction items as [|[d [r|]] items IH]; intros hydrated deletion; cbn.
  - intros [= <- <-]. set_solver.
  - destruct (deser r) as [request|]; [|done]. destruct (hydrate_all_loop ks items) as [[hyd del]|]; [|done].
    intros [= <- <-] b [-> |Hb]%elem_of_cons; [by left|]. right. by eapply IH.
  - destruct (hydrate_all_loop ks items) as [[hyd del]|]; [|done]. intros [= <- <-] b Hb. right. by eapply IH.
Qed.
(** Hydration only adds the requests. *)
Lemma hydrate_all_data l hydrated :
  answers (OpHydrateAll l) (Ok hydrated) -> ∀ b, b ∈ hydrated -> bt_data b ∈ l.
Proof.
  intros (uuid & sch & σ & Hrun) b Hb. cbn [store_prog] in Hrun. unfold hydrate_all in Hrun. rewrite run_bind in Hrun.
  destruct (run (read_all _) sch idle σ) as [[results|e] [[sch1 c1] σ1]]; [|by rewrite run_ret in Hrun].
  destruct (hydrate_all_loop ks _) as [[hyd del]|e] eqn:Hloop in Hrun; [|by rewrite run_ret in Hrun]. rewrite run_bind in Hrun.
  destruct (run (write_all del) _ _ _) as [[u|e] [[sch2 c2] σ2]]; rewrite run_ret in Hrun; [|done]. injection Hrun as <-.
  apply (hydrate_all_loop_data _ _ _ Hloop) in Hb. apply list_elem_of_fmap in Hb as ([d r] & Heq & Hin).
  cbn in Heq. rewrite Heq. by eapply elem_of_zip_l.
Qed.

Lemma sort_by_nonce_elem b l : b ∈ sort_by_nonce l <-> b ∈ l.
Proof.
  assert (∀ x l, b ∈ insert_by_nonce x l <-> b = x \/ b ∈ l) as Hins.
  { intros x k. induction k as [|y k IH]; cbn; [set_solver|]. destruct (_ <=? _)%N; set_solver. }
  induction l as [|x l IH]; cbn; [done|]. rewrite Hins, elem_of_cons, IH. done.
Qed.

Definition authorised (l : list BorrowedTransaction) (x : list SubmissionResult * list BorrowedTransaction) : assertion :=
  fun _ w => ∀ b, b ∈ x.2 -> b ∈ l /\ granted wk_chain_id wk_eoa (tx_of b) w.
#[local] Instance stable_authorised l x : Stable (authorised l x).
Proof. apply (stable_all (fun b => b ∈ x.2)). apply _. Qed.

Lemma safe_reconcile l : wspec inv (reconcile_borrowed l) (wok (authorised l)).
Proof.
  induction l as [|b l IH]; cbn [reconcile_borrowed].
  { apply wspec_ret; [apply _|]. intros h w _ b. set_solver. }
  eapply wspec_try; [apply _|apply safe_quiet_ok; [done|apply quiet_durable_outcome]|].
  intros [hash|].
  - eapply wspec_bind; [apply _|apply safe_quiet; [by intros h w [? _]|by apply quiet_call; [apply worker_rule_free|]]|].
    intros now. cbv zeta. eapply wspec_try; [apply _|eapply safe_pre; [|exact IH]; by intros h w [[? _] _]|].
    intros [results todo]. apply wspec_ret; [apply _|]. intros h w [_ Ha] b' Hb'. destruct (Ha b' Hb'). set_solver.
  - eapply wspec_try; [apply _|apply safe_before_eoa; [apply _|by intros h w [? _]]|]. intros [].
    eapply wspec_try; [apply _|eapply safe_pre; [|exact IH]; by intros h w [[? _] _]|].
    intros [results todo]. apply wspec_ret; [apply _|]. intros h w [[_ Hg] Ha] b' [-> |Hb']%elem_of_cons; [set_solver|].
    destruct (Ha b' Hb'). set_solver.
Qed.

Lemma safe_rebroadcast b P `{!Stable P} :
  (∀ h w, P h w -> inv h w /\ granted wk_chain_id wk_eoa (tx_of b) w /\ reserved (tx_of b) h) ->
  wspec P (rebroadcast b) any.
Proof.
  intros HP. assert (∀ h w, P h w -> inv h w) as HI by (intros h w Hw; by destruct (HP h w Hw)).
  apply safe_bind; [done| |].
  - apply safe_quiet; [done|]. by apply quiet_call; [apply worker_rule_free|].
  - intros receipt. cbv zeta. destruct (match receipt with Ok _ => _ | Err _ => _ end).
    + apply safe_bind; [done| |intros now; apply safe_done]. apply safe_quiet; [done|].
      by apply quiet_call; [apply worker_rule_free|].
    + apply safe_broadcast; [done|]. intros h w Hw. by destruct (HP h w Hw) as (_ & ? & ?).
Qed.

Lemma safe_recover_borrowed : wspec inv recover_borrowed_state any.
Proof.
  eapply safe_try; [apply _|by apply safe_store_act; [apply _|]|]. intros data.
  eapply safe_try; [apply _|by apply safe_store_act; [apply _|]|]. intros [|b0 l']; [apply safe_done|].
  set (l := b0 :: l'). apply (safe_pre (fun h w => inv h w /\ all_reserved l h w)).
  { intros h w [[Hi [_ Hd]] [Ha _]]. split; [done|]. intros b Hb. right. left. exists data, (bt_data b).
    split_and!; [done| |done]. by eapply hydrate_all_data. }
  eapply safe_try; [apply _|eapply safe_pre; [|apply safe_reconcile]; by intros h w [? _]|].
  intros [results todo]. cbn [fst snd]. apply safe_bind; [apply _| |].
  - apply safe_buffered; [apply _|]. intros b Hb. apply safe_rebroadcast; [apply _|].
    intros h w [[Hi Hr] Ha]. destruct (Ha b Hb) as [Hin Hg]. split_and!; [done..|]. by apply Hr, sort_by_nonce_elem.
  - intros recovered. apply safe_try_any; [apply _| |intros report; apply safe_done].
    apply safe_act; [by intros h w [[? _] _]|done].
Qed.

(** ** Gas bumps *)

Lemma safe_send_bumped nonce data tx : wspec inv (send_bumped nonce data tx) any.
Proof.
  apply safe_bind; [apply _| |]; [apply safe_quiet; [done|by apply quiet_call; [apply worker_rule_free|]]|]. intros now.
  eapply safe_try; [apply _|by apply safe_store_act; [apply _|]|]. intros [].
  eapply safe_try; [apply _|apply safe_before_eoa; [apply _|by intros h w [? _]]|]. intros [].
  apply safe_bind; [apply _| |intros sent; apply safe_done]. apply safe_send; [apply _|].
  intros h w [[_ [_ Hd]] Hg]. split; [done|]. do 2 right. left. by eexists.
Qed.

Lemma safe_bump_transaction nonce data : wspec inv (bump_transaction nonce data) any.
Proof.
  apply safe_bind; [apply _| |]; [apply safe_quiet; [done|by apply quiet_call; [apply worker_rule_free|]]|]. intros now.
  destruct (_ <? _)%N; [apply safe_done|].
  apply safe_bind; [apply _|apply safe_quiet; [done|apply quiet_build_typed_transaction, worker_rule_free]|].
  intros [typed|e]; [|apply safe_quiet; [done|apply quiet_bump_not_built, worker_rule_free]].
  destruct (apply_gas_bump_to_typed_transaction _ _ _) as [bumped|]; [|apply safe_done].
  apply safe_try_any; [apply _|apply safe_quiet; [done|apply quiet_sign_transaction, worker_rule_free]|].
  intros tx. apply safe_send_bumped.
Qed.

Lemma safe_gas_bump nonce : wspec inv (attempt_gas_bump_for_stalled_nonce nonce) any.
Proof.
  apply safe_try_any; [apply _|by apply safe_act|]. intros submitted.
  apply safe_bind; [apply _|apply safe_quiet; [done|apply quiet_none_included, worker_rule_free]|]. intros [];
    [|apply safe_done]. cbn [negb]. apply safe_try_any; [apply _| |].
  - destruct (newest_submitted submitted); [by apply safe_act|apply safe_done].
  - intros [data|]; [apply safe_bump_transaction|apply safe_done].
Qed.

Lemma safe_bump_if_stalled preconfirmed count : wspec inv (bump_if_stalled preconfirmed count) any.
Proof.
  apply safe_try_any; [apply _|apply safe_quiet; [done|apply quiet_worker_health, worker_rule_free]|]. intros health.
  apply safe_bind; [apply _| |]; [apply safe_quiet; [done|by apply quiet_call; [apply worker_rule_free|]]|]. intros now.
  cbv zeta. destruct (_ && _); [|apply safe_done].
  apply safe_bind; [apply _|apply safe_gas_bump|]. intros r. apply safe_done.
Qed.

(** ** Gap replay *)

Lemma decode_wire_Ok nonce id attempt admission request wire tx hash :
  decode_wire nonce id attempt admission = Ok (request, wire, tx, hash) ->
  encoded_2718 tx = wire /\ tx_nonce tx = nonce /\ rq_transaction_id request = id.
Proof.
  unfold decode_wire. intros Hd. do 6 txn_step Hd.
  destruct (_ || _) eqn:Hc in Hd; [done|]. txn_step Hd. txn_step Hd. destruct (_ || _) eqn:Hi in Hd; [done|].
  injection Hd as <- <- <- <-. repeat (apply orb_false_iff in Hc as [Hc ?]). apply orb_false_iff in Hi as [_ Hi].
  repeat match goal with Hx : bool_decide _ = false |- _ => apply bool_decide_eq_false, dec_stable in Hx end. done.
Qed.

Lemma safe_redis_act {A} (P : assertion) (o : store_op (result redis_error A)) `{!Stable P} :
  harmless (DoStore o) -> wspec P (redis_act o) (wok (fun a h _ => answers o (Ok a) /\ DidStore o (Ok a) ∈ h)).
Proof.
  intros Ho. eapply wspec_bind; [done|apply wspec_store; [done|intros h w _; by apply worker_rule_free]|].
  intros [a|e]; (apply wspec_ret; [apply _|]); [|done]. by intros h w [_ Hr].
Qed.

Lemma nonce_row_answer nonce rows : answers (OpNonceRow nonce) (Ok rows) -> ∃ σ, rows = nonce_row ks nonce σ.
Proof.
  intros (uuid & sch & σ & Hrun). cbn [store_prog run] in Hrun. destruct (next_slot sch) as [sl sch'].
  destruct (sl_fault sl) as [[]|]; cbn in Hrun; destruct (next_slot sch'); try done. injection Hrun as <-. by eexists.
Qed.

Lemma safe_before_replay request tx P `{!Stable P} :
  (∀ h w, P h w -> inv h w) ->
  wspec P (journal_step (before_eoa engine_error_to_string journal request tx))
    (wok (fun _ _ w => granted_for (rq_transaction_id request) tx w)).
Proof.
  intros HP. rewrite journalled. eapply wspec_post; [apply wspec_journal; [done|exact HP|apply before_eoa_spec]|].
  intros [[]|] h w; [|done]. intros (w0 & (payload & l1 & Hreq & (Hd & _) & Hg) & (l & Hd' & Hok & _) & Hl).
  rewrite Hd in Hd'. injection Hd' as <-. destruct (later_ledger _ _ _ Hl Hd Hok) as (l2 & ? & ? & ?).
  by exists l1, l2, request, payload.
Qed.

Lemma safe_calm {A} (P : assertion) (e : eprog A) : (∀ h w, P h w -> inv h w) -> calm e -> wspec P (journal_step e) any.
Proof. intros HP He. apply safe_quiet; [done|by apply quiet_journal]. Qed.

Lemma safe_replay_nonce encoded nonce : wspec inv (replay_nonce encoded nonce) any.
Proof.
  eapply safe_try; [apply _|by apply safe_redis_act; [apply _|]|]. intros rows.
  destruct (from_redis_strings rows) as [|member members] eqn:Hrows; [apply safe_done|].
  destruct (_ || _) eqn:Hmember; [apply safe_done|]. cbv zeta.
  apply orb_false_iff in Hmember as [Hn%negb_false_iff%N.eqb_eq Hnoop].
  apply safe_try_any; [apply _|apply safe_calm; [by intros h w [? _]|auto with calm]|].
  intros [attempt|]; [|apply safe_done].
  apply safe_try_any; [apply _|apply safe_calm; [by intros h w [? _]|auto with calm]|]. intros admission.
  apply safe_pure; [apply _|]. intros record _. apply safe_pure; [apply _|].
  intros [[[request wire] tx] hash] (Hw & Htx & Hid)%decode_wire_Ok.
  apply safe_try_any; [apply _|apply safe_calm; [by intros h w [? _]|auto with calm]|]. intros _.
  apply safe_try_any; [apply _|apply safe_act; [by intros h w [? _]|done]|]. intros _.
  eapply safe_try; [apply _|apply safe_before_replay; [apply _|by intros h w [? _]]|]. intros [].
  apply safe_bind; [apply _| |intros sent; apply safe_done].
  eapply wspec_post; [apply wspec_call; [apply _|]|done]. intros h w [[_ [[σ Hσ]%nonce_row_answer Hr]] Hg].
  exists tx, (sd_transaction_id member). rewrite Htx. split_and!; [done|by rewrite <- Hid|].
  by exists rows, σ, member, members.
Qed.

Lemma safe_replay_nonces left encoded nonce : wspec inv (replay_nonces left encoded nonce) any.
Proof.
  revert nonce. induction left as [|left IH]; intros nonce; cbn [replay_nonces]; [apply safe_done|].
  apply safe_try_any; [apply _|apply safe_replay_nonce|]. intros []; [apply IH|apply safe_done].
Qed.

Lemma safe_replay_gap latest cached : wspec inv (replay_submitted_gap latest cached) any.
Proof.
  unfold replay_submitted_gap. rewrite journalled. cbn [negb].
  apply safe_try_any; [apply _|eapply wspec_post; [by apply safe_redis_act; [apply _|]|done]|]. intros stored.
  apply safe_bind; [apply _| |]; [apply safe_quiet; [done|by apply quiet_call; [apply worker_rule_free|]]|]. intros now.
  apply safe_try_any; [apply _|apply safe_quiet; [done|apply quiet_gap_state, worker_rule_free]|].
  intros [state|]; [|apply safe_done]. destruct (_ <=? _)%N; [by apply safe_act|].
  apply safe_try_any; [apply _|apply safe_quiet; [done|apply quiet_observe_progress, worker_rule_free]|]. intros state'.
  destruct (_ <? _)%N; [apply safe_done|]. cbv zeta. apply safe_pure; [apply _|]. intros encoded _.
  apply safe_try_any; [apply _|by apply safe_act|]. intros _.
  apply safe_try_any; [apply _|apply safe_calm; [done|auto with calm]|]. intros _. apply safe_replay_nonces.
Qed.

(** ** Settlement *)

(** A block found final, in a receipt of it, under a checkpoint that is durable. *)
Definition final_block (key : block_key) (e : FinalityEvidence) : assertion := fun _ w =>
  (∃ receipt head, key = key_of receipt /\ supported ok_turn wk_chain (receipt_view receipt) e head) /\
  ∃ l e', w_disk w = LedgerFile l /\ ledger_ok l /\
    load_chain_checkpoint l (ch_chain_id wk_chain) = Ok (Some e') /\ checkpoint_kept e e'.
#[local] Instance stable_final_block key e : Stable (final_block key e).
Proof.
  intros h w (Hf & l & e' & Hd & Hok & Hc & Hk) h' w' _ Hl. split; [done|].
  destruct (checkpoint_kept_later _ _ _ _ _ _ Hl Hd Hok Hc Hk) as (l' & e2 & ? & ? & _ & ? & ?). by exists l', e2.
Qed.

(** The assessment of a block, if it says final. *)
Definition final_assessment (key : block_key) (r : result EngineError FinalityAssessment) : assertion :=
  match r with Ok (FaFinalized e) => final_block key e | _ => any tt end.
#[local] Instance stable_final_assessment key r : Stable (final_assessment key r).
Proof. destruct r as [[]|]; apply _. Qed.

Lemma safe_assess (key : block_key) (receipt : TransactionReceipt) :
  key = key_of receipt ->
  wspec inv (journal_step (assess alloy_to_string journal wk_chain (receipt_transaction_hash receipt) (receipt_view receipt)))
    (final_assessment key).
Proof.
  intros ->. rewrite journalled.
  eapply wspec_post; [apply (wspec_journal _ _ _ _ _ _ _ l0); [apply _|done|apply assess_spec]|].
  intros [[c| |e]|] h w; [done..| |done]. intros (w0 & [_ Ha] & (l & Hd & Hok & _) & Hl).
  destruct (Ha e eq_refl) as ((l1 & e1 & (Hd1 & _) & Hc1 & Hp1 & Hn1 & Hh1) & _ & _ & head & Hsup).
  rewrite Hd in Hd1. injection Hd1 as <-.
  eapply (stable (P := final_block (key_of receipt) e) h w0); [|reflexivity|done].
  split; [by exists receipt, head|]. exists l, e1. split_and!; [done..|]. split_and!; [done|lia|done].
Qed.

Lemma distinct_blocks_key seen txs key receipt : (key, receipt) ∈ distinct_blocks seen txs -> key = key_of receipt.
Proof.
  revert seen. induction txs as [|tx txs IH]; intros seen; cbn; [set_solver|].
  destruct (_ || _); [apply IH|]. intros [[= -> ->]|Hin]%elem_of_cons; [done|]. by eapply IH.
Qed.
Lemma reorder_elem {A} (x : A) order l : x ∈ reorder order l <-> x ∈ l.
Proof.
  revert order. induction l as [|a l IH]; intros order; cbn; [done|].
  rewrite elem_of_app, !elem_of_cons, <- (IH (tail order)).
  rewrite <- (take_drop (hd 0 order) (reorder (tail order) l)) at 3. set_solver.
Qed.

Definition assessed (l : list (block_key * result EngineError FinalityAssessment)) : assertion :=
  fun h w => ∀ kr, kr ∈ l -> final_assessment kr.1 kr.2 h w.
#[local] Instance stable_assessed l : Stable (assessed l).
Proof. apply stable_all. intros kr. exact (stable_final_assessment kr.1 kr.2). Qed.

Lemma safe_assess_blocks txs : wspec inv (assess_blocks txs) assessed.
Proof.
  eapply wspec_bind; [apply _|apply safe_quiet; [done|by apply quiet_call; [apply worker_rule_free|]]|]. intros order.
  eapply safe_pre; [by intros h w [Hi _]; exact Hi|].
  eapply (wspec_bind _ _ _ _ _ _ _ _ _ assessed); [apply _| |].
  - eapply wspec_post; [apply (wspec_buffered _ _ _ _ _ _ inv _ _ (fun _ kr => final_assessment kr.1 kr.2))|].
    + intros h w. by apply worker_rule_free.
    + intros [key receipt] Hin%reorder_elem%distinct_blocks_key.
      eapply wspec_bind; [apply _|by apply safe_assess|]. intros r. apply wspec_ret; [apply _|]. by intros h w [_ ?].
    + intros results h w Hall kr Hkr. apply list_elem_of_lookup in Hkr as [n Hn].
      destruct (Forall2_lookup_r _ _ _ _ _ Hall Hn) as (x & _ & Hx). exact Hx.
  - intros results. eapply wspec_bind; [apply _|apply safe_quiet; [by intros h w [? _]|by apply quiet_call; [apply worker_rule_free|]]|].
    intros order'. apply wspec_ret; [apply _|]. intros h w [[_ Ha] _] kr Hkr%reorder_elem. by apply Ha.
Qed.

Lemma assessment_of_elem {A} key (l : list (block_key * A)) a : assessment_of key l = Some a -> (key, a) ∈ l.
Proof.
  induction l as [|[k x] l IH]; cbn; [done|]. case_bool_decide as Hk; [intros [= ->]; subst; by left|].
  intros Ha. right. by apply IH.
Qed.

Definition confirmed_final (o : option ConfirmedTransaction) : assertion :=
  fun _ w => match o with Some c => final_and_terminal c w | None => True end.
#[local] Instance stable_confirmed_final o : Stable (confirmed_final o).
Proof. destruct o as [c|]; [apply stable_final|apply stable_pure]. Qed.

Definition terminal_in (kind i hash : string) : assertion :=
  fun _ w => ∃ l, w_disk w = LedgerFile l /\ ledger_ok l /\ settled_attempt kind i wk_chain_id hash l.
#[local] Instance stable_terminal_in kind i hash : Stable (terminal_in kind i hash).
Proof.
  intros h w (l & Hd & Hok & Hs) h' w' _ Hl. destruct (later_ledger _ _ _ Hl Hd Hok) as (l' & ? & ? & ?).
  exists l'. split_and!; [done..|]. by eapply settled_attempt_evolves.
Qed.

Lemma safe_record_terminal kind i hash succeeded ev P `{!Stable P} :
  kind = "eoa" \/ kind = "eoa_noop" -> (∀ h w, P h w -> inv h w) ->
  wspec P (finality_step (record_evm_terminal journal kind i wk_chain_id hash succeeded ev))
    (wok (fun _ => terminal_in kind i hash)).
Proof.
  intros Hkind HP. rewrite journalled.
  eapply wspec_post; [apply wspec_journal; [done|exact HP|apply as_eoa_spec, record_evm_terminal_spec, Hkind]|].
  intros [[]|] h w; [|done]. intros (w0 & (l1 & (Hd & _) & Hs) & (l & Hd' & Hok & _) & Hl).
  rewrite Hd in Hd'. injection Hd' as <-. eapply (stable (P := terminal_in kind i hash) h w0); [|reflexivity|done].
  by exists l1.
Qed.

(** The evidence of a block is evidence for every receipt in it. *)
Lemma supported_same_block receipt receipt' e head :
  key_of receipt = key_of receipt' -> supported ok_turn wk_chain (receipt_view receipt') e head ->
  supported ok_turn wk_chain (receipt_view receipt) e head.
Proof. unfold key_of. intros [= Hn Hh] [[Hb1 Hb2] ? ? ? ? ? ? ?]. split; try done. cbn in *. by rewrite Hn, Hh. Qed.

Lemma safe_confirm_one l tx :
  wspec (fun h w => inv h w /\ assessed l h w) (confirm_one l tx) (wok confirmed_final).
Proof.
  unfold confirm_one. cbv zeta. destruct (negb _); [by apply wspec_ret; [apply _|]|].
  destruct (assessment_of (key_of (rr_receipt tx)) l) as [[[c| |e]|]|] eqn:Ha; try by apply wspec_ret; [apply _|].
  destruct (journal_identity (rr_transaction_id tx) (rr_nonce tx)) as [kind id] eqn:Hid.
  eapply wspec_bind; [apply _|apply safe_calm; [by intros h w [? _]|auto with calm]|].
  intros [[]|]; [|by apply wspec_ret; [apply _|]].
  eapply wspec_try; [apply _|apply safe_record_terminal; [apply _| |by intros h w [[? _] _]]|].
  - unfold journal_identity in Hid. destruct (is_noop_id _); injection Hid as <- _; [by right|by left].
  - intros []. apply wspec_ret; [apply _|]. intros h w [[[_ Has] _] (l1 & Hd & Hok & Hs)].
    destruct (Has _ (assessment_of_elem _ _ _ Ha)) as ((receipt & head & Hkey & Hsup) & l2 & e' & Hd2 & _ & Hc & Hk).
    rewrite Hd in Hd2. injection Hd2 as <-. split.
    + exists head. by eapply supported_same_block.
    + unfold settled_in_ledger. cbn. rewrite Hid. by exists l1, e'.
Qed.

Lemma safe_confirm_all l txs :
  wspec (fun h w => inv h w /\ assessed l h w) (confirm_all l txs)
    (wok (fun cs _ w => Forall (fun c => final_and_terminal c w) cs)).
Proof.
  induction txs as [|tx txs IH]; cbn [confirm_all]; [apply wspec_ret; [apply _|]; by constructor|].
  eapply wspec_try; [apply _|apply safe_confirm_one|]. intros o.
  eapply wspec_try; [apply _|eapply safe_pre; [|exact IH]; by intros h w [? _]|]. intros rest.
  apply wspec_ret; [apply _|]. intros h w [[_ Ho] Hrest]. destruct o as [c|]; [by constructor|done].
Qed.

Lemma safe_settle_page waiting counts : wspec inv (settle_page waiting counts) any.
Proof.
  apply safe_bind; [apply _|apply safe_quiet; [done|apply quiet_fetch_receipts, worker_rule_free]|]. intros confirmed.
  eapply wspec_bind; [apply _|apply safe_assess_blocks|]. intros assessments.
  eapply safe_try; [apply _|apply safe_confirm_all|]. intros [|c cs]; [apply safe_done|].
  apply safe_try_any; [apply _| |].
  - eapply wspec_post; [apply safe_store_act; [apply _|]|done]. by intros h w [_ Hf].
  - intros report. apply safe_bind; [apply _| |intros ?; apply safe_done].
    apply safe_quiet; [by intros h w [[? _] _]|apply quiet_refresh_health, worker_rule_free].
Qed.

Lemma safe_poll_finality counts : wspec inv (poll_finality counts) any.
Proof.
  apply safe_try_any; [apply _|apply safe_quiet; [done|apply quiet_worker_health, worker_rule_free]|]. intros health.
  apply safe_bind; [apply _| |]; [apply safe_quiet; [done|by apply quiet_call; [apply worker_rule_free|]]|]. intros now.
  destruct (_ <? _)%N; [apply safe_done|]. cbv zeta. apply safe_try_any; [apply _|by apply safe_act|]. intros _.
  apply safe_try_any; [apply _|apply safe_calm; [done|auto with calm]|]. intros _.
  apply safe_bind; [apply _|apply safe_quiet; [done|apply quiet_receipt_candidate_count, worker_rule_free]|]. intros candidates.
  apply safe_pure; [apply _|]. intros count _. apply safe_try_any; [apply _|by apply safe_act|]. intros [waiting offset].
  apply safe_try_any; [apply _|by apply safe_act|]. intros _. destruct waiting; [apply safe_done|apply safe_settle_page].
Qed.

Lemma safe_confirm_flow : wspec inv confirm_flow any.
Proof.
  apply safe_bind; [apply _|apply safe_quiet; [done|apply quiet_get_transaction_counts, worker_rule_free]|].
  intros [counts|e]; [|apply safe_done].
  apply safe_try_any; [apply _|apply safe_quiet; [done|apply quiet_synchronize_nonces, worker_rule_free]|]. intros cached.
  apply safe_try_any; [apply _|by apply safe_act|]. intros submitted.
  apply safe_try_any; [apply _|apply safe_replay_gap|]. intros _.
  apply safe_try_any; [apply _|destruct (_ <=? _)%N; [apply safe_bump_if_stalled|apply safe_done]|]. intros _.
  apply safe_try_any; [apply _|destruct (_ <? _)%N; [by apply safe_act|apply safe_done]|]. intros _.
  apply safe_poll_finality.
Qed.

(** ** The cycle *)

Lemma safe_or_handle {A} (p : wprog (wresult A)) : wspec inv p any -> wspec inv (or_handle p) any.
Proof. intros Hp. apply safe_bind; [apply _|done|]. intros r. apply safe_done. Qed.

Lemma safe_workflow : wspec inv execute_main_workflow any.
Proof.
  apply safe_try_any; [apply _|apply safe_or_handle, safe_quiet; [done|apply quiet_cull, worker_rule_free]|]. intros _.
  apply safe_try_any; [apply _|apply safe_or_handle, safe_recover_borrowed|]. intros recovered.
  apply safe_try_any; [apply _|apply safe_or_handle, safe_confirm_flow|]. intros report.
  apply safe_try_any; [apply _|apply safe_or_handle, safe_send_flow|]. intros sent.
  apply safe_try_any; [apply _|by apply safe_or_handle, safe_act|]. intros counts. apply safe_done.
Qed.
End Flows.
