(* ===== verification/WorkerClaims.v ===== *)
(** The EOA worker, end to end: what every run of its job does, whatever the store, the
    chain, lost replies, and the other workers of the process do. *)

From Stdlib Require Import String Ascii NArith ZArith Lia.
From stdpp Require Import base gmap strings option list fin_maps relations.
From S2P Require Import Prelude Json JsonValue Redis RedisProg Errors FinalityTypes Fees.
From S2P Require Import RecoveryLedger RecoveryChecks EngineProg RecoveryJournal RecoveryOps.
From S2P Require Import RecoveryOffline RecoverySpec RecoveryKeeps RecoveryTxns.
From S2P Require Import EoaKeys EoaAtomic EoaStore EoaPending EoaBorrowed EoaSubmitted EoaOps.
From S2P Require Import RecoveryGate RecoveryOpSpecs RecoveryLife RecoveryClaims.
From S2P Require Import Finality FinalityClaims QueueTypes Webhook EoaTypes EoaErrors ExecRecovery.
From S2P Require Import WorkerProg WorkerBuild WorkerSend WorkerGap WorkerConfirm WorkerCycle.
From S2P Require Import WorkerLogic WorkerQuiet WorkerPrepare WorkerSafety WorkerDispatch.

Section Claims.
Context `{WorkerWire} `{!Json EoaTransactionRequest, !Json BorrowedTransactionData,
  !Json TransactionAttempt, !Json EoaHealth, !Json TransactionReceipt}
  `{!Json (WebhookNotificationEnvelope EoaEventPayload), !Json WebhookJobPayload}.
Context `{Primitives} `{!Json Value, !Json FinalityEvidence, !Json GapReplayState}.
Context (ks : EoaExecutorStoreKeys) (worker_id wq : string).
Context (finality_json : FinalityEvidence -> string) (ttl : N).
Context `{!Process}.
#[local] Notation wrun := (wrun ks worker_id wq finality_json ttl).
#[local] Notation wspec := (wspec ks worker_id wq finality_json ttl).

(** ** The job keeps the rule *)

Section Job.
Context {FT : FairTurns}.
Context (self : EoaExecutorJobHandler) (data : EoaExecutorWorkerJobData) (chain : ChainView) (use_pending : bool).
Context (served : jh_chain_service self (jd_chain_id data) = Ok (chain, use_pending)).

(** The rule names the wallet and the chain, which do not depend on the delegation. *)
#[local] Instance plain_worker : Worker := worker_of self data chain use_pending false.

Lemma worker_rule_delegation minimal :
  worker_rule (H3 := worker_of self data chain use_pending minimal) ks = worker_rule ks.
Proof. reflexivity. Qed.

Lemma safe_process l0 : journal = true -> wspec (worker_rule ks) (inv l0) (process self data) any.
Proof.
  intros Hj. unfold process. rewrite served.
  apply safe_bind; [apply _| |]; [apply (safe_quiet _ _ _ _ _ l0); [done|by apply quiet_store; [apply worker_rule_free|]]|].
  intros [[]|e]; [|apply safe_done].
  apply safe_bind; [apply _| |]; [apply (safe_quiet _ _ _ _ _ l0); [done|by apply quiet_call; [apply worker_rule_free|]]|].
  intros delegated. cbv zeta. apply safe_bind; [apply _| |].
  - set (worker := worker_of self data chain use_pending _).
    pose proof (safe_workflow ks worker_id wq finality_json ttl (H4 := worker) Hj l0) as Hs.
    unfold worker in Hs at 1. rewrite worker_rule_delegation in Hs. exact Hs.
  - intros result. apply safe_bind; [apply _| |]; [|intros ?; apply safe_done].
    apply (safe_quiet _ _ _ _ _ l0); [done|by apply quiet_store; [apply worker_rule_free|]].
Qed.

Lemma job_trace ts w a w' tr l before d wd after :
  journal = true -> w_disk w = LedgerFile l -> ledger_ok l -> Forall fair ts ->
  wrun (process self data) ts w = (a, w', tr) -> tr = before ++ (d, wd) :: after ->
  worker_rule ks (doing_of d) (reverse (map fst before)) wd.
Proof.
  intros Hj Hd Hok Hts Hrun Htr. rewrite <- (app_nil_r (reverse _)).
  eapply (trace_ok_at (worker_rule ks) [] tr before d wd after); [|done].
  eapply (wsafe_run ks worker_id wq finality_json ttl (worker_rule ks)); [exact Hts| |exact Hrun].
  apply (safe_process l Hj). by exists l.
Qed.
End Job.

(** Without a chain the job makes no call. *)
Lemma unserved_trace self data ts w a w' tr e :
  jh_chain_service self (jd_chain_id data) = Err e -> wrun (process self data) ts w = (a, w', tr) -> tr = [].
Proof. unfold process. intros ->. cbn. destruct (next_wturn ts) as [t ts']. by intros [= _ _ <-]. Qed.

Lemma reserved_incl tx h h' : (∀ d, d ∈ h -> d ∈ h') -> reserved tx h -> reserved tx h'.
Proof. intros Hh Hr. unfold reserved in *. naive_solver. Qed.

(** Of the turns only this much is asked where nothing else is said. *)
#[local] Existing Instance fair_turns.

(** ** Broadcasts *)

(** C2: Every transaction the worker broadcasts was reserved and authorised before.  In
    any run of the job, whatever the store, the chain and the other workers answer or
    do, at the moment an envelope is handed to the RPC node the store has the transaction
    in borrowed state or recorded as a replacement or NOOP earlier in this run, and the
    ledger recorded an authorization of exactly these bytes: for an admitted request whose
    fields they carry, or as the NOOP of this wallet and nonce. *)
Theorem worker_broadcasts_authorized self data ts w a w' tr l before tx r wd after :
  journal = true -> w_disk w = LedgerFile l -> ledger_ok l -> Forall fair ts ->
  wrun (process self data) ts w = (a, w', tr) ->
  tr = before ++ (DidCall (SendTxEnvelope tx) r, wd) :: after ->
  granted (jd_chain_id data) (jd_eoa_address data) tx wd /\ reserved tx (map fst before).
Proof.
  intros Hj Hd Hok Hts Hrun Htr.
  destruct (jh_chain_service self (jd_chain_id data)) as [[chain use_pending]|e] eqn:Hs.
  - destruct (job_trace _ _ _ _ Hs _ _ _ _ _ _ _ _ _ _ Hj Hd Hok Hts Hrun Htr) as [Hg Hr]. split; [exact Hg|].
    eapply reserved_incl; [|exact Hr]. intros d. by rewrite elem_of_reverse.
  - rewrite (unserved_trace _ _ _ _ _ _ _ _ Hs Hrun) in Htr. by destruct before.
Qed.

Lemma submitted_record_incl nonce i h h' :
  (∀ d, d ∈ h -> d ∈ h') -> submitted_record ks nonce i h -> submitted_record ks nonce i h'.
Proof. intros Hh (rows & σ & member & rest & Hin & Hrest). exists rows, σ, member, rest. auto. Qed.

(** C16: The gap replay only repeats authorised wires of submitted transactions.  In any
    run of the job, raw bytes handed to the RPC node are the encoding of a transaction for
    whose nonce the run has read a record of the submitted set; the record is for that
    nonce and not a NOOP, and the ledger recorded an authorization of exactly these bytes
    for the client's transaction that the record names. *)
Theorem worker_replays_authorized self data ts w a w' tr l before wire r wd after :
  journal = true -> w_disk w = LedgerFile l -> ledger_ok l -> Forall fair ts ->
  wrun (process self data) ts w = (a, w', tr) ->
  tr = before ++ (DidCall (SendRawTransaction wire) r, wd) :: after ->
  ∃ tx i, encoded_2718 tx = wire /\ submitted_record ks (tx_nonce tx) i (map fst before) /\ granted_for i tx wd.
Proof.
  intros Hj Hd Hok Hts Hrun Htr.
  destruct (jh_chain_service self (jd_chain_id data)) as [[chain use_pending]|e] eqn:Hs.
  - destruct (job_trace _ _ _ _ Hs _ _ _ _ _ _ _ _ _ _ Hj Hd Hok Hts Hrun Htr) as (tx & i & Hw & Hg & Hr).
    exists tx, i. split_and!; [exact Hw| |exact Hg]. eapply submitted_record_incl; [|exact Hr].
    intros d. by rewrite elem_of_reverse.
  - rewrite (unserved_trace _ _ _ _ _ _ _ _ Hs Hrun) in Htr. by destruct before.
Qed.

(** C4: The worker settles only what is final and terminal.  Against a provider that
    follows one chain, with calls failing or unanswered at any point: whenever a run of
    the job removes submitted transactions as confirmed, each of them has a receipt whose
    block is the canonical block of its height; the checkpoint of its evidence is
    canonical too, not below that block, and finalized, or under a depth policy buried by
    at least that many blocks; the ledger keeps a checkpoint of the chain at or above it,
    and has the transaction (or the wallet's NOOP) terminal, with a recorded attempt of
    exactly the receipt's hash. *)
Theorem worker_settles_final self data chain use_pending canon final tip ts w a w' tr l before confirmed counts r wd after :
  jh_chain_service self (jd_chain_id data) = Ok (chain, use_pending) ->
  journal = true -> w_disk w = LedgerFile l -> ledger_ok l ->
  Forall (fair (FT := honest_turns canon final tip)) ts ->
  wrun (process self data) ts w = (a, w', tr) ->
  tr = before ++ (DidStore (OpCleanSubmitted confirmed counts) r, wd) :: after ->
  Forall (fun c => receipt_block_number (ct_receipt c) = Some (fe_block_number (ct_finality c)) /\
    receipt_block_hash (ct_receipt c) = Some (fe_block_hash (ct_finality c)) /\
    fe_policy (ct_finality c) = ch_finality_policy chain /\
    final_on canon final tip (ch_finality_policy chain) (ct_finality c) /\
    settled_in_ledger (H3 := worker_of self data chain use_pending false) c wd) confirmed.
Proof.
  intros Hs Hj Hd Hok Hts Hrun Htr.
  eapply Forall_impl; [exact (job_trace _ _ _ _ Hs _ _ _ _ _ _ _ _ _ _ Hj Hd Hok Hts Hrun Htr)|].
  intros c [[head Hf] Hset]. split_and!; [apply Hf..| |exact Hset].
  eapply (supported_final _ canon final tip); [|exact Hf]. by intros t [Ht _].
Qed.

(** C14: New nonces go to the oldest requests, in order, without gaps.  Whenever a run of
    the job reserves new nonces, the transactions are the first ones of a list of pending
    requests read earlier together with the optimistic nonce, and their nonces are that
    nonce and its successors; a request that could not be prepared ends the batch. *)
Theorem worker_allocates_in_order self data ts w a w' tr l before txs r wd after :
  journal = true -> w_disk w = LedgerFile l -> ledger_ok l -> Forall fair ts -> signing_keeps_nonce ->
  wrun (process self data) ts w = (a, w', tr) ->
  tr = before ++ (DidStore (OpMoveIncremented txs) r, wd) :: after ->
  ∃ limit pending n, DidStore (OpPeekPendingWithNonce limit) (Ok (pending, n)) ∈ map fst before /\
    map bd_nonce txs = imap (fun i _ => u64_wrap (n + N.of_nat i)) txs /\
    map bd_transaction_id txs `prefix_of` map pt_transaction_id pending.
Proof.
  intros Hj Hd Hok Hts Hlaw Hrun Htr.
  destruct (jh_chain_service self (jd_chain_id data)) as [[chain use_pending]|e] eqn:Hs.
  - destruct (job_trace _ _ _ _ Hs _ _ _ _ _ _ _ _ _ _ Hj Hd Hok Hts Hrun Htr Hlaw) as (limit & pending & n & Hr & Hrest).
    exists limit, pending, n. split; [by rewrite elem_of_reverse in Hr|exact Hrest].
  - rewrite (unserved_trace _ _ _ _ _ _ _ _ Hs Hrun) in Htr. by destruct before.
Qed.

(** ** Dispatch *)

Section Dispatch.
Context `{!Worker}.
(** Nothing is asked of the calls. *)
#[local] Notation no_rule := (fun (_ : doing) (_ : history) (_ : world) => True).

(** The result of one transaction: what the node answered when it was sent. *)
Definition sent_result (transactions : list BorrowedTransaction) (i : nat) (r : option SubmissionResult) : assertion :=
  fun h _ => ∀ b, transactions !! i = Some b ->
    ∃ answer now, r = Some (from_send_result now b answer) /\ DidCall (SendTxEnvelope (tx_of b)) answer ∈ h.
#[local] Instance stable_sent_result transactions i r : Stable (sent_result transactions i r).
Proof. intros h w Hs h' w' [k ->] _ b Hb. destruct (Hs b Hb) as (answer & now & -> & Hin). exists answer, now. set_solver. Qed.

Lemma broadcast_spec l b :
  wspec no_rule (inv l) (act* r := broadcast_borrowed b in WRet (Some r))
    (fun r h _ => ∃ answer now, r = Some (from_send_result now b answer) /\ DidCall (SendTxEnvelope (tx_of b)) answer ∈ h).
Proof.
  unfold broadcast_borrowed. eapply wspec_bind; [apply _|eapply (wspec_bind _ _ _ _ _ _ (inv l) _ _ _
    (fun r h _ => ∃ answer now, r = from_send_result now b answer /\ DidCall (SendTxEnvelope (tx_of b)) answer ∈ h))|].
  - by apply wspec_call; [apply _|].
  - intros answer. eapply wspec_bind; [apply _|by apply wspec_call; [apply _|]|]. intros now.
    apply wspec_ret; [apply _|]. intros h w [[_ Ha] _]. by exists answer, now.
  - intros r. apply wspec_ret; [apply _|]. intros h w [_ (answer & now & -> & Hin)]. by exists answer, now.
Qed.

Lemma omap_id_lookup {A} (rs : list (option A)) i r :
  (∀ j, j < length rs -> ∃ x, rs !! j = Some (Some x)) -> omap id rs !! i = Some r -> rs !! i = Some (Some r).
Proof.
  revert i. induction rs as [|o rs IH]; intros i Hall; [done|]. destruct (Hall 0) as [x [= ->]]; [cbn; lia|]. cbn.
  destruct i as [|i]; cbn; [by intros [= ->]|]. apply IH. intros j Hj. apply (Hall (S j)). cbn. lia.
Qed.
Lemma omap_id_length {A} (rs : list (option A)) :
  (∀ j, j < length rs -> ∃ x, rs !! j = Some (Some x)) -> length (omap id rs) = length rs.
Proof.
  induction rs as [|o rs IH]; intros Hall; [done|]. destruct (Hall 0) as [x [= ->]]; [cbn; lia|]. cbn. f_equal.
  apply IH. intros j Hj. apply (Hall (S j)). cbn. lia.
Qed.

Lemma dispatch_spec transactions l :
  wspec no_rule (inv l) (dispatch_reserved_transactions transactions) (wok (fun rs h w =>
    length rs = length transactions /\ ∀ i b r, transactions !! i = Some b -> rs !! i = Some r ->
      ∃ answer now, r = from_send_result now b answer /\ DidCall (SendTxEnvelope (tx_of b)) answer ∈ h)).
Proof.
  eapply wspec_try; [apply _|apply (authorize_then_dispatch_spec _ _ _ _ _ _ (fun _ _ => I) _ _ _ _ _ _
    (authorize_eoa_within transactions) (broadcast_within transactions) (inv l) (fun _ _ _ => True) (sent_result transactions))|].
  - intros i. unfold at_index. destruct (transactions !! i) as [b|]; [|by apply wspec_ret; [apply _|]].
    assert (∀ d h w, harmless d -> no_rule d h w) as free by done.
    eapply wspec_post; [apply (wspec_quiet _ _ _ _ _ _ _ l); [done|]|by intros [[]|?]]. unfold authorize_while_owned, authorize_eoa, store_act. quiet_steps.
  - intros i. unfold at_index, sent_result. destruct (transactions !! i) as [b|] eqn:Hb.
    + eapply wspec_conseq; [| |apply broadcast_spec]; [by intros h w [? _]|]. intros r h w Hr b' [= <-]. exact Hr.
    + apply wspec_ret; [apply _|]. done.
  - lia.
  - intros rs. apply wspec_ret; [apply _|]. intros h w [_ [Hlen Hall]].
    assert (∀ j, j < length rs -> ∃ x, rs !! j = Some (Some x)) as Hsome.
    { intros j Hj. destruct (lookup_lt_is_Some_2 _ _ Hj) as [o Ho]. destruct (lookup_lt_is_Some_2 transactions j) as [b Hb]; [lia|].
      destruct (Hall (j, o) Ho b Hb) as (answer & now & Heq & _). cbn in Heq. rewrite Ho, Heq. eauto. }
    split; [rewrite omap_id_length by done; done|]. intros i b r Hb Hr%omap_id_lookup; [|done].
    destruct (Hall (i, Some r) Hr b Hb) as (answer & now & [= ->] & Hin). by exists answer, now.
Qed.

(** C15: A dispatched batch is complete and in order.  However authorizations and sends
    interleave, the dispatch of reserved transactions ends, and when it succeeds it has
    exactly one result per transaction, in their order, and each result is what the node
    answered when that very transaction was sent: accepted, or uncertain. *)
Theorem dispatch_complete transactions ts w results w' tr l :
  w_disk w = LedgerFile l -> ledger_ok l -> Forall fair ts ->
  wrun (dispatch_reserved_transactions transactions) ts w = (Ok results, w', tr) ->
  length results = length transactions /\
  ∀ i b r, transactions !! i = Some b -> results !! i = Some r ->
    ∃ answer now, r = from_send_result now b answer /\ DidCall (SendTxEnvelope (tx_of b)) answer ∈ map fst tr.
Proof.
  intros Hd Hok Hts Hrun.
  destruct (wsafe_run _ _ _ _ _ _ _ _ [] _ _ _ _ _ Hts (dispatch_spec transactions l [] w (ex_intro _ l (conj Hd (conj Hok (reflexivity l))))) Hrun)
    as [[Hlen Hall] _].
  split; [done|]. intros i b r Hb Hr. destruct (Hall i b r Hb Hr) as (answer & now & Heq & Hin).
  exists answer, now. split; [done|]. by rewrite app_nil_r, elem_of_reverse in Hin.
Qed.
End Dispatch.

(** ** Preparation *)

(** C36: What is handed to the signer is well formed.  A transaction is only built from a
    request that carries the client's sender, recipient, value, data and chain and the
    assigned nonce, has gas (the client's limit if there is one) and complete fees, keeps
    every fee the client fixed, and never pays a priority above the total fee, whatever
    the node estimated. *)
Theorem prepared_request_well_formed `{!Worker} request nonce ts w t w' tr :
  wrun (build_typed_transaction request nonce) ts w = (Ok t, w', tr) ->
  ∃ r, request_wf request nonce r /\ build_typed_tx r = Ok t.
Proof.
  intros Hrun. exact (yields_run _ _ _ _ _ _ (yok (fun t => ∃ r, request_wf request nonce r /\ build_typed_tx r = Ok t))
    _ _ _ _ _ (build_typed_transaction_yields request nonce) Hrun).
Qed.

(** ** The lock *)







End Claims.
