(* ===== verification/WorkerWitness.v ===== *)
(** The worker's job on concrete wallets: a send, a gap replay and a settlement. *)

From Stdlib Require Import String Ascii NArith ZArith Lia.
From stdpp Require Import base gmap strings option list fin_maps relations countable.
From S2P Require Import Prelude Json JsonValue Redis RedisProg Errors FinalityTypes Fees.
From S2P Require Import RecoveryLedger RecoveryChecks EngineProg RecoveryJournal RecoveryOps.
From S2P Require Import RecoveryOffline RecoverySpec RecoveryWitness.
From S2P Require Import EoaKeys EoaAtomic EoaStore EoaPending EoaBorrowed EoaSubmitted EoaOps.
From S2P Require Import RecoveryGate RecoveryLife RecoveryClaims Concrete ExecWitness.
From S2P Require Import Finality FinalityClaims QueueTypes Webhook EoaTypes EoaErrors ExecRecovery.
From S2P Require Import WorkerProg WorkerBuild WorkerSend WorkerGap WorkerConfirm WorkerCycle.
From S2P Require Import WorkerLogic WorkerQuiet WorkerPrepare WorkerSafety WorkerDispatch WorkerClaims.

(** ** A concrete library *)

(** Transactions are their nonce; the hash, and the bytes, are its text. *)
Definition wire_of (nonce : N) : string := "h" +:+ u64_to_string nonce.
#[export] Instance concrete_worker_wire : WorkerWire := {|
  TxRest := N;
  type_data _ := Legacy None;
  build_typed_tx r := match ar_nonce r with Some n => Ok (TxEip1559 10 1 n) | None => Err "nonce" end;
  typed_to_request t := mkAlloyRequest None None None None None (Some (tx_rest t)) None None None None None;
  WorkerProg.Signature := unit;
  WorkerProg.parse_signature _ := Ok tt;
  into_signed t _ := (tx_rest t, wire_of (tx_rest t));
  with_kms_cache c := c;
  as_revert_data _ _ _ := None;
  decode_2718 s := if decide (s = "h5") then Ok ((5%N, "h5"), "") else Err "bytes";
  hex_decode s := Ok s;
  parse_b256 s := Some s;
  value_to_b256 v := match as_str v with Some s => Ok s | None => Err "hash" end;
  value_to_request v := match get_field v "transactionId" ≫= as_str with
    | Some id => Ok (mkRequest id 1 wallet (Some wallet) 0 "" None [] tt tt None)
    | None => Err "request"
    end;
  receipt_eip658 r := Some r.2;
  receipt_to_json _ := None;
  receipt_debug _ := "receipt";
  worker_error _ := "error"
|}.
#[export] Instance concrete_process : Process := mkProcess true (fun _ => "") (fun _ => "") (fun _ => "") (fun _ => "") (fun _ => "") "".
#[export] Instance gap_state_eq_dec : EqDecision GapReplayState.
Proof. solve_decision. Defined.
#[export] Instance gap_state_countable : Countable GapReplayState.
Proof.
  refine (inj_countable' (fun s => (gr_through_nonce s, gr_latest_observed s, gr_next_at s))
    (fun '(a, b, c) => mkGapState a b c) _). by intros [].
Defined.
#[export] Instance gap_state_json : Json GapReplayState := countable_json.
#[export] Instance receipt_json : Json TransactionReceipt := (countable_json : Json (string * option N * option string * bool)).

Lemma concrete_signing_keeps_nonce : signing_keeps_nonce.
Proof. intros r t s n. cbn. intros Hb Hn. rewrite Hn in Hb. by injection Hb as <-. Qed.

(** ** A wallet *)

Definition ks1 : EoaExecutorStoreKeys := mkKeys wallet 1 None.
Definition handler1 : EoaExecutorJobHandler := mkJobHandler (fun _ => Ok (chain1, false)) 10 4.
Definition job1 : EoaExecutorWorkerJobData := mkJobData wallet 1 tt.
Definition receipt5 : TransactionReceipt := ("h5", Some 12%N, Some (canon 12), true).

(** A node with [count] consumed nonces, at time [now]. *)
Definition node (now count : N) (B : Type) (q : outside B) : B :=
  match q with
  | Clock => now
  | Scheduled => 0
  | Completed => []
  | GetBalance _ => Ok 100%N
  | GetTransactionCount _ _ | GetTransactionCountAt _ _ => Ok count
  | GetBlockNumber => Ok 20%N
  | GetTransactionReceipt _ => Ok (Some receipt5)
  | EstimateGas _ => Ok 21000%N
  | EstimateEip1559Fees => Ok (10%N, 1%N)
  | GetGasPrice => Ok 10%N
  | SendTxEnvelope tx => Ok (tx_hash tx)
  | SendRawTransaction wire => Ok wire
  | SignTransaction _ _ _ _ => Ok "signature"
  | IsMinimalAccount _ => Ok false
  end.
Definition turns (now count : N) : list wturn :=
  replicate 80 (mkWturn id [] (fun _ _ => "u") provider_turns (node now count)).
Lemma turns_fair now count : Forall (fair (FT := fair_turns)) (turns now count).
Proof. apply Forall_replicate. split; [by intros w|]. apply Forall_replicate. by intros w. Qed.
Lemma turns_honest now count : Forall (fair (FT := honest_turns canon 15 20)) (turns now count).
Proof.
  apply Forall_replicate. split; [by intros w|]. eapply Forall_impl; [|exact provider_alone].
  intros t [Ht Ho]. split; [exact Ht|]. intros w. apply later_same_disk, Ho.
Qed.

(** Health of a funded wallet that moved at time 1000. *)
Definition health1 (polled : N) : EoaHealth := mkHealth 100 0 1000 1000 1000 [] polled 0.
Definition store_cmds (polled : N) (cached : string) : pipeline :=
  [ SET (last_transaction_count_key_name ks1) cached;
    SET (eoa_health_key_name ks1) (default "" (to_json (health1 polled)));
    HSET (transaction_data_key_name ks1 "t1") "user_request" (default "" (to_json wire_request));
    HSET (transaction_data_key_name ks1 "t1") "status" "pending" ].
Definition with_store (p : pipeline) (w : world) : world := set_data (prun p (data_of w)) w.

Definition go (now count : N) (w : world) := wrun ks1 "w" "webhook" (fun _ => "") 60 (process handler1 job1) (turns now count) w.

(** *** One pending request *)

Definition w_send : world :=
  with_store (store_cmds 1000 "5" ++ [ SET (optimistic_transaction_count_key_name ks1) "5";
    ZADD (pending_transactions_zset_name ks1) [(10%N, "t1")] ]) w_wire.
(** *** One submitted transaction *)

Definition w_sent : world :=
  next (OpBroadcast "eoa" "t1" (eoa_replay_key 1 5 wallet) (attempt_value 1 wallet wire_tx)) w_wire.
Definition submitted_cmds : pipeline :=
  [ SET (optimistic_transaction_count_key_name ks1) "6";
    ZADD (submitted_transactions_zset_name ks1) [(5%N, "h5:t1:10:20")];
    SET (transaction_hash_to_id_key_name ks1 "h5") "t1" ].
(** The chain fell back below the cached count; and the chain confirmed it. *)
Definition w_gap : world := with_store (store_cmds 1000 "6" ++ submitted_cmds) w_sent.
Definition w_confirm : world := with_store (store_cmds 0 "5" ++ submitted_cmds) w_sent.

(** ** Finding a call in a run *)

Fixpoint first_call {X} (f : done -> option X) (tr : list (done * world)) : option X :=
  match tr with
  | [] => None
  | (d, _) :: tr' => match f d with Some x => Some x | None => first_call f tr' end
  end.
Lemma first_call_split {X} (f : done -> option X) tr x :
  first_call f tr = Some x -> ∃ before d wd after, tr = before ++ (d, wd) :: after /\ f d = Some x.
Proof.
  induction tr as [|[d wd] tr IH]; cbn; [done|]. destruct (f d) as [y|] eqn:Hf.
  - intros [= ->]. by exists [], d, wd, tr.
  - intros Hx. destruct (IH Hx) as (before & d' & wd' & after & -> & Hd). by exists ((d, wd) :: before), d', wd', after.
Qed.

Definition as_send (d : done) : option SignedTx := match d with DidCall (SendTxEnvelope tx) _ => Some tx | _ => None end.
Definition as_raw (d : done) : option string := match d with DidCall (SendRawTransaction wire) _ => Some wire | _ => None end.
Definition as_move (d : done) : option (list BorrowedTransactionData) :=
  match d with DidStore (OpMoveIncremented txs) _ => Some txs | _ => None end.
Definition as_clean (d : done) : option (list ConfirmedTransaction * TransactionCounts) :=
  match d with DidStore (OpCleanSubmitted l c) _ => Some (l, c) | _ => None end.
Lemma as_send_Some d tx : as_send d = Some tx -> ∃ r, d = DidCall (SendTxEnvelope tx) r.
Proof. destruct d as [B o b|B q b]; [done|]. destruct q; try done. intros [= <-]. by exists b. Qed.
Lemma as_raw_Some d wire : as_raw d = Some wire -> ∃ r, d = DidCall (SendRawTransaction wire) r.
Proof. destruct d as [B o b|B q b]; [done|]. destruct q; try done. intros [= <-]. by exists b. Qed.
Lemma as_move_Some d txs : as_move d = Some txs -> ∃ r, d = DidStore (OpMoveIncremented txs) r.
Proof. destruct d as [B o b|B q b]; [|done]. destruct o; try done. intros [= <-]. by exists b. Qed.
Lemma as_clean_Some d l c : as_clean d = Some (l, c) -> ∃ r, d = DidStore (OpCleanSubmitted l c) r.
Proof. destruct d as [B o b|B q b]; [|done]. destruct o; try done. intros [= <- <-]. by exists b. Qed.

Lemma triple_eta {A B C} (x : A * B * C) : x = (x.1.1, x.1.2, x.2).
Proof. by destruct x as [[? ?] ?]. Qed.
Lemma wire_life : rtc life w_start w_wire.
Proof. etrans; [exact start_init|apply next_life]. Qed.
Lemma wire_ok : ledger_ok (ledger_of w_wire).
Proof. apply reached_ok; [exact wire_life|by vm_compute]. Qed.
Lemma sent_ok : ledger_ok (ledger_of w_sent).
Proof. apply reached_ok; [etrans; [exact wire_life|apply next_life]|by vm_compute]. Qed.

(** ** Witnesses *)

Lemma worker_broadcasts_authorized_witness :
  ∃ before r wd after, (go 1500 5 w_send).2 = before ++ (DidCall (SendTxEnvelope wire_tx) r, wd) :: after /\
    granted 1 wallet wire_tx wd /\ reserved wire_tx (map fst before).
Proof.
  destruct (first_call_split as_send (go 1500 5 w_send).2 wire_tx) as (before & d & wd & after & Htr & Hd); [by vm_compute|].
  apply as_send_Some in Hd as [r ->]. exists before, r, wd, after. split; [exact Htr|].
  apply (worker_broadcasts_authorized ks1 "w" "webhook" (fun _ => "") 60 handler1 job1 (turns 1500 5) w_send
    (go 1500 5 w_send).1.1 (go 1500 5 w_send).1.2 (go 1500 5 w_send).2 (ledger_of w_wire) before wire_tx r wd after).
  - reflexivity.
  - by vm_compute.
  - exact wire_ok.
  - apply turns_fair.
  - unfold go. apply triple_eta.
  - exact Htr.
Defined.

Lemma worker_replays_authorized_witness :
  ∃ before wd tx i, encoded_2718 tx = "h5" /\
    submitted_record ks1 (tx_nonce tx) i (map fst (before : list (done * world))) /\
    granted_for i tx wd.
Proof.
  destruct (first_call_split as_raw (go 1500 5 w_gap).2 "h5") as (before & d & wd & after & Htr & Hd); [by vm_compute|].
  apply as_raw_Some in Hd as [r ->]. exists before, wd.
  apply (worker_replays_authorized ks1 "w" "webhook" (fun _ => "") 60 handler1 job1 (turns 1500 5) w_gap
    (go 1500 5 w_gap).1.1 (go 1500 5 w_gap).1.2 (go 1500 5 w_gap).2 (ledger_of w_sent) before "h5" r wd after).
  - reflexivity.
  - by vm_compute.
  - exact sent_ok.
  - apply turns_fair.
  - unfold go. apply triple_eta.
  - exact Htr.
Defined.

Definition confirmed5 : ConfirmedTransaction := mkConfirmed 5 "h5" "t1" receipt5 "receipt" evidence12.
Lemma worker_settles_final_witness :
  ∃ wd, Forall (fun c => receipt_block_number (ct_receipt c) = Some (fe_block_number (ct_finality c)) /\
    receipt_block_hash (ct_receipt c) = Some (fe_block_hash (ct_finality c)) /\
    fe_policy (ct_finality c) = Finalized /\ final_on canon 15 20 Finalized (ct_finality c) /\
    settled_in_ledger (H3 := worker_of handler1 job1 chain1 false false) c wd) [confirmed5].
Proof.
  destruct (first_call_split as_clean (go 9500 6 w_confirm).2 ([confirmed5], mkCounts 6 6))
    as (before & d & wd & after & Htr & Hd); [by vm_compute|].
  apply as_clean_Some in Hd as [r ->]. exists wd.
  apply (worker_settles_final ks1 "w" "webhook" (fun _ => "") 60 handler1 job1 chain1 false canon 15 20 (turns 9500 6) w_confirm
    (go 9500 6 w_confirm).1.1 (go 9500 6 w_confirm).1.2 (go 9500 6 w_confirm).2 (ledger_of w_sent)
    before [confirmed5] (mkCounts 6 6) r wd after).
  - reflexivity.
  - reflexivity.
  - by vm_compute.
  - exact sent_ok.
  - apply turns_honest.
  - unfold go. apply triple_eta.
  - exact Htr.
Defined.

Lemma worker_allocates_in_order_witness :
  ∃ before limit pending n, DidStore (OpPeekPendingWithNonce limit) (Ok (pending, n)) ∈ map fst (before : list (done * world)) /\
    [5%N] = imap (fun i _ => u64_wrap (n + N.of_nat i)) [tt] /\ ["t1"] `prefix_of` map pt_transaction_id pending.
Proof.
  destruct (first_call_split as_move (go 1500 5 w_send).2 [mkBorrowedData "t1" wire_tx 10 "h5" 1500])
    as (before & d & wd & after & Htr & Hd); [by vm_compute|].
  apply as_move_Some in Hd as [r ->]. exists before.
  apply (worker_allocates_in_order ks1 "w" "webhook" (fun _ => "") 60 handler1 job1 (turns 1500 5) w_send
    (go 1500 5 w_send).1.1 (go 1500 5 w_send).1.2 (go 1500 5 w_send).2 (ledger_of w_wire) before
    [mkBorrowedData "t1" wire_tx 10 "h5" 1500] r wd after).
  - reflexivity.
  - by vm_compute.
  - exact wire_ok.
  - apply turns_fair.
  - exact concrete_signing_keeps_nonce.
  - unfold go. apply triple_eta.
  - exact Htr.
Defined.


(** *** Parts of the job *)

#[export] Instance worker1 : Worker := worker_of handler1 job1 chain1 false false.
Definition w_owned : world := with_store [SET (eoa_lock_key_name ks1) "w"] w_wire.
Definition borrowed1 : BorrowedTransaction := mkBorrowed (mkBorrowedData "t1" wire_tx 10 "h5" 20) wire_request.
Definition dispatch1 := wrun ks1 "w" "webhook" (fun _ => "") 60 (dispatch_reserved_transactions [borrowed1]) (turns 1500 5) w_owned.
Lemma dispatch_complete_witness :
  let r := from_send_result 1500 borrowed1 (Ok "h5" : rpc_result string) in
  length [r] = length [borrowed1] /\
  ∃ answer now, r = from_send_result now borrowed1 answer /\ DidCall (SendTxEnvelope wire_tx) answer ∈ map fst dispatch1.2.
Proof.
  destruct (dispatch_complete ks1 "w" "webhook" (fun _ => "") 60 [borrowed1] (turns 1500 5) w_owned
    [from_send_result 1500 borrowed1 (Ok "h5" : rpc_result string)] dispatch1.1.2 dispatch1.2 (ledger_of w_wire)) as [Hlen Hall].
  - by vm_compute.
  - exact wire_ok.
  - apply turns_fair.
  - assert (dispatch1.1.1 = Ok [from_send_result 1500 borrowed1 (Ok "h5" : rpc_result string)]) as <- by by vm_compute.
    unfold dispatch1. apply triple_eta.
  - split; [exact Hlen|]. exact (Hall 0 _ _ eq_refl eq_refl).
Defined.

Definition typed5 : TypedTransaction (@TxRest _ _ concrete_worker_wire) := TxEip1559 10 1 (5%N : N).
Definition build1 := wrun ks1 "w" "webhook" (fun _ => "") 60 (build_typed_transaction wire_request 5) (turns 1500 5) w_wire.
Lemma prepared_request_well_formed_witness :
  ∃ r, request_wf wire_request 5 r /\ build_typed_tx r = Ok typed5.
Proof.
  apply (prepared_request_well_formed ks1 "w" "webhook" (fun _ => "") 60 wire_request 5 (turns 1500 5) w_wire
    typed5 build1.1.2 build1.2).
  assert (build1.1.1 = Ok typed5) as <- by by vm_compute.
  unfold build1. apply triple_eta.
Defined.
