(* ===== verification/Multilane.v ===== *)
(** The multilane job queue (twmq/src/multilane.rs): one list, one delayed set and one
    active hash per lane, polled lane by lane.  Each Lua script is one atomic function of
    the keyspace.  Where the source repeats a name of the single-lane queue, the version
    here has the prefix [ml_]. *)

From Stdlib Require Import String Ascii NArith Lia.
From stdpp Require Import base gmap strings list fin_maps.
From S2P Require Import Prelude Redis RedisProg Json QueueTypes Queue.

(** ** Key names *)

Section Keys.
Context (queue_id : string).

Definition lanes_zset_name : string := "twmq_multilane:" +:+ queue_id +:+ ":lanes".
Definition lane_pending_list_name (lane_id : string) : string :=
  "twmq_multilane:" +:+ queue_id +:+ ":lane:" +:+ lane_id +:+ ":pending".
Definition lane_delayed_zset_name (lane_id : string) : string :=
  "twmq_multilane:" +:+ queue_id +:+ ":lane:" +:+ lane_id +:+ ":delayed".
Definition lane_active_hash_name (lane_id : string) : string :=
  "twmq_multilane:" +:+ queue_id +:+ ":lane:" +:+ lane_id +:+ ":active".
Definition ml_success_list_name : string := "twmq_multilane:" +:+ queue_id +:+ ":success".
Definition ml_failed_list_name : string := "twmq_multilane:" +:+ queue_id +:+ ":failed".
Definition ml_job_data_hash_name : string := "twmq_multilane:" +:+ queue_id +:+ ":jobs:data".
Definition ml_job_meta_hash_name (job_id : string) : string :=
  "twmq_multilane:" +:+ queue_id +:+ ":job:" +:+ job_id +:+ ":meta".
Definition ml_job_errors_list_name (job_id : string) : string :=
  "twmq_multilane:" +:+ queue_id +:+ ":job:" +:+ job_id +:+ ":errors".
Definition ml_job_result_hash_name : string := "twmq_multilane:" +:+ queue_id +:+ ":jobs:result".
Definition ml_dedupe_set_name : string := "twmq_multilane:" +:+ queue_id +:+ ":dedup".
Definition ml_pending_cancellation_set_name : string :=
  "twmq_multilane:" +:+ queue_id +:+ ":pending_cancellations".
Definition ml_lease_key_name (job_id lease_token : string) : string :=
  "twmq_multilane:" +:+ queue_id +:+ ":job:" +:+ job_id +:+ ":lease:" +:+ lease_token.
End Keys.

Section Scripts.
Context (q : string).

(** [HGET job_meta 'lane_id'] *)
Definition lane_of (job_id : string) (σ : redis) : option string :=
  hash σ (ml_job_meta_hash_name q job_id) !! "lane_id".

Definition in_pending (lane_id job_id : string) (σ : redis) : bool :=
  has_id (lst σ (lane_pending_list_name q lane_id)) job_id.
Definition in_delayed (lane_id job_id : string) (σ : redis) : bool :=
  bool_decide (is_Some (zset σ (lane_delayed_zset_name q lane_id) !! job_id)).
Definition in_active (lane_id job_id : string) (σ : redis) : bool :=
  bool_decide (is_Some (hash σ (lane_active_hash_name q lane_id) !! job_id)).

(** ** Push *)

Definition push_to_lane_script (lane_id job_id job_data : string) (now delay : N) (reentry_position : string)
    (σ : redis) : redis * bool :=
  if bool_decide (job_id ∈ sett σ (ml_dedupe_set_name q)) then (σ, false)
  else
    let meta := ml_job_meta_hash_name q job_id in
    (prun ([ HSET (ml_job_data_hash_name q) job_id job_data;
             HSET meta "created_at" (u64_to_string now);
             HSET meta "attempts" "0";
             HSET meta "lane_id" lane_id;
             SADD (ml_dedupe_set_name q) job_id ] ++
           (if decide (is_Some (zset σ (lanes_zset_name q) !! lane_id)) then []
            else [ ZADD (lanes_zset_name q) [(0%N, lane_id)] ]) ++
           (if (0 <? delay)%N then
              [ HSET meta "reentry_position" reentry_position;
                ZADD (lane_delayed_zset_name q lane_id) [((now + delay)%N, job_id)] ]
            else [ RPUSH (lane_pending_list_name q lane_id) job_id ])) σ, true).

(** ** Cancel *)

Definition ml_cancel_script (job_id : string) (now : N) (σ : redis) : redis * CancelResult :=
  let to_failed :=
    [ LPUSH (ml_failed_list_name q) job_id;
      HSET (ml_job_meta_hash_name q job_id) "finished_at" (u64_to_string now) ] in
  match lane_of job_id σ with
  | None => (σ, CancelNotFound)
  | Some lane_id =>
      if in_pending lane_id job_id σ then
        (prun (LREM (lane_pending_list_name q lane_id) job_id :: to_failed) σ, CancelledImmediately)
      else if in_delayed lane_id job_id σ then
        (prun (ZREM (lane_delayed_zset_name q lane_id) [job_id] :: to_failed) σ, CancelledImmediately)
      else if in_active lane_id job_id σ then
        (wrun (SADD (ml_pending_cancellation_set_name q) job_id) σ, CancellationPending)
      else (σ, CancelNotFound)
  end.

(** ** Pop *)

Definition ml_lease_alive (σ : redis) (job_id : string) : bool :=
  match hash σ (ml_job_meta_hash_name q job_id) !! "lease_token" with
  | Some token => exists_key σ (ml_lease_key_name q job_id token)
  | None => false
  end.

(** An active job without its lease goes back to the head of its lane's list. *)
Definition ml_reclaim (lane_id job_id : string) (σ : redis) : redis :=
  let meta := ml_job_meta_hash_name q job_id in
  let had_token := bool_decide (is_Some (hash σ meta !! "lease_token")) in
  let σ1 := (hincr meta "attempts" σ).1 in
  prun ((if had_token then [ HDEL meta "lease_token" ] else []) ++
        [ HDEL (lane_active_hash_name q lane_id) job_id;
          LPUSH (lane_pending_list_name q lane_id) job_id ]) σ1.

Fixpoint cleanup_jobs (lane_id : string) (active_jobs : list string) (σ : redis) : redis * list (string * string) :=
  match active_jobs with
  | [] => (σ, [])
  | job_id :: rest =>
      if ml_lease_alive σ job_id then cleanup_jobs lane_id rest σ
      else
        let '(σ', timed_out) := cleanup_jobs lane_id rest (ml_reclaim lane_id job_id σ) in
        (σ', (lane_id, job_id) :: timed_out)
  end.

(** HGETALL and SMEMBERS reply in an unspecified order, here that of the maps. *)
Definition cleanup_lane_leases (lane_id : string) (σ : redis) : redis * list (string * string) :=
  cleanup_jobs lane_id (map_to_list (hash σ (lane_active_hash_name q lane_id))).*1 σ.

Definition ml_release_delayed (lane_id job_id : string) (σ : redis) : redis :=
  let meta := ml_job_meta_hash_name q job_id in
  let reentry_position := default "last" (hash σ meta !! "reentry_position") in
  prun [ ZREM (lane_delayed_zset_name q lane_id) [job_id];
         HDEL meta "reentry_position";
         if decide (reentry_position = "first") then LPUSH (lane_pending_list_name q lane_id) job_id
         else RPUSH (lane_pending_list_name q lane_id) job_id ] σ.

Definition process_delayed_jobs (lane_id : string) (now : N) (σ : redis) : redis :=
  foldl (fun σ job_id => ml_release_delayed lane_id job_id σ) σ
    (zrangebyscore (zset σ (lane_delayed_zset_name q lane_id)) 0 now).*1.

(** The last id of the lane's list, leased when it has data; an id without data is
    dropped and the lane counts as empty. *)
Definition pop_job_from_lane (now : N) (pop_id : string) (lease_seconds : N) (lane_id : string) (σ : redis)
    : redis * option popped_job :=
  match last (lst σ (lane_pending_list_name q lane_id)) with
  | None => (σ, None)
  | Some job_id =>
      let σ0 := wrun (RPOP (lane_pending_list_name q lane_id)) σ in
      match hash σ0 (ml_job_data_hash_name q) !! job_id with
      | None => (σ0, None)
      | Some job_data =>
          let meta := ml_job_meta_hash_name q job_id in
          let σ1 := wrun (HSET meta "processed_at" (u64_to_string now)) σ0 in
          let created_at := default (u64_to_string now) (hash σ1 meta !! "created_at") in
          let '(σ2, attempts) := hincr meta "attempts" σ1 in
          let lease_token := lease_token_of now job_id attempts pop_id in
          let lease_key := ml_lease_key_name q job_id lease_token in
          (prun [ SET lease_key "1";
                  EXPIRE lease_key lease_seconds;
                  HSET meta "lease_token" lease_token;
                  HSET (lane_active_hash_name q lane_id) job_id (u64_to_string attempts) ] σ2,
           Some (mkPopped job_id job_data (u64_to_string attempts) created_at (u64_to_string now) lease_token))
      end
  end.

(** Step 1: cancellations of jobs that are no longer active. *)
Definition ml_cancel_one (now : N) (lane_id job_id : string) (σ : redis) : redis * bool :=
  let finish := SREM (ml_pending_cancellation_set_name q) job_id in
  if negb (in_pending lane_id job_id σ) && negb (in_delayed lane_id job_id σ)
     && has_id (lst σ (ml_success_list_name q)) job_id
  then (wrun finish σ, false)
  else
    (prun [ LREM (lane_pending_list_name q lane_id) job_id;
            ZREM (lane_delayed_zset_name q lane_id) [job_id];
            LREM (ml_failed_list_name q) job_id;
            LPUSH (ml_failed_list_name q) job_id;
            HSET (ml_job_meta_hash_name q job_id) "finished_at" (u64_to_string now);
            finish ] σ, true).

Fixpoint ml_process_cancellations (now : N) (cancel_requests : list string) (σ : redis)
    : redis * (list (string * string) * list (string * string)) :=
  match cancel_requests with
  | [] => (σ, ([], []))
  | job_id :: rest =>
      match lane_of job_id σ with
      | None => ml_process_cancellations now rest σ
      | Some lane_id =>
          let '(σ1, timed_out) := cleanup_lane_leases lane_id σ in
          let '(σ2, cancelled) :=
            if in_active lane_id job_id σ1 then (σ1, false) else ml_cancel_one now lane_id job_id σ1 in
          let '(σ3, (cancelled_jobs, timed_out_jobs)) := ml_process_cancellations now rest σ2 in
          (σ3, ((if cancelled : bool then (lane_id, job_id) :: cancelled_jobs else cancelled_jobs),
                timed_out ++ timed_out_jobs))
      end
  end.

(** Step 2: the lanes, least recently visited first, one job per visit.  A lane found
    empty becomes [None]. *)
Record polling := mkPolling {
  po_lanes : list (option (string * N));
  po_index : nat;
  po_jobs_popped : nat;
  po_empty_lanes : nat;
  po_result_jobs : list (string * popped_job);
  po_timed_out_jobs : list (string * string);
  po_redis : redis
}.

Definition next_lane (total_lanes i : nat) : nat := if S i =? total_lanes then 0 else S i.

(** A lane not visited in this second yet: expired leases and due jobs return first. *)
Definition refresh_lane (now : N) (lane_id : string) (last_score : N) (σ : redis)
    : redis * list (string * string) :=
  if (last_score =? now)%N then (σ, [])
  else
    let '(σ1, timed_out) := cleanup_lane_leases lane_id σ in
    let σ2 := process_delayed_jobs lane_id now σ1 in
    (wrun (ZADD (lanes_zset_name q) [(now, lane_id)]) σ2, timed_out).

Definition drop_empty_lane (lane_id : string) (σ : redis) : redis :=
  if bool_decide (lst σ (lane_pending_list_name q lane_id) = [])
     && bool_decide (zset σ (lane_delayed_zset_name q lane_id) = ∅)
     && bool_decide (hash σ (lane_active_hash_name q lane_id) = ∅)
  then wrun (ZREM (lanes_zset_name q) [lane_id]) σ else σ.

Definition visit_lane (now : N) (pop_id : string) (lease_seconds : N) (st : polling) : polling :=
  let i := po_index st in
  let i' := next_lane (length (po_lanes st)) i in
  match po_lanes st !! i with
  | Some (Some (lane_id, last_score)) =>
      let '(σ1, timed_out) := refresh_lane now lane_id last_score (po_redis st) in
      let timed_out := po_timed_out_jobs st ++ timed_out in
      match pop_job_from_lane now pop_id lease_seconds lane_id σ1 with
      | (σ2, Some job) =>
          mkPolling (<[i := Some (lane_id, now)]> (po_lanes st)) i' (S (po_jobs_popped st)) (po_empty_lanes st)
            (po_result_jobs st ++ [(lane_id, job)]) timed_out σ2
      | (σ2, None) =>
          mkPolling (<[i := None]> (po_lanes st)) i' (po_jobs_popped st) (S (po_empty_lanes st))
            (po_result_jobs st) timed_out (drop_empty_lane lane_id σ2)
      end
  | _ => mkPolling (po_lanes st) i' (po_jobs_popped st) (po_empty_lanes st) (po_result_jobs st)
           (po_timed_out_jobs st) (po_redis st)
  end.

Fixpoint visit_lanes (fuel : nat) (now : N) (pop_id : string) (batch_size : nat) (lease_seconds : N)
    (st : polling) : polling :=
  match fuel with
  | O => st
  | S fuel' =>
      if (po_jobs_popped st <? batch_size) && (po_empty_lanes st <? length (po_lanes st))
      then visit_lanes fuel' now pop_id batch_size lease_seconds (visit_lane now pop_id lease_seconds st)
      else st
  end.

(** Every visit hands out a job, empties a lane, or skips one of the lanes found empty. *)
Definition poll_fuel (total_lanes batch_size : nat) : nat := total_lanes * (batch_size + total_lanes).

Definition ml_pop_script (now : N) (pop_id : string) (batch_size : nat) (lease_seconds : N) (σ : redis)
    : redis * (list (string * popped_job) * list (string * string) * list (string * string)) :=
  let '(σ1, (cancelled_jobs, timed_out_jobs)) :=
    ml_process_cancellations now (elements (sett σ (ml_pending_cancellation_set_name q))) σ in
  let lanes_with_scores := zrange (zset σ1 (lanes_zset_name q)) in
  let st := visit_lanes (poll_fuel (length lanes_with_scores) batch_size) now pop_id batch_size lease_seconds
    (mkPolling (map Some lanes_with_scores) 0 0 0 [] timed_out_jobs σ1) in
  (po_redis st, (po_result_jobs st, cancelled_jobs, po_timed_out_jobs st)).

(** ** Pruning *)

Definition ml_prune_protected (list_name other_list : string) (j_id : string) (σ : redis) : bool :=
  has_id (lst σ list_name) j_id || has_id (lst σ other_list) j_id
  || match lane_of j_id σ with
     | Some lane_id => in_active lane_id j_id σ || in_pending lane_id j_id σ || in_delayed lane_id j_id σ
     | None => false
     end.

Definition ml_prune_one (list_name other_list : string) (j_id : string) (σ : redis) : redis * nat :=
  if ml_prune_protected list_name other_list j_id σ then (σ, 0)
  else
    (prun [ SREM (ml_dedupe_set_name q) j_id;
            SREM (ml_pending_cancellation_set_name q) j_id;
            HDEL (ml_job_data_hash_name q) j_id;
            DEL (ml_job_meta_hash_name q j_id);
            HDEL (ml_job_result_hash_name q) j_id;
            DEL (ml_job_errors_list_name q j_id) ] σ, 1).

Fixpoint ml_prune_ids (list_name other_list : string) (ids : list string) (σ : redis) : redis * nat :=
  match ids with
  | [] => (σ, 0)
  | j_id :: rest =>
      let '(σ1, n) := ml_prune_one list_name other_list j_id σ in
      let '(σ2, m) := ml_prune_ids list_name other_list rest σ1 in
      (σ2, n + m)
  end.

Definition ml_trim_script (list_name other_list : string) (max_len : nat) (σ : redis) : redis * nat :=
  let job_ids_to_delete := drop max_len (lst σ list_name) in
  match job_ids_to_delete with
  | [] => (σ, 0)
  | _ =>
      let σ1 := match max_len with
                | O => wrun (DEL list_name) σ
                | S stop => wrun (LTRIM list_name stop) σ
                end in
      ml_prune_ids list_name other_list job_ids_to_delete σ1
  end.
End Scripts.

(** ** Queue operations *)

Section Queue.
Context {T : Type} `{Json T}.
Context {Output ErrorData : Type} `{Json Output}.
Context (on_success : BorrowedJob T -> Output -> pipeline).
Context (on_nack : BorrowedJob T -> ErrorData -> option Duration -> RequeuePosition -> pipeline).
Context (on_fail : BorrowedJob T -> ErrorData -> pipeline).
Context (on_queue_error : Job (option T) -> pipeline).
Context (user_cancelled : ErrorData) (encode : JobErrorRecord ErrorData -> twmq_result string).
Context (q : string) (options : QueueOptions).

Definition push_to_lane (lane_id : string) (job_options : JobOptions T) : prog (twmq_result (Job T)) :=
  Now (fun now =>
    let job := mkJob (jo_id job_options) (jo_data job_options) 0 now None None in
    match to_json (jo_data job_options) with
    | None => Ret (Err TwmqJsonError)
    | Some job_data =>
        let delay := default (mkDelay (mkDuration 0 0) Last) (jo_delay job_options) in
        let! _ := atomically (push_to_lane_script q lane_id (jo_id job_options) job_data now
          (delay_to_queue_seconds (do_delay delay)) (position_to_string (do_position delay))) in
        Ret (Ok job)
    end).

Definition ml_get_job (job_id : string) : prog (twmq_result (option (Job T))) :=
  let! job_data_t_json := read (fun σ => Ok (hash σ (ml_job_data_hash_name q) !! job_id)) in
  match job_data_t_json with
  | None => Ret (Ok None)
  | Some data_json =>
      match from_json data_json with
      | None => Ret (Err TwmqJsonError)
      | Some data_t =>
          let! meta_map := read (fun σ => Ok (hash σ (ml_job_meta_hash_name q job_id))) in
          Ret (Ok (Some (mkJob job_id data_t
            (default 0%N (meta_map !! "attempts" ≫= parse_u32))
            (default 0%N (meta_map !! "created_at" ≫= parse_u64))
            (meta_map !! "processed_at" ≫= parse_u64)
            (meta_map !! "finished_at" ≫= parse_u64))))
      end
  end.

(** The size of one lane's part; without a lane, read lane after lane and summed up. *)
Definition lane_count (status : JobStatus) (lane_id : string) (σ : redis) : nat :=
  match status with
  | StPending => length (lst σ (lane_pending_list_name q lane_id))
  | StActive => size (hash σ (lane_active_hash_name q lane_id))
  | StDelayed => size (zset σ (lane_delayed_zset_name q lane_id))
  | StSuccess => length (lst σ (ml_success_list_name q))
  | StFailed => length (lst σ (ml_failed_list_name q))
  end.
Fixpoint sum_lanes (status : JobStatus) (lanes : list string) (total : nat) : prog (twmq_result nat) :=
  match lanes with
  | [] => Ret (Ok total)
  | lane :: lanes' =>
      let! count := read (fun σ => Ok (lane_count status lane σ)) in
      sum_lanes status lanes' (total + count)
  end.
Definition ml_count (status : JobStatus) (lane_id : option string) : prog (twmq_result nat) :=
  match status, lane_id with
  | (StPending | StActive | StDelayed), None =>
      let! lanes := read (fun σ => Ok (zrange (zset σ (lanes_zset_name q))).*1) in
      sum_lanes status lanes 0
  | _, _ => read (fun σ => Ok (lane_count status (default "" lane_id) σ))
  end.
Definition lanes_count : prog (twmq_result nat) := read (fun σ => Ok (size (zset σ (lanes_zset_name q)))).

Definition ml_process_cancelled_job (job_id : string) : prog (twmq_result unit) :=
  let! job := ml_get_job job_id in
  match job with
  | Some job =>
      let borrowed_job := mkBorrowedJob job "cancelled" in
      let! _ := exec (on_fail borrowed_job user_cancelled) in Ret (Ok tt)
  | None => Ret (Ok tt)
  end.

Definition ml_cancel_job (job_id : string) : prog (twmq_result CancelResult) :=
  Now (fun now =>
    let! r := atomically (ml_cancel_script q job_id now) in
    match r with
    | CancelledImmediately =>
        let* _ := ml_process_cancelled_job job_id in Ret (Ok CancelledImmediately)
    | other => Ret (Ok other)
    end).

(** ** Completion pipelines *)

Definition ml_forget_if_active (job_id : string) : pipeline :=
  if decide (idempotency_mode options = Active) then [ SREM (ml_dedupe_set_name q) job_id ] else [].

Definition ml_add_success_operations (now : N) (job : BorrowedJob T) (result : Output) : twmq_result pipeline :=
  let id := job_id (bj_job job) in
  let? result_json := ok_or TwmqJsonError (to_json result) in
  Ok ([ DEL (ml_lease_key_name q id (bj_lease_token job));
        LPUSH (ml_success_list_name q) id;
        HSET (ml_job_meta_hash_name q id) "finished_at" (u64_to_string now);
        HDEL (ml_job_meta_hash_name q id) "lease_token";
        HSET (ml_job_result_hash_name q) id result_json ] ++ ml_forget_if_active id).

Definition ml_add_nack_operations (now : N) (job : BorrowedJob T) (error : ErrorData)
    (delay : option Duration) (position : RequeuePosition) : twmq_result pipeline :=
  let id := job_id (bj_job job) in
  let? error_json :=
    encode (mkJobErrorRecord error (job_attempts (bj_job job)) (JENack delay position) now) in
  Ok ([ DEL (ml_lease_key_name q id (bj_lease_token job));
        HDEL (ml_job_meta_hash_name q id) "lease_token" ] ++
      append_record (ml_job_errors_list_name q id) error_json).

Definition ml_add_fail_operations (now : N) (job : BorrowedJob T) (error : ErrorData) : twmq_result pipeline :=
  let id := job_id (bj_job job) in
  let? error_json := encode (mkJobErrorRecord error (job_attempts (bj_job job)) JEFail now) in
  Ok ([ DEL (ml_lease_key_name q id (bj_lease_token job));
        LPUSH (ml_failed_list_name q) id;
        HSET (ml_job_meta_hash_name q id) "finished_at" (u64_to_string now);
        HDEL (ml_job_meta_hash_name q id) "lease_token" ] ++
      append_record (ml_job_errors_list_name q id) error_json ++ ml_forget_if_active id).

(** Back to its lane: delayed from [now] on, or at one end of the list. *)
Definition requeue_operations (lane_id id : string) (now : N) (delay : option Duration)
    (position : RequeuePosition) : pipeline :=
  match delay with
  | Some delay_duration =>
      [ HSET (ml_job_meta_hash_name q id) "reentry_position" (position_to_string position);
        ZADD (lane_delayed_zset_name q lane_id) [((now + delay_to_queue_seconds delay_duration)%N, id)] ]
  | None =>
      match position with
      | First => [ LPUSH (lane_pending_list_name q lane_id) id ]
      | Last => [ RPUSH (lane_pending_list_name q lane_id) id ]
      end
  end.

Definition queue_error_operations (lane_id : string) (now : N) (job : Job (option T)) (lease_token : string)
    (error : ErrorData) : twmq_result pipeline :=
  let id := job_id job in
  let? error_json := encode (mkJobErrorRecord error (job_attempts job) JEFail now) in
  Ok ([ DEL (ml_lease_key_name q id lease_token);
        HDEL (lane_active_hash_name q lane_id) id;
        LPUSH (ml_failed_list_name q) id;
        HSET (ml_job_meta_hash_name q id) "finished_at" (u64_to_string now);
        HDEL (ml_job_meta_hash_name q id) "lease_token" ] ++
      append_record (ml_job_errors_list_name q id) error_json ++ ml_forget_if_active id).

Definition ml_post_success_completion : prog (twmq_result unit) :=
  let! _ := atomically (ml_trim_script q (ml_success_list_name q) (ml_failed_list_name q)
    (max_success options)) in Ret (Ok tt).
Definition ml_post_nack_completion : prog (twmq_result unit) := Ret (Ok tt).
Definition ml_post_fail_completion : prog (twmq_result unit) :=
  let! _ := atomically (ml_trim_script q (ml_failed_list_name q) (ml_success_list_name q)
    (max_failed options)) in Ret (Ok tt).

(** The queue's own commands of a completion in [lane_id]; the clock is read again for
    the due time of a delayed job. *)
Definition ml_completion_operations (lane_id : string) (now due_from : N) (job : BorrowedJob T)
    (res : result (JobError ErrorData) Output) : twmq_result pipeline :=
  let id := job_id (bj_job job) in
  let leave_lane := [ HDEL (lane_active_hash_name q lane_id) id ] in
  match res with
  | Ok output => let? ops := ml_add_success_operations now job output in Ok (ops ++ leave_lane)
  | Err (Nack error delay position) =>
      let? ops := ml_add_nack_operations now job error delay position in
      Ok (ops ++ leave_lane ++ requeue_operations lane_id id due_from delay position)
  | Err (Fail error) => let? ops := ml_add_fail_operations now job error in Ok (ops ++ leave_lane)
  end.
Definition hook_operations (job : BorrowedJob T) (res : result (JobError ErrorData) Output) : pipeline :=
  match res with
  | Ok output => on_success job output
  | Err (Nack error delay position) => on_nack job error delay position
  | Err (Fail error) => on_fail job error
  end.

Definition ml_commit (job : BorrowedJob T) (res : result (JobError ErrorData) Output)
    (ops : twmq_result pipeline) : prog (twmq_result unit) :=
  match ops with
  | Err e => Ret (Err e)
  | Ok ops =>
      let! committed := commit_if_leased (ml_lease_key_name q (job_id (bj_job job)) (bj_lease_token job))
        (hook_operations job res ++ ops) in
      if (committed : bool) then
        match res with
        | Ok _ => ml_post_success_completion
        | Err (Nack _ _ _) => ml_post_nack_completion
        | Err (Fail _) => ml_post_fail_completion
        end
      else Ret (Ok tt)
  end.

Definition missing_lane_error (job_id : string) : TwmqError :=
  TwmqRuntime ("Job " +:+ job_id +:+ " missing lane_id in metadata").

Definition ml_complete_job (job : BorrowedJob T) (res : result (JobError ErrorData) Output)
    : prog (twmq_result unit) :=
  let! lane_id := read (fun σ => Ok (lane_of q (job_id (bj_job job)) σ)) in
  match lane_id with
  | None => Ret (Err (missing_lane_error (job_id (bj_job job))))
  | Some lane_id =>
      Now (fun now =>
        match res with
        | Err (Nack _ (Some _) _) =>
            Now (fun due_from => ml_commit job res (ml_completion_operations lane_id now due_from job res))
        | _ => ml_commit job res (ml_completion_operations lane_id now now job res)
        end)
  end.

Definition ml_complete_job_queue_error (job : Job (option T)) (lease_token : string) (error : ErrorData)
    : prog (twmq_result unit) :=
  let! lane_id := read (fun σ => Ok (lane_of q (job_id job) σ)) in
  Now (fun now =>
    match queue_error_operations (default "unknown" lane_id) now job lease_token error with
    | Err e => Ret (Err e)
    | Ok ops =>
        let! committed := commit_if_leased (ml_lease_key_name q (job_id job) lease_token)
          (on_queue_error job ++ ops) in
        if (committed : bool) then ml_post_fail_completion else Ret (Ok tt)
    end).

(** ** Popping *)

(** Jobs for the handler with their lanes, leased jobs whose data does not parse, and
    cancelled ids whose hooks a spawned task runs. *)
Record ml_poll := mkMlPoll {
  mp_jobs : list (string * BorrowedJob T);
  mp_undecodable : list (Job (option T) * string);
  mp_cancelled : list (string * string)
}.

Definition ml_pop_batch_jobs (pop_id : string) (batch_size : nat) : prog (twmq_result ml_poll) :=
  Now (fun now =>
    let! (job_results, cancelled_jobs, timed_out_jobs) :=
      atomically (ml_pop_script q now pop_id batch_size (as_secs (lease_duration options))) in
    let decoded := map (fun r => match decode_popped now r.2 with
                                 | inl job => inl (r.1, job)
                                 | inr job => inr job
                                 end) job_results in
    Ret (Ok (mkMlPoll (lefts decoded) (rights decoded) cancelled_jobs))).

(** ** The builder of a job for a lane *)

Record MultilanePushableJob := mkMultilanePushableJob {
  mpj_options : JobOptions T;
  mpj_lane_id : string
}.
(** [id]: the nanoid a job gets unless the caller sets one. *)
Definition job_for_lane (id lane_id : string) (data : T) : MultilanePushableJob :=
  mkMultilanePushableJob (mkJobOptions data id None) lane_id.
Definition ml_delay (job : MultilanePushableJob) (delay : Duration) : MultilanePushableJob :=
  let o := mpj_options job in
  mkMultilanePushableJob (mkJobOptions (jo_data o) (jo_id o) (Some (mkDelay delay Last))) (mpj_lane_id job).
Definition ml_delay_with_position (job : MultilanePushableJob) (delay : Duration) (position : RequeuePosition)
    : MultilanePushableJob :=
  let o := mpj_options job in
  mkMultilanePushableJob (mkJobOptions (jo_data o) (jo_id o) (Some (mkDelay delay position))) (mpj_lane_id job).
Definition ml_id (job : MultilanePushableJob) (id : string) : MultilanePushableJob :=
  let o := mpj_options job in
  mkMultilanePushableJob (mkJobOptions (jo_data o) id (jo_delay o)) (mpj_lane_id job).
Definition ml_push (job : MultilanePushableJob) : prog (twmq_result (Job T)) :=
  push_to_lane (mpj_lane_id job) (mpj_options job).
End Queue.
