(* ===== verification/MultilaneInv.v ===== *)
(** The invariant of the multilane queue: a job occurs at most once in all lanes together,
    in the lane its metadata names; it is remembered for deduplication and its lane is
    registered; and an existing lease key is the current lease of an active job.  Every
    script and every committed completion keeps it.  First the keys of one multilane queue,
    which are pairwise distinct, how often a job occurs in a lane, and the commands that
    concern one job of one lane only. *)

From Stdlib Require Import String Ascii NArith Lia.
From stdpp Require Import base gmap strings list fin_maps.
From S2P Require Import Prelude Redis RedisProg Json QueueTypes Queue Multilane.

Create HintDb multilane.

(** ** Keys *)

Inductive ml_key :=
| KLanes | KPending (lane : string) | KDelayed (lane : string) | KActive (lane : string)
| KSuccess | KFailed | KData | KResult | KDedupe | KCancel
| KMeta (id : string) | KErrors (id : string) | KLease (id token : string).

Definition ml_key_name (q : string) (k : ml_key) : string :=
  match k with
  | KLanes => lanes_zset_name q
  | KPending lane => lane_pending_list_name q lane
  | KDelayed lane => lane_delayed_zset_name q lane
  | KActive lane => lane_active_hash_name q lane
  | KSuccess => ml_success_list_name q
  | KFailed => ml_failed_list_name q
  | KData => ml_job_data_hash_name q
  | KResult => ml_job_result_hash_name q
  | KDedupe => ml_dedupe_set_name q
  | KCancel => ml_pending_cancellation_set_name q
  | KMeta id => ml_job_meta_hash_name q id
  | KErrors id => ml_job_errors_list_name q id
  | KLease id token => ml_lease_key_name q id token
  end.

Definition ml_key_body (k : ml_key) : string :=
  match k with
  | KLanes => ":lanes"
  | KPending lane => ":lane:" +:+ lane +:+ ":pending"
  | KDelayed lane => ":lane:" +:+ lane +:+ ":delayed"
  | KActive lane => ":lane:" +:+ lane +:+ ":active"
  | KSuccess => ":success" | KFailed => ":failed" | KData => ":jobs:data"
  | KResult => ":jobs:result" | KDedupe => ":dedup" | KCancel => ":pending_cancellations"
  | KMeta id => ":job:" +:+ id +:+ ":meta"
  | KErrors id => ":job:" +:+ id +:+ ":errors"
  | KLease id token => ":job:" +:+ id +:+ ":lease:" +:+ token
  end.
Lemma ml_key_name_body q k : ml_key_name q k = "twmq_multilane:" +:+ q +:+ ml_key_body k.
Proof. by destruct k. Qed.
Lemma ml_key_body_inj q k1 k2 : ml_key_name q k1 = ml_key_name q k2 -> ml_key_body k1 = ml_key_body k2.
Proof. rewrite !ml_key_name_body. intros H%string_app_inj_l. by apply string_app_inj_l in H. Qed.

(** The keys of jobs, as opposed to those of lanes and of the whole queue. *)
Definition job_key (k : ml_key) : bool := match k with KMeta _ | KErrors _ | KLease _ _ => true | _ => false end.
Definition key_plain (k : ml_key) : Prop :=
  match k with KMeta id | KErrors id | KLease id _ => no_colon id | _ => True end.

(** The last character of a name, [a] for an empty one. *)
Fixpoint last_char (a : ascii) (s : string) : ascii :=
  match s with EmptyString => a | String c s' => last_char c s' end.
Lemma last_char_app a s t : last_char a (s +:+ t) = last_char (last_char a s) t.
Proof. revert a. induction s as [|c s IH]; intros a; [done|]. apply IH. Qed.
Lemma suffix_ne a b s t :
  s +:+ a = t +:+ b -> (∀ c d, last_char c a <> last_char d b) -> False.
Proof. intros Heq Hne. apply (f_equal (last_char "0"%char)) in Heq. rewrite !last_char_app in Heq. by apply Hne in Heq. Qed.

(** Lane keys and queue keys differ from every other key, whatever the names of lanes. *)
Lemma plain_key_ne q k1 k2 : job_key k1 = false -> k1 <> k2 -> ml_key_name q k1 <> ml_key_name q k2.
Proof.
  intros Hj Hne H%ml_key_body_inj. destruct k1, k2; try done; cbn in H; simplify_eq.
  all: try (by apply string_app_inj_r in H as ->).
  all: by eapply suffix_ne in H.
Qed.
(** With colon-free job ids all keys are distinct. *)
Lemma ml_key_name_inj q k1 k2 : key_plain k1 -> key_plain k2 -> ml_key_name q k1 = ml_key_name q k2 -> k1 = k2.
Proof.
  intros H1 H2 Heq. destruct (job_key k1) eqn:J1; [destruct (job_key k2) eqn:J2|].
  - apply ml_key_body_inj in Heq. destruct k1, k2; try done; cbn in Heq.
    all: apply (string_app_inj_l ":job:") in Heq.
    all: apply (split_first_colon _ _ _ _ H1 H2) in Heq as [-> Heq]; (done || by simplify_eq).
  - apply ml_key_body_inj in Heq. destruct k1, k2; done.
  - apply ml_key_body_inj in Heq as Hb. destruct k1, k2; try done; cbn in Hb; simplify_eq.
    all: try (by apply string_app_inj_r in Hb as ->).
    all: exfalso; by eapply suffix_ne in Hb.
Qed.

Ltac ml_key_of e :=
  lazymatch e with
  | lanes_zset_name _ => constr:(KLanes)
  | lane_pending_list_name _ ?l => constr:(KPending l)
  | lane_delayed_zset_name _ ?l => constr:(KDelayed l)
  | lane_active_hash_name _ ?l => constr:(KActive l)
  | ml_success_list_name _ => constr:(KSuccess)
  | ml_failed_list_name _ => constr:(KFailed)
  | ml_job_data_hash_name _ => constr:(KData)
  | ml_job_result_hash_name _ => constr:(KResult)
  | ml_dedupe_set_name _ => constr:(KDedupe)
  | ml_pending_cancellation_set_name _ => constr:(KCancel)
  | ml_job_meta_hash_name _ ?id => constr:(KMeta id)
  | ml_job_errors_list_name _ ?id => constr:(KErrors id)
  | ml_lease_key_name _ ?id ?t => constr:(KLease id t)
  end.
Ltac ml_keys_ne :=
  lazymatch goal with
  | |- ?a = ?b -> False => change (a <> b); ml_keys_ne
  | |- ?a <> ?b =>
      let ka := ml_key_of a in let kb := ml_key_of b in
      first
        [ apply (plain_key_ne _ ka kb); [reflexivity|congruence]
        | apply not_eq_sym; apply (plain_key_ne _ kb ka); [reflexivity|congruence]
        | intros Heq%(ml_key_name_inj _ ka kb); [congruence|assumption|assumption] ]
  end.
Ltac ml_simp :=
  repeat first
    [ rewrite str_wrun | rewrite hash_wrun | rewrite zset_wrun | rewrite lst_wrun | rewrite sett_wrun ];
  repeat match goal with
  | |- context [decide (?a = ?a)] => rewrite (decide_True (P := (a = a))) by reflexivity
  | |- context [decide (?a = ?b)] => rewrite (decide_False (P := (a = b))) by ml_keys_ne
  end.
Lemma lane_pending_inj q l1 l2 : lane_pending_list_name q l1 = lane_pending_list_name q l2 <-> l1 = l2.
Proof. split; [|by intros ->]. intros [=]%(ml_key_name_inj q (KPending l1) (KPending l2)); done. Qed.
Lemma lane_delayed_inj q l1 l2 : lane_delayed_zset_name q l1 = lane_delayed_zset_name q l2 <-> l1 = l2.
Proof. split; [|by intros ->]. intros [=]%(ml_key_name_inj q (KDelayed l1) (KDelayed l2)); done. Qed.
Lemma lane_active_inj q l1 l2 : lane_active_hash_name q l1 = lane_active_hash_name q l2 <-> l1 = l2.
Proof. split; [|by intros ->]. intros [=]%(ml_key_name_inj q (KActive l1) (KActive l2)); done. Qed.

(** ** Occurrences *)

Fixpoint times (id : string) (l : list string) : nat :=
  match l with [] => 0 | x :: l' => (if decide (x = id) then 1 else 0) + times id l' end.
Lemma times_app id l k : times id (l ++ k) = times id l + times id k.
Proof. induction l as [|x l IH]; cbn; [done|]. rewrite IH. lia. Qed.
Lemma times_pos id l : id ∈ l <-> 0 < times id l.
Proof.
  induction l as [|x l IH]; cbn; [by rewrite elem_of_nil; lia|]. rewrite elem_of_cons. case_decide; [|naive_solver].
  split; [lia|]. subst. by left.
Qed.
Lemma times_filter id v l : times id (filter (fun x => x <> v) l) = if decide (id = v) then 0 else times id l.
Proof.
  induction l as [|x l IH]; [by cbn; case_decide|]. rewrite filter_cons. cbn [times].
  destruct (decide (x <> v)) as [Hx|Hx]; cbn [times]; rewrite IH; repeat case_decide; naive_solver.
Qed.
Lemma times_removelast id l x : last l = Some x -> times id l = times id (removelast l) + (if decide (x = id) then 1 else 0).
Proof.
  intros [k ->]%last_Some. rewrite removelast_last, times_app. cbn. lia.
Qed.

Section Occurrences.
Context (q : string).
Definition b2n (b : bool) : nat := if b then 1 else 0.

(** How often a job occurs in a lane: waiting, delayed and active together. *)
Definition occ (σ : redis) (lane id : string) : nat :=
  times id (lst σ (lane_pending_list_name q lane)) + b2n (in_delayed q lane id σ) + b2n (in_active q lane id σ).
Definition ml_token (σ : redis) (id : string) : option string := hash σ (ml_job_meta_hash_name q id) !! "lease_token".
Definition ml_lease_live (σ : redis) (id token : string) : Prop := exists_key σ (ml_lease_key_name q id token) = true.
Definition registered (σ : redis) (lane : string) : Prop := is_Some (zset σ (lanes_zset_name q) !! lane).
(** Ids named by the queue's lists and sets. *)
Definition named (σ : redis) (id : string) : Prop :=
  id ∈ sett σ (ml_dedupe_set_name q) \/ id ∈ sett σ (ml_pending_cancellation_set_name q) \/
  id ∈ lst σ (ml_success_list_name q) \/ id ∈ lst σ (ml_failed_list_name q).

Lemma in_delayed_occ σ lane id : in_delayed q lane id σ = true -> 0 < occ σ lane id.
Proof. unfold occ. intros ->. cbn. lia. Qed.
Lemma in_active_occ σ lane id : in_active q lane id σ = true -> 0 < occ σ lane id.
Proof. unfold occ. intros ->. cbn. lia. Qed.
Lemma in_pending_occ σ lane id : in_pending q lane id σ = true -> 0 < occ σ lane id.
Proof. unfold occ, in_pending, has_id. intros H%bool_decide_eq_true%times_pos. lia. Qed.
Lemma in_pending_times σ lane id : in_pending q lane id σ = false -> times id (lst σ (lane_pending_list_name q lane)) = 0.
Proof. unfold in_pending, has_id. intros H%bool_decide_eq_false. rewrite times_pos in H. lia. Qed.

(** ** Commands about one job *)

(** What commands about job [j] in lane [L] leave alone. *)
Record frame (L j : string) (σ σ' : redis) : Prop := {
  fr_occ : ∀ lane id, (lane, id) <> (L, j) -> occ σ' lane id = occ σ lane id;
  fr_active : ∀ lane id, (lane, id) <> (L, j) -> in_active q lane id σ' = in_active q lane id σ;
  fr_lane : ∀ id, no_colon id -> id <> j -> lane_of q id σ' = lane_of q id σ;
  fr_token : ∀ id, no_colon id -> id <> j -> ml_token σ' id = ml_token σ id;
  fr_lease : ∀ id t, no_colon id -> id <> j -> same_at (ml_lease_key_name q id t) σ σ';
  fr_dedupe : ∀ id, id <> j -> id ∈ sett σ' (ml_dedupe_set_name q) <-> id ∈ sett σ (ml_dedupe_set_name q);
  fr_named : ∀ id, named σ' id -> id = j \/ named σ id;
  fr_registered : ∀ lane, registered σ lane -> registered σ' lane;
  fr_lists : ∀ lane, lane <> L -> lst σ' (lane_pending_list_name q lane) = lst σ (lane_pending_list_name q lane);
  fr_data : ∀ id, id <> j -> hash σ' (ml_job_data_hash_name q) !! id = hash σ (ml_job_data_hash_name q) !! id
}.
#[export] Instance frame_refl L j : Reflexive (frame L j).
Proof. intros σ. split; auto; done. Qed.
#[export] Instance frame_trans L j : Transitive (frame L j).
Proof.
  intros σ1 σ2 σ3 [A1 A2 A3 A4 A5 A6 A7 A8 A9 A10] [B1 B2 B3 B4 B5 B6 B7 B8 B9 B10]. split.
  - intros. by rewrite B1, A1.
  - intros. by rewrite B2, A2.
  - intros. by rewrite B3, A3.
  - intros. by rewrite B4, A4.
  - intros. by etrans; [apply A5|apply B5].
  - intros. by rewrite B6, A6.
  - intros id [?|?%A7]%B7; auto.
  - auto.
  - intros. by rewrite B9, A9.
  - intros. by rewrite B10, A10.
Qed.

Inductive about (L j : string) : wcmd -> Prop :=
| about_meta f v : about L j (HSET (ml_job_meta_hash_name q j) f v)
| about_meta_del f : about L j (HDEL (ml_job_meta_hash_name q j) f)
| about_forget : about L j (DEL (ml_job_meta_hash_name q j))
| about_data v : about L j (HSET (ml_job_data_hash_name q) j v)
| about_data_del : about L j (HDEL (ml_job_data_hash_name q) j)
| about_result v : about L j (HSET (ml_job_result_hash_name q) j v)
| about_result_del : about L j (HDEL (ml_job_result_hash_name q) j)
| about_dedupe : about L j (SADD (ml_dedupe_set_name q) j)
| about_dedupe_del : about L j (SREM (ml_dedupe_set_name q) j)
| about_cancel : about L j (SADD (ml_pending_cancellation_set_name q) j)
| about_cancel_del : about L j (SREM (ml_pending_cancellation_set_name q) j)
| about_register s lane : about L j (ZADD (lanes_zset_name q) [(s, lane)])
| about_lpush : about L j (LPUSH (lane_pending_list_name q L) j)
| about_rpush : about L j (RPUSH (lane_pending_list_name q L) j)
| about_lrem : about L j (LREM (lane_pending_list_name q L) j)
| about_delay s : about L j (ZADD (lane_delayed_zset_name q L) [(s, j)])
| about_undelay : about L j (ZREM (lane_delayed_zset_name q L) [j])
| about_activate v : about L j (HSET (lane_active_hash_name q L) j v)
| about_deactivate : about L j (HDEL (lane_active_hash_name q L) j)
| about_success : about L j (LPUSH (ml_success_list_name q) j)
| about_failed : about L j (LPUSH (ml_failed_list_name q) j)
| about_unfail : about L j (LREM (ml_failed_list_name q) j)
| about_lease t v : about L j (SET (ml_lease_key_name q j t) v)
| about_lease_ttl t n : about L j (EXPIRE (ml_lease_key_name q j t) n)
| about_unlease t : about L j (DEL (ml_lease_key_name q j t))
| about_error v : about L j (LPUSH (ml_job_errors_list_name q j) v)
| about_error_trim n : about L j (LTRIM (ml_job_errors_list_name q j) n)
| about_errors_del : about L j (DEL (ml_job_errors_list_name q j)).

Lemma about_active L j c σ lane id :
  about L j c -> (lane, id) <> (L, j) -> in_active q lane id (wrun c σ) = in_active q lane id σ.
Proof.
  intros Hc Hne. unfold in_active. destruct Hc; ml_simp; try done; case_decide as Hk; try done; apply lane_active_inj in Hk as <-.
  - by rewrite lookup_insert_ne by (intros ->; done).
  - by rewrite lookup_delete_ne by (intros ->; done).
Qed.
Lemma about_delayed L j c σ lane id :
  about L j c -> (lane, id) <> (L, j) -> in_delayed q lane id (wrun c σ) = in_delayed q lane id σ.
Proof.
  intros Hc Hne. unfold in_delayed. destruct Hc; ml_simp; try done; case_decide as Hk; try done; apply lane_delayed_inj in Hk as <-.
  - cbn. by rewrite lookup_insert_ne by (intros ->; done).
  - cbn. by rewrite lookup_delete_ne by (intros ->; done).
Qed.
Lemma about_pending L j c σ lane id :
  about L j c -> (lane, id) <> (L, j) ->
  times id (lst (wrun c σ) (lane_pending_list_name q lane)) = times id (lst σ (lane_pending_list_name q lane)).
Proof.
  intros Hc Hne. destruct Hc; ml_simp; try done; case_decide as Hk; try done; apply lane_pending_inj in Hk as <-.
  - cbn. rewrite decide_False; [done|]. by intros ->.
  - rewrite times_app. cbn. rewrite decide_False; [lia|]. by intros ->.
  - rewrite times_filter, decide_False; [done|]. by intros ->.
Qed.

Lemma about_frame L j c σ : about L j c -> no_colon j -> frame L j σ (wrun c σ).
Proof.
  intros Hc Hj. split.
  - intros lane id Hne. unfold occ. by rewrite (about_pending L j), (about_delayed L j), (about_active L j).
  - intros. by apply (about_active L j).
  - intros id Hid Hne. unfold lane_of. destruct Hc; ml_simp; done.
  - intros id Hid Hne. unfold ml_token. destruct Hc; ml_simp; done.
  - intros id t Hid Hne. apply wrun_frame. destruct Hc; cbn [wkey]; ml_keys_ne.
  - intros id Hne. destruct Hc; ml_simp; set_solver.
  - intros id. unfold named. destruct Hc; ml_simp; try (by auto);
      rewrite ?elem_of_cons, ?list_elem_of_filter, ?elem_of_union, ?elem_of_difference, ?elem_of_singleton; naive_solver.
  - intros lane. unfold registered. destruct Hc; ml_simp; try done. cbn. rewrite lookup_insert_is_Some'. auto.
  - intros lane Hne. destruct Hc; ml_simp; try done; case_decide as Hk; try done; by apply lane_pending_inj in Hk as <-.
  - intros id Hne. destruct Hc; ml_simp; try done; [by rewrite lookup_insert_ne|by rewrite lookup_delete_ne].
Qed.
Lemma abouts_frame L j p σ : Forall (about L j) p -> no_colon j -> frame L j σ (prun p σ).
Proof.
  intros Hp Hj. revert σ. induction Hp as [|c p Hc _ IH]; intros σ; [done|].
  etrans; [by apply about_frame|apply IH].
Qed.
End Occurrences.
Arguments frame q L j σ σ' : rename.
#[export] Hint Constructors about : multilane.
Ltac abouts := repeat (apply Forall_cons; split; [by eauto with multilane|]); apply Forall_nil; exact I.

Section Invariant.
Context (q : string).
#[local] Notation occ := (occ q).
#[local] Notation frame := (frame q).
#[local] Notation lane_of := (lane_of q).
#[local] Notation in_active := (in_active q).
#[local] Notation in_delayed := (in_delayed q).
#[local] Notation in_pending := (in_pending q).

Record ml_ok (σ : redis) : Prop := {
  mo_once : ∀ lane id, occ σ lane id <= 1;
  mo_home : ∀ lane id, 0 < occ σ lane id ->
    lane_of id σ = Some lane /\ id ∈ sett σ (ml_dedupe_set_name q) /\ registered q σ lane /\
    is_Some (hash σ (ml_job_data_hash_name q) !! id);
  mo_plain : ∀ id, named q σ id -> no_colon id;
  mo_lease : ∀ id t, no_colon id -> ml_lease_live q σ id t ->
    ∃ lane, lane_of id σ = Some lane /\ in_active lane id σ = true /\ ml_token q σ id = Some t
}.

Lemma ml_empty_ok : ml_ok redis_empty.
Proof.
  assert (∀ lane id, occ redis_empty lane id = 0) as Hz by reflexivity. split.
  - intros lane id. rewrite Hz. lia.
  - intros lane id H. rewrite Hz in H. lia.
  - intros id [H|[H|[H|H]]]; cbn in H; set_solver.
  - intros id t _ H. done.
Qed.

(** ** One job at a time *)

Lemma elsewhere σ L L' j : ml_ok σ -> lane_of j σ = Some L -> L' <> L -> occ σ L' j = 0.
Proof.
  intros Hok Hl Hne. destruct (decide (occ σ L' j = 0)) as [|Hp]; [done|].
  destruct (mo_home σ Hok L' j) as [Hl' _]; [lia|]. rewrite Hl in Hl'. by simplify_eq.
Qed.
Lemma live_plain_ml σ lane id : ml_ok σ -> 0 < occ σ lane id -> no_colon id.
Proof. intros Hok (_ & Hd & _)%(mo_home σ Hok). apply (mo_plain σ Hok). by left. Qed.

(** Commands about job [j], which occurs in no lane but [L]: only its own entries are to
    be checked. *)
Lemma ml_ok_job σ σ' L j :
  ml_ok σ -> no_colon j -> frame L j σ σ' ->
  (∀ L', L' <> L -> occ σ L' j = 0) -> occ σ' L j <= 1 ->
  (0 < occ σ' L j -> lane_of j σ' = Some L /\ j ∈ sett σ' (ml_dedupe_set_name q) /\ registered q σ' L /\
     is_Some (hash σ' (ml_job_data_hash_name q) !! j)) ->
  (∀ t, ml_lease_live q σ' j t -> lane_of j σ' = Some L /\ in_active L j σ' = true /\ ml_token q σ' j = Some t) ->
  ml_ok σ'.
Proof.
  intros Hok Hj Hf Hels Honce Hhome Hlease. split.
  - intros lane id. destruct (decide ((lane, id) = (L, j))) as [[= -> ->]|Hne]; [done|].
    rewrite (fr_occ _ _ _ _ _ Hf) by done. apply (mo_once σ Hok).
  - intros lane id Hp. destruct (decide ((lane, id) = (L, j))) as [[= -> ->]|Hne]; [by apply Hhome|].
    rewrite (fr_occ _ _ _ _ _ Hf) in Hp by done. destruct (decide (id = j)) as [->|Hid].
    { rewrite Hels in Hp by (by intros ->). lia. }
    pose proof (live_plain_ml σ lane id Hok Hp) as Hc. destruct (mo_home σ Hok lane id Hp) as (H1 & H2 & H3 & H4).
    rewrite (fr_lane _ _ _ _ _ Hf), (fr_dedupe _ _ _ _ _ Hf), (fr_data _ _ _ _ _ Hf) by done. split_and!; [done|done| |done].
    by apply (fr_registered _ _ _ _ _ Hf).
  - intros id [->|Hid]%(fr_named _ _ _ _ _ Hf); [done|]. by apply (mo_plain σ Hok).
  - intros id t Hc Hlive. destruct (decide (id = j)) as [->|Hid]; [exists L; by apply Hlease|].
    unfold ml_lease_live in Hlive. rewrite <- (exists_key_same σ) in Hlive by (by apply (fr_lease _ _ _ _ _ Hf)).
    destruct (mo_lease σ Hok id t Hc Hlive) as (lane & H1 & H2 & H3). exists lane.
    rewrite (fr_lane _ _ _ _ _ Hf), (fr_token _ _ _ _ _ Hf), (fr_active _ _ _ _ _ Hf) by (done || by intros [=]). done.
Qed.

(** A command that writes no lease key of [j] leaves its leases alone. *)
Lemma lease_kept p σ j t :
  Forall (fun c => wkey c <> ml_lease_key_name q j t) p -> ml_lease_live q (prun p σ) j t -> ml_lease_live q σ j t.
Proof. unfold ml_lease_live. intros Hp. by rewrite <- (exists_key_same σ (prun p σ)) by (by apply prun_same). Qed.
End Invariant.

Ltac wkeys_ne := repeat (apply Forall_cons; split; [cbn [wkey]; ml_keys_ne|]); apply Forall_nil; exact I.
Ltac ml_views := unfold occ, lane_of, registered, ml_token, in_active, in_delayed, in_pending, has_id; cbn [prun foldl app]; ml_simp.

Section Steps.
Context (q : string).
#[local] Notation ml_ok := (ml_ok q).
#[local] Notation occ := (occ q).

(** ** The steps of a poll *)

(** What every step of a poll of the lanes [T] that creates the leases [new] keeps: the
    invariant, where jobs belong, their data, every lease, and the lists of other lanes;
    and no job and no other lease appears out of nowhere. *)
Record polls (T : string -> Prop) (new : string -> string -> Prop) (σ σ' : redis) : Prop := {
  pl_ok : ml_ok σ';
  pl_occ : ∀ lane id, occ σ' lane id <= occ σ lane id;
  pl_lane : ∀ id, no_colon id -> lane_of q id σ' = lane_of q id σ;
  pl_data : hash σ' (ml_job_data_hash_name q) = hash σ (ml_job_data_hash_name q);
  pl_lease : ∀ id t, no_colon id -> ml_lease_live q σ id t -> ml_lease_live q σ' id t;
  pl_new : ∀ id t, no_colon id -> ml_lease_live q σ' id t -> ml_lease_live q σ id t \/ new id t;
  pl_other : ∀ lane, ¬ T lane -> lst σ' (lane_pending_list_name q lane) = lst σ (lane_pending_list_name q lane)
}.
Definition no_new (_ _ : string) : Prop := False.
Lemma polls_refl T new σ : ml_ok σ -> polls T new σ σ.
Proof. intros Hok. split; auto. Qed.
#[export] Instance polls_trans T new : Transitive (polls T new).
Proof.
  intros σ1 σ2 σ3 [A1 A2 A3 A4 A5 A6 A7] [B1 B2 B3 B4 B5 B6 B7].
  split; [done| |intros; by rewrite B3, A3|by rewrite B4|auto| |intros; by rewrite B7, A7].
  - intros lane id. etrans; [apply B2|apply A2].
  - intros id t Hid [H|H]%B6; auto.
Qed.
Lemma polls_weaken (T T' : string -> Prop) (new new' : string -> string -> Prop) σ σ' :
  (∀ lane, T lane -> T' lane) -> (∀ id t, new id t -> new' id t) -> polls T new σ σ' -> polls T' new' σ σ'.
Proof. intros HT Hn [A1 A2 A3 A4 A5 A6 A7]. split; auto. intros id t Hid [H|H]%A6; auto. Qed.

(** A step about one job of the lane it belongs to. *)
Lemma polls_job new σ σ' L j :
  ml_ok σ -> no_colon j -> lane_of q j σ = Some L -> frame q L j σ σ' -> occ σ' L j <= occ σ L j ->
  lane_of q j σ' = Some L -> (0 < occ σ' L j -> j ∈ sett σ' (ml_dedupe_set_name q)) ->
  hash σ' (ml_job_data_hash_name q) = hash σ (ml_job_data_hash_name q) ->
  (∀ t, ml_lease_live q σ j t -> ml_lease_live q σ' j t) ->
  (∀ t, ml_lease_live q σ' j t -> ml_lease_live q σ j t \/ new j t) ->
  (∀ t, ml_lease_live q σ' j t -> in_active q L j σ' = true /\ ml_token q σ' j = Some t) ->
  polls (eq L) new σ σ'.
Proof.
  intros Hok Hc Hl Hf Hocc Hl' Hd Hdata Hgrow Hnew Hlease.
  assert (∀ L', L' <> L -> occ σ L' j = 0) as Hels by (intros L' Hne; by apply (elsewhere q σ L)).
  split.
  - eapply (ml_ok_job q σ σ' L j); [done..| | |].
    + etrans; [exact Hocc|apply (mo_once q σ Hok)].
    + intros Hp. destruct (mo_home q σ Hok L j) as (_ & _ & Hr & Hs); [lia|]. rewrite Hdata.
      split_and!; [done|auto| |done]. by apply (fr_registered _ _ _ _ _ Hf).
    + intros t Ht. destruct (Hlease t Ht). done.
  - intros lane id. destruct (decide ((lane, id) = (L, j))) as [[= -> ->]|Hne]; [done|].
    by rewrite (fr_occ _ _ _ _ _ Hf).
  - intros id Hid. destruct (decide (id = j)) as [->|Hne]; [by rewrite Hl, Hl'|by apply (fr_lane _ _ _ _ _ Hf)].
  - done.
  - intros id t Hid Hlive. destruct (decide (id = j)) as [->|Hne]; [auto|]. unfold ml_lease_live in *.
    by rewrite <- (exists_key_same σ σ') by (by apply (fr_lease _ _ _ _ _ Hf)).
  - intros id t Hid Hlive. destruct (decide (id = j)) as [->|Hne]; [auto|]. left. unfold ml_lease_live in *.
    by rewrite (exists_key_same σ σ') by (by apply (fr_lease _ _ _ _ _ Hf)).
  - intros lane Hne. apply (fr_lists _ _ _ _ _ Hf). by intros ->.
Qed.

Lemma lease_grown p σ j t :
  Forall (fun c => wkey c <> ml_lease_key_name q j t) p -> ml_lease_live q σ j t -> ml_lease_live q (prun p σ) j t.
Proof. unfold ml_lease_live. intros Hp. by rewrite <- (exists_key_same σ (prun p σ)) by (by apply prun_same). Qed.

(** An active job without its lease. *)
Lemma ml_reclaim_polls σ L j :
  ml_ok σ -> in_active q L j σ = true -> ml_lease_alive q σ j = false ->
  polls (eq L) no_new σ (ml_reclaim q L j σ) /\ frame q L j σ (ml_reclaim q L j σ).
Proof.
  intros Hok Ha Hdead. pose proof (in_active_occ q σ L j Ha) as Hp.
  destruct (mo_home q σ Hok L j Hp) as (Hl & Hd & Hr & _). pose proof (live_plain_ml q σ L j Hok Hp) as Hc.
  unfold ml_reclaim, hincr. cbn [fst]. set (n := default _ _). set (p := (if bool_decide _ then _ else _) ++ _).
  change (prun p (wrun ?c σ)) with (prun (c :: p) σ).
  assert (∀ t, Forall (fun c => wkey c <> ml_lease_key_name q j t)
    (HSET (ml_job_meta_hash_name q j) "attempts" (u64_to_string (n + 1)) :: p)) as Hk.
  { intros t. subst p. case_bool_decide; cbn [app]; wkeys_ne. }
  assert (frame q L j σ (prun (HSET (ml_job_meta_hash_name q j) "attempts" (u64_to_string (n + 1)) :: p) σ)) as Hf.
  { apply abouts_frame; [|done]. subst p. case_bool_decide; cbn [app]; abouts. }
  split; [|done]. apply (polls_job _ σ _ L j Hok Hc Hl Hf).
  - unfold MultilaneInv.occ at 2. rewrite Ha. subst p.
    case_bool_decide; ml_views; cbn; rewrite lookup_delete_eq, decide_True by done; cbn; lia.
  - subst p. case_bool_decide; ml_views; rewrite ?lookup_delete_ne, lookup_insert_ne by done; done.
  - intros _. subst p. case_bool_decide; ml_views; done.
  - subst p. case_bool_decide; ml_views; done.
  - intros t Ht. by apply lease_grown.
  - intros t Ht%lease_kept; [by left|apply Hk].
  - intros t Ht%lease_kept; [|apply Hk]. destruct (mo_lease q σ Hok j t Hc Ht) as (? & _ & _ & Htok).
    unfold ml_lease_alive, ml_token in *. rewrite Htok in Hdead. unfold ml_lease_live in Ht. congruence.
Qed.

(** A job that is not active has no lease. *)
Lemma inactive_unleased σ L j t :
  ml_ok σ -> no_colon j -> lane_of q j σ = Some L -> in_active q L j σ = false -> ml_lease_live q σ j t -> False.
Proof.
  intros Hok Hc Hl Ha Ht. destruct (mo_lease q σ Hok j t Hc Ht) as (L' & Hl' & Ha' & _).
  rewrite Hl in Hl'. simplify_eq. congruence.
Qed.

(** A delayed job whose time has come. *)
Lemma ml_release_polls σ L j :
  ml_ok σ -> in_delayed q L j σ = true ->
  polls (eq L) no_new σ (ml_release_delayed q L j σ) /\ frame q L j σ (ml_release_delayed q L j σ).
Proof.
  intros Hok Hin. pose proof (in_delayed_occ q σ L j Hin) as Hp.
  destruct (mo_home q σ Hok L j Hp) as (Hl & Hd & Hr & _). pose proof (live_plain_ml q σ L j Hok Hp) as Hc.
  assert (in_active q L j σ = false) as Ha.
  { pose proof (mo_once q σ Hok L j) as H1. unfold MultilaneInv.occ in H1. rewrite Hin in H1.
    destruct (in_active q L j σ); [cbn in H1; lia|done]. }
  unfold ml_release_delayed. set (b := decide _).
  assert (∀ t, Forall (fun c => wkey c <> ml_lease_key_name q j t) [ ZREM (lane_delayed_zset_name q L) [j];
    HDEL (ml_job_meta_hash_name q j) "reentry_position";
    if b then LPUSH (lane_pending_list_name q L) j else RPUSH (lane_pending_list_name q L) j ]) as Hk.
  { intros t. destruct b; wkeys_ne. }
  match goal with |- polls _ _ σ (prun ?p σ) /\ _ =>
    assert (frame q L j σ (prun p σ)) as Hf by (apply abouts_frame; [destruct b; abouts|done]) end.
  split; [|done]. apply (polls_job _ σ _ L j Hok Hc Hl Hf).
  - unfold MultilaneInv.occ at 2. rewrite Hin, Ha. unfold in_active in Ha.
    destruct b; ml_views; cbn; rewrite ?times_app, lookup_delete_eq, Ha; cbn; rewrite decide_True by done; lia.
  - destruct b; ml_views; by rewrite lookup_delete_ne.
  - intros _. destruct b; ml_views; done.
  - destruct b; ml_views; done.
  - intros t Ht. by apply lease_grown.
  - intros t Ht%lease_kept; [by left|apply Hk].
  - intros t Ht%lease_kept; [|apply Hk]. exfalso. by eapply inactive_unleased.
Qed.
End Steps.
