(* ===== verification/MultilanePoll.v ===== *)
(** A poll of the multilane queue keeps the invariant; its loop ends; and what it hands
    out. *)

From Stdlib Require Import String Ascii NArith Lia.
From stdpp Require Import base gmap strings list fin_maps.
From S2P Require Import Prelude Redis RedisProg Json QueueTypes Queue Multilane MultilaneInv.

Section Poll.
Context (q : string).
#[local] Notation ml_ok := (ml_ok q).
#[local] Notation occ := (occ q).
#[local] Notation polls := (polls q).

(** ** Cancellations *)

Lemma ml_cancel_one_polls now σ L j :
  ml_ok σ -> no_colon j -> lane_of q j σ = Some L -> in_active q L j σ = false ->
  polls (eq L) no_new σ (ml_cancel_one q now L j σ).1.
Proof.
  intros Hok Hc Hl Ha.
  assert (∀ t, ml_lease_live q σ j t -> False) as Hno by (intros t; by apply (inactive_unleased q σ L)).
  unfold ml_cancel_one. set (b := _ && _). destruct b; cbn [fst].
  - change (wrun ?c σ) with (prun [c] σ). eapply (polls_job q _ σ _ L j Hok Hc Hl).
    + apply abouts_frame; [abouts|done].
    + ml_views. lia.
    + by ml_views.
    + intros Hp. ml_views. eapply (mo_home q σ Hok L j). revert Hp. by ml_views.
    + by ml_views.
    + intros t []%Hno.
    + intros t []%lease_kept%Hno. wkeys_ne.
    + intros t []%lease_kept%Hno. wkeys_ne.
  - eapply (polls_job q _ σ _ L j Hok Hc Hl).
    + apply abouts_frame; [abouts|done].
    + ml_views. rewrite times_filter, decide_True by done. cbn. rewrite lookup_delete_eq. cbn. lia.
    + by ml_views; rewrite lookup_insert_ne.
    + ml_views. rewrite times_filter, decide_True by done. cbn. rewrite lookup_delete_eq.
      unfold in_active in Ha. rewrite Ha. cbn. lia.
    + by ml_views.
    + intros t []%Hno.
    + intros t []%lease_kept%Hno. wkeys_ne.
    + intros t []%lease_kept%Hno. wkeys_ne.
Qed.

(** ** Cleaning a lane up *)

Lemma cleanup_jobs_polls L ids σ :
  ml_ok σ -> NoDup ids -> (∀ id, id ∈ ids -> in_active q L id σ = true) -> polls (eq L) no_new σ (cleanup_jobs q L ids σ).1.
Proof.
  revert σ. induction ids as [|j ids IH]; intros σ Hok Hn Hin; cbn [cleanup_jobs]; [by apply polls_refl|].
  apply NoDup_cons in Hn as [Hj Hn]. destruct (ml_lease_alive q σ j) eqn:Ha; [apply IH; set_solver|].
  destruct (ml_reclaim_polls q σ L j Hok (Hin j ltac:(set_solver)) Ha) as [H1 Hf].
  specialize (IH (ml_reclaim q L j σ) (pl_ok q _ _ _ _ H1) Hn).
  destruct (cleanup_jobs q L ids (ml_reclaim q L j σ)) as [σ' timed]. cbn [fst] in *. etrans; [exact H1|].
  apply IH. intros id Hid. rewrite (fr_active _ _ _ _ _ Hf) by (intros [= ->]; done). set_solver.
Qed.
Lemma cleanup_lane_polls L σ : ml_ok σ -> polls (eq L) no_new σ (cleanup_lane_leases q L σ).1.
Proof.
  intros Hok. apply cleanup_jobs_polls; [done|apply NoDup_fst_map_to_list|].
  intros id ([x a] & -> & Hx)%list_elem_of_fmap. apply elem_of_map_to_list in Hx.
  unfold in_active. by rewrite bool_decide_eq_true_2 by eauto.
Qed.

Lemma release_jobs_polls L ids σ :
  ml_ok σ -> NoDup ids -> (∀ id, id ∈ ids -> in_delayed q L id σ = true) ->
  polls (eq L) no_new σ (foldl (fun σ id => ml_release_delayed q L id σ) σ ids).
Proof.
  revert σ. induction ids as [|j ids IH]; intros σ Hok Hn Hin; cbn [foldl]; [by apply polls_refl|].
  apply NoDup_cons in Hn as [Hj Hn].
  destruct (ml_release_polls q σ L j Hok (Hin j ltac:(set_solver))) as [H1 Hf].
  etrans; [exact H1|]. apply IH; [apply H1|done|]. intros id Hid.
  assert (id <> j) as Hne by (by intros ->). specialize (Hin id ltac:(set_solver)).
  revert Hin. unfold ml_release_delayed. destruct (decide _); ml_views; cbn; by rewrite lookup_delete_ne.
Qed.
Lemma process_delayed_polls L now σ : ml_ok σ -> polls (eq L) no_new σ (process_delayed_jobs q L now σ).
Proof.
  intros Hok. unfold process_delayed_jobs. apply release_jobs_polls; [done| |].
  - eapply sublist_NoDup; [apply zrange_NoDup_fst|apply fmap_sublist, sublist_filter].
  - intros id ([x s] & -> & Hx)%list_elem_of_fmap. apply list_elem_of_filter in Hx as [_ Hx].
    apply elem_of_zrange in Hx. unfold in_delayed. by rewrite bool_decide_eq_true_2 by eauto.
Qed.

(** ** The lanes *)

(** Only the set of lanes and the terminal lists changed: no lane with a job left, and no
    new id is named. *)
Lemma lanes_polls T σ σ' :
  ml_ok σ ->
  (∀ k, k <> KLanes -> k <> KSuccess -> k <> KFailed -> same_at (ml_key_name q k) σ σ') ->
  (∀ id, named q σ' id -> named q σ id) ->
  (∀ lane id, 0 < occ σ lane id -> registered q σ' lane) -> polls T no_new σ σ'.
Proof.
  intros Hok Hs Hnamed Hr.
  assert (∀ lane id, occ σ' lane id = occ σ lane id) as Hocc.
  { intros lane id. unfold MultilaneInv.occ, in_delayed, in_active.
    rewrite <- (sa_list _ _ _ (Hs (KPending lane) ltac:(done) ltac:(done) ltac:(done) : same_at (lane_pending_list_name q lane) σ σ')).
    rewrite <- (sa_zset _ _ _ (Hs (KDelayed lane) ltac:(done) ltac:(done) ltac:(done) : same_at (lane_delayed_zset_name q lane) σ σ')).
    by rewrite <- (sa_hash _ _ _ (Hs (KActive lane) ltac:(done) ltac:(done) ltac:(done) : same_at (lane_active_hash_name q lane) σ σ')). }
  assert (∀ id, hash σ' (ml_job_meta_hash_name q id) = hash σ (ml_job_meta_hash_name q id)) as Hmeta.
  { intros id. symmetry. by apply sa_hash, (Hs (KMeta id)). }
  assert (∀ id t, ml_lease_live q σ' id t <-> ml_lease_live q σ id t) as Hlease.
  { intros id t. unfold ml_lease_live. rewrite (exists_key_same σ σ'); [done|]. by apply (Hs (KLease id t)). }
  assert (sett σ' (ml_dedupe_set_name q) = sett σ (ml_dedupe_set_name q)) as Hd
    by (symmetry; by apply sa_set, (Hs KDedupe)).
  split.
  - split.
    + intros lane id. rewrite Hocc. apply (mo_once q σ Hok).
    + intros lane id Hp. rewrite Hocc in Hp. destruct (mo_home q σ Hok lane id Hp) as (H1 & H2 & _ & H4).
      unfold lane_of in *. rewrite Hmeta, Hd, <- (sa_hash _ _ _ (Hs (KData) ltac:(done) ltac:(done) ltac:(done) : same_at (ml_job_data_hash_name q) σ σ')).
      split_and!; [done|done|by eapply Hr|done].
    + intros id Hid. by apply (mo_plain q σ Hok), Hnamed.
    + intros id t Hc Ht%Hlease. destruct (mo_lease q σ Hok id t Hc Ht) as (lane & H1 & H2 & H3). exists lane.
      unfold lane_of, ml_token, in_active in *.
      rewrite Hmeta, <- (sa_hash _ _ _ (Hs (KActive lane) ltac:(done) ltac:(done) ltac:(done) : same_at (lane_active_hash_name q lane) σ σ')). done.
  - intros lane id. by rewrite Hocc.
  - intros id _. unfold lane_of. by rewrite Hmeta.
  - symmetry. by apply sa_hash, (Hs KData).
  - intros id t _. apply Hlease.
  - intros id t _ Ht%Hlease. by left.
  - intros lane _. symmetry. by apply sa_list, (Hs (KPending lane)).
Qed.

Lemma refresh_lane_polls now L s σ : ml_ok σ -> polls (eq L) no_new σ (refresh_lane q now L s σ).1.
Proof.
  intros Hok. unfold refresh_lane. destruct (s =? now)%N; [by apply polls_refl|].
  pose proof (cleanup_lane_polls L σ Hok) as H1. destruct (cleanup_lane_leases q L σ) as [σ1 timed]. cbn [fst] in *.
  pose proof (process_delayed_polls L now σ1 (pl_ok q _ _ _ _ H1)) as H2.
  etrans; [exact H1|]. etrans; [exact H2|]. apply lanes_polls; [apply H2| | |].
  - intros k Hk _ _. apply wrun_frame. by apply not_eq_sym, (plain_key_ne q KLanes).
  - intros id. unfold named. by ml_simp.
  - intros lane id Hp. apply (mo_home q _ (pl_ok q _ _ _ _ H2)) in Hp as (_ & _ & Hr & _). unfold registered in *.
    ml_simp. cbn. rewrite lookup_insert_is_Some'. auto.
Qed.

Lemma drop_empty_lane_polls L σ : ml_ok σ -> polls (eq L) no_new σ (drop_empty_lane q L σ).
Proof.
  intros Hok. unfold drop_empty_lane. case_bool_decide as Hp; [|by apply polls_refl].
  case_bool_decide as Hd; [|by apply polls_refl]. case_bool_decide as Ha; [|by apply polls_refl]. cbn [andb].
  apply lanes_polls; [done|intros k Hk _ _; by apply wrun_frame, not_eq_sym, (plain_key_ne q KLanes)|intros id; unfold named; by ml_simp|].
  intros lane id Hocc. apply (mo_home q _ Hok) in Hocc as Hh. destruct Hh as (_ & _ & Hr & _). unfold registered in *.
  ml_simp. rewrite lookup_zrem_members. rewrite decide_False; [done|]. intros ->%list_elem_of_singleton.
  unfold MultilaneInv.occ, in_delayed, in_active in Hocc. rewrite Hp, Hd, Ha, !lookup_empty in Hocc. cbn in Hocc. lia.
Qed.

(** ** Handing a job out *)

Lemma rpop_frame σ L j :
  last (lst σ (lane_pending_list_name q L)) = Some j -> frame q L j σ (wrun (RPOP (lane_pending_list_name q L)) σ).
Proof.
  intros Hlast. split.
  - intros lane id Hne. ml_views. case_decide as Hk; [|done]. apply lane_pending_inj in Hk as <-.
    rewrite (times_removelast id _ j Hlast), decide_False; [lia|]. by intros ->.
  - intros lane id Hne. by ml_views.
  - intros id Hid Hne. by ml_views.
  - intros id Hid Hne. by ml_views.
  - intros id t Hid Hne. apply wrun_frame. cbn [wkey]. ml_keys_ne.
  - intros id Hne. by ml_views.
  - intros id. unfold named. ml_simp. auto.
  - intros lane. by ml_views.
  - intros lane Hne. by ml_simp.
  - intros id Hne. by ml_views.
Qed.

(** A waiting job has no lease and is not active. *)
Lemma waiting_job σ L j :
  ml_ok σ -> last (lst σ (lane_pending_list_name q L)) = Some j ->
  no_colon j /\ lane_of q j σ = Some L /\ j ∈ sett σ (ml_dedupe_set_name q) /\
  in_active q L j σ = false /\ in_delayed q L j σ = false /\ is_Some (hash σ (ml_job_data_hash_name q) !! j) /\
  times j (lst σ (lane_pending_list_name q L)) = 1 /\ (∀ t, ml_lease_live q σ j t -> False).
Proof.
  intros Hok Hlast. assert (j ∈ lst σ (lane_pending_list_name q L)) as Hin by (by apply last_Some_elem_of).
  apply times_pos in Hin. assert (0 < occ σ L j) as Hp by (unfold MultilaneInv.occ; lia).
  destruct (mo_home q σ Hok L j Hp) as (Hl & Hd & _ & Hs). pose proof (live_plain_ml q σ L j Hok Hp) as Hc.
  pose proof (mo_once q σ Hok L j) as H1. unfold MultilaneInv.occ in H1.
  assert (in_active q L j σ = false) as Ha by (destruct (in_active q L j σ); cbn in H1; [lia|done]).
  split_and!; [done..| | | |].
  - destruct (in_delayed q L j σ); cbn in H1; [lia|done].
  - done.
  - lia.
  - intros t. by apply (inactive_unleased q σ L).
Qed.

Definition ml_lease_pipeline (now : N) (pop_id : string) (lease_seconds : N) (L j : string) (attempts : N) : pipeline :=
  let meta := ml_job_meta_hash_name q j in
  let token := lease_token_of now j attempts pop_id in
  [ HSET meta "processed_at" (u64_to_string now);
    HSET meta "attempts" (u64_to_string attempts);
    SET (ml_lease_key_name q j token) "1";
    EXPIRE (ml_lease_key_name q j token) lease_seconds;
    HSET meta "lease_token" token;
    HSET (lane_active_hash_name q L) j (u64_to_string attempts) ].

(** A lane with nothing waiting hands out nothing; otherwise it hands out the last one. *)
Lemma pop_job_cases now pop_id secs L σ :
  ml_ok σ ->
  (lst σ (lane_pending_list_name q L) = [] /\ pop_job_from_lane q now pop_id secs L σ = (σ, None)) \/
  ∃ j data attempts created_at,
    last (lst σ (lane_pending_list_name q L)) = Some j /\ hash σ (ml_job_data_hash_name q) !! j = Some data /\
    pop_job_from_lane q now pop_id secs L σ =
      (prun (ml_lease_pipeline now pop_id secs L j attempts) (wrun (RPOP (lane_pending_list_name q L)) σ),
       Some (mkPopped j data (u64_to_string attempts) created_at (u64_to_string now)
               (lease_token_of now j attempts pop_id))).
Proof.
  intros Hok. unfold pop_job_from_lane. destruct (last _) as [j|] eqn:Hlast.
  - right. destruct (waiting_job σ L j Hok Hlast) as (_ & _ & _ & _ & _ & [data Hd] & _). exists j, data. rewrite hash_wrun, Hd.
    unfold hincr. eexists _, _. split_and!; [done|done|]. reflexivity.
  - left. split; [|done]. by apply last_None.
Qed.

Lemma pop_job_polls now pop_id secs L σ :
  ml_ok σ ->
  let '(σ', popped) := pop_job_from_lane q now pop_id secs L σ in
  polls (eq L) (fun id t => ∃ job, popped = Some job /\ id = pj_id job /\ t = pj_lease_token job) σ σ' /\
  match popped with
  | None => lst σ (lane_pending_list_name q L) = [] /\ σ' = σ
  | Some job =>
      let j := pj_id job in
      last (lst σ (lane_pending_list_name q L)) = Some j /\
      ml_lease_live q σ' j (pj_lease_token job) /\ hash σ (ml_job_data_hash_name q) !! j = Some (pj_data job)
  end.
Proof.
  intros Hok. destruct (pop_job_cases now pop_id secs L σ Hok) as [[He ->]|(j & data & n & cr & Hlast & Hdata & ->)].
  { split; [by apply polls_refl|done]. }
  destruct (waiting_job σ L j Hok Hlast) as (Hc & Hl & Hd & Ha & Hde & _ & Ht & Hno).
  pose proof (rpop_frame σ L j Hlast) as Hf. pose proof (times_removelast j _ j Hlast) as Hr. rewrite decide_True in Hr by done.
  set (tok := lease_token_of now j n pop_id). cbn [pj_id pj_lease_token pj_data].
  assert (ml_lease_live q (prun (ml_lease_pipeline now pop_id secs L j n) (wrun (RPOP (lane_pending_list_name q L)) σ)) j tok) as Hlive.
  { unfold ml_lease_live, exists_key, ml_lease_pipeline. fold tok. cbn [prun foldl]. ml_simp.
    by rewrite bool_decide_eq_true_2. }
  assert (∀ t, ml_lease_live q (prun (ml_lease_pipeline now pop_id secs L j n) (wrun (RPOP (lane_pending_list_name q L)) σ)) j t -> t = tok) as Hold.
  { intros t Hlt. destruct (decide (t = tok)) as [|Hne]; [done|].
    apply lease_kept in Hlt; [|unfold ml_lease_pipeline; fold tok; wkeys_ne].
    change (wrun ?c σ) with (prun [c] σ) in Hlt. apply lease_kept in Hlt as []%Hno. wkeys_ne. }
  split; [|done]. apply (polls_job q _ σ _ L j Hok Hc Hl).
  - etrans; [exact Hf|]. apply abouts_frame; [unfold ml_lease_pipeline; abouts|done].
  - unfold in_delayed, in_active in Ha, Hde. unfold ml_lease_pipeline. ml_views. rewrite lookup_insert_eq, Ha, Hde. cbn. lia.
  - unfold ml_lease_pipeline. ml_views. by rewrite !lookup_insert_ne.
  - intros _. unfold ml_lease_pipeline. by ml_views.
  - unfold ml_lease_pipeline. by ml_views.
  - intros t []%Hno.
  - intros t ->%Hold. right. by eexists.
  - intros t ->%Hold. unfold ml_lease_pipeline. fold tok. ml_views. by rewrite !lookup_insert_eq.
Qed.

(** ** Cancellations, one after another *)

Lemma ml_cancellations_polls now reqs σ :
  ml_ok σ -> Forall no_colon reqs -> polls (fun _ => True) no_new σ (ml_process_cancellations q now reqs σ).1.
Proof.
  intros Hok Hreqs. revert σ Hok. induction Hreqs as [|j reqs Hj _ IH]; intros σ Hok; cbn [ml_process_cancellations].
  { by apply polls_refl. }
  destruct (lane_of q j σ) as [L|] eqn:Hl; [|by apply IH].
  pose proof (cleanup_lane_polls L σ Hok) as H1. destruct (cleanup_lane_leases q L σ) as [σ1 timed]. cbn [fst] in H1.
  assert (polls (eq L) no_new σ1 (if in_active q L j σ1 then (σ1, false) else ml_cancel_one q now L j σ1).1) as H2.
  { destruct (in_active q L j σ1) eqn:Ha; [apply polls_refl, H1|].
    apply ml_cancel_one_polls; [apply H1|done| |done]. by rewrite (pl_lane q _ _ _ _ H1). }
  destruct (if in_active q L j σ1 then _ else _) as [σ2 cancelled]. cbn [fst] in H2.
  specialize (IH σ2 (pl_ok q _ _ _ _ H2)). destruct (ml_process_cancellations q now reqs σ2) as [σ3 [cs ts]]. cbn [fst] in *.
  etrans; [|exact IH]. apply (polls_weaken q (eq L) _ no_new); [done|done|]. by etrans.
Qed.
End Poll.
