(* ===== verification/MultilaneLoop.v ===== *)
(** The loop of a poll over the lanes: it ends, it goes round in turns, and what it has
    handed out at each point. *)

From Stdlib Require Import String Ascii NArith Lia.
From stdpp Require Import base gmap strings list fin_maps.
From S2P Require Import Prelude Redis RedisProg Json QueueTypes Queue Multilane MultilaneInv.
From S2P Require Import MultilanePoll.

(** ** Turns *)

Section Turns.
Context {A : Type}.
Implicit Types l : list (option A).

(** The lanes from the current one on, round once. *)
Definition rotated l (i : nat) : list (option A) := drop i l ++ take i l.
(** How many lanes found empty are skipped first. *)
Fixpoint leading l : nat := match l with None :: l' => S (leading l') | _ => 0 end.
Fixpoint empties l : nat := match l with [] => 0 | None :: l' => S (empties l') | Some _ :: l' => empties l' end.

Lemma leading_le l : leading l <= length l.
Proof. induction l as [|[x|] l IH]; cbn; lia. Qed.
Lemma leading_lt l : empties l < length l -> leading l < length l.
Proof. induction l as [|[x|] l IH]; cbn; lia. Qed.
Lemma leading_app l k : leading l < length l -> leading (l ++ k) = leading l.
Proof. induction l as [|[x|] l IH]; cbn; [lia|done|]. intros H. rewrite IH; lia. Qed.
Lemma empties_app l k : empties (l ++ k) = empties l + empties k.
Proof. induction l as [|[x|] l IH]; cbn; lia. Qed.
Lemma empties_le l : empties l <= length l.
Proof. induction l as [|[x|] l IH]; cbn; lia. Qed.

Lemma rotated_head l i x : l !! i = Some x -> rotated l i = x :: (drop (S i) l ++ take i l).
Proof. intros Hx. unfold rotated. by rewrite (drop_S l x i Hx). Qed.
Lemma rotated_next l i v :
  i < length l -> rotated (<[i := v]> l) (next_lane (length l) i) = (drop (S i) l ++ take i l) ++ [v].
Proof.
  intros Hi. assert (take (S i) (<[i := v]> l) = take i l ++ [v]) as Ht.
  { rewrite (take_S_r _ _ v) by (by apply list_lookup_insert_eq). by rewrite take_insert_ge. }
  assert (drop (S i) (<[i := v]> l) = drop (S i) l) as Hd by (by rewrite drop_insert_lt by lia).
  assert (drop (S i) (<[i := v]> l) ++ take (S i) (<[i := v]> l) = (drop (S i) l ++ take i l) ++ [v]) as <-.
  { by rewrite Ht, Hd, app_assoc. }
  unfold rotated, next_lane. destruct (Nat.eqb_spec (S i) (length l)) as [Hn|Hn]; [|done].
  rewrite take_0, app_nil_r, drop_0, (drop_ge _ (S i)), (take_ge _ (S i)) by (rewrite length_insert; lia). done.
Qed.
Lemma rotated_empties l i : empties (rotated l i) = empties l.
Proof. unfold rotated. rewrite empties_app, Nat.add_comm, <- empties_app. by rewrite take_drop. Qed.
Lemma rotated_length l i : length (rotated l i) = length l.
Proof. unfold rotated. rewrite length_app, Nat.add_comm, <- length_app. by rewrite take_drop. Qed.
Lemma next_lane_lt n i : i < n -> next_lane n i < n.
Proof. unfold next_lane. destruct (Nat.eqb_spec (S i) n); lia. Qed.
End Turns.

(** ** The loop ends *)

Section Loop.
Context (q : string) (now : N) (pop_id : string) (batch_size : nat) (secs : N).
#[local] Notation visit := (visit_lane q now pop_id secs).
#[local] Notation visits fuel := (visit_lanes q fuel now pop_id batch_size secs).

Definition going (st : polling) : bool :=
  (po_jobs_popped st <? batch_size) && (po_empty_lanes st <? length (po_lanes st)).
Definition counted (st : polling) : Prop :=
  po_empty_lanes st = empties (po_lanes st) /\ po_index st < length (po_lanes st).

(** The entry of the current lane after a visit, and the counters. *)
Lemma visit_counts st x :
  po_lanes st !! po_index st = Some x ->
  ∃ v, po_lanes (visit st) = <[po_index st := v]> (po_lanes st) /\
    po_index (visit st) = next_lane (length (po_lanes st)) (po_index st) /\
    ((x = None /\ v = None /\ po_jobs_popped (visit st) = po_jobs_popped st /\ po_empty_lanes (visit st) = po_empty_lanes st) \/
     (is_Some x /\ is_Some v /\ po_jobs_popped (visit st) = S (po_jobs_popped st) /\ po_empty_lanes (visit st) = po_empty_lanes st) \/
     (is_Some x /\ v = None /\ po_jobs_popped (visit st) = po_jobs_popped st /\ po_empty_lanes (visit st) = S (po_empty_lanes st))).
Proof.
  intros Hx. unfold visit_lane. rewrite Hx. destruct x as [[L s]|].
  - destruct (refresh_lane _ _ _ _ _) as [σ1 timed]. destruct (pop_job_from_lane _ _ _ _ _ _) as [σ2 [job|]]; cbn.
    + exists (Some (L, now)). naive_solver.
    + exists None. naive_solver.
  - exists None. cbn. split; [by rewrite list_insert_id|]. naive_solver.
Qed.

Lemma empties_insert {A} (l : list (option A)) i x v :
  l !! i = Some x -> empties (<[i := v]> l) + empties [x] = empties l + empties [v].
Proof.
  intros Hx. assert (i < length l) as Hi by (by eapply lookup_lt_Some).
  rewrite <- (rotated_empties (<[i := v]> l) (next_lane (length l) i)), rotated_next by done.
  rewrite <- (rotated_empties l i), (rotated_head l i x Hx).
  change (x :: drop (S i) l ++ take i l) with ([x] ++ (drop (S i) l ++ take i l)). rewrite !empties_app. lia.
Qed.

Lemma counted_visit st : counted st -> counted (visit st).
Proof.
  intros [He Hi]. destruct (lookup_lt_is_Some_2 (po_lanes st) (po_index st) Hi) as [x Hx].
  destruct (visit_counts st x Hx) as (v & Hl & Hix & Hcase). pose proof (empties_insert _ _ _ v Hx) as Hemp.
  split; rewrite Hl; [|rewrite Hix, length_insert; by apply next_lane_lt].
  destruct Hcase as [(-> & -> & _ & ->)|[([y ->] & [z ->] & _ & ->)|([y ->] & -> & _ & ->)]];
    cbn in Hemp; lia.
Qed.

(** Visits left: each full round of skipping ends with a job or an empty lane. *)
Definition visits_left (st : polling) : nat :=
  length (po_lanes st) * ((batch_size - po_jobs_popped st) + (length (po_lanes st) - po_empty_lanes st)) +
  leading (rotated (po_lanes st) (po_index st)).

Lemma visit_progress st :
  counted st -> going st = true -> going (visit st) = false \/ visits_left (visit st) < visits_left st.
Proof.
  intros Hc Hg. pose proof (counted_visit st Hc) as [He' Hi']. destruct Hc as [He Hi].
  destruct (lookup_lt_is_Some_2 (po_lanes st) (po_index st) Hi) as [x Hx].
  destruct (visit_counts st x Hx) as (v & Hl & Hix & Hcase).
  unfold going in Hg. apply andb_true_iff in Hg as [Hb%Nat.ltb_lt Hn%Nat.ltb_lt].
  destruct (decide (po_empty_lanes (visit st) < length (po_lanes (visit st)))) as [Hn'|Hn'].
  2: { left. unfold going. apply andb_false_iff. right. apply Nat.ltb_ge. lia. }
  right. unfold visits_left. pose proof (rotated_length (po_lanes (visit st)) (po_index (visit st))) as Hlen.
  pose proof (leading_lt (rotated (po_lanes (visit st)) (po_index (visit st)))) as Hlead.
  rewrite rotated_empties, Hlen in Hlead. specialize (Hlead ltac:(lia)).
  rewrite (rotated_head _ _ _ Hx). rewrite Hl, Hix in *. rewrite length_insert in *.
  rewrite rotated_next in * by done. set (rest := drop _ _ ++ take _ _) in *. set (n := length (po_lanes st)) in *.
  assert (length rest = n - 1) as Hrest by (rewrite length_app in Hlen; cbn in Hlen; lia).
  destruct Hcase as [(-> & -> & Hp & Hem)|[([y ->] & [z ->] & Hp & Hem)|([y ->] & -> & Hp & Hem)]]; rewrite Hp, Hem in *; cbn [leading].
  - assert (leading (rest ++ [None]) = leading rest) as ->; [|lia]. apply leading_app, leading_lt.
    pose proof (rotated_empties (po_lanes st) (po_index st)) as Hre. rewrite (rotated_head _ _ _ Hx) in Hre.
    fold rest in Hre. change (None :: rest) with ([None] ++ rest) in Hre. rewrite empties_app in Hre. cbn in Hre. lia.
  - nia.
  - nia.
Qed.

Lemma visits_end fuel st : counted st -> visits_left st <= fuel -> going (visits fuel st) = false.
Proof.
  revert st. induction fuel as [|fuel IH]; intros st Hc Hf; cbn [visit_lanes].
  - unfold going. destruct Hc as [He Hi]. pose proof (empties_le (po_lanes st)). unfold visits_left in Hf.
    apply andb_false_iff. rewrite !Nat.ltb_ge. nia.
  - fold (going st). destruct (going st) eqn:Hg; [|done].
    destruct (visit_progress st Hc Hg) as [Hstop|Hlt]; [|apply IH; [by apply counted_visit|lia]].
    destruct fuel as [|fuel']; cbn [visit_lanes]; [done|]. fold (going (visit st)). by rewrite Hstop.
Qed.

(** ** What was handed out *)

(** Jobs a lane got. *)
Definition served (lane : string) (jobs : list (string * popped_job)) : nat := times lane jobs.*1.
Lemma served_snoc lane jobs L job : served lane (jobs ++ [(L, job)]) = served lane jobs + (if decide (L = lane) then 1 else 0).
Proof. unfold served. rewrite fmap_app, times_app. cbn. lia. Qed.

(** A job handed out since [σs]: it was there, nobody held it, and now its lease does. *)
Record handed (σs σ : redis) (r : string * popped_job) : Prop := {
  hd_live : 0 < occ q σs r.1 (pj_id r.2);
  hd_free : ∀ t, ¬ ml_lease_live q σs (pj_id r.2) t;
  hd_lease : ml_lease_live q σ (pj_id r.2) (pj_lease_token r.2);
  hd_data : hash σs (ml_job_data_hash_name q) !! pj_id r.2 = Some (pj_data r.2)
}.

Definition new_leases (jobs : list (string * popped_job)) (id t : string) : Prop :=
  ∃ r, r ∈ jobs /\ id = pj_id r.2 /\ t = pj_lease_token r.2.

(** The state of the loop over the lanes [ls] that started in [σs]. *)
Record looping (ls : list string) (σs : redis) (st : polling) : Prop := {
  lp_polls : polls q (fun _ => True) (new_leases (po_result_jobs st)) σs (po_redis st);
  lp_length : length (po_lanes st) = length ls;
  lp_names : ∀ p L s, po_lanes st !! p = Some (Some (L, s)) -> ls !! p = Some L;
  lp_drained : ∀ p L, ls !! p = Some L -> po_lanes st !! p = Some None ->
    lst (po_redis st) (lane_pending_list_name q L) = [];
  lp_rounds : ∃ r, (∀ p L s, po_lanes st !! p = Some (Some (L, s)) ->
                      served L (po_result_jobs st) = r + (if decide (p < po_index st) then 1 else 0)) /\
                   ∀ L, served L (po_result_jobs st) <= S r;
  lp_popped : po_jobs_popped st = length (po_result_jobs st);
  lp_once : NoDup (map (fun r => pj_id r.2) (po_result_jobs st));
  lp_jobs : Forall (handed σs (po_redis st)) (po_result_jobs st)
}.

Lemma handed_polls T new σs σ σ' r :
  ml_ok q σs -> polls q T new σ σ' -> handed σs σ r -> handed σs σ' r.
Proof.
  intros Hok Hp [H1 H2 H3 H4]. split; [done|done| |done]. apply (pl_lease q _ _ _ _ Hp); [|done].
  by apply (live_plain_ml q σs r.1).
Qed.

(** A visit of lane [L] that handed out what [popped] says. *)
Record visited (L : string) (σ σ' : redis) (popped : option popped_job) : Prop := {
  vi_polls : polls q (eq L) (fun id t => ∃ job, popped = Some job /\ id = pj_id job /\ t = pj_lease_token job) σ σ';
  vi_popped : match popped with
              | None => lst σ' (lane_pending_list_name q L) = []
              | Some job => handed σ σ' (L, job)
              end
}.

Lemma visit_spec L s σ :
  ml_ok q σ ->
  let σ1 := (refresh_lane q now L s σ).1 in
  let '(σ2, popped) := pop_job_from_lane q now pop_id secs L σ1 in
  visited L σ (match popped with Some _ => σ2 | None => drop_empty_lane q L σ2 end) popped.
Proof.
  intros Hok. cbn zeta. pose proof (refresh_lane_polls q now L s σ Hok) as H1. set (σ1 := (refresh_lane q now L s σ).1) in *.
  pose proof (pop_job_polls q now pop_id secs L σ1 (pl_ok q _ _ _ _ H1)) as H2.
  destruct (pop_job_from_lane q now pop_id secs L σ1) as [σ2 [job|]].
  - destruct H2 as (H2 & Hlast & Hlease & Hdata). destruct (waiting_job q σ1 L _ (pl_ok q _ _ _ _ H1) Hlast) as (Hc & _ & _ & _ & _ & _ & Ht & Hno).
    split; [etrans; [|exact H2]; by apply (polls_weaken q (eq L) _ no_new)|]. split; cbn [fst snd].
    + eapply Nat.lt_le_trans; [|apply (pl_occ q _ _ _ _ H1)]. unfold occ. lia.
    + intros t Hl. apply (Hno t). by apply (pl_lease q _ _ _ _ H1).
    + done.
    + by rewrite <- (pl_data q _ _ _ _ H1).
  - destruct H2 as (_ & He & ->). pose proof (drop_empty_lane_polls q L σ1 (pl_ok q _ _ _ _ H1)) as H3. split; [apply (polls_weaken q (eq L) _ no_new); [done|done|by etrans]|].
    revert He. unfold drop_empty_lane. destruct (_ && _); [|done]. by ml_simp.
Qed.

(** A job handed out in this poll is not handed out again. *)
Lemma handed_fresh σs σ σ' r jobs :
  ml_ok q σs -> Forall (handed σs σ) jobs -> handed σ σ' r -> pj_id r.2 ∉ map (fun r => pj_id r.2) jobs.
Proof.
  intros Hok Hall Hr (r' & Heq & Hin)%list_elem_of_fmap. rewrite Forall_forall in Hall.
  apply (hd_free _ _ _ Hr (pj_lease_token r'.2)). rewrite Heq. by apply Hall.
Qed.
Lemma handed_since T new σs σ σ' r : polls q T new σs σ -> ml_ok q σs -> handed σ σ' r -> handed σs σ' r.
Proof.
  intros Hp Hok [H1 H2 H3 H4]. split.
  - eapply Nat.lt_le_trans; [exact H1|]. apply (pl_occ q _ _ _ _ Hp).
  - intros t Ht. apply (H2 t). apply (pl_lease q _ _ _ _ Hp); [|done].
    by apply (live_plain_ml q σ r.1); [apply Hp|].
  - done.
  - by rewrite <- (pl_data q _ _ _ _ Hp).
Qed.

(** Lanes up to the current one are one job ahead of the others; after the last lane a
    new round begins. *)
Lemma rounds_next (lanes : list (option (string * N))) i jobs r :
  (∀ p L s, lanes !! p = Some (Some (L, s)) -> served L jobs = r + (if decide (p < S i) then 1 else 0)) ->
  (∀ L, served L jobs <= S r) ->
  ∃ r', (∀ p L s, lanes !! p = Some (Some (L, s)) ->
           served L jobs = r' + (if decide (p < next_lane (length lanes) i) then 1 else 0)) /\
        ∀ L, served L jobs <= S r'.
Proof.
  intros Hr Hb. unfold next_lane. destruct (Nat.eqb_spec (S i) (length lanes)) as [Hn|Hn]; [|by exists r].
  exists (S r). split; [|intros L; specialize (Hb L); lia]. intros p L s Hp. rewrite (Hr p L s Hp).
  apply lookup_lt_Some in Hp. rewrite decide_True by lia. rewrite decide_False by lia. lia.
Qed.

Section Visit.
Context (ls : list string) (σs : redis) (Hls : NoDup ls) (Hok : ml_ok q σs).

Lemma looping_skip st :
  looping ls σs st -> po_lanes st !! po_index st = Some None -> looping ls σs (visit st).
Proof.
  intros [Hp Hlen Hn Hd (r & Hr & Hb) Hpop Honce Hj] Hx. unfold visit_lane. rewrite Hx.
  split; cbn [po_redis po_lanes po_index po_result_jobs po_jobs_popped]; try done.
  apply (rounds_next _ _ _ r); [|done]. intros p L s HL. rewrite (Hr p L s HL).
  assert (p <> po_index st) by (intros ->; congruence). do 2 case_decide; lia.
Qed.

(** The rounds after lane [i] was served. *)
Lemma rounds_serve st i L s0 v jobs r :
  (∀ p L s, po_lanes st !! p = Some (Some (L, s)) -> ls !! p = Some L) ->
  po_lanes st !! i = Some (Some (L, s0)) -> (∀ L' s, v = Some (L', s) -> L' = L /\ served L jobs = S r) ->
  (∀ L', L' <> L -> served L' jobs = served L' (po_result_jobs st)) -> served L jobs <= S r ->
  (∀ p L s, po_lanes st !! p = Some (Some (L, s)) ->
     served L (po_result_jobs st) = r + (if decide (p < i) then 1 else 0)) ->
  (∀ L, served L (po_result_jobs st) <= S r) ->
  (∀ p L' s, <[i := v]> (po_lanes st) !! p = Some (Some (L', s)) ->
     served L' jobs = r + (if decide (p < S i) then 1 else 0)) /\
  ∀ L', served L' jobs <= S r.
Proof.
  intros Hn Hx Hv Hother HL Hr Hb. split.
  - intros p L' s. rewrite list_lookup_insert. case_decide as Hpi.
    + destruct Hpi as [-> _]. intros [= ->]. destruct (Hv L' s eq_refl) as [-> ->]. rewrite decide_True by lia. lia.
    + intros Hp. assert (p <> i) as Hne.
      { intros ->. apply Hpi. split; [done|]. by eapply lookup_lt_Some. }
      assert (L' <> L) as HL'.
      { intros ->. apply Hne. eapply NoDup_lookup; [exact Hls|by eapply Hn|by eapply Hn]. }
      rewrite Hother by done. rewrite (Hr p L' s Hp). do 2 case_decide; lia.
  - intros L'. destruct (decide (L' = L)) as [->|Hne]; [done|]. by rewrite Hother.
Qed.

Lemma drained_visit new st i L s v σ' :
  looping ls σs st -> po_lanes st !! i = Some (Some (L, s)) -> polls q (eq L) new (po_redis st) σ' ->
  (v = None -> lst σ' (lane_pending_list_name q L) = []) ->
  ∀ p L', ls !! p = Some L' -> <[i := v]> (po_lanes st) !! p = Some None -> lst σ' (lane_pending_list_name q L') = [].
Proof.
  intros Hloop Hx Hv Hnone p L' HL' Hp. pose proof (lp_names _ _ _ Hloop _ _ _ Hx) as HL.
  destruct (decide (p = i)) as [->|Hpi].
  - rewrite list_lookup_insert_eq in Hp by (by eapply lookup_lt_Some). rewrite HL in HL'.
    injection HL' as <-. injection Hp as ->. by apply Hnone.
  - rewrite (pl_other q _ _ _ _ Hv). 2: { intros Heq. apply Hpi. rewrite <- Heq in HL'. by eapply NoDup_lookup. }
    rewrite list_lookup_insert_ne in Hp by done. by apply (lp_drained _ _ _ Hloop p).
Qed.

Lemma looping_visit st : looping ls σs st -> po_index st < length (po_lanes st) -> looping ls σs (visit st).
Proof.
  intros Hloop Hi. destruct (lookup_lt_is_Some_2 _ _ Hi) as [x Hx]. destruct x as [[L s]|]; [|by apply looping_skip].
  pose proof Hloop as [Hp Hlen Hn _ (r & Hr & Hb) Hpop Honce Hj].
  pose proof (visit_spec L s (po_redis st) (pl_ok q _ _ _ _ Hp)) as Hv. unfold visit_lane. rewrite Hx.
  destruct (refresh_lane q now L s (po_redis st)) as [σ1 timed]. cbn [fst] in Hv.
  pose proof (Hr _ _ _ Hx) as HrL. rewrite decide_False in HrL by lia.
  destruct (pop_job_from_lane q now pop_id secs L σ1) as [σ2 [job|]]; destruct Hv as [Hvp Hvj].
  - pose proof (handed_since _ _ σs _ _ _ Hp Hok Hvj) as Hnew.
    split; cbn [po_redis po_lanes po_index po_result_jobs po_jobs_popped].
    + etrans; [eapply polls_weaken; [done| |exact Hp]|eapply polls_weaken; [done| |exact Hvp]]; unfold new_leases.
      * intros id t (r' & Hin & -> & ->). exists r'. set_solver.
      * intros id t (job' & [= <-] & -> & ->). exists (L, job). set_solver.
    + by rewrite length_insert.
    + intros p L' s'. rewrite list_lookup_insert. case_decide as Hpi; [|apply Hn].
      destruct Hpi as [<- _]. intros [= <- _]. by eapply Hn.
    + by eapply drained_visit.
    + rewrite <- (length_insert (po_lanes st) (po_index st) (Some (L, now))).
      destruct (rounds_serve st (po_index st) L s (Some (L, now)) (po_result_jobs st ++ [(L, job)]) r) as [R1 R2]; try done.
      * intros L' s' [= <- _]. split; [done|]. rewrite served_snoc, decide_True by done. lia.
      * intros L' HL'. rewrite served_snoc, decide_False by done. lia.
      * rewrite served_snoc, decide_True by done. lia.
      * by apply (rounds_next _ _ _ r).
    + rewrite length_app. cbn. lia.
    + rewrite map_app. apply NoDup_app. split_and!; [done| |apply NoDup_singleton].
      intros id Hid ->%list_elem_of_singleton. by eapply (handed_fresh σs _ _ (L, job)).
    + apply Forall_app. split; [|by apply Forall_singleton].
      eapply Forall_impl; [exact Hj|]. intros r' Hr'. by eapply handed_polls.
  - split; cbn [po_redis po_lanes po_index po_result_jobs po_jobs_popped]; try done.
    + etrans; [exact Hp|]. eapply polls_weaken; [done| |exact Hvp]. by intros id t (job & [=] & _).
    + by rewrite length_insert.
    + intros p L' s'. rewrite list_lookup_insert. case_decide as Hpi; [by destruct Hpi|apply Hn].
    + by eapply drained_visit.
    + rewrite <- (length_insert (po_lanes st) (po_index st) None).
      destruct (rounds_serve st (po_index st) L s None (po_result_jobs st) r) as [R1 R2]; try done.
      by apply (rounds_next _ _ _ r).
    + eapply Forall_impl; [exact Hj|]. intros r' Hr'. by eapply handed_polls.
Qed.

Lemma looping_visits fuel st :
  looping ls σs st -> counted st -> looping ls σs (visits fuel st) /\ counted (visits fuel st).
Proof.
  revert st. induction fuel as [|fuel IH]; intros st Hl Hc; cbn [visit_lanes]; [done|].
  destruct (_ && _); [|done]. apply IH; [|by apply counted_visit]. apply looping_visit; [done|apply Hc].
Qed.
End Visit.
End Loop.

(** ** The whole poll *)

Section Poll.
Context (q : string) (now : N) (pop_id : string) (batch_size : nat) (secs : N).

Lemma visits_bound fuel st :
  counted st -> po_jobs_popped st <= batch_size ->
  po_jobs_popped (visit_lanes q fuel now pop_id batch_size secs st) <= batch_size.
Proof.
  revert st. induction fuel as [|fuel IH]; intros st Hc Hb; cbn [visit_lanes]; [done|].
  destruct (Nat.ltb_spec (po_jobs_popped st) batch_size); [|done]. destruct (_ <? _); [|done].
  apply IH; [by apply counted_visit|]. destruct Hc as [_ Hi].
  destruct (lookup_lt_is_Some_2 _ _ Hi) as [x Hx].
  destruct (visit_counts q now pop_id secs st x Hx) as (v & _ & _ & Hcase). naive_solver lia.
Qed.

(** What a poll hands out, and to whom. *)
Record polled (σ σ' : redis) (jobs : list (string * popped_job)) : Prop := {
  pd_polls : polls q (fun _ => True) (new_leases jobs) σ σ';
  pd_bound : length jobs <= batch_size;
  pd_once : NoDup (map (fun r => pj_id r.2) jobs);
  pd_jobs : Forall (handed q σ σ') jobs;
  pd_drained : length jobs < batch_size -> ∀ lane, lst σ' (lane_pending_list_name q lane) = [];
  pd_rounds : ∀ lane other, lst σ' (lane_pending_list_name q lane) <> [] -> served other jobs <= S (served lane jobs)
}.

Lemma waiting_occ σ lane : lst σ (lane_pending_list_name q lane) <> [] -> ∃ id, 0 < occ q σ lane id.
Proof.
  intros Hne. destruct (lst σ (lane_pending_list_name q lane)) as [|id l] eqn:E; [done|]. exists id.
  unfold occ. rewrite E. cbn. rewrite decide_True by done. lia.
Qed.

(** A lane that still has waiting jobs when the loop over the registered lanes ends. *)
Lemma waiting_lane ls σs st lane :
  ml_ok q σs -> (∀ L, registered q σs L -> L ∈ ls) -> looping q ls σs st ->
  lst (po_redis st) (lane_pending_list_name q lane) <> [] ->
  ∃ p s, po_lanes st !! p = Some (Some (lane, s)).
Proof.
  intros Hok Hall Hl Hne. destruct (waiting_occ _ _ Hne) as [id Hid].
  assert (0 < occ q σs lane id) as Hid'.
  { eapply Nat.lt_le_trans; [exact Hid|]. apply (pl_occ q _ _ _ _ (lp_polls _ _ _ _ Hl)). }
  destruct (mo_home q σs Hok lane id Hid') as (_ & _ & Hr & _).
  apply Hall, list_elem_of_lookup in Hr as [p Hp]. exists p.
  assert (is_Some (po_lanes st !! p)) as [[[L s]|] Hx].
  { apply lookup_lt_is_Some. rewrite (lp_length _ _ _ _ Hl). by eapply lookup_lt_Some. }
  - pose proof (lp_names _ _ _ _ Hl _ _ _ Hx). exists s. by simplify_eq.
  - by apply (lp_drained _ _ _ _ Hl p lane Hp) in Hx.
Qed.

Lemma looping_start ls timed σ :
  ml_ok q σ -> looping q ls.*1 σ (mkPolling (map Some ls) 0 0 0 [] timed σ).
Proof.
  intros Hok. split; cbn; [by apply polls_refl|by rewrite length_map, length_fmap| | | |done|constructor|constructor].
  - intros p L s Hp. apply list_lookup_fmap_Some in Hp as ([L' s'] & [= <- <-] & Hp). by rewrite list_lookup_fmap, Hp.
  - intros p L _ Hp. by apply list_lookup_fmap_Some in Hp as (? & [=] & _).
  - exists 0. split; [|intros; unfold served; cbn; lia]. intros p L s _. unfold served. cbn. rewrite decide_False by lia. done.
Qed.
Lemma counted_start {A : list (string * N)} timed σ :
  A <> [] -> counted (mkPolling (map Some A) 0 0 0 [] timed σ).
Proof.
  intros Hne. split; cbn [po_lanes po_index po_empty_lanes]; [|rewrite length_map; destruct A; [done|cbn; lia]].
  clear Hne. by induction A.
Qed.

(** The loop over a nonempty listing of the lanes ends within its fuel, with either the
    batch full or every lane found empty. *)
Lemma loop_polled A timed σ :
  ml_ok q σ -> NoDup A.*1 -> (∀ L, registered q σ L -> L ∈ A.*1) -> A <> [] ->
  let st := visit_lanes q (poll_fuel (length A) batch_size) now pop_id batch_size secs
    (mkPolling (map Some A) 0 0 0 [] timed σ) in
  polled σ (po_redis st) (po_result_jobs st).
Proof.
  intros Hok Hnd Hall Hne st. pose proof (looping_start A timed σ Hok) as Hs. pose proof (counted_start timed σ Hne) as Hc.
  destruct (looping_visits q now pop_id batch_size secs A.*1 σ Hnd Hok (poll_fuel (length A) batch_size) _ Hs Hc) as [Hl Hc'].
  assert (po_jobs_popped st <= batch_size) as Hb by (apply visits_bound; [done|cbn; lia]).
  assert (going batch_size st = false) as Hg.
  { apply visits_end; [done|]. unfold visits_left, poll_fuel. cbn [po_lanes po_jobs_popped po_empty_lanes po_index].
    rewrite length_map. assert (leading (rotated (map Some A) 0) = 0) as ->; [|lia]. by destruct A. }
  fold st in Hl, Hc'. assert (∀ lane, lst (po_redis st) (lane_pending_list_name q lane) <> [] -> ∃ p s, po_lanes st !! p = Some (Some (lane, s))) as Hw.
  { intros lane. by apply (waiting_lane A.*1 σ). }
  split; [apply Hl|rewrite <- (lp_popped _ _ _ _ Hl); done|apply Hl|apply Hl| |].
  - rewrite <- (lp_popped _ _ _ _ Hl). intros Hlt lane. unfold going in Hg.
    destruct (Nat.ltb_spec (po_jobs_popped st) batch_size); [|lia]. apply Nat.ltb_ge in Hg.
    destruct (decide (lst (po_redis st) (lane_pending_list_name q lane) = [])) as [|Hn]; [done|].
    destruct (Hw lane Hn) as (p & s & Hp). pose proof (empties_insert _ _ _ None Hp) as He. cbn in He.
    pose proof (empties_le (<[p := None]> (po_lanes st))) as Hle. rewrite length_insert in Hle. destruct Hc'. lia.
  - intros lane other Hn. destruct (Hw lane Hn) as (p & s & Hp). destruct (lp_rounds _ _ _ _ Hl) as (r & Hr & Hb').
    rewrite (Hr _ _ _ Hp). specialize (Hb' other). lia.
Qed.

Lemma polled_after σ σ1 σ' jobs :
  ml_ok q σ -> polls q (fun _ => True) no_new σ σ1 -> polled σ1 σ' jobs -> polled σ σ' jobs.
Proof.
  intros Hok H1 [P1 P2 P3 P4 P5 P6]. split; try done.
  - etrans; [|exact P1]. by apply (polls_weaken q (fun _ => True) _ no_new).
  - eapply Forall_impl; [exact P4|]. intros r Hr. by eapply handed_since.
Qed.

Lemma poll_polled σ :
  ml_ok q σ -> let '(σ', (jobs, _, _)) := ml_pop_script q now pop_id batch_size secs σ in polled σ σ' jobs.
Proof.
  intros Hok. unfold ml_pop_script. set (reqs := elements _).
  assert (Forall no_colon reqs) as Hreqs.
  { apply Forall_forall. intros x Hx%elem_of_elements. apply (mo_plain q σ Hok). unfold named. auto. }
  pose proof (ml_cancellations_polls q now reqs σ Hok Hreqs) as H1.
  destruct (ml_process_cancellations q now reqs σ) as [σ1 [cs ts]]. cbn [fst] in H1.
  apply (polled_after σ σ1); [done|done|]. pose proof (pl_ok q _ _ _ _ H1) as Hok1.
  set (A := zrange (zset σ1 (lanes_zset_name q))).
  assert (∀ L, registered q σ1 L -> L ∈ A.*1) as Hall.
  { intros L [s Hs]. apply list_elem_of_fmap. exists (L, s). split; [done|]. by apply elem_of_zrange. }
  destruct (decide (A = [])) as [Hn|Hne]; [|apply loop_polled; [done|apply zrange_NoDup_fst|done|done]].
  rewrite Hn in *. cbn. assert (∀ lane, lst σ1 (lane_pending_list_name q lane) = []) as He.
  { intros lane. destruct (decide (lst σ1 (lane_pending_list_name q lane) = [])) as [|Hw]; [done|].
    destruct (waiting_occ _ _ Hw) as [id Hid]. destruct (mo_home q σ1 Hok1 lane id Hid) as (_ & _ & Hr & _).
    by apply Hall, elem_of_nil in Hr. }
  split; [by apply polls_refl|cbn; lia|constructor|constructor|done|]. intros lane other Hw. by destruct Hw.
Qed.
End Poll.
