(* ===== verification/MultilaneSteps.v ===== *)
(** Pushes, cancellations, prunings and completions keep the invariant of the multilane
    queue; the step relation of a queue with all its clients. *)

From Stdlib Require Import String Ascii NArith Lia.
From stdpp Require Import base gmap strings list fin_maps.
From S2P Require Import Prelude Redis RedisProg Json QueueTypes Queue Multilane MultilaneInv.
From S2P Require Import MultilanePoll MultilaneLoop.

Section Scripts.
Context (q : string).
#[local] Notation ml_ok := (ml_ok q).
#[local] Notation occ := (occ q).

(** A job that occurs in no lane has no lease. *)
Lemma absent_unleased σ j t : ml_ok σ -> no_colon j -> (∀ L, occ σ L j = 0) -> ml_lease_live q σ j t -> False.
Proof.
  intros Hok Hc Hz Ht. destruct (mo_lease q σ Hok j t Hc Ht) as (L & _ & Ha & _).
  apply in_active_occ in Ha. rewrite Hz in Ha. lia.
Qed.

(** ** Push *)

Lemma push_to_lane_ok L j data now delay pos σ :
  no_colon j -> ml_ok σ -> ml_ok (push_to_lane_script q L j data now delay pos σ).1.
Proof.
  intros Hc Hok. unfold push_to_lane_script. case_bool_decide as Hd; [done|]. cbn [fst].
  set (reg := if decide _ then _ else _). set (put := if (0 <? delay)%N then _ else _).
  assert (∀ L', occ σ L' j = 0) as Hz.
  { intros L'. destruct (decide (occ σ L' j = 0)) as [|Hp]; [done|]. destruct Hd. apply (mo_home q σ Hok L' j). lia. }
  assert (∀ p, reg = p -> registered q σ L \/ p = [ZADD (lanes_zset_name q) [(0%N, L)]]) as Hreg.
  { intros p <-. subst reg. destruct (decide _); [by left|by right]. }
  assert (Forall (about q L j) (reg ++ put)) as Hab.
  { subst reg put. destruct (decide _), (0 <? delay)%N; cbn [app]; abouts. }
  assert (∀ t, Forall (fun c => wkey c <> ml_lease_key_name q j t) (reg ++ put)) as Hk.
  { intros t. subst reg put. destruct (decide _), (0 <? delay)%N; cbn [app]; wkeys_ne. }
  eapply (ml_ok_job q σ _ L j); [done|done| |by intros| | |].
  - apply abouts_frame; [|done]. do 5 (apply Forall_cons; split; [by eauto with multilane|]). exact Hab.
  - specialize (Hz L). subst reg put. revert Hz. destruct (decide _), (0 <? delay)%N; ml_views; cbn;
      rewrite ?times_app, ?lookup_insert_eq; cbn; rewrite ?decide_True by done; destruct (bool_decide _); cbn; lia.
  - intros _. split_and!.
    + subst reg put. destruct (decide _), (0 <? delay)%N; ml_views; rewrite ?lookup_insert_ne by done; by rewrite lookup_insert_eq.
    + subst reg put. destruct (decide _), (0 <? delay)%N; ml_views; set_solver.
    + subst reg put. destruct (decide _), (0 <? delay)%N; ml_views; try done; cbn; rewrite lookup_insert_eq; by eexists.
    + subst reg put. destruct (decide _), (0 <? delay)%N; ml_views; rewrite lookup_insert_eq; by eexists.
  - intros t Ht. exfalso. eapply (absent_unleased σ j t); [done..|]. eapply lease_kept; [|exact Ht].
    do 5 (apply Forall_cons; split; [cbn [wkey]; ml_keys_ne|]). apply Hk.
Qed.

(** ** Cancel *)

Lemma cancel_waiting_polls L j now c σ :
  ml_ok σ -> no_colon j -> lane_of q j σ = Some L -> 0 < occ σ L j -> in_active q L j σ = false ->
  c = LREM (lane_pending_list_name q L) j \/ c = ZREM (lane_delayed_zset_name q L) [j] ->
  polls q (eq L) no_new σ (prun [c; LPUSH (ml_failed_list_name q) j;
    HSET (ml_job_meta_hash_name q j) "finished_at" (u64_to_string now)] σ).
Proof.
  intros Hok Hc Hl Hp Ha Hcase.
  assert (∀ t, ml_lease_live q σ j t -> False) as Hno by (intros t; by apply (inactive_unleased q σ L)).
  apply (polls_job q _ σ _ L j Hok Hc Hl).
  - apply abouts_frame; [destruct Hcase as [->| ->]; abouts|done].
  - destruct Hcase as [->| ->]; ml_views; [rewrite times_filter, decide_True by done; lia|].
    cbn. rewrite lookup_delete_eq. cbn. lia.
  - destruct Hcase as [->| ->]; by ml_views; rewrite lookup_insert_ne.
  - intros _. destruct Hcase as [->| ->]; ml_views; by apply (mo_home q σ Hok L j).
  - destruct Hcase as [->| ->]; by ml_views.
  - intros t []%Hno.
  - intros t []%lease_kept%Hno. destruct Hcase as [->| ->]; wkeys_ne.
  - intros t []%lease_kept%Hno. destruct Hcase as [->| ->]; wkeys_ne.
Qed.
Lemma cancel_mark_polls L j σ :
  ml_ok σ -> no_colon j -> lane_of q j σ = Some L -> in_active q L j σ = true ->
  polls q (eq L) no_new σ (prun [SADD (ml_pending_cancellation_set_name q) j] σ).
Proof.
  intros Hok Hc Hl Ha. apply (polls_job q _ σ _ L j Hok Hc Hl).
  - apply abouts_frame; [abouts|done].
  - by ml_views.
  - by ml_views.
  - intros _. ml_views. apply (mo_home q σ Hok L j). by apply in_active_occ.
  - by ml_views.
  - intros t Ht. apply lease_grown; [wkeys_ne|done].
  - intros t Ht%lease_kept; [by left|wkeys_ne].
  - intros t Ht%lease_kept; [|wkeys_ne]. destruct (mo_lease q σ Hok j t Hc Ht) as (L' & Hl' & Ha' & Ht').
    unfold ml_token in *. ml_views. rewrite Hl in Hl'. by simplify_eq.
Qed.

Lemma ml_cancel_polls j now σ :
  no_colon j -> ml_ok σ -> polls q (fun _ => True) no_new σ (ml_cancel_script q j now σ).1.
Proof.
  intros Hc Hok. unfold ml_cancel_script. destruct (lane_of q j σ) as [L|] eqn:Hl; [|by apply polls_refl].
  assert (∀ b, b = true -> b2n b = 1) as Hb by (by intros ? ->).
  assert (∀ σ', polls q (eq L) no_new σ σ' -> polls q (fun _ => True) no_new σ σ') as Hw.
  { intros σ'. by apply polls_weaken. }
  pose proof (mo_once q σ Hok L j) as H1. unfold MultilaneInv.occ in H1.
  destruct (in_pending q L j σ) eqn:Hpe; [|destruct (in_delayed q L j σ) eqn:Hde; [|destruct (in_active q L j σ) eqn:Ha]];
    cbn [fst]; [| | |by apply polls_refl]; apply Hw.
  - pose proof (in_pending_occ q _ _ _ Hpe) as Hp. apply cancel_waiting_polls; auto.
    unfold in_pending, has_id in Hpe. apply bool_decide_eq_true, times_pos in Hpe.
    destruct (in_active q L j σ); [cbn in H1; lia|done].
  - pose proof (in_delayed_occ q _ _ _ Hde) as Hp. apply cancel_waiting_polls; auto.
    destruct (in_active q L j σ); [cbn in H1; lia|done].
  - by apply cancel_mark_polls.
Qed.

(** ** Pruning *)

Lemma ml_unprotected σ a b j : ml_ok σ -> ml_prune_protected q a b j σ = false -> ∀ L, occ σ L j = 0.
Proof.
  intros Hok. unfold ml_prune_protected. rewrite !orb_false_iff. intros [_ Hl] L.
  destruct (decide (occ σ L j = 0)) as [|Hp]; [done|]. destruct (mo_home q σ Hok L j) as (Hlane & _); [lia|].
  rewrite Hlane, !orb_false_iff in Hl. destruct Hl as [[Ha Hpe] Hde]. unfold MultilaneInv.occ.
  by rewrite Ha, Hde, (in_pending_times q _ _ _ Hpe).
Qed.

(** What pruning keeps: the invariant, the metadata of leased jobs, and every lease. *)
Record prunes (σ σ' : redis) : Prop := {
  pr_ok : ml_ok σ';
  pr_lease : ∀ id t, no_colon id -> ml_lease_live q σ' id t -> ml_lease_live q σ id t /\ lane_of q id σ' = lane_of q id σ
}.
#[export] Instance prunes_trans : Transitive prunes.
Proof.
  intros σ1 σ2 σ3 [A1 A2] [B1 B2]. split; [done|]. intros id t Hid Ht. destruct (B2 id t Hid Ht) as [Ht' ->]. by apply A2.
Qed.
Lemma prunes_refl σ : ml_ok σ -> prunes σ σ.
Proof. by split. Qed.

Lemma ml_prune_one_prunes a b j σ : no_colon j -> ml_ok σ -> prunes σ (ml_prune_one q a b j σ).1.
Proof.
  intros Hc Hok. unfold ml_prune_one. destruct (ml_prune_protected q a b j σ) eqn:Hp; [by apply prunes_refl|]. cbn [fst].
  pose proof (ml_unprotected σ a b j Hok Hp) as Hz.
  match goal with |- prunes σ (prun ?p σ) => assert (frame q "" j σ (prun p σ)) as Hf by (apply abouts_frame; [abouts|done]);
    assert (∀ t, Forall (fun c => wkey c <> ml_lease_key_name q j t) p) as Hk by (intros t; wkeys_ne) end.
  split.
  - eapply (ml_ok_job q σ _ "" j); [done|done|exact Hf|by intros| | |].
    + specialize (Hz ""). revert Hz. ml_views. lia.
    + specialize (Hz ""). revert Hz. ml_views. lia.
    + intros t Ht%lease_kept; [|apply Hk]. exfalso. by eapply absent_unleased.
  - intros id t Hid Ht. destruct (decide (id = j)) as [->|Hne].
    + apply lease_kept in Ht; [|apply Hk]. exfalso. by eapply absent_unleased.
    + split; [|by apply (fr_lane _ _ _ _ _ Hf)]. unfold ml_lease_live in *.
      rewrite <- Ht. apply exists_key_same, (fr_lease _ _ _ _ _ Hf); done.
Qed.
Lemma ml_prune_ids_prunes a b ids σ : Forall no_colon ids -> ml_ok σ -> prunes σ (ml_prune_ids q a b ids σ).1.
Proof.
  intros Hids. revert σ. induction Hids as [|j ids Hc _ IH]; intros σ Hok; cbn [ml_prune_ids]; [by apply prunes_refl|].
  pose proof (ml_prune_one_prunes a b j σ Hc Hok) as H1. destruct (ml_prune_one q a b j σ) as [σ1 n]. cbn [fst] in H1.
  specialize (IH σ1 (pr_ok _ _ H1)). destruct (ml_prune_ids q a b ids σ1) as [σ2 m]. by etrans.
Qed.

Lemma ml_trim_prunes a b max σ :
  a = ml_success_list_name q \/ a = ml_failed_list_name q -> ml_ok σ -> prunes σ (ml_trim_script q a b max σ).1.
Proof.
  intros Ha Hok. unfold ml_trim_script. destruct (drop max (lst σ a)) as [|d ds] eqn:Ed; [by apply prunes_refl|].
  assert (Forall no_colon (d :: ds)) as Hids.
  { apply Forall_forall. intros x Hx. apply (mo_plain q σ Hok). rewrite <- Ed in Hx.
    apply (sublist_subseteq _ _ (sublist_drop _ max)) in Hx. unfold named. destruct Ha as [->| ->]; auto. }
  set (σ1 := match max with O => _ | S _ => _ end).
  assert (polls q (fun _ => True) no_new σ σ1) as H1.
  { assert (∀ k, k <> a -> same_at k σ σ1) as Hs by (intros k Hk; subst σ1; destruct max; by apply wrun_frame).
    assert (∀ x, x ∈ lst σ1 a -> x ∈ lst σ a) as Hsub.
    { intros x. subst σ1. destruct max as [|stop]; rewrite lst_wrun, decide_True by done; [by intros ?%elem_of_nil|].
      apply (sublist_subseteq _ _ (sublist_take _ (S stop))). }
    apply lanes_polls; [done| | |].
    - intros k _ H2 H3. apply Hs, not_eq_sym. destruct Ha as [->| ->]; [by apply (plain_key_ne q KSuccess)|by apply (plain_key_ne q KFailed)].
    - intros id. unfold named. destruct Ha as [->| ->].
      + rewrite <- (sa_set _ _ _ (Hs (ml_dedupe_set_name q) ltac:(ml_keys_ne))), <- (sa_set _ _ _ (Hs (ml_pending_cancellation_set_name q) ltac:(ml_keys_ne))),
          <- (sa_list _ _ _ (Hs (ml_failed_list_name q) ltac:(ml_keys_ne))). naive_solver.
      + rewrite <- (sa_set _ _ _ (Hs (ml_dedupe_set_name q) ltac:(ml_keys_ne))), <- (sa_set _ _ _ (Hs (ml_pending_cancellation_set_name q) ltac:(ml_keys_ne))),
          <- (sa_list _ _ _ (Hs (ml_success_list_name q) ltac:(ml_keys_ne))). naive_solver.
    - intros lane id Hp. unfold registered. rewrite <- (sa_zset _ _ _ (Hs (lanes_zset_name q) ltac:(destruct Ha as [->| ->]; ml_keys_ne))).
      by apply (mo_home q σ Hok lane id). }
  etrans; [|apply (ml_prune_ids_prunes a b _ σ1); [done|apply H1]]. split; [apply H1|]. intros id t Hid Ht.
  split; [|by apply H1]. by destruct (pl_new q _ _ _ _ H1 id t Hid Ht) as [?|[]].
Qed.
End Scripts.

(** ** Completions *)

Section Completions.
Context {T : Type} `{Json T} {Output ErrorData : Type} `{Json Output}.
Context (encode : JobErrorRecord ErrorData -> twmq_result string).
Context (q : string) (options : QueueOptions).

(** The queue's own commands of a completion of the lease [token] on job [id], which was
    read to be in [lane]: of a result of the handler, or of a job whose data does not
    parse. *)
Inductive ml_completion_of (lane : string) : string -> string -> pipeline -> Prop :=
| result_completion now due job res ops :
    ml_completion_operations (T:=T) (Output:=Output) encode q options lane now due job res = Ok ops ->
    ml_completion_of lane (job_id (bj_job job)) (bj_lease_token job) ops
| error_completion now (job : Job (option T)) token error ops :
    queue_error_operations encode q options lane now job token error = Ok ops ->
    ml_completion_of lane (job_id job) token ops.

(** What a completion is made of: commands that leave places, lane and data alone, and
    one of the ways to leave the active hash. *)
Inductive leaving (lane id token : string) : pipeline -> Prop :=
| leaving_done keep now l v extra :
    l = ml_success_list_name q \/ l = ml_failed_list_name q ->
    (extra = [HSET (ml_job_result_hash_name q) id v] \/ extra = append_record (ml_job_errors_list_name q id) v) ->
    (keep = [] \/ keep = [SREM (ml_dedupe_set_name q) id]) ->
    leaving lane id token ([ DEL (ml_lease_key_name q id token); LPUSH l id;
      HSET (ml_job_meta_hash_name q id) "finished_at" now; HDEL (ml_job_meta_hash_name q id) "lease_token" ] ++
      extra ++ keep ++ [ HDEL (lane_active_hash_name q lane) id ])
| leaving_error keep now v :
    (keep = [] \/ keep = [SREM (ml_dedupe_set_name q) id]) ->
    leaving lane id token ([ DEL (ml_lease_key_name q id token); HDEL (lane_active_hash_name q lane) id;
      LPUSH (ml_failed_list_name q) id; HSET (ml_job_meta_hash_name q id) "finished_at" now;
      HDEL (ml_job_meta_hash_name q id) "lease_token" ] ++ append_record (ml_job_errors_list_name q id) v ++ keep)
| leaving_back v now delay position :
    leaving lane id token ([ DEL (ml_lease_key_name q id token); HDEL (ml_job_meta_hash_name q id) "lease_token" ] ++
      append_record (ml_job_errors_list_name q id) v ++ [ HDEL (lane_active_hash_name q lane) id ] ++
      requeue_operations q lane id now delay position).

Lemma forget_cases id : ml_forget_if_active q options id = [] \/ ml_forget_if_active q options id = [SREM (ml_dedupe_set_name q) id].
Proof. unfold ml_forget_if_active. destruct (decide _); auto. Qed.

Lemma completion_leaving lane id token ops : ml_completion_of lane id token ops -> leaving lane id token ops.
Proof.
  intros [now due job res ops' Hops|now job tok error ops' Hops]; revert Hops.
  - unfold ml_completion_operations. destruct res as [out|[error delay position|error]].
    + unfold ml_add_success_operations, ok_or. destruct (to_json out) as [v|]; [|done]. intros [= <-].
      cbn [app]. rewrite <- ?app_assoc. apply (leaving_done _ _ _ (ml_forget_if_active q options _) _ (ml_success_list_name q) v
        [HSET (ml_job_result_hash_name q) _ v]); auto using forget_cases.
    + unfold ml_add_nack_operations. destruct (encode _) as [v|]; [|done]. intros [= <-].
      cbn [app]. rewrite <- ?app_assoc. apply (leaving_back _ _ _ v).
    + unfold ml_add_fail_operations. destruct (encode _) as [v|]; [|done]. intros [= <-].
      cbn [app]. rewrite <- ?app_assoc. apply (leaving_done _ _ _ (ml_forget_if_active q options _) _ (ml_failed_list_name q) v
        (append_record _ v)); auto using forget_cases.
  - unfold queue_error_operations. destruct (encode _) as [v|]; [|done]. intros [= <-]. apply leaving_error, forget_cases.
Qed.

(** Every way of leaving, command by command. *)
Ltac leaving_cases :=
  match goal with
  | H : leaving _ _ _ _ |- _ =>
      destruct H as [keep now l v extra Hl He Hk|keep now v Hk|v now delay position];
      [ destruct Hl as [->| ->], He as [->| ->], Hk as [->| ->]
      | destruct Hk as [->| ->]
      | unfold requeue_operations; destruct delay as [d|]; [|destruct position] ];
      unfold append_record; cbn [app]
  end.

Lemma leaving_about lane id token ops : leaving lane id token ops -> Forall (about q lane id) ops.
Proof. intros Hl. leaving_cases; abouts. Qed.
Lemma leaving_leases lane id token ops σ t :
  no_colon id -> leaving lane id token ops -> ml_lease_live q (prun ops σ) id t -> ml_lease_live q σ id t /\ t <> token.
Proof.
  intros Hc Hl Ht. destruct (decide (t = token)) as [->|Hne].
  - exfalso. revert Ht. unfold ml_lease_live, exists_key. leaving_cases; cbn [prun foldl]; ml_simp; done.
  - split; [|done]. eapply lease_kept; [|exact Ht]. leaving_cases; wkeys_ne.
Qed.
Lemma leaving_job lane id token ops σ :
  no_colon id -> leaving lane id token ops -> in_active q lane id σ = true -> occ q σ lane id = 1 ->
  lane_of q id (prun ops σ) = lane_of q id σ /\
  hash (prun ops σ) (ml_job_data_hash_name q) = hash σ (ml_job_data_hash_name q) /\
  occ q (prun ops σ) lane id <= 1 /\
  (0 < occ q (prun ops σ) lane id -> sett (prun ops σ) (ml_dedupe_set_name q) = sett σ (ml_dedupe_set_name q)).
Proof.
  intros Hc Hl Ha Ho. unfold occ in Ho. rewrite Ha in Ho. cbn in Ho.
  assert (times id (lst σ (lane_pending_list_name q lane)) = 0) as Hp by lia.
  assert (in_delayed q lane id σ = false) as Hd by (destruct (in_delayed q lane id σ); [cbn in Ho; lia|done]).
  unfold in_delayed in Hd. split_and!.
  - leaving_cases; ml_views; repeat first [rewrite lookup_insert_ne by done|rewrite lookup_delete_ne by done]; done.
  - leaving_cases; by ml_views.
  - leaving_cases; ml_views; cbn; rewrite ?times_app, ?lookup_delete_eq, ?lookup_insert_eq, ?Hd; cbn; rewrite ?decide_True by done; lia.
  - leaving_cases; ml_views; cbn; rewrite ?times_app, ?lookup_delete_eq, ?Hd; cbn; (done || lia).
Qed.

Lemma completion_prunes lane id token ops σ :
  ml_ok q σ -> no_colon id -> ml_lease_live q σ id token -> lane_of q id σ = Some lane ->
  ml_completion_of lane id token ops -> prunes q σ (prun ops σ).
Proof.
  intros Hok Hc Hlive Hlane Hl%completion_leaving.
  destruct (mo_lease q σ Hok id token Hc Hlive) as (lane' & Hl' & Ha & Htok). rewrite Hlane in Hl'. injection Hl' as <-.
  pose proof (in_active_occ q σ lane id Ha) as Hp. pose proof (mo_once q σ Hok lane id) as H1.
  destruct (leaving_job lane id token ops σ Hc Hl Ha ltac:(lia)) as (Hlane' & Hdata & Hocc & Hded).
  assert (frame q lane id σ (prun ops σ)) as Hf by (apply abouts_frame; [by eapply leaving_about|done]).
  assert (∀ t, ml_lease_live q (prun ops σ) id t -> False) as Hgone.
  { intros t Ht. destruct (leaving_leases lane id token ops σ t Hc Hl Ht) as [Ht' Hne].
    destruct (mo_lease q σ Hok id t Hc Ht') as (? & _ & _ & Htok'). congruence. }
  split.
  - eapply (ml_ok_job q σ _ lane id); [done|done|done| |done| |intros t []%Hgone].
    + intros L' Hne. by apply (elsewhere q σ lane).
    + intros Hp'. destruct (mo_home q σ Hok lane id Hp) as (_ & Hd & Hr & Hs). rewrite Hlane', Hdata, (Hded Hp').
      split_and!; [done|done|by apply (fr_registered _ _ _ _ _ Hf)|done].
  - intros x t Hx Ht. destruct (decide (x = id)) as [->|Hne]; [by apply Hgone in Ht|].
    split; [|by apply (fr_lane _ _ _ _ _ Hf)]. unfold ml_lease_live in *. rewrite <- Ht.
    by apply exists_key_same, (fr_lease _ _ _ _ _ Hf).
Qed.
End Completions.

(** ** The queue with all its clients *)

(** Nothing of this queue changed. *)
Definition ml_same (q : string) (σ σ' : redis) : Prop := ∀ k, same_at (ml_key_name q k) σ σ'.
Lemma ml_same_prunes q σ σ' : ml_ok q σ -> ml_same q σ σ' -> prunes q σ σ'.
Proof.
  intros Hok Hs. assert (polls q (fun _ => True) no_new σ σ') as Hp.
  { apply lanes_polls; [done|intros; apply Hs| |].
    - intros id. unfold named.
      rewrite <- (sa_set _ _ _ (Hs KDedupe : same_at (ml_dedupe_set_name q) σ σ')).
      rewrite <- (sa_set _ _ _ (Hs KCancel : same_at (ml_pending_cancellation_set_name q) σ σ')).
      rewrite <- (sa_list _ _ _ (Hs KSuccess : same_at (ml_success_list_name q) σ σ')).
      by rewrite <- (sa_list _ _ _ (Hs KFailed : same_at (ml_failed_list_name q) σ σ')).
    - intros lane id Hp. unfold registered. rewrite <- (sa_zset _ _ _ (Hs KLanes : same_at (lanes_zset_name q) σ σ')).
      by apply (mo_home q σ Hok lane id). }
  split; [apply Hp|]. intros id t Hid Ht. split; [|by apply Hp]. by destruct (pl_new q _ _ _ _ Hp id t Hid Ht) as [?|[]].
Qed.
Lemma ml_same_lease q σ σ' id t : ml_same q σ σ' -> ml_lease_live q σ id t -> ml_lease_live q σ' id t.
Proof. intros Hs. unfold ml_lease_live. by rewrite (exists_key_same σ σ' _ (Hs (KLease id t) : same_at (ml_lease_key_name q id t) σ σ')). Qed.

(** The keyspace, the leases handed out so far, and the lanes workers read for theirs. *)
Record ml_config := mkMlConfig {
  mc_redis : redis;
  mc_handed : list (string * string);
  mc_readers : list (string * string * string)
}.
Definition ml_start : ml_config := mkMlConfig redis_empty [] [].

Section Steps.
Context {T : Type} `{Json T} {Output ErrorData : Type} `{Json Output}.
Context (encode : JobErrorRecord ErrorData -> twmq_result string).
Context (q : string) (options : QueueOptions).
Definition leases_of (jobs : list (string * popped_job)) : list (string * string) :=
  map (fun r => (pj_id r.2, pj_lease_token r.2)) jobs.

(** One atomic step.  A poll's lease tokens carry its nanoid, which makes them new; a
    completion reads the job's lane first and commits later, under its lease. *)
Inductive ml_step : ml_config -> ml_config -> Prop :=
| ms_push lane id data now delay pos σ G R :
    no_colon id ->
    ml_step (mkMlConfig σ G R) (mkMlConfig (push_to_lane_script q lane id data now delay pos σ).1 G R)
| ms_cancel id now σ G R :
    no_colon id -> ml_step (mkMlConfig σ G R) (mkMlConfig (ml_cancel_script q id now σ).1 G R)
| ms_poll now pop_id batch_size secs σ σ' jobs cancelled timed_out G R :
    ml_pop_script q now pop_id batch_size secs σ = (σ', (jobs, cancelled, timed_out)) ->
    (∀ l, l ∈ leases_of jobs -> l ∉ G) ->
    ml_step (mkMlConfig σ G R) (mkMlConfig σ' (leases_of jobs ++ G) R)
| ms_read id token lane σ G R :
    (id, token) ∈ G -> lane = default "unknown" (lane_of q id σ) ->
    ml_step (mkMlConfig σ G R) (mkMlConfig σ G ((id, token, lane) :: R))
| ms_complete id token lane hook ops σ G R :
    (id, token, lane) ∈ R -> ml_lease_live q σ id token -> ml_completion_of (T:=T) (Output:=Output) encode q options lane id token ops ->
    ml_same q σ (prun hook σ) ->
    ml_step (mkMlConfig σ G R) (mkMlConfig (prun (hook ++ ops) σ) G R)
| ms_trim a b max σ G R :
    a = ml_success_list_name q \/ a = ml_failed_list_name q ->
    ml_step (mkMlConfig σ G R) (mkMlConfig (ml_trim_script q a b max σ).1 G R)
| ms_expire id token σ G R :
    no_colon id -> ml_step (mkMlConfig σ G R) (mkMlConfig (wrun (DEL (ml_lease_key_name q id token)) σ) G R)
| ms_foreign σ σ' G R : ml_same q σ σ' -> ml_step (mkMlConfig σ G R) (mkMlConfig σ' G R).

(** The invariant, every live lease was handed out, and whoever read a lane under a lease
    that is still alive read the right one. *)
Record config_ok (c : ml_config) : Prop := {
  co_ok : ml_ok q (mc_redis c);
  co_plain : ∀ id t, (id, t) ∈ mc_handed c -> no_colon id;
  co_handed : ∀ id t, no_colon id -> ml_lease_live q (mc_redis c) id t -> (id, t) ∈ mc_handed c;
  co_readers : ∀ id t lane, (id, t, lane) ∈ mc_readers c ->
    (id, t) ∈ mc_handed c /\ (ml_lease_live q (mc_redis c) id t -> lane_of q id (mc_redis c) = Some lane)
}.

Lemma config_prunes σ σ' G R : config_ok (mkMlConfig σ G R) -> prunes q σ σ' -> config_ok (mkMlConfig σ' G R).
Proof.
  intros [C1 C2 C3 C4] [P1 P2]. cbn in *. split; cbn; [done|done| |].
  - intros id t Hid Ht. apply C3; [done|]. by apply (P2 id t).
  - intros id t lane Hin. destruct (C4 id t lane Hin) as [Hh Hl]. split; [done|]. intros Ht.
    destruct (P2 id t (C2 id t Hh) Ht) as [Ht' ->]. auto.
Qed.
Lemma polls_prunes T' σ σ' : polls q T' no_new σ σ' -> prunes q σ σ'.
Proof. intros Hp. split; [apply Hp|]. intros id t Hid Ht. split; [|by apply Hp]. by destruct (pl_new q _ _ _ _ Hp id t Hid Ht) as [?|[]]. Qed.

Lemma push_prunes lane id data now delay pos σ :
  ml_ok q σ -> no_colon id -> prunes q σ (push_to_lane_script q lane id data now delay pos σ).1.
Proof.
  intros Hok Hc. split; [by apply push_to_lane_ok|]. intros x t Hx Ht.
  unfold push_to_lane_script in *. case_bool_decide as Hd; [done|]. cbn [fst] in *.
  assert (x <> id) as Hne.
  { intros ->. apply lease_kept in Ht.
    - destruct (mo_lease q σ Hok id t Hc Ht) as (L & _ & Ha & _). apply in_active_occ in Ha. apply Hd, (mo_home q σ Hok L id Ha).
    - destruct (decide _), (0 <? delay)%N; cbn [app]; wkeys_ne. }
  match goal with |- context [prun ?p σ] => assert (frame q lane id σ (prun p σ)) as Hf end.
  { apply abouts_frame; [|done]. destruct (decide _), (0 <? delay)%N; cbn [app]; abouts. }
  split; [|by apply (fr_lane _ _ _ _ _ Hf)]. unfold ml_lease_live in *. rewrite <- Ht.
  by apply exists_key_same, (fr_lease _ _ _ _ _ Hf).
Qed.
Lemma expire_prunes id token σ : ml_ok q σ -> no_colon id -> prunes q σ (wrun (DEL (ml_lease_key_name q id token)) σ).
Proof.
  intros Hok Hc. set (L := default "" (lane_of q id σ)). change (wrun ?c σ) with (prun [c] σ).
  assert (frame q L id σ (prun [DEL (ml_lease_key_name q id token)] σ)) as Hf by (apply abouts_frame; [abouts|done]).
  assert (∀ t, ml_lease_live q (prun [DEL (ml_lease_key_name q id token)] σ) id t -> ml_lease_live q σ id t) as Hk.
  { intros t Ht. destruct (decide (t = token)) as [->|Hne]; [|eapply lease_kept; [|exact Ht]; wkeys_ne].
    revert Ht. unfold ml_lease_live, exists_key. cbn [prun foldl]. by ml_simp. }
  split.
  - eapply (ml_ok_job q σ _ L id); [done|done|done| | | |].
    + intros L' Hne. destruct (decide (occ q σ L' id = 0)) as [|Hp]; [done|].
      destruct (mo_home q σ Hok L' id) as (Hl & _); [lia|]. subst L. by rewrite Hl in Hne.
    + pose proof (mo_once q σ Hok L id) as H1. revert H1. by ml_views.
    + intros Hp. pose proof (mo_home q σ Hok L id) as Hh. revert Hp Hh. ml_views. auto.
    + intros t Ht%Hk. destruct (mo_lease q σ Hok id t Hc Ht) as (L' & Hl & Ha & Htok). subst L. rewrite Hl. cbn [default].
      revert Hl Ha Htok. by ml_views.
  - intros x t Hx Ht. destruct (decide (x = id)) as [->|Hne]; [split; [auto|by ml_views]|].
    split; [|by apply (fr_lane _ _ _ _ _ Hf)]. unfold ml_lease_live in *. rewrite <- Ht.
    by apply exists_key_same, (fr_lease _ _ _ _ _ Hf).
Qed.

Lemma read_ok id token lane σ G R :
  config_ok (mkMlConfig σ G R) -> (id, token) ∈ G -> lane = default "unknown" (lane_of q id σ) ->
  config_ok (mkMlConfig σ G ((id, token, lane) :: R)).
Proof.
  intros [C1 C2 C3 C4] Hin ->. cbn in *. split; cbn; [done..|].
  intros id' t' lane' [[= -> -> ->]|Hr]%elem_of_cons; [|by apply C4]. split; [done|]. intros Ht.
  destruct (mo_lease q σ C1 id token (C2 _ _ Hin) Ht) as (L & -> & _). done.
Qed.
Lemma poll_ok now pop_id batch_size secs σ σ' jobs cancelled timed_out G R :
  config_ok (mkMlConfig σ G R) ->
  ml_pop_script q now pop_id batch_size secs σ = (σ', (jobs, cancelled, timed_out)) ->
  (∀ l, l ∈ leases_of jobs -> l ∉ G) ->
  config_ok (mkMlConfig σ' (leases_of jobs ++ G) R).
Proof.
  intros [C1 C2 C3 C4] Hpop Hfresh. cbn in *.
  pose proof (poll_polled q now pop_id batch_size secs σ C1) as Hp. rewrite Hpop in Hp. destruct Hp as [Hp _ _ Hj _ _].
  assert (∀ id t, new_leases jobs id t -> (id, t) ∈ leases_of jobs) as Hnew.
  { intros id t (r & Hr & -> & ->). apply list_elem_of_fmap. by exists r. }
  assert (∀ id t, (id, t) ∈ leases_of jobs -> no_colon id) as Hplain.
  { intros id t ([L job] & [= -> ->] & Hr)%list_elem_of_fmap. rewrite Forall_forall in Hj.
    by apply (live_plain_ml q σ L _ C1), (Hj _ Hr). }
  split; cbn; [apply Hp| | |].
  - intros id t [Hl|Hg]%elem_of_app; [by eapply Hplain|by eapply C2].
  - intros id t Hid Ht. apply elem_of_app. destruct (pl_new q _ _ _ _ Hp id t Hid Ht); auto.
  - intros id t lane Hr. destruct (C4 id t lane Hr) as [Hg Hlane]. split; [apply elem_of_app; auto|]. intros Ht.
    assert (no_colon id) as Hid by (by eapply C2). rewrite (pl_lane q _ _ _ _ Hp id Hid).
    destruct (pl_new q _ _ _ _ Hp id t Hid Ht) as [Ht'|Hn]; [auto|]. by destruct (Hfresh _ (Hnew _ _ Hn)).
Qed.

(** Every step of every client keeps the queue in order. *)
Lemma config_step_ok c c' : config_ok c -> ml_step c c' -> config_ok c'.
Proof.
  intros Hc Hstep. destruct Hstep as
    [lane id data now delay pos σ G R Hid|id now σ G R Hid|now pop_id batch secs σ σ' jobs cs ts G R Hpop Hfr
    |id token lane σ G R Hin Hlane|id token lane hook ops σ G R Hin Hlive Hops Hsame|a b max σ G R Ha
    |id token σ G R Hid|σ σ' G R Hsame]; pose proof (co_ok _ Hc) as Hok; cbn in Hok.
  - by eapply config_prunes, push_prunes.
  - eapply config_prunes; [done|]. by eapply polls_prunes, ml_cancel_polls.
  - by eapply poll_ok.
  - by apply read_ok.
  - destruct (co_readers _ Hc id token lane Hin) as [Hg Hlane]. cbn in Hg, Hlane. specialize (Hlane Hlive).
    pose proof (co_plain _ Hc id token Hg) as Hid. pose proof (ml_same_prunes q σ _ Hok Hsame) as Hp.
    pose proof (ml_same_lease q σ _ id token Hsame Hlive) as Hlive'.
    eapply config_prunes; [done|]. etrans; [exact Hp|]. rewrite prun_app.
    eapply completion_prunes; [apply Hp|done|done| |done]. by rewrite (proj2 (pr_lease q _ _ Hp id token Hid Hlive')).
  - by eapply config_prunes, ml_trim_prunes.
  - by eapply config_prunes, expire_prunes.
  - by eapply config_prunes, ml_same_prunes.
Qed.
End Steps.
