(* ===== verification/MultilaneClaims.v ===== *)
(** What the multilane queue guarantees: exclusive leases, polls that end and go round the
    lanes in turns, an invariant over every history of its clients, and the order in which
    a lane serves its jobs; and concrete runs that meet the hypotheses. *)

From Stdlib Require Import String Ascii NArith Lia.
From stdpp Require Import base gmap strings list fin_maps relations.
From S2P Require Import Prelude Redis RedisProg Json QueueTypes Queue Multilane.
From S2P Require Import MultilaneInv MultilanePoll MultilaneLoop MultilaneSteps.

(** ** The invariant *)

Lemma ml_start_ok q : config_ok q ml_start.
Proof.
  split; cbn; [|by intros ? ? ?%elem_of_nil| |by intros ? ? ? ?%elem_of_nil].
  - apply ml_empty_ok.
  - intros id t _ H. by unfold ml_lease_live, exists_key in H.
Qed.

Section Invariant.
Context {T : Type} `{Json T} {Output ErrorData : Type} `{Json Output}.
Context (encode : JobErrorRecord ErrorData -> twmq_result string) (q : string) (options : QueueOptions).

Lemma config_reachable_ok c :
  rtc (ml_step (T:=T) (Output:=Output) encode q options) ml_start c -> config_ok q c.
Proof.
  intros Hr. remember ml_start as c0 eqn:E0. assert (config_ok q c0) as Hq by (subst; apply ml_start_ok).
  clear E0. induction Hr as [|x y z Hxy _ IH]; [done|]. apply IH. by eapply config_step_ok.
Qed.

(** C29: Whatever interleaving of pushes, cancellations, polls, completions, prunings, lease
    expiries and foreign commands led here, a job is in at most one lane, in one of its
    pending list, delayed set and active hash, once; that lane is the one in its metadata
    and is polled, and the job's data is stored.  An existing lease key is the current lease
    of a job active in its lane, and a worker that read the lane of a lease that is still
    alive completes the job in the right lane. *)
Theorem multilane_invariant_reachable c :
  rtc (ml_step (T:=T) (Output:=Output) encode q options) ml_start c ->
  let σ := mc_redis c in
  (∀ lane id, occ q σ lane id <= 1) /\
  (∀ lane id, 0 < occ q σ lane id ->
     lane_of q id σ = Some lane /\ is_Some (zset σ (lanes_zset_name q) !! lane) /\
     is_Some (hash σ (ml_job_data_hash_name q) !! id) /\ ∀ lane', 0 < occ q σ lane' id -> lane' = lane) /\
  (∀ id token, no_colon id -> ml_lease_live q σ id token ->
     ∃ lane, lane_of q id σ = Some lane /\ in_active q lane id σ = true /\
       hash σ (ml_job_meta_hash_name q id) !! "lease_token" = Some token) /\
  (∀ id token lane, (id, token, lane) ∈ mc_readers c -> ml_lease_live q σ id token -> in_active q lane id σ = true).
Proof.
  intros Hr. cbn zeta. pose proof (config_reachable_ok c Hr) as [C1 C2 C3 C4]. split_and!.
  - apply C1.
  - intros lane id Hp. destruct (mo_home q _ C1 lane id Hp) as (Hl & _ & Hreg & Hd). split_and!; [done..|].
    intros lane' Hp'. destruct (mo_home q _ C1 lane' id Hp') as (Hl' & _). congruence.
  - intros id token Hid Ht. by apply (mo_lease q _ C1).
  - intros id token lane Hin Ht. destruct (C4 id token lane Hin) as [Hg Hlane].
    destruct (mo_lease q _ C1 id token (C2 _ _ Hg) Ht) as (L & HL & Ha & _). rewrite (Hlane Ht) in HL. by injection HL as <-.
Qed.
End Invariant.

(** ** Polls *)

Lemma visits_more q now pop_id batch_size secs fuel extra st :
  going batch_size (visit_lanes q fuel now pop_id batch_size secs st) = false ->
  visit_lanes q (fuel + extra) now pop_id batch_size secs st = visit_lanes q fuel now pop_id batch_size secs st.
Proof.
  revert st. induction fuel as [|fuel IH]; intros st; cbn [visit_lanes Nat.add].
  - intros Hg. destruct extra; [done|]. cbn [visit_lanes]. fold (going batch_size st). by rewrite Hg.
  - fold (going batch_size st). destruct (going batch_size st) eqn:Hg; [apply IH|done].
Qed.

(** C31: A poll ends: its loop over the lanes makes at most [poll_fuel] visits, so running
    it longer changes nothing.  If it returns fewer jobs than asked for, no lane has a
    waiting job left; and it goes round in turns: a lane that still has waiting jobs got at
    most one job less than any other lane. *)
Theorem multilane_poll_fair q now pop_id batch_size secs σ σ' jobs cancelled timed_out :
  ml_ok q σ ->
  ml_pop_script q now pop_id batch_size secs σ = (σ', (jobs, cancelled, timed_out)) ->
  (∀ lanes timed τ extra,
     let start := mkPolling (map Some lanes) 0 0 0 [] timed τ in
     let fuel := poll_fuel (length lanes) batch_size in
     visit_lanes q (fuel + extra) now pop_id batch_size secs start = visit_lanes q fuel now pop_id batch_size secs start) /\
  (length jobs < batch_size -> ∀ lane, lst σ' (lane_pending_list_name q lane) = []) /\
  (∀ lane other, lst σ' (lane_pending_list_name q lane) <> [] -> served other jobs <= S (served lane jobs)).
Proof.
  intros Hok Hpop. pose proof (poll_polled q now pop_id batch_size secs σ Hok) as Hp. rewrite Hpop in Hp.
  split; [|split; apply Hp]. intros lanes timed τ extra. cbn zeta. apply visits_more.
  destruct (decide (lanes = [])) as [->|Hne]; [by apply andb_false_r|].
  apply visits_end; [by apply counted_start|]. unfold visits_left, poll_fuel. cbn [po_lanes po_jobs_popped po_empty_lanes po_index].
  rewrite length_map. assert (leading (rotated (map Some lanes) 0) = 0) as ->; [by destruct lanes|lia].
Qed.

(** C30: A poll hands out at most the requested number of jobs, each once; each was in its
    lane and leased to nobody before the poll, and afterwards is active in that lane under
    exactly the lease that was handed out, with the stored data; and a job whose lease is
    alive stays with its holder. *)
Theorem multilane_pop_exclusive q now pop_id batch_size secs σ σ' jobs cancelled timed_out :
  ml_ok q σ ->
  ml_pop_script q now pop_id batch_size secs σ = (σ', (jobs, cancelled, timed_out)) ->
  length jobs <= batch_size /\ NoDup (map (fun r => pj_id r.2) jobs) /\
  (∀ lane job, (lane, job) ∈ jobs ->
     0 < occ q σ lane (pj_id job) /\ (∀ token, ¬ ml_lease_live q σ (pj_id job) token) /\
     in_active q lane (pj_id job) σ' = true /\ ml_lease_live q σ' (pj_id job) (pj_lease_token job) /\
     hash σ' (ml_job_meta_hash_name q (pj_id job)) !! "lease_token" = Some (pj_lease_token job) /\
     hash σ' (ml_job_data_hash_name q) !! pj_id job = Some (pj_data job)) /\
  (∀ id token, no_colon id -> ml_lease_live q σ id token ->
     ml_lease_live q σ' id token /\ id ∉ map (fun r => pj_id r.2) jobs).
Proof.
  intros Hok Hpop. pose proof (poll_polled q now pop_id batch_size secs σ Hok) as Hp. rewrite Hpop in Hp.
  destruct Hp as [Hp Hb Hn Hj _ _]. rewrite Forall_forall in Hj. split_and!; [done|done| |].
  - intros lane job Hin. destruct (Hj _ Hin) as [H1 H2 H3 H4]. cbn in *.
    pose proof (live_plain_ml q σ lane _ Hok H1) as Hid.
    destruct (mo_lease q _ (pl_ok q _ _ _ _ Hp) _ _ Hid H3) as (L & HL & Ha & Ht).
    rewrite (pl_lane q _ _ _ _ Hp _ Hid) in HL. destruct (mo_home q σ Hok lane _ H1) as (Hl & _).
    rewrite Hl in HL. injection HL as <-. split_and!; [done..|]. by rewrite (pl_data q _ _ _ _ Hp).
  - intros id token Hid Ht. split; [by apply (pl_lease q _ _ _ _ Hp)|].
    intros (r & -> & Hin)%list_elem_of_fmap. by apply (hd_free _ _ _ _ (Hj _ Hin) token).
Qed.

(** ** The order within a lane *)

Lemma pop_last q now pop_id secs lane id data l σ :
  lst σ (lane_pending_list_name q lane) = l ++ [id] -> hash σ (ml_job_data_hash_name q) !! id = Some data ->
  ∃ σ' job, pop_job_from_lane q now pop_id secs lane σ = (σ', Some job) /\ pj_id job = id /\ pj_data job = data /\
    lst σ' (lane_pending_list_name q lane) = l.
Proof.
  intros Hl Hd. unfold pop_job_from_lane.
  rewrite Hl, last_snoc. assert (hash (wrun (RPOP (lane_pending_list_name q lane)) σ) (ml_job_data_hash_name q) !! id = Some data) as ->.
  { by ml_simp. }
  unfold hincr. cbn beta iota zeta. eexists _, _. split_and!; [done|done|done|]. cbn [prun foldl].
  ml_simp. rewrite Hl. by rewrite removelast_last.
Qed.

(** C32: A lane serves its jobs newest first: a job pushed without a delay is the next one
    the lane hands out, before every job that was waiting; so is a job that a worker sends
    back with position [Last], while one sent back with position [First] comes after the
    ones that wait. *)
Theorem multilane_newest_first q now pop_id secs lane id data older held waiting σ :
  id ∉ sett σ (ml_dedupe_set_name q) ->
  lst σ (lane_pending_list_name q lane) = waiting ++ [older] ->
  is_Some (hash σ (ml_job_data_hash_name q) !! older) -> is_Some (hash σ (ml_job_data_hash_name q) !! held) ->
  let next τ := pj_id <$> (pop_job_from_lane q now pop_id secs lane τ).2 in
  next σ = Some older /\
  next (push_to_lane_script q lane id data now 0 "last" σ).1 = Some id /\
  next (prun (requeue_operations q lane held now None Last) σ) = Some held /\
  next (prun (requeue_operations q lane held now None First) σ) = Some older.
Proof.
  intros Hd Hl [d1 H1] [d2 H2]. cbn zeta.
  assert (∀ τ l x d, lst τ (lane_pending_list_name q lane) = l ++ [x] -> hash τ (ml_job_data_hash_name q) !! x = Some d ->
    pj_id <$> (pop_job_from_lane q now pop_id secs lane τ).2 = Some x) as Hnext.
  { intros τ l x d Hx Hdx. destruct (pop_last q now pop_id secs lane x d l τ Hx Hdx) as (τ' & job & -> & <- & _). done. }
  split_and!; eapply Hnext; try eassumption; unfold push_to_lane_script, requeue_operations;
    rewrite ?bool_decide_eq_false_2 by done; cbn [fst].
  - destruct (decide _); cbn [app prun foldl N.ltb N.compare]; ml_simp; reflexivity.
  - destruct (decide _); cbn [app prun foldl N.ltb N.compare]; ml_simp; apply lookup_insert_eq.
  - cbn [prun foldl]. ml_simp. reflexivity.
  - cbn [prun foldl]. ml_simp. rewrite Hl. by instantiate (1 := held :: waiting).
Qed.

(** Job data, results and errors are strings here. *)
#[local] Instance payload_codec : Json string := countable_json.
Definition lanes1 : string := "orders".
Definition encode1 (r : JobErrorRecord string) : twmq_result string := Ok (jer_error _ r).
Definition ml_step1 := ml_step (T:=string) (Output:=string) encode1 lanes1 queue_options_default.
Definition data1 : string := default "" (to_json "payload").

(** Three jobs in lane "a", one in lane "b"; a poll for three jobs; a worker reads the lane
    of its first job and completes it. *)
Definition push1 (lane id : string) (σ : redis) : redis := (push_to_lane_script lanes1 lane id data1 100 0 "last" σ).1.
Definition υ1 : redis := Eval vm_compute in push1 "a" "a1" redis_empty.
Definition υ2 : redis := Eval vm_compute in push1 "a" "a2" υ1.
Definition υ3 : redis := Eval vm_compute in push1 "a" "a3" υ2.
Definition υ4 : redis := Eval vm_compute in push1 "b" "b1" υ3.
Definition poll1 := Eval vm_compute in ml_pop_script lanes1 105 "p1" 3 30 υ4.
Definition υ5 : redis := Eval vm_compute in poll1.1.
Definition polled1 : list (string * popped_job) := Eval vm_compute in poll1.2.1.1.
Definition token_a3 : string := lease_token_of 105 "a3" 1 "p1".
Definition job_a3 : BorrowedJob string := mkBorrowedJob (mkJob "a3" "payload" 1 100 (Some 105%N) None) token_a3.
Definition ops_a3 : pipeline :=
  match ml_completion_operations encode1 lanes1 queue_options_default "a" 110 110 job_a3 (Ok "done") with
  | Ok p => p
  | Err _ => []
  end.
Definition υ6 : redis := Eval vm_compute in prun ([] ++ ops_a3) υ5.
Definition handed1 : list (string * string) := Eval vm_compute in leases_of polled1.
Definition final1 : ml_config := mkMlConfig υ6 handed1 [("a3", token_a3, "a")].

Lemma pushed1 : rtc ml_step1 ml_start (mkMlConfig υ4 [] []).
Proof.
  unfold ml_step1, ml_start.
  eapply rtc_l; [exact (ms_push _ _ _ "a" "a1" data1 100 0 "last" redis_empty [] [] eq_refl)|].
  eapply rtc_l; [exact (ms_push _ _ _ "a" "a2" data1 100 0 "last" υ1 [] [] eq_refl)|].
  eapply rtc_l; [exact (ms_push _ _ _ "a" "a3" data1 100 0 "last" υ2 [] [] eq_refl)|].
  apply rtc_once. exact (ms_push _ _ _ "b" "b1" data1 100 0 "last" υ3 [] [] eq_refl).
Qed.
Lemma completed1 : rtc ml_step1 ml_start final1.
Proof.
  eapply rtc_trans; [exact pushed1|]. apply rtc_l with (mkMlConfig υ5 handed1 []).
  { apply (ms_poll _ _ _ 105 "p1" 3 30 υ4 υ5 polled1 [] [] [] []); [vm_compute; reflexivity|]. intros l _ []%elem_of_nil. }
  apply rtc_l with (mkMlConfig υ5 handed1 [("a3", token_a3, "a")]).
  { apply (ms_read _ _ _ "a3" token_a3 "a" υ5 handed1 []); [|vm_compute; reflexivity]. vm_compute. left. }
  apply rtc_once. apply (ms_complete _ _ _ "a3" token_a3 "a" [] ops_a3 υ5 handed1 [("a3", token_a3, "a")]).
  - left.
  - vm_compute. reflexivity.
  - apply (result_completion _ _ _ "a" 110 110 job_a3 (Ok "done")). vm_compute. reflexivity.
  - intros k. split; reflexivity.
Qed.
Lemma pushed1_ok : ml_ok lanes1 υ4.
Proof. exact (co_ok _ _ (config_reachable_ok encode1 lanes1 queue_options_default _ pushed1)). Qed.

Lemma multilane_invariant_reachable_witness :
  rtc ml_step1 ml_start final1 /\ lst υ6 (ml_success_list_name lanes1) = ["a3"] /\
  ∀ lane id, occ lanes1 υ6 lane id <= 1.
Proof.
  split; [exact completed1|]. split; [vm_compute; reflexivity|].
  destruct (multilane_invariant_reachable encode1 lanes1 queue_options_default final1 completed1) as [H _]. exact H.
Defined.

Lemma multilane_poll_fair_witness :
  polled1.*1 = ["a"; "b"; "a"] /\ lst υ5 (lane_pending_list_name lanes1 "a") = ["a1"] /\
  served "b" polled1 <= S (served "a" polled1).
Proof.
  split; [reflexivity|]. split; [vm_compute; reflexivity|].
  destruct (multilane_poll_fair lanes1 105 "p1" 3 30 υ4 υ5 polled1 [] []) as (_ & _ & H);
    [exact pushed1_ok|vm_compute; reflexivity|]. apply (H "a" "b"). vm_compute. discriminate.
Defined.

Lemma multilane_pop_exclusive_witness :
  map (fun r => pj_id r.2) polled1 = ["a3"; "b1"; "a2"] /\ length polled1 <= 3 /\
  ∀ lane job, (lane, job) ∈ polled1 -> in_active lanes1 lane (pj_id job) υ5 = true.
Proof.
  split; [reflexivity|].
  destruct (multilane_pop_exclusive lanes1 105 "p1" 3 30 υ4 υ5 polled1 [] []) as (H1 & _ & H3 & _);
    [exact pushed1_ok|vm_compute; reflexivity|].
  split; [exact H1|]. intros lane job Hj. apply (H3 lane job Hj).
Defined.

(** "a9" comes after "a1" and is served first; "a3", sent back as [First], waits. *)
Lemma multilane_newest_first_witness :
  (pj_id <$> (pop_job_from_lane lanes1 120 "p2" 30 "a" (push_to_lane_script lanes1 "a" "a9" data1 120 0 "last" υ5).1).2) = Some "a9" /\
  (pj_id <$> (pop_job_from_lane lanes1 120 "p2" 30 "a" (prun (requeue_operations lanes1 "a" "a3" 120 None First) υ5)).2) = Some "a1".
Proof.
  destruct (multilane_newest_first lanes1 120 "p2" 30 "a" "a9" data1 "a1" "a3" [] υ5) as (_ & H2 & _ & H4).
  - vm_compute. intros H. inversion H.
  - vm_compute. reflexivity.
  - vm_compute. eexists. reflexivity.
  - vm_compute. eexists. reflexivity.
  - split; [exact H2|exact H4].
Defined.
