(* ===== verification/SolanaStore.v ===== *)
(** Solana transactions and the storage of their attempts.

    First transactions before they are signed and as wire bytes
    (solana-core/src/transaction.rs) and the options of a request
    (core/src/execution_options/solana.rs); the SDK's messages, its bincode codec and the
    text encodings of other crates are the fields of [SolanaSdk].  Then the Redis storage
    (executors/src/solana_executor/storage.rs): one signed attempt per transaction, written
    before it is sent and only under the transaction's lock, and the admission record that
    outlives the job. *)

From Stdlib Require Import String Ascii NArith Lia.
From stdpp Require Import base strings list option gmap fin_maps.
From S2P Require Import Fairness Prelude Json JsonValue RecoveryChecks Redis RedisProg.

(** ** Requests *)

Inductive InstructionDataEncoding := EncHex | EncBase64.

Record SolanaAccountMeta := mkSolanaAccountMeta {
  sam_pubkey : string;
  sam_is_signer : bool;
  sam_is_writable : bool
}.
Record SolanaInstructionData := mkSolanaInstructionData {
  si_program_id : string;
  si_accounts : list SolanaAccountMeta;
  si_data : string;
  si_encoding : InstructionDataEncoding
}.
Inductive SolanaTransactionInput :=
| SiInstructions (instructions : list SolanaInstructionData)
| SiSerialized (transaction : string).

Definition chain_as_str (c : SolanaChainId) : string :=
  match c with
  | SolanaMainnet => "solana:mainnet"
  | SolanaDevnet => "solana:devnet"
  | SolanaLocal => "solana:local"
  end.

Inductive SolanaPriorityFee :=
| PfAuto
| PfManual (micro_lamports_per_unit : N)
| PfPercentile (percentile : N).
Inductive CommitmentLevel := ClConfirmed | ClFinalized.
(** The SDK's levels. *)
Inductive SolanaCommitmentLevel := CmProcessed | CmConfirmed | CmFinalized.
Definition to_commitment_level (c : CommitmentLevel) : SolanaCommitmentLevel :=
  match c with ClConfirmed => CmConfirmed | ClFinalized => CmFinalized end.

Record SolanaExecutionOptions := mkSolanaExecutionOptions {
  so_signer_address : string;
  so_chain_id : SolanaChainId;
  so_max_blockhash_retries : N;
  so_commitment : CommitmentLevel;
  so_priority_fee : option SolanaPriorityFee;
  so_compute_unit_limit : option N
}.
Record SolanaTransactionOptions := mkSolanaTransactionOptions {
  sto_input : SolanaTransactionInput;
  sto_execution_options : SolanaExecutionOptions
}.

(** ** Transactions *)

Record AccountMeta := mkAccountMeta { am_pubkey : string; am_is_signer : bool; am_is_writable : bool }.
Record Instruction := mkInstruction {
  ix_program_id : string;
  ix_accounts : list AccountMeta;
  ix_data : string
}.
Record VersionedTransaction (Sig Message : Type) := mkVersionedTransaction {
  vt_signatures : list Sig;
  vt_message : Message
}.
Arguments mkVersionedTransaction {Sig Message} _ _.
Arguments vt_signatures {Sig Message} _.
Arguments vt_message {Sig Message} _.

(** Other crates: messages, checks and bincode of the SDK, hex and base64, the compute
    budget and memo programs.  Bytes are strings. *)
Class SolanaSdk `{Primitives} := {
  Message : Type;
  msg_recent_blockhash : Message -> string;
  msg_static_account_keys : Message -> list string;
  msg_num_required_signatures : Message -> N;
  try_compile : string -> list Instruction -> string -> result string Message;
  default_signature : Signature;
  default_hash : string;
  sanitize : VersionedTransaction Signature Message -> bool;
  uses_durable_nonce : VersionedTransaction Signature Message -> bool;
  verify_and_hash_message : VersionedTransaction Signature Message -> bool;
  bincode_encode : VersionedTransaction Signature Message -> option string;
  bincode_decode : string -> option (VersionedTransaction Signature Message * nat);
  hex_decode_bytes : string -> result string string;
  base64_encode : string -> string;
  base64_decode : string -> result string string;
  set_compute_unit_limit : N -> Instruction;
  set_compute_unit_price : N -> Instruction;
  memo_program_id : string
}.

Inductive SolanaTransactionError :=
| SteInvalidPubkey (field value error : string)
| SteInvalidData (error : string)
| SteMessageCompilationFailed (error : string)
| SteInvalidBlockhash (error : string)
| SteDeserializationFailed (error : string)
| SteFeePayerMismatch (expected got : string).
(** [Display] *)
Definition solana_transaction_error_to_string (e : SolanaTransactionError) : string :=
  match e with
  | SteInvalidPubkey field value error => "Invalid pubkey for " +:+ field +:+ ": " +:+ value +:+ " - " +:+ error
  | SteInvalidData error => "Invalid instruction data: " +:+ error
  | SteMessageCompilationFailed error => "Failed to compile message: " +:+ error
  | SteInvalidBlockhash error => "Invalid blockhash: " +:+ error
  | SteDeserializationFailed error => "Failed to deserialize transaction: " +:+ error
  | SteFeePayerMismatch expected got => "Fee payer mismatch: expected " +:+ expected +:+ ", got " +:+ got
  end.

Section Transaction.
Context `{SolanaSdk}.
#[local] Notation VTx := (VersionedTransaction Signature Message).

Definition to_account_meta (a : SolanaAccountMeta) : AccountMeta :=
  if sam_is_writable a then mkAccountMeta (sam_pubkey a) (sam_is_signer a) true
  else mkAccountMeta (sam_pubkey a) (sam_is_signer a) false.

(** [strip_prefix("0x")], else [strip_prefix("0X")] *)
Definition strip_hex_prefix (s : string) : string :=
  match s with
  | String "0"%char (String "x"%char s') => s'
  | String "0"%char (String "X"%char s') => s'
  | _ => s
  end.
Definition get_data_bytes (i : SolanaInstructionData) : result SolanaTransactionError string :=
  match (match si_encoding i with
         | EncHex => hex_decode_bytes (strip_hex_prefix (si_data i))
         | EncBase64 => base64_decode (si_data i)
         end) with
  | Ok bytes => Ok bytes
  | Err error => Err (SteInvalidData error)
  end.
Definition to_instruction (i : SolanaInstructionData) : result SolanaTransactionError Instruction :=
  let? data_bytes := get_data_bytes i in
  Ok (mkInstruction (si_program_id i) (map to_account_meta (si_accounts i)) data_bytes).

Record SolanaTransaction := mkSolanaTransaction {
  sltx_input : SolanaTransactionInput;
  sltx_compute_unit_limit : option N;
  sltx_compute_unit_price : option N
}.

Definition build_from_instructions (self : SolanaTransaction) (instructions : list SolanaInstructionData)
    (payer recent_blockhash : string) : result SolanaTransactionError VTx :=
  let budget :=
    from_option (fun limit => [set_compute_unit_limit limit]) [] (sltx_compute_unit_limit self) ++
    from_option (fun price => [set_compute_unit_price price]) [] (sltx_compute_unit_price self) in
  let? rest := collect_results to_instruction instructions in
  match try_compile payer (budget ++ rest) recent_blockhash with
  | Err error => Err (SteMessageCompilationFailed error)
  | Ok message =>
      Ok (mkVersionedTransaction
            (repeat default_signature (N.to_nat (msg_num_required_signatures message))) message)
  end.

(** ** Wire bytes *)

Definition MAX_WIRE_BYTES : nat := 16384.
Definition encode_transaction_wire (transaction : VTx) : result SolanaTransactionError string :=
  if negb (sanitize transaction) then Err (SteInvalidData "Malformed transaction")
  else ok_or (SteInvalidData "Transaction encoding failed") (bincode_encode transaction).
Definition invalid_wire : SolanaTransactionError :=
  SteDeserializationFailed "Invalid Solana transaction wire bytes".
Definition decode_transaction_wire (bytes : string) : result SolanaTransactionError VTx :=
  if MAX_WIRE_BYTES <? String.length bytes then Err invalid_wire
  else
    match bincode_decode bytes with
    | None => Err invalid_wire
    | Some (transaction, consumed) =>
        if negb (consumed =? String.length bytes) then Err invalid_wire
        else if negb (sanitize transaction) then Err invalid_wire
        else if (msg_num_required_signatures (vt_message transaction) =? 0)%N then Err invalid_wire
        else Ok transaction
    end.

Definition deserialize_transaction (tx_base64 expected_payer : string) : result SolanaTransactionError VTx :=
  match base64_decode tx_base64 with
  | Err e => Err (SteDeserializationFailed ("Invalid base64: " +:+ e))
  | Ok tx_bytes =>
      let? transaction := decode_transaction_wire tx_bytes in
      match head (msg_static_account_keys (vt_message transaction)) with
      | None => Err (SteDeserializationFailed "Missing fee payer")
      | Some fee_payer =>
          if bool_decide (fee_payer <> expected_payer) then Err (SteFeePayerMismatch expected_payer fee_payer)
          else Ok transaction
      end
  end.

Definition to_versioned_transaction (self : SolanaTransaction) (payer recent_blockhash : string)
    : result SolanaTransactionError VTx :=
  match sltx_input self with
  | SiInstructions instructions => build_from_instructions self instructions payer recent_blockhash
  | SiSerialized transaction => deserialize_transaction transaction payer
  end.
End Transaction.

(** ** Data *)

Record SolanaTransactionAttempt `{Primitives} := mkSolanaAttempt {
  sa_signature : Signature;
  sa_blockhash : string;
  sa_blockhash_last_valid_height : option N;
  sa_signed_transaction : option string;
  sa_broadcast_attempts : N;
  sa_last_broadcast_at : N;
  sa_reconciliation_checks : N;
  sa_restored_from_journal : bool;
  sa_sent_at : N;
  sa_submission_attempt_number : N
}.
Arguments mkSolanaAttempt {_} _ _ _ _ _ _ _ _ _ _.

(** [SolanaTransactionAttempt::new]; the clock is an argument. *)
Definition new_attempt `{Primitives} (signature : Signature) (blockhash : string)
    (blockhash_last_valid_height : option N) (submission_attempt_number : N) (signed_transaction : string)
    (now_ms : N) : SolanaTransactionAttempt :=
  mkSolanaAttempt signature blockhash blockhash_last_valid_height (Some signed_transaction) 0 0 0 false
    now_ms submission_attempt_number.

(** [#[serde(default)]] and skipped fields are written out where the document is. *)
Definition option_number (n : option N) : Value := from_option (fun n => VNumber (PosInt n)) VNull n.
Definition attempt_to_value `{Primitives} (a : SolanaTransactionAttempt) : Value :=
  VObject ([("signature", VString (signature_to_string (sa_signature a)));
            ("blockhash", VString (sa_blockhash a));
            ("blockhash_last_valid_height", option_number (sa_blockhash_last_valid_height a));
            ("signed_transaction", from_option VString VNull (sa_signed_transaction a));
            ("broadcast_attempts", VNumber (PosInt (sa_broadcast_attempts a)));
            ("last_broadcast_at", VNumber (PosInt (sa_last_broadcast_at a)));
            ("reconciliation_checks", VNumber (PosInt (sa_reconciliation_checks a)))] ++
           (if sa_restored_from_journal a then [("restored_from_journal", VBool true)] else []) ++
           [("sent_at", VNumber (PosInt (sa_sent_at a)));
            ("submission_attempt_number", VNumber (PosInt (sa_submission_attempt_number a)))]).

Record TransactionLock := mkTransactionLock { lk_key : string; lk_value : string }.
Inductive LockError := AlreadyLocked | LockRedisError (message : string).

(** The errors storage builds, and those of the client library. *)
Inductive SolanaStorageError :=
| SseRedis (e : redis_error)
| SseSerialization
| SseDeserialization
| SseLockLost
| SseRestoration.
#[export] Instance storage_from_redis : FromRedis SolanaStorageError := SseRedis.
Definition storage_result := result SolanaStorageError.

(** ** Fingerprint *)

(** Digest of the request with its keys sorted. *)
Definition solana_admission_fingerprint `{Primitives} `{!Json Value} (value : option Value) : option string :=
  value ≫= fun value => sha256_hex <$> to_json (sort_value value).

(** ** Operations *)

Section Storage.
Context `{Primitives} `{!Json SolanaTransactionAttempt}.
Context (redis_error_to_string : redis_error -> string).
Context (namespace : option string) (completed_transaction_ttl_seconds : N).

Definition namespaced (key : string) : string :=
  match namespace with Some ns => ns +:+ ":" +:+ key | None => key end.
Definition admission_key (transaction_id : string) : string := namespaced ("solana_admission:" +:+ transaction_id).
Definition attempt_key (transaction_id : string) : string := namespaced ("solana_tx_attempt:" +:+ transaction_id).
Definition sol_lock_key (transaction_id : string) : string := namespaced ("solana_tx_lock:" +:+ transaction_id).

(** The script a terminal hook adds to the job's completion. *)
Definition terminal_admission_command (transaction_id fingerprint status : string) (require_no_attempt : bool)
    (σ : redis) : redis :=
  let key := admission_key transaction_id in
  if bool_decide (hash σ key !! "fingerprint" = Some fingerprint)
     && (negb require_no_attempt || negb (exists_key σ (attempt_key transaction_id)))
  then prun [ HSET key "state" status; EXPIRE key completed_transaction_ttl_seconds ] σ
  else σ.
Definition delete_attempt_command (transaction_id : string) : wcmd := DEL (attempt_key transaction_id).

(** SET NX EX 120 GET: the old value, or nothing when the lock was taken. *)
Definition set_nx_get (key value : string) (σ : redis) : redis * option string :=
  match str σ key with
  | Some old => (σ, Some old)
  | None => (prun [SET key value; EXPIRE key 120] σ, None)
  end.
Definition try_acquire_lock (uuid transaction_id : string) : prog (result LockError TransactionLock) :=
  Atomic (set_nx_get (sol_lock_key transaction_id) uuid) (fun r => Ret (
    match r with
    | Ok (Some _) => Err AlreadyLocked
    | Ok None => Ok (mkTransactionLock (sol_lock_key transaction_id) uuid)
    | Err e => Err (LockRedisError (redis_error_to_string e))
    end)).
Definition still_held (lock : TransactionLock) : prog (result redis_error bool) :=
  Atomic (fun σ => (σ, bool_decide (str σ (lk_key lock) = Some (lk_value lock)))) Ret.
(** Also what [drop] does in the background. *)
Definition release_script (lock : TransactionLock) (σ : redis) : redis :=
  if bool_decide (str σ (lk_key lock) = Some (lk_value lock)) then wrun (DEL (lk_key lock)) σ else σ.
Definition release (lock : TransactionLock) : prog (result redis_error unit) :=
  Atomic (fun σ => (release_script lock σ, tt)) Ret.

(** A script under the lock: nothing happens for anybody else. *)
Definition with_lock {A} (lock : TransactionLock) (f : redis -> redis * A) (σ : redis) : redis * storage_result A :=
  if bool_decide (str σ (lk_key lock) = Some (lk_value lock))
  then let '(σ', a) := f σ in (σ', Ok a)
  else (σ, Err SseLockLost).
Definition locked {A} (lock : TransactionLock) (f : redis -> redis * A) : prog (storage_result A) :=
  Atomic (with_lock lock f) (fun r => Ret (
    match r with Ok x => x | Err e => Err (SseRedis e) end)).

Definition store_attempt_if_not_exists (transaction_id : string) (attempt : SolanaTransactionAttempt)
    (lock : TransactionLock) : prog (storage_result bool) :=
  let key := attempt_key transaction_id in
  match to_json attempt with
  | None => Ret (Err SseSerialization)
  | Some json =>
      locked lock (fun σ => if exists_key σ key then (σ, false) else (wrun (SET key json) σ, true))
  end.

Definition restore_attempt_if_absent (transaction_id : string) (attempt : SolanaTransactionAttempt)
    (lock : TransactionLock) : prog (storage_result bool) :=
  if bool_decide (lk_key lock <> sol_lock_key transaction_id) || negb (sa_restored_from_journal attempt)
  then Ret (Err SseRestoration)
  else store_attempt_if_not_exists transaction_id attempt lock.

Definition persist (key : string) (σ : redis) : redis :=
  mkRedis (r_str σ) (r_hash σ) (r_zset σ) (r_list σ) (r_set σ) (delete key (r_ttl σ)).
Definition get_attempt (transaction_id : string) (lock : TransactionLock)
    : prog (storage_result (option SolanaTransactionAttempt)) :=
  let key := attempt_key transaction_id in
  let! json := locked lock (fun σ => (persist key σ, str σ key)) in
  match json with
  | None => Ret (Ok None)
  | Some json => Ret (match from_json json with Some attempt => Ok (Some attempt) | None => Err SseDeserialization end)
  end.

Definition update_attempt (transaction_id : string) (attempt : SolanaTransactionAttempt)
    (lock : TransactionLock) : prog (storage_result unit) :=
  match to_json attempt with
  | None => Ret (Err SseSerialization)
  | Some json => locked lock (fun σ => (wrun (SET (attempt_key transaction_id) json) σ, tt))
  end.

Definition with_reconciliation_checks (checks : N) (a : SolanaTransactionAttempt) : SolanaTransactionAttempt :=
  mkSolanaAttempt (sa_signature a) (sa_blockhash a) (sa_blockhash_last_valid_height a) (sa_signed_transaction a)
    (sa_broadcast_attempts a) (sa_last_broadcast_at a) checks (sa_restored_from_journal a) (sa_sent_at a)
    (sa_submission_attempt_number a).
Definition resume_reconciliation (transaction_id : string) (lock : TransactionLock) : prog (storage_result bool) :=
  let! found := get_attempt transaction_id lock in
  match found with
  | None => Ret (Ok false)
  | Some attempt =>
      let! _ := update_attempt transaction_id (with_reconciliation_checks 0 attempt) lock in Ret (Ok true)
  end.

Definition has_attempt (transaction_id : string) : prog (storage_result bool) :=
  read (fun σ => Ok (exists_key σ (attempt_key transaction_id))).
End Storage.
