(* ===== verification/SolanaProg.v ===== *)
(** Programs of the Solana executor (executors/src/solana_executor/worker.rs): calls on the
    attempt storage, on the recovery journal, and on the outside world (the cluster's RPC,
    the signer, the clock, the deadline).

    As for the EOA worker, a run takes one turn per call: what the other workers did
    before it, the schedule of other Redis clients and lost replies for a storage call, the
    turns of the journal's world for a journal operation, the answer of an outside call.
    A future that runs under a deadline may be dropped between any two calls, and between
    any two steps of a journal operation. *)

From Stdlib Require Import String Ascii NArith ZArith Lia.
From stdpp Require Import base gmap strings option list fin_maps.
From S2P Require Import Fairness Prelude Json JsonValue Redis RedisProg Errors.
From S2P Require Import RecoveryLedger RecoveryChecks EngineProg QueueTypes SolanaStore.

(** ** What other crates provide *)

(** The RPC client's answers, the signer's credentials, and encodings of the job. *)
Class SolanaRpc `{SolanaSdk} := {
  TransactionError : Type;
  transaction_error_eq_dec :: EqDecision TransactionError;
  transaction_error_debug : TransactionError -> string;
  UiTransactionError : Type;
  ui_transaction_error_eq_dec :: EqDecision UiTransactionError;
  ui_error : TransactionError -> UiTransactionError;
  EncodedTransactionWithStatusMeta : Type;
  json_signatures : EncodedTransactionWithStatusMeta -> option (list string);
  meta_err : EncodedTransactionWithStatusMeta -> option (option UiTransactionError);
  SolCredential : Type;
  value_to_attempt : Value -> option SolanaTransactionAttempt
}.

Inductive TransactionConfirmationStatus := ConfProcessed | ConfConfirmed | ConfFinalized.
#[export] Instance confirmation_status_eq_dec : EqDecision TransactionConfirmationStatus.
Proof. solve_decision. Defined.

Section Answers.
Context `{SolanaRpc}.
Record TransactionStatus := mkTransactionStatus {
  ts_slot : N;
  ts_confirmations : option N;
  ts_status : result TransactionError unit;
  ts_err : option TransactionError;
  ts_confirmation_status : option TransactionConfirmationStatus
}.
Record SignatureStatuses := mkSignatureStatuses {
  ss_context_slot : N;
  ss_value : list (option TransactionStatus)
}.
Record TransactionDetails := mkTransactionDetails {
  td_slot : N;
  td_block_time : option Z;
  td_transaction : EncodedTransactionWithStatusMeta
}.
(** ** Calls *)

Definition client_result := result SolanaClientError.
Inductive sol_call : Type -> Type :=
| SolClock : sol_call N
| SolUuid : sol_call string
| SolDeadline : sol_call bool
| GetVerified (chain : SolanaChainId) : sol_call (result EngineError unit)
| GetRecentPrioritizationFees (accounts : list string) : sol_call (client_result (list N))
| GetSignatureStatuses (signature : Signature) : sol_call (client_result SignatureStatuses)
| GetTransactionDetails (signature : Signature) : sol_call (client_result TransactionDetails)
| GetBlockHeight : sol_call (client_result N)
| IsBlockhashValid (blockhash : string) (commitment : SolanaCommitmentLevel) : sol_call (client_result bool)
| GetLatestBlockhash (commitment : SolanaCommitmentLevel) : sol_call (client_result (string * N))
| SolSign (tx : VersionedTransaction Signature Message) (signer : string) (credential : SolCredential)
    : sol_call (result EngineError (VersionedTransaction Signature Message))
| SendTransaction (wire : string) (preflight : SolanaCommitmentLevel) : sol_call (client_result string).

Definition sol_silent {B} (q : sol_call B) : B :=
  match q with
  | SolClock => 0%N
  | SolUuid => ""
  | SolDeadline => true
  | GetVerified _ => Err (EngInternalError "silent")
  | GetRecentPrioritizationFees _ => Err (CeOther "silent")
  | GetSignatureStatuses _ => Err (CeOther "silent")
  | GetTransactionDetails _ => Err (CeOther "silent")
  | GetBlockHeight => Err (CeOther "silent")
  | IsBlockhashValid _ _ => Err (CeOther "silent")
  | GetLatestBlockhash _ => Err (CeOther "silent")
  | SolSign _ _ _ => Err (EngInternalError "silent")
  | SendTransaction _ _ => Err (CeOther "silent")
  end.

Inductive sol_op : Type -> Type :=
| SoAcquire (uuid id : string) : sol_op (result LockError TransactionLock)
| SoStillHeld (lock : TransactionLock) : sol_op (result redis_error bool)
| SoRelease (lock : TransactionLock) : sol_op (result redis_error unit)
| SoGet (id : string) (lock : TransactionLock) : sol_op (storage_result (option SolanaTransactionAttempt))
| SoStore (id : string) (attempt : SolanaTransactionAttempt) (lock : TransactionLock) : sol_op (storage_result bool)
| SoRestore (id : string) (attempt : SolanaTransactionAttempt) (lock : TransactionLock) : sol_op (storage_result bool)
| SoUpdate (id : string) (attempt : SolanaTransactionAttempt) (lock : TransactionLock) : sol_op (storage_result unit).

(** ** Programs *)

Inductive sprog (A : Type) : Type :=
| SRet (a : A)
| SStore {B : Type} (o : sol_op B) (k : B -> sprog A)
| SJournal {B : Type} (p : eprog B) (k : B -> sprog A)
| SCall {B : Type} (q : sol_call B) (k : B -> sprog A).
Arguments SRet {A} _.
Arguments SStore {A B} _ _.
Arguments SJournal {A B} _ _.
Arguments SCall {A B} _ _.

Fixpoint sbind {A B} (p : sprog A) (g : A -> sprog B) : sprog B :=
  match p with
  | SRet a => g a
  | SStore o k => SStore o (fun b => sbind (k b) g)
  | SJournal p k => SJournal p (fun b => sbind (k b) g)
  | SCall q k => SCall q (fun b => sbind (k b) g)
  end.
Definition sstore {B} (o : sol_op B) : sprog B := SStore o SRet.
Definition sjournal {B} (p : eprog B) : sprog B := SJournal p SRet.
Definition scall {B} (q : sol_call B) : sprog B := SCall q SRet.

(** [.map_err(f)] *)
Definition smap_err {E F A} (f : E -> F) (p : sprog (result E A)) : sprog (result F A) :=
  sbind p (fun r => SRet (match r with Ok a => Ok a | Err e => Err (f e) end)).
End Answers.
Arguments SRet {_ _ _ A} _.
Arguments SStore {_ _ _ A B} _ _.
Arguments SJournal {_ _ _ A B} _ _.
Arguments SCall {_ _ _ A B} _ _.

Notation "'sol*' x ':=' p 'in' q" := (sbind p (fun x => q))
  (at level 10, x pattern, p at level 100, q at level 200) : engine_scope.
(** The [?] operator. *)
Notation "'sol!' x ':=' p 'in' q" :=
  (sbind p (fun r => match r with Ok x => q | Err e => SRet (Err e) end))
  (at level 10, x pattern, p at level 100, q at level 200) : engine_scope.

(** ** Deadlines *)

(** A dropped journal operation stops between two of its steps. *)
Fixpoint ecut {A} (p : eprog A) : eprog (option A) :=
  let unless_dropped (q : eprog (option A)) := EPermit (fun go : bool => if go then q else ERet None) in
  match p with
  | ERet a => ERet (Some a)
  | EDisk f k => unless_dropped (EDisk f (fun r => ecut (k r)))
  | EServer f k => unless_dropped (EServer f (fun r => ecut (k r)))
  | ELatched k => ELatched (fun b => ecut (k b))
  | ELatch k => unless_dropped (ELatch (ecut k))
  | EPermit k => EPermit (fun b => ecut (k b))
  | ENow k => ENow (fun n => ecut (k n))
  | EOthers k => EOthers (ecut k)
  | EBlock tag k => unless_dropped (EBlock tag (fun r => ecut (k r)))
  end.

(** [tokio::time::timeout]: nothing when the deadline passed first. *)
Fixpoint timeout `{SolanaRpc} {A} (p : sprog A) : sprog (option A) :=
  let in_time (q : sprog (option A)) := SCall SolDeadline (fun late : bool => if late then SRet None else q) in
  match p with
  | SRet a => in_time (SRet (Some a))
  | SStore o k => in_time (SStore o (fun b => timeout (k b)))
  | SJournal e k =>
      in_time (SJournal (ecut e) (fun o => match o with Some b => timeout (k b) | None => SRet None end))
  | SCall q k => in_time (SCall q (fun b => timeout (k b)))
  end.

(** ** Runs *)

Section Runs.
Context `{SolanaRpc} `{!Json SolanaTransactionAttempt}.
Context (redis_error_to_string : redis_error -> string) (namespace : option string).

Definition sol_store_prog {B} (o : sol_op B) : prog B :=
  match o with
  | SoAcquire uuid id => try_acquire_lock redis_error_to_string namespace uuid id
  | SoStillHeld lock => still_held lock
  | SoRelease lock => release lock
  | SoGet id lock => get_attempt namespace id lock
  | SoStore id attempt lock => store_attempt_if_not_exists namespace id attempt lock
  | SoRestore id attempt lock => restore_attempt_if_absent namespace id attempt lock
  | SoUpdate id attempt lock => update_attempt namespace id attempt lock
  end.

Record sturn := mkSturn {
  st_others : world -> world;
  st_sched : schedule;
  st_turns : list turn;
  st_answer : ∀ B, sol_call B -> B
}.
Definition silent_sturn : sturn := mkSturn id [] [] (@sol_silent _ _ _).
Definition next_sturn (ts : list sturn) : sturn * list sturn :=
  match ts with [] => (silent_sturn, []) | t :: ts' => (t, ts') end.

(** A call with its answer. *)
Inductive sdone :=
| SDidStore {B : Type} (o : sol_op B) (b : B)
| SDidCall {B : Type} (q : sol_call B) (b : B).

Definition with_data (σ : redis) (w : world) : world :=
  mkWorld (w_disk w) (w_failed w) (mkServer σ (sv_run_id (w_server w)) (sv_role (w_server w))).

Fixpoint srun {A} (p : sprog A) (ts : list sturn) (w : world) : A * world * list (sdone * world) :=
  let '(t, ts') := next_sturn ts in
  let w := st_others t w in
  match p with
  | SRet a => (a, w, [])
  | SStore o k =>
      let '(b, (_, _, σ)) := run (sol_store_prog o) (st_sched t) idle (sv_data (w_server w)) in
      let '(a, w', tr) := srun (k b) ts' (with_data σ w) in (a, w', (SDidStore o b, w) :: tr)
  | SJournal p k =>
      let '(b, w1, _) := erun p (st_turns t) w in srun (k b) ts' w1
  | SCall q k =>
      let b := st_answer t _ q in
      let '(a, w', tr) := srun (k b) ts' w in (a, w', (SDidCall q b, w) :: tr)
  end.
End Runs.
Arguments SDidStore {_ _ _ B} _ _.
Arguments SDidCall {_ _ _ B} _ _.
