(* ===== verification/SolanaWorker.v ===== *)
(** The Solana executor's job (executors/src/solana_executor/worker.rs): reconcile the
    attempt that was signed, send exactly its bytes, sign only when nothing was signed
    before, and settle only what the cluster finalized; and the completion hooks, what the
    queue adds to the transaction that completes the job. *)

From Stdlib Require Import String Ascii NArith ZArith Lia SpecFloat.
From stdpp Require Import base gmap strings option list fin_maps sorting.
From S2P Require Import Prelude Json JsonValue Redis RedisProg Errors FinalityTypes.
From S2P Require Import RecoveryLedger RecoveryChecks EngineProg RecoveryJournal RecoveryOps.
From S2P Require Import Finality QueueTypes Webhook EoaTypes EoaErrors ExecRecovery SolanaStore.
From S2P Require Import SolanaProg.

Definition CONFIRMATION_RETRY_DELAY : Duration := millis 200.
Definition NETWORK_ERROR_RETRY_DELAY : Duration := seconds 2.
Definition MAX_SEND_ATTEMPTS_WITHOUT_TRANSACTION : N := 500.
Definition MAX_RECONCILIATION_CHECKS : N := 500.
Definition MAX_BROADCASTS_PER_ATTEMPT : N := 20.
Definition RECOVERY_PARK_DELAY : Duration := seconds 3600.

Definition u32_saturating_add (a b : N) : N := N.min (a + b) 4294967295.

(** ** Data *)

Record SolanaExecutorJobData (Credential : Type) := mkSolanaJob {
  sj_transaction_id : string;
  sj_transaction : SolanaTransactionOptions;
  sj_signing_credential : Credential;
  sj_webhook_options : list WebhookOptions
}.
Arguments mkSolanaJob {Credential} _ _ _ _.
Arguments sj_transaction_id {Credential} _.
Arguments sj_transaction {Credential} _.
Arguments sj_signing_credential {Credential} _.
Arguments sj_webhook_options {Credential} _.

Record SolanaExecutorResult (Encoded : Type) := mkSolanaResult {
  sr_transaction_id : string;
  sr_signature : string;
  sr_signer_address : string;
  sr_chain_id : string;
  sr_submission_attempt_number : N;
  sr_slot : N;
  sr_block_time : option Z;
  sr_transaction : Encoded
}.
Arguments mkSolanaResult {Encoded} _ _ _ _ _ _ _ _.

Inductive SolanaExecutorError :=
| SxTransactionBuildFailed (inner_error : string)
| SxBlockhashNotVisible
| SxSigningFailed (inner_error : EngineError)
| SxSendFailed (inner_error : EngineError)
| SxTransactionFailed (reason : string)
| SxRpcError (inner_error : EngineError)
| SxPriorityFeeError (inner_error : EngineError)
| SxBlockhashExpired (submission_attempt_number : N)
| SxMaxRetriesExceeded (max_retries : N)
| SxTransactionSent (signature : string) (submission_attempt_number : N)
| SxNotYetConfirmed (signature : string)
| SxLockHeldByAnotherWorker
| SxLockLost
| SxInternalError (message : string)
| SxRecoveryRequired (signature reason : string)
| SxUserCancelled.

Definition is_send_success (e : SolanaExecutorError) : bool :=
  match e with SxTransactionSent _ _ => true | _ => false end.
Definition error_signature (e : SolanaExecutorError) : option string :=
  match e with SxTransactionSent s _ | SxNotYetConfirmed s => Some s | _ => None end.

(** [.nack(Some(delay), RequeuePosition::Last)] *)
Definition nack_after (delay : Duration) (e : SolanaExecutorError) : JobError SolanaExecutorError :=
  Nack e (Some delay) Last.
Definition sol_recovery_nack (inner_error : EngineError) : JobError SolanaExecutorError :=
  recovery_nack inner_error RECOVERY_PARK_DELAY SxRpcError.

(** ** Priority fees *)

(** [x as f64] of an unsigned integer, and binary64 [/] and [*]. *)
Definition f64_of_N (n : N) : spec_float :=
  match n with N0 => S754_zero false | Npos m => binary_normalize 53 1024 (Zpos m) 0 false end.
Definition f64_div : spec_float -> spec_float -> spec_float := SFdiv 53 1024.
Definition f64_mul : spec_float -> spec_float -> spec_float := SFmul 53 1024.
(** [.round() as usize] of a float that is not infinite: halves away from zero. *)
Definition round_to_usize (x : spec_float) : nat :=
  match x with
  | S754_finite false m e =>
      if (0 <=? e)%Z then Z.to_nat (Zpos m * 2 ^ e)
      else Z.to_nat ((Zpos m + 2 ^ (- e - 1)) / 2 ^ (- e))
  | _ => 0
  end.
Definition percentile_index (percentile : N) (len : nat) : nat :=
  round_to_usize (f64_mul (f64_div (f64_of_N percentile) (f64_of_N 100)) (f64_of_N (N.of_nat len))).

Definition percentile_price (percentile : N) (fees : list N) : N :=
  let fee_history := merge_sort N.le fees in
  let i := percentile_index percentile (length fee_history) in
  if i <? length fee_history then default 0%N (fee_history !! i) else default 0%N (last fee_history).

Definition get_writable_accounts (instructions : list SolanaInstructionData) : list string :=
  instructions ≫= fun inst => map sam_pubkey (filter (fun a => sam_is_writable a = true) (si_accounts inst)).

Section Worker.
Context `{SolanaRpc} `{!Json SolanaTransactionAttempt} `{!Json Value, !Json FinalityEvidence}.
(** The client library's commitment check, [serde_json::to_value] of a job, [Display] of
    Redis and storage errors, whether a journal is configured, and the polling interval. *)
Context (satisfies_finalized : TransactionStatus -> bool).
Context (job_to_value : SolanaExecutorJobData SolCredential -> option Value).
Context (redis_error_to_string : redis_error -> string) (storage_error_to_string : SolanaStorageError -> string).
Context (journal : bool) (confirmation_poll_interval : Duration).
#[local] Notation job := (SolanaExecutorJobData SolCredential).
#[local] Notation outcome := (SolanaExecutorResult EncodedTransactionWithStatusMeta).
#[local] Notation job_result := (result (JobError SolanaExecutorError)).

Definition sj_options (data : job) : SolanaExecutionOptions := sto_execution_options (sj_transaction data).
Definition sj_chain (data : job) : string := chain_as_str (so_chain_id (sj_options data)).
Definition sj_input (data : job) : SolanaTransactionInput := sto_input (sj_transaction data).

Definition rpc_error (chain : string) (e : SolanaClientError) : JobError SolanaExecutorError :=
  nack_after NETWORK_ERROR_RETRY_DELAY (SxRpcError (to_engine_solana_error chain e)).
Definition park (attempt : SolanaTransactionAttempt) (reason : string) : JobError SolanaExecutorError :=
  nack_after RECOVERY_PARK_DELAY (SxRecoveryRequired (signature_to_string (sa_signature attempt)) reason).
Definition handle_redis_error (e : SolanaStorageError) : JobError SolanaExecutorError :=
  match e with
  | SseLockLost => nack_after CONFIRMATION_RETRY_DELAY SxLockLost
  | _ => nack_after NETWORK_ERROR_RETRY_DELAY (SxInternalError ("Redis error: " +:+ storage_error_to_string e))
  end.
Definition internal_nack (message : string) : JobError SolanaExecutorError :=
  nack_after NETWORK_ERROR_RETRY_DELAY (SxInternalError message).
(** A journal operation whose errors become [recovery_nack]. *)
Definition recovery_step {A} (p : eprog (result EngineError A)) : sprog (job_result A) :=
  smap_err sol_recovery_nack (sjournal p).
Definition storage_step {A} (o : sol_op (storage_result A)) : sprog (job_result A) :=
  smap_err handle_redis_error (sstore o).

Definition get_percentile_compute_unit_price (writable_accounts : list string) (percentile : N) (chain : string)
    : sprog (job_result N) :=
  sol! fees := smap_err (fun e => nack_after NETWORK_ERROR_RETRY_DELAY
                           (SxPriorityFeeError (to_engine_solana_error chain e)))
                 (scall (GetRecentPrioritizationFees writable_accounts)) in
  SRet (Ok (percentile_price percentile fees)).
Definition get_compute_unit_price (priority_fee : SolanaPriorityFee) (instructions : list SolanaInstructionData)
    (chain : string) : sprog (job_result N) :=
  let writable_accounts := get_writable_accounts instructions in
  match priority_fee with
  | PfAuto => get_percentile_compute_unit_price writable_accounts 75 chain
  | PfManual micro_lamports_per_unit => SRet (Ok micro_lamports_per_unit)
  | PfPercentile percentile => get_percentile_compute_unit_price writable_accounts percentile chain
  end.

Definition verify_lock (lock : TransactionLock) : sprog (job_result unit) :=
  sol* held := sstore (SoStillHeld lock) in
  SRet (match held with
        | Ok true => Ok tt
        | Ok false => Err (nack_after CONFIRMATION_RETRY_DELAY SxLockLost)
        | Err e => Err (internal_nack ("Failed to check lock: " +:+ redis_error_to_string e))
        end).

(** ** Reconciliation *)

Definition receipt_consistent (signature : string) (status : TransactionStatus) (details : TransactionDetails) : bool :=
  bool_decide ((json_signatures (td_transaction details) ≫= head) = Some signature)
  && (td_slot details =? ts_slot status)%N
  && match meta_err (td_transaction details) with
     | Some err => bool_decide (err = ui_error <$> ts_err status)
     | None => false
     end.

Definition finished (data : job) (attempt : SolanaTransactionAttempt) (details : TransactionDetails) : outcome :=
  mkSolanaResult (sj_transaction_id data) (signature_to_string (sa_signature attempt))
    (so_signer_address (sj_options data)) (sj_chain data) (sa_submission_attempt_number attempt)
    (td_slot details) (td_block_time details) (td_transaction details).

(** [status.status.err()] *)
Definition status_err (s : TransactionStatus) : option TransactionError :=
  match ts_status s with Ok _ => None | Err e => Some e end.

Definition reconcile_status (data : job) (attempt : SolanaTransactionAttempt)
    : sprog (job_result (option (job_result outcome))) :=
  let chain := sj_chain data in
  let signature := signature_to_string (sa_signature attempt) in
  sol! statuses := smap_err (rpc_error chain) (scall (GetSignatureStatuses (sa_signature attempt))) in
  match ss_value statuses with
  | [None] => SRet (Ok None)
  | [Some status] =>
      if bool_decide (ts_err status <> status_err status) || (ss_context_slot statuses <? ts_slot status)%N
      then SRet (Err (internal_nack "RPC returned inconsistent transaction status"))
      else if negb (satisfies_finalized status) || bool_decide (ts_confirmation_status status <> Some ConfFinalized)
      then SRet (Ok (Some (Err (nack_after confirmation_poll_interval (SxNotYetConfirmed signature)))))
      else
        sol! details := smap_err (rpc_error chain) (scall (GetTransactionDetails (sa_signature attempt))) in
        if negb (receipt_consistent signature status details)
        then SRet (Err (internal_nack "Inconsistent transaction receipt; retry reconciliation"))
        else
          sol! _ := recovery_step (record_solana_terminal journal (sj_transaction_id data) chain signature
                      (td_slot details) (bool_decide (ts_err status = None))) in
          match ts_err status with
          | Some error => SRet (Ok (Some (Err (Fail (SxTransactionFailed (transaction_error_debug error))))))
          | None => SRet (Ok (Some (Ok (finished data attempt details))))
          end
  | _ => SRet (Err (internal_nack "RPC returned wrong status count"))
  end.

(** ** Authorization *)

Definition durable_attempt (a : SolanaTransactionAttempt) : SolanaTransactionAttempt :=
  mkSolanaAttempt (sa_signature a) (sa_blockhash a) (sa_blockhash_last_valid_height a) (sa_signed_transaction a)
    0 0 0 false (sa_sent_at a) (sa_submission_attempt_number a).
Definition durable_attempt_payload (data : job) (attempt : SolanaTransactionAttempt) : Value :=
  VObject [("chainId", VString (sj_chain data));
           ("signature", VString (signature_to_string (sa_signature attempt)));
           ("attempt", attempt_to_value (durable_attempt attempt))].
Definition sol_replay_key (data : job) (attempt : SolanaTransactionAttempt) : string :=
  "solana:" +:+ sj_chain data +:+ ":" +:+ signature_to_string (sa_signature attempt).

Definition validated_attempt_wire (data : job) (attempt : SolanaTransactionAttempt) : job_result string :=
  match sa_signed_transaction attempt with
  | None => Err (park attempt "missing signed bytes")
  | Some wire =>
      match base64_decode wire with
      | Err _ => Err (park attempt "invalid persisted wire encoding")
      | Ok bytes =>
          match decode_transaction_wire bytes with
          | Err _ => Err (park attempt "invalid persisted transaction")
          | Ok decoded =>
              if bool_decide (head (vt_signatures decoded) <> Some (sa_signature attempt))
                 || bool_decide (msg_recent_blockhash (vt_message decoded) <> sa_blockhash attempt)
                 || bool_decide (head (msg_static_account_keys (vt_message decoded)) <>
                                 Some (so_signer_address (sj_options data)))
                 || uses_durable_nonce decoded
                 || negb (verify_and_hash_message decoded)
                 || match encode_transaction_wire decoded with
                    | Ok b => bool_decide (b <> bytes)
                    | Err _ => true
                    end
              then Err (park attempt "persisted transaction identity does not match its attempt or signer")
              else Ok wire
          end
      end
  end.

Definition authorize_attempt (data : job) (attempt : SolanaTransactionAttempt) : sprog (job_result unit) :=
  if sa_restored_from_journal attempt
  then SRet (Err (park attempt "restored attempts require a durable recovery send grant"))
  else if negb journal then SRet (Ok tt)
  else
    sol! _ := recovery_step (validate journal "solana" (sj_transaction_id data) (job_to_value data)) in
    recovery_step (journal_call (before_broadcast "solana" (sj_transaction_id data)
      (sol_replay_key data attempt) (durable_attempt_payload data attempt))).

(** ** Broadcast *)

Definition with_broadcast (broadcasts at_ms : N) (a : SolanaTransactionAttempt) : SolanaTransactionAttempt :=
  mkSolanaAttempt (sa_signature a) (sa_blockhash a) (sa_blockhash_last_valid_height a) (sa_signed_transaction a)
    broadcasts at_ms (sa_reconciliation_checks a) (sa_restored_from_journal a) (sa_sent_at a)
    (sa_submission_attempt_number a).

(** The count of this send: granted by the journal for a restored attempt, counted here
    for an original one. *)
Definition count_broadcast (data : job) (attempt : SolanaTransactionAttempt) (now : N)
    : sprog (job_result SolanaTransactionAttempt) :=
  let signature := signature_to_string (sa_signature attempt) in
  if sa_restored_from_journal attempt then
    if negb journal then SRet (Err (park attempt "restored attempt requires its recovery journal"))
    else
      match job_to_value data with
      | None => SRet (Err (park attempt "cannot encode retained recovery payload"))
      | Some payload =>
          sol! grant := recovery_step (journal_call (before_solana_recovery_broadcast
                          (sj_transaction_id data) payload (durable_attempt_payload data attempt))) in
          SRet (match grant with
                | Granted broadcasts at_ms => Ok (with_broadcast broadcasts at_ms attempt)
                | Wait retry_after_ms => Err (nack_after (millis retry_after_ms) (SxNotYetConfirmed signature))
                | Exhausted => Err (nack_after confirmation_poll_interval (SxNotYetConfirmed signature))
                end)
      end
  else SRet (Ok (with_broadcast (sa_broadcast_attempts attempt + 1) now attempt)).

Definition sent_result (data : job) (attempt : SolanaTransactionAttempt) (sent : client_result string)
    : job_result outcome :=
  match sent with
  | Ok signature =>
      if decide (signature = signature_to_string (sa_signature attempt))
      then Err (nack_after confirmation_poll_interval
                  (SxTransactionSent signature (sa_submission_attempt_number attempt)))
      else Err (internal_nack "RPC returned a different signature; reconcile persisted transaction")
  | Err e => Err (nack_after NETWORK_ERROR_RETRY_DELAY (SxSendFailed (to_engine_solana_error (sj_chain data) e)))
  end.

Definition broadcast_attempt (data : job) (attempt : SolanaTransactionAttempt) (lock : TransactionLock)
    (commitment : SolanaCommitmentLevel) : sprog (job_result outcome) :=
  sol* now := scall SolClock in
  if (MAX_BROADCASTS_PER_ATTEMPT <=? sa_broadcast_attempts attempt)%N
     || (negb (sa_last_broadcast_at attempt =? 0)%N
         && (saturating_sub now (sa_last_broadcast_at attempt) <? 2000)%N)
  then SRet (Err (nack_after confirmation_poll_interval
                    (SxNotYetConfirmed (signature_to_string (sa_signature attempt)))))
  else
    sol! wire := SRet (validated_attempt_wire data attempt) in
    sol! attempt := count_broadcast data attempt now in
    sol! _ := storage_step (SoUpdate (sj_transaction_id data) attempt lock) in
    sol! _ := verify_lock lock in
    sol! _ := (if sa_restored_from_journal attempt then SRet (Ok tt) else authorize_attempt data attempt) in
    sol* sent := scall (SendTransaction wire commitment) in
    SRet (sent_result data attempt sent).

(** ** Restoration *)

Definition invalid_retained : JobError SolanaExecutorError :=
  nack_after RECOVERY_PARK_DELAY (SxInternalError
    "Retained Solana attempt is missing, inconsistent or unsupported; reconcile before execution").

Definition restored_attempt (retained : RetainedSolanaAttempt) (a : SolanaTransactionAttempt)
    : SolanaTransactionAttempt :=
  mkSolanaAttempt (sa_signature a) (sa_blockhash a) (sa_blockhash_last_valid_height a) (sa_signed_transaction a)
    (ret_broadcasts retained) (ret_last_at retained) 0 true (sa_sent_at a) (sa_submission_attempt_number a).

(** The attempt the journal retains, checked against its binding and its own bytes. *)
Definition check_retained (data : job) (binding : string) (retained : RetainedSolanaAttempt)
    : job_result SolanaTransactionAttempt :=
  let? attempt := ok_or invalid_retained (get_field (ret_payload retained) "attempt" ≫= value_to_attempt) in
  if bool_decide (ret_replay_key retained <> binding)
     || bool_decide (binding <> sol_replay_key data attempt)
     || negb (value_eqb (durable_attempt_payload data attempt) (ret_payload retained))
     || (MAX_BROADCASTS_PER_ATTEMPT <? ret_broadcasts retained)%N
  then Err invalid_retained
  else
    let? _ := validated_attempt_wire data attempt in
    Ok (restored_attempt retained attempt).

Definition restore_retained_attempt (data : job) (binding : string) (lock : TransactionLock)
    : sprog (job_result SolanaTransactionAttempt) :=
  sol! payload := SRet (ok_or invalid_retained (job_to_value data)) in
  sol! found := recovery_step (journal_call (prepare_solana_restore (sj_transaction_id data) payload)) in
  sol! retained := SRet (ok_or invalid_retained found) in
  sol! attempt := SRet (check_retained data binding retained) in
  sol! stored := storage_step (SoRestore (sj_transaction_id data) attempt lock) in
  if negb stored
  then SRet (Err (internal_nack
    "Solana attempt appeared during restoration; retry under its existing identity"))
  else
    sol! _ := verify_lock lock in
    SRet (Ok attempt).

(** ** Execution *)

Definition park_internal (message : string) : JobError SolanaExecutorError :=
  nack_after RECOVERY_PARK_DELAY (SxInternalError message).

(** The stored attempt and whether the journal knows the outcome: the durable reservation
    decides which attempt there may be. *)
Definition reserved_attempt (data : job) (lock : TransactionLock) (stored : option SolanaTransactionAttempt)
    : sprog (job_result (option SolanaTransactionAttempt * bool)) :=
  if negb journal then SRet (Ok (stored, false))
  else
    sol! admission := recovery_step (journal_call (journal_admission "solana" (sj_transaction_id data))) in
    match admission with
    | None => SRet (Ok (stored, false))
    | Some admission =>
        let journal_terminal := bool_decide (rec_state admission = StTerminal) in
        match rec_replay_key admission with
        | None =>
            match stored with
            | Some _ => SRet (Err (park_internal
                "Redis contains an attempt without a durable signature reservation; reconcile it before signing or broadcasting"))
            | None => SRet (Ok (None, journal_terminal))
            end
        | Some binding =>
            sol! attempt := match stored with
                            | Some attempt => SRet (Ok attempt)
                            | None => restore_retained_attempt data binding lock
                            end in
            if bool_decide (binding <> sol_replay_key data attempt)
            then SRet (Err (park_internal
                "Durable signature binding exists but Redis attempt is missing or changed; restore and reconcile before signing"))
            else SRet (Ok (Some attempt, journal_terminal))
        end
    end.

Definition submission_commitment (data : job) : SolanaCommitmentLevel :=
  match sj_input data with SiSerialized _ => CmProcessed | SiInstructions _ => CmFinalized end.

(** Whether the attempt's blockhash has expired; an unknown outcome of a caller's own
    blockhash is reconciled again and parked. *)
Definition check_expired (data : job) (attempt : SolanaTransactionAttempt)
    : sprog (job_result (result (job_result outcome) bool)) :=
  match sa_blockhash_last_valid_height attempt with
  | Some last_valid_height =>
      sol! height := smap_err (rpc_error (sj_chain data)) (scall GetBlockHeight) in
      SRet (Ok (Ok (last_valid_height <? height)%N))
  | None =>
      sol! valid := smap_err (rpc_error (sj_chain data))
                      (scall (IsBlockhashValid (sa_blockhash attempt) (submission_commitment data))) in
      if (valid : bool) then SRet (Ok (Ok false))
      else
        sol! again := reconcile_status data attempt in
        match again with
        | Some result => SRet (Ok (Err result))
        | None => SRet (Err (park attempt "serialized blockhash no longer valid; expiry height unknown"))
        end
  end.

Definition reconcile_attempt (data : job) (stored : SolanaTransactionAttempt) (journal_terminal : bool)
    (lock : TransactionLock) : sprog (job_result outcome) :=
  if (MAX_RECONCILIATION_CHECKS <=? sa_reconciliation_checks stored)%N && negb journal_terminal
  then SRet (Err (park stored "reconciliation budget exhausted; resume explicitly"))
  else
    let attempt := with_reconciliation_checks (u32_saturating_add (sa_reconciliation_checks stored) 1) stored in
    sol! _ := storage_step (SoUpdate (sj_transaction_id data) attempt lock) in
    sol! known := reconcile_status data attempt in
    match known with
    | Some result => SRet result
    | None =>
        if journal_terminal
        then SRet (Err (park attempt "Durable final outcome awaits matching RPC evidence before Redis cleanup"))
        else if bool_decide (sa_signed_transaction attempt = None)
        then SRet (Err (park attempt "legacy attempt lacks signed bytes"))
        else
          sol! expired := check_expired data attempt in
          match expired with
          | Err result => SRet result
          | Ok false => broadcast_attempt data attempt lock (submission_commitment data)
          | Ok true =>
              sol! again := reconcile_status data attempt in
              match again with
              | Some result => SRet result
              | None => SRet (Err (park attempt
                  "blockhash expired but execution outcome is unknown; automatic re-signing disabled"))
              end
          end
    end.

(** [build_memo] without signers, as instruction data. *)
Definition memo_data (transaction_id : string) : string := "thirdweb-engine:" +:+ transaction_id.
Definition memo_instruction (transaction_id : string) : SolanaInstructionData :=
  mkSolanaInstructionData memo_program_id [] (base64_encode (memo_data transaction_id)) EncBase64.
Definition build_failed (e : SolanaTransactionError) : JobError SolanaExecutorError :=
  Fail (SxTransactionBuildFailed (solana_transaction_error_to_string e)).

(** The unsigned transaction, with the height at which its blockhash expires. *)
Definition build_transaction (data : job)
    : sprog (job_result (VersionedTransaction Signature Message * option N)) :=
  let chain := sj_chain data in
  let signer := so_signer_address (sj_options data) in
  let as_build r := match r with Ok tx => Ok tx | Err e => Err (build_failed e) end in
  match sj_input data with
  | SiInstructions instructions =>
      sol! (recent_blockhash, height) :=
        smap_err (rpc_error chain) (scall (GetLatestBlockhash (submission_commitment data))) in
      sol! compute_unit_price :=
        match so_priority_fee (sj_options data) with
        | Some priority_fee =>
            sol! price := get_compute_unit_price priority_fee instructions chain in SRet (Ok (Some price))
        | None => SRet (Ok None)
        end in
      sol! tx := SRet (as_build (to_versioned_transaction
                   (mkSolanaTransaction
                      (SiInstructions (instructions ++ [memo_instruction (sj_transaction_id data)]))
                      (so_compute_unit_limit (sj_options data)) compute_unit_price)
                   signer recent_blockhash)) in
      SRet (Ok (tx, Some height))
  | SiSerialized _ =>
      sol! tx := SRet (as_build (to_versioned_transaction
                   (mkSolanaTransaction (sj_input data) None None) signer default_hash)) in
      if uses_durable_nonce tx
      then SRet (Err (Fail (SxTransactionBuildFailed
             "Durable nonce transactions require a separate recovery policy")))
      else
        sol! valid := smap_err (rpc_error chain)
                        (scall (IsBlockhashValid (msg_recent_blockhash (vt_message tx)) (submission_commitment data))) in
        if negb valid then SRet (Err (nack_after NETWORK_ERROR_RETRY_DELAY SxBlockhashNotVisible))
        else SRet (Ok (tx, None))
  end.

Definition sign_attempt (data : job) : sprog (job_result SolanaTransactionAttempt) :=
  sol! (versioned_tx, last_valid_height) := build_transaction data in
  let actual_blockhash := msg_recent_blockhash (vt_message versioned_tx) in
  sol! signed_tx := smap_err (fun e => Fail (SxSigningFailed e))
                      (scall (SolSign versioned_tx (so_signer_address (sj_options data)) (sj_signing_credential data))) in
  sol! signature := SRet (ok_or (Fail (SxTransactionBuildFailed "Signed transaction has no signature"))
                      (head (vt_signatures signed_tx))) in
  sol! bytes := SRet (match encode_transaction_wire signed_tx with
                      | Ok bytes => Ok bytes
                      | Err e => Err (build_failed e)
                      end) in
  sol* now := scall SolClock in
  SRet (Ok (new_attempt signature actual_blockhash last_valid_height 1 (base64_encode bytes) now)).

Definition execute_transaction (data : job) (lock : TransactionLock) (job_attempt_number : N)
    : sprog (job_result outcome) :=
  sol! _ := verify_lock lock in
  sol! stored_attempt := storage_step (SoGet (sj_transaction_id data) lock) in
  sol! (stored_attempt, journal_terminal) := reserved_attempt data lock stored_attempt in
  match stored_attempt with
  | Some attempt => reconcile_attempt data attempt journal_terminal lock
  | None =>
      if (MAX_SEND_ATTEMPTS_WITHOUT_TRANSACTION <? job_attempt_number)%N
      then SRet (Err (Fail (SxMaxRetriesExceeded MAX_SEND_ATTEMPTS_WITHOUT_TRANSACTION)))
      else
        sol! attempt := sign_attempt data in
        sol! _ := authorize_attempt data attempt in
        sol! stored := storage_step (SoStore (sj_transaction_id data) attempt lock) in
        if negb stored then SRet (Err (nack_after CONFIRMATION_RETRY_DELAY SxLockLost))
        else broadcast_attempt data attempt lock (submission_commitment data)
  end.

(** ** The job *)

Definition check_admission (data : job) : sprog (job_result unit) :=
  if negb journal then SRet (Ok tt)
  else
    match job_to_value data with
    | None => SRet (Err (park_internal "Cannot encode reconciliation payload"))
    | Some payload => recovery_step (validate_reconciliation_payload "solana" (sj_transaction_id data) payload)
    end.

Definition sol_process (data : job) (attempts : N) : sprog (job_result outcome) :=
  sol! _ := check_admission data in
  sol* uuid := scall SolUuid in
  sol! lock := smap_err (fun e => match e with
                 | AlreadyLocked => nack_after CONFIRMATION_RETRY_DELAY SxLockHeldByAnotherWorker
                 | LockRedisError msg => internal_nack msg
                 end) (sstore (SoAcquire uuid (sj_transaction_id data))) in
  sol* result := timeout (
    sol! _ := smap_err (fun e => nack_after NETWORK_ERROR_RETRY_DELAY (SxRpcError e))
                (scall (GetVerified (so_chain_id (sj_options data)))) in
    execute_transaction data lock attempts) in
  sol* _ := sstore (SoRelease lock) in
  SRet (default (Err (internal_nack
    "Solana processing deadline exceeded; any persisted attempt will be reconciled")) result).
End Worker.

(** [TransactionSentPayload] *)
Record TransactionSentPayload := mkTransactionSent { tsp_signature : string; tsp_submission_attempt_number : N }.

Section Hooks.
Context `{SolanaRpc} `{!Json Value, !Json WebhookJobPayload}.
#[local] Notation job := (SolanaExecutorJobData SolCredential).
#[local] Notation outcome := (SolanaExecutorResult EncodedTransactionWithStatusMeta).
Context `{!Json (WebhookNotificationEnvelope (SerializableSuccessData outcome)),
  !Json (WebhookNotificationEnvelope (SerializableNackData SolanaExecutorError)),
  !Json (WebhookNotificationEnvelope (SerializableFailData SolanaExecutorError)),
  !Json (WebhookNotificationEnvelope TransactionSentPayload)}.
Context (job_to_value : job -> option Value).
Context (namespace : option string) (ttl : N) (wq : string).
Context (uuid : nat -> string) (clock : nat -> N).
#[local] Notation sol_name := "solana_executor".
Implicit Types (borrowed : BorrowedJob job).

Definition sol_on_success borrowed (result : outcome) (σ : redis) : redis :=
  let data := job_data (bj_job borrowed) in
  let transaction_id := sj_transaction_id data in
  let σ := match solana_admission_fingerprint (job_to_value data) with
           | Some fingerprint => terminal_admission_command namespace ttl transaction_id fingerprint "completed" false σ
           | None => σ
           end in
  prun ([delete_attempt_command namespace transaction_id; add_remove_command namespace transaction_id] ++
        (queue_success_webhook sol_name sol_name wq uuid clock (bj_job borrowed) (sj_webhook_options data) result).1) σ.

(** Failures before signing end the admission if there is no attempt; nothing else but an
    outcome on the chain does. *)
Definition fail_admission (data : job) (error : SolanaExecutorError) (σ : redis) : redis :=
  match solana_admission_fingerprint (job_to_value data) with
  | Some fingerprint =>
      match error with
      | SxTransactionFailed _ =>
          terminal_admission_command namespace ttl (sj_transaction_id data) fingerprint "failed" false σ
      | SxTransactionBuildFailed _ | SxSigningFailed _ | SxMaxRetriesExceeded _ =>
          terminal_admission_command namespace ttl (sj_transaction_id data) fingerprint "failed" true σ
      | _ => σ
      end
  | None => σ
  end.
Definition sol_on_fail borrowed (error : SolanaExecutorError) (σ : redis) : redis :=
  let data := job_data (bj_job borrowed) in
  let transaction_id := sj_transaction_id data in
  prun ((match error with SxTransactionFailed _ => [delete_attempt_command namespace transaction_id] | _ => [] end) ++
        [add_remove_command namespace transaction_id] ++
        (queue_fail_webhook sol_name sol_name wq uuid clock (bj_job borrowed) (sj_webhook_options data) error).1)
    (fail_admission data error σ).

Definition sol_on_nack borrowed (error : SolanaExecutorError) (delay : option Duration) (position : RequeuePosition)
    (σ : redis) : redis :=
  let data := job_data (bj_job borrowed) in
  match error with
  | SxTransactionSent signature submission_attempt_number =>
      prun (queue_webhook_with_custom_payload sol_name wq uuid clock (bj_job borrowed) (sj_webhook_options data)
              (mkTransactionSent signature submission_attempt_number) EvSuccess "send").1 σ
  | SxNotYetConfirmed _ => σ
  | _ =>
      prun (queue_nack_webhook sol_name sol_name wq uuid clock (bj_job borrowed) (sj_webhook_options data)
              error delay position).1 σ
  end.

(** The hook of a result. *)
Definition sol_completion borrowed (r : result (JobError SolanaExecutorError) outcome) : redis -> redis :=
  match r with
  | Ok result => sol_on_success borrowed result
  | Err (Fail error) => sol_on_fail borrowed error
  | Err (Nack error delay position) => sol_on_nack borrowed error delay position
  end.

(** ** What a hook leaves alone *)

Lemma attempt_not_registry id : attempt_key namespace id <> registry_key namespace.
Proof. unfold attempt_key, namespaced, registry_key. destruct namespace as [ns|]; [|done]. by intros Hk%(inj (String.append _)). Qed.
Lemma admission_not_registry id : admission_key namespace id <> registry_key namespace.
Proof. unfold admission_key, namespaced, registry_key. destruct namespace as [ns|]; [|done]. by intros Hk%(inj (String.append _)). Qed.
Lemma attempt_not_admission id : attempt_key namespace id <> admission_key namespace id.
Proof. unfold attempt_key, admission_key, namespaced. destruct namespace as [ns|]; [|done]. by intros Hk%(inj (String.append _)). Qed.

(** Notifications leave every key that is not of the webhook queue. *)
Lemma notified_same p k σ : ~ webhook_key wq k -> Forall (fun c => webhook_key wq (wkey c)) p -> same_at k σ (prun p σ).
Proof. intros Hk Hp. apply prun_same. eapply Forall_impl; [exact Hp|]. intros c Hc <-. by apply Hk. Qed.

Lemma nack_same borrowed error delay position k σ :
  ~ webhook_key wq k -> same_at k σ (sol_on_nack borrowed error delay position σ).
Proof.
  intros Hk. unfold sol_on_nack.
  destruct error; try done; (apply notified_same; [done|]; apply each_webhook_keys; intros i w cmds; apply queue_webhook_keys).
Qed.

(** A failure that is not an outcome on the chain. *)
Definition off_chain (e : SolanaExecutorError) : Prop := match e with SxTransactionFailed _ => False | _ => True end.
Lemma fail_same borrowed error k σ :
  off_chain error -> ~ webhook_key wq k -> k <> registry_key namespace ->
  same_at k (fail_admission (job_data (bj_job borrowed)) error σ) (sol_on_fail borrowed error σ).
Proof.
  intros He Hk Hr. unfold sol_on_fail.
  replace (match error with SxTransactionFailed _ => _ | _ => _ end) with (@nil wcmd) by by destruct error.
  apply prun_same. constructor; [by apply not_eq_sym|]. eapply Forall_impl.
  - apply each_webhook_keys. intros i w cmds. apply queue_webhook_keys.
  - intros c Hc <-. by apply Hk.
Qed.
Lemma terminal_no_attempt id fingerprint status σ :
  terminal_admission_command namespace ttl id fingerprint status true σ = σ \/
  exists_key σ (attempt_key namespace id) = false /\
  ∀ k, k <> admission_key namespace id ->
    same_at k σ (terminal_admission_command namespace ttl id fingerprint status true σ).
Proof.
  unfold terminal_admission_command. destruct (bool_decide _ && _) eqn:Hb; [|by left]. right.
  apply andb_true_iff in Hb as [_ Hb]. split; [by apply negb_true_iff in Hb|].
  intros k Hk. apply prun_same. repeat constructor; by apply not_eq_sym.
Qed.
(** It changes only the admission, and only when there is no attempt. *)
Lemma fail_admission_same data error σ :
  off_chain error ->
  fail_admission data error σ = σ \/
  exists_key σ (attempt_key namespace (sj_transaction_id data)) = false /\
  ∀ k, k <> admission_key namespace (sj_transaction_id data) -> same_at k σ (fail_admission data error σ).
Proof.
  intros He. unfold fail_admission. destruct (solana_admission_fingerprint _) as [f|]; [|by left].
  destruct error; try (by left); apply terminal_no_attempt.
Qed.

(** A result that is no outcome on the chain leaves the attempt, and leaves the admission
    unless there is no attempt. *)
Definition unsettled (r : result (JobError SolanaExecutorError) outcome) : Prop :=
  match r with Ok _ => False | Err (Fail e) => off_chain e | Err (Nack _ _ _) => True end.
Lemma completion_same borrowed r σ :
  let id := sj_transaction_id (job_data (bj_job borrowed)) in
  unsettled r -> ~ webhook_key wq (attempt_key namespace id) -> ~ webhook_key wq (admission_key namespace id) ->
  same_at (attempt_key namespace id) σ (sol_completion borrowed r σ) /\
  (same_at (admission_key namespace id) σ (sol_completion borrowed r σ) \/
   exists_key σ (attempt_key namespace id) = false /\ ∃ e, r = Err (Fail e)).
Proof.
  intros id Hu Hk Hk'. destruct r as [o|[e d p|e]]; [done|split; [|left]; by apply nack_same|]. cbn [sol_completion].
  destruct (fail_admission_same (job_data (bj_job borrowed)) e σ Hu) as [Hsame|[Hno Hsame]].
  - rewrite <- Hsame at 1 3. split; [|left]; apply fail_same; auto using attempt_not_registry, admission_not_registry.
  - split; [|right; eauto]. etrans; [apply Hsame, attempt_not_admission|].
    apply fail_same; auto using attempt_not_registry.
Qed.
End Hooks.
