(* ===== verification/SolanaLogic.v ===== *)
(** Reasoning about the Solana executor's programs: what its journal operations establish
    of the ledger, and a program logic.

    [ssafe Φ p h w Q]: whatever storage, cluster, signer, deadline and the other workers
    do, every call that [p] makes satisfies [Φ] when it is made, given the calls made
    before it, and [p] ends with a value, a history and a world in [Q].  Before every call
    the world may have moved on, as long as the ledger only grew. *)

From Stdlib Require Import String Ascii NArith Lia ZArith.
From stdpp Require Import base gmap strings option list fin_maps relations.
From S2P Require Import Prelude Json JsonValue Redis RedisProg Errors FinalityTypes.
From S2P Require Import RecoveryLedger RecoveryChecks EngineProg RecoveryJournal RecoveryOps.
From S2P Require Import RecoveryOffline RecoverySpec RecoveryKeeps RecoveryTxns RecoveryGate.
From S2P Require Import RecoveryOpSpecs RecoveryOfflineSpecs RecoveryLife RecoveryClaims Finality.
From S2P Require Import FinalityClaims QueueTypes EoaTypes EoaErrors ExecRecovery WorkerLogic.
From S2P Require Import SolanaStore SolanaProg.

Section Journal.
Context `{Primitives} `{!Json Value, !Json FinalityEvidence}.
#[local] Existing Instance fair_turns.
#[local] Notation spec P p Q := (triple ok_turn later P p Q).

(** The ledger of this world has grown out of one with [P]. *)
Definition known (P : Ledger -> Prop) (w : world) : Prop := ∃ l, P l /\ grown l w.
Lemma known_mono (P Q : Ledger -> Prop) w : (∀ l, P l -> Q l) -> known P w -> known Q w.
Proof. intros HPQ (l & HP & Hg). exists l. auto. Qed.
Lemma synced_known (P : Ledger -> Prop) l w : P l -> ledger_ok l -> synced l w -> known P w.
Proof. intros HP Hok (Hd & _). exists l. split; [done|]. by exists l. Qed.

(** The transaction is admitted, under [key] once it is bound to one. *)
Definition tracked (i : string) (l : Ledger) : Prop :=
  ∃ a, l_admissions l !! i = Some a /\ ad_kind a = "solana".
Definition bound (i key : string) (l : Ledger) : Prop :=
  ∃ a, l_admissions l !! i = Some a /\ ad_kind a = "solana" /\ ad_replay_key a = Some key.
Lemma bound_evolves i key l l' : evolves l l' -> bound i key l -> bound i key l'.
Proof.
  intros He (a & Ha & Hk & Hkey). destruct (ev_admissions _ _ He i a Ha) as (a' & Ha' & Hk' & _ & _ & Hkey' & _).
  exists a'. split_and!; [done|congruence|by apply Hkey'].
Qed.

(** Two bindings known in one world agree. *)
Lemma bound_agree i k k' w : known (bound i k) w -> known (bound i k') w -> k = k'.
Proof.
  intros (l & Hb & L & Hd & Hok & He) (l' & Hb' & L' & Hd' & Hok' & He'). rewrite Hd in Hd'. injection Hd' as <-.
  destruct (bound_evolves _ _ _ _ He Hb) as (a & Ha & _ & Hk). destruct (bound_evolves _ _ _ _ He' Hb') as (a' & Ha' & _ & Hk').
  congruence.
Qed.

Lemma admission_of_Some i l r :
  admission_of "solana" i l = Ok (Some r) ->
  ∃ a, l_admissions l !! i = Some a /\ ad_kind a = "solana" /\ rec_replay_key r = ad_replay_key a /\ rec_state r = ad_state a.
Proof.
  unfold admission_of. intros Hr. txn_step Hr. destruct a as [r'|]; cbn in Hr; [|by injection Hr].
  txn_step Hr. injection Hr as ->. apply lookup_admission_Some in E as (a & Ha & _ & Hk & _ & _ & Hs & Hkey).
  b2p. apply dec_stable in E0. exists a. split_and!; congruence.
Qed.

Lemma known_later P w w' : later w w' -> known P w -> known P w'.
Proof. intros Hl (l & HP & Hg). exists l. split; [done|]. by eapply grown_later. Qed.

Lemma read_admission_spec (P : world -> Prop) i :
  (∀ w w', P w -> later w w' -> P w') ->
  spec P (journal_call (journal_admission "solana" i))
    (on_ok (fun found w => ∃ l, w_disk w = LedgerFile l /\ admission_of "solana" i l = Ok found /\ P w)).
Proof.
  intros HP. apply journal_call_kept; [done|]. apply triple_flow, db_read_spec. intros w l found Hg Hd Hf. by exists l.
Qed.

Lemma check_admission_spec l0 i payload :
  spec (grown l0) (validate_reconciliation_payload "solana" i payload) (on_ok (fun _ => known (tracked i))).
Proof.
  unfold validate_reconciliation_payload. eapply triple_try.
  { apply (journal_spec l0 _ (fun _ _ _ => True)). intros l Hok.
    eapply triple_post; [by apply ensure_healthy_spec|]. by intros [[]|] w. }
  intros []. eapply triple_try.
  { eapply triple_conseq; [| |apply (read_admission_spec (grown l0)), grown_later]; [by intros w (l & _ & Hg & _)|done]. }
  intros [r|]; [|by apply triple_ret]. branch Hb; [by apply triple_ret|]. apply triple_ret.
  intros w (l & Hd & Hr & l' & Hd' & Hok & He). rewrite Hd in Hd'. injection Hd' as <-.
  destruct (admission_of_Some _ _ _ Hr) as (a & Ha & Hk & _). exists l. split; [by exists a|]. by exists l.
Qed.

(** A tracked transaction is found, with its binding; without one it never had one. *)
Definition reserved_as (l0 : Ledger) (i : string) (found : option AdmissionRecord) (w : world) : Prop :=
  ∃ r, found = Some r /\
    match rec_replay_key r with Some key => known (bound i key) w | None => ∀ key, ~ bound i key l0 end.
Lemma reserved_admission_spec l0 i :
  spec (fun w => grown l0 w /\ known (tracked i) w) (journal_call (journal_admission "solana" i))
    (on_ok (reserved_as l0 i)).
Proof.
  eapply triple_post; [apply read_admission_spec|].
  { intros w w' [Hg Hk] Hl. split; [by eapply grown_later|by eapply known_later]. }
  intros [found|] w; [|done]. cbn.
  intros (l & Hd & Hr & (L & HL & Hok & He) & l1 & (a1 & Ha1 & _) & L1 & HL1 & _ & He1).
  rewrite Hd in HL, HL1. injection HL as <-. injection HL1 as <-. destruct found as [r|].
  - destruct (admission_of_Some _ _ _ Hr) as (a & Ha & Hk & Hkey & Hs). exists r. split; [done|]. rewrite Hkey.
    destruct (ad_replay_key a) as [key|] eqn:Hb; [exists l; split; [by exists a|by exists l]|].
    intros key Hb0. destruct (bound_evolves _ _ _ _ He Hb0) as (a' & Ha' & _ & Hb'). congruence.
  - exfalso. destruct (ev_admissions _ _ He1 i a1 Ha1) as (a & Ha & _). unfold admission_of in Hr. txn_step Hr.
    destruct a0; cbn in Hr; [by destruct (bool_decide _)|]. unfold lookup_admission in E. rewrite Ha in E.
    by repeat (txn_step E).
Qed.

(** ** Broadcasts *)

Definition sol_authorized (i key : string) (payload : Value) (l : Ledger) : Prop :=
  ∃ encoded, canonical payload = Ok encoded /\ authorized "solana" i key encoded l.
Lemma sol_authorized_bound i key payload l : sol_authorized i key payload l -> bound i key l.
Proof. intros (e & _ & a & Ha & Hk & _ & Hkey & _). by exists a. Qed.

Lemma authorize_spec l0 i key payload :
  spec (grown l0) (journal_call (before_broadcast "solana" i key payload))
    (on_ok (fun _ => known (sol_authorized i key payload))).
Proof.
  eapply triple_post; [apply (journal_spec l0 _ (fun _ _ => known (sol_authorized i key payload)))|].
  - intros l Hok. eapply triple_post; [by apply before_broadcast_spec|]. intros [[]|] w; [|done].
    intros (_ & _ & encoded & old & Hc & l2 & l' & [= <-] & Ht & Hs).
    eapply synced_known; [|apply settled_ok; by eapply keeps_broadcast; [apply settled_ok|]|exact Hs].
    exists encoded. split; [done|]. by eapply broadcast_txn_authorized; [apply settled_ok|].
  - intros [[]|] w; [|done]. by intros (l & _ & _ & Hk).
Qed.

Lemma retained_payload_Ok key digest encoded p : retained_payload key digest encoded = Ok p -> canonical p = Ok encoded.
Proof.
  unfold retained_payload. intros Hp. destruct (from_json encoded) as [v|]; [|done]. cbn [ok_or] in Hp.
  destruct (canonical v) as [text|] eqn:Hc; [|done]. txn_step Hp. apply orb_false_iff in E as [E _]. b2p. apply dec_stable in E.
  subst text. do 3 txn_step Hp. destruct (ok_or _ (get_field v _)) as [x|]; [|done]. txn_step Hp.
  destruct (get_str x "signed_transaction") as [[]|] in Hp; [done| |done]. by injection Hp as <-.
Qed.

(** The one attempt the ledger retains. *)
Lemma retained_attempt l i payload st :
  retained l i payload = Ok (Some st) ->
  ∃ a at0, l_admissions l !! i = Some a /\ ad_kind a = "solana" /\ ad_state a = ret_state (ret_public st) /\
    attempts_of i l = [at0] /\ ad_replay_key a = Some (at_replay_key at0) /\
    canonical (ret_payload (ret_public st)) = Ok (at_payload at0).
Proof.
  unfold retained. intros Ht. txn_step Ht. txn_step Ht. apply ok_or_Ok in E0. subst a.
  apply lookup_admission_Some in E as (a & Ha & _ & Hk & _ & _ & Hs & Hr).
  txn_step Ht. destruct (negb a1) eqn:Hsame in Ht; [discriminate Ht|]. apply negb_false_iff in Hsame. subst a1.
  assert (rec_kind a0 = "solana") as Hsol.
  { destruct (bool_decide (rec_kind a0 <> "solana")) eqn:Hkd; [done|]. b2p. by apply dec_stable in Hkd. }
  txn_step Ht. txn_step Ht. destruct (attempts_of i l) as [|at0 rest] eqn:Hat in Ht; [by destruct (_ || _)|].
  txn_step Ht. apply orb_false_iff in E2 as [E2 E3]. apply negb_false_iff in E2. b2p. subst rest. apply dec_stable in E3.
  txn_step Ht. txn_step Ht. destruct a3 as [b t]. injection Ht as <-. cbn. exists a, at0. split_and!; try congruence.
  by apply (retained_payload_Ok _ _ _ _ E2).
Qed.

(** A granted rebroadcast of the attempt encoded as [encoded], the [n]th. *)
Definition regranted (i encoded : string) (n : N) (l : Ledger) : Prop :=
  ∃ a at0 rows r, l_admissions l !! i = Some a /\ ad_kind a = "solana" /\ ad_state a = StAdmitted /\
    attempts_of i l = [at0] /\ ad_replay_key a = Some (at_replay_key at0) /\ at_payload at0 = encoded /\
    l_solana l = Some rows /\ rows !! i = Some r /\ so_broadcasts r = n /\ (1 <= n <= MAX_SOLANA_RECOVERY_BROADCASTS)%N.
Definition sol_regranted (i : string) (payload : Value) (n : N) (l : Ledger) : Prop :=
  ∃ encoded, canonical payload = Ok encoded /\ regranted i encoded n l.

Lemma recovery_broadcast_granted i payload attempt now l n t old l' :
  recovery_broadcast_txn i payload attempt now l = Ok ((Granted n t, old), l') -> sol_regranted i attempt n l'.
Proof.
  unfold recovery_broadcast_txn. intros Ht. txn_step Ht. txn_step Ht. apply ok_or_Ok in E0. subst a.
  txn_step Ht. txn_step Ht. txn_step Ht. txn_step Ht. txn_step Ht. destruct a2 as [p l1].
  apply orb_false_iff in E0 as [Hm Hst]. apply negb_false_iff in Hm. b2p. apply dec_stable in Hst.
  destruct p as [n' t'| |]; [|done..]. txn_step Ht. destruct a2 as [c l2]. injection Ht as <- <- <- <-.
  pose proof E as Hret. apply retained_Ok in E as (_ & _ & rows & _ & _ & _ & Hrows & _ & _ & Hmode & Hbud).
  apply retained_attempt in Hret as (a' & at0 & Ha & Hk & Hs & Hat & Hkey & Hc).
  rewrite Hm in Hmode. symmetry in Hmode. b2p. destruct Hmode as [r Hr]. destruct (Hbud r Hr) as [Hb Hl].
  destruct (claim_Granted _ _ _ _ _ _ _ _ _ Hrows Hr Hb Hl E4) as (Hn & -> & Hmax & _ & _ & ->).
  destruct (advance_tables _ _ _ E0) as (T1 & T2 & _ & _ & T5 & _). apply dec_stable in E3. subst a1.
  exists (at_payload at0). split; [congruence|].
  exists a', at0, (<[i := mkSolanaRow (so_attempt_digest r) n' now]> rows), (mkSolanaRow (so_attempt_digest r) n' now).
  unfold attempts_of in *. rewrite T1, T2, T5. cbn. split_and!; try done; try congruence; [apply lookup_insert_eq|lia].
Qed.

Lemma rebroadcast_spec l0 i payload attempt :
  spec (grown l0) (journal_call (before_solana_recovery_broadcast i payload attempt))
    (on_ok (fun grant w => match grant with Granted n _ => known (sol_regranted i attempt n) w | _ => True end)).
Proof.
  eapply triple_post; [apply (journal_spec l0 _ (fun _ grant w =>
    match grant with Granted n _ => known (sol_regranted i attempt n) w | _ => True end))|].
  - intros l Hok. eapply triple_post; [by apply before_solana_recovery_broadcast_spec|]. intros [[n t| |]|] w; [|done..].
    intros (now & old & l2 & l' & [= <-] & Ht & Hs).
    eapply synced_known; [|apply settled_ok; by eapply keeps_recovery_broadcast; [apply settled_ok|]|exact Hs].
    destruct (recovery_broadcast_granted _ _ _ _ _ _ _ _ _ Ht) as (e & Hc & a & at0 & rows & r & Hx).
    destruct (settled_tables l') as (T1 & T2 & _ & _ & T5 & _). exists e. split; [done|]. exists a, at0, rows, r.
    unfold attempts_of in *. by rewrite T1, T2, T5.
  - intros [grant|] w; [|done]. by intros (l & _ & _ & Hk).
Qed.

(** ** Outcomes *)

(** The transaction is terminal, under the replay key of the settled signature. *)
Definition sol_terminal (i chain signature : string) (l : Ledger) : Prop :=
  ∃ a s, l_admissions l !! i = Some a /\ ad_kind a = "solana" /\ ad_state a = StTerminal /\
    parse_signature signature = Some s /\
    ad_replay_key a = Some ("solana:" +:+ chain +:+ ":" +:+ signature_to_string s).

Lemma solana_identity_Ok l r chain signature slot succeeded :
  rec_kind r = "solana" ->
  validate_attempt_identity_in_db l r (solana_terminal_value chain signature slot succeeded) = Ok tt ->
  ∃ s, parse_signature signature = Some s /\
    rec_replay_key r = Some ("solana:" +:+ chain +:+ ":" +:+ signature_to_string s).
Proof.
  intros Hkind Hv. unfold validate_attempt_identity_in_db in Hv. destruct (decide _) in Hv; [done|].
  destruct (rec_replay_key r) as [k|]; [|done]. cbn [ok_or] in Hv.
  destruct (replay_chain k) as [ch|]; [|done]. cbn [ok_or] in Hv. rewrite Hkind in Hv. cbn in Hv.
  destruct (find_attempt_Ok _ _ _ _ Hv) as (at0 & v & _ & _ & Hm).
  assert (solana_attempt_matches k (solana_terminal_value chain signature slot succeeded) v = Ok true) as Hs by exact Hm.
  unfold solana_attempt_matches in Hs.
  replace (field as_str _ "signature") with (Ok (E:=RecoveryError) signature) in Hs by reflexivity.
  replace (field as_str _ "chainId") with (Ok (E:=RecoveryError) chain) in Hs by reflexivity. clear Hm. rename Hs into Hm.
  destruct (parse_signature signature) as [s|]; [|done]. cbn [ok_or] in Hm. injection Hm as Hm. apply andb_true_iff in Hm as [Hm _].
  apply bool_decide_eq_true in Hm. exists s. by rewrite Hm.
Qed.

Lemma record_solana_terminal_spec l0 i chain signature slot succeeded :
  spec (grown l0) (record_solana_terminal true i chain signature slot succeeded)
    (on_ok (fun _ => known (sol_terminal i chain signature))).
Proof.
  eapply triple_post; [apply (journal_spec l0 _ (fun _ _ => known (sol_terminal i chain signature)))|].
  - intros l Hok. eapply triple_post; [by apply record_terminal_spec|]. intros [[]|] w; [|done].
    intros (_ & normalized & encoded & old & _ & _ & l2 & l' & [= <-] & Ht & Hs).
    eapply synced_known; [|apply settled_ok; by eapply keeps_terminal; [apply settled_ok|]|exact Hs].
    destruct (terminal_txn_settles _ _ _ _ _ _ _ _ (settled_ok _ Hok) Ht) as (_ & r & a & _ & Hk & _ & Hv & Ha & Hka & Hst & Hkey).
    destruct (solana_identity_Ok _ _ _ _ _ _ Hk Hv) as (s & Hp & Hr). destruct (settled_tables l') as (T1 & _).
    exists a, s. rewrite T1. split_and!; congruence.
  - intros [[]|] w; [|done]. by intros (l & _ & _ & Hk).
Qed.
End Journal.

(** ** Dropped journal operations *)

Section Cut.
Context `{Primitives} `{!Json Value, !Json FinalityEvidence}.
Definition if_done {A} (Q : A -> world -> Prop) (o : option A) (w : world) : Prop :=
  match o with Some a => Q a w | None => True end.

Lemma wp_ecut {A} T (R : world -> world -> Prop) (p : eprog A) w Q :
  wp T R p w Q -> wp T R (ecut p) w (if_done Q).
Proof.
  revert w. induction p as [a|B f k IH|B f k IH|k IH|k IH|k IH|k IH|k IH|tag k IH]; intros w Hw; cbn in Hw |- *; eauto.
  - intros t _. destruct (t_permit t); [|done]. cbn. intros t' Ht'. specialize (Hw t' Ht').
    destruct (disk_effect _ f (w_disk w)) as [d r]. destruct Hw. eauto.
  - intros t _. destruct (t_permit t); [|done]. cbn. intros t' Ht'. specialize (Hw t' Ht').
    destruct (server_effect _ f _) as [s r]. destruct Hw. eauto.
  - intros t _. destruct (t_permit t); [|done]. cbn. destruct Hw. eauto.
  - intros t Ht. destruct (Hw t Ht). eauto.
  - intros t _. destruct (t_permit t); [|done]. cbn. eauto.
Qed.

End Cut.

Section Safe.
Context `{SolanaRpc} `{!Json SolanaTransactionAttempt} `{!Json Value, !Json FinalityEvidence}.
Context (redis_error_to_string : redis_error -> string) (namespace : option string).
#[local] Notation srun := (srun redis_error_to_string namespace).

(** A call about to be made. *)
Inductive sdoing :=
| SDoStore {B : Type} (o : sol_op B)
| SDoCall {B : Type} (q : sol_call B).
Definition sdoing_of (d : sdone) : sdoing :=
  match d with SDidStore o _ => SDoStore o | SDidCall q _ => SDoCall q end.
(** The last call first. *)
Definition shistory := list sdone.
Definition sassertion := shistory -> world -> Prop.

Section Rules.
Context (Φ : sdoing -> sassertion).

Fixpoint ssafe {A} (p : sprog A) (h : shistory) (w : world) (Q : A -> sassertion) : Prop :=
  ∀ h' w', h `suffix_of` h' -> later w w' ->
  match p with
  | SRet a => Q a h' w'
  | SStore o k => Φ (SDoStore o) h' w' /\ ∀ b, ssafe (k b) (SDidStore o b :: h') w' Q
  | SJournal e k => wp fair_turn later e w' (fun b w2 => ssafe (k b) h' w2 Q)
  | SCall q k => Φ (SDoCall q) h' w' /\ ∀ b, ssafe (k b) (SDidCall q b :: h') w' Q
  end.

Lemma ssafe_later {A} (p : sprog A) h w h' w' Q :
  h `suffix_of` h' -> later w w' -> ssafe p h w Q -> ssafe p h' w' Q.
Proof. intros Hh Hl Hs. destruct p; intros h2 w2 Hh2 Hl2; (apply Hs; by etrans). Qed.
Lemma ssafe_mono {A} (p : sprog A) h w (Q Q' : A -> sassertion) :
  (∀ a h' w', h `suffix_of` h' -> later w w' -> Q a h' w' -> Q' a h' w') -> ssafe p h w Q -> ssafe p h w Q'.
Proof.
  revert h w. induction p as [a|B o k IH|B e k IH|B q k IH]; intros h w HQ Hs h' w' Hh Hl; specialize (Hs h' w' Hh Hl).
  - by apply HQ.
  - destruct Hs as [HΦ Hs]. split; [done|]. intros b. apply IH; [|apply Hs].
    intros a h2 w2 Hh2 Hl2. apply HQ; [|by etrans]. etrans; [exact Hh|]. by eapply suffix_cons_l.
  - cbn in Hs |- *. eapply wp_mono; [done| |by apply wp_later]. intros b w2 [Hs2 Hl2]. apply IH; [|done].
    intros a h3 w3 Hh3 Hl3. apply HQ; [by etrans|]. etrans; [exact Hl|]. by etrans.
  - destruct Hs as [HΦ Hs]. split; [done|]. intros b. apply IH; [|apply Hs].
    intros a h2 w2 Hh2 Hl2. apply HQ; [|by etrans]. etrans; [exact Hh|]. by eapply suffix_cons_l.
Qed.
Lemma ssafe_bind {A B} (p : sprog A) (g : A -> sprog B) h w Q :
  ssafe p h w (fun a h' w' => ssafe (g a) h' w' Q) -> ssafe (sbind p g) h w Q.
Proof.
  revert h w. induction p as [a|C o k IH|C e k IH|C q k IH]; intros h w Hs; cbn [sbind].
  - assert (ssafe (g a) h w Q) as Hg by by apply Hs. done.
  - intros h' w' Hh Hl. destruct (Hs h' w' Hh Hl) as [HΦ Hk]. split; [done|]. intros b. by apply IH, Hk.
  - intros h' w' Hh Hl. eapply wp_mono; [done| |exact (Hs h' w' Hh Hl)]. intros b w2 Hk. by apply IH.
  - intros h' w' Hh Hl. destruct (Hs h' w' Hh Hl) as [HΦ Hk]. split; [done|]. intros b. by apply IH, Hk.
Qed.

(** A dropped future has made no call that it would not have made. *)
Definition in_time {A} (Q : A -> sassertion) (o : option A) : sassertion :=
  fun h w => match o with Some a => Q a h w | None => True end.
Lemma ssafe_timeout {A} (p : sprog A) h w Q :
  (∀ h w, Φ (SDoCall SolDeadline) h w) -> ssafe p h w Q -> ssafe (timeout p) h w (in_time Q).
Proof.
  intros HΦ. revert h w. induction p as [a|C o k IH|C e k IH|C q k IH]; intros h w Hs; cbn [timeout];
    intros h' w' Hh Hl; (split; [done|]); intros [|]; try done;
    (intros h2 w2 Hh2 Hl2; assert (h `suffix_of` h2) as Hh3 by (etrans; [exact Hh|]; by eapply suffix_cons_l);
     specialize (Hs h2 w2 Hh3 (transitivity Hl Hl2))).
  - done.
  - destruct Hs as [HΦ' Hk]. split; [done|]. intros b. by apply IH, Hk.
  - eapply wp_mono; [done| |exact (wp_ecut _ _ _ _ _ Hs)]. intros [b|] w3 Hb; [by apply IH|done].
  - destruct Hs as [HΦ' Hk]. split; [done|]. intros b. by apply IH, Hk.
Qed.

(** ** Runs *)

(** [Φ] held of every call of a trace when it was made. *)
Fixpoint strace_ok (h : shistory) (tr : list (sdone * world)) : Prop :=
  match tr with
  | [] => True
  | (d, w) :: tr' => Φ (sdoing_of d) h w /\ strace_ok (d :: h) tr'
  end.
Lemma strace_ok_at h tr before d w after :
  strace_ok h tr -> tr = before ++ (d, w) :: after -> Φ (sdoing_of d) (reverse (map fst before) ++ h) w.
Proof.
  intros Htr ->. revert h Htr. induction before as [|[d0 w0] before IH]; intros h; cbn [strace_ok app map fst]; [by intros [? _]|].
  intros [_ Htr]. rewrite reverse_cons, <- (assoc_L (++)). by apply IH.
Qed.

(** The other workers only add to the ledger, between two calls of the job and between two
    operations of its journal flows. *)
Definition sfair (t : sturn) : Prop := (∀ w, later w (st_others t w)) /\ Forall fair_turn (st_turns t).

Lemma ssafe_run {A} (p : sprog A) ts h w Q a w' tr :
  Forall sfair ts -> ssafe p h w Q -> srun p ts w = (a, w', tr) ->
  Q a (reverse (map fst tr) ++ h) w' /\ strace_ok h tr.
Proof.
  revert ts h w a w' tr. induction p as [x|B o k IH|B e k IH|B q k IH]; intros ts h w a w' tr Hts Hs;
    cbn [SolanaProg.srun]; (assert (sfair (next_sturn ts).1 /\ Forall sfair (next_sturn ts).2) as [Ht Hts']
      by (destruct ts; [split; [split; [by intros ?|constructor]|constructor]|by inversion Hts]));
    destruct (next_sturn ts) as [t ts']; cbn [fst snd] in Ht, Hts'; destruct Ht as [Ht Hturns];
    specialize (Hs h _ (reflexivity h) (Ht w)); set (w0 := st_others t w) in *.
  - intros [= <- <- <-]. by split.
  - destruct Hs as [HΦ Hk]. destruct (run _ _ _ _) as [b [[sch c] σ]].
    destruct (SolanaProg.srun _ _ (k b) _ _) as [[a2 w2] tr2] eqn:Hw. intros [= <- <- <-].
    assert (ssafe (k b) (SDidStore o b :: h) (with_data σ w0) Q) as Hkb.
    { eapply ssafe_later; [done| |apply Hk]. by apply later_same_disk. }
    destruct (IH _ _ _ _ _ _ _ Hts' Hkb Hw) as [HQ Htr].
    cbn [map fst strace_ok sdoing_of]. rewrite reverse_cons, <- (assoc_L (++)). by split.
  - destruct (erun e _ _) as [[b w1] tr1] eqn:He. intros Hw.
    destruct (wp_run fair_turn _ _ _ _ _ _ _ _ fair_quiet Hturns Hs He) as [Hk _]. by eapply IH.
  - destruct Hs as [HΦ Hk]. destruct (SolanaProg.srun _ _ (k _) _ _) as [[a2 w2] tr2] eqn:Hw. intros [= <- <- <-].
    destruct (IH _ ts' _ _ _ _ _ Hts' (Hk _) Hw) as [HQ Htr].
    cbn [map fst strace_ok sdoing_of]. rewrite reverse_cons, <- (assoc_L (++)). by split.
Qed.

(** ** Specifications *)

Definition sspec (P : sassertion) {A} (p : sprog A) (Q : A -> sassertion) : Prop :=
  ∀ h w, P h w -> ssafe p h w Q.
(** An assertion that holds from then on. *)
Class SStable (P : sassertion) := sstable : ∀ h w h' w', h `suffix_of` h' -> later w w' -> P h w -> P h' w'.
#[export] Instance sstable_pure (φ : Prop) : SStable (fun _ _ => φ).
Proof. by intros h w h' w' _ _. Qed.
#[export] Instance sstable_and P Q `{!SStable P, !SStable Q} : SStable (fun h w => P h w /\ Q h w).
Proof. intros h w h' w' Hh Hl [HP HQ]. split; by eapply sstable. Qed.
#[export] Instance sstable_or P Q `{!SStable P, !SStable Q} : SStable (fun h w => P h w \/ Q h w).
Proof. intros h w h' w' Hh Hl [HP|HQ]; [left|right]; by eapply sstable. Qed.
#[export] Instance sstable_ex {X} (P : X -> sassertion) `{!∀ x, SStable (P x)} : SStable (fun h w => ∃ x, P x h w).
Proof. intros h w h' w' Hh Hl [x HP]. exists x. by eapply sstable. Qed.
#[export] Instance sstable_did d : SStable (fun h _ => d ∈ h).
Proof. intros h w h' w' [k ->] _ Hd. set_solver. Qed.
#[export] Instance sstable_known P : SStable (fun _ w => known P w).
Proof. intros h w h' w' _ Hl. by apply known_later. Qed.

Lemma sspec_pre {A} (P P' : sassertion) (p : sprog A) Q : (∀ h w, P' h w -> P h w) -> sspec P p Q -> sspec P' p Q.
Proof. intros HP Hp h w Hw. auto. Qed.
Lemma sspec_post {A} (P : sassertion) (p : sprog A) (Q Q' : A -> sassertion) :
  sspec P p Q -> (∀ a h w, Q a h w -> Q' a h w) -> sspec P p Q'.
Proof. intros Hp HQ h w Hw. eapply ssafe_mono; [|by apply Hp]. auto. Qed.
Lemma sspec_ret {A} (P : sassertion) (a : A) (Q : A -> sassertion) `{!SStable P} :
  (∀ h w, P h w -> Q a h w) -> sspec P (SRet a) Q.
Proof. intros HQ h w HP h' w' Hh Hl. apply HQ. by eapply sstable. Qed.
(** The precondition is kept along. *)
Lemma sspec_bind {A B} (P : sassertion) (p : sprog A) (g : A -> sprog B) (Q : A -> sassertion) S `{!SStable P} :
  sspec P p Q -> (∀ a, sspec (fun h w => P h w /\ Q a h w) (g a) S) -> sspec P (sbind p g) S.
Proof.
  intros Hp Hg h w HP. apply ssafe_bind. eapply ssafe_mono; [|by apply Hp].
  intros a h' w' Hh Hl HQ. apply Hg. split; [by eapply sstable|done].
Qed.
Lemma sspec_pure {A} (φ : Prop) (P : sassertion) (p : sprog A) Q :
  (φ -> sspec P p Q) -> sspec (fun h w => P h w /\ φ) p Q.
Proof. intros Hp h w [HP Hφ]. by apply Hp. Qed.
Lemma sspec_ex {A X} (P : X -> sassertion) (p : sprog A) Q :
  (∀ x, sspec (P x) p Q) -> sspec (fun h w => ∃ x, P x h w) p Q.
Proof. intros Hp h w [x HP]. by eapply Hp. Qed.

Lemma sspec_store {B} (P : sassertion) (o : sol_op B) `{!SStable P} :
  (∀ h w, P h w -> Φ (SDoStore o) h w) -> sspec P (sstore o) (fun b h _ => SDidStore o b ∈ h).
Proof.
  intros HΦ h w HP h' w' Hh Hl. split; [apply HΦ; by eapply sstable|]. intros b h2 w2 [k ->] _. set_solver.
Qed.
Lemma sspec_call {B} (P : sassertion) (q : sol_call B) `{!SStable P} :
  (∀ h w, P h w -> Φ (SDoCall q) h w) -> sspec P (scall q) (fun b h _ => SDidCall q b ∈ h).
Proof.
  intros HΦ h w HP h' w' Hh Hl. split; [apply HΦ; by eapply sstable|]. intros b h2 w2 [k ->] _. set_solver.
Qed.
(** A journal operation: what it established stays known. *)
Lemma sspec_journal {B} (P : sassertion) (e : eprog B) (K : B -> world -> Prop) `{!SStable P} :
  (∀ b w w', later w w' -> K b w -> K b w') ->
  (∀ h w, P h w -> wp fair_turn later e w K) -> sspec P (sjournal e) (fun b _ w => K b w).
Proof.
  intros HK He h w HP h' w' Hh Hl. eapply wp_mono; [done| |apply (He h'); by eapply sstable].
  intros b w2 Hb h3 w3 Hh3 Hl3. by eapply HK.
Qed.
#[export] Instance sstable_in_time {A} (Q : A -> sassertion) o `{!∀ a, SStable (Q a)} : SStable (in_time Q o).
Proof. destruct o as [a|]; [exact (_ : SStable (Q a))|by intros h w]. Qed.
Lemma sspec_timeout {A} (P : sassertion) (p : sprog A) Q :
  (∀ h w, Φ (SDoCall SolDeadline) h w) -> sspec P p Q -> sspec P (timeout p) (in_time Q).
Proof. intros HΦ Hp h w HP. apply ssafe_timeout; auto. Qed.

(** The [?] operator, with a postcondition [E] for what is passed on as an error. *)
Definition sres {E A} (F : E -> sassertion) (Q : A -> sassertion) (r : result E A) : sassertion :=
  match r with Ok a => Q a | Err e => F e end.
#[export] Instance sstable_sres {E A} (F : E -> sassertion) (Q : A -> sassertion) r
    `{!∀ e, SStable (F e), !∀ a, SStable (Q a)} : SStable (sres F Q r).
Proof. destruct r; cbn; apply _. Qed.
Lemma sspec_try {E A B} (P : sassertion) (p : sprog (result E A)) (g : A -> sprog (result E B)) F Q S
    `{!SStable P, !∀ e, SStable (F e)} :
  sspec P p (sres F Q) -> (∀ a, sspec (fun h w => P h w /\ Q a h w) (g a) (sres F S)) ->
  sspec P (sbind p (fun r => match r with Ok a => g a | Err e => SRet (Err e) end)) (sres F S).
Proof.
  intros Hp Hg. apply (sspec_bind P p _ (sres F Q)); [done..|]. intros [a|e]; [apply Hg|].
  cbn. intros h w [_ HF] h' w' Hh Hl. by eapply sstable.
Qed.
Lemma sspec_map_err {E E' A} (P : sassertion) (f : E -> E') (p : sprog (result E A)) F F' Q `{!SStable P}
    `{!∀ a, SStable (Q a), !∀ e, SStable (F e)} :
  sspec P p (sres F Q) -> (∀ e h w, P h w -> F e h w -> F' (f e) h w) -> sspec P (smap_err f p) (sres F' Q).
Proof.
  intros Hp HF. apply (sspec_bind P p _ (sres F Q)); [done..|]. intros [a|e]; (apply sspec_ret; [apply _|]).
  - by intros h w [HP HQ].
  - intros h w [HP He]. by apply HF.
Qed.
End Rules.
End Safe.
