(* ===== verification/SolanaSafety.v ===== *)
(** What the Solana executor never does: send bytes that are not the validated attempt in
    the store and authorised in the journal, change the bytes of an attempt, sign while an
    attempt may exist, or report an outcome that the cluster has not finalized.  The rules,
    and then function by function what each may rely on and what it leaves behind, with the
    journal configured. *)

From Stdlib Require Import String Ascii NArith ZArith Lia.
From stdpp Require Import base gmap strings option list fin_maps relations.
From S2P Require Import Prelude Json JsonValue Redis RedisProg Errors FinalityTypes.
From S2P Require Import RecoveryLedger RecoveryChecks EngineProg RecoveryJournal RecoveryOps.
From S2P Require Import RecoverySpec RecoveryGate RecoveryOpSpecs RecoveryLife RecoveryClaims.
From S2P Require Import Finality FinalityClaims QueueTypes Webhook EoaTypes EoaErrors.
From S2P Require Import ExecRecovery WorkerLogic WorkerQuiet SolanaStore SolanaProg SolanaWorker.
From S2P Require Import SolanaLogic RecoveryTxns.

Section Rules.
Context `{SolanaRpc} `{!Json SolanaTransactionAttempt} `{!Json Value, !Json FinalityEvidence}.
Context (satisfies_finalized : TransactionStatus -> bool).
(** The job, and the ledger when it started. *)
Context (data : SolanaExecutorJobData SolCredential) (l0 : Ledger).
#[local] Notation id := (sj_transaction_id data).

(** ** What a call must satisfy when it is made *)

(** An attempt with these bytes was read, stored or restored under this lock. *)
Definition origin (a : SolanaTransactionAttempt) (lock : TransactionLock) (h : shistory) : Prop :=
  ∃ o, durable_attempt o = durable_attempt a /\
    (SDidStore (SoGet id lock) (Ok (Some o)) ∈ h \/ SDidStore (SoStore id o lock) (Ok true) ∈ h \/
     SDidStore (SoRestore id o lock) (Ok true) ∈ h).

(** The journal authorised this send: as the recorded attempt of an admitted transaction,
    or as a counted rebroadcast of the one it retains. *)
Definition may_send (a : SolanaTransactionAttempt) (w : world) : Prop :=
  known (bound id (sol_replay_key data a)) w /\
  (known (sol_authorized id (sol_replay_key data a) (durable_attempt_payload data a)) w \/
   (sa_restored_from_journal a = true /\
    known (sol_regranted id (durable_attempt_payload data a) (sa_broadcast_attempts a)) w)).

(** No signature was reserved when the job started, and storage answered that there is no
    attempt. *)
Definition never_signed (h : shistory) : Prop :=
  (∀ key, ~ bound id key l0) /\ ∃ lock, SDidStore (SoGet id lock) (Ok None) ∈ h.

Definition sol_rule (d : sdoing) (h : shistory) (w : world) : Prop :=
  match d with
  | SDoCall (SendTransaction wire _) =>
      ∃ a lock, validated_attempt_wire data a = Ok wire /\ (1 <= sa_broadcast_attempts a <= MAX_BROADCASTS_PER_ATTEMPT)%N /\
        SDidStore (SoUpdate id a lock) (Ok tt) ∈ h /\ may_send a w
  | SDoCall (SolSign _ signer _) => signer = so_signer_address (sj_options data) /\ never_signed h
  | SDoStore (SoUpdate i a lock) => i = id /\ origin a lock h
  | SDoStore (SoStore i a lock) =>
      i = id /\ never_signed h /\ known (sol_authorized id (sol_replay_key data a) (durable_attempt_payload data a)) w
  | SDoStore (SoRestore i a lock) =>
      i = id /\ SDidStore (SoGet id lock) (Ok None) ∈ h /\ known (bound id (sol_replay_key data a)) w
  | _ => True
  end.

(** ** What a result means *)

(** A finalized status of the attempt's signature and a receipt that agrees with it. *)
Definition finalized (a : SolanaTransactionAttempt) (err : option TransactionError) (details : TransactionDetails)
    (h : shistory) : Prop :=
  ∃ statuses status, SDidCall (GetSignatureStatuses (sa_signature a)) (Ok statuses) ∈ h /\
    SDidCall (GetTransactionDetails (sa_signature a)) (Ok details) ∈ h /\
    ss_value statuses = [Some status] /\ satisfies_finalized status = true /\
    ts_confirmation_status status = Some ConfFinalized /\ ts_err status = err /\
    receipt_consistent (signature_to_string (sa_signature a)) status details = true.
Definition settled_as (a : SolanaTransactionAttempt) (err : option TransactionError) (details : TransactionDetails)
    : sassertion := fun h w =>
  finalized a err details h /\ known (sol_terminal id (sj_chain data) (signature_to_string (sa_signature a))) w.

Definition given_up (e : JobError SolanaExecutorError) : sassertion := fun h w =>
  match e with
  | Nack _ _ _ => True
  | Fail (SxTransactionFailed reason) =>
      ∃ a err details, reason = transaction_error_debug err /\ settled_as a (Some err) details h w
  | Fail _ => never_signed h
  end.
Definition completed (r : SolanaExecutorResult EncodedTransactionWithStatusMeta) : sassertion := fun h w =>
  ∃ a details, r = finished data a details /\ settled_as a None details h w.

(** ** Stability *)

#[export] Instance stable_origin a lock : SStable (fun h _ => origin a lock h).
Proof. unfold origin. apply _. Qed.
#[export] Instance stable_never_signed : SStable (fun h _ => never_signed h).
Proof. unfold never_signed. apply _. Qed.
#[export] Instance stable_may_send a : SStable (fun _ w => may_send a w).
Proof. unfold may_send. apply _. Qed.
#[export] Instance stable_settled_as a err details : SStable (settled_as a err details).
Proof. unfold settled_as, finalized. apply _. Qed.
#[export] Instance stable_given_up e : SStable (given_up e).
Proof. unfold given_up. destruct e as [? ? ?|[]]; apply _. Qed.
#[export] Instance stable_completed r : SStable (completed r).
Proof. unfold completed. apply _. Qed.
#[export] Instance stable_started : SStable (fun _ w => grown l0 w).
Proof. intros h w h' w' _ Hl Hg. by eapply grown_later. Qed.
End Rules.

Ltac sol_branch H :=
  match goal with |- SolanaLogic.sspec _ _ (if ?b then _ else _) _ => destruct b eqn:H end.

#[local] Existing Instance fair_turns.

Section Specs.
Context `{SolanaRpc} `{!Json SolanaTransactionAttempt} `{!Json Value, !Json FinalityEvidence}.
Context (satisfies_finalized : TransactionStatus -> bool).
Context (job_to_value : SolanaExecutorJobData SolCredential -> option Value).
Context (redis_error_to_string : redis_error -> string) (storage_error_to_string : SolanaStorageError -> string).
Context (confirmation_poll_interval : Duration).
Context (data : SolanaExecutorJobData SolCredential) (l0 : Ledger).
#[local] Notation id := (sj_transaction_id data).
#[local] Notation rule := (sol_rule data l0).
#[local] Notation sspec := (sspec rule).
#[local] Notation fails := (given_up satisfies_finalized data l0).
#[local] Notation done_with := (completed satisfies_finalized data).
#[local] Notation key a := (sol_replay_key data a).
#[local] Notation payload a := (durable_attempt_payload data a).

(** ** Single steps *)

Definition nacks (e : JobError SolanaExecutorError) : Prop :=
  match e with Nack _ _ _ => True | Fail _ => False end.
Lemma given_up_nack e h w : nacks e -> fails e h w.
Proof. by destruct e. Qed.
Lemma sspec_nack {A} (P : sassertion) e (Q : A -> sassertion) `{!SStable P} :
  nacks e -> sspec P (SRet (Err e)) (sres fails Q).
Proof. intros He. apply sspec_ret; [apply _|]. intros h w _. by apply given_up_nack. Qed.
Lemma sspec_ok {A} (P : sassertion) (a : A) (Q : A -> sassertion) `{!SStable P} :
  (∀ h w, P h w -> Q a h w) -> sspec P (SRet (Ok a)) (sres fails Q).
Proof. intros HQ. by apply sspec_ret. Qed.

(** The precondition still holds at the end. *)
Lemma sspec_frame {A} (P : sassertion) (p : sprog (result (JobError SolanaExecutorError) A)) (Q Q' : A -> sassertion)
    `{!SStable P} :
  sspec P p (sres fails Q) -> (∀ a h w, P h w -> Q a h w -> Q' a h w) -> sspec P p (sres fails Q').
Proof.
  intros Hp HQ h w HP. eapply ssafe_mono; [|by apply Hp]. intros [a|e] h' w' Hh Hl; [|done]. apply HQ. by eapply sstable.
Qed.

Lemma step_call {E B} (P : sassertion) f (q : sol_call (result E B)) `{!SStable P} :
  (∀ e, nacks (f e)) -> (∀ h w, P h w -> rule (SDoCall q) h w) ->
  sspec P (smap_err f (scall q)) (sres fails (fun b h _ => SDidCall q (Ok b) ∈ h)).
Proof.
  intros Hf Hq. eapply sspec_bind; [done|by apply sspec_call|]. intros [b|e].
  - apply sspec_ok; [apply _|]. by intros h w [_ Hb].
  - by apply sspec_nack; [apply _|].
Qed.
Lemma handle_redis_nacks e : nacks (handle_redis_error storage_error_to_string e).
Proof. by destruct e. Qed.
Lemma step_store {B} (P : sassertion) (o : sol_op (storage_result B)) `{!SStable P} :
  (∀ h w, P h w -> rule (SDoStore o) h w) ->
  sspec P (storage_step storage_error_to_string o) (sres fails (fun b h _ => SDidStore o (Ok b) ∈ h)).
Proof.
  intros Ho. eapply sspec_bind; [done|by apply sspec_store|]. intros [b|e].
  - apply sspec_ok; [apply _|]. by intros h w [_ Hb].
  - apply sspec_nack; [apply _|]. apply handle_redis_nacks.
Qed.
Lemma step_journal_from {B} (P : sassertion) (G : world -> Prop) (e : eprog (result EngineError B))
    (K : B -> world -> Prop) `{!SStable P} :
  (∀ b w w', later w w' -> K b w -> K b w') ->
  (∀ h w, P h w -> G w) -> triple fair_turn later G e (on_ok K) ->
  sspec P (recovery_step e) (sres fails (fun b _ w => K b w)).
Proof.
  intros HK HP He. apply (sspec_bind _ P _ _ (fun r _ w => on_ok K r w)); [done| |].
  - apply (sspec_journal _ _ e (on_ok K)); [|intros h w Hw; apply He; eauto].
    intros [b|x] w w' Hl; cbn; [by apply HK|done].
  - intros [b|x]; cbn.
    + intros h w [_ Hb] h' w' Hh Hl. cbn. by eapply HK.
    + by apply sspec_nack; [apply _|].
Qed.
Lemma step_journal {B} (P : sassertion) (e : eprog (result EngineError B)) (K : B -> world -> Prop) `{!SStable P} :
  (∀ b w w', later w w' -> K b w -> K b w') ->
  (∀ h w, P h w -> grown l0 w) -> triple fair_turn later (grown l0) e (on_ok K) ->
  sspec P (recovery_step e) (sres fails (fun b _ w => K b w)).
Proof. by apply step_journal_from. Qed.
(** A journal operation of which only its success matters. *)
Lemma step_calm {B} (P : sassertion) (e : eprog (result EngineError B)) `{!SStable P} :
  (∀ h w, P h w -> grown l0 w) -> calm e -> sspec P (recovery_step e) (sres fails (fun _ _ _ => True)).
Proof.
  intros HP He. apply (step_journal _ _ (fun _ _ => True)); [done..|]. eapply triple_post; [apply He|]. by intros [b|x] w.
Qed.
Lemma verify_lock_spec (P : sassertion) lock `{!SStable P} :
  sspec P (verify_lock redis_error_to_string lock) (sres fails (fun _ _ _ => True)).
Proof.
  eapply sspec_bind; [done|by apply sspec_store|]. intros [[|]|e]; [by apply sspec_ok; [apply _|]|..];
    (by apply sspec_nack; [apply _|]).
Qed.

(** ** Reconciliation *)

Lemma receipt_settles (P : sassertion) a status details err `{!SStable P} :
  (∀ h w, P h w -> grown l0 w) -> (∀ h w, P h w -> finalized satisfies_finalized a err details h) ->
  sspec P (recovery_step (record_solana_terminal true id (sj_chain data) (signature_to_string (sa_signature a))
             (td_slot details) (bool_decide (ts_err status = None))))
    (sres fails (fun _ => settled_as satisfies_finalized data a err details)).
Proof.
  intros Hg Hf. eapply sspec_frame; [done|apply (step_journal _ _ (fun _ => known (sol_terminal id (sj_chain data) (signature_to_string (sa_signature a))))); [|done|]|].
  - intros _ w1 w2. apply known_later.
  - apply record_solana_terminal_spec.
  - intros [] h w HP Hk. split; eauto.
Qed.

Definition reconciled (r : option (result (JobError SolanaExecutorError)
    (SolanaExecutorResult EncodedTransactionWithStatusMeta))) : sassertion :=
  match r with Some r => sres fails done_with r | None => fun _ _ => True end.
#[export] Instance stable_reconciled r : SStable (reconciled r).
Proof. destruct r; apply _. Qed.

Lemma reconcile_status_spec (P : sassertion) a `{!SStable P} :
  (∀ h w, P h w -> grown l0 w) ->
  sspec P (reconcile_status satisfies_finalized true confirmation_poll_interval data a) (sres fails reconciled).
Proof.
  intros Hg. eapply sspec_try; [apply _..|apply step_call; [apply _|done|done]|]. intros statuses. cbn beta.
  destruct (ss_value statuses) as [|[status|] [|]] eqn:Hs; try (by apply sspec_nack; [apply _|]).
  2: { by apply sspec_ok; [apply _|]. }
  sol_branch Hb; [by apply sspec_nack; [apply _|]|]. clear Hb.
  sol_branch Hb; [by apply sspec_ok; [apply _|]|]. apply orb_false_iff in Hb as [Hsat Hconf].
  apply negb_false_iff in Hsat. b2p. apply dec_stable in Hconf.
  eapply sspec_try; [apply _..|apply step_call; [apply _|done|done]|]. intros details. cbn beta.
  sol_branch Hb; [by apply sspec_nack; [apply _|]|]. apply negb_false_iff in Hb.
  eapply sspec_try; [apply _..| |].
  { apply (receipt_settles _ a status details (ts_err status)); [intros h w [[HP _] _]; eauto|].
    intros h w [[_ H1'] H2']. by exists statuses, status. }
  intros []. cbn beta. destruct (ts_err status) as [err|] eqn:He; (apply sspec_ok; [apply _|]);
    intros h w [_ Hset]; cbn.
  - by exists a, err, details.
  - by exists a, details.
Qed.

(** ** Sends *)

Lemma authorize_attempt_spec (P : sassertion) a `{!SStable P} :
  (∀ h w, P h w -> grown l0 w) ->
  sspec P (authorize_attempt job_to_value true data a)
    (sres fails (fun _ _ w => known (sol_authorized id (key a) (payload a)) w)).
Proof.
  intros Hg. unfold authorize_attempt. destruct (sa_restored_from_journal a); [by apply sspec_nack|]. cbn [negb].
  eapply sspec_try; [apply _..|apply step_calm; [done|done|apply calm_validate]|]. intros [].
  apply (step_journal _ _ (fun _ => known (sol_authorized id (key a) (payload a)))); [|by intros h w [HP _]; eauto|apply authorize_spec].
  intros _ w w'. apply known_later.
Qed.

(** The counted attempt has the bytes of [a]. *)
Definition counted (a a' : SolanaTransactionAttempt) : sassertion := fun _ w =>
  (∃ n t, a' = with_broadcast n t a) /\ (1 <= sa_broadcast_attempts a' <= MAX_BROADCASTS_PER_ATTEMPT)%N /\
  (sa_restored_from_journal a = true -> known (sol_regranted id (payload a') (sa_broadcast_attempts a')) w).
#[export] Instance stable_counted a a' : SStable (counted a a').
Proof.
  intros h w h' w' Hh Hl (Hn & Hb & Hk). split; [done|]. split; [done|]. intros Hr. by eapply known_later; [|apply Hk].
Qed.

Lemma count_broadcast_spec (P : sassertion) a now `{!SStable P} :
  (∀ h w, P h w -> grown l0 w) -> (sa_broadcast_attempts a < MAX_BROADCASTS_PER_ATTEMPT)%N ->
  sspec P (count_broadcast job_to_value true confirmation_poll_interval data a now) (sres fails (counted a)).
Proof.
  intros Hg Hlt. unfold count_broadcast. destruct (sa_restored_from_journal a) eqn:Hr; cbn [negb].
  - destruct (job_to_value data) as [v|]; [|by apply sspec_nack]. eapply sspec_try; [apply _..| |].
    + apply (step_journal _ _ (fun grant w => match grant with
        Granted n _ => known (sol_regranted id (payload a) n) w /\ (1 <= n <= MAX_BROADCASTS_PER_ATTEMPT)%N | _ => True end));
        [|done|eapply triple_post; [apply rebroadcast_spec|]].
      * intros [n t| |] w w' Hl; [|done..]. intros [Hk Hn]. split; [by eapply known_later|done].
      * intros [[n t| |]|] w; [|done..]. cbn. intros Hk. split; [done|].
        destruct Hk as (l & (e & _ & x & x0 & x1 & x2 & Hx) & _). apply Hx.
    + intros [n t| |]; [|by apply sspec_nack; [apply _|]..]. apply sspec_ok; [apply _|].
      intros h w [_ [Hk Hn]]. split; [by exists n, t|done].
  - apply sspec_ok; [apply _|]. intros h w _. split; [by eexists _, _|]. rewrite Hr. split; [cbn; lia|done].
Qed.

Lemma broadcast_attempt_spec (P : sassertion) a lock commitment `{!SStable P} :
  (∀ h w, P h w -> grown l0 w /\ origin data a lock h /\ known (bound id (key a)) w) ->
  sspec P (broadcast_attempt job_to_value redis_error_to_string storage_error_to_string true
             confirmation_poll_interval data a lock commitment) (sres fails done_with).
Proof.
  intros HP. eapply sspec_bind; [done|by apply sspec_call|]. intros now. cbn beta.
  sol_branch Hb; [by apply sspec_nack; [apply _|]|]. apply orb_false_iff in Hb as [Hlt _]. apply N.leb_gt in Hlt.
  cbn [sbind]. destruct (validated_attempt_wire data a) as [wire|e] eqn:Hv.
  2: { apply sspec_nack; [apply _|]. unfold validated_attempt_wire in Hv. repeat case_match; simplify_eq; done. }
  eapply sspec_try; [apply _..|apply count_broadcast_spec; [apply _|by intros h w [Hw _]; apply HP in Hw as [? _]|done]|].
  intros a'. eapply sspec_try; [apply _..|apply step_store; [apply _|]|].
  { intros h w [[Hw _] [(n & t & ->) _]]. split; [done|]. apply HP in Hw as (_ & (o & Ho & Hor) & _). by exists o. }
  intros []. eapply sspec_try; [apply _..|by apply verify_lock_spec; apply _|]. intros [].
  eapply (sspec_try _ _ _ _ _ (fun _ _ w => may_send data a' w)); [apply _..| |].
  { destruct (sa_restored_from_journal a') eqn:Hr.
    - apply sspec_ok; [apply _|]. intros h w [[[[Hw _] [(n & t & ->) [_ Hk]]] _] _]. apply HP in Hw as (_ & _ & Hbd).
      split; [done|]. right. auto.
    - eapply sspec_frame; [apply _|apply authorize_attempt_spec; [apply _|]|].
      + intros h w [[[[Hw _] _] _] _]. by apply HP in Hw as [? _].
      + intros [] h w [[[[Hw _] [(n & t & ->) _]] _] _] Ha. apply HP in Hw as (_ & _ & Hbd). split; [done|by left]. }
  intros []. eapply sspec_bind; [apply _|apply sspec_call; [apply _|]|].
  { intros h w [[[[_ [(n & t & ->) [Hc _]]] Hu] _] Hm]. by exists (with_broadcast n t a), lock. }
  intros sent. apply sspec_ret; [apply _|]. intros h w _. unfold sent_result. destruct sent; [destruct (decide _)|]; done.
Qed.

(** ** Which attempt there is *)

(** The attempt is in the store, and it is the one whose signature is reserved. *)
Definition held (lock : TransactionLock) (a : SolanaTransactionAttempt) : sassertion := fun h w =>
  origin data a lock h /\ known (bound id (key a)) w.
#[export] Instance stable_held lock a : SStable (held lock a).
Proof. unfold held. apply _. Qed.

Lemma calm_restore i v : calm (journal_call (prepare_solana_restore i v)).
Proof. apply calm_journal_call. eapply calm_op. intros d Hd. by apply prepare_solana_restore_spec. Qed.

Lemma check_retained_Ok binding retained a :
  check_retained data binding retained = Ok a ->
  binding = key a /\ sa_restored_from_journal a = true.
Proof.
  unfold check_retained. intros Hc. do 3 txn_step Hc. injection Hc as <-. split; [|done].
  rewrite !orb_false_iff in E0. destruct E0 as [[[_ Hb] _] _]. b2p. by apply dec_stable in Hb.
Qed.
Lemma check_retained_nacks binding retained e : check_retained data binding retained = Err e -> nacks e.
Proof.
  unfold check_retained, validated_attempt_wire. intros Hc. destruct (_ ≫= _); cbn [ok_or] in Hc; [|by injection Hc as <-].
  repeat (case_match; simplify_eq/=; try done).
Qed.

Lemma restore_spec (P : sassertion) binding lock `{!SStable P} :
  (∀ h w, P h w -> grown l0 w /\ SDidStore (SoGet id lock) (Ok None) ∈ h /\ known (bound id binding) w) ->
  sspec P (restore_retained_attempt job_to_value redis_error_to_string storage_error_to_string data binding lock)
    (sres fails (held lock)).
Proof.
  intros HP. unfold restore_retained_attempt. cbn [sbind].
  destruct (job_to_value data) as [v|]; [|by apply sspec_nack]. cbn [ok_or].
  eapply sspec_try; [apply _..|apply step_calm; [done|by intros h w Hw; apply HP in Hw as [? _]|apply calm_restore]|].
  intros [retained|]; cbn [sbind ok_or]; [|by apply sspec_nack; [apply _|]].
  destruct (check_retained data binding retained) as [a|e] eqn:Hc.
  2: { apply sspec_nack; [apply _|]. by eapply check_retained_nacks. }
  apply check_retained_Ok in Hc as [-> _].
  eapply sspec_try; [apply _..|apply step_store; [apply _|]|].
  { intros h w [Hw _]. apply HP in Hw as (_ & Hn & Hb). done. }
  intros [|]; cbn [negb]; [|by apply sspec_nack; [apply _|]].
  eapply sspec_try; [apply _..|by apply verify_lock_spec; apply _|]. intros []. apply sspec_ok; [apply _|].
  intros h w [[[Hw _] Hs] _]. apply HP in Hw as (_ & _ & Hb). split; [|done]. exists a. by auto.
Qed.

Definition reserved (lock : TransactionLock) (r : option SolanaTransactionAttempt * bool) : sassertion := fun h w =>
  match r.1 with Some a => held lock a h w | None => never_signed data l0 h end.
#[export] Instance stable_reserved lock r : SStable (reserved lock r).
Proof. unfold reserved. destruct r.1; apply _. Qed.

#[export] Instance stable_reserved_as i found : SStable (fun _ w => reserved_as l0 i found w).
Proof.
  intros h w h' w' _ Hl (r & -> & Hr). exists r. split; [done|]. destruct (rec_replay_key r); [by eapply known_later|done].
Qed.

Lemma reserved_attempt_spec (P : sassertion) lock stored `{!SStable P} :
  (∀ h w, P h w -> grown l0 w /\ known (tracked id) w /\ SDidStore (SoGet id lock) (Ok stored) ∈ h) ->
  sspec P (reserved_attempt job_to_value redis_error_to_string storage_error_to_string true data lock stored)
    (sres fails (reserved lock)).
Proof.
  intros HP. unfold reserved_attempt. cbn [negb]. eapply sspec_try; [apply _..| |].
  { eapply (step_journal_from _ _ _ (reserved_as l0 id)); [|intros h w Hw|apply reserved_admission_spec].
    - intros found w w' Hl. by apply (stable_reserved_as id found [] w [] w').
    - by apply HP in Hw as (? & ? & _). }
  intros found. cbn beta. destruct found as [r|].
  2: { intros h w [_ (r & [=] & _)]. }
  destruct (rec_replay_key r) as [binding|] eqn:Hr.
  - eapply (sspec_try _ _ _ _ _ (fun a h w => origin data a lock h)); [apply _..| |].
    + destruct stored as [a|].
      * apply sspec_ok; [apply _|]. intros h w [Hw _]. apply HP in Hw as (_ & _ & Hs). exists a. by auto.
      * eapply sspec_pre; [|eapply sspec_post; [apply (restore_spec (fun h w => P h w /\ known (bound id binding) w))|]].
        -- intros h w [Hw (r' & [= <-] & Hb)]. rewrite Hr in Hb. done.
        -- apply _.
        -- intros h w [Hw Hb]. apply HP in Hw as (? & ? & ?). done.
        -- intros [a|e] h w; [by intros [? _]|done].
    + intros a. sol_branch Hb; [by apply sspec_nack; [apply _|]|]. b2p. apply dec_stable in Hb. subst binding.
      apply sspec_ok; [apply _|]. intros h w [[_ (r' & [= <-] & Hb)] Ho]. rewrite Hr in Hb. done.
  - destruct stored as [a|]; [by apply sspec_nack; [apply _|]|]. apply sspec_ok; [apply _|].
    intros h w [Hw (r' & [= <-] & Hb)]. rewrite Hr in Hb. apply HP in Hw as (_ & _ & Hs). split; [done|by exists lock].
Qed.

(** ** An attempt that may have been sent *)

Definition expiry (r : result (result (JobError SolanaExecutorError)
    (SolanaExecutorResult EncodedTransactionWithStatusMeta)) bool) : sassertion :=
  match r with Ok _ => fun _ _ => True | Err r => sres fails done_with r end.
#[export] Instance stable_expiry r : SStable (expiry r).
Proof. destruct r; apply _. Qed.

Lemma check_expired_spec (P : sassertion) a `{!SStable P} :
  (∀ h w, P h w -> grown l0 w) ->
  sspec P (check_expired satisfies_finalized true confirmation_poll_interval data a) (sres fails expiry).
Proof.
  intros Hg. unfold check_expired. destruct (sa_blockhash_last_valid_height a) as [height|].
  - eapply sspec_try; [apply _..|apply step_call; [apply _|done|done]|]. intros n. by apply sspec_ok; [apply _|].
  - eapply sspec_try; [apply _..|apply step_call; [apply _|done|done]|]. intros [|]; [by apply sspec_ok; [apply _|]|].
    eapply sspec_try; [apply _..|apply reconcile_status_spec; [apply _|by intros h w [? _]; eauto]|].
    intros [r|]; [|by apply sspec_nack; [apply _|]]. apply sspec_ok; [apply _|]. by intros h w [_ Hr].
Qed.

Lemma sspec_reconciled (P : sassertion) r `{!SStable P} :
  sspec (fun h w => P h w /\ reconciled (Some r) h w) (SRet r) (sres fails done_with).
Proof. apply sspec_ret; [apply _|]. by intros h w [_ Hr]. Qed.

Lemma held_checked lock a n h w : held lock a h w -> held lock (with_reconciliation_checks n a) h w.
Proof. intros [(o & Ho & Hor) Hb]. split; [by exists o|done]. Qed.

Lemma reconcile_attempt_spec (P : sassertion) a terminal lock `{!SStable P} :
  (∀ h w, P h w -> grown l0 w /\ held lock a h w) ->
  sspec P (reconcile_attempt satisfies_finalized job_to_value redis_error_to_string storage_error_to_string true
             confirmation_poll_interval data a terminal lock) (sres fails done_with).
Proof.
  intros HP. unfold reconcile_attempt. sol_branch Hb; [by apply sspec_nack|]. clear Hb.
  set (a' := with_reconciliation_checks _ a).
  assert (∀ h w, P h w -> grown l0 w /\ held lock a' h w) as HP'.
  { intros h w Hw. apply HP in Hw as [? ?]. split; [done|by apply held_checked]. }
  eapply sspec_try; [apply _..|apply step_store; [apply _|]|].
  { intros h w Hw. split; [done|]. by apply HP' in Hw as [_ [? _]]. }
  intros []. eapply sspec_try; [apply _..|apply reconcile_status_spec; [apply _|]|].
  { intros h w [Hw _]. by apply HP in Hw as [? _]. }
  intros [r|]; [apply sspec_reconciled; apply _|]. sol_branch Hb; [by apply sspec_nack; [apply _|]|].
  sol_branch Hs; [by apply sspec_nack; [apply _|]|].
  eapply sspec_try; [apply _..|apply check_expired_spec; [apply _|]|].
  { intros h w [[Hw _] _]. by apply HP in Hw as [? _]. }
  intros [[|]|r].
  - eapply sspec_try; [apply _..|apply reconcile_status_spec; [apply _|]|].
    { intros h w [[[Hw _] _] _]. by apply HP in Hw as [? _]. }
    intros [r|]; [apply sspec_reconciled; apply _|by apply sspec_nack; [apply _|]].
  - apply broadcast_attempt_spec; [apply _|]. intros h w [[[Hw _] _] _]. by apply HP' in Hw.
  - apply sspec_ret; [apply _|]. by intros h w [_ Hr].
Qed.

(** ** The first attempt *)

(** Before anything is signed the job may fail. *)
Lemma sspec_unsigned {A} (P : sassertion) r (Q : A -> sassertion) `{!SStable P} :
  (∀ h w, P h w -> never_signed data l0 h) ->
  (∀ e h w, P h w -> r = Err e -> match e with Fail (SxTransactionFailed _) => False | _ => True end) ->
  (∀ a h w, P h w -> r = Ok a -> Q a h w) -> sspec P (SRet r) (sres fails Q).
Proof.
  intros Hn He Ha. apply sspec_ret; [apply _|]. intros h w Hw. destruct r as [a|e]; [by apply Ha|].
  specialize (He e h w Hw eq_refl). destruct e as [|[]]; cbn; eauto. done.
Qed.

Lemma compute_unit_price_spec (P : sassertion) fee instructions chain `{!SStable P} :
  sspec P (get_compute_unit_price fee instructions chain) (sres fails (fun _ _ _ => True)).
Proof.
  assert (∀ accounts percentile, sspec P (get_percentile_compute_unit_price accounts percentile chain)
    (sres fails (fun _ _ _ => True))) as Hp.
  { intros accounts percentile. eapply sspec_try; [apply _..|apply step_call; [apply _|done|done]|].
    intros fees. by apply sspec_ok; [apply _|]. }
  destruct fee; [apply Hp|by apply sspec_ok|apply Hp].
Qed.

Lemma build_transaction_spec (P : sassertion) `{!SStable P} :
  (∀ h w, P h w -> never_signed data l0 h) ->
  sspec P (build_transaction data) (sres fails (fun _ _ _ => True)).
Proof.
  intros Hn. unfold build_transaction. destruct (sj_input data) as [instructions|wire].
  - eapply sspec_try; [apply _..|apply step_call; [apply _|done|done]|]. intros [blockhash height].
    eapply (sspec_try _ _ _ _ _ (fun _ _ _ => True)); [apply _..| |].
    { destruct (so_priority_fee (sj_options data)) as [fee|]; [|by apply sspec_ok; [apply _|]].
      eapply sspec_try; [apply _..|by apply compute_unit_price_spec; apply _|]. intros n. by apply sspec_ok; [apply _|]. }
    intros price. cbn [sbind]. destruct (to_versioned_transaction _ _ _) as [tx|e]; [by apply sspec_ok; [apply _|]|].
    apply sspec_ret; [apply _|]. intros h w [[Hw _] _]. by apply (Hn h w).
  - cbn [sbind]. destruct (to_versioned_transaction _ _ _) as [tx|e]; [|apply sspec_ret; [apply _|]; by apply Hn].
    sol_branch Hd; [apply sspec_ret; [apply _|]; by apply Hn|].
    eapply sspec_try; [apply _..|apply step_call; [apply _|done|done]|].
    intros [|]; [by apply sspec_ok; [apply _|]|by apply sspec_nack; [apply _|]].
Qed.

Lemma sign_attempt_spec (P : sassertion) `{!SStable P} :
  (∀ h w, P h w -> never_signed data l0 h) -> sspec P (sign_attempt data) (sres fails (fun _ _ _ => True)).
Proof.
  intros Hn. unfold sign_attempt. eapply sspec_try; [apply _..|by apply build_transaction_spec|]. intros [tx height].
  eapply (sspec_try _ _ _ _ _ (fun _ _ _ => True)); [apply _..| |].
  { eapply sspec_bind; [apply _|apply sspec_call; [apply _|]|].
    - intros h w [Hw _]. split; [done|by eapply Hn].
    - intros [signed|e]; [by apply sspec_ok; [apply _|]|]. apply sspec_ret; [apply _|].
      intros h w [[Hw _] _]. by apply (Hn h w). }
  intros signed. cbn [sbind]. destruct (head _) as [signature|]; cbn [ok_or].
  2: { apply sspec_ret; [apply _|]. intros h w [[Hw _] _]. by apply (Hn h w). }
  destruct (encode_transaction_wire signed) as [bytes|e].
  2: { apply sspec_ret; [apply _|]. intros h w [[Hw _] _]. by apply (Hn h w). }
  eapply sspec_bind; [apply _|by apply sspec_call; [apply _|]|]. intros now. by apply sspec_ok; [apply _|].
Qed.

Lemma execute_spec (P : sassertion) lock attempts `{!SStable P} :
  (∀ h w, P h w -> grown l0 w /\ known (tracked id) w) ->
  sspec P (execute_transaction satisfies_finalized job_to_value redis_error_to_string storage_error_to_string true
             confirmation_poll_interval data lock attempts) (sres fails done_with).
Proof.
  intros HP. unfold execute_transaction. eapply sspec_try; [apply _..|by apply verify_lock_spec|]. intros [].
  eapply sspec_try; [apply _..|by apply step_store; [apply _|]|]. intros stored.
  eapply sspec_try; [apply _..|apply reserved_attempt_spec; [apply _|]|].
  { intros h w [[Hw _] Hs]. apply HP in Hw as [? ?]. done. }
  intros [[a|] terminal].
  - apply reconcile_attempt_spec; [apply _|]. intros h w [[[Hw _] _] Hh]. apply HP in Hw as [? _]. done.
  - sol_branch Hb; [apply sspec_ret; [apply _|]; by intros h w [_ Hn]|].
    eapply sspec_try; [apply _..|apply sign_attempt_spec; [apply _|by intros h w [_ Hn]]|]. intros a.
    eapply sspec_try; [apply _..|apply authorize_attempt_spec; [apply _|]|].
    { intros h w [[[[Hw _] _] _] _]. by apply HP in Hw as [? _]. }
    intros []. eapply sspec_try; [apply _..|apply step_store; [apply _|]|].
    { intros h w [[[_ Hn] _] Ha]. done. }
    intros [|]; cbn [negb]; [|by apply sspec_nack; [apply _|]].
    apply broadcast_attempt_spec; [apply _|]. intros h w [[[[[[Hw _] _] _] _] Ha] Hs]. apply HP in Hw as [? _].
    split_and!; [done|exists a; by auto|]. eapply known_mono; [|exact Ha]. apply sol_authorized_bound.
Qed.

(** ** The job *)

Lemma check_job_spec (P : sassertion) `{!SStable P} :
  (∀ h w, P h w -> grown l0 w) ->
  sspec P (check_admission job_to_value true data) (sres fails (fun _ _ w => known (tracked id) w)).
Proof.
  intros Hg. unfold check_admission. cbn [negb]. destruct (job_to_value data) as [v|]; [|by apply sspec_nack].
  apply (step_journal _ _ (fun _ => known (tracked id))); [|done|apply check_admission_spec].
  intros _ w w'. apply known_later.
Qed.

Lemma sol_process_spec attempts :
  sspec (fun _ w => grown l0 w)
    (sol_process satisfies_finalized job_to_value redis_error_to_string storage_error_to_string true
       confirmation_poll_interval data attempts) (sres fails done_with).
Proof.
  unfold sol_process. eapply sspec_try; [apply _..|apply check_job_spec; [apply _|done]|]. intros [].
  eapply sspec_bind; [apply _|by apply sspec_call; [apply _|]|]. intros uuid.
  eapply (sspec_try _ _ _ _ _ (fun _ _ _ => True)); [apply _..| |].
  { eapply sspec_bind; [apply _|by apply sspec_store; [apply _|]|].
    intros [lock|[]]; [by apply sspec_ok; [apply _|]|..]; by apply sspec_nack; [apply _|]. }
  intros lock. eapply sspec_bind; [apply _|apply sspec_timeout; [done|]|].
  { eapply sspec_try; [apply _..|apply step_call; [apply _|done|done]|]. intros [].
    apply execute_spec; [apply _|]. by intros h w [[[[? ?] _] _] _]. }
  intros r. eapply sspec_bind; [apply _|apply sspec_store; [apply _|done]|]. intros released.
  apply sspec_ret; [apply _|]. intros h w [[_ Hr] _]. by destruct r as [[r|e]|].
Qed.
End Specs.
