(* ===== verification/SolanaClaims.v ===== *)
(** What every run of the Solana executor's job guarantees, whatever storage, the cluster,
    the signer, the deadline and the other workers do, as long as those only add to the
    ledger. *)

From Stdlib Require Import String Ascii NArith ZArith Lia SpecFloat.
From stdpp Require Import base gmap strings option list fin_maps relations sorting.
From S2P Require Import Prelude Json JsonValue Redis RedisProg Errors FinalityTypes.
From S2P Require Import RecoveryLedger RecoveryChecks EngineProg RecoveryJournal RecoveryOps RecoverySpec.
From S2P Require Import RecoveryGate RecoveryLife Finality FinalityClaims.
From S2P Require Import QueueTypes Webhook EoaTypes EoaErrors ExecRecovery WorkerLogic.
From S2P Require Import SolanaStore SolanaProg SolanaWorker SolanaLogic.
From S2P Require Import SolanaSafety.

Section Claims.
Context `{SolanaRpc} `{!Json SolanaTransactionAttempt} `{!Json Value, !Json FinalityEvidence}.
Context (satisfies_finalized : TransactionStatus -> bool).
Context (job_to_value : SolanaExecutorJobData SolCredential -> option Value).
Context (redis_error_to_string : redis_error -> string) (storage_error_to_string : SolanaStorageError -> string).
Context (confirmation_poll_interval : Duration) (namespace : option string).

(** [tr] is what a run of this job on [w] did, with the outcome [r]. *)
Definition sol_runs (data : SolanaExecutorJobData SolCredential) (attempts : N) (ts : list sturn) (w : world)
    (r : result (JobError SolanaExecutorError) (SolanaExecutorResult EncodedTransactionWithStatusMeta))
    (w' : world) (tr : list (sdone * world)) : Prop :=
  srun redis_error_to_string namespace
    (sol_process satisfies_finalized job_to_value redis_error_to_string storage_error_to_string true
       confirmation_poll_interval data attempts) ts w = (r, w', tr).

Lemma sol_runs_ok data attempts ts w r w' tr l0 :
  Forall sfair ts -> w_disk w = LedgerFile l0 -> ledger_ok l0 -> sol_runs data attempts ts w r w' tr ->
  sres (given_up satisfies_finalized data l0) (completed satisfies_finalized data) r (reverse (map fst tr)) w' /\
  strace_ok (sol_rule data l0) [] tr.
Proof.
  intros Hts Hd Hok Hr. rewrite <- (app_nil_r (reverse _)). eapply ssafe_run; [done| |exact Hr].
  apply sol_process_spec. by exists l0.
Qed.
(** What was allowed when a call of the trace was made. *)
Lemma sol_runs_rule data attempts ts w r w' tr l0 before d w1 after :
  Forall sfair ts -> w_disk w = LedgerFile l0 -> ledger_ok l0 -> sol_runs data attempts ts w r w' tr ->
  tr = before ++ (d, w1) :: after -> sol_rule data l0 (sdoing_of d) (reverse (map fst before)) w1.
Proof.
  intros Hts Hd Hok Hr Htr. rewrite <- (app_nil_r (reverse _)).
  eapply strace_ok_at; [|exact Htr]. by eapply sol_runs_ok.
Qed.

Lemma in_history (d : sdone) (h : shistory) : d ∈ (reverse h : shistory) -> d ∈ h.
Proof. apply elem_of_reverse. Qed.

(** C17: Every transaction that a run of the Solana job sends is the signed transaction of
    an attempt that passed validation (its bytes decode to the attempt's signature,
    blockhash and signer, verify, and re-encode to themselves); the attempt with this send
    counted, between 1 and 20, was stored under the lock earlier in the run; and the
    journal binds the transaction to this signature and authorised the send, as a recorded
    attempt or as a granted rebroadcast of the retained one. *)
Theorem solana_sends_authorized data attempts ts w r w' tr l0 before wire commitment answer w1 after :
  Forall sfair ts -> w_disk w = LedgerFile l0 -> ledger_ok l0 -> sol_runs data attempts ts w r w' tr ->
  tr = before ++ (SDidCall (SendTransaction wire commitment) answer, w1) :: after ->
  ∃ a lock, validated_attempt_wire data a = Ok wire /\
    (1 <= sa_broadcast_attempts a <= MAX_BROADCASTS_PER_ATTEMPT)%N /\
    SDidStore (SoUpdate (sj_transaction_id data) a lock) (Ok tt) ∈ map fst before /\ may_send data a w1.
Proof.
  intros Hts Hd Hok Hr Htr. destruct (sol_runs_rule _ _ _ _ _ _ _ _ _ _ _ _ Hts Hd Hok Hr Htr) as (a & lock & Hv & Hn & Hu & Hm).
  exists a, lock. by rewrite elem_of_reverse in Hu.
Qed.

(** ** One signature *)

(** The signature that identifies a transaction on the wire. *)
Definition wire_signature (wire : string) : option Signature :=
  match base64_decode wire with
  | Ok bytes => match decode_transaction_wire bytes with Ok tx => head (vt_signatures tx) | Err _ => None end
  | Err _ => None
  end.
Lemma validated_signature data a wire : validated_attempt_wire data a = Ok wire -> wire_signature wire = Some (sa_signature a).
Proof.
  unfold validated_attempt_wire, wire_signature. intros Hv. destruct (sa_signed_transaction a) as [text|]; [|done].
  destruct (base64_decode text) as [bytes|] eqn:Hb; [|done]. destruct (decode_transaction_wire bytes) as [tx|] eqn:Ht; [|done].
  destruct (_ || _) eqn:Hc in Hv; [done|]. injection Hv as <-. rewrite Hb, Ht. rewrite !orb_false_iff in Hc.
  destruct Hc as [[[[[Hs _] _] _] _] _]. b2p. by apply dec_stable in Hs.
Qed.
Lemma replay_key_signature data data' a a' :
  sj_chain data = sj_chain data' -> sol_replay_key data a = sol_replay_key data' a' ->
  signature_to_string (sa_signature a) = signature_to_string (sa_signature a').
Proof. unfold sol_replay_key. intros ->. by intros Hk%(inj (String.append _))%(inj (String.append _))%(inj (String.append _)). Qed.

(** C18: Whatever two runs of jobs for one transaction on one chain send, in one process or
    in several, at any two moments of the ledger's history, is one transaction: both wires
    carry the same signature. *)
Theorem solana_one_signature data data' attempts attempts' ts ts' w w' r r' we we' tr tr' l0 l0'
    before before' wire wire' commitment commitment' answer answer' w1 w1' after after' :
  sj_transaction_id data = sj_transaction_id data' -> sj_chain data = sj_chain data' ->
  Forall sfair ts -> w_disk w = LedgerFile l0 -> ledger_ok l0 -> sol_runs data attempts ts w r we tr ->
  tr = before ++ (SDidCall (SendTransaction wire commitment) answer, w1) :: after ->
  Forall sfair ts' -> w_disk w' = LedgerFile l0' -> ledger_ok l0' -> sol_runs data' attempts' ts' w' r' we' tr' ->
  tr' = before' ++ (SDidCall (SendTransaction wire' commitment') answer', w1') :: after' ->
  later w1 w1' ->
  ∃ s s', wire_signature wire = Some s /\ wire_signature wire' = Some s' /\ signature_to_string s = signature_to_string s'.
Proof.
  intros Hi Hc Hts Hd Hok Hr Htr Hts' Hd' Hok' Hr' Htr' Hl.
  destruct (sol_runs_rule _ _ _ _ _ _ _ _ _ _ _ _ Hts Hd Hok Hr Htr) as (a & lock & Hv & _ & _ & Hb & _).
  destruct (sol_runs_rule _ _ _ _ _ _ _ _ _ _ _ _ Hts' Hd' Hok' Hr' Htr') as (a' & lock' & Hv' & _ & _ & Hb' & _).
  exists (sa_signature a), (sa_signature a'). split_and!; [by eapply validated_signature..|].
  eapply replay_key_signature; [exact Hc|]. rewrite Hi in Hb. eapply bound_agree; [|exact Hb']. by eapply known_later.
Qed.

(** C20: A run signs, and stores a new attempt, only when no signature was reserved for the
    transaction when the run started and storage answered in this run that there is no
    attempt; it stores the attempt only after the journal recorded it; and an update never
    changes the signature, the blockhash, the signed bytes or the submission of the attempt
    that this run read, stored or restored under the same lock. *)
Theorem solana_signs_once data attempts ts w r w' tr l0 before d w1 after :
  Forall sfair ts -> w_disk w = LedgerFile l0 -> ledger_ok l0 -> sol_runs data attempts ts w r w' tr ->
  tr = before ++ (d, w1) :: after ->
  let unsigned := (∀ key, ~ bound (sj_transaction_id data) key l0) /\
    ∃ lock, SDidStore (SoGet (sj_transaction_id data) lock) (Ok None) ∈ map fst before in
  match d with
  | SDidCall (SolSign _ signer _) _ => signer = so_signer_address (sj_options data) /\ unsigned
  | SDidStore (SoStore i a _) _ => i = sj_transaction_id data /\ unsigned /\
      known (sol_authorized i (sol_replay_key data a) (durable_attempt_payload data a)) w1
  | SDidStore (SoUpdate i a lock) _ => i = sj_transaction_id data /\ origin data a lock (map fst before)
  | _ => True
  end.
Proof.
  intros Hts Hd Hok Hr Htr unsigned. pose proof (sol_runs_rule _ _ _ _ _ _ _ _ _ _ _ _ Hts Hd Hok Hr Htr) as Hrule.
  assert (never_signed data l0 (reverse (map fst before)) -> unsigned) as Hn.
  { intros [Hb [lock Hg]]. split; [done|]. exists lock. by rewrite elem_of_reverse in Hg. }
  destruct d as [B o b|B q b]; [destruct o|destruct q]; try done; cbn in Hrule.
  - destruct Hrule as (-> & Hs & Ha). auto.
  - destruct Hrule as (-> & o & Ho & Hor). split; [done|]. exists o. by rewrite !elem_of_reverse in Hor.
  - destruct Hrule as [-> Hs]. auto.
Qed.

(** ** Outcomes *)

Lemma settled_in_trace data a err details (tr : list (sdone * world)) w :
  settled_as satisfies_finalized data a err details (reverse (map fst tr)) w ->
  settled_as satisfies_finalized data a err details (map fst tr) w.
Proof.
  intros [(s & st & H1' & H2' & Hx) Hk]. apply in_history in H1', H2'. split; [by exists s, st|done].
Qed.
Lemma unsigned_in_trace data l0 (tr : list (sdone * world)) :
  never_signed data l0 (reverse (map fst tr)) -> never_signed data l0 (map fst tr).
Proof. intros [Hb [lock Hg]]. split; [done|]. exists lock. by apply in_history. Qed.

(** C19: A run reports success or an on-chain failure only for an attempt whose signature
    the cluster reported finalized in this run, with a consistent receipt and that very
    outcome, and which the ledger holds as terminal under its signature; it gives up for
    any other reason only when no signature was reserved when it started and storage
    answered that there is no attempt. *)
Theorem solana_outcome_final data attempts ts w r w' tr l0 :
  Forall sfair ts -> w_disk w = LedgerFile l0 -> ledger_ok l0 -> sol_runs data attempts ts w r w' tr ->
  match r with
  | Ok outcome => ∃ a details, outcome = finished data a details /\
      settled_as satisfies_finalized data a None details (map fst tr) w'
  | Err (Fail (SxTransactionFailed reason)) => ∃ a err details, reason = transaction_error_debug err /\
      settled_as satisfies_finalized data a (Some err) details (map fst tr) w'
  | Err (Fail _) => never_signed data l0 (map fst tr)
  | Err (Nack _ _ _) => True
  end.
Proof.
  intros Hts Hd Hok Hr. destruct (sol_runs_ok _ _ _ _ _ _ _ _ Hts Hd Hok Hr) as [HQ _].
  destruct r as [outcome|[e d p|e]]; [|done|].
  - destruct HQ as (a & details & -> & Hs). exists a, details. by eauto using settled_in_trace.
  - destruct e; cbn in HQ; try by apply unsigned_in_trace.
    destruct HQ as (a & err & details & -> & Hs). exists a, err, details. by eauto using settled_in_trace.
Qed.

(** ** Completion *)

Context `{!Json WebhookJobPayload}
  `{!Json (WebhookNotificationEnvelope (SerializableSuccessData (SolanaExecutorResult EncodedTransactionWithStatusMeta))),
    !Json (WebhookNotificationEnvelope (SerializableNackData SolanaExecutorError)),
    !Json (WebhookNotificationEnvelope (SerializableFailData SolanaExecutorError)),
    !Json (WebhookNotificationEnvelope TransactionSentPayload)}.

(** C21: Whatever a run of the job ended with, the hook that completes the job deletes or
    changes the stored attempt only if the run saw the attempt finalized and left it
    terminal in the ledger; short of that it ends the admission only if there is no stored
    attempt, no signature was reserved when the run started and storage answered so. *)
Theorem solana_completion_safe borrowed attempts ts w r w' tr l0 ttl wq uuid clock σ :
  let data := job_data (bj_job borrowed) in
  let id := sj_transaction_id data in
  let σ' := sol_completion job_to_value namespace ttl wq uuid clock borrowed r σ in
  Forall sfair ts -> w_disk w = LedgerFile l0 -> ledger_ok l0 -> sol_runs data attempts ts w r w' tr ->
  ~ webhook_key wq (attempt_key namespace id) -> ~ webhook_key wq (admission_key namespace id) ->
  (∃ a err details, settled_as satisfies_finalized data a err details (map fst tr) w') \/
  same_at (attempt_key namespace id) σ σ' /\
  (same_at (admission_key namespace id) σ σ' \/
   exists_key σ (attempt_key namespace id) = false /\ never_signed data l0 (map fst tr)).
Proof.
  intros data id σ' Hts Hd Hok Hr Hk Hk'. destruct (sol_runs_ok _ _ _ _ _ _ _ _ Hts Hd Hok Hr) as [HQ _].
  assert (unsettled r \/ ∃ a err details, settled_as satisfies_finalized data a err details (map fst tr) w') as [Hu|Hs];
    [|right|by left].
  { destruct r as [outcome|[e d p|e]]; [right|by left|].
    - destruct HQ as (a & details & _ & Hs). exists a, None, details. by apply settled_in_trace.
    - destruct e; try by left. right. destruct HQ as (a & err & details & _ & Hs).
      exists a, (Some err), details. by apply settled_in_trace. }
  destruct (completion_same job_to_value namespace ttl wq uuid clock borrowed r σ Hu Hk Hk') as [Ha [Hb|[Hn [e ->]]]];
    (split; [done|]); [by left|right]. split; [done|]. apply unsigned_in_trace. by destruct e.
Qed.
End Claims.
