(* ===== verification/SolanaWitness.v ===== *)
(** The Solana executor on a concrete transaction: signed and sent, sent again, settled. *)

From Stdlib Require Import String Ascii NArith ZArith Lia.
From stdpp Require Import base gmap strings option list fin_maps relations countable.
From S2P Require Import Fairness Prelude Json JsonValue Redis RedisProg Errors FinalityTypes.
From S2P Require Import RecoveryLedger RecoveryChecks EngineProg RecoveryJournal RecoveryOps RecoverySpec.
From S2P Require Import RecoveryGate RecoveryLife RecoveryClaims RecoveryWitness Concrete.
From S2P Require Import Finality FinalityClaims QueueTypes Webhook EoaTypes EoaErrors ExecRecovery WorkerLogic.
From S2P Require Import SolanaStore SolanaProg SolanaWorker SolanaLogic.
From S2P Require Import SolanaSafety SolanaClaims.

(** ** A concrete library *)

(** A message is its blockhash and its fee payer; texts stand for bytes. *)
Definition wire_code (tx : VersionedTransaction string (string * string)) : string :=
  pos_to_bits (encode (vt_signatures tx, vt_message tx)).
Definition wire_decode (s : string) : option (VersionedTransaction string (string * string) * nat) :=
  p ← pos_of_bits s; '(signatures, message) ← decode p; Some (mkVersionedTransaction signatures message, String.length s).
#[export] Instance concrete_sdk : SolanaSdk := {|
  Message := string * string;
  msg_recent_blockhash := fst;
  msg_static_account_keys m := [m.2];
  msg_num_required_signatures _ := 1%N;
  try_compile payer _ blockhash := Ok (blockhash, payer);
  default_signature := "";
  default_hash := "";
  sanitize _ := true;
  uses_durable_nonce _ := false;
  verify_and_hash_message _ := true;
  bincode_encode tx := Some (wire_code tx);
  bincode_decode := wire_decode;
  hex_decode_bytes := Ok;
  base64_encode s := s;
  base64_decode := Ok;
  set_compute_unit_limit _ := mkInstruction "budget" [] "limit";
  set_compute_unit_price _ := mkInstruction "budget" [] "price";
  memo_program_id := "memo"
|}.

Definition number_of (v : Value) (key : string) : option N :=
  match get_field v key with Some (VNumber (PosInt n)) => Some n | _ => None end.
Definition text_of (v : Value) (key : string) : option string := get_field v key ≫= as_str.
Definition attempt_of_value (v : Value) : option SolanaTransactionAttempt :=
  match text_of v "signature", text_of v "blockhash", number_of v "broadcast_attempts", number_of v "last_broadcast_at",
    number_of v "reconciliation_checks", number_of v "sent_at", number_of v "submission_attempt_number" with
  | Some signature, Some blockhash, Some broadcasts, Some last, Some checks, Some sent, Some number =>
      Some (mkSolanaAttempt (signature : Signature) blockhash (number_of v "blockhash_last_valid_height")
        (text_of v "signed_transaction") broadcasts last checks
        (match get_field v "restored_from_journal" with Some (VBool b) => b | _ => false end) sent number)
  | _, _, _, _, _, _, _ => None
  end.
#[export] Instance concrete_rpc : SolanaRpc := {|
  TransactionError := string;
  transaction_error_debug s := s;
  UiTransactionError := string;
  ui_error s := s;
  EncodedTransactionWithStatusMeta := list string * option string;
  json_signatures e := Some e.1;
  meta_err e := Some e.2;
  SolCredential := unit;
  value_to_attempt := attempt_of_value
|}.
#[export] Instance attempt_eq_dec : EqDecision SolanaTransactionAttempt.
Proof. intros a b. unfold Decision. pose proof (_ : EqDecision string). cbn in *. repeat decide equality. Defined.
#[export] Instance attempt_countable : Countable SolanaTransactionAttempt.
Proof.
  refine (inj_countable' (fun a => (sa_signature a : string, sa_blockhash a, sa_blockhash_last_valid_height a,
      sa_signed_transaction a, sa_broadcast_attempts a, sa_last_broadcast_at a, sa_reconciliation_checks a,
      sa_restored_from_journal a, sa_sent_at a, sa_submission_attempt_number a))
    (fun '(a, b, c, d, e, f, g, h, i, j) => mkSolanaAttempt (a : Signature) b c d e f g h i j) _). by intros [].
Defined.
#[export] Instance attempt_json : Json SolanaTransactionAttempt := countable_json.

(** ** A transaction *)

Definition data_s : SolanaExecutorJobData SolCredential :=
  mkSolanaJob "s1" (mkSolanaTransactionOptions (SiInstructions [])
    (mkSolanaExecutionOptions "payer" SolanaDevnet 0 ClFinalized (Some PfAuto) None)) tt [].
Definition job_value (data : SolanaExecutorJobData SolCredential) : option Value := Some payload_s.
Definition w_sol : world := next (OpReserve "solana" "s1" fp_s payload_s) w_init.

Definition status_s (err : option string) : TransactionStatus :=
  mkTransactionStatus 7 None (match err with Some e => Err e | None => Ok tt end) err (Some ConfFinalized).
(** A cluster at time [now] that reports [found] for the signature. *)
Definition cluster (now : N) (found : option (option string)) (B : Type) (q : sol_call B) : B :=
  match q with
  | SolClock => now
  | SolUuid => "u1"
  | SolDeadline => false
  | GetVerified _ => Ok tt
  | GetRecentPrioritizationFees _ => Ok [3; 1; 2]%N
  | GetSignatureStatuses _ => Ok (mkSignatureStatuses 9 [status_s <$> found])
  | GetTransactionDetails s => Ok (mkTransactionDetails 7 None ([s : string], default None found))
  | GetBlockHeight => Ok 50%N
  | IsBlockhashValid _ _ => Ok true
  | GetLatestBlockhash _ => Ok ("blockhash", 100%N)
  | SolSign tx _ _ => Ok (mkVersionedTransaction ["sig" : Signature] (vt_message tx))
  | SendTransaction _ _ => Ok "sig"
  end.
Definition sol_turns (now : N) (found : option (option string)) : list sturn :=
  replicate 80 (mkSturn id [] [] (cluster now found)).
Lemma sol_turns_fair now found : Forall sfair (sol_turns now found).
Proof. apply Forall_replicate. split; [by intros w|constructor]. Qed.

Definition sol_go (now : N) (found : option (option string)) (w : world) :=
  srun (fun _ => "") None
    (sol_process (fun _ => true) job_value (fun _ => "") (fun _ => "") true (seconds 2) data_s 1) (sol_turns now found) w.
Definition w_sol_sent : world := (sol_go 5000 None w_sol).1.2.

(** The ledger after the send is the one after recording the attempt. *)
Definition attempt_sol : SolanaTransactionAttempt :=
  mkSolanaAttempt ("sig" : Signature) "blockhash" (Some 100%N)
    (Some (wire_code (mkVersionedTransaction ["sig"] ("blockhash", "payer")))) 0 0 0 false 5000 1.
Definition w_recorded : world :=
  next (OpBroadcast "solana" "s1" (sol_replay_key data_s attempt_sol) (durable_attempt_payload data_s attempt_sol)) w_sol.
Lemma sol_life : rtc life w_start w_sol.
Proof. etrans; [exact start_init|apply next_life]. Qed.
Lemma sol_ok : ledger_ok (ledger_of w_sol).
Proof. apply reached_ok; [exact sol_life|by vm_compute]. Qed.
Lemma recorded_ok : ledger_ok (ledger_of w_recorded).
Proof. apply reached_ok; [etrans; [exact sol_life|apply next_life]|by vm_compute]. Qed.
Definition wire_s : string := wire_code (mkVersionedTransaction ["sig"] ("blockhash", "payer")).
Definition world_at (tr : list (sdone * world)) (n : nat) : world := default w_start (snd <$> tr !! n).
Definition as_sol_send (d : sdone) : option (string * SolanaCommitmentLevel * client_result string) :=
  match d with
  | SDidCall q b => match q in sol_call B return B -> _ with SendTransaction w c => fun b => Some (w, c, b) | _ => fun _ => None end b
  | SDidStore _ _ => None
  end.
Definition as_sign (d : sdone) :=
  match d with
  | SDidCall q b => match q in sol_call B return B -> _ with SolSign t s c => fun b => Some (t, s, c, b) | _ => fun _ => None end b
  | SDidStore _ _ => None
  end.
Lemma as_sol_send_Some d w c b : as_sol_send d = Some (w, c, b) -> d = SDidCall (SendTransaction w c) b.
Proof. destruct d as [B o x|B q x]; [done|]. destruct q; try done. by intros [= <- <- <-]. Qed.
Lemma as_sign_Some d t s c b : as_sign d = Some (t, s, c, b) -> d = SDidCall (SolSign t s c) b.
Proof. destruct d as [B o x|B q x]; [done|]. destruct q; try done. by intros [= <- <- <- <-]. Qed.

(** The [n]th call of a run, found by what it is. *)
Lemma call_at {X} (f : sdone -> option X) tr n x d :
  (tr !! n ≫= fun e => f e.1) = Some x -> (∀ d', f d' = Some x -> d' = d) ->
  tr = take n tr ++ (d, world_at tr n) :: drop (S n) tr.
Proof.
  unfold world_at. destruct (tr !! n) as [[d' w]|] eqn:Hn; [|done]. cbn. intros Hf Hd. apply Hd in Hf as ->.
  symmetry. by apply take_drop_middle.
Qed.
Lemma go_runs now found w :
  sol_runs (fun _ => true) job_value (fun _ => "") (fun _ => "") (seconds 2) None data_s 1 (sol_turns now found) w
    (sol_go now found w).1.1 (sol_go now found w).1.2 (sol_go now found w).2.
Proof. unfold sol_runs. by destruct (sol_go now found w) as [[r w'] tr] eqn:E. Qed.

(** ** Witnesses *)

Definition first_run : list (sdone * world) := (sol_go 5000 None w_sol).2.
Definition second_run : list (sdone * world) := (sol_go 9000 None w_sol_sent).2.

Lemma solana_sends_authorized_witness :
  ∃ a lock, validated_attempt_wire data_s a = Ok wire_s /\ (1 <= sa_broadcast_attempts a <= 20)%N /\
    SDidStore (SoUpdate "s1" a lock) (Ok tt) ∈ map fst (take 30 first_run) /\ may_send data_s a (world_at first_run 30).
Proof.
  apply (solana_sends_authorized (fun _ => true) job_value (fun _ => "") (fun _ => "") (seconds 2) None data_s 1
    (sol_turns 5000 None) w_sol (sol_go 5000 None w_sol).1.1 w_sol_sent first_run (ledger_of w_sol) (take 30 first_run)
    wire_s CmFinalized (Ok "sig") (world_at first_run 30) (drop 31 first_run)).
  - apply sol_turns_fair.
  - by vm_compute.
  - exact sol_ok.
  - apply go_runs.
  - apply (call_at as_sol_send _ _ (wire_s, CmFinalized, Ok "sig")); [by vm_compute|]. intros d. apply as_sol_send_Some.
Defined.

Lemma solana_one_signature_witness :
  ∃ s s', wire_signature wire_s = Some s /\ wire_signature wire_s = Some s' /\ signature_to_string s = signature_to_string s'.
Proof.
  apply (solana_one_signature (fun _ => true) job_value (fun _ => "") (fun _ => "") (seconds 2) None data_s data_s 1 1
    (sol_turns 5000 None) (sol_turns 9000 None) w_sol w_sol_sent (sol_go 5000 None w_sol).1.1
    (sol_go 9000 None w_sol_sent).1.1 w_sol_sent (sol_go 9000 None w_sol_sent).1.2 first_run second_run
    (ledger_of w_sol) (ledger_of w_recorded) (take 30 first_run) (take 24 second_run) wire_s wire_s
    CmFinalized CmFinalized (Ok "sig") (Ok "sig") (world_at first_run 30) (world_at second_run 24)
    (drop 31 first_run) (drop 25 second_run)).
  - reflexivity.
  - reflexivity.
  - apply sol_turns_fair.
  - by vm_compute.
  - exact sol_ok.
  - apply go_runs.
  - apply (call_at as_sol_send _ _ (wire_s, CmFinalized, Ok "sig")); [by vm_compute|]. intros d. apply as_sol_send_Some.
  - apply sol_turns_fair.
  - by vm_compute.
  - exact recorded_ok.
  - apply go_runs.
  - apply (call_at as_sol_send _ _ (wire_s, CmFinalized, Ok "sig")); [by vm_compute|]. intros d. apply as_sol_send_Some.
  - apply later_same_disk. by vm_compute.
Defined.

Definition cred_s : SolCredential (SolanaRpc:=concrete_rpc) := tt.
Definition unsigned_s : VersionedTransaction Signature Message := mkVersionedTransaction [""] ("blockhash", "payer").
Definition signed_s : VersionedTransaction Signature Message := mkVersionedTransaction ["sig"] ("blockhash", "payer").
Lemma solana_signs_once_witness :
  "payer" = so_signer_address (sj_options data_s) /\ (∀ key, ~ bound "s1" key (ledger_of w_sol)) /\
  ∃ lock, SDidStore (SoGet "s1" lock) (Ok None) ∈ map fst (take 14 first_run).
Proof.
  apply (solana_signs_once (fun _ => true) job_value (fun _ => "") (fun _ => "") (seconds 2) None data_s 1
    (sol_turns 5000 None) w_sol (sol_go 5000 None w_sol).1.1 w_sol_sent first_run (ledger_of w_sol) (take 14 first_run)
    (SDidCall (SolSign unsigned_s "payer" cred_s) (Ok signed_s))
    (world_at first_run 14) (drop 15 first_run)).
  - apply sol_turns_fair.
  - by vm_compute.
  - exact sol_ok.
  - apply go_runs.
  - apply (call_at as_sign _ _ (unsigned_s, "payer", cred_s, Ok signed_s)); [by vm_compute|]. intros d. apply as_sign_Some.
Defined.

Definition settled_run := sol_go 9000 (Some None) w_sol_sent.
Definition outcome_s : SolanaExecutorResult EncodedTransactionWithStatusMeta :=
  mkSolanaResult "s1" "sig" "payer" "solana:devnet" 1 7 None (["sig"], None).
Lemma solana_outcome_final_witness :
  ∃ a details, outcome_s = finished data_s a details /\
    settled_as (fun _ => true) data_s a None details (map fst settled_run.2) settled_run.1.2.
Proof.
  apply (solana_outcome_final (fun _ => true) job_value (fun _ => "") (fun _ => "") (seconds 2) None data_s 1
    (sol_turns 9000 (Some None)) w_sol_sent (Ok outcome_s) settled_run.1.2 settled_run.2 (ledger_of w_recorded)).
  - apply sol_turns_fair.
  - by vm_compute.
  - exact recorded_ok.
  - replace (Ok outcome_s) with settled_run.1.1; [apply go_runs|by vm_compute].
Defined.

(** The job has no receivers, so no notification is written out. *)
#[export] Instance unwritten {T} : Json T | 100.
Proof. refine {| to_json _ := None; from_json _ := None |}. done. Defined.
Definition borrowed_s : BorrowedJob (SolanaExecutorJobData SolCredential) :=
  mkBorrowedJob (mkJob "s1" data_s 1 0 None None) "lease".
Definition σ_sol : redis := sv_data (w_server w_sol_sent).
Definition retry_s := (sol_go 5000 None w_sol).1.1.
Lemma solana_completion_safe_witness :
  let id := sj_transaction_id (job_data (bj_job borrowed_s)) in
  let σ' := sol_completion job_value None 60 "webhook" (fun _ => "n") (fun _ => 5%N) borrowed_s retry_s σ_sol in
  (∃ a err details, settled_as (fun _ => true) (job_data (bj_job borrowed_s)) a err details (map fst first_run) w_sol_sent) \/
  same_at (attempt_key None id) σ_sol σ' /\
  (same_at (admission_key None id) σ_sol σ' \/
   exists_key σ_sol (attempt_key None id) = false /\
   never_signed (job_data (bj_job borrowed_s)) (ledger_of w_sol) (map fst first_run)).
Proof.
  apply (solana_completion_safe (fun _ => true) job_value (fun _ => "") (fun _ => "") (seconds 2) None borrowed_s 1
    (sol_turns 5000 None) w_sol retry_s w_sol_sent first_run (ledger_of w_sol) 60 "webhook"
    (fun _ => "n") (fun _ => 5%N) σ_sol).
  - apply sol_turns_fair.
  - by vm_compute.
  - exact sol_ok.
  - apply go_runs.
  - by intros [rest [=]].
  - by intros [rest [=]].
Defined.
